(* ===== verification/_CoqProject ===== *)
-Q . S2P
Prelude.v
ControlRecord.v
Transition.v
TransitionInv.v
TransitionEffect.v
Samples.v
TransitionSpec.v
History.v
Locks.v
Codec.v
StoreSpec.v
Store.v
StoreProofs.v
Commit.v
Cell.v
Backend.v
Validator.v
Activate.v
Sign.v
Gc.v
GcProofs.v
Rekey.v
Cbor.v
CborProofs.v
CborSample.v
Wire.v
Ingress.v
Crypto.v
SessionErrors.v
PostActive.v
Delegation.v
AuthFrames.v
Intent.v
Seams.v
Refine.v
Noise.v
Handshake.v
SessionSamples.v
Records.v
Protocol.v
HandshakeProofs.v
Agreement.v
Session.v
SessionProofs.v
SessionLink.v
RosterView.v
Registry.v
RegistrySteps.v
RegistryInv.v
RegistryPreserve.v
RegistryLock.v
RegistryBodies.v
RegistryHistory.v
RegistryLive.v
RegistrySpec.v
Canonical.v
Ledger.v
LedgerDisk.v
LedgerProofs.v
LedgerSpec.v
Household.v
Roster.v
RosterAdmit.v
RosterProofs.v
RosterInv.v
RosterRecord.v
RosterRederive.v
RosterStore.v
RosterDisk.v
RosterHistory.v
RosterSamples.v
RosterSpec.v
Runtime.v
RuntimeHistory.v
RuntimeRegistry.v
RuntimeAdapters.v
RuntimeCeremony.v
RuntimeSpec.v
RuntimeSamples.v
RosterBridge.v
