(* ===== verification/Prelude.v ===== *)
(** * Verification library for the theyos mesh-session control plane

    The program. theyos is a Rust workspace under [src/admin/rust]. Its
    mesh-session subsystem decides which machine key may sign for a household
    and carries the sessions those keys authenticate. Modelled here are
    [mesh-session-control-model-rs] (the control record: one durable record per
    identity and purpose that says which key generations are live, pending,
    revoked or to be destroyed), [mesh-session-core-rs] (the wire protocol
    between peers) and, of [household-rs], the registry of the sessions a
    machine admits, the roster of machines it judges them by (the signed
    checkpoints, their admission and their durable store), and the ledger of
    the nonces its peers have spent; and [mesh-session-runtime-rs], which puts
    these behind the traits of the protocol. The other crates are
    servers, command line tools, virtual machine drivers and key storage around
    operating system and network interfaces; they are not modelled.

    How the parts interact. Every change of the record is a transition
    ([transition.rs], [apply]) computed from the record on disk and committed
    by [commit.rs] through the compare-and-swap store of [store.rs], under the
    locks of [locks.rs]; [cell.rs] ties the three together and keeps one cell
    per path. [activate.rs], [gc.rs] and [sign.rs] are the orchestrations that
    combine the cell with the secret backend ([secret_backend.rs]), the roster
    and the signature verifier ([validator.rs]), doing slow work with no lock
    held. In the protocol crate two machines run a ceremony over a Noise
    channel ([noise.rs], [auth_state_machine.rs]): five signed frames and a
    signed intent ([auth_frames.rs], [intent.rs], [delegation.rs]), in canonical
    CBOR ([cbor.rs]) inside length-prefixed records ([wire.rs]), within the
    budget their connection was admitted with ([ingress.rs]). It spends a nonce
    of a ledger and a permit of an admission registry, and ends in an active
    session that carries data ([post_active.rs]) and rekeys as [rekey.rs] says.
    Clocks, signer, verifier, resolver, ledger and registry are traits there.
    The registry is [household-rs/src/mesh_session_registry.rs]: ceremonies
    reserve and commit sessions in it, sessions ask its gates for a guard around
    every payload, and roster updates revoke sessions and wait their guards out.
    The ledger is [household-rs/src/mesh_intent_nonce_ledger.rs]: one file of
    unexpired nonces per household, replaced atomically under a lock file that
    also holds a marker, by a worker that callers wait for up to a deadline.
    The roster is [machine_roster_authority.rs] and [machine_roster_store.rs]:
    the household's owner signs checkpoints, each naming its predecessor, the
    machines that are active and the chain of revocations so far; a machine
    admits them one by one, keeps the last with its genesis and predecessor in
    one file and the highest wall clock it has seen in another, and re-derives
    its state from those files, verifying every signature again, whenever it
    answers which machines are current. [mesh-session-runtime-rs] is where they
    meet: it consumes a nonce with a floor the roster gives out, admits a peer
    against a view the roster gives out and a permit of the registry, and
    answers the validator of the control record from the roster
    ([roster_bridge.rs], with [mesh_session_bridge.rs] of [keystore-rs]).

    Files, in dependency order.
    - [Prelude] (this file): Rust's [Result] and [?] as a monad, checked 64-bit
      arithmetic, bytes and endianness, the iterator methods the code uses,
      the tactics [res_inv], [case_bools] and [by_decide], the hint databases.
    - [ControlRecord] ([record.rs]): the data types, slot and identity digests,
      bounded terminal results, [cap_occupancy], and [invariants_hold] loop by
      loop, with its declarative reading [Consistent]. SHA-256 and BLAKE3 are
      the parameters of the class [Hashes]; [HashLaws] states a digest length
      and collision freedom.
    - [Transition] ([transition.rs]): [apply], one definition per arm.
      [TransitionInv]: the invariant [Inv], its preservation arm by arm, and
      reachability ([rstep]). [TransitionEffect]: what an accepted arm does, as
      a relation. [Samples]: concrete hashes and a concrete history at which
      the hypotheses of the theorems hold. [TransitionSpec]: the theorems.
      [History]: long-range facts the orchestrations rely on.
    - [Locks] ([locks.rs]): threads stepping through the turnstile and the
      access lock; every interleaving is a path of [lstep].
    - [Codec], [StoreSpec], [Store], [StoreProofs] ([store.rs]): canonical
      CBOR over an abstract [ciborium]; the store trait as a class with a
      contract; the file store over a disk in which a crash may surface any
      directory state since the last directory fsync, and file data only if it
      was synced, with every system call allowed to fail; the proof that the
      file store and the fault-injecting store keep the contract.
    - [Commit] ([commit.rs]) and [Cell] ([cell.rs]): proved against the store
      contract, so they hold for every store that keeps it. [cstep] collects
      all a cell's disk can go through: commits, sweeps, crashes.
    - [Backend] ([secret_backend.rs]): the trait and its documented contract,
      discharged by the in-memory backend. [Validator] ([validator.rs]).
    - [Activate] ([activate.rs]), [Sign] ([sign.rs]), [Gc] and [GcProofs]
      ([gc.rs]): the orchestrations. What other threads and processes do
      between two of their actions is an argument of the definitions, bounded
      in the theorems only by what a cell allows ([rtc rstep], [rtc cstep]).
    - [Rekey] ([rekey.rs]), [Cbor], [CborProofs], [CborSample] ([cbor.rs];
      [ciborium] and serde's visitors are the class [CborCrate] with the laws
      [CborLaws], which the concrete codec of [CborSample] satisfies), [Wire]
      ([wire.rs]), [Ingress] ([ingress.rs]), [Crypto] (SHA-256, P-256 and
      [snow], as classes), [SessionErrors] ([error.rs]), [PostActive]
      ([post_active.rs]), [Delegation] ([delegation.rs]), [AuthFrames]
      ([auth_frames.rs]), [Intent] ([intent.rs]): the data of the protocol.
    - [Seams]: the traits the ceremony calls, as one class over an arbitrary
      external state, and the connection with a log of every effect. [Refine]:
      a small logic for showing that a program's log is a path of a state
      machine.
    - [Noise] ([noise.rs]), [Handshake] (the ceremony of
      [auth_state_machine.rs], one definition per phase), [Session] (the active
      session of the same file). [Protocol]: what each side promises, as two
      labelled state machines. [HandshakeProofs], [Agreement], [SessionProofs],
      [SessionLink], [Records]: the theorems. [SessionSamples]: toy instances
      of every class, on which both sides of a ceremony run byte for byte.
    - [RosterView] ([machine_roster_authority.rs], its last part): the view of
      a roster checkpoint and the bindings derived from it. [Registry]
      ([mesh_session_registry.rs]): the data under the registry lock and each
      critical section as a function. [RegistrySteps]: the methods as threads,
      one step per access to a shared atomic, a lock or the condition variable,
      with panics and spurious wake-ups. [RegistryInv]: the invariant and what a
      step of one call leaves true for another; [RegistryPreserve] (draining and
      forwarding), [RegistryLock] (the registry lock) and [RegistryBodies] (the
      critical sections) prove it preserved. [RegistryHistory]: what only moves
      forward. [RegistryLive]: progress. [RegistrySpec]: the theorems.
    - [Canonical] ([tunnel-wire-rs/src/canonical.rs]): the canonical CBOR of
      data at rest. [Ledger] ([mesh_intent_nonce_ledger.rs]): the record of
      spent nonces, its encoding and the decision on a request. [LedgerDisk]:
      its files, with the states a power failure may expose, and every
      operation on them with every call allowed to fail. [LedgerProofs]: the
      invariant of all histories of a ledger. [LedgerSpec]: the theorems.
    - [Household] ([person_cert.rs], [machine_cert.rs], [caveats.rs],
      [keys.rs]): owner and machine certificates and their verification.
      [Roster] and [RosterAdmit] ([machine_roster_authority.rs]): the wire
      types, the hashes and signatures over them; projection, admission, the
      replay of stored checkpoints, currency. [RosterProofs], [RosterInv]: what
      each of these accepts, and the invariant of an accepted state.
      [RosterRecord] and [RosterStore] ([machine_roster_store.rs]): the stored
      records and the re-derivation of a state from them; the two files, the
      atomic writer, the floor latch, the operations of the coordinator.
      [RosterRederive], [RosterDisk], [RosterHistory]: their laws, and what one
      operation or power failure can do to the files. [RosterSamples]: a
      household of two machines whose roster runs byte for byte. [RosterSpec]:
      the theorems.
    - [Runtime] ([d1_admission.rs], [intent_nonce_ledger_bridge.rs],
      [clock.rs]): the adapters, over the state of one machine (roster, ledger,
      registry). [RuntimeHistory]: the states a machine can reach, running,
      restarting and losing power, and their invariant. [RuntimeRegistry]: a
      permit is for the binding it was asked for, and asking for one ends.
      [RuntimeAdapters]: each adapter is a run of the machine. [RuntimeCeremony]:
      the class [RuntimeSeams], by which the seams of a ceremony are these
      adapters, and a logic that carries the machine through a ceremony.
      [RuntimeSpec]: the theorems. [RuntimeSamples]: a machine on which two
      ceremonies run byte for byte. [RosterBridge] ([roster_bridge.rs],
      [mesh_session_bridge.rs]): the roster behind the validator and the
      resolver of retained generations.

    What the theorems show.
    - Record: records reachable with inspection reports that name the inspected
      slot are consistent ([apply] does not check the slot, and a report of
      another one breaks it); a revocation with a new transaction id is never
      blocked and fences out every older worker; terminal requests are applied once; slots
      are conserved; quarantine is permanent; the authority changes only by
      revocation and activation.
    - Store, commit, cell: replacement is atomic and durable under crashes and
      failing calls; a commit leaves the record it found or what one transition
      made of it; a committed record is never lost; one live cell per path.
    - Orchestrations: an activation makes exactly the validated and physically
      confirmed generation live, and loses to a concurrent revocation; a
      signature is made by the validated key while it is live, and never after
      a revocation; the GC worker destroys only keys no record can use again,
      and its loops terminate.
    - Locks: exclusion, no overtaking of a waiting writer, progress.
    - Protocol data: canonical CBOR is a normal form; frames, intents and
      records round-trip and decode only to valid values; a signature cannot be
      moved to another record; permits cannot jump the rekey boundary.
    - Ceremony: each side's effects, in order, are a path of its state machine
      whatever the peer, the stream and the seams do; a nonce is spent at most
      once and only for an authenticated intent; a permit is settled exactly
      once; an initiator that becomes active agrees with its responder.
    - Session: closing is final; a payload moves only under a granted guard and
      before the expiry; receiving ends; what is sent arrives, across rekeys.
    - Registry, in every interleaving: a guard is granted only while the roster
      allows the session; condemned sessions of the current generation end
      closed and drained, and what is drained stays so;
      a permit always decides its session; updates never go back; calls do not
      deadlock.
    - Ledger, in every history of failing calls, killed processes and power
      failures: a committed nonce is committed again only after some request
      presented a floor past its end (its own, if floors do not go back; if they
      do, it can be committed again unexpired) and is not lost before that; every
      answer says what became of the record; a ledger can always be opened again.
    - Roster, in every history of presented checkpoints, failing calls,
      restarts and power failures: a revocation is permanent (up to collisions
      of SHA-256 between presented revocations); the wall floor never goes
      back; an active answer is vouched for by the owner's and the household's
      signatures on disk; an answer to a checkpoint is the state machine's, and
      durable; queries and snapshots agree; and a checkpoint issued outside its
      certificate's validity can disable the store.
    - End to end, on a machine that runs ceremonies, is restarted and loses
      power: the peer of a session is a machine the household certified, active
      in a view the roster gave out during the ceremony; the nonce of an intent
      is accepted twice only after it expired by a floor the roster gave out; an
      admission ends by its deadline; and the resolver of the control record
      answers for its own machine, whichever initiator it is asked for.

    Conventions and bounds. A [u64] is a [Z] with its bound in the
    well-formedness predicates and [checked_add] where the code uses it; a
    timestamp or revision is such a [Z]. An I/O failure is an explicit
    argument (a record of which calls fail), so theorems quantify over all of
    them. An assertion or [unreachable!] that fires is [None] or [Panicked].
    Loops the code bounds by a counter recurse on it (eight commit attempts);
    the GC loops take fuel, and [2 (n + m) + 1] rounds are proved enough for
    [n] entries and [m] added meanwhile; reads and writes take as many rounds
    as bytes, and the receive loop as many as the stream has bytes, since every
    round takes a record off it ([receive_ends]).

    Not modelled: lock poisoning outside the registry; the registry's notices
    to session handles once a revocation is over; how the ledger's directories
    and lock file are found and checked when it is opened; how a roster
    coordinator reads and validates the household record and the owner's
    authentication state when it is made; the envelope roster evidence is signed
    in; issuing certificates; the memory ordering
    inside the standard locks; the signer over opaque key slots and the cell
    factory of [mesh_session_bridge.rs]; the fault-injecting test cell (its store is modelled); the clocks of
    the test suite; hash, CBOR, signature and Noise implementations
    (parameters); the zeroizing of buffers; the crates around these. *)

From stdpp Require Import base gmap sets list strings.
From Stdlib Require Import ZArith Lia Ascii Sorting.Sorted.

#[global] Set Default Goal Selector "!".

Open Scope Z_scope.

(** ** Fallible code: Rust's [Result] and the [?] operator *)

Inductive Result (E A : Type) : Type :=
| Ok (a : A)
| Err (e : E).
Arguments Ok {E A} _.
Arguments Err {E A} _.

#[export] Instance Result_ret {E} : MRet (Result E) := λ A a, Ok a.

(** [x ← m; k] is Rust's [let x = m?; k]. *)
#[export] Instance Result_bind {E} : MBind (Result E) :=
  λ A B f m, match m with Ok a => f a | Err e => Err e end.

#[export] Instance Result_eq_dec {E A} `{EqDecision E, EqDecision A} :
  EqDecision (Result E A).
Proof. solve_decision. Defined.

(** [if b { return Err(e) }] *)
Definition reject_if {E} (b : bool) (e : E) : Result E unit :=
  if b then Err e else Ok tt.

(** [Option::ok_or] *)
Definition ok_or {E A} (o : option A) (e : E) : Result E A :=
  match o with Some a => Ok a | None => Err e end.

(** [Result::map_err] *)
Definition map_err {E F A} (f : E → F) (m : Result E A) : Result F A :=
  match m with Ok a => Ok a | Err e => Err (f e) end.

Definition is_ok {E A} (m : Result E A) : bool :=
  match m with Ok _ => true | Err _ => false end.

Definition is_some {A} (o : option A) : bool :=
  match o with Some _ => true | None => false end.

Section result_lemmas.
Context {E A B : Type}.
Implicit Types (m : Result E A) (f : A → Result E B).

Lemma bind_Ok m f b : m ≫= f = Ok b ↔ ∃ a, m = Ok a ∧ f a = Ok b.
Proof. destruct m; cbn; naive_solver. Qed.

Lemma bind_Err m f e :
  m ≫= f = Err e ↔ m = Err e ∨ ∃ a, m = Ok a ∧ f a = Err e.
Proof. destruct m; cbn; naive_solver. Qed.
End result_lemmas.

Lemma Ok_inj {E A} (a b : A) : Ok (E:=E) a = Ok b → a = b.
Proof. congruence. Qed.

Lemma reject_if_Ok {E} b (e : E) u : reject_if b e = Ok u ↔ b = false.
Proof. destruct b, u; cbn; naive_solver. Qed.

Lemma reject_if_Err {E} b (e e' : E) : reject_if b e = Err e' ↔ b = true ∧ e = e'.
Proof. destruct b; cbn; naive_solver. Qed.

Lemma ok_or_Ok {E A} (o : option A) (e : E) a : ok_or o e = Ok a ↔ o = Some a.
Proof. destruct o; cbn; naive_solver. Qed.

Lemma ok_or_Err {E A} (o : option A) (e e' : E) :
  ok_or o e = Err e' ↔ o = None ∧ e = e'.
Proof. destruct o; cbn; naive_solver. Qed.

Lemma map_err_Ok {E F A} (g : E → F) (m : Result E A) a :
  map_err g m = Ok a ↔ m = Ok a.
Proof. destruct m; cbn; naive_solver. Qed.

Lemma is_some_true {A} (o : option A) : is_some o = true ↔ ∃ a, o = Some a.
Proof. destruct o; cbn; naive_solver. Qed.

Lemma is_some_false {A} (o : option A) : is_some o = false ↔ o = None.
Proof. destruct o; cbn; naive_solver. Qed.

(** Inverts a chain of [?]-style binds that ended in [Ok]. *)
Ltac res_step H :=
  lazymatch type of H with
  | mbind _ _ = Ok _ =>
      let x := fresh "x" in let H1 := fresh "Hok" in
      apply bind_Ok in H as (x & H1 & H); res_step H1; res_step H
  | reject_if _ _ = Ok ?u => apply reject_if_Ok in H; try clear u
  | ok_or _ _ = Ok _ => apply ok_or_Ok in H
  | map_err _ _ = Ok _ => apply map_err_Ok in H; res_step H
  | Ok _ = Ok _ => apply Ok_inj in H
  | Err _ = Ok _ => discriminate H
  | _ => idtac
  end.

Ltac res_inv :=
  repeat match goal with
  | H : mbind _ _ = Ok _ |- _ => res_step H
  | H : reject_if _ _ = Ok _ |- _ => res_step H
  | H : ok_or _ _ = Ok _ |- _ => res_step H
  | H : map_err _ _ = Ok _ |- _ => res_step H
  | H : Ok _ = Ok _ |- _ => apply Ok_inj in H
  | H : Err _ = Ok _ |- _ => discriminate H
  | H : Ok _ = Err _ |- _ => discriminate H
  | H : is_some _ = false |- _ => apply is_some_false in H
  | H : (_ || _)%bool = false |- _ => apply orb_false_iff in H as [? ?]
  | H : (_ && _)%bool = true |- _ => apply andb_true_iff in H as [? ?]
  | H : negb _ = false |- _ => apply negb_false_iff in H
  | H : negb _ = true |- _ => apply negb_true_iff in H
  | H : bool_decide _ = true |- _ => apply bool_decide_eq_true in H
  | H : bool_decide _ = false |- _ => apply bool_decide_eq_false in H
  end.

(** ** Stateful fallible code *)

(** A step on a state [S] that may fail with an [E]; what it did to the state
    before failing stays done, as with [&mut]. *)
Definition ST (S E A : Type) : Type := S → Result E A * S.

#[export] Instance ST_ret {S E} : MRet (ST S E) := λ A a s, (Ok a, s).

#[export] Instance ST_bind {S E} : MBind (ST S E) :=
  λ A B f m s, match m s with
               | (Ok a, s) => f a s
               | (Err e, s) => (Err e, s)
               end.

(** A [Result] where a step is expected. *)
Definition lift {S E A} (r : Result E A) : ST S E A := λ s, (r, s).

(** [.map_err(f)?] on a step. *)
Definition st_map_err {S E F A} (f : E → F) (m : ST S E A) : ST S F A :=
  λ s, match m s with (r, s) => (map_err f r, s) end.

Section st_lemmas.
Context {S E A B : Type}.

Lemma st_bind_Ok (m : ST S E A) (f : A → ST S E B) s b s' :
  (m ≫= f) s = (Ok b, s') ↔ ∃ a s1, m s = (Ok a, s1) ∧ f a s1 = (Ok b, s').
Proof.
  unfold mbind, ST_bind. destruct (m s) as [[a|e] s1]; split.
  - eauto.
  - by intros (? & ? & [= <- <-] & ?).
  - done.
  - by intros (? & ? & [=] & _).
Qed.

Lemma lift_Ok (r : Result E A) (s s' : S) a : lift r s = (Ok a, s') ↔ r = Ok a ∧ s' = s.
Proof. unfold lift. split; [by intros [= -> ->]|by intros [-> ->]]. Qed.

Lemma st_map_err_Ok {F} (f : E → F) (m : ST S E A) s a s' :
  st_map_err f m s = (Ok a, s') ↔ m s = (Ok a, s').
Proof.
  unfold st_map_err. destruct (m s) as [[b|e] s1]; cbn; split; congruence.
Qed.
End st_lemmas.

(** Inverts a run of a step that ended in [Ok]. *)
Ltac st_step H :=
  lazymatch type of H with
  | mbind _ _ _ = (Ok _, _) =>
      let x := fresh "x" in let s := fresh "s" in let H1 := fresh "Hst" in
      apply st_bind_Ok in H as (x & s & H1 & H); st_step H1; st_step H
  | lift _ _ = (Ok _, _) =>
      let Hs := fresh "Hs" in apply lift_Ok in H as [H Hs]; subst; res_step H
  | st_map_err _ _ _ = (Ok _, _) => apply st_map_err_Ok in H; st_step H
  | _ => idtac
  end.

(** ** Machine integers *)

Definition u64_modulus : Z := 2 ^ 64.
Definition in_u64 (z : Z) : Prop := 0 ≤ z < u64_modulus.
Definition nonzero_u64 (z : Z) : Prop := 0 < z < u64_modulus.

Definition u32_modulus : Z := 2 ^ 32.

(** [n as u32] on a [usize]: truncation. *)
Definition as_u32 (n : nat) : Z := Z.of_nat n mod u32_modulus.

(** [u64::checked_add] and [NonZeroU64::checked_add] *)
Definition checked_add (a b : Z) : option Z :=
  if a + b <? u64_modulus then Some (a + b) else None.

(** [u64::checked_sub] *)
Definition checked_sub (a b : Z) : option Z :=
  if b <=? a then Some (a - b) else None.

Lemma checked_add_Some a b c :
  checked_add a b = Some c ↔ c = a + b ∧ a + b < u64_modulus.
Proof. unfold checked_add. destruct (Z.ltb_spec (a + b) u64_modulus); naive_solver lia. Qed.

Lemma checked_add_None a b : checked_add a b = None ↔ u64_modulus ≤ a + b.
Proof. unfold checked_add. destruct (Z.ltb_spec (a + b) u64_modulus); naive_solver lia. Qed.

Lemma checked_sub_Some a b c : checked_sub a b = Some c ↔ c = a - b ∧ b ≤ a.
Proof. unfold checked_sub. destruct (Z.leb_spec b a); naive_solver lia. Qed.

Lemma in_u64_succ z : in_u64 z → z + 1 < u64_modulus → in_u64 (z + 1).
Proof. unfold in_u64. lia. Qed.

(** ** Bytes *)

Abbreviation byte := Ascii.ascii (only parsing).
Abbreviation bytes := (list Ascii.ascii) (only parsing).

(** A [u8] as a byte and back. *)
Definition byte_of (z : Z) : ascii := ascii_of_N (Z.to_N z).
Definition of_byte (c : ascii) : Z := Z.of_N (N_of_ascii c).

Lemma of_byte_byte_of z : 0 ≤ z < 256 → of_byte (byte_of z) = z.
Proof. intros Hz. unfold of_byte, byte_of. rewrite N_ascii_embedding; lia. Qed.

(** [str::as_bytes] *)
Definition as_bytes (s : string) : bytes := String.list_ascii_of_string s.

(** [str::strip_prefix] *)
Fixpoint strip_prefix (p l : bytes) : option bytes :=
  match p, l with
  | [], _ => Some l
  | a :: p, b :: l => if bool_decide (a = b) then strip_prefix p l else None
  | _ :: _, [] => None
  end.

Lemma as_bytes_inj s1 s2 : as_bytes s1 = as_bytes s2 → s1 = s2.
Proof.
  unfold as_bytes. intros H%(f_equal String.string_of_list_ascii).
  by rewrite !String.string_of_list_ascii_of_string in H.
Qed.

(** [uN::to_le_bytes] for [8 * n] bits; [to_be_bytes] is the same bytes reversed. *)
Fixpoint to_le_bytes (n : nat) (z : Z) : bytes :=
  match n with
  | O => []
  | S n => ascii_of_N (Z.to_N (z mod 256)) :: to_le_bytes n (z / 256)
  end.

Definition to_be_bytes (n : nat) (z : Z) : bytes := reverse (to_le_bytes n z).

(** [uN::from_le_bytes] *)
Fixpoint from_le_bytes (l : bytes) : Z :=
  match l with
  | [] => 0
  | b :: l => Z.of_N (N_of_ascii b) + 256 * from_le_bytes l
  end.

Definition from_be_bytes (l : bytes) : Z := from_le_bytes (reverse l).

Lemma length_to_le_bytes n z : length (to_le_bytes n z) = n.
Proof. revert z; induction n; intros; cbn; auto. Qed.

Lemma length_to_be_bytes n z : length (to_be_bytes n z) = n.
Proof. unfold to_be_bytes. by rewrite length_reverse, length_to_le_bytes. Qed.

Lemma from_to_le_bytes n z :
  0 ≤ z < 256 ^ Z.of_nat n → from_le_bytes (to_le_bytes n z) = z.
Proof.
  revert z; induction n as [|n IH]; intros z Hz; cbn -[Z.pow] in *.
  - change (256 ^ 0) with 1 in Hz. lia.
  - rewrite Nat2Z.inj_succ, Z.pow_succ_r in Hz by lia.
    pose proof (Z.mod_pos_bound z 256) as Hm.
    rewrite IH.
    + rewrite N_ascii_embedding by lia. rewrite Z2N.id by lia.
      pose proof (Z.div_mod z 256). lia.
    + split; [apply Z.div_pos; lia|]. apply Z.div_lt_upper_bound; lia.
Qed.

Lemma from_to_be_bytes n z :
  0 ≤ z < 256 ^ Z.of_nat n → from_be_bytes (to_be_bytes n z) = z.
Proof.
  intros. unfold from_be_bytes, to_be_bytes. rewrite reverse_involutive.
  by apply from_to_le_bytes.
Qed.

Lemma to_le_bytes_inj n a b :
  0 ≤ a < 256 ^ Z.of_nat n → 0 ≤ b < 256 ^ Z.of_nat n →
  to_le_bytes n a = to_le_bytes n b → a = b.
Proof.
  intros Ha Hb H%(f_equal from_le_bytes). by rewrite !from_to_le_bytes in H.
Qed.

Lemma to_be_bytes_inj n a b :
  0 ≤ a < 256 ^ Z.of_nat n → 0 ≤ b < 256 ^ Z.of_nat n →
  to_be_bytes n a = to_be_bytes n b → a = b.
Proof.
  intros Ha Hb H%(f_equal from_be_bytes). by rewrite !from_to_be_bytes in H.
Qed.

Lemma u64_modulus_pow : u64_modulus = 256 ^ Z.of_nat 8.
Proof. reflexivity. Qed.

(** ** Lists: the iterator methods the code uses *)

(** [iter().position(f)] *)
Fixpoint position {A} (f : A → bool) (l : list A) : option nat :=
  match l with
  | [] => None
  | x :: l => if f x then Some O else S <$> position f l
  end.

Lemma position_Some {A} (f : A → bool) l i :
  position f l = Some i →
  ∃ x l1 l2, l = l1 ++ x :: l2 ∧ length l1 = i ∧ f x = true ∧ Forall (λ y, f y = false) l1.
Proof.
  revert i; induction l as [|x l IH]; intros i H; cbn in H; [done|].
  destruct (f x) eqn:E.
  - injection H as <-. by exists x, [], l.
  - apply fmap_Some in H as (j & Hj & ->).
    destruct (IH _ Hj) as (y & l1 & l2 & -> & <- & Hy & Hl1).
    exists y, (x :: l1), l2. repeat split; auto.
Qed.

Lemma position_None {A} (f : A → bool) l :
  position f l = None ↔ Forall (λ y, f y = false) l.
Proof.
  induction l as [|x l IH]; cbn; [by split; auto|].
  rewrite Forall_cons. destruct (f x) eqn:E; [naive_solver|].
  rewrite fmap_None, IH. naive_solver.
Qed.

(** [iter().find(f)] *)
Fixpoint iter_find {A} (f : A → bool) (l : list A) : option A :=
  match l with
  | [] => None
  | x :: l => if f x then Some x else iter_find f l
  end.

Lemma iter_find_Some {A} (f : A → bool) l x :
  iter_find f l = Some x → x ∈ l ∧ f x = true.
Proof.
  induction l as [|y l IH]; cbn; [done|].
  destruct (f y) eqn:E; rewrite elem_of_cons; naive_solver.
Qed.

Lemma iter_find_None {A} (f : A → bool) l :
  iter_find f l = None ↔ ∀ x, x ∈ l → f x = false.
Proof.
  induction l as [|y l IH]; cbn.
  - split; [intros _ x Hx; by apply not_elem_of_nil in Hx|done].
  - setoid_rewrite elem_of_cons. destruct (f y) eqn:E; split; try done.
    + intros H. specialize (H y (or_introl eq_refl)). congruence.
    + intros H x [->|?]; [done|]. by apply IH.
    + intros H. apply IH. auto.
Qed.

Lemma iter_find_split {A} (f : A → bool) l x :
  iter_find f l = Some x →
  ∃ l1 l2, l = l1 ++ x :: l2 ∧ f x = true ∧ Forall (λ y, f y = false) l1.
Proof.
  induction l as [|y l IH]; cbn; [done|]. destruct (f y) eqn:E.
  - intros [= ->]. by exists [], l.
  - intros (l1 & l2 & -> & ? & ?)%IH. exists (y :: l1), l2. auto.
Qed.

Lemma filter_all_true {A} (f : A → bool) (l : list A) :
  Forall (λ x, f x = true) l → List.filter f l = l.
Proof. induction 1 as [|x l Hx _ IH]; cbn; [done|]. by rewrite Hx, IH. Qed.

(** [iter().any(f)] and [iter().all(f)] *)
Definition iter_any {A} (f : A → bool) (l : list A) : bool := existsb f l.
Definition iter_all {A} (f : A → bool) (l : list A) : bool := forallb f l.

Lemma iter_any_true {A} (f : A → bool) l :
  iter_any f l = true ↔ ∃ x, x ∈ l ∧ f x = true.
Proof.
  unfold iter_any. rewrite existsb_exists. by setoid_rewrite list_elem_of_In.
Qed.

Lemma iter_any_false {A} (f : A → bool) l :
  iter_any f l = false ↔ ∀ x, x ∈ l → f x = false.
Proof.
  rewrite <-not_true_iff_false, iter_any_true. split.
  - intros H x Hx. apply not_true_iff_false. naive_solver.
  - intros H (x & Hx & Hf). specialize (H x Hx). congruence.
Qed.

Lemma iter_all_true {A} (f : A → bool) l :
  iter_all f l = true ↔ ∀ x, x ∈ l → f x = true.
Proof.
  unfold iter_all. rewrite forallb_forall. by setoid_rewrite list_elem_of_In.
Qed.

Lemma NoDup_fmap_inj_on {A B} (f : A → B) (l : list A) x y :
  NoDup (f <$> l) → x ∈ l → y ∈ l → f x = f y → x = y.
Proof.
  induction l as [|z l IH]; cbn; [set_solver|].
  intros [Hz Hl]%NoDup_cons [->|Hx]%elem_of_cons [->|Hy]%elem_of_cons Heq; auto.
  - destruct Hz. rewrite Heq. by apply list_elem_of_fmap_2.
  - destruct Hz. rewrite <-Heq. by apply list_elem_of_fmap_2.
Qed.

(** One step of a [HashSet::insert] loop: the rest of the list is
    duplicate-free and fresh for the grown set iff the whole list is for the
    set before. *)
Lemma fresh_for_cons `{Countable A} (x : A) (l : list A) (seen : gset A) :
  x ∉ seen →
  (NoDup l ∧ (∀ y, y ∈ l → y ∉ ({[x]} ∪ seen))) ↔
  (NoDup (x :: l) ∧ (∀ y, y ∈ x :: l → y ∉ seen)).
Proof.
  intros Hx. rewrite NoDup_cons. setoid_rewrite elem_of_cons.
  setoid_rewrite elem_of_union. setoid_rewrite elem_of_singleton. split.
  - intros [Hnd Hf]. repeat split; [|done|].
    + intros Hin. apply (Hf x Hin). auto.
    + intros y [->|Hy]; [done|]. intros Hs. apply (Hf y Hy). auto.
  - intros [[Hn Hnd] Hf]. split; [done|]. intros y Hy [->|Hs]; [done|]. by apply (Hf y); auto.
Qed.

Lemma forall_elem_cons {A} (P : A → Prop) (x : A) (l : list A) :
  P x → (∀ y, y ∈ l → P y) ↔ (∀ y, y ∈ x :: l → P y).
Proof.
  intros Hx. setoid_rewrite elem_of_cons. split; [|by auto].
  intros Hl y [->|Hy]; auto.
Qed.

(** ** Sorting *)

Section sort.
Context {A : Type} (cmp : A → A → comparison).

(** [slice::sort_by]: a stable sort. *)
Fixpoint sort_insert (x : A) (l : list A) : list A :=
  match l with
  | [] => [x]
  | y :: l => match cmp x y with Gt => y :: sort_insert x l | _ => x :: y :: l end
  end.

Definition sort_by (l : list A) : list A := foldr sort_insert [] l.

(** [windows(2)] with an early return when the two elements compare equal. *)
Fixpoint has_adjacent_equal (l : list A) : bool :=
  match l with
  | x :: ((y :: _) as l') =>
      match cmp x y with Eq => true | _ => has_adjacent_equal l' end
  | _ => false
  end.

Definition in_order (x y : A) : Prop := cmp x y ≠ Gt.

Lemma sort_insert_perm x l : sort_insert x l ≡ₚ x :: l.
Proof.
  induction l as [|y l IH]; cbn; [done|]. destruct (cmp x y); try done.
  by rewrite IH, Permutation_swap.
Qed.

Lemma sort_by_perm l : sort_by l ≡ₚ l.
Proof. induction l as [|x l IH]; [done|]. cbn. by rewrite sort_insert_perm; f_equiv. Qed.

Lemma sort_by_sorted_id l : Sorted in_order l → sort_by l = l.
Proof.
  induction 1 as [|x l Hs IH Hhd]; [done|].
  change (sort_by (x :: l)) with (sort_insert x (sort_by l)). rewrite IH.
  destruct Hhd as [|y l Hxy]; cbn; [done|]. unfold in_order in Hxy. by destruct (cmp x y).
Qed.

Context (cmp_antisym : ∀ x y, cmp y x = CompOpp (cmp x y)).

Lemma sort_insert_HdRel z x l :
  in_order z x → HdRel in_order z l → HdRel in_order z (sort_insert x l).
Proof.
  intros Hx Hl. destruct l as [|y l]; cbn; [by constructor|].
  destruct (cmp x y); try (by constructor). inversion Hl; subst. by constructor.
Qed.

Lemma sort_insert_sorted x l : Sorted in_order l → Sorted in_order (sort_insert x l).
Proof.
  induction 1 as [|y l Hs IH Hhd]; cbn; [by repeat constructor|].
  destruct (cmp x y) eqn:Hxy.
  - constructor; [by constructor|]. constructor. unfold in_order. congruence.
  - constructor; [by constructor|]. constructor. unfold in_order. congruence.
  - constructor; [done|]. apply sort_insert_HdRel; [|done].
    unfold in_order. rewrite cmp_antisym, Hxy. done.
Qed.

Lemma sort_by_sorted l : Sorted in_order (sort_by l).
Proof. induction l as [|x l IH]; cbn; [constructor|]. by apply sort_insert_sorted. Qed.
End sort.

(** ** Automation *)

Create HintDb theyos.
Create Rewrite HintDb theyos_len.
#[export] Hint Rewrite @length_to_le_bytes @length_to_be_bytes : theyos_len.
#[export] Hint Resolve Forall_nil_2 Forall_cons_2 Forall_app_2 : theyos.

(** [case_bool] splits every boolean test of a hypothesis or goal. *)
Ltac case_bools :=
  repeat match goal with
  | |- context [bool_decide ?P] => destruct (bool_decide_reflect P)
  | |- context [(?a <? ?b)] => destruct (Z.ltb_spec a b)
  | |- context [(?a <=? ?b)] => destruct (Z.leb_spec a b)
  | |- context [(?a =? ?b)] => destruct (Z.eqb_spec a b)
  end.

(** Proves a closed decidable goal by running its decision procedure. *)
Ltac by_decide :=
  lazymatch goal with |- ?P => apply (bool_decide_eq_true_1 P); vm_compute; reflexivity end.
