(* ===== verification/ControlRecord.v ===== *)
(** * The single-record control state

    Models [mesh-session-control-model-rs/src/record.rs]: the data of
    [MeshSignerControlRecordV1], the derived digests and slot identifiers,
    the bounded terminal-result list and the record's own consistency
    predicate [invariants_hold]. *)

From stdpp Require Import base gmap sets list strings.
From Stdlib Require Import ZArith Lia Ascii.
From S2P Require Import Prelude.

Open Scope Z_scope.

(** ** Digests

    SHA-256 and BLAKE3 come from the [sha2] and [blake3] crates. *)

Class Hashes := {
  sha256 : bytes → bytes;      (* [Sha256::finalize] over the updates *)
  blake3_hex : bytes → string  (* [blake3::Hasher::finalize().to_hex()] *)
}.

(** ** Enumerations and structs *)

Inductive Channel := Channel_Dev | Channel_Release.

Record ControlIdentity := MkControlIdentity {
  ci_hh_id : string;
  ci_machine_id : string;
  ci_channel : Channel;
}.

Inductive PurposeId := PurposeId_MeshSession | PurposeId_RosterSync.

Inductive RevocationReason :=
| Reason_Compromised
| Reason_Lost
| Reason_OwnerAction
| Reason_MachineRevoked.

Definition is_urgent (r : RevocationReason) : bool := true.

Inductive Authority :=
| Authority_Empty
| Authority_Active
| Authority_Revoked (reason : RevocationReason).

Inductive PendingPhase := PendingPhase_Intent | PendingPhase_KeyObserved.

Inductive BackendKind :=
| BackendKind_SecureEnclave
| BackendKind_TpmSealedSoftware
| BackendKind_File.

Record SlotId := MkSlotId {
  slot_identity_digest : bytes;
  slot_purpose : PurposeId;
  slot_generation : Z;
  slot_txn_id : bytes;
  slot_backend_instance : BackendKind;
}.

Record ExactBinding := MkExactBinding {
  eb_slot : SlotId;
  eb_public_key : bytes;
  eb_attributes : bytes;
}.

Inductive PendingOpKind :=
| PendingOpKind_Create
| PendingOpKind_RoutineRotate
| PendingOpKind_Reactivate.

Record PendingOp := MkPendingOp {
  po_txn_id : bytes;
  po_kind : PendingOpKind;
  po_generation : Z;
  po_epoch : Z;
  po_purpose : PurposeId;
  po_backend : BackendKind;
  po_canonical_slot : SlotId;
  po_phase : PendingPhase;
  po_binding : option ExactBinding;
}.

Record Delegation := MkDelegation {
  dg_version : Z;
  dg_kind : string;
  dg_domain : string;
  dg_hh_id : string;
  dg_delegator_m_id : string;
  dg_delegator_cert_fingerprint : bytes;
  dg_delegated_pub : bytes;
  dg_delegated_key_id : string;
  dg_profile : string;
  dg_transcript_kinds : list string;
  dg_roles : list string;
  dg_channel : Channel;
  dg_serial : Z;
  dg_not_before : Z;
  dg_not_after : Z;
  dg_sig : bytes;
}.

Record GenerationRecord := MkGenerationRecord {
  gr_generation : Z;
  gr_delegation : Delegation;
  gr_binding : ExactBinding;
  gr_not_after : Z;
}.

Inductive GcState := GcState_Pending | GcState_Done | GcState_Residual | GcState_Quarantine.

Inductive GcEntry :=
| GcEntry_AwaitingInspection (slot : SlotId) (txn_id : bytes)
| GcEntry_AbsentUnconfirmed (slot : SlotId) (txn_id : bytes)
| GcEntry_Bound (slot : SlotId) (txn_id : bytes) (binding : ExactBinding) (state : GcState)
| GcEntry_Absent (slot : SlotId) (txn_id : bytes)
| GcEntry_InspectionConflict (slot : SlotId) (txn_id : bytes).

Inductive TerminalOutcome :=
| Outcome_Activated (generation : Z)
| Outcome_Revoked (epoch : Z)
| Outcome_Reactivated (epoch : Z).

Inductive TerminalRequestFingerprint :=
| Request_Revoke (reason : RevocationReason)
| Request_Reactivate (next_txn_id : bytes) (backend : BackendKind)
| Request_Activate (generation : Z) (delegation : Delegation).

Record TerminalResult := MkTerminalResult {
  tr_txn_id : bytes;
  tr_outcome : TerminalOutcome;
  tr_request : TerminalRequestFingerprint;
  tr_recorded_at : Z;
  tr_acked : bool;
}.

Record MeshSignerControlRecordV1 := MkRecord {
  rec_identity : ControlIdentity;
  rec_purpose : PurposeId;
  rec_revision : Z;
  rec_epoch_high_water : Z;
  rec_generation_high_water : Z;
  rec_authority : Authority;
  rec_current_generation : option Z;
  rec_live_generations : list GenerationRecord;
  rec_pending_op : option PendingOp;
  rec_gc_pending : list GcEntry;
  rec_recent_terminal_results : list TerminalResult;
}.

(** The [#[derive(PartialEq, Eq)]] and [Hash] instances. *)
#[export] Instance Channel_eq_dec : EqDecision Channel.
Proof. solve_decision. Defined.
#[export] Instance ControlIdentity_eq_dec : EqDecision ControlIdentity.
Proof. solve_decision. Defined.
#[export] Instance PurposeId_eq_dec : EqDecision PurposeId.
Proof. solve_decision. Defined.
#[export] Instance RevocationReason_eq_dec : EqDecision RevocationReason.
Proof. solve_decision. Defined.
#[export] Instance Authority_eq_dec : EqDecision Authority.
Proof. solve_decision. Defined.
#[export] Instance PendingPhase_eq_dec : EqDecision PendingPhase.
Proof. solve_decision. Defined.
#[export] Instance BackendKind_eq_dec : EqDecision BackendKind.
Proof. solve_decision. Defined.
#[export] Instance SlotId_eq_dec : EqDecision SlotId.
Proof. solve_decision. Defined.
#[export] Instance ExactBinding_eq_dec : EqDecision ExactBinding.
Proof. solve_decision. Defined.
#[export] Instance PendingOpKind_eq_dec : EqDecision PendingOpKind.
Proof. solve_decision. Defined.
#[export] Instance PendingOp_eq_dec : EqDecision PendingOp.
Proof. solve_decision. Defined.
#[export] Instance Delegation_eq_dec : EqDecision Delegation.
Proof. solve_decision. Defined.
#[export] Instance GenerationRecord_eq_dec : EqDecision GenerationRecord.
Proof. solve_decision. Defined.
#[export] Instance GcState_eq_dec : EqDecision GcState.
Proof. solve_decision. Defined.
#[export] Instance GcEntry_eq_dec : EqDecision GcEntry.
Proof. solve_decision. Defined.
#[export] Instance TerminalOutcome_eq_dec : EqDecision TerminalOutcome.
Proof. solve_decision. Defined.
#[export] Instance TerminalRequestFingerprint_eq_dec : EqDecision TerminalRequestFingerprint.
Proof. solve_decision. Defined.
#[export] Instance TerminalResult_eq_dec : EqDecision TerminalResult.
Proof. solve_decision. Defined.
#[export] Instance MeshSignerControlRecordV1_eq_dec : EqDecision MeshSignerControlRecordV1.
Proof. solve_decision. Defined.

Definition INITIAL_REVISION : Z := 0.
Definition MAX_RECENT_TERMINAL_RESULTS : nat := 8.

(** ** Derived identifiers *)

Definition channel_tag (c : Channel) : byte :=
  match c with Channel_Dev => "000"%char | Channel_Release => "001"%char end.

Definition identity_preimage (identity : ControlIdentity) : bytes :=
  to_be_bytes 8 (Z.of_nat (length (as_bytes (ci_hh_id identity)))) ++
  as_bytes (ci_hh_id identity) ++
  to_be_bytes 8 (Z.of_nat (length (as_bytes (ci_machine_id identity)))) ++
  as_bytes (ci_machine_id identity) ++
  [channel_tag (ci_channel identity)].

Definition purpose_str (p : PurposeId) : string :=
  match p with
  | PurposeId_MeshSession => "mesh-session"
  | PurposeId_RosterSync => "roster-sync"
  end.

Definition backend_str (b : BackendKind) : string :=
  match b with
  | BackendKind_SecureEnclave => "se"
  | BackendKind_TpmSealedSoftware => "tpm"
  | BackendKind_File => "file"
  end.

(** One hashed field: its length as eight little-endian bytes, then itself. *)
Definition length_prefixed (field : bytes) : bytes :=
  to_le_bytes 8 (Z.of_nat (length field)) ++ field.

Definition slot_preimage (s : SlotId) : bytes :=
  length_prefixed (slot_identity_digest s) ++
  length_prefixed (as_bytes (purpose_str (slot_purpose s))) ++
  length_prefixed (to_le_bytes 8 (slot_generation s)) ++
  length_prefixed (slot_txn_id s) ++
  length_prefixed (as_bytes (backend_str (slot_backend_instance s))).

Section derived.
Context `{!Hashes}.

Definition identity_digest (identity : ControlIdentity) : bytes :=
  sha256 (identity_preimage identity).

Definition canonical_id (s : SlotId) : string :=
  String.append "mesh-slot.v1." (blake3_hex (slot_preimage s)).
End derived.

(** ** GC entries *)

Definition GcState_observation_complete_and_residual_zero (s : GcState) : bool :=
  match s with GcState_Done => true | _ => false end.

Definition gc_slot (e : GcEntry) : SlotId :=
  match e with
  | GcEntry_AwaitingInspection slot _
  | GcEntry_AbsentUnconfirmed slot _
  | GcEntry_Bound slot _ _ _
  | GcEntry_Absent slot _
  | GcEntry_InspectionConflict slot _ => slot
  end.

Definition gc_txn_id (e : GcEntry) : bytes :=
  match e with
  | GcEntry_AwaitingInspection _ txn_id
  | GcEntry_AbsentUnconfirmed _ txn_id
  | GcEntry_Bound _ txn_id _ _
  | GcEntry_Absent _ txn_id
  | GcEntry_InspectionConflict _ txn_id => txn_id
  end.

Definition observation_complete_and_residual_zero (e : GcEntry) : bool :=
  match e with
  | GcEntry_AwaitingInspection _ _ | GcEntry_AbsentUnconfirmed _ _ => false
  | GcEntry_Bound _ _ _ state => GcState_observation_complete_and_residual_zero state
  | GcEntry_Absent _ _ => true
  | GcEntry_InspectionConflict _ _ => false
  end.

(** ** Terminal results *)

Inductive TerminalPushError :=
| Push_RequestConflict
| Push_RetentionExhausted.

#[export] Instance TerminalPushError_eq_dec : EqDecision TerminalPushError.
Proof. solve_decision. Defined.

(** [Vec::remove] at an index known to be in range. *)
Definition vec_remove {A} (i : nat) (v : list A) : list A := delete i v.

Definition has_txn_id (txn_id : bytes) (e : TerminalResult) : bool :=
  bool_decide (tr_txn_id e = txn_id).

Definition push_bounded_terminal_impl
    (v : list TerminalResult) (r : TerminalResult) (force : bool)
    : Result TerminalPushError (list TerminalResult) :=
  match iter_find (has_txn_id (tr_txn_id r)) v with
  | Some existing =>
      if bool_decide (tr_request existing ≠ tr_request r)
      then Err Push_RequestConflict
      else Ok v
  | None =>
      v ← (if (MAX_RECENT_TERMINAL_RESULTS <=? length v)%nat then
             match position tr_acked v with
             | Some idx => Ok (vec_remove idx v)
             | None => if force then Ok (vec_remove 0 v) else Err Push_RetentionExhausted
             end
           else Ok v);
      Ok (v ++ [r])
  end.

Definition push_bounded_terminal (v : list TerminalResult) (r : TerminalResult) :=
  push_bounded_terminal_impl v r false.

Definition push_bounded_terminal_urgent (v : list TerminalResult) (r : TerminalResult) :=
  push_bounded_terminal_impl v r true.

Definition ack_terminal (v : list TerminalResult) (txn_id : bytes) : list TerminalResult :=
  (λ e, if has_txn_id txn_id e
        then MkTerminalResult (tr_txn_id e) (tr_outcome e) (tr_request e) (tr_recorded_at e) true
        else e) <$> v.

(** ** The record *)

Definition bootstrap (identity : ControlIdentity) (purpose : PurposeId)
    : MeshSignerControlRecordV1 :=
  {| rec_identity := identity;
     rec_purpose := purpose;
     rec_revision := INITIAL_REVISION;
     rec_epoch_high_water := 1;
     rec_generation_high_water := 1;
     rec_authority := Authority_Empty;
     rec_current_generation := None;
     rec_live_generations := [];
     rec_pending_op := None;
     rec_gc_pending := [];
     rec_recent_terminal_results := [] |}.

Definition unresolved (e : GcEntry) : bool := negb (observation_complete_and_residual_zero e).

Definition cap_occupancy (r : MeshSignerControlRecordV1) : nat :=
  length (rec_live_generations r) +
  (if is_some (rec_pending_op r) then 1 else 0) +
  length (List.filter unresolved (rec_gc_pending r)).

(** *** [invariants_hold], loop by loop *)

Definition is_active (a : Authority) : bool :=
  match a with Authority_Active => true | _ => false end.

Section invariants.
Context `{!Hashes}.
Implicit Type self : MeshSignerControlRecordV1.

Definition current_generation_ok self : bool :=
  match rec_current_generation self with
  | None => true
  | Some cur =>
      iter_any (λ g, gr_generation g =? cur) (rec_live_generations self) &&
      negb (rec_generation_high_water self <? cur)
  end.

Definition live_expected_slot self (g : GenerationRecord) : SlotId :=
  {| slot_identity_digest := identity_digest (rec_identity self);
     slot_purpose := rec_purpose self;
     slot_generation := gr_generation g;
     slot_txn_id := slot_txn_id (eb_slot (gr_binding g));
     slot_backend_instance := slot_backend_instance (eb_slot (gr_binding g)) |}.

Fixpoint live_generations_ok self (seen_generations : gset Z) (l : list GenerationRecord) : bool :=
  match l with
  | [] => true
  | g :: l =>
      if bool_decide (gr_generation g ∈ seen_generations)
         || (rec_generation_high_water self <? gr_generation g)
      then false
      else if bool_decide (eb_slot (gr_binding g) ≠ live_expected_slot self g) then false
      else live_generations_ok self ({[gr_generation g]} ∪ seen_generations) l
  end.

(** The [seen_slots] set is threaded through the three loops that fill it. *)
Fixpoint live_slots_ok (seen_slots : gset string) (l : list GenerationRecord)
    : option (gset string) :=
  match l with
  | [] => Some seen_slots
  | g :: l =>
      let id := canonical_id (eb_slot (gr_binding g)) in
      if bool_decide (id ∈ seen_slots) then None else live_slots_ok ({[id]} ∪ seen_slots) l
  end.

Definition gc_binding_ok (e : GcEntry) : bool :=
  match e with
  | GcEntry_Bound slot _ binding _ => bool_decide (eb_slot binding = slot)
  | _ => true
  end.

Definition gc_entry_belongs self (e : GcEntry) : bool :=
  bool_decide (gc_txn_id e = slot_txn_id (gc_slot e)) &&
  bool_decide (slot_identity_digest (gc_slot e) = identity_digest (rec_identity self)) &&
  bool_decide (slot_purpose (gc_slot e) = rec_purpose self) &&
  negb (rec_generation_high_water self <? slot_generation (gc_slot e)).

Fixpoint gc_pending_ok self (seen_slots : gset string) (l : list GcEntry)
    : option (gset string) :=
  match l with
  | [] => Some seen_slots
  | e :: l =>
      let id := canonical_id (gc_slot e) in
      if bool_decide (id ∈ seen_slots) then None
      else if negb (gc_binding_ok e) then None
      else if negb (gc_entry_belongs self e) then None
      else gc_pending_ok self ({[id]} ∪ seen_slots) l
  end.

Definition pending_expected_slot self (p : PendingOp) : SlotId :=
  {| slot_identity_digest := identity_digest (rec_identity self);
     slot_purpose := rec_purpose self;
     slot_generation := po_generation p;
     slot_txn_id := po_txn_id p;
     slot_backend_instance := po_backend p |}.

Definition binding_matches_phase (p : PendingOp) : bool :=
  match po_phase p with
  | PendingPhase_Intent => negb (is_some (po_binding p))
  | PendingPhase_KeyObserved => is_some (po_binding p)
  end.

Definition kind_matches_authority (a : Authority) (k : PendingOpKind) : bool :=
  match a, k with
  | Authority_Empty, PendingOpKind_Create
  | Authority_Active, PendingOpKind_RoutineRotate
  | Authority_Revoked _, PendingOpKind_Reactivate => true
  | _, _ => false
  end.

Definition pending_op_ok self (seen_slots : gset string) : bool :=
  match rec_pending_op self with
  | None => true
  | Some p =>
      if bool_decide (po_purpose p ≠ rec_purpose self) then false
      else if bool_decide (po_canonical_slot p ≠ pending_expected_slot self p) then false
      else if negb (po_epoch p =? rec_epoch_high_water self) then false
      else if negb (binding_matches_phase p) then false
      else if match po_binding p with
              | Some b => bool_decide (eb_slot b ≠ po_canonical_slot p)
              | None => false
              end then false
      else if rec_generation_high_water self <? po_generation p then false
      else if bool_decide (canonical_id (po_canonical_slot p) ∈ seen_slots) then false
      else kind_matches_authority (rec_authority self) (po_kind p)
  end.

Definition terminal_consistent (r : TerminalResult) : bool :=
  match tr_outcome r, tr_request r with
  | Outcome_Activated og, Request_Activate rg _ => og =? rg
  | Outcome_Revoked _, Request_Revoke _ => true
  | Outcome_Reactivated _, Request_Reactivate _ _ => true
  | _, _ => false
  end.

Fixpoint terminal_results_ok (seen_terminal_txns : gset bytes) (l : list TerminalResult) : bool :=
  match l with
  | [] => true
  | r :: l =>
      if bool_decide (tr_txn_id r ∈ seen_terminal_txns) then false
      else if negb (terminal_consistent r) then false
      else terminal_results_ok ({[tr_txn_id r]} ∪ seen_terminal_txns) l
  end.

Definition invariants_hold self : bool :=
  if negb (Bool.eqb (is_active (rec_authority self)) (is_some (rec_current_generation self)))
  then false
  else if negb (current_generation_ok self) then false
  else if negb (live_generations_ok self ∅ (rec_live_generations self)) then false
  else match live_slots_ok ∅ (rec_live_generations self) with
  | None => false
  | Some seen_slots =>
  match gc_pending_ok self seen_slots (rec_gc_pending self) with
  | None => false
  | Some seen_slots =>
  if negb (pending_op_ok self seen_slots) then false
  else if (MAX_RECENT_TERMINAL_RESULTS <? length (rec_recent_terminal_results self))%nat
  then false
  else terminal_results_ok ∅ (rec_recent_terminal_results self)
  end
  end.
End invariants.

(** ** Type-level facts

    What the Rust types guarantee of every value: fixed array sizes and
    integer widths. *)

Definition slot_wf (s : SlotId) : Prop :=
  length (slot_identity_digest s) = 32%nat ∧
  length (slot_txn_id s) = 16%nat ∧
  nonzero_u64 (slot_generation s).

Definition identity_wf (i : ControlIdentity) : Prop :=
  Z.of_nat (length (as_bytes (ci_hh_id i))) < u64_modulus ∧
  Z.of_nat (length (as_bytes (ci_machine_id i))) < u64_modulus.

(** The cryptographic contract the code relies on: SHA-256's output size, and
    BLAKE3 slot names that do not collide. The digest is of course not injective;
    the law is the usual idealisation of collision resistance, and the theorems
    that use it are to be read up to a collision among the slots of a record. *)
Class HashLaws `{!Hashes} : Prop := {
  sha256_length : ∀ b, length (sha256 b) = 32%nat;
  blake3_collision_free : ∀ b c, blake3_hex b = blake3_hex c → b = c;
}.

(** ** Unambiguous preimages *)

Lemma length_prefixed_inj f1 f2 r1 r2 :
  Z.of_nat (length f1) < u64_modulus → Z.of_nat (length f2) < u64_modulus →
  length_prefixed f1 ++ r1 = length_prefixed f2 ++ r2 → f1 = f2 ∧ r1 = r2.
Proof.
  unfold length_prefixed. rewrite <-!app_assoc. intros H1 H2 Heq.
  apply app_inj_1 in Heq as [Hlen Heq]; [|by rewrite !length_to_le_bytes].
  apply to_le_bytes_inj in Hlen; [|rewrite <-u64_modulus_pow; lia..].
  apply app_inj_1 in Heq as [-> ->]; [done|lia].
Qed.

Lemma be_length_prefixed_inj (f1 f2 r1 r2 : bytes) :
  Z.of_nat (length f1) < u64_modulus → Z.of_nat (length f2) < u64_modulus →
  to_be_bytes 8 (Z.of_nat (length f1)) ++ f1 ++ r1 =
    to_be_bytes 8 (Z.of_nat (length f2)) ++ f2 ++ r2 →
  f1 = f2 ∧ r1 = r2.
Proof.
  intros H1 H2 Heq.
  apply app_inj_1 in Heq as [Hlen Heq]; [|by rewrite !length_to_be_bytes].
  apply to_be_bytes_inj in Hlen; [|rewrite <-u64_modulus_pow; lia..].
  apply app_inj_1 in Heq as [-> ->]; [done|lia].
Qed.

Lemma purpose_str_inj p q : as_bytes (purpose_str p) = as_bytes (purpose_str q) → p = q.
Proof. destruct p, q; cbn; congruence. Qed.

Lemma backend_str_inj b c : as_bytes (backend_str b) = as_bytes (backend_str c) → b = c.
Proof. destruct b, c; cbn; congruence. Qed.

Lemma length_purpose_str p : Z.of_nat (length (as_bytes (purpose_str p))) < u64_modulus.
Proof. by destruct p. Qed.

Lemma length_backend_str b : Z.of_nat (length (as_bytes (backend_str b))) < u64_modulus.
Proof. by destruct b. Qed.

Lemma length_to_le_8 z : Z.of_nat (length (to_le_bytes 8 z)) < u64_modulus.
Proof. by rewrite length_to_le_bytes. Qed.

#[export] Hint Resolve length_purpose_str length_backend_str length_to_le_8 : theyos.

Lemma slot_wf_lengths s : slot_wf s →
  Z.of_nat (length (slot_identity_digest s)) < u64_modulus ∧
  Z.of_nat (length (slot_txn_id s)) < u64_modulus ∧
  0 ≤ slot_generation s < 256 ^ Z.of_nat 8.
Proof.
  intros (-> & -> & H). rewrite <-u64_modulus_pow. unfold nonzero_u64 in H.
  repeat split; try done; lia.
Qed.

Lemma slot_preimage_inj s t :
  slot_wf s → slot_wf t → slot_preimage s = slot_preimage t → s = t.
Proof.
  intros (Hd & Ht & Hg)%slot_wf_lengths (Hd' & Ht' & Hg')%slot_wf_lengths H.
  unfold slot_preimage in H.
  rewrite <-(app_nil_r (length_prefixed (as_bytes (backend_str (slot_backend_instance s))))),
    <-(app_nil_r (length_prefixed (as_bytes (backend_str (slot_backend_instance t))))) in H.
  apply length_prefixed_inj in H as [H1 H]; [|done..].
  apply length_prefixed_inj in H as [H2%purpose_str_inj H]; [|auto with theyos..].
  apply length_prefixed_inj in H as [H3%to_le_bytes_inj H]; [|auto with theyos..].
  apply length_prefixed_inj in H as [H4 H]; [|done..].
  apply length_prefixed_inj in H as [H5%backend_str_inj _]; [|auto with theyos..].
  destruct s, t; cbn in *; congruence.
Qed.

Lemma identity_preimage_inj i j :
  identity_wf i → identity_wf j → identity_preimage i = identity_preimage j → i = j.
Proof.
  intros [Hi1 Hi2] [Hj1 Hj2] H. unfold identity_preimage in H.
  apply be_length_prefixed_inj in H as [H1%as_bytes_inj H]; [|done..].
  apply be_length_prefixed_inj in H as [H2%as_bytes_inj H]; [|done..].
  destruct i as [? ? []], j as [? ? []]; cbn in *; congruence.
Qed.

Lemma canonical_id_inj `{!Hashes, !HashLaws} s t :
  slot_wf s → slot_wf t → canonical_id s = canonical_id t → s = t.
Proof.
  intros Hs Ht Heq. unfold canonical_id in Heq. cbn in Heq. simplify_eq.
  apply slot_preimage_inj; [done..|]. by apply blake3_collision_free.
Qed.

(** ** What [invariants_hold] means *)

(** Every slot a record is responsible for: its live generations', its GC
    entries' and its pending operation's. *)
Definition live_slots (r : MeshSignerControlRecordV1) : list SlotId :=
  (λ g, eb_slot (gr_binding g)) <$> rec_live_generations r.

Definition pending_slots (r : MeshSignerControlRecordV1) : list SlotId :=
  match rec_pending_op r with Some p => [po_canonical_slot p] | None => [] end.

Definition tracked_slots (r : MeshSignerControlRecordV1) : list SlotId :=
  live_slots r ++ (gc_slot <$> rec_gc_pending r) ++ pending_slots r.

Section consistency.
Context `{!Hashes}.
Implicit Type r : MeshSignerControlRecordV1.

Definition slot_belongs r (s : SlotId) : Prop :=
  slot_identity_digest s = identity_digest (rec_identity r) ∧
  slot_purpose s = rec_purpose r ∧
  slot_generation s ≤ rec_generation_high_water r.

Definition live_ok r (g : GenerationRecord) : Prop :=
  slot_belongs r (eb_slot (gr_binding g)) ∧
  slot_generation (eb_slot (gr_binding g)) = gr_generation g.

Definition gc_ok r (e : GcEntry) : Prop :=
  slot_belongs r (gc_slot e) ∧
  gc_txn_id e = slot_txn_id (gc_slot e) ∧
  match e with GcEntry_Bound slot _ b _ => eb_slot b = slot | _ => True end.

Definition phase_ok (p : PendingOp) : Prop :=
  match po_phase p, po_binding p with
  | PendingPhase_Intent, None => True
  | PendingPhase_KeyObserved, Some b => eb_slot b = po_canonical_slot p
  | _, _ => False
  end.

Definition pending_ok r (p : PendingOp) : Prop :=
  po_purpose p = rec_purpose r ∧
  po_canonical_slot p = pending_expected_slot r p ∧
  po_epoch p = rec_epoch_high_water r ∧
  phase_ok p ∧
  po_generation p ≤ rec_generation_high_water r ∧
  kind_matches_authority (rec_authority r) (po_kind p) = true.

Record Consistent r : Prop := {
  con_active : rec_authority r = Authority_Active ↔ is_Some (rec_current_generation r);
  con_current : ∀ cur, rec_current_generation r = Some cur →
    cur ∈ (gr_generation <$> rec_live_generations r);
  con_live_nodup : NoDup (gr_generation <$> rec_live_generations r);
  con_live : ∀ g, g ∈ rec_live_generations r → live_ok r g;
  con_slots : NoDup (canonical_id <$> tracked_slots r);
  con_gc : ∀ e, e ∈ rec_gc_pending r → gc_ok r e;
  con_pending : ∀ p, rec_pending_op r = Some p → pending_ok r p;
  con_results_bounded :
    (length (rec_recent_terminal_results r) ≤ MAX_RECENT_TERMINAL_RESULTS)%nat;
  con_results_nodup : NoDup (tr_txn_id <$> rec_recent_terminal_results r);
  con_results_consistent : ∀ t, t ∈ rec_recent_terminal_results r →
    terminal_consistent t = true;
}.

Lemma live_generations_ok_spec r seen l :
  live_generations_ok r seen l = true ↔
  (NoDup (gr_generation <$> l) ∧ (∀ x, x ∈ (gr_generation <$> l) → x ∉ seen)) ∧
  (∀ g, g ∈ l → gr_generation g ≤ rec_generation_high_water r ∧
    eb_slot (gr_binding g) = live_expected_slot r g).
Proof.
  revert seen; induction l as [|g l IH]; intros seen; cbn.
  { split; [intros _; repeat split; [apply NoDup_nil_2|set_solver..]|done]. }
  case_bool_decide as E1; cbn.
  { split; [done|]. intros [[_ Hf] _]. destruct (Hf (gr_generation g)); [left|done]. }
  rewrite <-(fresh_for_cons _ _ _ E1).
  destruct (Z.ltb_spec (rec_generation_high_water r) (gr_generation g)).
  { split; [done|]. intros [_ Hl]. destruct (Hl g); [left|lia]. }
  case_bool_decide as E2.
  { split; [done|]. intros [_ Hl]. by destruct (Hl g); [left|]. }
  rewrite <-(forall_elem_cons _ g l) by done. apply IH.
Qed.

(** The [HashSet] loops over slot ids accept exactly the duplicate-free lists. *)
Lemma live_slots_ok_spec seen l s :
  live_slots_ok seen l = Some s ↔
  (NoDup (canonical_id <$> ((λ g, eb_slot (gr_binding g)) <$> l)) ∧
   (∀ x, x ∈ (canonical_id <$> ((λ g, eb_slot (gr_binding g)) <$> l)) → x ∉ seen)) ∧
  s = list_to_set (canonical_id <$> ((λ g, eb_slot (gr_binding g)) <$> l)) ∪ seen.
Proof.
  revert seen; induction l as [|g l IH]; intros seen; cbn.
  { rewrite (left_id_L ∅ (∪)). split; [|naive_solver].
    intros [= ->]. repeat split; [apply NoDup_nil_2|set_solver]. }
  set (id := canonical_id (eb_slot (gr_binding g))).
  set (ids := canonical_id <$> ((λ g, eb_slot (gr_binding g)) <$> l)) in *.
  case_bool_decide as E.
  { split; [done|]. intros [[_ Hf] _]. destruct (Hf id); [left|done]. }
  rewrite <-(fresh_for_cons _ _ _ E), IH.
  by rewrite (assoc_L (∪)), (comm_L (∪) (list_to_set ids) {[id]}).
Qed.

Lemma gc_entry_ok_spec r e :
  gc_binding_ok e = true ∧ gc_entry_belongs r e = true ↔ gc_ok r e.
Proof.
  unfold gc_binding_ok, gc_entry_belongs, gc_ok, slot_belongs.
  rewrite !andb_true_iff, !bool_decide_eq_true, negb_true_iff, Z.ltb_ge.
  destruct e; cbn; rewrite ?bool_decide_eq_true; naive_solver.
Qed.

Lemma gc_pending_ok_spec r seen l s :
  gc_pending_ok r seen l = Some s ↔
  (NoDup (canonical_id <$> (gc_slot <$> l)) ∧
   (∀ x, x ∈ (canonical_id <$> (gc_slot <$> l)) → x ∉ seen)) ∧
  (∀ e, e ∈ l → gc_ok r e) ∧
  s = list_to_set (canonical_id <$> (gc_slot <$> l)) ∪ seen.
Proof.
  revert seen; induction l as [|e l IH]; intros seen; cbn.
  { rewrite (left_id_L ∅ (∪)). split; [|naive_solver].
    intros [= ->]. split; [split; [apply NoDup_nil_2|set_solver]|].
    split; [set_solver|done]. }
  pose proof (gc_entry_ok_spec r e) as He.
  set (id := canonical_id (gc_slot e)).
  set (ids := canonical_id <$> (gc_slot <$> l)) in *.
  case_bool_decide as E.
  { split; [done|]. intros [[_ Hf] _]. destruct (Hf id); [left|done]. }
  rewrite <-(fresh_for_cons _ _ _ E).
  destruct (gc_binding_ok e && gc_entry_belongs r e) eqn:Eok.
  - apply andb_true_iff in Eok as [Eb Eg]. rewrite Eb, Eg. cbn.
    rewrite <-(forall_elem_cons _ e l) by (by apply He).
    by rewrite IH, (assoc_L (∪)), (comm_L (∪) (list_to_set ids) {[id]}).
  - assert (¬ gc_ok r e) as Hne.
    { rewrite <-He, <-andb_true_iff. congruence. }
    trans False; [|split; [done|]; intros (_ & Hl & _); apply Hne, Hl; left].
    by destruct (gc_binding_ok e), (gc_entry_belongs r e).
Qed.

Lemma terminal_results_ok_spec seen l :
  terminal_results_ok seen l = true ↔
  (NoDup (tr_txn_id <$> l) ∧ (∀ x, x ∈ (tr_txn_id <$> l) → x ∉ seen)) ∧
  (∀ t, t ∈ l → terminal_consistent t = true).
Proof.
  revert seen; induction l as [|t l IH]; intros seen; cbn.
  { split; [|done]. intros _.
    split; [split; [apply NoDup_nil_2|set_solver]|set_solver]. }
  case_bool_decide as E.
  { split; [done|]. intros [[_ Hf] _]. destruct (Hf (tr_txn_id t)); [left|done]. }
  rewrite <-(fresh_for_cons _ _ _ E).
  destruct (terminal_consistent t) eqn:Et; cbn.
  - rewrite <-(forall_elem_cons _ t l) by done. apply IH.
  - split; [done|]. intros [_ Hl]. rewrite (Hl t) in Et; [done|left].
Qed.

Lemma pending_op_ok_spec r seen :
  pending_op_ok r seen = true ↔
  (∀ p, rec_pending_op r = Some p → pending_ok r p ∧ canonical_id (po_canonical_slot p) ∉ seen).
Proof.
  unfold pending_op_ok, pending_ok, phase_ok, binding_matches_phase.
  destruct (rec_pending_op r) as [p|]; [|split; [intros _ p [=]|done]].
  trans (pending_ok r p ∧ canonical_id (po_canonical_slot p) ∉ seen); [|naive_solver].
  unfold pending_ok, phase_ok.
  case_bool_decide; [naive_solver|]. case_bool_decide; [naive_solver|].
  destruct (Z.eqb_spec (po_epoch p) (rec_epoch_high_water r)); cbn; [|naive_solver].
  destruct (Z.ltb_spec (rec_generation_high_water r) (po_generation p)).
  { repeat case_match; naive_solver lia. }
  destruct (po_phase p), (po_binding p) as [b|]; cbn;
    repeat case_bool_decide; intuition congruence.
Qed.

Lemma current_generation_ok_spec r :
  (∀ g, g ∈ rec_live_generations r → gr_generation g ≤ rec_generation_high_water r) →
  current_generation_ok r = true ↔
  (∀ cur, rec_current_generation r = Some cur →
    cur ∈ (gr_generation <$> rec_live_generations r)).
Proof.
  intros Hhw. unfold current_generation_ok.
  destruct (rec_current_generation r) as [cur|]; [|split; [intros _ ? [=]|done]].
  trans (cur ∈ (gr_generation <$> rec_live_generations r)); [|naive_solver].
  rewrite andb_true_iff, iter_any_true, negb_true_iff, Z.ltb_ge, list_elem_of_fmap.
  setoid_rewrite Z.eqb_eq. naive_solver.
Qed.

Lemma tracked_ids_NoDup r :
  NoDup (canonical_id <$> tracked_slots r) ↔
  NoDup (canonical_id <$> live_slots r) ∧
  NoDup (canonical_id <$> (gc_slot <$> rec_gc_pending r)) ∧
  (∀ x, x ∈ (canonical_id <$> (gc_slot <$> rec_gc_pending r)) →
    x ∉ (canonical_id <$> live_slots r)) ∧
  (∀ p, rec_pending_op r = Some p →
    (canonical_id (po_canonical_slot p) ∉ (canonical_id <$> live_slots r)) ∧
    (canonical_id (po_canonical_slot p) ∉ (canonical_id <$> (gc_slot <$> rec_gc_pending r)))).
Proof.
  unfold tracked_slots, pending_slots. rewrite !fmap_app, !NoDup_app.
  set (L := canonical_id <$> live_slots r).
  set (G := canonical_id <$> (gc_slot <$> rec_gc_pending r)).
  setoid_rewrite elem_of_app.
  destruct (rec_pending_op r) as [p|]; cbn.
  - setoid_rewrite list_elem_of_singleton. split.
    + intros (HL & HLG & HG & HGp & _). split_and!; [done..| |].
      * intros x Hx Hx'. apply (HLG x Hx'). auto.
      * intros q [= <-]. split; intros Hin; [apply (HLG _ Hin)|apply (HGp _ Hin)]; auto.
    + intros (HL & HG & HGL & Hp). destruct (Hp p eq_refl) as [Hp1 Hp2].
      split_and!; [done| |done| |apply NoDup_singleton].
      * intros x Hx [Hg | ->]; [by apply (HGL x)|done].
      * by intros x Hx ->.
  - setoid_rewrite elem_of_nil. split.
    + intros (HL & HLG & HG & _). split_and!; [done..| |by intros ? [=]].
      intros x Hx Hx'. apply (HLG x Hx'). auto.
    + intros (HL & HG & HGL & _). split_and!; [done| |done| |apply NoDup_nil_2].
      * intros x Hx [Hg|[]]. by apply (HGL x).
      * by intros x Hx [].
Qed.

Lemma live_ok_expected r g :
  live_ok r g ↔
  gr_generation g ≤ rec_generation_high_water r ∧
  eb_slot (gr_binding g) = live_expected_slot r g.
Proof.
  unfold live_ok, slot_belongs, live_expected_slot.
  destruct (eb_slot (gr_binding g)); cbn. split.
  - intros [(-> & -> & ?) ->]. done.
  - intros [? [= -> -> ->]]. done.
Qed.

Lemma invariants_hold_unfold r :
  invariants_hold r = true ↔
  (is_active (rec_authority r) = is_some (rec_current_generation r) ∧
   current_generation_ok r = true ∧
   live_generations_ok r ∅ (rec_live_generations r) = true) ∧
  (∃ s1 s2, live_slots_ok ∅ (rec_live_generations r) = Some s1 ∧
     gc_pending_ok r s1 (rec_gc_pending r) = Some s2 ∧ pending_op_ok r s2 = true) ∧
  (length (rec_recent_terminal_results r) ≤ MAX_RECENT_TERMINAL_RESULTS)%nat ∧
  terminal_results_ok ∅ (rec_recent_terminal_results r) = true.
Proof.
  unfold invariants_hold.
  destruct (Bool.eqb _ _) eqn:E0; cbn [negb];
    [apply eqb_prop in E0|apply eqb_false_iff in E0; split; [done|by intros [[]]]].
  destruct (current_generation_ok r); cbn [negb]; [|by split; [|intros [[? []]]]].
  destruct (live_generations_ok r _ _); cbn [negb]; [|by split; [|intros [[? []]]]].
  destruct (live_slots_ok _ _) as [s1|] eqn:E1; [|by split; [|intros (_ & (? & ? & ? & _) & _)]].
  destruct (gc_pending_ok r s1 _) as [s2|] eqn:E2; [|split; [done|naive_solver]].
  destruct (pending_op_ok r s2) eqn:E3; cbn [negb]; [|split; [done|naive_solver]].
  case_match eqn:E4.
  - apply Nat.ltb_lt in E4. split; [done|]. intros (_ & _ & ? & _). lia.
  - apply Nat.ltb_ge in E4. naive_solver.
Qed.

Lemma active_iff_current r :
  is_active (rec_authority r) = is_some (rec_current_generation r) ↔
  (rec_authority r = Authority_Active ↔ is_Some (rec_current_generation r)).
Proof.
  unfold is_Some. destruct (rec_authority r), (rec_current_generation r); cbn; naive_solver.
Qed.

(** The Boolean checks of [invariants_hold] decide [Consistent]. *)
Lemma invariants_hold_Consistent r : invariants_hold r = true ↔ Consistent r.
Proof.
  rewrite invariants_hold_unfold, active_iff_current, live_generations_ok_spec,
    terminal_results_ok_spec.
  setoid_rewrite live_slots_ok_spec. setoid_rewrite gc_pending_ok_spec.
  setoid_rewrite pending_op_ok_spec. setoid_rewrite <-live_ok_expected.
  split.
  - intros ((Hact & Hcur & [Hnd _] & Hlive) & (s1 & s2 & Hs1 & Hs2 & Hp) & Hlen & [Hr _] & Hrc).
    destruct Hs1 as [[Hs1 _] ->], Hs2 as ([Hs2 Hdis] & Hgc & ->).
    rewrite (right_id_L ∅ (∪)) in Hdis, Hp.
    rewrite current_generation_ok_spec in Hcur by (intros g [? ?]%Hlive%live_ok_expected; done).
    split; try done.
    + apply tracked_ids_NoDup. split_and!; [done..| |].
      * intros x Hx Hx'. apply (Hdis x Hx). by apply elem_of_list_to_set.
      * intros p [_ Hfresh]%Hp. rewrite elem_of_union, !elem_of_list_to_set in Hfresh. tauto.
    + intros p [? _]%Hp. done.
  - intros [Hact Hcur Hnd Hlive Hslots Hgc Hp Hlen Hr Hrc].
    apply tracked_ids_NoDup in Hslots as (HL & HG & HGL & Hpf).
    split_and!; try done.
    + apply current_generation_ok_spec; [|done]. intros g [? ?]%Hlive%live_ok_expected; done.
    + eexists _, _. split; [|split].
      * split; [|reflexivity]. split; [done|].
        intros x _. apply not_elem_of_empty.
      * split_and!; [done| |done|reflexivity].
        intros x Hx. rewrite (right_id_L ∅ (∪)), elem_of_list_to_set. auto.
      * intros p Hpe. split; [by apply Hp|].
        rewrite (right_id_L ∅ (∪)), elem_of_union, !elem_of_list_to_set.
        destruct (Hpf p Hpe). tauto.
Qed.
End consistency.

(** ** The bounded terminal-result list *)

(** What eviction may do to make room: nothing below the cap; at the cap,
    drop an acknowledged entry, or (forced, and none is acknowledged) the oldest. *)
Definition made_room (force : bool) (v u : list TerminalResult) : Prop :=
  ((length v < MAX_RECENT_TERMINAL_RESULTS)%nat ∧ u = v) ∨
  ((MAX_RECENT_TERMINAL_RESULTS ≤ length v)%nat ∧
   ∃ l1 x l2, v = l1 ++ x :: l2 ∧ u = l1 ++ l2 ∧
     (tr_acked x = true ∨
      (force = true ∧ l1 = [] ∧ Forall (λ e, tr_acked e = false) v))).

Lemma has_txn_id_true t e : has_txn_id t e = true ↔ tr_txn_id e = t.
Proof. apply bool_decide_eq_true. Qed.

Lemma find_txn_None t v :
  iter_find (has_txn_id t) v = None ↔ t ∉ (tr_txn_id <$> v).
Proof.
  rewrite iter_find_None, list_elem_of_fmap. split.
  - intros Hf (e & -> & He). specialize (Hf e He). apply not_true_iff_false in Hf.
    by rewrite has_txn_id_true in Hf.
  - intros Hn e He. apply not_true_iff_false. rewrite has_txn_id_true. naive_solver.
Qed.

Lemma push_impl_Ok v r force v' :
  push_bounded_terminal_impl v r force = Ok v' →
  (v' = v ∧ ∃ e, e ∈ v ∧ tr_txn_id e = tr_txn_id r ∧ tr_request e = tr_request r) ∨
  ((tr_txn_id r ∉ (tr_txn_id <$> v)) ∧ ∃ u, v' = u ++ [r] ∧ made_room force v u).
Proof.
  unfold push_bounded_terminal_impl, made_room, vec_remove.
  destruct (iter_find _ v) as [e|] eqn:Ef.
  - apply iter_find_Some in Ef as [He Ht%has_txn_id_true].
    case_bool_decide as Er; [done|]. intros [= <-]. left. split; [done|].
    exists e. split_and!; done.
  - apply find_txn_None in Ef. intros Hok. right. split; [done|]. res_inv. subst v'.
    eexists; split; [done|]. revert Hok0.
    destruct (Nat.leb_spec MAX_RECENT_TERMINAL_RESULTS (length v)) as [Hl|Hl];
      [|intros [= <-]; auto].
    destruct (position tr_acked v) as [i|] eqn:Ep.
    + intros [= <-]. right. split; [done|].
      apply position_Some in Ep as (y & l1 & l2 & -> & <- & Hy & _).
      exists l1, y, l2. split_and!; auto using delete_middle.
    + apply position_None in Ep. destruct force; [|done]. intros [= <-].
      destruct v as [|y v]; [unfold MAX_RECENT_TERMINAL_RESULTS in Hl; cbn in Hl; lia|]. right. split; [done|].
      exists [], y, v. split_and!; auto.
Qed.

Lemma push_impl_Err v r force e :
  push_bounded_terminal_impl v r force = Err e →
  (e = Push_RequestConflict ∧ ∃ x, x ∈ v ∧ tr_txn_id x = tr_txn_id r ∧ tr_request x ≠ tr_request r) ∨
  (e = Push_RetentionExhausted ∧ force = false ∧
   (MAX_RECENT_TERMINAL_RESULTS ≤ length v)%nat ∧ Forall (λ x, tr_acked x = false) v).
Proof.
  unfold push_bounded_terminal_impl.
  destruct (iter_find _ v) as [x|] eqn:Ef.
  - apply iter_find_Some in Ef as [He Ht%has_txn_id_true].
    case_bool_decide as Er; [|done]. intros [= <-]. left. split; [done|]. eauto.
  - intros [Hr|(? & _ & [=])]%bind_Err. right. revert Hr.
    destruct (Nat.leb_spec MAX_RECENT_TERMINAL_RESULTS (length v)) as [Hl|Hl]; [|done].
    destruct (position tr_acked v) as [i|] eqn:Ep; [done|].
    destruct force; [done|]. intros [= <-]. by apply position_None in Ep.
Qed.

Section made_room_facts.
Context (force : bool) (v u : list TerminalResult) (Hroom : made_room force v u).

Lemma made_room_subset x : x ∈ u → x ∈ v.
Proof.
  destruct Hroom as [[_ ->]|(_ & l1 & y & l2 & -> & -> & _)]; [done|].
  rewrite !elem_of_app, elem_of_cons. tauto.
Qed.

Lemma made_room_NoDup : NoDup (tr_txn_id <$> v) → NoDup (tr_txn_id <$> u).
Proof.
  destruct Hroom as [[_ ->]|(_ & l1 & y & l2 & -> & -> & _)]; [done|].
  rewrite !fmap_app, !NoDup_app, fmap_cons, NoDup_cons. setoid_rewrite elem_of_cons.
  naive_solver.
Qed.

Lemma made_room_length :
  (length v ≤ MAX_RECENT_TERMINAL_RESULTS → length u < MAX_RECENT_TERMINAL_RESULTS)%nat.
Proof.
  destruct Hroom as [[? ->]|(_ & l1 & y & l2 & -> & -> & _)]; [done|].
  rewrite !length_app. cbn. lia.
Qed.

Lemma made_room_keeps_unacked x :
  force = false → x ∈ v → tr_acked x = false → x ∈ u.
Proof.
  intros -> Hx Ha. revert Hx.
  destruct Hroom as [[? ->]|(_ & l1 & y & l2 & -> & -> & [Hy|[? _]])]; [done| |done].
  rewrite !elem_of_app, elem_of_cons. intros [?|[->|?]]; [auto|congruence|auto].
Qed.
End made_room_facts.

Lemma push_impl_preserves v r force v' :
  push_bounded_terminal_impl v r force = Ok v' →
  terminal_consistent r = true →
  (length v ≤ MAX_RECENT_TERMINAL_RESULTS)%nat →
  NoDup (tr_txn_id <$> v) → (∀ t, t ∈ v → terminal_consistent t = true) →
  (length v' ≤ MAX_RECENT_TERMINAL_RESULTS)%nat ∧
  NoDup (tr_txn_id <$> v') ∧ (∀ t, t ∈ v' → terminal_consistent t = true).
Proof.
  intros [[-> _]|(Hn & u & -> & Hroom)]%push_impl_Ok Hr Hlen Hnd Hc; [done|].
  split_and!.
  - rewrite length_app. apply made_room_length in Hroom; [|done]. cbn. lia.
  - rewrite fmap_app, NoDup_app. split_and!.
    + eauto using made_room_NoDup.
    + intros x (e & -> & He)%list_elem_of_fmap Heq%list_elem_of_singleton.
      destruct Hn. rewrite <-Heq. apply list_elem_of_fmap_2. eauto using made_room_subset.
    + apply NoDup_singleton.
  - intros t [?|Ht]%elem_of_app; [by eauto using made_room_subset|].
    by apply list_elem_of_singleton in Ht as ->.
Qed.

(** After a successful push the pushed request is on record. *)
Lemma push_impl_records v r force v' :
  push_bounded_terminal_impl v r force = Ok v' →
  ∃ e, e ∈ v' ∧ tr_txn_id e = tr_txn_id r ∧ tr_request e = tr_request r.
Proof.
  intros [[-> He]|(_ & u & -> & _)]%push_impl_Ok; [done|].
  exists r. split; [|done]. apply elem_of_app. right. apply list_elem_of_singleton. done.
Qed.

Lemma ack_terminal_txns v t : tr_txn_id <$> ack_terminal v t = tr_txn_id <$> v.
Proof.
  unfold ack_terminal. rewrite <-list_fmap_compose. apply list_fmap_ext.
  intros i e _. cbn. by destruct (has_txn_id t e).
Qed.

Lemma ack_terminal_elem v t x :
  x ∈ ack_terminal v t →
  ∃ e, e ∈ v ∧ tr_txn_id x = tr_txn_id e ∧ tr_outcome x = tr_outcome e ∧
    tr_request x = tr_request e ∧ tr_recorded_at x = tr_recorded_at e ∧
    tr_acked x = tr_acked e || has_txn_id t e.
Proof.
  unfold ack_terminal. intros (e & -> & He)%list_elem_of_fmap. exists e. split; [done|].
  destruct (has_txn_id t e); cbn; by rewrite ?orb_true_r, ?orb_false_r.
Qed.
