(* ===== verification/Transition.v ===== *)
(** * Typed transitions of the control record

    Models [mesh-session-control-model-rs/src/transition.rs]: every arm of
    [apply] as a definition of its own, the idempotent-replay check in front
    of them and the shared invariants checked behind them. *)

From stdpp Require Import base gmap sets list strings.
From Stdlib Require Import ZArith Lia Ascii.
From S2P Require Import Prelude.
From S2P Require Import ControlRecord.

Open Scope Z_scope.

Inductive TransitionError :=
| TE_RevisionExhausted
| TE_EpochExhausted
| TE_GenerationExhausted
| TE_PendingAlreadyExists
| TE_NoPendingOp
| TE_WrongPhase
| TE_MissingBinding
| TE_NotRevoked
| TE_NoSuchGcEntry
| TE_GcNotResolved
| TE_IdentityPurposeChanged
| TE_RetainedGenerationMutated
| TE_RemovesCurrent
| TE_HighWaterDecreased
| TE_EpochHighWaterDecreased
| TE_StaleWorkerToken
| TE_CapExceeded
| TE_Terminal (e : TerminalPushError)
| TE_NoSuchGeneration
| TE_GenerationNotExpired
| TE_NoSuchTerminalResult
| TE_DuplicateGcSlot
| TE_InvalidIntentForAuthority
| TE_TerminalTxnReused
| TE_BindingSlotMismatch
| TE_SlotCollidesWithPendingGc.

#[export] Instance TransitionError_eq_dec : EqDecision TransitionError.
Proof. solve_decision. Defined.

Inductive AllowedRemoval :=
| Removal_None
| Removal_One (g : Z)
| Removal_AllLive.

(** The caller's claim about the pending operation it is acting on. *)
Record WorkerToken := MkWorkerToken {
  expected_txn_id : bytes;
  expected_kind : PendingOpKind;
  expected_generation : Z;
  expected_epoch : Z;
  expected_purpose : PurposeId;
  expected_slot_id : string;
  expected_revision : Z;
}.

Inductive RecordTransition :=
| IntentRecorded (txn_id : bytes) (kind : PendingOpKind) (backend : BackendKind)
| KeyObserved (token : WorkerToken) (binding : ExactBinding)
| ActivateFromKeyObserved (token : WorkerToken) (delegation : Delegation)
| RevokeUrgent (reason : RevocationReason) (txn_id : bytes)
| ReactivateFromRevoked (txn_id next_txn_id : bytes) (backend : BackendKind)
| GenerationExpired (generation : Z)
| GcInspected (slot_id : string) (found : option ExactBinding)
| GcInspectionConflict (slot_id : string)
| GcResolved (slot_id : string) (residual_zero quarantine : bool)
| GcRemoval (slot_id : string) (txn_id : bytes)
| TerminalAcked (txn_id : bytes)
| StabilizationRewrite.

(** Field assignments on the cloned record. *)
Definition with_revision (v : Z) (r : MeshSignerControlRecordV1) :=
  MkRecord (rec_identity r) (rec_purpose r) v (rec_epoch_high_water r)
    (rec_generation_high_water r) (rec_authority r) (rec_current_generation r)
    (rec_live_generations r) (rec_pending_op r) (rec_gc_pending r)
    (rec_recent_terminal_results r).
Definition with_epoch_high_water (v : Z) (r : MeshSignerControlRecordV1) :=
  MkRecord (rec_identity r) (rec_purpose r) (rec_revision r) v
    (rec_generation_high_water r) (rec_authority r) (rec_current_generation r)
    (rec_live_generations r) (rec_pending_op r) (rec_gc_pending r)
    (rec_recent_terminal_results r).
Definition with_generation_high_water (v : Z) (r : MeshSignerControlRecordV1) :=
  MkRecord (rec_identity r) (rec_purpose r) (rec_revision r) (rec_epoch_high_water r)
    v (rec_authority r) (rec_current_generation r)
    (rec_live_generations r) (rec_pending_op r) (rec_gc_pending r)
    (rec_recent_terminal_results r).
Definition with_authority (v : Authority) (r : MeshSignerControlRecordV1) :=
  MkRecord (rec_identity r) (rec_purpose r) (rec_revision r) (rec_epoch_high_water r)
    (rec_generation_high_water r) v (rec_current_generation r)
    (rec_live_generations r) (rec_pending_op r) (rec_gc_pending r)
    (rec_recent_terminal_results r).
Definition with_current_generation (v : option Z) (r : MeshSignerControlRecordV1) :=
  MkRecord (rec_identity r) (rec_purpose r) (rec_revision r) (rec_epoch_high_water r)
    (rec_generation_high_water r) (rec_authority r) v
    (rec_live_generations r) (rec_pending_op r) (rec_gc_pending r)
    (rec_recent_terminal_results r).
Definition with_live_generations (v : list GenerationRecord) (r : MeshSignerControlRecordV1) :=
  MkRecord (rec_identity r) (rec_purpose r) (rec_revision r) (rec_epoch_high_water r)
    (rec_generation_high_water r) (rec_authority r) (rec_current_generation r)
    v (rec_pending_op r) (rec_gc_pending r) (rec_recent_terminal_results r).
Definition with_pending_op (v : option PendingOp) (r : MeshSignerControlRecordV1) :=
  MkRecord (rec_identity r) (rec_purpose r) (rec_revision r) (rec_epoch_high_water r)
    (rec_generation_high_water r) (rec_authority r) (rec_current_generation r)
    (rec_live_generations r) v (rec_gc_pending r) (rec_recent_terminal_results r).
Definition with_gc_pending (v : list GcEntry) (r : MeshSignerControlRecordV1) :=
  MkRecord (rec_identity r) (rec_purpose r) (rec_revision r) (rec_epoch_high_water r)
    (rec_generation_high_water r) (rec_authority r) (rec_current_generation r)
    (rec_live_generations r) (rec_pending_op r) v (rec_recent_terminal_results r).
Definition with_recent_terminal_results (v : list TerminalResult) (r : MeshSignerControlRecordV1) :=
  MkRecord (rec_identity r) (rec_purpose r) (rec_revision r) (rec_epoch_high_water r)
    (rec_generation_high_water r) (rec_authority r) (rec_current_generation r)
    (rec_live_generations r) (rec_pending_op r) (rec_gc_pending r) v.

Section transitions.
Context `{!Hashes}.
Implicit Types old new : MeshSignerControlRecordV1.

(** ** Helpers *)

Definition idempotent_replay old (t : RecordTransition)
    : option (Result TransitionError MeshSignerControlRecordV1) :=
  request ← match t with
    | RevokeUrgent reason txn_id => Some (txn_id, Request_Revoke reason)
    | ReactivateFromRevoked txn_id next_txn_id backend =>
        Some (txn_id, Request_Reactivate next_txn_id backend)
    | ActivateFromKeyObserved token delegation =>
        Some (expected_txn_id token, Request_Activate (expected_generation token) delegation)
    | _ => None
    end;
  let '(txn_id, candidate_request) := request in
  existing ← iter_find (has_txn_id txn_id) (rec_recent_terminal_results old);
  Some (if bool_decide (tr_request existing = candidate_request)
        then Ok old else Err TE_TerminalTxnReused).

Definition pending_matches_token (p : PendingOp) (token : WorkerToken) : bool :=
  bool_decide (po_txn_id p = expected_txn_id token) &&
  bool_decide (po_kind p = expected_kind token) &&
  (po_generation p =? expected_generation token) &&
  (po_epoch p =? expected_epoch token) &&
  bool_decide (po_purpose p = expected_purpose token) &&
  bool_decide (canonical_id (po_canonical_slot p) = expected_slot_id token).

Definition has_slot_id (id : string) (e : GcEntry) : bool :=
  bool_decide (canonical_id (gc_slot e) = id).

Definition slot_collides_with_unresolved_gc old (slot : SlotId) : bool :=
  iter_any (λ e, has_slot_id (canonical_id slot) e
                 && negb (observation_complete_and_residual_zero e))
    (rec_gc_pending old).

Definition derive_next_generation old : Result TransitionError Z :=
  match rec_authority old with
  | Authority_Empty => Ok 1
  | _ => ok_or (checked_add (rec_generation_high_water old) 1) TE_GenerationExhausted
  end.

Definition bump_revision new old : Result TransitionError MeshSignerControlRecordV1 :=
  revision ← ok_or (checked_add (rec_revision old) 1) TE_RevisionExhausted;
  Ok (with_revision revision new).

Definition is_terminal_txn old (txn_id : bytes) : bool :=
  iter_any (has_txn_id txn_id) (rec_recent_terminal_results old).

Definition new_slot old (generation : Z) (txn_id : bytes) (backend : BackendKind) : SlotId :=
  {| slot_identity_digest := identity_digest (rec_identity old);
     slot_purpose := rec_purpose old;
     slot_generation := generation;
     slot_txn_id := txn_id;
     slot_backend_instance := backend |}.

(** ** The arms of [apply] *)

Definition intent_recorded old (txn_id : bytes) (kind : PendingOpKind) (backend : BackendKind)
    : Result TransitionError MeshSignerControlRecordV1 :=
  reject_if (is_some (rec_pending_op old)) TE_PendingAlreadyExists;;
  reject_if (is_terminal_txn old txn_id) TE_TerminalTxnReused;;
  let valid := match rec_authority old, kind with
               | Authority_Empty, PendingOpKind_Create
               | Authority_Active, PendingOpKind_RoutineRotate => true
               | _, _ => false
               end in
  reject_if (negb valid) TE_InvalidIntentForAuthority;;
  generation ← derive_next_generation old;
  let new := with_generation_high_water generation old in
  let canonical_slot := new_slot old generation txn_id backend in
  reject_if (slot_collides_with_unresolved_gc old canonical_slot) TE_SlotCollidesWithPendingGc;;
  let new := with_pending_op (Some
    {| po_txn_id := txn_id;
       po_kind := kind;
       po_generation := generation;
       po_epoch := rec_epoch_high_water old;
       po_purpose := rec_purpose old;
       po_backend := backend;
       po_canonical_slot := canonical_slot;
       po_phase := PendingPhase_Intent;
       po_binding := None |}) new in
  bump_revision new old.

Definition key_observed old (token : WorkerToken) (binding : ExactBinding)
    : Result TransitionError MeshSignerControlRecordV1 :=
  reject_if (negb (rec_revision old =? expected_revision token)) TE_StaleWorkerToken;;
  p ← ok_or (rec_pending_op old) TE_NoPendingOp;
  reject_if (bool_decide (po_phase p ≠ PendingPhase_Intent)) TE_WrongPhase;;
  reject_if (negb (pending_matches_token p token)) TE_StaleWorkerToken;;
  reject_if (bool_decide (eb_slot binding ≠ po_canonical_slot p)) TE_BindingSlotMismatch;;
  let np := {| po_txn_id := po_txn_id p;
               po_kind := po_kind p;
               po_generation := po_generation p;
               po_epoch := po_epoch p;
               po_purpose := po_purpose p;
               po_backend := po_backend p;
               po_canonical_slot := po_canonical_slot p;
               po_phase := PendingPhase_KeyObserved;
               po_binding := Some binding |} in
  bump_revision (with_pending_op (Some np) old) old.

Definition activate_from_key_observed_arm old (token : WorkerToken) (delegation : Delegation)
    (now : Z) : Result TransitionError MeshSignerControlRecordV1 :=
  reject_if (negb (rec_revision old =? expected_revision token)) TE_StaleWorkerToken;;
  p ← ok_or (rec_pending_op old) TE_NoPendingOp;
  reject_if (bool_decide (po_phase p ≠ PendingPhase_KeyObserved)) TE_WrongPhase;;
  reject_if (negb (pending_matches_token p token)) TE_StaleWorkerToken;;
  binding ← ok_or (po_binding p) TE_MissingBinding;
  let generation := po_generation p in
  let txn_id := po_txn_id p in
  let new := with_live_generations (rec_live_generations old ++
    [{| gr_generation := generation;
        gr_delegation := delegation;
        gr_binding := binding;
        gr_not_after := dg_not_after delegation |}]) old in
  let new := with_current_generation (Some generation) new in
  let new := with_authority Authority_Active new in
  let new := with_pending_op None new in
  results ← map_err TE_Terminal (push_bounded_terminal (rec_recent_terminal_results old)
    {| tr_txn_id := txn_id;
       tr_outcome := Outcome_Activated generation;
       tr_request := Request_Activate generation delegation;
       tr_recorded_at := now;
       tr_acked := false |});
  let new := with_recent_terminal_results results new in
  let new := if rec_generation_high_water new <? generation
             then with_generation_high_water generation new else new in
  bump_revision new old.

Definition gc_entry_of_pending (p : PendingOp) : GcEntry :=
  match po_binding p with
  | None => GcEntry_AwaitingInspection (po_canonical_slot p) (po_txn_id p)
  | Some b => GcEntry_Bound (po_canonical_slot p) (po_txn_id p) b GcState_Pending
  end.

Definition gc_entry_of_live (g : GenerationRecord) : GcEntry :=
  GcEntry_Bound (eb_slot (gr_binding g)) (slot_txn_id (eb_slot (gr_binding g)))
    (gr_binding g) GcState_Pending.

Definition revoke_urgent_arm old (reason : RevocationReason) (txn_id : bytes) (now : Z)
    : Result TransitionError (MeshSignerControlRecordV1 * AllowedRemoval) :=
  epoch ← ok_or (checked_add (rec_epoch_high_water old) 1) TE_EpochExhausted;
  let new := with_epoch_high_water epoch old in
  let new := with_authority (Authority_Revoked reason) new in
  let new := match rec_pending_op old with
             | Some p => with_gc_pending (rec_gc_pending new ++ [gc_entry_of_pending p]) new
             | None => new
             end in
  let new := with_pending_op None new in
  let new := with_gc_pending
    (rec_gc_pending new ++ (gc_entry_of_live <$> rec_live_generations old)) new in
  let new := with_live_generations [] new in
  let new := with_current_generation None new in
  results ← map_err TE_Terminal (push_bounded_terminal_urgent (rec_recent_terminal_results old)
    {| tr_txn_id := txn_id;
       tr_outcome := Outcome_Revoked (rec_epoch_high_water new);
       tr_request := Request_Revoke reason;
       tr_recorded_at := now;
       tr_acked := false |});
  let new := with_recent_terminal_results results new in
  new ← bump_revision new old;
  Ok (new, Removal_AllLive).

Definition reactivate_from_revoked old (txn_id next_txn_id : bytes) (backend : BackendKind)
    (now : Z) : Result TransitionError MeshSignerControlRecordV1 :=
  reject_if (match rec_authority old with Authority_Revoked _ => false | _ => true end)
    TE_NotRevoked;;
  reject_if (is_some (rec_pending_op old)) TE_PendingAlreadyExists;;
  reject_if (is_terminal_txn old next_txn_id) TE_TerminalTxnReused;;
  epoch ← ok_or (checked_add (rec_epoch_high_water old) 1) TE_EpochExhausted;
  let new := with_epoch_high_water epoch old in
  generation ← derive_next_generation old;
  let new := with_generation_high_water generation new in
  let canonical_slot := new_slot old generation next_txn_id backend in
  reject_if (slot_collides_with_unresolved_gc old canonical_slot) TE_SlotCollidesWithPendingGc;;
  let new := with_pending_op (Some
    {| po_txn_id := next_txn_id;
       po_kind := PendingOpKind_Reactivate;
       po_generation := generation;
       po_epoch := rec_epoch_high_water new;
       po_purpose := rec_purpose old;
       po_backend := backend;
       po_canonical_slot := canonical_slot;
       po_phase := PendingPhase_Intent;
       po_binding := None |}) new in
  results ← map_err TE_Terminal (push_bounded_terminal (rec_recent_terminal_results old)
    {| tr_txn_id := txn_id;
       tr_outcome := Outcome_Reactivated (rec_epoch_high_water new);
       tr_request := Request_Reactivate next_txn_id backend;
       tr_recorded_at := now;
       tr_acked := false |});
  bump_revision (with_recent_terminal_results results new) old.

Definition generation_expired old (generation : Z) (now : Z)
    : Result TransitionError (MeshSignerControlRecordV1 * AllowedRemoval) :=
  reject_if (bool_decide (rec_current_generation old = Some generation)) TE_RemovesCurrent;;
  g ← ok_or (iter_find (λ g, gr_generation g =? generation) (rec_live_generations old))
        TE_NoSuchGeneration;
  reject_if (now <? gr_not_after g) TE_GenerationNotExpired;;
  let new := with_gc_pending (rec_gc_pending old ++ [gc_entry_of_live g]) old in
  let new := with_live_generations
    (List.filter (λ lg, negb (gr_generation lg =? generation)) (rec_live_generations old)) new in
  new ← bump_revision new old;
  Ok (new, Removal_One generation).

Definition gc_inspected old (slot_id : string) (found : option ExactBinding)
    : Result TransitionError MeshSignerControlRecordV1 :=
  idx ← ok_or (position (has_slot_id slot_id) (rec_gc_pending old)) TE_NoSuchGcEntry;
  entry ← ok_or (rec_gc_pending old !! idx) TE_NoSuchGcEntry;
  seen ← match entry with
    | GcEntry_AwaitingInspection slot txn_id => Ok (slot, txn_id, true)
    | GcEntry_AbsentUnconfirmed slot txn_id => Ok (slot, txn_id, false)
    | _ => Err TE_WrongPhase
    end;
  let '(slot, txn_id, is_first_observation) := seen in
  let entry' := match found, is_first_observation with
    | None, true => GcEntry_AbsentUnconfirmed slot txn_id
    | None, false => GcEntry_Absent slot txn_id
    | Some b, _ => GcEntry_Bound slot txn_id b GcState_Pending
    end in
  bump_revision (with_gc_pending (<[idx:=entry']> (rec_gc_pending old)) old) old.

Definition gc_inspection_conflict old (slot_id : string)
    : Result TransitionError MeshSignerControlRecordV1 :=
  idx ← ok_or (position (has_slot_id slot_id) (rec_gc_pending old)) TE_NoSuchGcEntry;
  entry ← ok_or (rec_gc_pending old !! idx) TE_NoSuchGcEntry;
  entry' ← match entry with
    | GcEntry_AwaitingInspection slot txn_id
    | GcEntry_AbsentUnconfirmed slot txn_id => Ok (GcEntry_InspectionConflict slot txn_id)
    | _ => Err TE_WrongPhase
    end;
  bump_revision (with_gc_pending (<[idx:=entry']> (rec_gc_pending old)) old) old.

Definition gc_resolved old (slot_id : string) (residual_zero quarantine : bool)
    : Result TransitionError MeshSignerControlRecordV1 :=
  idx ← ok_or (position (has_slot_id slot_id) (rec_gc_pending old)) TE_NoSuchGcEntry;
  entry ← ok_or (rec_gc_pending old !! idx) TE_NoSuchGcEntry;
  entry' ← match entry with
    | GcEntry_Bound _ _ _ GcState_Quarantine => Err TE_WrongPhase
    | GcEntry_Bound slot txn_id binding _ =>
        Ok (GcEntry_Bound slot txn_id binding
              (if quarantine then GcState_Quarantine
               else if residual_zero then GcState_Done else GcState_Pending))
    | _ => Err TE_WrongPhase
    end;
  bump_revision (with_gc_pending (<[idx:=entry']> (rec_gc_pending old)) old) old.

Definition is_gc_entry (slot_id : string) (txn_id : bytes) (e : GcEntry) : bool :=
  has_slot_id slot_id e && bool_decide (gc_txn_id e = txn_id).

Definition gc_removal old (slot_id : string) (txn_id : bytes)
    : Result TransitionError MeshSignerControlRecordV1 :=
  entry ← ok_or (iter_find (is_gc_entry slot_id txn_id) (rec_gc_pending old)) TE_NoSuchGcEntry;
  reject_if (negb (observation_complete_and_residual_zero entry)) TE_GcNotResolved;;
  bump_revision (with_gc_pending
    (List.filter (λ e, negb (is_gc_entry slot_id txn_id e)) (rec_gc_pending old)) old) old.

Definition terminal_acked old (txn_id : bytes)
    : Result TransitionError MeshSignerControlRecordV1 :=
  reject_if (negb (is_terminal_txn old txn_id)) TE_NoSuchTerminalResult;;
  bump_revision (with_recent_terminal_results
    (ack_terminal (rec_recent_terminal_results old) txn_id) old) old.

(** ** The shared invariants *)

Fixpoint check_retained new (allowed_removal : AllowedRemoval) (l : list GenerationRecord)
    : Result TransitionError unit :=
  match l with
  | [] => Ok tt
  | g :: l =>
      if bool_decide (g ∈ rec_live_generations new) then check_retained new allowed_removal l
      else if iter_any (λ ng, gr_generation ng =? gr_generation g) (rec_live_generations new)
      then Err TE_RetainedGenerationMutated
      else if match allowed_removal with
              | Removal_None => false
              | Removal_One allowed => allowed =? gr_generation g
              | Removal_AllLive => true
              end
      then check_retained new allowed_removal l
      else Err TE_RetainedGenerationMutated
  end.

Fixpoint check_gc_slots (seen_slots : gset string) (l : list GcEntry)
    : Result TransitionError unit :=
  match l with
  | [] => Ok tt
  | e :: l =>
      let id := canonical_id (gc_slot e) in
      if bool_decide (id ∈ seen_slots) then Err TE_DuplicateGcSlot
      else check_gc_slots ({[id]} ∪ seen_slots) l
  end.

Definition validate_shared_invariants old new (allowed_removal : AllowedRemoval) (max_cap : nat)
    : Result TransitionError unit :=
  reject_if (bool_decide (rec_identity new ≠ rec_identity old)
             || bool_decide (rec_purpose new ≠ rec_purpose old)) TE_IdentityPurposeChanged;;
  check_retained new allowed_removal (rec_live_generations old);;
  reject_if
    (match rec_current_generation old with
     | Some cur =>
         negb (iter_any (λ g, gr_generation g =? cur) (rec_live_generations new)) &&
         negb (match allowed_removal with Removal_AllLive => true | _ => false end
               && negb (is_some (rec_current_generation new)))
     | None => false
     end) TE_RemovesCurrent;;
  reject_if (rec_generation_high_water new <? rec_generation_high_water old)
    TE_HighWaterDecreased;;
  reject_if (rec_epoch_high_water new <? rec_epoch_high_water old) TE_EpochHighWaterDecreased;;
  check_gc_slots ∅ (rec_gc_pending new);;
  reject_if ((max_cap <? cap_occupancy new)%nat && (cap_occupancy old <? cap_occupancy new)%nat)
    TE_CapExceeded.

(** ** [apply] *)

Definition apply_arm old (t : RecordTransition) (now : Z)
    : Result TransitionError (MeshSignerControlRecordV1 * AllowedRemoval) :=
  let no_removal (m : Result TransitionError MeshSignerControlRecordV1) :=
    new ← m; Ok (new, Removal_None) in
  match t with
  | StabilizationRewrite => Ok (old, Removal_None)
  | IntentRecorded txn_id kind backend => no_removal (intent_recorded old txn_id kind backend)
  | KeyObserved token binding => no_removal (key_observed old token binding)
  | ActivateFromKeyObserved token delegation =>
      no_removal (activate_from_key_observed_arm old token delegation now)
  | RevokeUrgent reason txn_id => revoke_urgent_arm old reason txn_id now
  | ReactivateFromRevoked txn_id next_txn_id backend =>
      no_removal (reactivate_from_revoked old txn_id next_txn_id backend now)
  | GenerationExpired generation => generation_expired old generation now
  | GcInspected slot_id found => no_removal (gc_inspected old slot_id found)
  | GcInspectionConflict slot_id => no_removal (gc_inspection_conflict old slot_id)
  | GcResolved slot_id residual_zero quarantine =>
      no_removal (gc_resolved old slot_id residual_zero quarantine)
  | GcRemoval slot_id txn_id => no_removal (gc_removal old slot_id txn_id)
  | TerminalAcked txn_id => no_removal (terminal_acked old txn_id)
  end.

Definition apply old (t : RecordTransition) (now : Z) (max_cap : nat)
    : Result TransitionError MeshSignerControlRecordV1 :=
  match idempotent_replay old t with
  | Some result => result
  | None =>
      out ← apply_arm old t now;
      let '(new, allowed_removal) := out in
      validate_shared_invariants old new allowed_removal max_cap;;
      Ok new
  end.

Definition revoke_urgent old (reason : RevocationReason) (txn_id : bytes) (now : Z)
    (max_cap : nat) : Result TransitionError MeshSignerControlRecordV1 :=
  apply old (RevokeUrgent reason txn_id) now max_cap.

End transitions.
