(* ===== verification/TransitionEffect.v ===== *)
(** * The control record's transition system

    A relational reading of [apply]: [arm_effect] lists, per
    [RecordTransition], the condition under which the arm accepts and the
    record it produces. The theorems about traces are proved by cases on it. *)

From stdpp Require Import base gmap sets list strings.
From Stdlib Require Import ZArith Lia Ascii.
From S2P Require Import Prelude.
From S2P Require Import ControlRecord.
From S2P Require Import Transition.
From S2P Require Import TransitionInv.

Open Scope Z_scope.

Section effect.
Context `{!Hashes}.
Implicit Types old new r : MeshSignerControlRecordV1.

(** [old] with a pending operation opened in generation [g] at [epoch]. *)
Definition opened old (txn : bytes) (kind : PendingOpKind) (b : BackendKind) (g epoch : Z)
    (results : list TerminalResult) : MeshSignerControlRecordV1 :=
  MkRecord (rec_identity old) (rec_purpose old) (rec_revision old + 1) epoch g
    (rec_authority old) (rec_current_generation old) (rec_live_generations old)
    (Some (MkPendingOp txn kind g epoch (rec_purpose old) b (new_slot old g txn b)
             PendingPhase_Intent None))
    (rec_gc_pending old) results.

Definition observed old (p : PendingOp) (b : ExactBinding) : MeshSignerControlRecordV1 :=
  with_revision (rec_revision old + 1) (with_pending_op (Some
    (MkPendingOp (po_txn_id p) (po_kind p) (po_generation p) (po_epoch p) (po_purpose p)
       (po_backend p) (po_canonical_slot p) PendingPhase_KeyObserved (Some b))) old).

Definition gc_replaced old (idx : nat) (e : GcEntry) : MeshSignerControlRecordV1 :=
  with_revision (rec_revision old + 1)
    (with_gc_pending (<[idx:=e]> (rec_gc_pending old)) old).

(** How one GC entry may change while it is tracked. *)
Inductive gc_edge : GcEntry → GcEntry → Prop :=
| edge_first_absent s t :
    gc_edge (GcEntry_AwaitingInspection s t) (GcEntry_AbsentUnconfirmed s t)
| edge_second_absent s t :
    gc_edge (GcEntry_AbsentUnconfirmed s t) (GcEntry_Absent s t)
| edge_found_first s t b :
    gc_edge (GcEntry_AwaitingInspection s t) (GcEntry_Bound s t b GcState_Pending)
| edge_found_second s t b :
    gc_edge (GcEntry_AbsentUnconfirmed s t) (GcEntry_Bound s t b GcState_Pending)
| edge_conflict_first s t :
    gc_edge (GcEntry_AwaitingInspection s t) (GcEntry_InspectionConflict s t)
| edge_conflict_second s t :
    gc_edge (GcEntry_AbsentUnconfirmed s t) (GcEntry_InspectionConflict s t)
| edge_resolved s t b st st' :
    st ≠ GcState_Quarantine → st' ≠ GcState_Residual →
    gc_edge (GcEntry_Bound s t b st) (GcEntry_Bound s t b st').

Inductive arm_effect old (now : Z) : RecordTransition → MeshSignerControlRecordV1 → Prop :=
| eff_intent txn kind b g :
    rec_pending_op old = None →
    txn ∉ (tr_txn_id <$> rec_recent_terminal_results old) →
    kind_matches_authority (rec_authority old) kind = true →
    kind ≠ PendingOpKind_Reactivate →
    derive_next_generation old = Ok g →
    arm_effect old now (IntentRecorded txn kind b)
      (opened old txn kind b g (rec_epoch_high_water old) (rec_recent_terminal_results old))
| eff_key_observed tok b p :
    rec_revision old = expected_revision tok →
    rec_pending_op old = Some p → po_phase p = PendingPhase_Intent →
    pending_matches_token p tok = true → eb_slot b = po_canonical_slot p →
    arm_effect old now (KeyObserved tok b) (observed old p b)
| eff_activate tok d p b results :
    rec_revision old = expected_revision tok →
    rec_pending_op old = Some p → po_phase p = PendingPhase_KeyObserved →
    po_binding p = Some b → pending_matches_token p tok = true →
    push_bounded_terminal (rec_recent_terminal_results old)
      (MkTerminalResult (po_txn_id p) (Outcome_Activated (po_generation p))
         (Request_Activate (po_generation p) d) now false) = Ok results →
    arm_effect old now (ActivateFromKeyObserved tok d) (activated old p b d results)
| eff_revoke reason txn results :
    rec_epoch_high_water old + 1 < u64_modulus →
    push_bounded_terminal_urgent (rec_recent_terminal_results old)
      (revoke_result old reason txn now) = Ok results →
    arm_effect old now (RevokeUrgent reason txn) (revoked old reason results)
| eff_reactivate txn next b g reason results :
    rec_authority old = Authority_Revoked reason → rec_pending_op old = None →
    next ∉ (tr_txn_id <$> rec_recent_terminal_results old) →
    rec_epoch_high_water old + 1 < u64_modulus →
    derive_next_generation old = Ok g →
    push_bounded_terminal (rec_recent_terminal_results old)
      (MkTerminalResult txn (Outcome_Reactivated (rec_epoch_high_water old + 1))
         (Request_Reactivate next b) now false) = Ok results →
    arm_effect old now (ReactivateFromRevoked txn next b)
      (opened old next PendingOpKind_Reactivate b g (rec_epoch_high_water old + 1) results)
| eff_expired g :
    g ∈ rec_live_generations old → gr_not_after g ≤ now →
    rec_current_generation old ≠ Some (gr_generation g) →
    arm_effect old now (GenerationExpired (gr_generation g)) (expired old g)
| eff_gc t idx e e' :
    match t with
    | GcInspected _ None =>
        match e' with GcEntry_AbsentUnconfirmed _ _ | GcEntry_Absent _ _ => True | _ => False end
    | GcInspected _ (Some b) => ∃ s x, e' = GcEntry_Bound s x b GcState_Pending
    | GcInspectionConflict _ => ∃ s x, e' = GcEntry_InspectionConflict s x
    | GcResolved _ rz q => ∃ s x b, e' = GcEntry_Bound s x b
        (if q then GcState_Quarantine else if rz then GcState_Done else GcState_Pending)
    | _ => False
    end →
    rec_gc_pending old !! idx = Some e → gc_edge e e' →
    match t with
    | GcInspected id _ | GcInspectionConflict id | GcResolved id _ _ =>
        canonical_id (gc_slot e) = id
    | _ => False
    end →
    arm_effect old now t (gc_replaced old idx e')
| eff_gc_removal id txn e :
    iter_find (is_gc_entry id txn) (rec_gc_pending old) = Some e →
    observation_complete_and_residual_zero e = true →
    arm_effect old now (GcRemoval id txn)
      (with_revision (rec_revision old + 1) (with_gc_pending
         (List.filter (λ e, negb (is_gc_entry id txn e)) (rec_gc_pending old)) old))
| eff_acked txn :
    txn ∈ (tr_txn_id <$> rec_recent_terminal_results old) →
    arm_effect old now (TerminalAcked txn)
      (with_revision (rec_revision old + 1)
         (with_recent_terminal_results (ack_terminal (rec_recent_terminal_results old) txn) old))
| eff_stabilize : arm_effect old now StabilizationRewrite old.

Lemma is_terminal_txn_true old txn :
  is_terminal_txn old txn = true ↔ txn ∈ (tr_txn_id <$> rec_recent_terminal_results old).
Proof.
  unfold is_terminal_txn. rewrite iter_any_true, list_elem_of_fmap.
  setoid_rewrite has_txn_id_true. naive_solver.
Qed.

Lemma is_terminal_txn_false old txn :
  is_terminal_txn old txn = false ↔ txn ∉ (tr_txn_id <$> rec_recent_terminal_results old).
Proof. by rewrite <-is_terminal_txn_true, not_true_iff_false. Qed.

Ltac clean_arm :=
  res_inv;
  repeat match goal with
  | H : is_terminal_txn _ _ = false |- _ => apply is_terminal_txn_false in H
  | H : is_terminal_txn _ _ = true |- _ => apply is_terminal_txn_true in H
  | H : (_ =? _) = true |- _ => apply Z.eqb_eq in H
  | H : checked_add _ _ = Some _ |- _ => apply checked_add_Some in H as [-> ?]
  | H : bump_revision _ _ = Ok _ |- _ => apply bump_revision_Ok in H as [-> ?]
  end.

Lemma gc_at_effect old id idx e :
  position (has_slot_id id) (rec_gc_pending old) = Some idx →
  rec_gc_pending old !! idx = Some e → canonical_id (gc_slot e) = id.
Proof. intros Hi He. by destruct (position_lookup _ _ _ _ Hi He) as [?%bool_decide_eq_true _]. Qed.

Lemma gc_inspected_effect old now id found new :
  gc_inspected old id found = Ok new → arm_effect old now (GcInspected id found) new.
Proof.
  unfold gc_inspected. intros Hok. clean_arm. destruct x1 as [[slot txn] first]. clean_arm.
  pose proof (gc_at_effect _ _ _ _ Hok0 Hok1) as Hid.
  eapply (eff_gc _ _ _ _ x0); [|done| |done];
    destruct x0; simplify_eq; destruct found; eauto; constructor.
Qed.

Lemma gc_inspection_conflict_effect old now id new :
  gc_inspection_conflict old id = Ok new → arm_effect old now (GcInspectionConflict id) new.
Proof.
  unfold gc_inspection_conflict. intros Hok. clean_arm.
  pose proof (gc_at_effect _ _ _ _ Hok0 Hok1) as Hid.
  eapply (eff_gc _ _ _ _ x0); [|done| |done]; destruct x0; simplify_eq; eauto; constructor.
Qed.

Lemma gc_resolved_effect old now id rz q new :
  gc_resolved old id rz q = Ok new → arm_effect old now (GcResolved id rz q) new.
Proof.
  unfold gc_resolved. intros Hok. clean_arm.
  pose proof (gc_at_effect _ _ _ _ Hok0 Hok1) as Hid.
  eapply (eff_gc _ _ _ _ x0); [|done| |done];
    destruct x0 as [| |? ? ? []| |]; simplify_eq; eauto; constructor; by destruct q, rz.
Qed.

(** Every accepted arm is an effect, and bumps the revision by one. *)
Lemma apply_arm_effect old t now new rm :
  (∀ p, rec_pending_op old = Some p → po_generation p ≤ rec_generation_high_water old) →
  apply_arm old t now = Ok (new, rm) → arm_effect old now t new.
Proof.
  intros Hle Hok. destruct t; cbn [apply_arm] in Hok;
    try (apply bind_Ok in Hok as (? & Hok & Heq); injection Heq as <- <-).
  - unfold intent_recorded in Hok. clean_arm.
    match goal with H : derive_next_generation _ = Ok ?g |- _ =>
      apply (eff_intent old now _ _ _ g); try done end.
    + by destruct (rec_authority old), kind.
    + by destruct (rec_authority old), kind.
  - unfold key_observed in Hok. clean_arm.
    match goal with H : rec_pending_op _ = Some ?p |- _ =>
      apply (eff_key_observed old now _ _ p); try done; by apply dec_stable end.
  - apply activate_arm_Ok in Hok as (p & b & res & ? & ? & ? & ? & ? & ? & ? & ->); [|done].
    by eapply eff_activate.
  - apply revoke_arm_Ok in Hok as (res & [= -> ->] & ? & ? & ?). by constructor.
  - unfold reactivate_from_revoked in Hok. clean_arm.
    destruct (rec_authority old) as [| |reason] eqn:Ha; try done.
    match goal with
    | Hg : derive_next_generation _ = Ok ?g, Hp : push_bounded_terminal _ _ = Ok ?v |- _ =>
        by apply (eff_reactivate old now _ _ _ g reason v)
    end.
  - apply expired_arm_Ok in Hok as (lg & ? & <- & ? & ? & ? & -> & ->). by constructor.
  - by apply gc_inspected_effect.
  - by apply gc_inspection_conflict_effect.
  - by apply gc_resolved_effect.
  - unfold gc_removal in Hok. clean_arm. by eapply eff_gc_removal.
  - unfold terminal_acked in Hok. clean_arm. by constructor.
  - injection Hok as <- <-. constructor.
Qed.

Lemma Inv_pending_generation r p :
  Inv r → rec_pending_op r = Some p → po_generation p ≤ rec_generation_high_water r.
Proof. intros [_ Hcon _ _] Hp. by destruct (con_pending _ Hcon _ Hp) as (?&?&?&?&?&?). Qed.

(** [apply] is a replay of a recorded result or one effect. *)
Lemma apply_effect old t now cap new :
  Inv old → apply old t now cap = Ok new → new = old ∨ arm_effect old now t new.
Proof.
  intros Hinv [[_ ->]|(_ & rm & Hok & _)]%apply_Ok; [by left|]. right.
  eapply apply_arm_effect; [|done]. eauto using Inv_pending_generation.
Qed.
End effect.
