(* ===== verification/Samples.v ===== *)
(** * Sample hashes and a sample history

    Concrete parameters and records at which the development's hypotheses
    hold: a pair of digest functions that satisfies [HashLaws], and the
    history bootstrap, create, activate, revoke, reactivate of one record. *)

From stdpp Require Import base gmap sets list strings.
From Stdlib Require Import ZArith Lia Ascii.
From S2P Require Import Prelude.
From S2P Require Import ControlRecord.
From S2P Require Import Transition.
From S2P Require Import TransitionInv.

Open Scope Z_scope.

(** A 32-byte digest and an injective hex name. *)
Definition sample_hashes : Hashes :=
  {| sha256 := λ b, take 32 (b ++ replicate 32 "000"%char);
     blake3_hex := String.string_of_list_ascii |}.

#[local] Existing Instance sample_hashes.

Lemma sample_hash_laws : HashLaws.
Proof.
  split; [|cbn].
  - intros b. cbn [sha256 sample_hashes]. rewrite length_take, length_app, length_replicate. lia.
  - intros b c Heq%(f_equal String.list_ascii_of_string).
    by rewrite !String.list_ascii_of_string_of_list_ascii in Heq.
Qed.

Definition sample_txn (n : N) : bytes := replicate 15 "000"%char ++ [ascii_of_N n].

Definition sample_identity : ControlIdentity :=
  MkControlIdentity "hh-1" "m-1" Channel_Dev.

Definition sample_slot : SlotId :=
  MkSlotId (identity_digest sample_identity) PurposeId_MeshSession 1 (sample_txn 1)
    BackendKind_File.

Definition sample_key : bytes := replicate 33 "002"%char.

Definition sample_binding : ExactBinding := MkExactBinding sample_slot sample_key [].

Definition sample_delegation : Delegation :=
  MkDelegation 1 "soyeht/mesh-session/delegation/v1" "soyeht/mesh-session/v1" "hh-1" "m-1" []
    sample_key (canonical_id sample_slot) "mesh-session"
    ["activate"; "final-confirm"; "activate-ack"] ["responder"; "initiator"] Channel_Dev 1 0 1000 [].

Definition sample_token (revision : Z) : WorkerToken :=
  MkWorkerToken (sample_txn 1) PendingOpKind_Create 1 1 PurposeId_MeshSession
    (canonical_id sample_slot) revision.

Definition after (r : MeshSignerControlRecordV1) (t : RecordTransition) : MeshSignerControlRecordV1 :=
  match apply r t 10 4 with Ok r' => r' | Err _ => r end.

Definition sample_fresh := bootstrap sample_identity PurposeId_MeshSession.
Definition sample_intent :=
  Eval vm_compute in
    after sample_fresh (IntentRecorded (sample_txn 1) PendingOpKind_Create BackendKind_File).
Definition sample_observed :=
  Eval vm_compute in after sample_intent (KeyObserved (sample_token 1) sample_binding).
Definition sample_active :=
  Eval vm_compute in
    after sample_observed (ActivateFromKeyObserved (sample_token 2) sample_delegation).
Definition sample_revoked :=
  Eval vm_compute in after sample_active (RevokeUrgent Reason_Lost (sample_txn 2)).
Definition sample_reactivating :=
  Eval vm_compute in
    after sample_revoked (ReactivateFromRevoked (sample_txn 3) (sample_txn 4) BackendKind_File).
(** A revocation that preempted a creation before its key was observed. *)
Definition sample_preempted :=
  Eval vm_compute in after sample_intent (RevokeUrgent Reason_Compromised (sample_txn 2)).
(** A revocation that preempted a creation whose key was observed. *)
Definition sample_superseded :=
  Eval vm_compute in after sample_observed (RevokeUrgent Reason_Lost (sample_txn 2)).
(** Its key destroyed, and its entry removed. *)
Definition sample_resolved :=
  Eval vm_compute in after sample_superseded (GcResolved (canonical_id sample_slot) true false).
Definition sample_removed :=
  Eval vm_compute in after sample_resolved (GcRemoval (canonical_id sample_slot) (sample_txn 1)).

Lemma sample_identity_wf : identity_wf sample_identity.
Proof. by vm_compute. Qed.

Lemma sample_fresh_Inv : Inv sample_fresh.
Proof. apply bootstrap_Inv, sample_identity_wf. Qed.

Lemma sample_step_Inv r t r' :
  Inv r → transition_wf t → evidence_ok r t → apply r t 10 4 = Ok r' → Inv r'.
Proof. pose proof sample_hash_laws. apply apply_Inv. Qed.

Lemma sample_intent_Inv : Inv sample_intent.
Proof.
  by eapply (sample_step_Inv sample_fresh
    (IntentRecorded (sample_txn 1) PendingOpKind_Create BackendKind_File)); [apply sample_fresh_Inv|..].
Qed.

Lemma sample_observed_Inv : Inv sample_observed.
Proof.
  by eapply (sample_step_Inv sample_intent (KeyObserved (sample_token 1) sample_binding));
    [apply sample_intent_Inv|..].
Qed.

Lemma sample_active_Inv : Inv sample_active.
Proof.
  by eapply (sample_step_Inv sample_observed
    (ActivateFromKeyObserved (sample_token 2) sample_delegation)); [apply sample_observed_Inv|..].
Qed.

Lemma sample_revoked_Inv : Inv sample_revoked.
Proof.
  by eapply (sample_step_Inv sample_active (RevokeUrgent Reason_Lost (sample_txn 2)));
    [apply sample_active_Inv|..].
Qed.

Lemma sample_superseded_Inv : Inv sample_superseded.
Proof.
  by eapply (sample_step_Inv sample_observed (RevokeUrgent Reason_Lost (sample_txn 2)));
    [apply sample_observed_Inv|..].
Qed.

Lemma sample_preempted_Inv : Inv sample_preempted.
Proof.
  by eapply (sample_step_Inv sample_intent (RevokeUrgent Reason_Compromised (sample_txn 2)));
    [apply sample_intent_Inv|..].
Qed.
