(* ===== verification/TransitionSpec.v ===== *)
(** * What the control record's transitions guarantee

    The correctness properties of [record.rs] and [transition.rs], stated for
    single transitions and for whole histories of a record. *)

From stdpp Require Import base gmap sets list strings.
From Stdlib Require Import ZArith Lia Ascii.
From S2P Require Import Prelude.
From S2P Require Import ControlRecord.
From S2P Require Import Transition.
From S2P Require Import TransitionInv.
From S2P Require Import TransitionEffect.
From S2P Require Import Samples.

Open Scope Z_scope.

Section frame.
Context `{!Hashes}.
Implicit Types old new r : MeshSignerControlRecordV1.

(** ** What every transition leaves alone *)

Lemma derived_generation_mono old g :
  Inv old → derive_next_generation old = Ok g → rec_generation_high_water old ≤ g.
Proof. intros Hi Hg. by destruct (derived_generation_fresh _ _ Hi Hg) as (_ & ? & _). Qed.

Lemma effect_frame old now t new :
  Inv old → arm_effect old now t new →
  rec_identity new = rec_identity old ∧ rec_purpose new = rec_purpose old ∧
  rec_generation_high_water old ≤ rec_generation_high_water new ∧
  rec_epoch_high_water old ≤ rec_epoch_high_water new.
Proof.
  intros Hi Heff. destruct Heff; cbn; split_and!; try done; try lia;
    by eapply derived_generation_mono.
Qed.

Lemma effect_revision old now t new :
  arm_effect old now t new → new = old ∨ rec_revision new = rec_revision old + 1.
Proof. destruct 1; auto. Qed.

Definition removal_of (t : RecordTransition) : AllowedRemoval :=
  match t with
  | RevokeUrgent _ _ => Removal_AllLive
  | GenerationExpired g => Removal_One g
  | _ => Removal_None
  end.

Lemma apply_arm_removal old t now new rm :
  apply_arm old t now = Ok (new, rm) → rm = removal_of t.
Proof.
  destruct t; cbn [apply_arm]; intros Hok;
    try (by apply bind_Ok in Hok as (? & _ & [= _ <-])); try by injection Hok as _ <-.
  - by apply revoke_arm_Ok in Hok as (? & [= _ ->] & _).
  - by apply expired_arm_Ok in Hok as (? & _ & _ & _ & _ & _ & _ & ->).
Qed.

(** ** The shared checks *)

Definition removal_allows (rm : AllowedRemoval) (g : Z) : Prop :=
  match rm with
  | Removal_None => False
  | Removal_One a => a = g
  | Removal_AllLive => True
  end.

Lemma check_retained_Ok new rm l :
  (∀ g, g ∈ l → g ∈ rec_live_generations new ∨
     (removal_allows rm (gr_generation g) ∧
      ∀ ng, ng ∈ rec_live_generations new → gr_generation ng ≠ gr_generation g)) →
  check_retained new rm l = Ok tt.
Proof.
  induction l as [|g l IH]; cbn; intros Hall; [done|].
  case_bool_decide as E; [by apply IH; intros; apply Hall; right|].
  destruct (Hall g) as [?|[Hrm Hn]]; [left|done|].
  rewrite (proj2 (iter_any_false _ _)).
  - replace (match rm with Removal_None => false | Removal_One a => a =? gr_generation g
             | Removal_AllLive => true end) with true.
    + apply IH. intros. apply Hall. by right.
    + destruct rm; cbn in Hrm; [done| |done]. symmetry. by apply Z.eqb_eq.
  - intros ng Hng. by apply Z.eqb_neq, Hn.
Qed.

Lemma check_gc_slots_Ok seen l :
  NoDup (canonical_id <$> (gc_slot <$> l)) →
  (∀ x, x ∈ (canonical_id <$> (gc_slot <$> l)) → x ∉ seen) →
  check_gc_slots seen l = Ok tt.
Proof.
  revert seen; induction l as [|e l IH]; cbn; intros seen Hnd Hf; [done|].
  rewrite bool_decide_false by (apply Hf; left).
  assert (canonical_id (gc_slot e) ∉ seen) as Hs by (apply Hf; left).
  destruct (proj2 (fresh_for_cons _ _ _ Hs) (conj Hnd Hf)). by apply IH.
Qed.

Lemma effect_retained old now t new :
  Inv old → arm_effect old now t new →
  ∀ g, g ∈ rec_live_generations old → g ∈ rec_live_generations new ∨
    (removal_allows (removal_of t) (gr_generation g) ∧
     ∀ ng, ng ∈ rec_live_generations new → gr_generation ng ≠ gr_generation g).
Proof.
  intros Hi Heff g Hg. destruct Heff; cbn; auto.
  - left. apply elem_of_app. by left.
  - right. split; [done|]. intros ng Hng. by apply not_elem_of_nil in Hng.
  - destruct (decide (gr_generation g = gr_generation g0)) as [Heq|Hne].
    + right. split; [done|]. intros ng [_ Hn]%list_elem_of_In%filter_In.
      apply negb_true_iff, Z.eqb_neq in Hn. congruence.
    + left. apply list_elem_of_In, filter_In. split; [by apply list_elem_of_In|].
      by apply negb_true_iff, Z.eqb_neq.
Qed.

(** The live generation pointed to stays live unless the record is revoked. *)
Lemma effect_current old now t new cur :
  Inv old → arm_effect old now t new → rec_current_generation old = Some cur →
  cur ∈ (gr_generation <$> rec_live_generations new) ∨
  (removal_of t = Removal_AllLive ∧ rec_current_generation new = None).
Proof.
  intros Hi Heff Hcur.
  destruct (list_elem_of_fmap_1 _ _ _ (con_current _ (inv_consistent _ Hi) _ Hcur)) as (g & -> & Hg).
  destruct Heff; cbn; try (left; by apply list_elem_of_fmap_2); auto.
  - left. apply list_elem_of_fmap_2, elem_of_app. by left.
  - left. apply list_elem_of_fmap_2, list_elem_of_In, filter_In.
    split; [by apply list_elem_of_In|]. apply negb_true_iff, Z.eqb_neq. congruence.
Qed.

Lemma Inv_gc_ids r : Inv r → NoDup (canonical_id <$> (gc_slot <$> rec_gc_pending r)).
Proof.
  intros Hi. pose proof (con_slots _ (inv_consistent _ Hi)) as Hnd.
  by apply tracked_ids_NoDup in Hnd as (_ & ? & _).
Qed.

(** The entry a [GcRemoval] finds is the only one it removes. *)
Lemma gc_entry_unique r id txn e x :
  Inv r → iter_find (is_gc_entry id txn) (rec_gc_pending r) = Some e →
  x ∈ rec_gc_pending r → is_gc_entry id txn x = true → x = e.
Proof.
  intros Hi [He [Hid _]%andb_true_iff]%iter_find_Some Hx [Hid' _]%andb_true_iff.
  apply bool_decide_eq_true in Hid, Hid'.
  eapply (NoDup_fmap_inj_on (canonical_id ∘ gc_slot)); [|done..|cbn; congruence].
  rewrite list_fmap_compose. by apply Inv_gc_ids.
Qed.

(** On a record that satisfies the invariant the shared checks behind the
    arms can only fail on the cap. *)
Lemma validate_effect old now t new cap :
  Inv old → Inv new → arm_effect old now t new →
  validate_shared_invariants old new (removal_of t) cap =
    if (cap <? cap_occupancy new)%nat && (cap_occupancy old <? cap_occupancy new)%nat
    then Err TE_CapExceeded else Ok tt.
Proof.
  intros Hi Hi' Heff. destruct (effect_frame _ _ _ _ Hi Heff) as (Hid & Hpu & Hg & He).
  unfold validate_shared_invariants. rewrite Hid, Hpu.
  rewrite !(bool_decide_false (_ ≠ _)) by (by intros []). cbn [orb].
  rewrite check_retained_Ok by (by eapply effect_retained).
  rewrite check_gc_slots_Ok; [|by apply Inv_gc_ids|intros x _; apply not_elem_of_empty].
  rewrite (proj2 (Z.ltb_ge _ _) Hg), (proj2 (Z.ltb_ge _ _) He).
  destruct (rec_current_generation old) as [cur|] eqn:Hc; cbn.
  - destruct (effect_current _ _ _ _ _ Hi Heff Hc) as [Hin|[-> ->]]; cbn.
    + rewrite (proj2 (iter_any_true _ _)); [by destruct (_ && _)|].
      apply list_elem_of_fmap in Hin as (g & -> & Hg'). exists g. by rewrite Z.eqb_refl.
    + rewrite andb_false_r. by destruct (_ && _).
  - by destruct (_ && _).
Qed.
End frame.

(** ** Histories *)

Section histories.
Context `{!Hashes, !HashLaws}.
Implicit Types old new r : MeshSignerControlRecordV1.

Lemma rstep_effect r r' :
  Inv r → rstep r r' → r' = r ∨ ∃ now t, arm_effect r now t r'.
Proof.
  intros Hi Hs. revert Hi. destruct Hs as [old t now cap new _ _ Hok]. intros Hi.
  destruct (apply_effect _ _ _ _ _ Hi Hok) as [->|?]; eauto.
Qed.

Lemma rstep_Inv r r' : Inv r → rstep r r' → Inv r'.
Proof. intros Hi Hs. revert Hi. destruct Hs. eauto using apply_Inv. Qed.

(** Induction along a history, with the invariant available at every record. *)
Lemma rsteps_ind_Inv (R : MeshSignerControlRecordV1 → MeshSignerControlRecordV1 → Prop) :
  (∀ r, R r r) → (∀ x y z, R x y → R y z → R x z) →
  (∀ r now t r', Inv r → Inv r' → arm_effect r now t r' → R r r') →
  ∀ r r', Inv r → rtc rstep r r' → R r r'.
Proof.
  intros Hrefl Htrans Heff r r' Hi Hs. induction Hs as [|x y z Hxy _ IH]; [done|].
  pose proof (rstep_Inv _ _ Hi Hxy) as Hi'. eapply Htrans; [|by apply IH].
  destruct (rstep_effect _ _ Hi Hxy) as [->|(now & t & He)]; eauto.
Qed.

Lemma rsteps_counters r r' :
  Inv r → rtc rstep r r' →
  (r' = r ∨ rec_revision r < rec_revision r') ∧
  rec_identity r' = rec_identity r ∧ rec_purpose r' = rec_purpose r ∧
  rec_generation_high_water r ≤ rec_generation_high_water r' ∧
  rec_epoch_high_water r ≤ rec_epoch_high_water r'.
Proof.
  revert r r'. apply (rsteps_ind_Inv (λ r r',
    (r' = r ∨ rec_revision r < rec_revision r') ∧
    rec_identity r' = rec_identity r ∧ rec_purpose r' = rec_purpose r ∧
    rec_generation_high_water r ≤ rec_generation_high_water r' ∧
    rec_epoch_high_water r ≤ rec_epoch_high_water r')).
  - intros r. split_and!; auto; lia.
  - intros x y z (Hxy & ? & ? & ? & ?) (Hyz & ? & ? & ? & ?).
    split_and!; [|congruence..|lia|lia].
    destruct Hxy as [->|?], Hyz as [->|?]; auto; right; lia.
  - intros r now t r' Hi _ He. pose proof (effect_frame _ _ _ _ Hi He) as (? & ? & ? & ?).
    split_and!; auto. destruct (effect_revision _ _ _ _ He); [auto|right; lia].
Qed.

Lemma cap_occupancy_revoked old reason results :
  cap_occupancy (revoked old reason results) = cap_occupancy old.
Proof.
  unfold cap_occupancy, revoked, revoked_gc. cbn. rewrite !List.filter_app, !length_app.
  rewrite (filter_all_true unresolved (gc_entry_of_live <$> _)), length_fmap.
  - destruct (rec_pending_op old) as [p|]; cbn; [|lia].
    unfold gc_entry_of_pending. destruct (po_binding p); cbn; lia.
  - apply Forall_fmap, Forall_true. done.
Qed.

Lemma replay_none old t :
  match t with
  | RevokeUrgent _ txn | ReactivateFromRevoked txn _ _ =>
      txn ∉ (tr_txn_id <$> rec_recent_terminal_results old)
  | ActivateFromKeyObserved tok _ =>
      expected_txn_id tok ∉ (tr_txn_id <$> rec_recent_terminal_results old)
  | _ => True
  end → idempotent_replay old t = None.
Proof.
  unfold idempotent_replay. destruct t; cbn; intros Hn%find_txn_None || intros _; try done;
    by rewrite Hn.
Qed.

(** A [RevokeUrgent] with a new transaction id, from any consistent record. *)
Lemma revoke_accepts old reason txn now cap :
  Inv old → rec_epoch_high_water old + 1 < u64_modulus → rec_revision old + 1 < u64_modulus →
  txn ∉ (tr_txn_id <$> rec_recent_terminal_results old) →
  ∃ u, made_room true (rec_recent_terminal_results old) u ∧
    revoke_urgent old reason txn now cap =
      Ok (revoked old reason (u ++ [revoke_result old reason txn now])).
Proof.
  intros Hi He Hr Hn. pose proof (revoke_arm_eq old reason txn now He Hr) as Heq.
  destruct (push_bounded_terminal_urgent _ _) as [res|e] eqn:Hp.
  - pose proof Hp as Hp'. apply push_impl_Ok in Hp as [(_ & x & Hx & Ht & _)|(_ & u & -> & Hu)].
    { destruct Hn. cbn in Ht. rewrite <-Ht. by apply list_elem_of_fmap_2. }
    exists u. split; [done|]. unfold revoke_urgent, apply.
    rewrite replay_none by done. cbn [apply_arm]. rewrite Heq. cbn [mbind Result_bind].
    pose proof (revoke_arm_Inv _ _ _ _ _ _ Hi Heq) as Hi'.
    change Removal_AllLive with (removal_of (RevokeUrgent reason txn)).
    rewrite (validate_effect _ now) by (done || by constructor).
    rewrite cap_occupancy_revoked, Nat.ltb_irrefl, andb_false_r. done.
  - apply push_impl_Err in Hp as [(_ & x & Hx & Ht & _)|(_ & [=] & _)].
    destruct Hn. cbn in Ht. rewrite <-Ht. by apply list_elem_of_fmap_2.
Qed.
End histories.

(** ** Steps under one cap *)

(** One accepted transition of a deployment whose cap is [cap]. *)
Inductive rstep_cap `{!Hashes} (cap : nat)
    : MeshSignerControlRecordV1 → MeshSignerControlRecordV1 → Prop :=
| rstep_cap_apply old t now new : apply old t now cap = Ok new → rstep_cap cap old new.

Section lemmas.
Context `{!Hashes}.
Implicit Types old new r : MeshSignerControlRecordV1.

Lemma validate_cap old new rm cap :
  validate_shared_invariants old new rm cap = Ok tt →
  (cap_occupancy new ≤ cap ∨ cap_occupancy new ≤ cap_occupancy old)%nat.
Proof.
  unfold validate_shared_invariants. intros Hok. res_inv.
  match goal with Hc : andb _ _ = false |- _ =>
    apply andb_false_iff in Hc as [Hc|Hc]; apply Nat.ltb_ge in Hc end; auto.
Qed.

Lemma apply_cap old t now cap new :
  apply old t now cap = Ok new →
  (cap_occupancy new ≤ cap ∨ cap_occupancy new ≤ cap_occupancy old)%nat.
Proof. intros [[_ ->]|(_ & rm & _ & ?)]%apply_Ok; eauto using validate_cap. Qed.

Lemma pending_matches_token_true p tok :
  pending_matches_token p tok = true ↔
  po_txn_id p = expected_txn_id tok ∧ po_kind p = expected_kind tok ∧
  po_generation p = expected_generation tok ∧ po_epoch p = expected_epoch tok ∧
  po_purpose p = expected_purpose tok ∧
  canonical_id (po_canonical_slot p) = expected_slot_id tok.
Proof.
  unfold pending_matches_token. rewrite !andb_true_iff, !bool_decide_eq_true, !Z.eqb_eq. tauto.
Qed.

(** Past a revocation every pending operation carries a newer epoch. *)
Lemma stale_epoch_no_effect r now t new tok :
  Inv r → expected_epoch tok < rec_epoch_high_water r →
  arm_effect r now t new →
  match t with
  | KeyObserved tok' _ | ActivateFromKeyObserved tok' _ => tok' ≠ tok
  | _ => True
  end.
Proof.
  intros Hi Hlt Heff. destruct Heff; try done;
    try (intros ->; match goal with Hp : rec_pending_op _ = Some ?p |- _ =>
      apply (con_pending _ (inv_consistent _ Hi)) in Hp as (_ & _ & Hep & _) end;
      match goal with Hm : pending_matches_token _ _ = true |- _ =>
        apply pending_matches_token_true in Hm as (_ & _ & _ & Hm & _) end; lia).
  by destruct t as [| | | | | |? []| | | | |].
Qed.

(** The result list of [new] still holds [e]. *)
Lemma push_keeps_unacked v res v' e :
  push_bounded_terminal v res = Ok v' → e ∈ v → tr_acked e = false → e ∈ v'.
Proof.
  intros [[-> _]|(_ & u & -> & Hu)]%push_impl_Ok He Ha; [done|].
  apply elem_of_app. left. by eapply made_room_keeps_unacked.
Qed.

Lemma find_txn_unique v t e :
  NoDup (tr_txn_id <$> v) → e ∈ v → tr_txn_id e = t → iter_find (has_txn_id t) v = Some e.
Proof.
  intros Hnd He Ht. destruct (iter_find _ v) as [x|] eqn:Hf.
  - apply iter_find_Some in Hf as [Hx Hxt%has_txn_id_true]. f_equal.
    eapply NoDup_fmap_inj_on; [done..|congruence].
  - apply find_txn_None in Hf. destruct Hf. rewrite <-Ht. by apply list_elem_of_fmap_2.
Qed.

Lemma gc_edge_slot e e' : gc_edge e e' → gc_slot e' = gc_slot e ∧ gc_txn_id e' = gc_txn_id e.
Proof. by destruct 1. Qed.
End lemmas.

(** The request a transition records in the terminal results. *)
Definition terminal_request (t : RecordTransition) : option (bytes * TerminalRequestFingerprint) :=
  match t with
  | RevokeUrgent reason txn_id => Some (txn_id, Request_Revoke reason)
  | ReactivateFromRevoked txn_id next_txn_id backend =>
      Some (txn_id, Request_Reactivate next_txn_id backend)
  | ActivateFromKeyObserved token delegation =>
      Some (expected_txn_id token, Request_Activate (expected_generation token) delegation)
  | _ => None
  end.

Section replay.
Context `{!Hashes}.
Implicit Types old new r : MeshSignerControlRecordV1.

(** A record that holds a terminal result answers every request under its
    transaction id from that result alone. *)
Lemma apply_replays r t txn req e now cap :
  Inv r → terminal_request t = Some (txn, req) →
  e ∈ rec_recent_terminal_results r → tr_txn_id e = txn →
  apply r t now cap = if decide (tr_request e = req) then Ok r else Err TE_TerminalTxnReused.
Proof.
  intros Hi Ht He Hx.
  pose proof (find_txn_unique _ _ _ (con_results_nodup _ (inv_consistent _ Hi)) He Hx) as Hf.
  assert (idempotent_replay r t = Some (if decide (tr_request e = req) then Ok r
            else Err TE_TerminalTxnReused)) as Hr.
  { unfold idempotent_replay. destruct t; try done; cbn in Ht |- *; injection Ht as <- <-;
      rewrite Hf; cbn; by destruct (decide (tr_request e = _)); case_bool_decide. }
  unfold apply. by rewrite Hr.
Qed.

Lemma effect_records old now t new txn req :
  arm_effect old now t new → terminal_request t = Some (txn, req) →
  ∃ e, e ∈ rec_recent_terminal_results new ∧ tr_txn_id e = txn ∧ tr_request e = req.
Proof.
  intros Heff Ht. destruct Heff; cbn in Ht; simplify_eq; cbn;
    try (match goal with Hm : pending_matches_token _ _ = true |- _ =>
           apply pending_matches_token_true in Hm as (<- & _ & <- & _) end);
    try (match goal with
         | Hp : push_bounded_terminal _ _ = Ok _ |- _ => by apply push_impl_records in Hp
         | Hp : push_bounded_terminal_urgent _ _ = Ok _ |- _ => by apply push_impl_records in Hp
         end).
  - by destruct t as [| | | | | |? []| | | | |].
Qed.
End replay.

(** ** The properties *)

Section claims.
Context `{!Hashes, !HashLaws}.
Implicit Types old new r : MeshSignerControlRecordV1.

(** C14: every record reachable from [bootstrap] by accepted transitions (any
    clock, any cap, in any order) whose inspection reports name the slot that
    was inspected, as the contract of the backend has it, passes the
    consistency check the store makes on load. *)
Theorem reachable_invariants_hold identity purpose r :
  identity_wf identity → reachable identity purpose r → invariants_hold r = true.
Proof.
  intros Hid Hr. apply invariants_hold_Consistent, inv_consistent.
  eapply rsteps_Inv; [exact Hr|]. by apply bootstrap_Inv.
Qed.

(** C33: the Boolean [invariants_hold] (early returns and three loops that
    share a set of slot ids) decides exactly the declarative [Consistent]. *)
Theorem invariants_hold_spec r : invariants_hold r = true ↔ Consistent r.
Proof. apply invariants_hold_Consistent. Qed.

(** C29: urgent revocation is blocked by nothing but exhausted counters and a
    transaction id already used for something else. From a record with the
    inductive invariant (every reachable one) and the two 64-bit counters not
    exhausted, a revocation with a new transaction id succeeds under every cap
    (even 0) and with a full list of unacknowledged results. It leaves no live
    generation and no pending operation, moves every slot they used to the GC
    list, keeps the occupancy, bumps epoch and revision, and records its result
    as the newest one. With the id of a recorded result it changes nothing: it
    is accepted if that result is of the same revocation, and refused otherwise. *)
Theorem revoke_urgent_never_blocked old reason txn now cap :
  Inv old → rec_epoch_high_water old + 1 < u64_modulus → rec_revision old + 1 < u64_modulus →
  (txn ∉ (tr_txn_id <$> rec_recent_terminal_results old) →
   ∃ new u, revoke_urgent old reason txn now cap = Ok new ∧
     rec_authority new = Authority_Revoked reason ∧
     rec_current_generation new = None ∧ rec_live_generations new = [] ∧
     rec_pending_op new = None ∧
     (gc_slot <$> rec_gc_pending new) ≡ₚ tracked_slots old ∧
     cap_occupancy new = cap_occupancy old ∧
     rec_epoch_high_water new = rec_epoch_high_water old + 1 ∧
     rec_revision new = rec_revision old + 1 ∧
     rec_recent_terminal_results new = u ++ [revoke_result old reason txn now] ∧
     made_room true (rec_recent_terminal_results old) u) ∧
  (∀ e, e ∈ rec_recent_terminal_results old → tr_txn_id e = txn →
   revoke_urgent old reason txn now cap =
     if bool_decide (tr_request e = Request_Revoke reason) then Ok old else Err TE_TerminalTxnReused).
Proof.
  intros Hi He Hr. split.
  - intros Hn. destruct (revoke_accepts old reason txn now cap Hi He Hr Hn) as (u & Hu & ->).
    eexists _, u. split; [done|]. split_and!; try done; [|apply cap_occupancy_revoked].
    rewrite <-(revoked_tracked old reason (u ++ [revoke_result old reason txn now])).
    unfold tracked_slots, pending_slots, live_slots. cbn. by rewrite app_nil_r.
  - intros e Hin <-. unfold revoke_urgent, apply, idempotent_replay. cbn.
    by rewrite (find_txn_unique _ (tr_txn_id e) e (con_results_nodup _ (inv_consistent _ Hi)) Hin eq_refl).
Qed.

(** The checks [apply] makes after an arm are redundant but for the cap:
    on a consistent record an arm's result is returned, unless it would exceed
    the cap while growing the occupancy, which is the only error they raise. *)
Theorem shared_checks_only_cap old t now cap new rm :
  Inv old → transition_wf t → evidence_ok old t → idempotent_replay old t = None →
  apply_arm old t now = Ok (new, rm) →
  apply old t now cap =
    if (cap <? cap_occupancy new)%nat && (cap_occupancy old <? cap_occupancy new)%nat
    then Err TE_CapExceeded else Ok new.
Proof.
  intros Hi Hwf Hev Hno Hok. unfold apply. rewrite Hno, Hok. cbn.
  rewrite (apply_arm_removal _ _ _ _ _ Hok), (validate_effect _ now).
  - by destruct (_ && _).
  - done.
  - by eapply apply_arm_Inv.
  - eapply apply_arm_effect; [|done]. eauto using Inv_pending_generation.
Qed.

(** Along any history the revision identifies the record (equal revisions
    mean the same record, so a compare-and-swap on it has no ABA), identity and
    purpose never change, and both high-water marks never decrease. *)
Theorem history_revision_unique r r' :
  Inv r → rtc rstep r r' →
  (rec_revision r' = rec_revision r → r' = r) ∧
  rec_identity r' = rec_identity r ∧ rec_purpose r' = rec_purpose r ∧
  rec_generation_high_water r ≤ rec_generation_high_water r' ∧
  rec_epoch_high_water r ≤ rec_epoch_high_water r'.
Proof.
  intros Hi Hs. destruct (rsteps_counters _ _ Hi Hs) as ([->|?] & ?); [done|].
  split; [lia|done].
Qed.

(** C28: a worker preempted by a revocation stays fenced out: whatever
    transitions follow, and even if it learns the current revision, its token
    can neither record a key nor activate; an activation under it can only
    report a result already on record, changing nothing. *)
Theorem revoked_worker_fenced old reason txn now0 cap0 r1 r2 tok :
  Inv old → expected_epoch tok ≤ rec_epoch_high_water old →
  txn ∉ (tr_txn_id <$> rec_recent_terminal_results old) →
  revoke_urgent old reason txn now0 cap0 = Ok r1 → rtc rstep r1 r2 →
  (∀ b now cap, ¬ is_ok (apply r2 (KeyObserved tok b) now cap)) ∧
  (∀ d now cap new, apply r2 (ActivateFromKeyObserved tok d) now cap = Ok new → new = r2).
Proof.
  intros Hi Hle Hn Hrev Hs.
  assert (Inv r1) as Hi1 by (eapply (apply_Inv _ (RevokeUrgent reason txn)); done).
  pose proof (rsteps_Inv _ _ Hs Hi1) as Hi2.
  destruct (rsteps_counters _ _ Hi1 Hs) as (_ & _ & _ & _ & Hep).
  assert (expected_epoch tok < rec_epoch_high_water r2) as Hlt.
  { unfold revoke_urgent in Hrev. apply apply_Ok in Hrev as [[Hrep _]|(_ & rm & Harm & _)].
    - by rewrite replay_none in Hrep.
    - apply revoke_arm_Ok in Harm as (res & [= -> _] & _). cbn in Hep. lia. }
  split.
  - intros b now cap Hok. destruct (apply r2 _ now cap) as [new|] eqn:Ha; [|done].
    apply apply_Ok in Ha as [[[=] _]|(_ & rm & Harm & _)].
    apply apply_arm_effect in Harm; [|eauto using Inv_pending_generation].
    by apply (stale_epoch_no_effect _ _ _ _ tok) in Harm.
  - intros d now cap new Ha. destruct (apply_effect _ _ _ _ _ Hi2 Ha) as [->|Heff]; [done|].
    by apply (stale_epoch_no_effect _ _ _ _ tok) in Heff.
Qed.

(** The authority moves only two ways. A revocation makes it [Revoked]
    with the given reason; an activation makes it [Active], and then the
    pending operation was in phase [KeyObserved] with a key bound to its slot,
    opened in the current epoch and of the one kind the old authority allows
    (create from [Empty], rotate from [Active], reactivate from [Revoked]). *)
Theorem authority_matrix old t now cap new :
  Inv old → apply old t now cap = Ok new → rec_authority new ≠ rec_authority old →
  (∃ reason txn, t = RevokeUrgent reason txn ∧ rec_authority new = Authority_Revoked reason) ∨
  (∃ tok d p b, t = ActivateFromKeyObserved tok d ∧ rec_authority new = Authority_Active ∧
     rec_pending_op old = Some p ∧ po_phase p = PendingPhase_KeyObserved ∧
     po_binding p = Some b ∧ eb_slot b = po_canonical_slot p ∧
     po_epoch p = rec_epoch_high_water old ∧
     kind_matches_authority (rec_authority old) (po_kind p) = true ∧
     rec_current_generation new = Some (po_generation p)).
Proof.
  intros Hi Hok Hne. destruct (apply_effect _ _ _ _ _ Hi Hok) as [->|Heff]; [done|].
  destruct Heff as [| |tok d p b results Hrev Hp Hph Hb Hm Hpush| | | | | | |]; try done; [|by left; eauto].
  right. destruct (con_pending _ (inv_consistent _ Hi) _ Hp) as (_ & _ & He & Hphase & _ & Hk).
  unfold phase_ok in Hphase. rewrite Hph, Hb in Hphase.
  exists tok, d, p, b. split_and!; done.
Qed.

(** No key slot is ever forgotten. Every slot a record tracks is still
    tracked after any accepted transition, except the one slot of a
    [GcRemoval] whose entry was resolved (destroyed with nothing left, or
    found absent twice). *)
Theorem tracked_slot_conservation old t now cap new s :
  Inv old → apply old t now cap = Ok new → s ∈ tracked_slots old →
  s ∈ tracked_slots new ∨
  (∃ id txn e, t = GcRemoval id txn ∧ e ∈ rec_gc_pending old ∧ gc_slot e = s ∧
     canonical_id s = id ∧ observation_complete_and_residual_zero e = true).
Proof.
  intros Hi Hok Hs. destruct (apply_effect _ _ _ _ _ Hi Hok) as [->|Heff]; [by left|].
  destruct Heff as [txn k b g Hn|tok b p _ Hp|tok d p b res _ Hp Hph Hb|reason txn res|
    txn nx b g reason res _ Hn|g Hg|t idx e e' _ Hidx Hedge _|id txn e Hf Hres|txn|].
  - left. revert Hs. unfold tracked_slots, pending_slots, live_slots. rewrite Hn. cbn.
    rewrite !elem_of_app. by intros [?|[?|[]%not_elem_of_nil]]; auto.
  - left. revert Hs. unfold tracked_slots, pending_slots, live_slots. by rewrite Hp.
  - left. destruct (con_pending _ (inv_consistent _ Hi) _ Hp) as (_ & _ & _ & Hphase & _).
    unfold phase_ok in Hphase. rewrite Hph, Hb in Hphase. revert Hs.
    unfold tracked_slots, pending_slots, live_slots. rewrite Hp. cbn.
    rewrite fmap_app, !elem_of_app. cbn. rewrite !list_elem_of_singleton, Hphase. tauto.
  - left. by rewrite revoked_tracked.
  - left. revert Hs. unfold tracked_slots, pending_slots, live_slots. rewrite Hn. cbn.
    rewrite !elem_of_app. by intros [?|[?|[]%not_elem_of_nil]]; auto.
  - left. rewrite expired_tracked; [done|by apply Hi|done].
  - left. revert Hs. unfold tracked_slots, gc_replaced. cbn. rewrite list_fmap_insert.
    rewrite (proj1 (gc_edge_slot _ _ Hedge)), list_insert_id; [done|].
    by rewrite list_lookup_fmap, Hidx.
  - revert Hs. unfold tracked_slots, pending_slots, live_slots. cbn. rewrite !elem_of_app.
    intros [?|[Hs|?]]; auto. apply list_elem_of_fmap in Hs as (x & -> & Hx).
    destruct (is_gc_entry id txn x) eqn:Hix.
    + right. exists id, txn, x. pose proof Hix as [Hid _]%andb_true_iff.
      apply bool_decide_eq_true in Hid. split_and!; try done.
      by rewrite (gc_entry_unique _ _ _ _ _ Hi Hf Hx Hix).
    + left. right. left. apply list_elem_of_fmap_2, list_elem_of_In, filter_In.
      split; [by apply list_elem_of_In|by rewrite Hix].
  - by left.
  - by left.
Qed.

(** A terminal result nobody acknowledged is never lost to make room,
    except by an urgent revocation; only acknowledging it changes it. *)
Theorem unacked_results_retained old t now cap new e :
  Inv old → apply old t now cap = Ok new →
  e ∈ rec_recent_terminal_results old → tr_acked e = false →
  (∀ reason txn, t ≠ RevokeUrgent reason txn) → t ≠ TerminalAcked (tr_txn_id e) →
  e ∈ rec_recent_terminal_results new.
Proof.
  intros Hi Hok He Ha Hnr Hna. destruct (apply_effect _ _ _ _ _ Hi Hok) as [->|Heff]; [done|].
  destruct Heff; try done; cbn; try (by eapply push_keeps_unacked).
  - by edestruct Hnr.
  - unfold ack_terminal. apply list_elem_of_fmap. exists e. split; [|done].
    destruct (has_txn_id txn e) eqn:Ht; [|done]. apply has_txn_id_true in Ht. congruence.
Qed.

(** Exactly once. A revocation, reactivation or activation that was
    accepted can be retried against the new record at any later time and
    under any cap: the retry is accepted and changes nothing. The same
    transaction id with different content is refused. *)
Theorem terminal_requests_exactly_once old t now cap new txn req :
  Inv old → transition_wf t → terminal_request t = Some (txn, req) →
  apply old t now cap = Ok new →
  ∀ t' req' now' cap', terminal_request t' = Some (txn, req') →
    apply new t' now' cap' = if decide (req = req') then Ok new else Err TE_TerminalTxnReused.
Proof.
  intros Hi Hwf Ht Hok t' req' now' cap' Ht'.
  assert (evidence_ok old t) as Hev by (by destruct t).
  pose proof (apply_Inv _ _ _ _ _ Hi Hwf Hev Hok) as Hi'.
  assert (∃ e, e ∈ rec_recent_terminal_results new ∧ tr_txn_id e = txn ∧ tr_request e = req)
    as (e & He & Hx & <-).
  { destruct (apply_Ok _ _ _ _ _ Hok) as [[Hrep ->]|(_ & rm & Harm & _)].
    - unfold idempotent_replay in Hrep. destruct t; try done; cbn in Ht; injection Ht as <- <-;
        apply bind_Some in Hrep as ([x rq] & [= <- <-] & (e & [He Hxe]%iter_find_Some & Hr)%bind_Some);
        apply has_txn_id_true in Hxe; case_bool_decide; simplify_eq; eauto.
    - eapply effect_records; [|done]. eapply apply_arm_effect; [|done].
      eauto using Inv_pending_generation. }
  by rewrite (apply_replays _ _ _ _ _ _ _ Hi' Ht' He Hx).
Qed.

(** GC entries that only an operator outside the record can settle. *)
Definition stuck (e : GcEntry) : Prop :=
  match e with
  | GcEntry_Bound _ _ _ GcState_Quarantine | GcEntry_InspectionConflict _ _ => True
  | _ => False
  end.

Lemma stuck_no_edge e e' : stuck e → ¬ gc_edge e e'.
Proof. by intros Hs He; destruct He as [| | | | | |? ? ? []]. Qed.

(** A quarantined or conflicting GC entry is permanent: through every
    later history it stays in the record unchanged, so its slot is neither
    destroyed by the worker nor dropped nor reused. *)
Theorem quarantine_is_permanent r r' e :
  Inv r → rtc rstep r r' → e ∈ rec_gc_pending r → stuck e → e ∈ rec_gc_pending r'.
Proof.
  intros Hi Hs He Hst. revert r r' Hi Hs He.
  apply (rsteps_ind_Inv (λ r r', e ∈ rec_gc_pending r → e ∈ rec_gc_pending r'));
    [done|by auto|].
  intros r now t r' Hi _ Heff He. destruct Heff as [| | | | | |t idx x x' _ Hidx Hedge _|id txn x Hf Hres| |];
    cbn; try done.
  - unfold revoked_gc. apply elem_of_app. by left.
  - apply elem_of_app. by left.
  - apply list_elem_of_lookup in He as [j Hj]. apply list_elem_of_lookup. exists j.
    rewrite list_lookup_insert_ne; [done|]. intros ->. simplify_eq. by eapply stuck_no_edge.
  - apply list_elem_of_In, filter_In. split; [by apply list_elem_of_In|].
    apply negb_true_iff, not_true_iff_false. intros Hie.
    rewrite (gc_entry_unique _ _ _ _ _ Hi Hf He Hie) in Hst. by destruct x as [| |? ? ? []| |].
Qed.

(** A deployment that runs every transition under one cap never holds
    more live generations, pending operations and unresolved GC entries
    together than that cap. *)
Theorem occupancy_within_cap identity purpose cap r :
  rtc (rstep_cap cap) (bootstrap identity purpose) r → (cap_occupancy r ≤ cap)%nat.
Proof.
  intros Hs. assert (cap_occupancy (bootstrap identity purpose) ≤ cap)%nat as Hb by (cbn; lia).
  induction Hs as [|x y z Hxy _ IH]; [done|]. apply IH.
  destruct Hxy as [old t now new Hok]. apply apply_cap in Hok. lia.
Qed.
End claims.

(** Digests are unambiguous: two slots with the same canonical id are the
    same slot, or their encodings are an explicit BLAKE3 collision; two
    identities with the same digest are equal, or an explicit SHA-256
    collision. No field boundary can be shifted to forge either. *)
Theorem derived_ids_unambiguous `{!Hashes} s t i j :
  slot_wf s → slot_wf t → identity_wf i → identity_wf j →
  (canonical_id s = canonical_id t → s = t ∨
     (slot_preimage s ≠ slot_preimage t ∧
      blake3_hex (slot_preimage s) = blake3_hex (slot_preimage t))) ∧
  (identity_digest i = identity_digest j → i = j ∨
     (identity_preimage i ≠ identity_preimage j ∧
      sha256 (identity_preimage i) = sha256 (identity_preimage j))).
Proof.
  intros Hs Ht Hi Hj. split; intros Heq.
  - destruct (decide (s = t)) as [->|Hne]; [by left|]. right.
    unfold canonical_id in Heq. cbn in Heq. simplify_eq.
    split; [|done]. intros ?%slot_preimage_inj; done.
  - destruct (decide (i = j)) as [->|Hne]; [by left|]. right.
    split; [|done]. intros ?%identity_preimage_inj; done.
Qed.

(** ** What the transitions do not check *)

Section findings.
Context `{!Hashes, !HashLaws}.
Implicit Types old new r : MeshSignerControlRecordV1.

(** C40: [GcInspected] trusts the reported binding. Unlike [KeyObserved] it does
    not compare the binding's slot with the entry's, so an accepted report of
    another slot's key turns a consistent record into one that
    [invariants_hold] rejects (and that the store then refuses to load). *)
Theorem gc_inspected_foreign_binding_accepted old e b now cap new :
  Inv old → e ∈ rec_gc_pending old → eb_slot b ≠ gc_slot e →
  apply old (GcInspected (canonical_id (gc_slot e)) (Some b)) now cap = Ok new →
  invariants_hold new = false.
Proof.
  intros Hi He Hne Hok. apply not_true_iff_false. rewrite invariants_hold_Consistent. intros Hc.
  apply apply_Ok in Hok as [[[=] _]|(_ & rm & Harm & _)].
  apply apply_arm_effect in Harm; [|eauto using Inv_pending_generation].
  inversion Harm as [| | | | | |? idx x x' Hx' Hidx Hedge Hid| | |]. subst.
  destruct Hx' as (s & t & ->). apply gc_edge_slot in Hedge as [Hs _]. cbn in Hs. subst s.
  assert (x = e) as ->.
  { pose proof (Inv_gc_ids _ Hi) as Hnd. rewrite <-list_fmap_compose in Hnd.
    apply (NoDup_fmap_inj_on (canonical_id ∘ gc_slot) (rec_gc_pending old)); [done| |done|done].
    by eapply list_elem_of_lookup_2. }
  destruct (con_gc _ Hc (GcEntry_Bound (gc_slot e) t b GcState_Pending)) as (_ & _ & Heq); [|done].
  cbn. apply list_elem_of_lookup. exists idx. apply list_lookup_insert_eq.
  by eapply lookup_lt_Some.
Qed.

(** A reactivation may name its own transaction id as the next one, which
    the documentation of the transition rules out. The operation it opens then
    cannot be activated while the reactivation's result is on record: the
    activation is refused as a reuse of that id. *)
Theorem reactivate_same_txn_accepted old txn backend now cap new :
  Inv old → txn ∉ (tr_txn_id <$> rec_recent_terminal_results old) →
  apply old (ReactivateFromRevoked txn txn backend) now cap = Ok new →
  (∃ p, rec_pending_op new = Some p ∧ po_txn_id p = txn) ∧
  ∃ e, e ∈ rec_recent_terminal_results new ∧ tr_txn_id e = txn ∧
    tr_request e = Request_Reactivate txn backend ∧
    ∀ r tok d now' cap', Inv r → e ∈ rec_recent_terminal_results r → expected_txn_id tok = txn →
      apply r (ActivateFromKeyObserved tok d) now' cap' = Err TE_TerminalTxnReused.
Proof.
  intros Hi Hn Hok.
  apply apply_Ok in Hok as [[Hrep _]|(_ & rm & Harm & _)]; [by rewrite replay_none in Hrep|].
  apply apply_arm_effect in Harm; [|eauto using Inv_pending_generation].
  pose proof (effect_records _ _ _ _ _ _ Harm eq_refl) as (e & He & Hx & Hr).
  inversion Harm; subst; [|done]. split; [eexists; split; [done|]; done|].
  exists e. split_and!; [done..|]. intros r tok d now' cap' Hir Her Htok.
  erewrite apply_replays; [|done|reflexivity|done|by rewrite Htok].
  rewrite Hr. by destruct (decide _).
Qed.
End findings.

(** ** The properties at work *)

Section witnesses.
#[local] Existing Instance sample_hashes.
#[local] Existing Instance sample_hash_laws.

Lemma sample_rstep r t r' :
  transition_wf t → evidence_ok r t → apply r t 10 4 = Ok r' → rstep r r'.
Proof. intros. by eapply (rstep_apply r t 10 4). Qed.

Lemma sample_revoked_reachable :
  reachable sample_identity PurposeId_MeshSession sample_revoked.
Proof.
  eapply rtc_l; [by eapply (sample_rstep _
    (IntentRecorded (sample_txn 1) PendingOpKind_Create BackendKind_File) sample_intent)|].
  eapply rtc_l; [by eapply (sample_rstep _ (KeyObserved (sample_token 1) sample_binding)
    sample_observed)|].
  eapply rtc_l; [by eapply (sample_rstep _
    (ActivateFromKeyObserved (sample_token 2) sample_delegation) sample_active)|].
  eapply rtc_l; [by eapply (sample_rstep _ (RevokeUrgent Reason_Lost (sample_txn 2))
    sample_revoked)|].
  done.
Qed.

Lemma sample_revoked_then_reactivating : rtc rstep sample_revoked sample_reactivating.
Proof.
  eapply rtc_l; [|done]. by apply (sample_rstep _
    (ReactivateFromRevoked (sample_txn 3) (sample_txn 4) BackendKind_File)).
Qed.

Lemma reachable_invariants_hold_witness : invariants_hold sample_revoked = true.
Proof.
  apply (reachable_invariants_hold sample_identity PurposeId_MeshSession).
  - exact sample_identity_wf.
  - exact sample_revoked_reachable.
Defined.

Lemma revoke_urgent_never_blocked_witness :
  ∃ new, revoke_urgent sample_active Reason_Lost (sample_txn 2) 10 0 = Ok new ∧
    rec_pending_op new = None ∧ cap_occupancy new = 1%nat.
Proof.
  destruct (proj1 (revoke_urgent_never_blocked sample_active Reason_Lost (sample_txn 2) 10 0
    sample_active_Inv eq_refl eq_refl)) as (new & u & Hok & _ & _ & _ & Hp & _ & Hcap & _).
  - by_decide.
  - exists new. split_and!; done.
Defined.

Lemma shared_checks_only_cap_witness :
  apply sample_active (IntentRecorded (sample_txn 5) PendingOpKind_RoutineRotate BackendKind_File)
    10 1 = Err TE_CapExceeded.
Proof.
  rewrite (shared_checks_only_cap sample_active
    (IntentRecorded (sample_txn 5) PendingOpKind_RoutineRotate BackendKind_File) 10 1
    (after sample_active
       (IntentRecorded (sample_txn 5) PendingOpKind_RoutineRotate BackendKind_File))
    Removal_None).
  - by vm_compute.
  - exact sample_active_Inv.
  - done.
  - done.
  - done.
  - by vm_compute.
Defined.

Lemma history_revision_unique_witness :
  rec_generation_high_water sample_revoked ≤ rec_generation_high_water sample_reactivating ∧
  rec_identity sample_reactivating = rec_identity sample_revoked.
Proof.
  destruct (history_revision_unique sample_revoked sample_reactivating) as (_ & Hid & _ & Hg & _).
  - exact sample_revoked_Inv.
  - exact sample_revoked_then_reactivating.
  - split; [exact Hg|exact Hid].
Defined.

Lemma revoked_worker_fenced_witness :
  ¬ is_ok (apply sample_preempted (KeyObserved (sample_token 2) sample_binding) 10 4).
Proof.
  destruct (revoked_worker_fenced sample_intent Reason_Compromised (sample_txn 2) 10 4
    sample_preempted sample_preempted (sample_token 2)) as [Hkey _].
  - exact sample_intent_Inv.
  - by vm_compute.
  - by_decide.
  - by vm_compute.
  - done.
  - exact (Hkey sample_binding 10 4%nat).
Defined.

Lemma authority_matrix_witness : ∃ p, rec_pending_op sample_observed = Some p ∧
  kind_matches_authority Authority_Empty (po_kind p) = true.
Proof.
  destruct (authority_matrix sample_observed
    (ActivateFromKeyObserved (sample_token 2) sample_delegation) 10 4 sample_active)
    as [(reason & txn & [=] & _)|(tok & d & p & b & _ & _ & Hp & _ & _ & _ & _ & Hk & _)].
  - exact sample_observed_Inv.
  - by vm_compute.
  - done.
  - by exists p.
Defined.

Lemma tracked_slot_conservation_witness : sample_slot ∈ tracked_slots sample_revoked.
Proof.
  destruct (tracked_slot_conservation sample_active (RevokeUrgent Reason_Lost (sample_txn 2)) 10 4
    sample_revoked sample_slot) as [?|(? & ? & ? & [=] & _)].
  - exact sample_active_Inv.
  - by vm_compute.
  - by_decide.
  - done.
Defined.

Definition sample_activation_result : TerminalResult :=
  MkTerminalResult (sample_txn 1) (Outcome_Activated 1) (Request_Activate 1 sample_delegation)
    10 false.

Lemma unacked_results_retained_witness :
  sample_activation_result ∈ rec_recent_terminal_results sample_reactivating.
Proof.
  apply (unacked_results_retained sample_revoked
    (ReactivateFromRevoked (sample_txn 3) (sample_txn 4) BackendKind_File) 10 4).
  - exact sample_revoked_Inv.
  - by vm_compute.
  - by_decide.
  - done.
  - done.
  - done.
Defined.

Lemma terminal_requests_exactly_once_witness :
  apply sample_revoked (RevokeUrgent Reason_Lost (sample_txn 2)) 99 0 = Ok sample_revoked ∧
  apply sample_revoked (RevokeUrgent Reason_OwnerAction (sample_txn 2)) 99 0
    = Err TE_TerminalTxnReused.
Proof.
  split.
  - rewrite (terminal_requests_exactly_once sample_active (RevokeUrgent Reason_Lost (sample_txn 2))
      10 4 sample_revoked (sample_txn 2) (Request_Revoke Reason_Lost) sample_active_Inv I eq_refl
      eq_refl _ (Request_Revoke Reason_Lost)); done.
  - rewrite (terminal_requests_exactly_once sample_active (RevokeUrgent Reason_Lost (sample_txn 2))
      10 4 sample_revoked (sample_txn 2) (Request_Revoke Reason_Lost) sample_active_Inv I eq_refl
      eq_refl _ (Request_Revoke Reason_OwnerAction)); done.
Defined.

Definition sample_quarantined :=
  Eval vm_compute in after sample_revoked (GcResolved (canonical_id sample_slot) false true).

Lemma quarantine_is_permanent_witness :
  GcEntry_Bound sample_slot (sample_txn 1) sample_binding GcState_Quarantine
    ∈ rec_gc_pending (after sample_quarantined
        (ReactivateFromRevoked (sample_txn 3) (sample_txn 4) BackendKind_File)).
Proof.
  apply (quarantine_is_permanent sample_quarantined).
  - by apply (sample_step_Inv sample_revoked (GcResolved (canonical_id sample_slot) false true));
      [exact sample_revoked_Inv|..].
  - eapply rtc_l; [|done]. by apply (sample_rstep _
      (ReactivateFromRevoked (sample_txn 3) (sample_txn 4) BackendKind_File)).
  - by_decide.
  - done.
Defined.

Lemma occupancy_within_cap_witness : (cap_occupancy sample_intent ≤ 4)%nat.
Proof.
  apply (occupancy_within_cap sample_identity PurposeId_MeshSession).
  eapply rtc_l; [|done]. by apply (rstep_cap_apply 4 _
    (IntentRecorded (sample_txn 1) PendingOpKind_Create BackendKind_File) 10).
Defined.

(** The same slot in the next generation. *)
Definition sample_next_slot : SlotId :=
  MkSlotId (identity_digest sample_identity) PurposeId_MeshSession 2 (sample_txn 1)
    BackendKind_File.

Lemma derived_ids_unambiguous_witness : canonical_id sample_slot ≠ canonical_id sample_next_slot.
Proof.
  destruct (derived_ids_unambiguous sample_slot sample_next_slot sample_identity sample_identity)
    as [Hs _].
  - by vm_compute.
  - by vm_compute.
  - by vm_compute.
  - by vm_compute.
  - intros Heq. destruct (Hs Heq) as [Hst|[Hne Hcol]]; [by injection Hst|].
    apply Hne. exact (blake3_collision_free _ _ Hcol).
Defined.

(** The inspection of [sample_preempted]'s slot reports a key of another slot. *)
Definition sample_foreign_binding : ExactBinding :=
  MkExactBinding (MkSlotId [] PurposeId_RosterSync 7 [] BackendKind_File) sample_key [].

Lemma gc_inspected_foreign_binding_accepted_witness :
  ∃ new, apply sample_preempted
      (GcInspected (canonical_id sample_slot) (Some sample_foreign_binding)) 10 4 = Ok new ∧
    invariants_hold new = false.
Proof.
  exists (after sample_preempted
    (GcInspected (canonical_id sample_slot) (Some sample_foreign_binding))).
  split; [by_decide|].
  apply (gc_inspected_foreign_binding_accepted sample_preempted
    (GcEntry_AwaitingInspection sample_slot (sample_txn 1)) sample_foreign_binding 10 4).
  - exact sample_preempted_Inv.
  - by_decide.
  - by_decide.
  - by_decide.
Defined.

Definition sample_stuck :=
  Eval vm_compute in
    after sample_revoked (ReactivateFromRevoked (sample_txn 3) (sample_txn 3) BackendKind_File).

Lemma reactivate_same_txn_accepted_witness :
  apply sample_revoked (ReactivateFromRevoked (sample_txn 3) (sample_txn 3) BackendKind_File) 10 4
    = Ok sample_stuck ∧
  apply sample_stuck (ActivateFromKeyObserved (MkWorkerToken (sample_txn 3) PendingOpKind_Reactivate
    2 3 PurposeId_MeshSession EmptyString 5) sample_delegation) 10 4 = Err TE_TerminalTxnReused.
Proof.
  assert (apply sample_revoked (ReactivateFromRevoked (sample_txn 3) (sample_txn 3)
    BackendKind_File) 10 4 = Ok sample_stuck) as Hok by by_decide.
  split; [exact Hok|].
  pose proof (reactivate_same_txn_accepted sample_revoked (sample_txn 3) BackendKind_File 10 4
    sample_stuck) as Hstuck.
  destruct Hstuck as (_ & e & He & Hx & Hreq & Hall).
  - exact sample_revoked_Inv.
  - by_decide.
  - exact Hok.
  - apply Hall; [|exact He|reflexivity].
    apply (sample_step_Inv sample_revoked (ReactivateFromRevoked (sample_txn 3) (sample_txn 3)
      BackendKind_File)); [exact sample_revoked_Inv|reflexivity|exact I|exact Hok].
Defined.
End witnesses.
