(* ===== verification/History.v ===== *)
(** * Long-range facts of a record's history

    Consequences of the transition relation that the orchestrations
    ([activate.rs], [gc.rs], [sign.rs]) rely on across calls: which pending
    operations and slots a later record can hold, given an earlier one. *)

From stdpp Require Import base gmap sets list strings.
From Stdlib Require Import ZArith Lia Ascii.
From S2P Require Import Prelude.
From S2P Require Import ControlRecord.
From S2P Require Import Transition.
From S2P Require Import TransitionInv.
From S2P Require Import TransitionEffect.
From S2P Require Import TransitionSpec.

Open Scope Z_scope.

Section history.
Context `{!Hashes, !HashLaws}.
Implicit Types r : MeshSignerControlRecordV1.

(** Slots a record can still use: live or being created. *)
Definition usable_slots r : list SlotId := live_slots r ++ pending_slots r.

(** Slots a record has given up and hands to the GC worker. *)
Definition retired_slots r : list SlotId := gc_slot <$> rec_gc_pending r.

Lemma effect_authority old now t new :
  arm_effect old now t new → rec_authority old ≠ Authority_Empty → rec_authority new ≠ Authority_Empty.
Proof. by destruct 1. Qed.

Lemma derived_generation_newer old g :
  derive_next_generation old = Ok g → rec_authority old ≠ Authority_Empty →
  rec_generation_high_water old < g.
Proof. intros [[? _]|(_ & -> & _)]%derive_next_generation_Ok ?; [done|lia]. Qed.

(** One effect: a usable slot was usable, or belongs to a newer generation. *)
Lemma effect_usable old now t new s :
  Inv old → arm_effect old now t new → rec_authority old ≠ Authority_Empty →
  s ∈ usable_slots new → s ∈ usable_slots old ∨ rec_generation_high_water old < slot_generation s.
Proof.
  intros Hi Heff Ha. unfold usable_slots, live_slots, pending_slots. destruct Heff; cbn; auto.
  - rewrite !elem_of_app, list_elem_of_singleton. intros [Hs| ->]; [auto|].
    right. by apply derived_generation_newer.
  - match goal with Hp : rec_pending_op _ = Some _ |- _ => by rewrite Hp; cbn; auto end.
  - match goal with Hp : rec_pending_op _ = Some ?p |- _ =>
      rewrite Hp; pose proof (con_pending _ (inv_consistent _ Hi) _ Hp)
        as (_ & _ & _ & Hph & _) end.
    unfold phase_ok in Hph. match goal with
      H1 : po_phase _ = _, H2 : po_binding _ = _ |- _ => rewrite H1, H2 in Hph end.
    cbn. rewrite fmap_app, app_nil_r, !elem_of_app, list_elem_of_singleton. cbn.
    rewrite list_elem_of_singleton, Hph. auto.
  - intros Hs. by apply not_elem_of_nil in Hs.
  - rewrite !elem_of_app, list_elem_of_singleton. intros [Hs| ->]; [auto|].
    right. by apply derived_generation_newer.
  - unfold expired. cbn. rewrite !elem_of_app. intros [Hs|Hs]; [|auto]. left. left.
    by eapply elem_of_sublist; [|apply fmap_sublist, list_filter_sublist].
Qed.

Lemma rsteps_usable r r' s :
  Inv r → rtc rstep r r' → rec_authority r ≠ Authority_Empty → s ∈ usable_slots r' →
  s ∈ usable_slots r ∨ rec_generation_high_water r < slot_generation s.
Proof.
  intros Hi Hs. revert s.
  enough (rec_authority r ≠ Authority_Empty → rec_authority r' ≠ Authority_Empty ∧
    rec_generation_high_water r ≤ rec_generation_high_water r' ∧
    ∀ s, s ∈ usable_slots r' →
      s ∈ usable_slots r ∨ rec_generation_high_water r < slot_generation s) by naive_solver.
  revert r r' Hi Hs. apply (rsteps_ind_Inv (λ r r',
    rec_authority r ≠ Authority_Empty → rec_authority r' ≠ Authority_Empty ∧
    rec_generation_high_water r ≤ rec_generation_high_water r' ∧
    ∀ s, s ∈ usable_slots r' →
      s ∈ usable_slots r ∨ rec_generation_high_water r < slot_generation s)).
  - intros r Ha. split_and!; auto; lia.
  - intros x y z Hxy Hyz Ha. destruct (Hxy Ha) as (Hy & ? & Hsy).
    destruct (Hyz Hy) as (Hz & ? & Hsz). split_and!; [done|lia|].
    intros s [Hs|?]%Hsz; [auto|]. right. lia.
  - intros r now t r' Hi _ Heff Ha. destruct (effect_frame _ _ _ _ Hi Heff) as (_ & _ & ? & _).
    split_and!; [by eapply effect_authority|done|]. intros s. by eapply effect_usable.
Qed.

Lemma usable_not_retired r s : Inv r → s ∈ usable_slots r → s ∉ retired_slots r.
Proof.
  intros [_ Hcon _ _] Hu Hr. pose proof (con_slots _ Hcon) as Hnd%NoDup_fmap_1.
  unfold tracked_slots in Hnd. unfold usable_slots, retired_slots in *.
  rewrite !NoDup_app in Hnd. set_solver.
Qed.

(** A slot handed to the GC worker is never usable again. *)
Lemma retired_forever r r' s :
  Inv r → rtc rstep r r' → s ∈ retired_slots r → s ∉ usable_slots r'.
Proof.
  intros Hi Hs Hr Hu. apply list_elem_of_fmap in Hr as (e & -> & He).
  assert (rec_authority r ≠ Authority_Empty) as Ha.
  { intros (_ & Hgc & _)%(inv_empty _ Hi). rewrite Hgc in He. by apply not_elem_of_nil in He. }
  destruct (rsteps_usable _ _ _ Hi Hs Ha Hu) as [Hu'|Hlt].
  - apply (usable_not_retired _ _ Hi Hu'). by apply list_elem_of_fmap_2.
  - apply (con_gc _ (inv_consistent _ Hi)) in He as [(_ & _ & ?) _]. lia.
Qed.

(** A later pending operation of the same generation is the same one. *)
Lemma effect_pending old now t new p :
  Inv old → arm_effect old now t new → rec_authority old ≠ Authority_Empty →
  rec_pending_op new = Some p →
  (∃ p0, rec_pending_op old = Some p0 ∧ po_generation p0 = po_generation p) ∨
  rec_generation_high_water old < po_generation p.
Proof.
  intros Hi Heff Ha. destruct Heff; cbn; eauto; try done;
    try (intros [= <-]; right; by apply derived_generation_newer).
  intros [= <-]. eauto.
Qed.

Lemma rsteps_pending r r' p :
  Inv r → rtc rstep r r' → rec_authority r ≠ Authority_Empty → rec_pending_op r' = Some p →
  (∃ p0, rec_pending_op r = Some p0 ∧ po_generation p0 = po_generation p) ∨
  rec_generation_high_water r < po_generation p.
Proof.
  intros Hi Hs. revert p.
  enough (rec_authority r ≠ Authority_Empty → rec_authority r' ≠ Authority_Empty ∧
    rec_generation_high_water r ≤ rec_generation_high_water r' ∧
    ∀ p, rec_pending_op r' = Some p →
      (∃ p0, rec_pending_op r = Some p0 ∧ po_generation p0 = po_generation p) ∨
      rec_generation_high_water r < po_generation p) by naive_solver.
  revert r r' Hi Hs. apply (rsteps_ind_Inv (λ r r',
    rec_authority r ≠ Authority_Empty → rec_authority r' ≠ Authority_Empty ∧
    rec_generation_high_water r ≤ rec_generation_high_water r' ∧
    ∀ p, rec_pending_op r' = Some p →
      (∃ p0, rec_pending_op r = Some p0 ∧ po_generation p0 = po_generation p) ∨
      rec_generation_high_water r < po_generation p)).
  - intros r Ha. split_and!; eauto; lia.
  - intros x y z Hxy Hyz Ha. destruct (Hxy Ha) as (Hy & ? & Hpy).
    destruct (Hyz Hy) as (Hz & ? & Hpz). split_and!; [done|lia|].
    intros p [(q & Hq & <-)|?]%Hpz; [eauto|]. right. lia.
  - intros r now t r' Hi _ Heff Ha. destruct (effect_frame _ _ _ _ Hi Heff) as (_ & _ & ? & _).
    split_and!; [by eapply effect_authority|done|]. intros p. by eapply effect_pending.
Qed.

(** Once its key is observed, a pending operation is kept as it is or closed
    for good: no later operation carries its generation. *)
Lemma observed_pending_stable r r' p q :
  Inv r → rtc rstep r r' → rec_pending_op r = Some p → po_phase p = PendingPhase_KeyObserved →
  rec_pending_op r' = Some q → po_generation q = po_generation p → q = p.
Proof.
  intros Hi Hs Hp Hph Hq Hg. induction Hs as [r|x y z Hxy Hyz IH]; [congruence|].
  pose proof (rstep_Inv _ _ Hi Hxy) as Hiy.
  destruct (rstep_effect _ _ Hi Hxy) as [->|(now & t & Heff)]; [auto|].
  destruct (decide (rec_pending_op y = Some p)) as [Hy|Hy]; [auto|].
  assert (rec_pending_op y = None ∧ rec_authority y ≠ Authority_Empty ∧
    po_generation p ≤ rec_generation_high_water y) as (Hn & Ha & Hle).
  { pose proof (Inv_pending_generation _ _ Hi Hp).
    destruct Heff; cbn in *; try congruence; by split_and!. }
  destruct (rsteps_pending _ _ _ Hiy Hyz Ha Hq) as [(? & ? & _)|?]; [congruence|lia].
Qed.

Lemma revoke_raises_epoch r reason txn now cap r' :
  revoke_urgent r reason txn now cap = Ok r' →
  txn ∉ (tr_txn_id <$> rec_recent_terminal_results r) →
  rec_epoch_high_water r' = rec_epoch_high_water r + 1.
Proof.
  intros Hrev Hn. unfold revoke_urgent in Hrev.
  apply apply_Ok in Hrev as [[Hrep _]|(_ & rm & Harm & _)]; [by rewrite replay_none in Hrep|].
  by apply revoke_arm_Ok in Harm as (res & [= -> _] & _).
Qed.

(** Past a revocation the epoch is newer, whatever follows. *)
Lemma revocation_raises_epoch base r0 reason txn now cap r1 r :
  Inv base → rtc rstep base r0 → txn ∉ (tr_txn_id <$> rec_recent_terminal_results r0) →
  revoke_urgent r0 reason txn now cap = Ok r1 → rtc rstep r1 r →
  rec_epoch_high_water base < rec_epoch_high_water r.
Proof.
  intros Hi Hs0 Hn Hrev Hs1. pose proof (rsteps_Inv _ _ Hs0 Hi) as Hi0.
  assert (Inv r1) as Hi1 by (by eapply (apply_Inv _ (RevokeUrgent reason txn))).
  destruct (rsteps_counters _ _ Hi Hs0) as (_ & _ & _ & _ & ?).
  destruct (rsteps_counters _ _ Hi1 Hs1) as (_ & _ & _ & _ & ?).
  pose proof (revoke_raises_epoch _ _ _ _ _ _ Hrev Hn). lia.
Qed.
End history.
