(* ===== verification/Locks.v ===== *)
(** * The turnstile / access lock protocol

    Models [mesh-session-control-model-rs/src/locks.rs]: [acquire_for_sign]
    and [acquire_for_mutation] as program counters over a [Mutex] (the
    turnstile) and a [RwLock] (the access lock), interleaved between any
    number of threads, with the [OrderSpy] log. *)

From stdpp Require Import base gmap sets list.
From Stdlib Require Import ZArith Lia.
From S2P Require Import Prelude.

Inductive LockEvent :=
| TurnstileAcquire
| TurnstileRelease
| AccessAcquireShared
| AccessAcquireExclusive
| AccessRelease.

(** Which guard a call acquires: [SignGuard] or [MutateGuard]. *)
Inductive GuardKind := Shared | Exclusive.

#[export] Instance LockEvent_eq_dec : EqDecision LockEvent.
Proof. solve_decision. Defined.
#[export] Instance GuardKind_eq_dec : EqDecision GuardKind.
Proof. solve_decision. Defined.

(** Where a thread is in [acquire_for_sign]/[acquire_for_mutation] and in the
    guard's [Drop], one state per point between two effects. *)
Inductive Pc :=
| Pc_Idle
| Pc_Start (k : GuardKind)          (* before [turnstile.lock()] *)
| Pc_Turnstile (k : GuardKind)      (* locked, before recording [TurnstileAcquire] *)
| Pc_WaitAccess (k : GuardKind)     (* before [access.read()] / [access.write()] *)
| Pc_Access (k : GuardKind)         (* locked, before recording the acquisition *)
| Pc_DropTurnstile (k : GuardKind)  (* before [drop(t)] *)
| Pc_Dropped (k : GuardKind)        (* before recording [TurnstileRelease] *)
| Pc_Guard (k : GuardKind)          (* the guard is returned to the caller *)
| Pc_Releasing (k : GuardKind).     (* [Drop] recorded [AccessRelease]; lock still held *)

#[export] Instance Pc_eq_dec : EqDecision Pc.
Proof. solve_decision. Defined.

Record MeshSignerLocks := MkLocks {
  turnstile : option nat;
  access_shared : gset nat;
  access_exclusive : option nat;
  spy : list LockEvent;
  pcs : gmap nat Pc;
}.

Definition locks_new : MeshSignerLocks := MkLocks None ∅ None [] ∅.

Definition pc_of (s : MeshSignerLocks) (t : nat) : Pc := default Pc_Idle (pcs s !! t).

Definition at_pc (t : nat) (p : Pc) (s : MeshSignerLocks) : MeshSignerLocks :=
  MkLocks (turnstile s) (access_shared s) (access_exclusive s) (spy s) (<[t:=p]> (pcs s)).

Definition record_event (e : LockEvent) (s : MeshSignerLocks) : MeshSignerLocks :=
  MkLocks (turnstile s) (access_shared s) (access_exclusive s) (spy s ++ [e]) (pcs s).

Definition acquire_event (k : GuardKind) : LockEvent :=
  match k with Shared => AccessAcquireShared | Exclusive => AccessAcquireExclusive end.

(** [Mutex::lock] and [RwLock::read]/[write]: [None] while the call blocks. *)
Definition lock_turnstile (t : nat) (s : MeshSignerLocks) : option MeshSignerLocks :=
  match turnstile s with
  | Some _ => None
  | None => Some (MkLocks (Some t) (access_shared s) (access_exclusive s) (spy s) (pcs s))
  end.

Definition lock_access (t : nat) (k : GuardKind) (s : MeshSignerLocks) : option MeshSignerLocks :=
  match access_exclusive s, k with
  | Some _, _ => None
  | None, Shared =>
      Some (MkLocks (turnstile s) ({[t]} ∪ access_shared s) None (spy s) (pcs s))
  | None, Exclusive =>
      if bool_decide (access_shared s = ∅)
      then Some (MkLocks (turnstile s) (access_shared s) (Some t) (spy s) (pcs s))
      else None
  end.

Definition unlock_turnstile (s : MeshSignerLocks) : MeshSignerLocks :=
  MkLocks None (access_shared s) (access_exclusive s) (spy s) (pcs s).

Definition unlock_access (t : nat) (k : GuardKind) (s : MeshSignerLocks) : MeshSignerLocks :=
  match k with
  | Shared => MkLocks (turnstile s) (access_shared s ∖ {[t]}) (access_exclusive s) (spy s) (pcs s)
  | Exclusive => MkLocks (turnstile s) (access_shared s) None (spy s) (pcs s)
  end.

(** What a thread may do next: start an acquisition, run its call one effect
    further, or drop the guard it holds. *)
Inductive Action := Act_Call (k : GuardKind) | Act_Run | Act_Drop.

(** One step of thread [t]; [None] when the action is not enabled. *)
Definition thread_step (t : nat) (a : Action) (s : MeshSignerLocks) : option MeshSignerLocks :=
  match a, pc_of s t with
  | Act_Call k, Pc_Idle => Some (at_pc t (Pc_Start k) s)
  | Act_Run, Pc_Start k => at_pc t (Pc_Turnstile k) <$> lock_turnstile t s
  | Act_Run, Pc_Turnstile k => Some (at_pc t (Pc_WaitAccess k) (record_event TurnstileAcquire s))
  | Act_Run, Pc_WaitAccess k => at_pc t (Pc_Access k) <$> lock_access t k s
  | Act_Run, Pc_Access k => Some (at_pc t (Pc_DropTurnstile k) (record_event (acquire_event k) s))
  | Act_Run, Pc_DropTurnstile k => Some (at_pc t (Pc_Dropped k) (unlock_turnstile s))
  | Act_Run, Pc_Dropped k => Some (at_pc t (Pc_Guard k) (record_event TurnstileRelease s))
  | Act_Drop, Pc_Guard k => Some (at_pc t (Pc_Releasing k) (record_event AccessRelease s))
  | Act_Run, Pc_Releasing k => Some (at_pc t Pc_Idle (unlock_access t k s))
  | _, _ => None
  end.

Inductive lstep : MeshSignerLocks → MeshSignerLocks → Prop :=
| lstep_thread t a s s' : thread_step t a s = Some s' → lstep s s'.

(** ** Invariant *)

(** The turnstile is held from its acquisition until after the access lock
    is held; the access lock from there until the guard is dropped. *)
Definition holds_turnstile (p : Pc) : bool :=
  match p with
  | Pc_Turnstile _ | Pc_WaitAccess _ | Pc_Access _ | Pc_DropTurnstile _ => true
  | _ => false
  end.

Definition holds_access (p : Pc) : option GuardKind :=
  match p with
  | Pc_Access k | Pc_DropTurnstile k | Pc_Dropped k | Pc_Guard k | Pc_Releasing k => Some k
  | _ => None
  end.

Record LocksInv (s : MeshSignerLocks) : Prop := {
  li_turnstile : ∀ t, turnstile s = Some t ↔ holds_turnstile (pc_of s t) = true;
  li_shared : ∀ t, t ∈ access_shared s ↔ holds_access (pc_of s t) = Some Shared;
  li_exclusive : ∀ t, access_exclusive s = Some t ↔ holds_access (pc_of s t) = Some Exclusive;
  li_excludes : ∀ t, access_exclusive s = Some t → access_shared s = ∅;
}.

Lemma pc_of_at_pc s t p t' :
  pc_of (at_pc t p s) t' = if decide (t = t') then p else pc_of s t'.
Proof.
  unfold pc_of, at_pc. cbn. destruct (decide (t = t')) as [->|Hne].
  - by rewrite lookup_insert_eq.
  - by rewrite lookup_insert_ne.
Qed.

Lemma pc_of_other_fields a b c d s t : pc_of (MkLocks a b c d (pcs s)) t = pc_of s t.
Proof. done. Qed.

Lemma locks_new_inv : LocksInv locks_new.
Proof.
  split; unfold pc_of; cbn; intros t; rewrite ?lookup_empty; cbn; [done| |done|done].
  split; [intros []%not_elem_of_empty|done].
Qed.

(** A step that changes neither what thread [t] holds nor the locks. *)
Lemma inv_frame s t p ev :
  LocksInv s → holds_turnstile p = holds_turnstile (pc_of s t) →
  holds_access p = holds_access (pc_of s t) →
  LocksInv (at_pc t p (MkLocks (turnstile s) (access_shared s) (access_exclusive s) ev (pcs s))).
Proof.
  intros [IT IS IE IX] Ht Ha. split; intros t'; rewrite ?pc_of_at_pc; cbn;
    rewrite ?pc_of_other_fields; [| | |by apply IX]; destruct (decide (t = t')) as [<-|_];
    rewrite ?Ht, ?Ha; auto.
Qed.

Lemma inv_lock_turnstile s t p s1 :
  LocksInv s → lock_turnstile t s = Some s1 → holds_turnstile p = true →
  holds_access p = holds_access (pc_of s t) → LocksInv (at_pc t p s1).
Proof.
  intros [IT IS IE IX] Hl Ht Ha. unfold lock_turnstile in Hl.
  destruct (turnstile s) as [u|] eqn:Hu; [done|]. injection Hl as <-.
  split; intros t'; rewrite ?pc_of_at_pc; cbn; rewrite ?pc_of_other_fields; [| | |by apply IX];
    destruct (decide (t = t')) as [<-|Hne]; rewrite ?Ht, ?Ha; auto; [done|].
  rewrite <-(IT t'). split; [congruence|done].
Qed.

Lemma inv_unlock_turnstile s t p :
  LocksInv s → turnstile s = Some t → holds_turnstile p = false →
  holds_access p = holds_access (pc_of s t) → LocksInv (at_pc t p (unlock_turnstile s)).
Proof.
  intros [IT IS IE IX] Hu Ht Ha.
  split; intros t'; rewrite ?pc_of_at_pc; cbn; rewrite ?pc_of_other_fields; [| | |by apply IX];
    destruct (decide (t = t')) as [<-|Hne]; rewrite ?Ht, ?Ha; auto; [done|].
  rewrite <-(IT t'). split; congruence.
Qed.

Lemma inv_lock_access s t k p s1 :
  LocksInv s → lock_access t k s = Some s1 → holds_access (pc_of s t) = None →
  holds_access p = Some k → holds_turnstile p = holds_turnstile (pc_of s t) →
  LocksInv (at_pc t p s1).
Proof.
  intros [IT IS IE IX] Hl Hno Ha Ht. unfold lock_access in Hl.
  destruct (access_exclusive s) as [u|] eqn:Hu; [done|]. destruct k.
  - injection Hl as <-. split; intros t'; rewrite ?pc_of_at_pc; cbn; rewrite ?pc_of_other_fields;
      [..|done]; destruct (decide (t = t')) as [<-|Hne]; rewrite ?Ht, ?Ha; auto.
    + rewrite elem_of_union, elem_of_singleton. tauto.
    + rewrite elem_of_union, elem_of_singleton, <-IS. intuition congruence.
    + done.
  - case_bool_decide as Hemp; [|done]. injection Hl as <-.
    split; intros t'; rewrite ?pc_of_at_pc; cbn; rewrite ?pc_of_other_fields; [..|done];
      destruct (decide (t = t')) as [<-|Hne]; rewrite ?Ht, ?Ha; auto; [|done|].
    + rewrite Hemp. split; [by intros []%not_elem_of_empty|done].
    + rewrite <-IE. split; congruence.
Qed.

Lemma inv_unlock_access s t k p :
  LocksInv s → holds_access (pc_of s t) = Some k → holds_access p = None →
  holds_turnstile p = holds_turnstile (pc_of s t) → LocksInv (at_pc t p (unlock_access t k s)).
Proof.
  intros [IT IS IE IX] Hk Ha Ht. destruct k.
  - split; intros t'; rewrite ?pc_of_at_pc; cbn; rewrite ?pc_of_other_fields;
      [| | |intros Hx; rewrite (IX _ Hx); set_solver];
      destruct (decide (t = t')) as [<-|Hne]; rewrite ?Ht, ?Ha; auto.
    + rewrite elem_of_difference, elem_of_singleton. intuition done.
    + rewrite elem_of_difference, elem_of_singleton, <-IS. intuition congruence.
    + rewrite (IE t), Hk. split; congruence.
  - pose proof (proj2 (IE t) Hk) as Hex.
    split; intros t'; rewrite ?pc_of_at_pc; cbn; rewrite ?pc_of_other_fields; [| | |done];
      destruct (decide (t = t')) as [<-|Hne]; rewrite ?Ht, ?Ha; auto.
    + rewrite (IX _ Hex). split; [intros []%not_elem_of_empty|done].
    + done.
    + rewrite <-IE, Hex. split; congruence.
Qed.

Lemma thread_step_inv t a s s' : LocksInv s → thread_step t a s = Some s' → LocksInv s'.
Proof.
  intros Hi H. unfold thread_step in H.
  destruct a as [k0| |], (pc_of s t) as [|k|k|k|k|k|k|k|k] eqn:Hpc; try discriminate H;
    try (injection H as <-; by apply inv_frame; rewrite ?Hpc).
  - apply fmap_Some in H as (s1 & Hl & ->). by eapply inv_lock_turnstile; rewrite ?Hpc.
  - apply fmap_Some in H as (s1 & Hl & ->). by eapply inv_lock_access; rewrite ?Hpc.
  - injection H as <-. apply inv_unlock_turnstile; rewrite ?Hpc; try done.
    by apply (li_turnstile _ Hi); rewrite Hpc.
  - injection H as <-. by apply inv_unlock_access; rewrite ?Hpc.
Qed.

Lemma lsteps_inv s s' : rtc lstep s s' → LocksInv s → LocksInv s'.
Proof. induction 1 as [|x y z [] _ IH]; [done|]. eauto using thread_step_inv. Qed.

(** ** The properties *)

(** Mutual exclusion. In every interleaving, while a thread holds a
    [MutateGuard] no other thread holds a guard of either kind. *)
Theorem mutate_guard_exclusive s t1 t2 k :
  rtc lstep locks_new s →
  pc_of s t1 = Pc_Guard Exclusive → pc_of s t2 = Pc_Guard k → t1 = t2.
Proof.
  intros Hs H1 H2. pose proof (lsteps_inv _ _ Hs locks_new_inv) as [IT IS IE IX].
  assert (access_exclusive s = Some t1) as He by (apply IE; by rewrite H1).
  destruct k.
  - assert (t2 ∈ access_shared s) as Hin by (apply IS; by rewrite H2).
    rewrite (IX _ He) in Hin. by apply not_elem_of_empty in Hin.
  - assert (access_exclusive s = Some t2) by (apply IE; by rewrite H2). congruence.
Qed.

(** The turnstile orders writers before later readers. While a thread
    waits for the exclusive access lock, no step of any other thread acquires
    the access lock: the writer waits only for guards already held. *)
Theorem waiting_writer_not_overtaken s t t' a s' :
  rtc lstep locks_new s → pc_of s t = Pc_WaitAccess Exclusive →
  thread_step t' a s = Some s' → t' ≠ t →
  access_shared s' ⊆ access_shared s ∧ pc_of s' t = Pc_WaitAccess Exclusive ∧
  (∀ u, access_exclusive s' = Some u → access_exclusive s = Some u).
Proof.
  intros Hs Hw Hst Hne. pose proof (lsteps_inv _ _ Hs locks_new_inv) as [IT _ _ _].
  assert (turnstile s = Some t) as Ht by (apply IT; by rewrite Hw).
  unfold thread_step in Hst. destruct (pc_of s t') as [|k|k|k|k|k|k|k|k] eqn:Hpc;
    destruct a; try discriminate Hst.
  3: { exfalso. assert (turnstile s = Some t') by (apply IT; by rewrite Hpc). congruence. }
  all: try (apply fmap_Some in Hst as (s1 & Hl & ->));
    try (unfold lock_turnstile in Hl; by rewrite Ht in Hl);
    try (injection Hst as <-); rewrite pc_of_at_pc, decide_False by done; cbn;
    try (by split_and!).
  - exfalso. assert (turnstile s = Some t') by (apply IT; by rewrite Hpc). congruence.
  - destruct k; cbn; split_and!; try done. set_solver.
Qed.

(** No deadlock. In every reachable state in which some thread is inside
    an acquisition or a release, either some thread can run, or a thread
    holds a guard its caller has not dropped yet. *)
Theorem locks_progress s t :
  rtc lstep locks_new s → pc_of s t ≠ Pc_Idle →
  (∃ t' s', thread_step t' Act_Run s = Some s') ∨ (∃ t' k, pc_of s t' = Pc_Guard k).
Proof.
  intros Hs Hne. pose proof (lsteps_inv _ _ Hs locks_new_inv) as [IT IS IE IX].
  assert (∀ u k, holds_access (pc_of s u) = Some k →
    (∃ t' s', thread_step t' Act_Run s = Some s') ∨ (∃ t' k, pc_of s t' = Pc_Guard k)) as Hacc.
  { intros u k Hu. destruct (pc_of s u) eqn:Hpc; try done; try (right; by eauto);
      left; exists u; unfold thread_step; rewrite Hpc; eauto. }
  assert (∀ u k, pc_of s u = Pc_WaitAccess k →
    (∃ t' s', thread_step t' Act_Run s = Some s') ∨ (∃ t' k, pc_of s t' = Pc_Guard k)) as Hwait.
  { intros u k Hu. destruct (lock_access u k s) as [s1|] eqn:Hl.
    - left. exists u. unfold thread_step. rewrite Hu, Hl. eauto.
    - unfold lock_access in Hl. destruct (access_exclusive s) as [x|] eqn:Hx.
      + apply (Hacc x Exclusive). by apply IE.
      + destruct k; [done|]. case_bool_decide as He; [done|].
        apply set_choose_L in He as [x Hin]. apply (Hacc x Shared). by apply IS. }
  destruct (pc_of s t) as [|k|k|k|k|k|k|k|k] eqn:Hpc; try done; try (right; by eauto);
    try (by eapply Hwait); try (left; exists t; unfold thread_step; rewrite Hpc; by eauto).
  destruct (turnstile s) as [u|] eqn:Hu.
  - assert (holds_turnstile (pc_of s u) = true) as Hh by (by apply IT). destruct (pc_of s u) as [|k'|k'|k'|k'|k'|k'|k'|k'] eqn:Hpu; try done;
      [|by eapply Hwait|..]; left; exists u; unfold thread_step; rewrite Hpu; eauto.
  - left. exists t. unfold thread_step, lock_turnstile. rewrite Hpc, Hu. cbn. eauto.
Qed.

(** *** The properties at work *)

Fixpoint run_locks (l : list (nat * Action)) (s : MeshSignerLocks) : option MeshSignerLocks :=
  match l with
  | [] => Some s
  | (t, a) :: l => s' ← thread_step t a s; run_locks l s'
  end.

Lemma run_locks_rtc l s s' : run_locks l s = Some s' → rtc lstep s s'.
Proof.
  revert s; induction l as [|[t a] l IH]; intros s; cbn; [by intros [= ->]|].
  intros (s1 & Hst & Hr)%bind_Some. eapply rtc_l; [by econstructor|]. auto.
Qed.

Definition full_acquire (t : nat) (k : GuardKind) : list (nat * Action) :=
  (t, Act_Call k) :: replicate 6 (t, Act_Run).

(** Thread 1 holds a guard while thread 2 waits for the access lock. *)
Definition sample_waiting : MeshSignerLocks :=
  default locks_new (run_locks (full_acquire 1 Shared ++
    [(2, Act_Call Exclusive); (2, Act_Run); (2, Act_Run)]%nat) locks_new).

Lemma mutate_guard_exclusive_witness :
  let s := default locks_new (run_locks (full_acquire 1 Exclusive) locks_new) in
  pc_of s 1 = Pc_Guard Exclusive ∧ pc_of s 2 ≠ Pc_Guard Shared.
Proof.
  split; [reflexivity|]. intros Hguard.
  assert (1 = 2)%nat as Heq; [|discriminate Heq].
  apply (mutate_guard_exclusive (default locks_new
    (run_locks (full_acquire 1 Exclusive) locks_new)) 1 2 Shared).
  - by apply (run_locks_rtc (full_acquire 1 Exclusive)); vm_compute.
  - reflexivity.
  - exact Hguard.
Defined.

Lemma waiting_writer_not_overtaken_witness :
  access_shared (at_pc 3 (Pc_Start Shared) sample_waiting) ⊆ access_shared sample_waiting.
Proof.
  apply (waiting_writer_not_overtaken sample_waiting 2 3 (Act_Call Shared)).
  - by apply (run_locks_rtc (full_acquire 1 Shared ++
      [(2, Act_Call Exclusive); (2, Act_Run); (2, Act_Run)]%nat)); vm_compute.
  - by vm_compute.
  - by vm_compute.
  - lia.
Defined.

Lemma locks_progress_witness :
  (∃ t' s', thread_step t' Act_Run sample_waiting = Some s') ∨
  (∃ t' k, pc_of sample_waiting t' = Pc_Guard k).
Proof.
  apply (locks_progress sample_waiting 2).
  - by apply (run_locks_rtc (full_acquire 1 Shared ++
      [(2, Act_Call Exclusive); (2, Act_Run); (2, Act_Run)]%nat)); vm_compute.
  - by vm_compute.
Defined.
