(* ===== verification/Codec.v ===== *)
(** * Canonical CBOR bytes of the control record

    Models the codec of [mesh-session-control-model-rs/src/store.rs]:
    [canonicalize_value], [to_canonical_bytes] and [from_canonical_bytes].
    The [ciborium] crate they call is a parameter. *)

From stdpp Require Import base gmap sets list strings.
From Stdlib Require Import ZArith Lia Ascii.
From S2P Require Import Prelude.
From S2P Require Import ControlRecord.
From S2P Require Import Samples.

Open Scope Z_scope.

(** [ciborium::Value]: the variants the code matches on; every other variant
    is a leaf. *)
#[warnings="-register-all"]
Inductive Value (Leaf : Type) :=
| V_Array (items : list (Value Leaf))
| V_Map (entries : list (Value Leaf * Value Leaf))
| V_Tag (t : Z) (inner : Value Leaf)
| V_Leaf (l : Leaf).
Arguments V_Array {Leaf} _.
Arguments V_Map {Leaf} _.
Arguments V_Tag {Leaf} _ _.
Arguments V_Leaf {Leaf} _.

(** The crate's functions the store calls. *)
Class Ciborium := {
  Leaf : Type;
  canonical_cmp : Value Leaf → Value Leaf → comparison;  (* [CanonicalValue]'s [Ord] *)
  ser_record : MeshSignerControlRecordV1 → option bytes;  (* [into_writer] of a record *)
  parse_value : bytes → option (Value Leaf);              (* [from_reader] to a [Value] *)
  write_value : Value Leaf → option bytes;                (* [into_writer] of a [Value] *)
  de_value : Value Leaf → option MeshSignerControlRecordV1; (* [Value::deserialized] *)
}.

(** [from_reader] to a record: reading the value, then decoding it. *)
Definition de_record `{!Ciborium} (b : bytes) : option MeshSignerControlRecordV1 :=
  parse_value b ≫= de_value.

Section value_induction.
Context {L : Type} (P : Value L → Prop).
Hypothesis (HA : ∀ items, Forall P items → P (V_Array items)).
Hypothesis (HM : ∀ entries, Forall (λ e, P e.1 ∧ P e.2) entries → P (V_Map entries)).
Hypothesis (HT : ∀ t v, P v → P (V_Tag t v)).
Hypothesis (HL : ∀ l, P (V_Leaf l)).

Fixpoint Value_nested_ind (v : Value L) : P v :=
  match v with
  | V_Array items => HA items
      ((fix go l : Forall P l := match l with
        | [] => Forall_nil_2 _
        | x :: l => Forall_cons_2 _ _ _ (Value_nested_ind x) (go l) end) items)
  | V_Map entries => HM entries
      ((fix go l : Forall (λ e, P e.1 ∧ P e.2) l := match l with
        | [] => Forall_nil_2 _
        | (k, x) :: l => Forall_cons_2 (λ e, P e.1 ∧ P e.2) (k, x) l
            (conj (Value_nested_ind k) (Value_nested_ind x)) (go l) end) entries)
  | V_Tag t x => HT t x (Value_nested_ind x)
  | V_Leaf l => HL l
  end.
End value_induction.

(** ** The codec *)

Section codec.
Context `{!Ciborium, !Hashes}.

Definition key_cmp (a b : Value Leaf * Value Leaf) : comparison := canonical_cmp a.1 b.1.

Fixpoint canonicalize_value (v : Value Leaf) : option (Value Leaf) :=
  match v with
  | V_Array items => items ← mapM canonicalize_value items; Some (V_Array items)
  | V_Map entries =>
      entries ← mapM (λ e, match e with
                           | (k, val) =>
                               k ← canonicalize_value k; val ← canonicalize_value val;
                               Some (k, val)
                           end) entries;
      let entries := sort_by key_cmp entries in
      if has_adjacent_equal key_cmp entries then None else Some (V_Map entries)
  | V_Tag t inner => inner ← canonicalize_value inner; Some (V_Tag t inner)
  | V_Leaf l => Some (V_Leaf l)
  end.

Definition to_canonical_bytes (rec : MeshSignerControlRecordV1) : option bytes :=
  raw ← ser_record rec;
  value ← parse_value raw;
  canonical_value ← canonicalize_value value;
  write_value canonical_value.

Definition from_canonical_bytes (b : bytes) : option MeshSignerControlRecordV1 :=
  value ← parse_value b;
  canonical_value ← canonicalize_value value;
  recomputed ← write_value canonical_value;
  if bool_decide (recomputed ≠ b) then None
  else rec ← de_record b;
       if negb (invariants_hold rec) then None else Some rec.
End codec.

(** What the code relies on of [ciborium] and serde: [CanonicalValue]'s order
    is antisymmetric, a written value reads back, a serialized record decodes
    to itself, and decoding does not depend on the order of a map whose keys
    are distinct. [write_parse] is stated for every value; the crate keeps it for
    values nested less deep than its recursion limit and without bignum tags,
    which is what records serialize to. *)
Class CiboriumLaws `{!Ciborium} : Prop := {
  canonical_cmp_antisym : ∀ x y, canonical_cmp y x = CompOpp (canonical_cmp x y);
  write_parse : ∀ v b, write_value v = Some b → parse_value b = Some v;
  serde_roundtrip : ∀ r raw v,
    ser_record r = Some raw → parse_value raw = Some v → de_value v = Some r;
  decode_order_irrelevant : ∀ v c, canonicalize_value v = Some c → de_value c = de_value v;
}.

Section codec_lemmas.
Context `{!Ciborium, !CiboriumLaws, !Hashes}.

Lemma mapM_fixed {A} (f : A → option A) (l l' : list A) :
  Forall (λ x, ∀ y, f x = Some y → f y = Some y) l →
  mapM f l = Some l' → Forall (λ y, f y = Some y) l'.
Proof.
  rewrite mapM_Some. intros Hf Hl. revert Hf.
  induction Hl as [|x y l l' Hxy _ IH]; intros Hf; [by constructor|].
  apply Forall_cons in Hf as [Hx Hf]. constructor; auto.
Qed.

Lemma mapM_id {A} (f : A → option A) (l : list A) :
  Forall (λ y, f y = Some y) l → mapM f l = Some l.
Proof. intros Hf. apply mapM_Some. induction Hf; by constructor. Qed.

(** Canonicalising is idempotent. *)
Lemma canonicalize_fixed v : ∀ c, canonicalize_value v = Some c → canonicalize_value c = Some c.
Proof.
  induction v as [items IH|entries IH|t v IH|l] using Value_nested_ind; intros c Hc; cbn in Hc.
  - apply bind_Some in Hc as (items' & Hi & [= <-]). cbn.
    by rewrite (mapM_id _ items' (mapM_fixed _ _ _ IH Hi)).
  - apply bind_Some in Hc as (es & Hes & Hc).
    destruct (has_adjacent_equal key_cmp _) eqn:Hadj; [done|]. injection Hc as <-. cbn.
    rewrite mapM_id.
    + cbn. rewrite sort_by_sorted_id; [by rewrite Hadj|].
      apply sort_by_sorted. intros x y. apply canonical_cmp_antisym.
    + rewrite sort_by_perm. eapply mapM_fixed; [|exact Hes].
      eapply Forall_impl; [exact IH|]. intros [k x] [Hk Hx] [k' x']; cbn in *.
      intros (a & Ha & (b & Hb & [= <- <-])%bind_Some)%bind_Some.
      by rewrite (Hk _ Ha); cbn; rewrite (Hx _ Hb).
  - apply bind_Some in Hc as (v' & Hv & [= <-]). cbn. by rewrite (IH _ Hv).
  - by injection Hc as <-.
Qed.

(** What is written can be read back, provided it is consistent. *)
Lemma from_to_canonical r b :
  to_canonical_bytes r = Some b → invariants_hold r = true → from_canonical_bytes b = Some r.
Proof.
  unfold to_canonical_bytes, from_canonical_bytes, de_record.
  intros (raw & Hraw & (v & Hv & (c & Hc & Hw)%bind_Some)%bind_Some)%bind_Some Hinv.
  pose proof (write_parse _ _ Hw) as Hp. rewrite Hp. cbn.
  rewrite (canonicalize_fixed _ _ Hc). cbn. rewrite Hw. cbn.
  rewrite bool_decide_false by auto.
  rewrite (decode_order_irrelevant _ _ Hc), (serde_roundtrip _ _ _ Hraw Hv). cbn.
  by rewrite Hinv.
Qed.

Lemma from_canonical_inv b r :
  from_canonical_bytes b = Some r →
  invariants_hold r = true ∧
  ∃ v, parse_value b = Some v ∧ write_value v = Some b ∧ canonicalize_value v = Some v.
Proof.
  unfold from_canonical_bytes.
  intros (v & Hv & (c & Hc & (b' & Hb & Hr)%bind_Some)%bind_Some)%bind_Some.
  case_bool_decide as Heq; [done|]. subst b'.
  apply bind_Some in Hr as (r' & _ & Hr).
  destruct (invariants_hold r') eqn:Hi; [|done]. injection Hr as <-. split; [done|].
  pose proof (write_parse _ _ Hb) as Hp. exists c.
  split_and!; [done|done|]. by eapply canonicalize_fixed.
Qed.
End codec_lemmas.

(** ** Properties *)

(** Round trip. A consistent record that encodes is read back exactly
    from its canonical bytes, and what is accepted on load is consistent,
    canonical (re-encoding its value yields the same bytes) and unambiguous
    (no other bytes decode to the same CBOR value). *)
Theorem canonical_codec_roundtrip `{!Ciborium, !CiboriumLaws, !Hashes} :
  (∀ r b, to_canonical_bytes r = Some b → invariants_hold r = true →
     from_canonical_bytes b = Some r) ∧
  (∀ b r, from_canonical_bytes b = Some r → invariants_hold r = true ∧
     ∃ v, parse_value b = Some v ∧ canonicalize_value v = Some v ∧
       ∀ b' r', from_canonical_bytes b' = Some r' → parse_value b' = Some v → b' = b).
Proof.
  split; [apply from_to_canonical|].
  intros b r (Hi & v & Hp & Hw & Hc)%from_canonical_inv. split; [done|].
  exists v. split_and!; [done..|]. intros b' r' (_ & v' & Hp' & Hw' & _)%from_canonical_inv Heq.
  simplify_eq. done.
Qed.

(** *** A sample codec: a table of records, indexed by one byte *)

Section sample_codec.
#[local] Existing Instance sample_hashes.

Definition sample_table : list MeshSignerControlRecordV1 :=
  [sample_fresh; sample_intent; sample_observed; sample_active; sample_revoked;
   sample_reactivating; sample_preempted; sample_superseded; sample_resolved; sample_removed].

Definition sample_ciborium : Ciborium :=
  {| Leaf := bytes;
     canonical_cmp := λ _ _, Eq;
     ser_record := λ r, (λ i, [ascii_of_nat i]) <$>
       position (λ r', bool_decide (r' = r)) sample_table;
     parse_value := λ b, Some (V_Leaf b);
     write_value := λ v, match v with V_Leaf b => Some b | _ => None end;
     de_value := λ v, match v with
       | V_Leaf [c] => sample_table !! nat_of_ascii c
       | _ => None
       end |}.

#[local] Existing Instance sample_ciborium.

Lemma sample_ciborium_laws : CiboriumLaws.
Proof.
  split.
  - done.
  - intros [] b; cbn; congruence.
  - intros r raw v Hs Hp. cbn in Hp. injection Hp as <-. unfold ser_record in Hs. cbn [sample_ciborium] in Hs.
    apply fmap_Some in Hs as (i & Hi & ->).
    apply position_Some in Hi as (x & l1 & l2 & Htab & Hlen & Hx & _).
    apply bool_decide_eq_true in Hx. subst x. cbn [de_value sample_ciborium].
    assert (i < 10)%nat.
    { assert (length sample_table = 10%nat) as Hl by done. rewrite Htab, length_app in Hl.
      cbn in Hl. lia. }
    rewrite nat_ascii_embedding by lia. rewrite Htab. by apply list_lookup_middle.
  - intros v c Hc. destruct v; cbn in Hc.
    + by apply bind_Some in Hc as (? & _ & [= <-]).
    + apply bind_Some in Hc as (? & _ & Hc). destruct (has_adjacent_equal _ _); [done|].
      by injection Hc as <-.
    + by apply bind_Some in Hc as (? & _ & [= <-]).
    + by injection Hc as <-.
Qed.

Lemma canonical_codec_roundtrip_witness :
  ∃ b, to_canonical_bytes sample_active = Some b ∧ from_canonical_bytes b = Some sample_active.
Proof.
  exists ["003"%char]. split; [by vm_compute|].
  pose proof sample_ciborium_laws as Hlaws.
  apply (proj1 canonical_codec_roundtrip).
  - by vm_compute.
  - by vm_compute.
Defined.
End sample_codec.
