(* ===== verification/StoreSpec.v ===== *)
(** * The store interface

    The trait [AtomicControlRecordStore] of
    [mesh-session-control-model-rs/src/store.rs] as a typeclass, and the
    contract its clients ([commit.rs], [cell.rs]) rely on: what is visible to
    a reader, and what a crash may leave behind. *)

From stdpp Require Import base gmap sets list strings.
From Stdlib Require Import ZArith Lia Ascii.
From S2P Require Import Prelude.
From S2P Require Import ControlRecord.

Open Scope Z_scope.

Inductive ReplaceOutcome :=
| Committed
| KnownNoEffect
| MayHaveTakenEffect.

Inductive LoadOutcome :=
| Load_Missing
| Load_Exact (r : MeshSignerControlRecordV1)
| Load_Corrupt.

#[export] Instance ReplaceOutcome_eq_dec : EqDecision ReplaceOutcome.
Proof. solve_decision. Defined.
#[export] Instance LoadOutcome_eq_dec : EqDecision LoadOutcome.
Proof. solve_decision. Defined.

(** [S] is a store with the disk it lives on; [Io] says which of the system
    calls of one operation fail. [None] is a failed assertion (a guard of
    another lock set). *)
Class AtomicControlRecordStore (S Io : Type) := {
  store_load : Io → S → LoadOutcome;
  store_replace : Z → Io → Z → MeshSignerControlRecordV1 → S → option (ReplaceOutcome * S);
  store_sweep : Z → Io → S → option S;
}.

(** The writes [replace_exact] may perform on what is visible. *)
Definition write_allowed (identity : ControlIdentity) (purpose : PurposeId)
    (cur : LoadOutcome) (expected : Z) (new : MeshSignerControlRecordV1) : Prop :=
  match cur with
  | Load_Missing => expected = INITIAL_REVISION ∧ new = bootstrap identity purpose
  | Load_Exact cur =>
      rec_revision cur = expected ∧
      (new = cur ∨
       (rec_revision new ≠ rec_revision cur ∧
        Some (rec_revision new) = checked_add (rec_revision cur) 1))
  | Load_Corrupt => False
  end.

Class StoreContract `{!Hashes} (S Io : Type) `{!AtomicControlRecordStore S Io} := {
  store_wf : S → Prop;
  store_token : S → Z;
  store_identity : S → ControlIdentity;
  store_purpose : S → PurposeId;
  (* what a reader sees, and what may be there after a crash *)
  store_view : S → LoadOutcome;
  store_survives : S → LoadOutcome → Prop;
  (* records that have an encoding *)
  store_codable : MeshSignerControlRecordV1 → Prop;
  (* no system call of an operation on this store fails *)
  io_clean : S → Io → Prop;

  law_load : ∀ io s, store_load io s = store_view s ∨ store_load io s = Load_Corrupt;
  law_load_clean : ∀ io s, io_clean s io → store_load io s = store_view s;
  law_view_survives : ∀ s, store_wf s → store_survives s (store_view s);
  law_view_bound : ∀ s r, store_view s = Load_Exact r →
    rec_identity r = store_identity s ∧ rec_purpose r = store_purpose s;
  (* the operations keep the store's own binding *)
  law_replace_fixed : ∀ io e new s o s', store_replace (store_token s) io e new s = Some (o, s') →
    store_wf s → store_wf s' ∧ store_token s' = store_token s ∧
    store_identity s' = store_identity s ∧ store_purpose s' = store_purpose s;
  law_replace_total : ∀ io e new s, is_Some (store_replace (store_token s) io e new s);
  law_committed : ∀ io e new s s', store_wf s → invariants_hold new = true →
    store_replace (store_token s) io e new s = Some (Committed, s') →
    write_allowed (store_identity s) (store_purpose s) (store_view s) e new ∧
    store_view s' = Load_Exact new ∧ (∀ v, store_survives s' v → v = Load_Exact new);
  law_no_effect : ∀ io e new s s', store_wf s →
    store_replace (store_token s) io e new s = Some (KnownNoEffect, s') →
    store_view s' = store_view s ∧ (∀ v, store_survives s' v → store_survives s v);
  law_uncertain : ∀ io e new s s', store_wf s → invariants_hold new = true →
    store_replace (store_token s) io e new s = Some (MayHaveTakenEffect, s') →
    write_allowed (store_identity s) (store_purpose s) (store_view s) e new ∧
    (store_view s' = store_view s ∨ store_view s' = Load_Exact new) ∧
    (∀ v, store_survives s' v → store_survives s v ∨ v = Load_Exact new);
  law_progress : ∀ io e new s, store_wf s → store_codable new → io_clean s io →
    write_allowed (store_identity s) (store_purpose s) (store_view s) e new →
    rec_identity new = store_identity s → rec_purpose new = store_purpose s →
    ∃ s', store_replace (store_token s) io e new s = Some (Committed, s');
}.
