(* ===== verification/Store.v ===== *)
(** * The file-backed store

    Models [mesh-session-control-model-rs/src/store.rs]: the directory
    policy and alias checks, the process lock file, the temporary-file /
    fsync / rename / directory-fsync sequence of [replace_exact], the orphan
    sweep, and the fault-injecting wrapper. The disk keeps, beside the
    directory a reader sees, every directory state a crash could still
    surface. *)

From stdpp Require Import base gmap sets list strings.
From Stdlib Require Import ZArith Lia Ascii.
From S2P Require Import Prelude.
From S2P Require Import ControlRecord.
From S2P Require Import Samples.
From S2P Require Import Codec.
From S2P Require Import StoreSpec.

Open Scope Z_scope.

(** ** The disk *)

Inductive IoError := Io_NotFound | Io_Other.

(** [fs::Metadata] *)
Record Meta := MkMeta {
  m_is_dir : bool;
  m_is_file : bool;
  m_nlink : Z;
  m_uid : Z;
  m_mode : Z;
}.

(** A directory entry's file; [n_synced] after a [sync_all] of its data. *)
Record Node := MkNode {
  n_meta : Meta;
  n_data : bytes;
  n_synced : bool;
}.

Abbreviation Dir := (gmap (list Ascii.ascii) Node).

(** The directory that holds the record. [d_pending] lists every state the
    directory had since its last successful fsync: a crash may surface any of
    them. [d_points] records [d_pending] after every system call: the crash
    points passed. *)
Record Disk := MkDisk {
  d_parent : option Meta;
  d_euid : Z;
  d_dir : Dir;
  d_pending : list Dir;
  d_points : list (list Dir);
}.

Definition set_dir (dir : Dir) (d : Disk) : Disk :=
  MkDisk (d_parent d) (d_euid d) dir (dir :: d_pending d) ((dir :: d_pending d) :: d_points d).

(** A successful fsync of the directory. *)
Definition sync_dir (d : Disk) : Disk :=
  MkDisk (d_parent d) (d_euid d) (d_dir d) [d_dir d] ([d_dir d] :: d_points d).

(** A file this process creates with mode 0600. *)
Definition new_file_meta (d : Disk) : Meta := MkMeta false true 1 (d_euid d) 384.

(** ** Which system calls of an operation fail *)

Record LoadIo := MkLoadIo {
  load_dir_stat : bool;
  load_open : bool;
  load_fstat : bool;
  load_read : bool;
}.

Record LockIo := MkLockIo {
  lock_dir_stat : bool;
  lock_open : bool;
  lock_fstat : bool;
  lock_flock : bool;
}.

Inductive RenameIo := Rename_Ok | Rename_ErrApplied | Rename_ErrNotApplied.

Record StoreIo := MkStoreIo {
  io_lock : LockIo;
  io_load : LoadIo;
  io_nonce : Z;
  io_create : bool;
  io_write : option bytes;  (* [Some] of what reached the file when [write_all] fails *)
  io_sync : bool;
  io_remove : bool;
  io_rename : RenameIo;
  io_fsync_dir : bool;
  io_read_dir : bool;
  io_remove_entry : bytes → bool;
}.

(** ** Paths *)

Record FileBackedStore := MkFileBackedStore {
  fs_has_parent : bool;        (* [path.parent().is_some()] *)
  fs_name : bytes;             (* [path.file_name()] *)
  fs_token : Z;
  fs_identity : ControlIdentity;
  fs_purpose : PurposeId;
}.

Definition digit (z : Z) : byte :=
  ascii_of_N (Z.to_N (if z <? 10 then z + 48 else z - 10 + 97)).

(** [{:0w}] and [{:0wx}] of a value of at most [w] digits. *)
Fixpoint fixed_digits (base : Z) (w : nat) (n : Z) : bytes :=
  match w with
  | O => []
  | S w => fixed_digits base w (n / base) ++ [digit (n mod base)]
  end.

Definition attempt_tmp_name (name : bytes) (expected_revision nonce : Z) : bytes :=
  name ++ as_bytes ".tmp." ++ fixed_digits 10 20 expected_revision ++ as_bytes "." ++
  fixed_digits 16 16 nonce.

Definition lock_name (name : bytes) : bytes := name ++ as_bytes ".lock".

(** [str::split_once] on a character *)
Fixpoint split_once (c : byte) (l : bytes) : option (bytes * bytes) :=
  match l with
  | [] => None
  | a :: l =>
      if bool_decide (a = c) then Some ([], l)
      else '(x, y) ← split_once c l; Some (a :: x, y)
  end.

Definition digit_value (c : byte) : option Z :=
  let z := Z.of_N (N_of_ascii c) in
  if (48 <=? z) && (z <=? 57) then Some (z - 48) else None.

Fixpoint parse_digits (acc : Z) (l : bytes) : option Z :=
  match l with
  | [] => Some acc
  | c :: l =>
      d ← digit_value c;
      let z := acc * 10 + d in
      if z <? u64_modulus then parse_digits z l else None
  end.

(** [str::parse::<u64>] *)
Definition parse_u64 (l : bytes) : option Z :=
  match l with
  | [] => None
  | c :: l' =>
      if bool_decide (c = "+"%char) then match l' with [] => None | _ => parse_digits 0 l' end
      else parse_digits 0 l
  end.

Definition parse_tmp_revision (file_name prefix : bytes) : option Z :=
  rest ← strip_prefix prefix file_name;
  '(rev_str, _) ← split_once "."%char rest;
  parse_u64 rev_str.

(** ** Trust checks *)

Definition group_or_world_writable (m : Meta) : bool := negb (Z.land (m_mode m) 18 =? 0).

Definition validate_directory_policy (dir : option Meta) (stat_fails : bool) : Result IoError Z :=
  meta ← (if stat_fails then Err Io_Other else ok_or dir Io_NotFound);
  reject_if (negb (m_is_dir meta)) Io_Other;;
  reject_if (group_or_world_writable meta) Io_Other;;
  Ok (m_uid meta).

(** The checks on an opened handle's own metadata. *)
Definition check_handle (expected_uid : Z) (m : Meta) : Result IoError unit :=
  reject_if (negb (m_nlink m =? 1)) Io_Other;;
  reject_if (negb (m_uid m =? expected_uid)) Io_Other;;
  reject_if (group_or_world_writable m) Io_Other.

(** [symlink_metadata(path)] is [Ok] and names something else than a file. *)
Definition not_regular (node : option Node) : bool :=
  match node with Some n => negb (m_is_file (n_meta n)) | None => false end.

Definition open_non_aliased (fs : FileBackedStore) (d : Disk) (io : LoadIo)
    : Result IoError Node :=
  reject_if (negb (fs_has_parent fs)) Io_Other;;
  expected_uid ← validate_directory_policy (d_parent d) (load_dir_stat io);
  reject_if (not_regular (d_dir d !! fs_name fs)) Io_Other;;
  f ← (if load_open io then Err Io_Other else ok_or (d_dir d !! fs_name fs) Io_NotFound);
  reject_if (load_fstat io) Io_Other;;
  check_handle expected_uid (n_meta f);;
  Ok f.

(** Creates the lock file when absent; the new disk comes with the result. *)
Definition open_lock_path (fs : FileBackedStore) (d : Disk) (io : LockIo)
    : Result IoError unit * Disk :=
  let name := lock_name (fs_name fs) in
  match
    reject_if (negb (fs_has_parent fs)) Io_Other;;
    expected_uid ← validate_directory_policy (d_parent d) (lock_dir_stat io);
    reject_if (not_regular (d_dir d !! name)) Io_Other;;
    reject_if (lock_open io) Io_Other;;
    Ok expected_uid
  with
  | Err e => (Err e, d)
  | Ok expected_uid =>
      let '(f, d) := match d_dir d !! name with
                     | Some f => (f, d)
                     | None => let f := MkNode (new_file_meta d) [] false in
                               (f, set_dir (<[name:=f]> (d_dir d)) d)
                     end in
      (reject_if (lock_fstat io) Io_Other;; check_handle expected_uid (n_meta f), d)
  end.

Definition acquire_process_lock (fs : FileBackedStore) (d : Disk) (io : LockIo)
    : option unit * Disk :=
  let '(f, d) := open_lock_path fs d io in
  (match f with
   | Ok _ => if lock_flock io then None else Some tt
   | Err _ => None
   end, d).

(** ** Loading and replacing *)

Section store.
Context `{!Ciborium, !Hashes}.
Implicit Types (fs : FileBackedStore) (d : Disk).

Definition load_canonical fs d (io : LoadIo) : LoadOutcome :=
  match open_non_aliased fs d io with
  | Err Io_NotFound => Load_Missing
  | Err Io_Other => Load_Corrupt
  | Ok file =>
      if load_read io then Load_Corrupt
      else match from_canonical_bytes (n_data file) with
           | Some rec =>
               if bool_decide (rec_identity rec = fs_identity fs)
                  && bool_decide (rec_purpose rec = fs_purpose fs)
               then Load_Exact rec else Load_Corrupt
           | None => Load_Corrupt
           end
  end.

(** The compare step: [None] is [KnownNoEffect], else what is on disk. *)
Definition compare_step fs (cur : LoadOutcome) (expected_revision : Z)
    (new_record : MeshSignerControlRecordV1) : option (option MeshSignerControlRecordV1) :=
  match cur with
  | Load_Missing =>
      if negb (expected_revision =? INITIAL_REVISION) then None
      else if bool_decide (new_record ≠ bootstrap (fs_identity fs) (fs_purpose fs)) then None
      else Some None
  | Load_Exact cur =>
      if negb (rec_revision cur =? expected_revision) then None else Some (Some cur)
  | Load_Corrupt => None
  end.

Definition is_valid_write (cur : option MeshSignerControlRecordV1)
    (new_record : MeshSignerControlRecordV1) : bool :=
  match cur with
  | None => true
  | Some cur =>
      if rec_revision new_record =? rec_revision cur then bool_decide (new_record = cur)
      else bool_decide (Some (rec_revision new_record) = checked_add (rec_revision cur) 1)
  end.

Definition remove_file (name : bytes) (fails : bool) d : Disk :=
  if fails then d else set_dir (delete name (d_dir d)) d.

(** [create_new] open, [write_all], [sync_all], [rename], [fsync_parent]. *)
Definition write_step fs (io : StoreIo) (expected_revision : Z) (data : bytes) d
    : ReplaceOutcome * Disk :=
  let tmp := attempt_tmp_name (fs_name fs) expected_revision (io_nonce io) in
  if io_create io || is_some (d_dir d !! tmp) then (KnownNoEffect, d)
  else
  let meta := new_file_meta d in
  let d := set_dir (<[tmp:=MkNode meta [] false]> (d_dir d)) d in
  match io_write io with
  | Some partial =>
      let d := set_dir (<[tmp:=MkNode meta partial false]> (d_dir d)) d in
      (KnownNoEffect, remove_file tmp (io_remove io) d)
  | None =>
  let d := set_dir (<[tmp:=MkNode meta data false]> (d_dir d)) d in
  if io_sync io then (KnownNoEffect, remove_file tmp (io_remove io) d)
  else
  let file := MkNode meta data true in
  let d := set_dir (<[tmp:=file]> (d_dir d)) d in
  let renamed := set_dir (<[fs_name fs:=file]> (delete tmp (d_dir d))) d in
  match io_rename io with
  | Rename_ErrNotApplied => (MayHaveTakenEffect, d)
  | Rename_ErrApplied => (MayHaveTakenEffect, renamed)
  | Rename_Ok =>
      (* [fsync_parent] *)
      if negb (fs_has_parent fs) || io_fsync_dir io then (MayHaveTakenEffect, renamed)
      else (Committed, sync_dir renamed)
  end
  end.

Definition replace_exact fs (guard_token : Z) (io : StoreIo) (expected_revision : Z)
    (new_record : MeshSignerControlRecordV1) d : option (ReplaceOutcome * Disk) :=
  if negb (guard_token =? fs_token fs) then None
  else Some
  (if bool_decide (rec_identity new_record ≠ fs_identity fs)
      || bool_decide (rec_purpose new_record ≠ fs_purpose fs) then (KnownNoEffect, d)
   else
   let '(lock, d) := acquire_process_lock fs d (io_lock io) in
   match lock with
   | None => (KnownNoEffect, d)
   | Some _ =>
   match compare_step fs (load_canonical fs d (io_load io)) expected_revision new_record with
   | None => (KnownNoEffect, d)
   | Some cur =>
   if negb (is_valid_write cur new_record) then (KnownNoEffect, d)
   else match to_canonical_bytes new_record with
   | None => (KnownNoEffect, d)
   | Some data => write_step fs io expected_revision data d
   end
   end
   end).

(** [str::from_utf8]: shortest forms only, no surrogates, up to U+10FFFF. *)
Definition byte_in (lo hi : Z) (b : ascii) : bool :=
  let n := of_byte b in (lo <=? n) && (n <=? hi).

Definition continuation : ascii → bool := byte_in 128 191.

Definition three_byte_start (a b : ascii) : bool :=
  byte_in 224 224 a && byte_in 160 191 b || byte_in 225 236 a && continuation b
  || byte_in 237 237 a && byte_in 128 159 b || byte_in 238 239 a && continuation b.

Definition four_byte_start (a b : ascii) : bool :=
  byte_in 240 240 a && byte_in 144 191 b || byte_in 241 243 a && continuation b
  || byte_in 244 244 a && byte_in 128 143 b.

Fixpoint utf8_valid (s : bytes) : bool :=
  match s with
  | [] => true
  | a :: s =>
      if byte_in 0 127 a then utf8_valid s
      else match s with
      | [] => false
      | b :: s =>
          if byte_in 194 223 a then continuation b && utf8_valid s
          else match s with
          | [] => false
          | c :: s =>
              if three_byte_start a b then continuation c && utf8_valid s
              else match s with
              | [] => false
              | d :: s => four_byte_start a b && continuation c && continuation d && utf8_valid s
              end
          end
      end
  end.

Definition is_stale (prefix : bytes) (current_revision : option Z) (name : bytes) : bool :=
  match parse_tmp_revision name prefix, current_revision with
  | Some tmp_rev, Some cur => tmp_rev <? cur
  | _, _ => true
  end.

Definition sweep_removes (io : StoreIo) (prefix : bytes) (current_revision : option Z)
    (name : bytes) : bool :=
  is_some (strip_prefix prefix name) && is_stale prefix current_revision name
  && negb (io_remove_entry io name).

(** The entries are removed one by one. *)
Fixpoint sweep_entries (io : StoreIo) (prefix : bytes) (current_revision : option Z)
    (entries : list bytes) d : Disk :=
  match entries with
  | [] => d
  | name :: entries =>
      sweep_entries io prefix current_revision entries
        (if sweep_removes io prefix current_revision name then set_dir (delete name (d_dir d)) d else d)
  end.

Definition sweep_orphan_tmp fs (guard_token : Z) (io : StoreIo) d : option Disk :=
  if negb (guard_token =? fs_token fs) then None
  else Some
  (let '(lock, d) := acquire_process_lock fs d (io_lock io) in
   match lock with
   | None => d
   | Some _ =>
       if negb (fs_has_parent fs) then d
       else if negb (utf8_valid (fs_name fs)) then d
       else
       let prefix := fs_name fs ++ as_bytes ".tmp." in
       let current_revision := match load_canonical fs d (io_load io) with
                               | Load_Exact r => Some (rec_revision r)
                               | _ => None
                               end in
       if io_read_dir io then d
       else sweep_entries io prefix current_revision (map_to_list (d_dir d)).*1 d
   end).
End store.

(** ** The store objects *)

(** A [FileBackedStore] with the disk it lives on. *)
Record FileStore := MkFileStore {
  st_fs : FileBackedStore;
  st_disk : Disk;
}.

(** The fault-injecting wrapper: a one-shot forced outcome, a countdown of
    forced [MayHaveTakenEffect] reports and a call counter. *)
Record FaultInjectingStore := MkFaultInjectingStore {
  fi_inner : FileStore;
  fi_forced_outcome : option ReplaceOutcome;
  fi_force_may_have_taken_effect_count : Z;
  fi_call_count : Z;
}.

Definition fault_injecting_new (inner : FileStore) : FaultInjectingStore :=
  MkFaultInjectingStore inner None 0 0.

Definition force_next_outcome (o : ReplaceOutcome) (s : FaultInjectingStore) : FaultInjectingStore :=
  MkFaultInjectingStore (fi_inner s) (Some o) (fi_force_may_have_taken_effect_count s)
    (fi_call_count s).

Definition force_may_have_taken_effect_for_next_calls (n : Z) (s : FaultInjectingStore)
    : FaultInjectingStore :=
  MkFaultInjectingStore (fi_inner s) (fi_forced_outcome s) n (fi_call_count s).

Section objects.
Context `{!Ciborium, !Hashes}.

Definition file_replace (tok : Z) (io : StoreIo) (e : Z) (new : MeshSignerControlRecordV1)
    (s : FileStore) : option (ReplaceOutcome * FileStore) :=
  '(o, d) ← replace_exact (st_fs s) tok io e new (st_disk s);
  Some (o, MkFileStore (st_fs s) d).

#[export] Instance file_store : AtomicControlRecordStore FileStore StoreIo :=
  {| store_load := λ io s, load_canonical (st_fs s) (st_disk s) (io_load io);
     store_replace := file_replace;
     store_sweep := λ tok io s, MkFileStore (st_fs s) <$>
       sweep_orphan_tmp (st_fs s) tok io (st_disk s) |}.

(** [Committed] is reported as the weaker [forced]. *)
Definition weaken_outcome (forced real : ReplaceOutcome) : ReplaceOutcome :=
  if bool_decide (real = Committed) then forced else real.

Definition fault_replace (tok : Z) (io : StoreIo) (e : Z) (new : MeshSignerControlRecordV1)
    (s : FaultInjectingStore) : option (ReplaceOutcome * FaultInjectingStore) :=
  let calls := (fi_call_count s + 1) mod u64_modulus in
  let remaining := fi_force_may_have_taken_effect_count s in
  if 0 <? remaining then
    '(real, inner) ← file_replace tok io e new (fi_inner s);
    Some (weaken_outcome MayHaveTakenEffect real,
          MkFaultInjectingStore inner (fi_forced_outcome s) (remaining - 1) calls)
  else match fi_forced_outcome s with
  | Some KnownNoEffect =>
      Some (KnownNoEffect, MkFaultInjectingStore (fi_inner s) None remaining calls)
  | Some forced =>
      '(real, inner) ← file_replace tok io e new (fi_inner s);
      Some (weaken_outcome forced real, MkFaultInjectingStore inner None remaining calls)
  | None =>
      '(real, inner) ← file_replace tok io e new (fi_inner s);
      Some (real, MkFaultInjectingStore inner None remaining calls)
  end.

#[export] Instance fault_store : AtomicControlRecordStore FaultInjectingStore StoreIo :=
  {| store_load := λ io s, store_load io (fi_inner s);
     store_replace := fault_replace;
     store_sweep := λ tok io s,
       (λ inner, MkFaultInjectingStore inner (fi_forced_outcome s)
          (fi_force_may_have_taken_effect_count s) (fi_call_count s)) <$>
       store_sweep tok io (fi_inner s) |}.
End objects.
