(* ===== verification/StoreProofs.v ===== *)
(** * The file-backed store keeps its contract

    Crash-safety and atomicity of [replace_exact] and [sweep_orphan_tmp], and
    the instances of the store contract for [FileBackedStore] and
    [FaultInjectingStore]. *)

From stdpp Require Import base gmap sets list strings.
From Stdlib Require Import ZArith Lia Ascii.
From S2P Require Import Prelude.
From S2P Require Import ControlRecord.
From S2P Require Import Samples.
From S2P Require Import Codec.
From S2P Require Import StoreSpec.
From S2P Require Import Store.

Open Scope Z_scope.

(** ** Names *)

Lemma app_ne_self (l s : bytes) : s ≠ [] → l ++ s ≠ l.
Proof.
  intros Hs Heq%(f_equal length). rewrite length_app in Heq.
  destruct s; [done|]. cbn in Heq. lia.
Qed.

Lemma tmp_name_ne n rev nonce : attempt_tmp_name n rev nonce ≠ n.
Proof. by apply app_ne_self. Qed.

Lemma lock_name_ne n : lock_name n ≠ n.
Proof. by apply app_ne_self. Qed.

#[export] Hint Resolve tmp_name_ne lock_name_ne : theyos.

(** ** How an operation may evolve the record's directory entry *)

Record evolves (fs : FileBackedStore) (ok : option Node → Prop) (d d' : Disk) : Prop := {
  ev_parent : d_parent d' = d_parent d;
  ev_euid : d_euid d' = d_euid d;
  ev_now : ok (d_dir d' !! fs_name fs);
  ev_here : d_dir d' ∈ d_pending d';
  ev_pending : ∀ dir, dir ∈ d_pending d' → dir ∈ d_pending d ∨ ok (dir !! fs_name fs);
  ev_points : ∀ p, p ∈ d_points d' → p ∈ d_points d ∨
    ∀ dir, dir ∈ p → dir ∈ d_pending d ∨ ok (dir !! fs_name fs);
}.

Lemma evolves_refl fs (ok : option Node → Prop) d :
  d_dir d ∈ d_pending d → ok (d_dir d !! fs_name fs) → evolves fs ok d d.
Proof. intros. split; auto. Qed.

Lemma evolves_set_dir fs (ok : option Node → Prop) d d' dir :
  evolves fs ok d d' → ok (dir !! fs_name fs) → evolves fs ok d (set_dir dir d').
Proof.
  intros [] Hok. split; cbn; auto.
  - left.
  - intros x [->|Hx]%elem_of_cons; auto.
  - intros p [->|Hp]%elem_of_cons; auto. right. intros x [->|Hx]%elem_of_cons; auto.
Qed.

Lemma evolves_sync_dir fs (ok : option Node → Prop) d d' :
  evolves fs ok d d' → evolves fs ok d (sync_dir d').
Proof.
  intros []. split; cbn; auto.
  - left.
  - intros x ->%list_elem_of_singleton. auto.
  - intros p [->|Hp]%elem_of_cons; auto. right. intros x ->%list_elem_of_singleton. auto.
Qed.

Lemma evolves_weaken fs (ok ok' : option Node → Prop) d d' :
  (∀ n, ok n → ok' n) → evolves fs ok d d' → evolves fs ok' d d'.
Proof.
  intros Hw []. split; auto.
  - intros x Hx. destruct (ev_pending0 x Hx); auto.
  - intros p Hp. destruct (ev_points0 p Hp) as [|Hq]; auto.
    right. intros x Hx. destruct (Hq x Hx); auto.
Qed.

Lemma evolves_here fs ok d d' : evolves fs ok d d' → d_dir d' ∈ d_pending d'.
Proof. by intros []. Qed.

(** The entry is the one before the operation. *)
Definition unchanged (fs : FileBackedStore) (d : Disk) : option Node → Prop :=
  eq (d_dir d !! fs_name fs).

Lemma evolves_remove fs ok d d' name fails :
  evolves fs ok d d' → name ≠ fs_name fs → evolves fs ok d (remove_file name fails d').
Proof.
  intros He Hne. unfold remove_file. destruct fails; [done|].
  apply evolves_set_dir; [done|]. rewrite lookup_delete_ne by done. apply He.
Qed.

Lemma evolves_insert_other fs ok d d' name n :
  evolves fs ok d d' → name ≠ fs_name fs →
  evolves fs ok d (set_dir (<[name:=n]> (d_dir d')) d').
Proof.
  intros He Hne. apply evolves_set_dir; [done|]. rewrite lookup_insert_ne by done. apply He.
Qed.

Section lock.
Implicit Types (fs : FileBackedStore) (d : Disk).

Lemma open_lock_evolves fs d io r d' :
  d_dir d ∈ d_pending d → open_lock_path fs d io = (r, d') → evolves fs (unchanged fs d) d d'.
Proof.
  intros Hin. unfold open_lock_path. intros H. destruct (mbind _ _) as [uid|e]; [|simplify_eq].
  - destruct (d_dir d !! lock_name (fs_name fs)) as [f|]; simplify_eq.
    + by apply evolves_refl.
    + apply evolves_insert_other; [by apply evolves_refl|]. auto with theyos.
  - by apply evolves_refl.
Qed.

(** Holding the process lock means the directory passed the policy. *)
Lemma open_lock_Ok fs d io d' :
  open_lock_path fs d io = (Ok tt, d') →
  fs_has_parent fs = true ∧ validate_directory_policy (d_parent d) false =
    Ok (default 0 (m_uid <$> d_parent d)).
Proof.
  unfold open_lock_path. destruct (mbind _ _) as [uid|e] eqn:Hm; [|by intros [=]].
  intros _. res_inv. split; [done|].
  unfold validate_directory_policy in *. destruct (lock_dir_stat io); [done|].
  destruct (d_parent d) as [m|]; cbn in *; [|done]. res_inv. subst.
  destruct (m_is_dir m); [|done]. cbn. by destruct (group_or_world_writable m).
Qed.

Lemma acquire_lock_evolves fs d io l d' :
  d_dir d ∈ d_pending d → acquire_process_lock fs d io = (l, d') →
  evolves fs (unchanged fs d) d d'.
Proof.
  unfold acquire_process_lock. destruct (open_lock_path fs d io) as [r d1] eqn:Ho.
  intros ? [= _ <-]. by eapply open_lock_evolves.
Qed.

Lemma acquire_lock_Some fs d io u d' :
  acquire_process_lock fs d io = (Some u, d') →
  fs_has_parent fs = true ∧ validate_directory_policy (d_parent d) false =
    Ok (default 0 (m_uid <$> d_parent d)).
Proof.
  unfold acquire_process_lock. destruct (open_lock_path fs d io) as [r d1] eqn:Ho.
  intros [= Hr _]. destruct r as [[]|]; [|done]. by eapply open_lock_Ok.
Qed.
End lock.

(** ** What one write may do *)

(** The file [write_step] puts in place: complete and synced. *)
Definition written (d : Disk) (data : bytes) : Node := MkNode (new_file_meta d) data true.

Definition old_or_written (fs : FileBackedStore) (d : Disk) (data : bytes)
    (n : option Node) : Prop := unchanged fs d n ∨ n = Some (written d data).

Lemma write_step_evolves fs io rev data d0 d o d' :
  evolves fs (unchanged fs d0) d0 d → write_step fs io rev data d = (o, d') →
  evolves fs (if decide (o = KnownNoEffect) then unchanged fs d0 else old_or_written fs d0 data)
    d0 d' ∧
  (o = Committed → d_pending d' = [d_dir d'] ∧ d_dir d' !! fs_name fs = Some (written d0 data)).
Proof.
  intros He. pose proof (ev_euid _ _ _ _ He) as Hu. unfold write_step.
  set (tmp := attempt_tmp_name _ _ _). assert (tmp ≠ fs_name fs) as Hne by apply tmp_name_ne.
  destruct (io_create io || _); [by intros [= <- <-]|].
  destruct (io_write io) as [partial|].
  { intros [= <- <-]. split; [|done]. cbn [decide].
    by apply evolves_remove, Hne; repeat apply evolves_insert_other. }
  destruct (io_sync io).
  { intros [= <- <-]. split; [|done].
    by apply evolves_remove, Hne; repeat apply evolves_insert_other. }
  set (d1 := set_dir (<[tmp:=MkNode (new_file_meta d) data false]> _) _).
  set (file := MkNode (new_file_meta d) data true).
  set (d2 := set_dir (<[tmp:=file]> (d_dir d1)) d1).
  assert (evolves fs (unchanged fs d0) d0 d2) as He2
    by (unfold d2, d1; by repeat apply evolves_insert_other).
  assert (file = written d0 data) as Hf.
  { unfold file, written, new_file_meta. by rewrite Hu. }
  assert (evolves fs (old_or_written fs d0 data) d0
            (set_dir (<[fs_name fs:=file]> (delete tmp (d_dir d2))) d2)) as He3.
  { apply evolves_set_dir.
    - eapply evolves_weaken; [|exact He2]. by left.
    - rewrite lookup_insert_eq. right. by rewrite Hf. }
  assert (evolves fs (old_or_written fs d0 data) d0 d2) as He2'.
  { eapply evolves_weaken; [|exact He2]. by left. }
  destruct (io_rename io); [|by intros [= <- <-]..].
  destruct (_ || _); [by intros [= <- <-]|]. intros [= <- <-]. cbn [decide].
  split; [by apply evolves_sync_dir|]. intros _. split; [done|].
  cbn. rewrite lookup_insert_eq. by rewrite Hf.
Qed.

(** ** Readers and crashes *)

Definition clean_load : LoadIo := MkLoadIo false false false false.

Section views.
Context `{!Ciborium, !CiboriumLaws, !Hashes}.
Implicit Types (fs : FileBackedStore) (d : Disk).

(** What a reader sees when none of its system calls fails. *)
Definition view fs d : LoadOutcome := load_canonical fs d clean_load.

(** The disk after a restart that surfaced the directory state [dir]. *)
Definition restarted (d : Disk) (dir : Dir) : Disk :=
  MkDisk (d_parent d) (d_euid d) dir [dir] [].

(** What a reader may see after a crash now: the record of a surfaced
    directory state if its data was synced, and anything if it was not. *)
Definition survives fs d (v : LoadOutcome) : Prop :=
  ∃ dir, dir ∈ d_pending d ∧
    match dir !! fs_name fs with
    | Some n => n_synced n = true → v = view fs (restarted d dir)
    | None => v = view fs (restarted d dir)
    end.

Lemma load_local fs d d' io :
  d_parent d = d_parent d' → d_dir d !! fs_name fs = d_dir d' !! fs_name fs →
  load_canonical fs d io = load_canonical fs d' io.
Proof. intros Hp Hn. unfold load_canonical, open_non_aliased. by rewrite Hp, Hn. Qed.

Lemma view_local fs d d' :
  d_parent d = d_parent d' → d_dir d !! fs_name fs = d_dir d' !! fs_name fs →
  view fs d = view fs d'.
Proof. apply load_local. Qed.

Lemma load_view_or_corrupt fs d io :
  load_canonical fs d io = view fs d ∨ load_canonical fs d io = Load_Corrupt.
Proof.
  unfold view, load_canonical, open_non_aliased, validate_directory_policy.
  destruct (fs_has_parent fs); cbn; [|auto].
  destruct (load_dir_stat io); cbn; [auto|].
  destruct (d_parent d) as [m|]; cbn; [|auto].
  destruct (m_is_dir m); cbn; [|auto]. destruct (group_or_world_writable m); cbn; [auto|].
  destruct (not_regular _); cbn; [auto|]. destruct (load_open io); cbn; [auto|].
  destruct (d_dir d !! _) as [f|]; cbn; [|auto]. destruct (load_fstat io); cbn; [auto|].
  destruct (check_handle _ _); cbn; [|auto]. destruct (load_read io); cbn; auto.
Qed.

Lemma view_bound fs d r :
  view fs d = Load_Exact r → rec_identity r = fs_identity fs ∧ rec_purpose r = fs_purpose fs.
Proof.
  unfold view, load_canonical. destruct (open_non_aliased fs d clean_load) as [f|[]]; [|done..].
  cbn. destruct (from_canonical_bytes (n_data f)) as [rec|]; [|done].
  destruct (bool_decide _ && bool_decide _) eqn:Hb; [|done]. intros [= ->].
  apply andb_true_iff in Hb as [?%bool_decide_eq_true ?%bool_decide_eq_true]. done.
Qed.

Lemma view_consistent fs d r : view fs d = Load_Exact r → invariants_hold r = true.
Proof.
  unfold view, load_canonical. destruct (open_non_aliased fs d clean_load) as [f|[]]; [|done..].
  cbn. destruct (from_canonical_bytes (n_data f)) as [rec|] eqn:Hf; [|done].
  destruct (bool_decide _ && bool_decide _) eqn:Hb; [|done]. intros [= ->].
  by apply from_canonical_inv in Hf as [? _].
Qed.

Definition disk_wf (d : Disk) : Prop :=
  d_dir d ∈ d_pending d ∧ (∀ m, d_parent d = Some m → m_uid m = d_euid d).

(** Once the written file is in place every reader sees the new record. *)
Lemma view_written fs d d' data new :
  disk_wf d → fs_has_parent fs = true →
  validate_directory_policy (d_parent d) false = Ok (default 0 (m_uid <$> d_parent d)) →
  to_canonical_bytes new = Some data → invariants_hold new = true →
  rec_identity new = fs_identity fs → rec_purpose new = fs_purpose fs →
  d_parent d' = d_parent d → d_dir d' !! fs_name fs = Some (written d data) →
  view fs d' = Load_Exact new.
Proof.
  intros [_ Huid] Hp Hpol Hb Hi Hid Hpu Hpar Hn.
  unfold view, load_canonical, open_non_aliased. rewrite Hp, Hpar, Hn. cbn [load_dir_stat clean_load].
  rewrite Hpol. cbn.
  assert (default 0 (m_uid <$> d_parent d) = d_euid d) as ->.
  { destruct (d_parent d) as [m|] eqn:Hm; cbn; [by apply Huid|]. done. }
  unfold check_handle, group_or_world_writable. cbn. rewrite !Z.eqb_refl. cbn.
  rewrite (from_to_canonical _ _ Hb Hi). by rewrite !bool_decide_true.
Qed.

Lemma evolves_unchanged_survives fs d d' v :
  disk_wf d → evolves fs (unchanged fs d) d d' → survives fs d' v → survives fs d v.
Proof.
  intros [Hin _] [] (dir & Hd & Hv).
  assert (∀ x, view fs (restarted d' x) = view fs (restarted d x)) as Hview.
  { intros x. apply load_local; cbn; congruence. }
  destruct (ev_pending0 dir Hd) as [Hd'|Heq].
  - exists dir. split; [done|]. by destruct (dir !! fs_name fs); rewrite <-Hview.
  - exists (d_dir d). split; [done|]. unfold unchanged in Heq. rewrite Heq.
    assert (view fs (restarted d (d_dir d)) = view fs (restarted d' dir)) as Hv'.
    { apply load_local; cbn; congruence. }
    by destruct (dir !! fs_name fs); rewrite Hv'.
Qed.

Lemma evolves_unchanged_view fs d d' :
  evolves fs (unchanged fs d) d d' → view fs d' = view fs d.
Proof. intros []. symmetry. by apply load_local. Qed.

(** ** [replace_exact] *)

(** Everything [replace_exact] establishes before it writes. *)
Lemma replace_exact_cases fs tok io e new d o d' :
  disk_wf d → replace_exact fs tok io e new d = Some (o, d') →
  (o = KnownNoEffect ∧ evolves fs (unchanged fs d) d d') ∨
  (o ≠ KnownNoEffect ∧ rec_identity new = fs_identity fs ∧ rec_purpose new = fs_purpose fs ∧
   write_allowed (fs_identity fs) (fs_purpose fs) (view fs d) e new ∧
   fs_has_parent fs = true ∧
   validate_directory_policy (d_parent d) false = Ok (default 0 (m_uid <$> d_parent d)) ∧
   ∃ data, to_canonical_bytes new = Some data ∧ evolves fs (old_or_written fs d data) d d' ∧
     (o = Committed → d_pending d' = [d_dir d'] ∧ d_dir d' !! fs_name fs = Some (written d data))).
Proof.
  intros [Hin Huid]. unfold replace_exact. destruct (tok =? fs_token fs); [|done]. cbn [negb].
  intros [= Hr]. revert Hr.
  destruct (bool_decide _ || bool_decide _) eqn:Hid; [intros [= <- <-]; left; split; [done|];
    by apply evolves_refl|].
  apply orb_false_iff in Hid as [Hid Hpu].
  apply bool_decide_eq_false in Hid, Hpu. apply dec_stable in Hid, Hpu.
  destruct (acquire_process_lock fs d (io_lock io)) as [[[]|] d1] eqn:Hl;
    pose proof (acquire_lock_evolves _ _ _ _ _ Hin Hl) as He1; [|by intros [= <- <-]; left].
  pose proof (acquire_lock_Some _ _ _ _ _ Hl) as [Hpar Hpol].
  destruct (compare_step _ _ _ _) as [cur|] eqn:Hcmp; [|by intros [= <- <-]; left].
  destruct (is_valid_write cur new) eqn:Hval; cbn [negb]; [|by intros [= <- <-]; left].
  destruct (to_canonical_bytes new) as [data|] eqn:Hdata; [|by intros [= <- <-]; left].
  intros Hw. destruct (write_step_evolves _ _ _ _ _ _ _ _ He1 Hw) as [He Hcom].
  destruct (decide (o = KnownNoEffect)) as [->|Hne]; [by left|]. right.
  split_and!; try done; [|by exists data].
  rewrite <-(evolves_unchanged_view _ _ _ He1).
  destruct (load_view_or_corrupt fs d1 (io_load io)) as [Hv|Hv]; rewrite Hv in Hcmp; [|done].
  destruct (view fs d1) as [|r|]; cbn in Hcmp |- *.
  - destruct (Z.eqb_spec e INITIAL_REVISION); cbn in Hcmp; [|done].
    case_bool_decide as Hb; [done|]. by split.
  - destruct (Z.eqb_spec (rec_revision r) e) as [Hrev|]; cbn in Hcmp; [|done].
    injection Hcmp as <-. split; [done|]. cbn in Hval.
    destruct (Z.eqb_spec (rec_revision new) (rec_revision r)).
    + left. by apply bool_decide_eq_true in Hval.
    + right. by apply bool_decide_eq_true in Hval.
  - done.
Qed.
End views.

(** ** The contract *)

Section contract.
Context `{!Ciborium, !CiboriumLaws, !Hashes}.

Definition codable (r : MeshSignerControlRecordV1) : Prop := is_Some (to_canonical_bytes r).

(** A trusted directory and lock file, a fresh temporary name, and no
    failing system call. *)
Definition clean_io (s : FileStore) (io : StoreIo) : Prop :=
  let fs := st_fs s in let d := st_disk s in
  fs_has_parent fs = true ∧
  is_ok (validate_directory_policy (d_parent d) false) = true ∧
  (∀ f, d_dir d !! lock_name (fs_name fs) = Some f →
     m_is_file (n_meta f) = true ∧ is_ok (check_handle (d_euid d) (n_meta f)) = true) ∧
  io_lock io = MkLockIo false false false false ∧ io_load io = clean_load ∧
  (∀ rev, d_dir d !! attempt_tmp_name (fs_name fs) rev (io_nonce io) = None) ∧
  io_create io = false ∧ io_write io = None ∧ io_sync io = false ∧
  io_rename io = Rename_Ok ∧ io_fsync_dir io = false.

Lemma file_replace_cases tok io e new s o s' :
  file_replace tok io e new s = Some (o, s') →
  st_fs s' = st_fs s ∧ replace_exact (st_fs s) tok io e new (st_disk s) = Some (o, st_disk s').
Proof.
  unfold file_replace. intros ([o' d] & Hr & [= <- <-])%bind_Some. done.
Qed.

Lemma validate_policy_uid p uid :
  validate_directory_policy p false = Ok uid → ∃ m, p = Some m ∧ m_uid m = uid.
Proof. unfold validate_directory_policy. intros Hok. res_inv. eauto. Qed.

Lemma tmp_name_ne_lock n rev nonce : lock_name n ≠ attempt_tmp_name n rev nonce.
Proof. unfold lock_name, attempt_tmp_name. by intros Heq%app_inv_head. Qed.

Lemma acquire_lock_clean s io :
  disk_wf (st_disk s) → clean_io s io →
  ∃ d', acquire_process_lock (st_fs s) (st_disk s) (io_lock io) = (Some tt, d') ∧
    ∀ rev, d_dir d' !! attempt_tmp_name (fs_name (st_fs s)) rev (io_nonce io) = None.
Proof.
  intros [Hin Huid] (Hp & Hpol & Hlock & -> & _ & Htmp & _).
  destruct (validate_directory_policy (d_parent (st_disk s)) false) as [uid|] eqn:Hv; [|done].
  apply validate_policy_uid in Hv as Hm. destruct Hm as (m & Hm & <-).
  unfold acquire_process_lock, open_lock_path. rewrite Hp. cbn [lock_dir_stat lock_open lock_flock].
  rewrite Hv. cbn.
  destruct (d_dir (st_disk s) !! lock_name (fs_name (st_fs s))) as [f|] eqn:Hf.
  - destruct (Hlock f eq_refl) as [Hfile Hok]. cbn. rewrite Hfile. cbn. rewrite (Huid _ Hm).
    destruct (check_handle _ _) as [[]|]; [|done]. eauto.
  - cbn. unfold check_handle, group_or_world_writable. cbn.
    rewrite (Huid _ Hm), !Z.eqb_refl. cbn. eexists. split; [done|]. intros rev. cbn.
    rewrite lookup_insert_ne by apply tmp_name_ne_lock. done.
Qed.

(** With no failing system call an allowed write commits. *)
Lemma file_replace_progress io e new s :
  disk_wf (st_disk s) → codable new → clean_io s io →
  write_allowed (fs_identity (st_fs s)) (fs_purpose (st_fs s)) (view (st_fs s) (st_disk s)) e new →
  rec_identity new = fs_identity (st_fs s) → rec_purpose new = fs_purpose (st_fs s) →
  ∃ s', file_replace (fs_token (st_fs s)) io e new s = Some (Committed, s').
Proof.
  intros Hwf [data Hdata] Hc Hal Hid Hpu.
  destruct (acquire_lock_clean _ _ Hwf Hc) as (d1 & Hl & Htmp).
  pose proof (acquire_lock_evolves _ _ _ _ _ (proj1 Hwf) Hl) as He1.
  destruct Hc as (Hp & _ & _ & _ & Hld & _ & Hcr & Hwr & Hsy & Hrn & Hfs).
  unfold file_replace, replace_exact. rewrite Z.eqb_refl. cbn [negb].
  rewrite !bool_decide_false by auto. cbn [orb]. rewrite Hl. cbn.
  rewrite <-(evolves_unchanged_view _ _ _ He1) in Hal.
  assert (∃ cur, compare_step (st_fs s) (load_canonical (st_fs s) d1 (io_load io)) e new = Some cur ∧
            is_valid_write cur new = true) as (cur & -> & Hval).
  { rewrite Hld. change (load_canonical (st_fs s) d1 clean_load) with (view (st_fs s) d1).
    destruct (view (st_fs s) d1) as [|r|]; cbn in Hal |- *; [| |done].
    - destruct Hal as [-> ->]. cbn. rewrite bool_decide_false by auto. by exists None.
    - destruct Hal as [<- Hv]. rewrite Z.eqb_refl. exists (Some r). split; [done|]. cbn.
      destruct Hv as [->|[Hne Hv]].
      + by rewrite Z.eqb_refl, bool_decide_true.
      + rewrite (proj2 (Z.eqb_neq _ _) Hne). by apply bool_decide_eq_true. }
  rewrite Hval, Hdata. cbn. unfold write_step. rewrite Hcr, Htmp, Hwr, Hsy, Hrn, Hp, Hfs. cbn.
  eauto.
Qed.

Lemma committed_contract tok io e new s s' :
  disk_wf (st_disk s) → invariants_hold new = true →
  file_replace tok io e new s = Some (Committed, s') →
  write_allowed (fs_identity (st_fs s)) (fs_purpose (st_fs s)) (view (st_fs s) (st_disk s)) e new ∧
  view (st_fs s') (st_disk s') = Load_Exact new ∧
  (∀ v, survives (st_fs s') (st_disk s') v → v = Load_Exact new).
Proof.
  intros Hwf Hinv [-> Hr]%file_replace_cases.
  destruct (replace_exact_cases _ _ _ _ _ _ _ _ Hwf Hr)
    as [[[=] _]|(_ & Hid & Hpu & Hal & Hp & Hpol & data & Hdata & He & Hcom)].
  destruct (Hcom eq_refl) as [Hpend Hnode]. split; [done|].
  assert (∀ dx, d_parent dx = d_parent (st_disk s) →
    d_dir dx !! fs_name (st_fs s) = Some (written (st_disk s) data) →
    view (st_fs s) dx = Load_Exact new) as Hv by (intros; by eapply view_written).
  split; [apply Hv; [apply He|done]|].
  intros v (dir & Hdir & Hsv). rewrite Hpend in Hdir. apply list_elem_of_singleton in Hdir as ->.
  rewrite Hnode in Hsv. rewrite Hsv by done. apply Hv; [apply He|done].
Qed.

Lemma uncertain_contract tok io e new s s' :
  disk_wf (st_disk s) → invariants_hold new = true →
  file_replace tok io e new s = Some (MayHaveTakenEffect, s') →
  write_allowed (fs_identity (st_fs s)) (fs_purpose (st_fs s)) (view (st_fs s) (st_disk s)) e new ∧
  (view (st_fs s') (st_disk s') = view (st_fs s) (st_disk s) ∨
   view (st_fs s') (st_disk s') = Load_Exact new) ∧
  (∀ v, survives (st_fs s') (st_disk s') v →
     survives (st_fs s) (st_disk s) v ∨ v = Load_Exact new).
Proof.
  intros Hwf Hinv [-> Hr]%file_replace_cases.
  destruct (replace_exact_cases _ _ _ _ _ _ _ _ Hwf Hr)
    as [[[=] _]|(_ & Hid & Hpu & Hal & Hp & Hpol & data & Hdata & He & _)].
  split; [done|].
  assert (∀ dx, d_parent dx = d_parent (st_disk s) →
    d_dir dx !! fs_name (st_fs s) = Some (written (st_disk s) data) →
    view (st_fs s) dx = Load_Exact new) as Hv by (intros; by eapply view_written).
  split.
  - destruct (ev_now _ _ _ _ He) as [Heq|Hnode].
    + left. apply load_local; [apply He|done].
    + right. apply Hv; [apply He|done].
  - intros v (dir & Hdir & Hsv). destruct (ev_pending _ _ _ _ He _ Hdir) as [Hold|[Heq|Hnode]].
    + left. exists dir. split; [done|].
      rewrite (view_local _ (restarted (st_disk s) dir) (restarted (st_disk s') dir)); [done| |done].
      symmetry. apply He.
    + left. exists (d_dir (st_disk s)). split; [apply Hwf|]. unfold unchanged in Heq. rewrite Heq.
      rewrite (view_local _ (restarted (st_disk s) (d_dir (st_disk s))) (restarted (st_disk s') dir));
        [done| |done]. symmetry. apply He.
    + right. rewrite Hnode in Hsv. rewrite Hsv by done. apply Hv; [apply He|done].
Qed.
End contract.

Section instances.
Context `{!Ciborium, !CiboriumLaws, !Hashes}.

#[export] Program Instance file_contract : StoreContract FileStore StoreIo :=
  {| store_wf := λ s, disk_wf (st_disk s);
     store_token := λ s, fs_token (st_fs s);
     store_identity := λ s, fs_identity (st_fs s);
     store_purpose := λ s, fs_purpose (st_fs s);
     store_view := λ s, view (st_fs s) (st_disk s);
     store_survives := λ s, survives (st_fs s) (st_disk s);
     store_codable := codable;
     io_clean := clean_io |}.
Next Obligation. intros. apply load_view_or_corrupt. Qed.
Next Obligation. intros io s (_ & _ & _ & _ & Hld & _). cbn. by rewrite Hld. Qed.
Next Obligation.
  intros s [Hin _]. exists (d_dir (st_disk s)). split; [done|].
  destruct (d_dir (st_disk s) !! _); intros; by apply view_local.
Qed.
Next Obligation. intros s r. apply view_bound. Qed.
Next Obligation.
  intros io e new s o s' Hr Hwf. cbn in Hr. apply file_replace_cases in Hr as [Hfs Hr].
  rewrite Hfs. split; [|done].
  destruct (replace_exact_cases _ _ _ _ _ _ _ _ Hwf Hr)
    as [[_ [Hp Hu _ Hh _ _]]|(_ & _ & _ & _ & _ & _ & data & _ & [Hp Hu _ Hh _ _] & _)];
    (split; [done|rewrite Hp, Hu; apply Hwf]).
Qed.
Next Obligation.
  intros io e new s. cbn. unfold file_replace, replace_exact. rewrite Z.eqb_refl. cbn.
  destruct (if (_ || _ : bool) then _ else _). eauto.
Qed.
Next Obligation. intros io e new s s'. apply committed_contract. Qed.
Next Obligation.
  intros io e new s s' Hwf Hr. cbn in *. apply file_replace_cases in Hr as [-> Hr].
  destruct (replace_exact_cases _ _ _ _ _ _ _ _ Hwf Hr) as [[_ He]|[[] _]]; [|done].
  split; [by apply evolves_unchanged_view|]. intros v. by apply evolves_unchanged_survives.
Qed.
Next Obligation. intros io e new s s'. apply uncertain_contract. Qed.
Next Obligation. intros io e new s. apply file_replace_progress. Qed.

Lemma fault_replace_cases tok io e new s o s' :
  fault_replace tok io e new s = Some (o, s') →
  (o = KnownNoEffect ∧ fi_inner s' = fi_inner s) ∨
  ∃ real, file_replace tok io e new (fi_inner s) = Some (real, fi_inner s') ∧
    (o = real ∨ (real = Committed ∧ o = MayHaveTakenEffect)).
Proof.
  unfold fault_replace, weaken_outcome. destruct (0 <? _).
  { intros ([real inner] & Hr & [= <- <-])%bind_Some. right. exists real. split; [done|].
    case_bool_decide; auto. }
  destruct (fi_forced_outcome s) as [[]|];
    try (intros ([real inner] & Hr & [= <- <-])%bind_Some; right; exists real; split; [done|];
         try case_bool_decide; auto; fail).
  intros [= <- <-]. by left.
Qed.

(** No fault armed, and no failing system call. *)
Definition clean_fault_io (s : FaultInjectingStore) (io : StoreIo) : Prop :=
  clean_io (fi_inner s) io ∧ fi_forced_outcome s = None ∧
  fi_force_may_have_taken_effect_count s = 0.

#[export] Program Instance fault_contract : StoreContract FaultInjectingStore StoreIo :=
  {| store_wf := λ s, store_wf (fi_inner s);
     store_token := λ s, store_token (fi_inner s);
     store_identity := λ s, store_identity (fi_inner s);
     store_purpose := λ s, store_purpose (fi_inner s);
     store_view := λ s, store_view (fi_inner s);
     store_survives := λ s, store_survives (fi_inner s);
     store_codable := codable;
     io_clean := clean_fault_io |}.
Next Obligation. intros. apply (law_load io (fi_inner s)). Qed.
Next Obligation. intros io s [Hc _]. by apply (law_load_clean io (fi_inner s)). Qed.
Next Obligation. intros s. apply (law_view_survives (fi_inner s)). Qed.
Next Obligation. intros s r. apply (law_view_bound (fi_inner s)). Qed.
Next Obligation.
  intros io e new s o s' [[_ Hi]|(real & Hr & _)]%fault_replace_cases Hwf.
  - by rewrite Hi.
  - by eapply (law_replace_fixed io e new (fi_inner s)).
Qed.
Next Obligation.
  intros io e new s. cbn. unfold fault_replace.
  destruct (law_replace_total io e new (fi_inner s)) as [[real inner] Hr]. cbn in Hr.
  rewrite Hr. cbn. destruct (0 <? _); [eauto|]. destruct (fi_forced_outcome s) as [[]|]; eauto.
Qed.
Next Obligation.
  intros io e new s s' Hwf Hc [[[=] _]|(real & Hr & [<-|[_ [=]]])]%fault_replace_cases.
  by eapply (law_committed io e new (fi_inner s)).
Qed.
Next Obligation.
  intros io e new s s' Hwf [[_ Hi]|(real & Hr & [<-|[_ [=]]])]%fault_replace_cases.
  - cbn. by rewrite Hi.
  - by eapply (law_no_effect io e new (fi_inner s)).
Qed.
Next Obligation.
  intros io e new s s' Hwf Hc [[[=] _]|(real & Hr & [<-|[-> _]])]%fault_replace_cases.
  - by eapply (law_uncertain io e new (fi_inner s)).
  - destruct (law_committed io e new (fi_inner s) _ Hwf Hc Hr) as (Hal & Hv & Hs).
    split_and!; [done|by right|]. intros v Hsv. right. by apply Hs.
Qed.
Next Obligation.
  intros io e new s Hwf Hc (Hcl & Hf & Hn) Hal Hid Hpu. cbn. unfold fault_replace. rewrite Hf, Hn. cbn.
  destruct (law_progress io e new (fi_inner s) Hwf Hc Hcl Hal Hid Hpu) as [s' Hr]. cbn in Hr.
  rewrite Hr. cbn. eauto.
Qed.
End instances.

(** ** The orphan sweep *)

Lemma strip_prefix_app p l : strip_prefix p (p ++ l) = Some l.
Proof. induction p as [|a p IH]; cbn; [done|]. by rewrite bool_decide_true. Qed.

Lemma strip_prefix_Some p l r : strip_prefix p l = Some r → l = p ++ r.
Proof.
  revert l; induction p as [|a p IH]; intros l; cbn; [by intros [= ->]|].
  destruct l as [|b l]; [done|]. case_bool_decide as Hab; [|done]. intros ->%IH. by subst.
Qed.

Lemma digit_value_digit z : 0 ≤ z < 10 → digit_value (digit z) = Some z.
Proof.
  intros Hz. unfold digit_value, digit. rewrite (proj2 (Z.ltb_lt z 10)) by lia.
  rewrite N_ascii_embedding by lia. rewrite Z2N.id by lia.
  rewrite (proj2 (Z.leb_le 48 (z + 48))), (proj2 (Z.leb_le (z + 48) 57)) by lia. cbn.
  f_equal. lia.
Qed.

Lemma parse_digits_app acc l1 l2 :
  parse_digits acc (l1 ++ l2) = parse_digits acc l1 ≫= λ a, parse_digits a l2.
Proof.
  revert acc; induction l1 as [|c l1 IH]; intros acc; cbn; [done|].
  destruct (digit_value c) as [d|]; cbn; [|done]. by destruct (_ <? _).
Qed.

Lemma parse_fixed_digits w n :
  0 ≤ n < 10 ^ Z.of_nat w → n < u64_modulus → parse_digits 0 (fixed_digits 10 w n) = Some n.
Proof.
  revert n; induction w as [|w IH]; intros n Hn Hu; cbn [fixed_digits].
  - change (10 ^ Z.of_nat 0) with 1 in Hn. cbn. f_equal. lia.
  - rewrite Nat2Z.inj_succ, Z.pow_succ_r in Hn by lia.
    pose proof (Z.mod_pos_bound n 10). pose proof (Z.div_mod n 10).
    assert (0 ≤ n / 10) by (apply Z.div_pos; lia).
    assert (n / 10 < 10 ^ Z.of_nat w) by (apply Z.div_lt_upper_bound; lia).
    rewrite parse_digits_app, IH by lia. cbn.
    rewrite digit_value_digit by lia. cbn.
    rewrite (proj2 (Z.ltb_lt _ u64_modulus)) by lia. f_equal. lia.
Qed.

Lemma fixed_digits_no_sep base w n c :
  2 ≤ base ≤ 16 → c ∈ fixed_digits base w n → c ≠ "."%char ∧ c ≠ "+"%char.
Proof.
  intros Hb. revert n; induction w as [|w IH]; intros n; cbn; [by intros ?%not_elem_of_nil|].
  intros [Hc|Hc]%elem_of_app; [by eapply IH|]. apply list_elem_of_singleton in Hc as ->.
  pose proof (Z.mod_pos_bound n base). unfold digit.
  assert (∀ x, N_of_ascii (ascii_of_N (Z.to_N (if n mod base <? 10 then n mod base + 48
    else n mod base - 10 + 97))) = x → 48 ≤ Z.of_N x) as Hge.
  { intros x <-. rewrite N_ascii_embedding; destruct (Z.ltb_spec (n mod base) 10); lia. }
  split; intros Heq; apply (f_equal N_of_ascii), Hge in Heq; cbn in Heq; lia.
Qed.

Lemma split_once_app c l r : (∀ x, x ∈ l → x ≠ c) → split_once c (l ++ c :: r) = Some (l, r).
Proof.
  induction l as [|a l IH]; intros Hl; cbn; [by rewrite bool_decide_true|].
  rewrite bool_decide_false by (apply Hl; left). rewrite IH; [done|].
  intros x Hx. apply Hl. by right.
Qed.

(** A temporary file's name carries the revision it was written for. *)
Lemma parse_attempt_tmp_name name rev nonce :
  in_u64 rev →
  parse_tmp_revision (attempt_tmp_name name rev nonce) (name ++ as_bytes ".tmp.") = Some rev.
Proof.
  intros [Hlo Hhi]. unfold parse_tmp_revision, attempt_tmp_name.
  rewrite (app_assoc name), strip_prefix_app. cbn [mbind option_bind].
  change (as_bytes ".") with ["."%char]. cbn [app].
  rewrite split_once_app.
  - cbn [mbind option_bind]. unfold parse_u64.
    assert (length (fixed_digits 10 20 rev) = 20%nat) as Hlen by (cbn; by rewrite ?length_app).
    destruct (fixed_digits 10 20 rev) as [|c l] eqn:Hd; [done|].
    rewrite bool_decide_false.
    + rewrite <-Hd. apply parse_fixed_digits; [|done]. split; [done|].
      eapply Z.lt_trans; [done|]. by vm_compute.
    + eapply (fixed_digits_no_sep 10 20 rev); [lia|]. rewrite Hd. left.
  - intros x Hx. by eapply (fixed_digits_no_sep 10 20 rev); [lia|].
Qed.

Section sweep.
Context `{!Ciborium, !Hashes}.

Lemma sweep_keeps_record io n cur :
  sweep_removes io (n ++ as_bytes ".tmp.") cur n = false.
Proof.
  unfold sweep_removes. destruct (strip_prefix _ n) as [r|] eqn:Hs; [|done].
  apply strip_prefix_Some in Hs. exfalso. apply (app_ne_self n (as_bytes ".tmp." ++ r)); [done|].
  by rewrite app_assoc.
Qed.

(** The sweep only removes, and only what it may. *)
Lemma sweep_entries_lookup io prefix cur es name : ∀ d,
  d_dir (sweep_entries io prefix cur es d) !! name = d_dir d !! name ∨
  d_dir (sweep_entries io prefix cur es d) !! name = None ∧ sweep_removes io prefix cur name = true.
Proof.
  induction es as [|e es IH]; intros d; cbn [sweep_entries]; [by left|].
  destruct (sweep_removes io prefix cur e) eqn:He; [|apply IH].
  destruct (IH (set_dir (delete e (d_dir d)) d)) as [->|?]; [|by right]. cbn.
  destruct (decide (e = name)) as [->|Hn]; [right|left]; [by rewrite lookup_delete_eq|by rewrite lookup_delete_ne].
Qed.

Lemma sweep_entries_evolves fs io cur d0 es : ∀ d,
  evolves fs (unchanged fs d0) d0 d →
  evolves fs (unchanged fs d0) d0 (sweep_entries io (fs_name fs ++ as_bytes ".tmp.") cur es d).
Proof.
  induction es as [|e es IH]; intros d He; cbn [sweep_entries]; [done|]. apply IH.
  destruct (sweep_removes _ _ _ e) eqn:Hr; [|done]. apply evolves_set_dir; [done|].
  rewrite lookup_delete_ne; [apply He|]. intros ->. by rewrite sweep_keeps_record in Hr.
Qed.

Lemma sweep_evolves fs tok io d d' :
  d_dir d ∈ d_pending d → sweep_orphan_tmp fs tok io d = Some d' →
  evolves fs (unchanged fs d) d d'.
Proof.
  intros Hin. unfold sweep_orphan_tmp. destruct (tok =? _); [|done]. cbn [negb]. intros [= Hs].
  revert Hs. destruct (acquire_process_lock fs d (io_lock io)) as [l d1] eqn:Hl.
  pose proof (acquire_lock_evolves _ _ _ _ _ Hin Hl) as He.
  destruct l; [|by intros <-]. destruct (fs_has_parent fs); cbn; [|by intros <-].
  destruct (utf8_valid _); cbn; [|by intros <-].
  destruct (io_read_dir io); intros <-; [done|]. by apply sweep_entries_evolves.
Qed.

(** What a sweep leaves of the directory after the lock file was opened. *)
Lemma sweep_dir fs tok io d d' name n :
  sweep_orphan_tmp fs tok io d = Some d' → d_dir d !! name = Some n →
  d_dir d' !! name = Some n ∨
  (d_dir d' !! name = None ∧ is_some (strip_prefix (fs_name fs ++ as_bytes ".tmp.") name) = true ∧
   ∀ r, load_canonical fs (acquire_process_lock fs d (io_lock io)).2 (io_load io) = Load_Exact r →
     ∀ rev, parse_tmp_revision name (fs_name fs ++ as_bytes ".tmp.") = Some rev →
       rev < rec_revision r).
Proof.
  unfold sweep_orphan_tmp. destruct (tok =? _); [|done]. cbn [negb]. intros [= Hs] Hn. revert Hs.
  destruct (acquire_process_lock fs d (io_lock io)) as [l d1] eqn:Hl.
  assert (d_dir d1 !! name = Some n) as Hn1.
  { unfold acquire_process_lock, open_lock_path in Hl. destruct (mbind _ _); [|by simplify_eq].
    destruct (d_dir d !! lock_name (fs_name fs)) as [f|] eqn:Hf; simplify_eq; [done|].
    cbn. rewrite lookup_insert_ne; [done|]. intros <-. congruence. }
  destruct l; [|by intros <-; left]. destruct (fs_has_parent fs); cbn [negb]; [|by intros <-; left].
  destruct (utf8_valid _); cbn [negb]; [|by intros <-; left].
  destruct (io_read_dir io); intros <-; [by left|]. cbn [snd].
  set (cur := match load_canonical fs d1 (io_load io) with Load_Exact r => _ | _ => _ end).
  destruct (sweep_entries_lookup io (fs_name fs ++ as_bytes ".tmp.") cur (map_to_list (d_dir d1)).*1 name d1)
    as [Hlk|[Hlk Hr]]; [left; by rewrite <- Hn1|].
  right. unfold sweep_removes in Hr. apply andb_true_iff in Hr as [[Hp Hst]%andb_true_iff _].
  split_and!; [done..|]. intros r Hload rev Hrev. unfold cur in Hst. rewrite Hload in Hst.
  unfold is_stale in Hst. rewrite Hrev in Hst. by apply Z.ltb_lt in Hst.
Qed.
End sweep.

(** ** The properties *)

Section claims.
Context `{!Ciborium, !CiboriumLaws, !Hashes}.

(** [replace_exact] is a crash-safe compare-and-swap. [KnownNoEffect]
    means no reader, now or after a crash, can tell it ran. [Committed] means
    every reader sees the new record, and so does every reader after a crash.
    [MayHaveTakenEffect] leaves the old or the new record in both views. A
    write happens only from the expected revision, to the same record, to the
    next revision, or to the bootstrap record when there is none. At every
    point in between, a crash surfaces an old entry or the complete, synced
    encoding of the new record: never a torn file. *)
Theorem replace_exact_crash_safe fs tok io e new d o d' :
  disk_wf d → invariants_hold new = true → replace_exact fs tok io e new d = Some (o, d') →
  (o = KnownNoEffect → view fs d' = view fs d ∧ ∀ v, survives fs d' v → survives fs d v) ∧
  (o = Committed → view fs d' = Load_Exact new ∧ ∀ v, survives fs d' v → v = Load_Exact new) ∧
  (o = MayHaveTakenEffect →
     (view fs d' = view fs d ∨ view fs d' = Load_Exact new) ∧
     ∀ v, survives fs d' v → survives fs d v ∨ v = Load_Exact new) ∧
  (o ≠ KnownNoEffect →
     write_allowed (fs_identity fs) (fs_purpose fs) (view fs d) e new) ∧
  (∀ point dir, point ∈ d_points d' → point ∉ d_points d → dir ∈ point →
     dir ∈ d_pending d ∨ dir !! fs_name fs = d_dir d !! fs_name fs ∨
     ∃ file, dir !! fs_name fs = Some file ∧ n_synced file = true ∧
       to_canonical_bytes new = Some (n_data file)).
Proof.
  intros Hwf Hc Hr.
  assert (file_replace tok io e new (MkFileStore fs d) = Some (o, MkFileStore fs d')) as Hf.
  { unfold file_replace. cbn. by rewrite Hr. }
  destruct (replace_exact_cases _ _ _ _ _ _ _ _ Hwf Hr)
    as [[-> He]|(Hne & _ & _ & Hal & _ & _ & data & Hdata & He & _)].
  - split_and!; try done.
    + intros _. split; [by apply evolves_unchanged_view|].
      intros v. by apply evolves_unchanged_survives.
    + intros p dir Hp Hnp Hdir. destruct (ev_points _ _ _ _ He p Hp) as [|Hd]; [done|].
      destruct (Hd dir Hdir); auto.
  - split_and!; try done.
    + intros ->. by apply (committed_contract tok io e new (MkFileStore fs d) _ Hwf Hc) in Hf as (_ & ? & ?).
    + intros ->. by apply (uncertain_contract tok io e new (MkFileStore fs d) _ Hwf Hc) in Hf as (_ & ? & ?).
    + intros p dir Hp Hnp Hdir. destruct (ev_points _ _ _ _ He p Hp) as [|Hd]; [done|].
      destruct (Hd dir Hdir) as [|[|Hw]]; auto. right. right. by exists (written d data).
Qed.

(** The sweep is harmless. It never changes what a reader sees or what
    survives a crash; it removes only names with the store's temporary
    prefix; and while the record is readable, only names that carry a
    revision older than the record's, or that no attempt of this store can
    have produced. *)
Theorem sweep_removes_only_orphans fs tok io d d' :
  disk_wf d → sweep_orphan_tmp fs tok io d = Some d' →
  view fs d' = view fs d ∧ (∀ v, survives fs d' v → survives fs d v) ∧
  (∀ name n, d_dir d !! name = Some n → d_dir d' !! name = None →
     (∃ rest, name = (fs_name fs ++ as_bytes ".tmp.") ++ rest) ∧
     ∀ r, view fs d = Load_Exact r → io_load io = clean_load →
       ∀ rev nonce, in_u64 rev → name = attempt_tmp_name (fs_name fs) rev nonce →
         rev < rec_revision r).
Proof.
  intros Hwf Hs. pose proof (sweep_evolves _ _ _ _ _ (proj1 Hwf) Hs) as He. split_and!.
  - by apply evolves_unchanged_view.
  - intros v. by apply evolves_unchanged_survives.
  - intros name n Hn Hgone.
    destruct (sweep_dir _ _ _ _ _ _ _ Hs Hn) as [|(_ & Hp & Hst)]; [congruence|].
    apply is_some_true in Hp as [rest Hrest]. split; [exists rest; by apply strip_prefix_Some|].
    intros r Hv Hcl rev nonce Hrev ->. apply Hst; [|by apply parse_attempt_tmp_name].
    rewrite Hcl, <-Hv.
    destruct (acquire_process_lock fs d (io_lock io)) as [l d1] eqn:Hl. cbn.
    apply evolves_unchanged_view. by eapply acquire_lock_evolves; [apply Hwf|].
Qed.

(** A temporary file's name round-trips: whatever revision and nonce an
    attempt used, the sweep reads its exact revision back. *)
Theorem tmp_name_roundtrip name rev nonce :
  in_u64 rev →
  parse_tmp_revision (attempt_tmp_name name rev nonce) (name ++ as_bytes ".tmp.") = Some rev.
Proof. apply parse_attempt_tmp_name. Qed.

(** A record is only ever loaded from a trusted file: a regular file with
    one link, owned by the owner of its directory, neither of them writable
    by group or world; and it is consistent and bound to this store's
    identity and purpose. *)
Theorem load_canonical_trusted fs d io r :
  load_canonical fs d io = Load_Exact r →
  invariants_hold r = true ∧ rec_identity r = fs_identity fs ∧ rec_purpose r = fs_purpose fs ∧
  ∃ dirm file, d_parent d = Some dirm ∧ m_is_dir dirm = true ∧ Z.land (m_mode dirm) 18 = 0 ∧
    d_dir d !! fs_name fs = Some file ∧ m_is_file (n_meta file) = true ∧
    m_nlink (n_meta file) = 1 ∧ m_uid (n_meta file) = m_uid dirm ∧
    Z.land (m_mode (n_meta file)) 18 = 0 ∧ from_canonical_bytes (n_data file) = Some r.
Proof.
  intros Hl. assert (view fs d = Load_Exact r) as Hv.
  { destruct (load_view_or_corrupt fs d io); congruence. }
  split; [by eapply view_consistent|]. destruct (view_bound _ _ _ Hv) as [-> ->].
  split_and!; [done..|]. unfold view, load_canonical in Hv.
  destruct (open_non_aliased fs d clean_load) as [f|[]] eqn:Ho; [|done..]. cbn in Hv.
  destruct (from_canonical_bytes (n_data f)) as [rec|] eqn:Hf; [|done].
  destruct (bool_decide _ && bool_decide _); [|done]. injection Hv as ->.
  unfold open_non_aliased, validate_directory_policy, check_handle, group_or_world_writable in Ho.
  cbn in Ho. res_inv. subst. rewrite !Z.eqb_eq in *.
  match goal with H : d_parent d = Some ?m |- _ => exists m, f end.
  match goal with Hn : not_regular _ = false, Hd : d_dir d !! _ = Some _ |- _ =>
    unfold not_regular in Hn; rewrite Hd in Hn; apply negb_false_iff in Hn end.
  split_and!; done.
Qed.
End claims.

(** *** The properties at work *)

Section witnesses.
#[local] Existing Instance sample_hashes.
#[local] Existing Instance sample_ciborium.
#[local] Existing Instance sample_ciborium_laws.

Definition sample_fs : FileBackedStore :=
  MkFileBackedStore true (as_bytes "record.cbor") 7 sample_identity PurposeId_MeshSession.

(** A directory (mode 0700) holding the encoding of [sample_observed]. *)
Definition sample_record_dir : Dir :=
  {[as_bytes "record.cbor" := MkNode (MkMeta false true 1 501 384) ["002"%char] true]}.

Definition sample_disk : Disk :=
  MkDisk (Some (MkMeta true false 2 501 448)) 501 sample_record_dir [sample_record_dir] [].

Definition sample_io : StoreIo :=
  MkStoreIo (MkLockIo false false false false) clean_load 99 false None false false Rename_Ok
    false false (λ _, false).

(** Every system call succeeds but the directory fsync. *)
Definition sample_io_fsync_fails : StoreIo :=
  MkStoreIo (MkLockIo false false false false) clean_load 98 false None false false Rename_Ok
    true false (λ _, false).

Lemma sample_disk_wf : disk_wf sample_disk.
Proof. split; [left|]. by intros m [= <-]. Qed.

Lemma sample_active_codable : codable sample_active.
Proof. eexists. by vm_compute. Qed.

Definition result_disk (m : option (ReplaceOutcome * Disk)) : Disk :=
  match m with Some (_, d) => d | None => sample_disk end.

Lemma result_disk_eq m o : fst <$> m = Some o → m = Some (o, result_disk m).
Proof. destruct m as [[]|]; cbn; congruence. Qed.

Definition sample_written : Disk :=
  result_disk (replace_exact sample_fs 7 sample_io 2 sample_active sample_disk).

Lemma replace_exact_crash_safe_witness :
  view sample_fs sample_written = Load_Exact sample_active ∧
  ∀ v, survives sample_fs sample_written v → v = Load_Exact sample_active.
Proof.
  apply (replace_exact_crash_safe sample_fs 7 sample_io 2 sample_active sample_disk Committed).
  - exact sample_disk_wf.
  - by vm_compute.
  - apply result_disk_eq. by vm_compute.
  - reflexivity.
Defined.

Definition sample_swept : Disk :=
  default sample_disk (sweep_orphan_tmp sample_fs 7 sample_io sample_disk).

Lemma sweep_removes_only_orphans_witness :
  view sample_fs sample_swept = view sample_fs sample_disk.
Proof.
  apply (sweep_removes_only_orphans sample_fs 7 sample_io sample_disk).
  - exact sample_disk_wf.
  - reflexivity.
Defined.

Lemma tmp_name_roundtrip_witness :
  parse_tmp_revision (attempt_tmp_name (as_bytes "record.cbor") 41 5)
    (as_bytes "record.cbor" ++ as_bytes ".tmp.") = Some 41.
Proof. apply (tmp_name_roundtrip (as_bytes "record.cbor") 41 5). by vm_compute. Defined.

Lemma load_canonical_trusted_witness : invariants_hold sample_observed = true.
Proof.
  apply (load_canonical_trusted sample_fs sample_disk clean_load). by vm_compute.
Defined.
End witnesses.
