(* ===== verification/Commit.v ===== *)
(** * Committing exact bytes

    Models [mesh-session-control-model-rs/src/commit.rs]: the retry loop that
    closes an uncertain write only by another write that itself reports
    [Committed]. Everything is proved against the store interface. *)

From stdpp Require Import base gmap sets list strings.
From Stdlib Require Import ZArith Lia Ascii.
From S2P Require Import Prelude.
From S2P Require Import ControlRecord.
From S2P Require Import Samples.
From S2P Require Import Codec.
From S2P Require Import StoreSpec.
From S2P Require Import Store.
From S2P Require Import StoreProofs.

Open Scope Z_scope.

Inductive CommitError :=
| CE_RetryExhausted
| CE_RecordCorrupt
| CE_UnexpectedDivergence.

#[export] Instance CommitError_eq_dec : EqDecision CommitError.
Proof. solve_decision. Defined.

(** The rest of a stream of I/O behaviours. *)
Definition io_drop {Io : Type} (n : nat) (ios : nat → Io) : nat → Io := λ k, ios (n + k)%nat.

Section commit.
Context {S Io : Type} `{!AtomicControlRecordStore S Io}.

(** The [expected_revision] of the next attempt, from a reread. *)
Definition next_expected (expected_revision : Z) (new : MeshSignerControlRecordV1)
    (l : LoadOutcome) : Result CommitError Z :=
  match l with
  | Load_Exact r =>
      if bool_decide (r = new) then Ok (rec_revision r)
      else if rec_revision r =? expected_revision then Ok expected_revision
      else Err CE_UnexpectedDivergence
  | Load_Missing =>
      if expected_revision =? INITIAL_REVISION then Ok expected_revision
      else Err CE_UnexpectedDivergence
  | Load_Corrupt => Err CE_RecordCorrupt
  end.

(** Attempt [i] uses [ios (2 * i)] for its write and [ios (2 * i + 1)] for
    the reread after it. *)
Fixpoint commit_loop (token expected_revision : Z) (new : MeshSignerControlRecordV1)
    (attempts : nat) (current_expected : Z) (ios : nat → Io) (s : S)
    : option (Result CommitError unit * S) :=
  match attempts with
  | O => Some (Err CE_RetryExhausted, s)
  | Datatypes.S attempts =>
      '(o, s) ← store_replace token (ios 0%nat) current_expected new s;
      if bool_decide (o = Committed) then Some (Ok tt, s)
      else match next_expected expected_revision new (store_load (ios 1%nat) s) with
           | Ok current_expected =>
               commit_loop token expected_revision new attempts current_expected (io_drop 2 ios) s
           | Err e => Some (Err e, s)
           end
  end.

Definition commit_new_bytes (token : Z) (expected_revision : Z)
    (new : MeshSignerControlRecordV1) (max_attempts : nat) (ios : nat → Io) (s : S)
    : option (Result CommitError unit * S) :=
  commit_loop token expected_revision new max_attempts expected_revision ios s.
End commit.

Section proofs.
Context `{!Hashes} {S Io : Type} `{!AtomicControlRecordStore S Io, !StoreContract S Io}.
Implicit Types s : S.

(** How far a store may be from [s] while [new] is being written to it. *)
Record between (new : MeshSignerControlRecordV1) (s s' : S) : Prop := {
  bt_wf : store_wf s';
  bt_token : store_token s' = store_token s;
  bt_identity : store_identity s' = store_identity s;
  bt_purpose : store_purpose s' = store_purpose s;
  bt_view : store_view s' = store_view s ∨ store_view s' = Load_Exact new;
  bt_survives : ∀ v, store_survives s' v → store_survives s v ∨ v = Load_Exact new;
}.

Lemma between_refl new s : store_wf s → between new s s.
Proof. split; auto. Qed.

Lemma between_trans new s1 s2 s3 : between new s1 s2 → between new s2 s3 → between new s1 s3.
Proof.
  intros [? ? ? ? Hv1 Hs1] [? ? ? ? Hv2 Hs2]. split; [done|congruence..| |].
  - destruct Hv2 as [->|?]; auto.
  - intros v [Hv|?]%Hs2; auto.
Qed.

(** One attempt. *)
Lemma replace_between io e new s o s' :
  store_wf s → invariants_hold new = true →
  store_replace (store_token s) io e new s = Some (o, s') → between new s s'.
Proof.
  intros Hwf Hi Hr. destruct (law_replace_fixed _ _ _ _ _ _ Hr Hwf) as (? & ? & ? & ?).
  split; try done; destruct o.
  - right. by destruct (law_committed _ _ _ _ _ Hwf Hi Hr) as (_ & ? & _).
  - left. by destruct (law_no_effect _ _ _ _ _ Hwf Hr).
  - by destruct (law_uncertain _ _ _ _ _ Hwf Hi Hr) as (_ & ? & _).
  - intros v Hv. right. by destruct (law_committed _ _ _ _ _ Hwf Hi Hr) as (_ & _ & Hs); apply Hs.
  - intros v Hv. left. by destruct (law_no_effect _ _ _ _ _ Hwf Hr) as [_ Hs]; apply Hs.
  - intros v Hv. by destruct (law_uncertain _ _ _ _ _ Hwf Hi Hr) as (_ & _ & Hs); apply Hs.
Qed.

Lemma commit_loop_sound token e new n : ∀ cur ios s,
  store_wf s → token = store_token s → invariants_hold new = true →
  ∃ r s', commit_loop token e new n cur ios s = Some (r, s') ∧ between new s s' ∧
    (r = Ok tt → store_view s' = Load_Exact new ∧
                 ∀ v, store_survives s' v → v = Load_Exact new).
Proof.
  induction n as [|n IH]; intros cur ios s Hwf -> Hi; cbn [commit_loop].
  { eexists _, _. split_and!; [done|by apply between_refl|done]. }
  destruct (law_replace_total (ios 0%nat) cur new s) as [[o s1] Hr]. rewrite Hr. cbn.
  pose proof (replace_between _ _ _ _ _ _ Hwf Hi Hr) as Hb.
  case_bool_decide as Hc.
  { subst o. eexists _, _. split_and!; [done..|]. intros _.
    by destruct (law_committed _ _ _ _ _ Hwf Hi Hr) as (_ & ? & ?). }
  destruct (next_expected _ _ _) as [cur'|er].
  - destruct (IH cur' (io_drop 2 ios) s1) as (r & s' & Hl & Hb' & Hok);
      [apply Hb|symmetry; apply Hb|done|].
    exists r, s'. split_and!; [done| |done]. by eapply between_trans.
  - by eexists _, _.
Qed.

(** The loop invariant: the next attempt is a write the store allows. *)
Lemma next_expected_allowed e new s0 s io cur :
  write_allowed (store_identity s0) (store_purpose s0) (store_view s0) e new →
  between new s0 s →
  next_expected e new (store_load io s) = Ok cur →
  write_allowed (store_identity s) (store_purpose s) (store_view s) cur new.
Proof.
  intros Hal [_ _ -> -> Hv _] Hn. destruct (law_load io s) as [Hl|Hl]; rewrite Hl in Hn; [|done].
  assert (store_view s = Load_Exact new →
    write_allowed (store_identity s0) (store_purpose s0) (store_view s) cur new) as Hnew.
  { intros Hvn. rewrite Hvn in Hn |- *. cbn in Hn. rewrite bool_decide_true in Hn by done.
    injection Hn as <-. by split; [|left]. }
  destruct Hv as [Hv|?]; [|by apply Hnew].
  destruct (store_view s) as [|r|] eqn:Hvs; cbn in Hn; [| |done].
  - rewrite Hv. destruct (e =? INITIAL_REVISION); [|done]. injection Hn as <-. by rewrite <-Hv in Hal |- *.
  - case_bool_decide as Hrn; [subst; by apply Hnew|].
    destruct (Z.eqb_spec (rec_revision r) e) as [Hre|]; [|done]. injection Hn as <-.
    by rewrite <-Hv in Hal.
Qed.

Lemma commit_loop_no_divergence e new s0 n : ∀ cur ios s r s',
  write_allowed (store_identity s0) (store_purpose s0) (store_view s0) e new →
  invariants_hold new = true → between new s0 s →
  commit_loop (store_token s0) e new n cur ios s = Some (r, s') →
  r ≠ Err CE_UnexpectedDivergence ∧
  (r = Err CE_RecordCorrupt → ∃ k s1, store_load (ios k) s1 ≠ store_view s1).
Proof.
  induction n as [|n IH]; intros cur ios s r s' Hal Hi Hb; cbn [commit_loop].
  { by intros [= <- <-]. }
  intros ([o s1] & Hr & Hrest)%bind_Some. rewrite <-(bt_token _ _ _ Hb) in Hr.
  pose proof (between_trans _ _ _ _ Hb (replace_between _ _ _ _ _ _ (bt_wf _ _ _ Hb) Hi Hr)) as Hb1.
  case_bool_decide; [by simplify_eq|].
  destruct (next_expected e new (store_load (ios 1%nat) s1)) as [cur'|er] eqn:Hn.
  - destruct (IH _ _ _ _ _ Hal Hi Hb1 Hrest) as [Hd Hc]. split; [done|].
    intros (k & s2 & Hk)%Hc. by exists (2 + k)%nat, s2.
  - injection Hrest as <- <-.
    destruct (law_load (ios 1%nat) s1) as [Hl|Hl]; rewrite Hl in Hn.
    + exfalso. destruct (bt_view _ _ _ Hb1) as [Hv|Hv]; rewrite Hv in Hn.
      * destruct (store_view s0) as [|x|]; cbn in Hal, Hn; [| |done].
        -- destruct Hal as [-> _]. done.
        -- destruct Hal as [Hre _]. case_bool_decide; [done|]. by rewrite Hre, Z.eqb_refl in Hn.
      * cbn in Hn. by rewrite bool_decide_true in Hn.
    + injection Hn as <-. split; [done|]. intros _. exists 1%nat, s1. rewrite Hl.
      destruct (bt_view _ _ _ Hb1) as [->| ->]; [|done]. by destruct (store_view s0).
Qed.

(** Every one of the [n] attempts left had a failing system call. *)
Fixpoint all_attempts_failed (e : Z) (new : MeshSignerControlRecordV1) (n : nat) (cur : Z)
    (ios : nat → Io) (s : S) : Prop :=
  match n with
  | O => True
  | Datatypes.S n =>
      ¬ io_clean s (ios 0%nat) ∧
      ∃ o s' cur', store_replace (store_token s) (ios 0%nat) cur new s = Some (o, s') ∧
        next_expected e new (store_load (ios 1%nat) s') = Ok cur' ∧
        all_attempts_failed e new n cur' (io_drop 2 ios) s'
  end.

Lemma commit_loop_exhausted e new s0 n : ∀ cur ios s s',
  write_allowed (store_identity s0) (store_purpose s0) (store_view s0) e new →
  rec_identity new = store_identity s0 → rec_purpose new = store_purpose s0 →
  invariants_hold new = true → store_codable new → between new s0 s →
  write_allowed (store_identity s) (store_purpose s) (store_view s) cur new →
  commit_loop (store_token s0) e new n cur ios s = Some (Err CE_RetryExhausted, s') →
  all_attempts_failed e new n cur ios s.
Proof.
  induction n as [|n IH]; intros cur ios s s' Hal Hid Hpu Hi Hc Hb Hcur; cbn; [done|].
  intros ([o s1] & Hr & Hrest)%bind_Some. rewrite <-(bt_token _ _ _ Hb) in Hr.
  pose proof (between_trans _ _ _ _ Hb (replace_between _ _ _ _ _ _ (bt_wf _ _ _ Hb) Hi Hr)) as Hb1.
  case_bool_decide as Ho; [by simplify_eq|]. split.
  - intros Hcl. destruct (law_progress (ios 0%nat) cur new s) as [s2 Hp]; try done;
      [apply Hb|rewrite Hid; symmetry; apply Hb|rewrite Hpu; symmetry; apply Hb|].
    rewrite Hr in Hp. by injection Hp as -> _.
  - destruct (next_expected e new (store_load (ios 1%nat) s1)) as [cur'|er] eqn:Hn.
    + exists o, s1, cur'. split_and!; [done..|]. eapply IH; try done.
      exact (next_expected_allowed _ _ _ _ _ _ Hal Hb1 Hn).
    + exfalso. injection Hrest as -> _. revert Hn. unfold next_expected.
      destruct (store_load _ _); repeat case_match; congruence.
Qed.
End proofs.

(** ** The properties *)

Section claims.
Context `{!Hashes} {S Io : Type} `{!AtomicControlRecordStore S Io, !StoreContract S Io}.
Implicit Types s : S.

(** Committing is sound on every store that keeps the contract, whatever
    fails. It always returns. [Ok] means durable: the new record is what every
    reader sees, now and after a crash. Any error leaves the old or the new
    record in both views, never anything else. *)
Theorem commit_new_bytes_sound e new n ios s :
  store_wf s → invariants_hold new = true →
  ∃ r s', commit_new_bytes (store_token s) e new n ios s = Some (r, s') ∧ store_wf s' ∧
    (store_view s' = store_view s ∨ store_view s' = Load_Exact new) ∧
    (∀ v, store_survives s' v → store_survives s v ∨ v = Load_Exact new) ∧
    (r = Ok tt → store_view s' = Load_Exact new ∧
                 ∀ v, store_survives s' v → v = Load_Exact new).
Proof.
  intros Hwf Hi. unfold commit_new_bytes.
  destruct (commit_loop_sound (store_token s) e new n e ios s Hwf eq_refl Hi)
    as (r & s' & Hr & [] & Hok).
  exists r, s'. by split_and!.
Qed.

(** The reread never finds a third record. When the write is one the
    store allows, [UnexpectedDivergence] is impossible however many attempts
    fail, and [RecordCorrupt] only reports a read that failed, not the disk. *)
Theorem commit_never_diverges e new n ios s r s' :
  store_wf s → invariants_hold new = true →
  write_allowed (store_identity s) (store_purpose s) (store_view s) e new →
  commit_new_bytes (store_token s) e new n ios s = Some (r, s') →
  r ≠ Err CE_UnexpectedDivergence ∧
  (r = Err CE_RecordCorrupt → ∃ k s1, store_load (ios k) s1 ≠ store_view s1).
Proof.
  intros Hwf Hi Hal Hr. eapply commit_loop_no_divergence; [done..| |exact Hr].
  by apply between_refl.
Qed.

(** Liveness. For an allowed write of an encodable record the loop gives
    up only after [max_attempts] attempts in every one of which a system call
    failed: one attempt without a failure commits. *)
Theorem commit_exhausts_only_on_faults e new n ios s s' :
  store_wf s → invariants_hold new = true → store_codable new →
  write_allowed (store_identity s) (store_purpose s) (store_view s) e new →
  rec_identity new = store_identity s → rec_purpose new = store_purpose s →
  commit_new_bytes (store_token s) e new n ios s = Some (Err CE_RetryExhausted, s') →
  all_attempts_failed e new n e ios s.
Proof.
  intros Hwf Hi Hc Hal Hid Hpu Hr. eapply commit_loop_exhausted; try done.
  by apply between_refl.
Qed.
End claims.

(** *** The properties at work *)

Section witnesses.
#[local] Existing Instance sample_hashes.
#[local] Existing Instance sample_ciborium.
#[local] Existing Instance sample_ciborium_laws.

Definition sample_store : FileStore := MkFileStore sample_fs sample_disk.

(** The directory fsync of the first attempt fails; the second succeeds. *)
Definition sample_ios (k : nat) : StoreIo :=
  match k with O => sample_io_fsync_fails | _ => sample_io end.

Lemma commit_new_bytes_sound_witness :
  ∃ s', commit_new_bytes 7 2 sample_active 8 sample_ios sample_store = Some (Ok tt, s') ∧
    store_view s' = Load_Exact sample_active.
Proof.
  destruct (commit_new_bytes_sound 2 sample_active 8 sample_ios sample_store)
    as (r & s' & Hr & _ & _ & _ & Hok).
  - exact sample_disk_wf.
  - by vm_compute.
  - exists s'. change (store_token sample_store) with 7 in Hr.
    assert (fst <$> commit_new_bytes 7 2 sample_active 8 sample_ios sample_store = Some (Ok tt))
      as Hf by (by vm_compute).
    rewrite Hr in Hf. injection Hf as ->. split; [exact Hr|exact (proj1 (Hok eq_refl))].
Defined.

Lemma sample_write_allowed :
  write_allowed (store_identity sample_store) (store_purpose sample_store)
    (store_view sample_store) 2 sample_active.
Proof.
  assert (store_view sample_store = Load_Exact sample_observed) as -> by (by vm_compute).
  split; [done|]. right. by split.
Qed.

Definition result_store (m : option (Result CommitError unit * FileStore)) : FileStore :=
  match m with Some (_, s) => s | None => sample_store end.

Lemma result_store_eq m r : fst <$> m = Some r → m = Some (r, result_store m).
Proof. destruct m as [[]|]; cbn; congruence. Qed.

Lemma commit_never_diverges_witness :
  (Ok tt : Result CommitError unit) ≠ Err CE_UnexpectedDivergence.
Proof.
  apply (commit_never_diverges 2 sample_active 8 sample_ios sample_store (Ok tt)
    (result_store (commit_new_bytes 7 2 sample_active 8 sample_ios sample_store))).
  - exact sample_disk_wf.
  - by vm_compute.
  - exact sample_write_allowed.
  - apply result_store_eq. by vm_compute.
Defined.

(** Two attempts, both with a failing directory fsync. *)
Lemma commit_exhausts_only_on_faults_witness :
  all_attempts_failed 2 sample_active 2 2 (λ _, sample_io_fsync_fails) sample_store.
Proof.
  apply (commit_exhausts_only_on_faults 2 sample_active 2 (λ _, sample_io_fsync_fails)
    sample_store
    (result_store (commit_new_bytes 7 2 sample_active 2 (λ _, sample_io_fsync_fails) sample_store))).
  - exact sample_disk_wf.
  - by vm_compute.
  - exact sample_active_codable.
  - exact sample_write_allowed.
  - reflexivity.
  - reflexivity.
  - apply result_store_eq. by vm_compute.
Defined.
End witnesses.
