(* ===== verification/Cell.v ===== *)
(** * The control record cell

    Models [mesh-session-control-model-rs/src/cell.rs]: the guard-gated,
    transition-mediated mutation of a stored record, the privileged
    transitions only crate-internal callers may commit, and the process-wide
    registry that keeps one live cell per path. *)

From stdpp Require Import base gmap sets list strings.
From Stdlib Require Import ZArith Lia Ascii.
From S2P Require Import Prelude.
From S2P Require Import ControlRecord.
From S2P Require Import Transition.
From S2P Require Import TransitionInv.
From S2P Require Import TransitionEffect.
From S2P Require Import TransitionSpec.
From S2P Require Import Samples.
From S2P Require Import Codec.
From S2P Require Import StoreSpec.
From S2P Require Import Store.
From S2P Require Import StoreProofs.
From S2P Require Import Commit.

Open Scope Z_scope.

Inductive CommitTransitionError :=
| CTE_NoRecord
| CTE_RecordCorrupt
| CTE_Transition (e : TransitionError)
| CTE_Commit (e : CommitError)
| CTE_PrivilegedTransition.

Definition is_privileged (t : RecordTransition) : bool :=
  match t with
  | ActivateFromKeyObserved _ _ | GcInspected _ _ | GcInspectionConflict _
  | GcResolved _ _ _ | GcRemoval _ _ => true
  | _ => false
  end.

(** The attempts [commit] and [commit_built_impl] allow. *)
Definition COMMIT_ATTEMPTS : nat := 8.

Section cell.
Context `{!Hashes} {S Io : Type} `{!AtomicControlRecordStore S Io}.

(** Applies a transition to the loaded base and commits the result. *)
Definition apply_and_commit (token : Z) (base : MeshSignerControlRecordV1) (t : RecordTransition)
    (now : Z) (max_cap : nat) (ios : nat → Io) (s : S)
    : option (Result CommitTransitionError MeshSignerControlRecordV1 * S) :=
  match apply base t now max_cap with
  | Err e => Some (Err (CTE_Transition e), s)
  | Ok new =>
      '(r, s) ← commit_new_bytes token (rec_revision base) new COMMIT_ATTEMPTS ios s;
      Some (match r with Ok _ => Ok new | Err e => Err (CTE_Commit e) end, s)
  end.

(** The first I/O behaviour is the load's, the rest are the commit's. *)
Definition commit (token : Z) (t : RecordTransition) (now : Z) (max_cap : nat)
    (ios : nat → Io) (s : S)
    : option (Result CommitTransitionError MeshSignerControlRecordV1 * S) :=
  if is_privileged t then Some (Err CTE_PrivilegedTransition, s)
  else match store_load (ios 0%nat) s with
       | Load_Exact base => apply_and_commit token base t now max_cap (io_drop 1 ios) s
       | Load_Missing => Some (Err CTE_NoRecord, s)
       | Load_Corrupt => Some (Err CTE_RecordCorrupt, s)
       end.

Definition commit_built_impl (token : Z)
    (build : MeshSignerControlRecordV1 → option RecordTransition) (now : Z) (max_cap : nat)
    (ios : nat → Io) (s : S)
    : option (Result CommitTransitionError (option MeshSignerControlRecordV1) * S) :=
  match store_load (ios 0%nat) s with
  | Load_Exact base =>
      match build base with
      | None => Some (Ok None, s)
      | Some t =>
          '(r, s) ← apply_and_commit token base t now max_cap (io_drop 1 ios) s;
          Some (match r with Ok new => Ok (Some new) | Err e => Err e end, s)
      end
  | Load_Missing => Some (Err CTE_NoRecord, s)
  | Load_Corrupt => Some (Err CTE_RecordCorrupt, s)
  end.

Definition commit_built_privileged := commit_built_impl.

Definition seed_for_test (token : Z) (io : Io) (expected_revision : Z)
    (record : MeshSignerControlRecordV1) (s : S) : option (ReplaceOutcome * S) :=
  store_replace token io expected_revision record s.
End cell.

(** ** The registry *)

(** A path: its bytes, and its parent and file name when it has both. *)
Record Path := MkPath {
  p_raw : bytes;
  p_split : option (bytes * bytes);
}.

(** [Path::join] of a relative file name. *)
Definition path_join (parent file_name : bytes) : bytes :=
  match last parent with
  | Some c => if bool_decide (c = "/"%char) then parent ++ file_name
              else parent ++ "/"%char :: file_name
  | None => file_name
  end.

(** [Path::canonicalize] asks the file system: a parameter. *)
Definition registry_key (canonicalize : bytes → option bytes) (path : Path) : bytes :=
  match p_split path with
  | None => p_raw path
  | Some (parent, file_name) =>
      match canonicalize parent with
      | Some canon_parent => path_join canon_parent file_name
      | None => p_raw path
      end
  end.

(** A registered cell: a weak reference and what it was built for. *)
Record Registered := MkRegistered {
  reg_cell : nat;
  reg_identity : ControlIdentity;
  reg_purpose : PurposeId;
}.

(** The process: the registry, the cells with a strong reference left, what
    each cell ever opened was built for, and the next fresh cell. *)
Record Process := MkProcess {
  proc_registry : gmap (list Ascii.ascii) Registered;
  proc_live : gset nat;
  proc_cells : gmap nat (list Ascii.ascii * ControlIdentity * PurposeId);
  proc_next : nat;
}.

Definition process_new : Process := MkProcess ∅ ∅ ∅ 0.

Inductive OpenConflict := MkOpenConflict.

Definition open (key : bytes) (identity : ControlIdentity) (purpose : PurposeId) (p : Process)
    : Result OpenConflict nat * Process :=
  let fresh :=
    (Ok (proc_next p),
     MkProcess (<[key:=MkRegistered (proc_next p) identity purpose]> (proc_registry p))
       ({[proc_next p]} ∪ proc_live p)
       (<[proc_next p:=(key, identity, purpose)]> (proc_cells p)) (Datatypes.S (proc_next p))) in
  match proc_registry p !! key with
  | Some existing =>
      if bool_decide (reg_cell existing ∈ proc_live p) then
        if bool_decide (reg_identity existing ≠ identity)
           || bool_decide (reg_purpose existing ≠ purpose)
        then (Err MkOpenConflict, p)
        else (Ok (reg_cell existing), p)
      else fresh
  | None => fresh
  end.

(** The last strong reference to a cell is dropped. *)
Definition drop_cell (c : nat) (p : Process) : Process :=
  MkProcess (proc_registry p) (proc_live p ∖ {[c]}) (proc_cells p) (proc_next p).

Inductive pstep : Process → Process → Prop :=
| pstep_open key identity purpose p r p' :
    open key identity purpose p = (r, p') → pstep p p'
| pstep_drop c p : pstep p (drop_cell c p).

(** Every live cell is the one registered under its own key. *)
Record RegistryInv (p : Process) : Prop := {
  ri_registered : ∀ c key identity purpose,
    c ∈ proc_live p → proc_cells p !! c = Some (key, identity, purpose) →
    proc_registry p !! key = Some (MkRegistered c identity purpose);
  ri_known : ∀ c, c ∈ proc_live p → is_Some (proc_cells p !! c);
  ri_fresh : ∀ c, c ∈ proc_live p → (c < proc_next p)%nat;
  ri_cells_fresh : ∀ c, is_Some (proc_cells p !! c) → (c < proc_next p)%nat;
  ri_entries : ∀ key e, proc_registry p !! key = Some e →
    proc_cells p !! reg_cell e = Some (key, reg_identity e, reg_purpose e);
}.

Lemma process_new_inv : RegistryInv process_new.
Proof.
  split; cbn; [by intros ? ? ? ? ?%not_elem_of_empty|by intros ? ?%not_elem_of_empty..| |].
  - intros c [x Hx]. by rewrite lookup_empty in Hx.
  - intros key e He. by rewrite lookup_empty in He.
Qed.

Lemma open_fresh_inv p key identity purpose :
  RegistryInv p →
  (∀ e, proc_registry p !! key = Some e → reg_cell e ∉ proc_live p) →
  RegistryInv (MkProcess (<[key:=MkRegistered (proc_next p) identity purpose]> (proc_registry p))
       ({[proc_next p]} ∪ proc_live p)
       (<[proc_next p:=(key, identity, purpose)]> (proc_cells p)) (Datatypes.S (proc_next p))).
Proof.
  intros [HR HK HF HC HE] Hdead. split; cbn.
  - intros c k i q [->%elem_of_singleton|Hc]%elem_of_union Hcell.
    + rewrite lookup_insert_eq in Hcell. simplify_eq. by rewrite lookup_insert_eq.
    + assert (c ≠ proc_next p) by (pose proof (HF c Hc); lia).
      rewrite lookup_insert_ne in Hcell by done. pose proof (HR _ _ _ _ Hc Hcell) as Hreg.
      rewrite lookup_insert_ne; [done|]. intros <-. by apply (Hdead _ Hreg).
  - intros c [->%elem_of_singleton|Hc]%elem_of_union; [by rewrite lookup_insert_eq|].
    destruct (decide (c = proc_next p)) as [->|]; [by rewrite lookup_insert_eq|].
    rewrite lookup_insert_ne by done. auto.
  - intros c [->%elem_of_singleton|Hc]%elem_of_union; [lia|]. pose proof (HF c Hc). lia.
  - intros c Hc. destruct (decide (c = proc_next p)) as [->|]; [lia|].
    rewrite lookup_insert_ne in Hc by done. pose proof (HC c Hc). lia.
  - intros k e He. destruct (decide (k = key)) as [->|].
    + rewrite lookup_insert_eq in He. simplify_eq. cbn. by rewrite lookup_insert_eq.
    + rewrite lookup_insert_ne in He by done. pose proof (HE _ _ He) as Hcell.
      rewrite lookup_insert_ne; [done|].
      pose proof (HC (reg_cell e) ltac:(eauto)). lia.
Qed.

Lemma open_inv p key identity purpose r p' :
  RegistryInv p → open key identity purpose p = (r, p') → RegistryInv p'.
Proof.
  intros Hi. unfold open. destruct (proc_registry p !! key) as [e|] eqn:He.
  - case_bool_decide as Hlive.
    + destruct (_ || _); by intros [= _ <-].
    + intros [= _ <-]. apply open_fresh_inv; [done|]. intros ? ?. by simplify_eq.
  - intros [= _ <-]. apply open_fresh_inv; [done|]. intros ? ?. by simplify_eq.
Qed.

Lemma drop_cell_inv c p : RegistryInv p → RegistryInv (drop_cell c p).
Proof.
  intros [HR HK HF HC HE]. split; cbn; [|intros x [? _]%elem_of_difference; auto..|done|done].
  intros x k i q [Hx _]%elem_of_difference. by apply HR.
Qed.

Lemma psteps_inv p p' : rtc pstep p p' → RegistryInv p → RegistryInv p'.
Proof.
  induction 1 as [|x y z [] _ IH]; [done| |]; eauto using open_inv, drop_cell_inv.
Qed.

(** ** Committing a transition *)

Section cell_proofs.
Context `{!Hashes, !HashLaws} {S Io : Type} `{!AtomicControlRecordStore S Io, !StoreContract S Io}.
Implicit Types s : S.

Lemma Inv_invariants_hold r : Inv r → invariants_hold r = true.
Proof. intros []. by apply invariants_hold_Consistent. Qed.

(** What [apply] returns is a write the store allows. *)
Lemma apply_write_allowed base t now cap new identity purpose :
  Inv base → transition_wf t → evidence_ok base t → apply base t now cap = Ok new →
  write_allowed identity purpose (Load_Exact base) (rec_revision base) new.
Proof.
  intros Hi Hwf Hev Hok. split; [done|].
  pose proof (apply_Inv _ _ _ _ _ Hi Hwf Hev Hok) as Hi'.
  destruct (inv_wf _ Hi') as (_ & Hrev & _). unfold in_u64 in Hrev.
  apply apply_Ok in Hok as [[_ ->]|(_ & rm & Harm & _)]; [by left|].
  apply apply_arm_effect in Harm; [|by eauto using Inv_pending_generation].
  apply effect_revision in Harm as [->|Heq]; [by left|]. right. split; [lia|].
  symmetry. apply checked_add_Some. lia.
Qed.

(** The result and the store after [apply_and_commit], with base loaded. *)
Lemma apply_and_commit_spec base t now cap ios s :
  store_wf s → store_view s = Load_Exact base → Inv base → transition_wf t → evidence_ok base t →
  ∃ res s', apply_and_commit (store_token s) base t now cap ios s = Some (res, s') ∧
    match apply base t now cap with
    | Err e => res = Err (CTE_Transition e) ∧ s' = s
    | Ok new =>
        between new s s' ∧
        ((res = Ok new ∧ store_view s' = Load_Exact new ∧
          ∀ v, store_survives s' v → v = Load_Exact new) ∨
         ∃ e, res = Err (CTE_Commit e) ∧ e ≠ CE_UnexpectedDivergence)
    end.
Proof.
  intros Hwf Hv Hi Hwt Hev. unfold apply_and_commit.
  destruct (apply base t now cap) as [new|e] eqn:Hap; [|by eexists _, _].
  pose proof (apply_Inv _ _ _ _ _ Hi Hwt Hev Hap) as Hi'.
  pose proof (Inv_invariants_hold _ Hi') as Hh.
  destruct (commit_loop_sound (store_token s) (rec_revision base) new COMMIT_ATTEMPTS
    (rec_revision base) ios s Hwf eq_refl Hh) as (r & s' & Hr & Hb & Hok).
  unfold commit_new_bytes. rewrite Hr. cbn. eexists _, s'. split; [done|]. split; [done|].
  destruct r as [[]|e].
  - left. by destruct (Hok eq_refl).
  - right. exists e. split; [done|]. intros ->.
    eapply (commit_loop_no_divergence _ _ s); [| | |exact Hr|reflexivity].
    + rewrite Hv. by eapply apply_write_allowed.
    + done.
    + by apply between_refl.
Qed.

(** The same for a transition built against the fresh record. *)
Lemma commit_built_spec build fresh now cap ios s :
  store_wf s → store_view s = Load_Exact fresh → Inv fresh →
  (∀ t, build fresh = Some t → transition_wf t ∧ evidence_ok fresh t) →
  ∃ res s', commit_built_privileged (store_token s) build now cap ios s = Some (res, s') ∧
    ((s' = s ∧ (is_ok res = false ∨ (res = Ok None ∧ build fresh = None))) ∨
     ∃ t new, build fresh = Some t ∧ apply fresh t now cap = Ok new ∧ between new s s' ∧
       (is_ok res = false ∨ (res = Ok (Some new) ∧ store_view s' = Load_Exact new ∧
          ∀ v, store_survives s' v → v = Load_Exact new))).
Proof.
  intros Hwf Hv Hi Hb. unfold commit_built_privileged, commit_built_impl.
  destruct (law_load (ios 0%nat) s) as [Hl|Hl]; [|rewrite Hl; eexists _, s; split; [done|]; left; split; [done|by left]].
  rewrite Hl, Hv. destruct (build fresh) as [t|] eqn:Ht; 
    [|eexists _, s; split; [done|]; left; split; [done|by right]].
  destruct (Hb t eq_refl) as [Hwt Hev].
  destruct (apply_and_commit_spec fresh t now cap (io_drop 1 ios) s) as (res & s' & Hr & Hm);
    [done..|].
  rewrite Hr. cbn. eexists _, s'. split; [done|].
  destruct (apply fresh t now cap) as [new|e] eqn:Hap; 
    [|destruct Hm as [-> ->]; left; split; [done|by left]].
  right. exists t, new. destruct Hm as [Hbt [(-> & ? & ?)|(e & -> & _)]]; split_and!; try done;
    [by right|by left].
Qed.
End cell_proofs.

(** ** A cell through commits and crashes *)

Section lifetimes.
Context `{!Hashes, !HashLaws, !Ciborium, !CiboriumLaws}.
Implicit Types s : FileStore.

(** A store whose record, and whatever record a crash may leave, extends the
    history of [r0]. *)
Definition extends_history (r0 : MeshSignerControlRecordV1) (v : LoadOutcome) : Prop :=
  ∃ r, v = Load_Exact r ∧ rtc rstep r0 r.

Record healthy (r0 : MeshSignerControlRecordV1) s : Prop := {
  he_wf : disk_wf (st_disk s);
  he_view : extends_history r0 (view (st_fs s) (st_disk s));
  he_survives : ∀ v, survives (st_fs s) (st_disk s) v → extends_history r0 v;
}.

(** What a cell and its machine do: commits, crate-internal commits built
    with backend evidence, sweeps, and crashes with a restart. *)
Inductive cstep : FileStore → FileStore → Prop :=
| cstep_commit t now cap ios s res s' :
    transition_wf t → commit (store_token s) t now cap ios s = Some (res, s') → cstep s s'
| cstep_built build now cap ios s res s' :
    (∀ base t, Inv base → build base = Some t → transition_wf t ∧ evidence_ok base t) →
    commit_built_privileged (store_token s) build now cap ios s = Some (res, s') → cstep s s'
| cstep_sweep io s s' : store_sweep (store_token s) io s = Some s' → cstep s s'
| cstep_crash s dir :
    dir ∈ d_pending (st_disk s) →
    cstep s (MkFileStore (st_fs s) (restarted (st_disk s) dir)).

Lemma healthy_between r0 base new s s' :
  healthy r0 s → rtc rstep r0 base → rstep base new → between new s s' → healthy r0 s'.
Proof.
  intros [Hwf Hv Hs] Hr Hst [Hwf' _ _ _ Hv' Hs']. cbn in Hwf', Hv', Hs'.
  assert (extends_history r0 (Load_Exact new)) as Hn.
  { exists new. split; [done|]. by eapply rtc_r. }
  split; [done| |].
  - destruct Hv' as [->| ->]; done.
  - intros v Hv1. destruct (Hs' v Hv1) as [?| ->]; auto.
Qed.

Lemma healthy_apply_and_commit r0 base t now cap ios s res s' :
  Inv r0 → healthy r0 s → view (st_fs s) (st_disk s) = Load_Exact base →
  transition_wf t → evidence_ok base t →
  apply_and_commit (store_token s) base t now cap ios s = Some (res, s') → healthy r0 s'.
Proof.
  intros Hi0 Hh Hv Hwt Hev Hr. pose proof (he_view _ _ Hh) as (b & Hb & Hsteps).
  rewrite Hv in Hb. injection Hb as <-. pose proof (rsteps_Inv _ _ Hsteps Hi0) as Hi.
  pose proof (apply_and_commit_spec (S:=FileStore) base t now cap ios s) as Hspec.
  destruct (Hspec (he_wf _ _ Hh) Hv Hi Hwt Hev) as (res' & s'' & Hr' & Hm).
  rewrite Hr in Hr'. injection Hr' as <- <-.
  destruct (apply base t now cap) as [new|e] eqn:Hap; [|by destruct Hm as [_ ->]].
  destruct Hm as [Hbt _]. eapply healthy_between; [done..| |done]. by econstructor.
Qed.

Lemma load_Exact_view s io base :
  store_load io s = Load_Exact base → view (st_fs s) (st_disk s) = Load_Exact base.
Proof. intros Hl. destruct (law_load io s) as [Heq|Heq]; cbn in *; congruence. Qed.

Lemma unprivileged_evidence base t : is_privileged t = false → evidence_ok base t.
Proof. by destruct t. Qed.

Lemma healthy_crash r0 s dir :
  healthy r0 s → dir ∈ d_pending (st_disk s) →
  healthy r0 (MkFileStore (st_fs s) (restarted (st_disk s) dir)).
Proof.
  intros [Hwf Hv Hs] Hdir.
  destruct (dir !! fs_name (st_fs s)) as [n|] eqn:Hn.
  - assert (n_synced n = true) as Hsy.
    { destruct (n_synced n) eqn:Hns; [done|]. exfalso.
      destruct (Hs Load_Corrupt) as (r & [=] & _). exists dir. by rewrite Hn, Hns. }
    assert (extends_history r0 (view (st_fs s) (restarted (st_disk s) dir))) as Hv'.
    { apply Hs. exists dir. by rewrite Hn. }
    split; [split; [left|apply Hwf]|done|]. cbn.
    intros v (d' & Hd'%list_elem_of_singleton & Hsv). subst d'. rewrite Hn in Hsv.
    by rewrite Hsv.
  - assert (extends_history r0 (view (st_fs s) (restarted (st_disk s) dir))) as Hv'.
    { apply Hs. exists dir. by rewrite Hn. }
    split; [split; [left|apply Hwf]|done|]. cbn.
    intros v (d' & Hd'%list_elem_of_singleton & Hsv). subst d'. rewrite Hn in Hsv.
    by rewrite Hsv.
Qed.

Lemma healthy_step r0 s s' : Inv r0 → healthy r0 s → cstep s s' → healthy r0 s'.
Proof.
  intros Hi0 Hh Hst. revert Hh.
  destruct Hst as [t now cap ios s res s' Hwt Hc|build now cap ios s res s' Hb Hc|io s s' Hsw|s dir Hd];
    intros Hh.
  - unfold commit in Hc. destruct (is_privileged t) eqn:Hp; [by simplify_eq|].
    destruct (store_load (ios 0%nat) s) as [|base|] eqn:Hl; [by simplify_eq| |by simplify_eq].
    eapply healthy_apply_and_commit; [done..| | | |exact Hc];
      eauto using load_Exact_view, unprivileged_evidence.
  - unfold commit_built_privileged, commit_built_impl in Hc.
    destruct (store_load (ios 0%nat) s) as [|base|] eqn:Hl; [by simplify_eq| |by simplify_eq].
    destruct (build base) as [t|] eqn:Ht; [|by simplify_eq].
    apply bind_Some in Hc as ([r s1] & Hr & [= _ <-]). apply load_Exact_view in Hl.
    destruct (he_view _ _ Hh) as (x & Hx & Hsx). rewrite Hl in Hx. injection Hx as <-.
    destruct (Hb _ _ (rsteps_Inv _ _ Hsx Hi0) Ht).
    eapply healthy_apply_and_commit; [done..| | | |exact Hr]; eauto using load_Exact_view.
  - cbn in Hsw. apply fmap_Some in Hsw as (d' & Hsw & ->).
    pose proof (sweep_evolves _ _ _ _ _ (proj1 (he_wf _ _ Hh)) Hsw) as He.
    split; cbn.
    + split; [by eapply evolves_here|]. destruct He as [-> -> _ _ _ _]. apply Hh.
    + rewrite (evolves_unchanged_view _ _ _ He). apply Hh.
    + intros v Hv. apply Hh. by eapply evolves_unchanged_survives; [apply Hh|..].
  - by apply healthy_crash.
Qed.

Lemma healthy_steps r0 s s' : Inv r0 → healthy r0 s → rtc cstep s s' → healthy r0 s'.
Proof. intros Hi0 Hh Hs. induction Hs; [done|]. eauto using healthy_step. Qed.

(** Nothing that happens to a store changes what it is bound to. *)
Lemma commit_loop_fs token e new n : ∀ cur ios s r s',
  commit_loop token e new n cur ios s = Some (r, s') → st_fs s' = st_fs s.
Proof.
  induction n as [|n IH]; intros cur ios s r s' Hr; cbn [commit_loop] in Hr; [by simplify_eq|].
  apply bind_Some in Hr as ([o s1] & Hs1 & Hr).
  assert (st_fs s1 = st_fs s) as Hfs
    by (cbn in Hs1; unfold file_replace in Hs1; by apply bind_Some in Hs1 as ([? ?] & _ & [= _ <-])).
  case_bool_decide; [by simplify_eq|].
  destruct (next_expected _ _ _); [|by simplify_eq]. rewrite <-Hfs. by eapply IH.
Qed.

Lemma apply_and_commit_fs token base t now cap ios s r s' :
  apply_and_commit token base t now cap ios s = Some (r, s') → st_fs s' = st_fs s.
Proof.
  unfold apply_and_commit. destruct (apply base t now cap); [|by intros [= _ <-]].
  intros ([? ?] & Hc & [= _ <-])%bind_Some. by eapply commit_loop_fs.
Qed.

Lemma cstep_fs s s' : cstep s s' → st_fs s' = st_fs s.
Proof.
  destruct 1 as [t now cap ios s res s' _ Hc|build now cap ios s res s' _ Hc|io s s' Hsw|]; [| | |done].
  - unfold commit in Hc. destruct (is_privileged t); [by simplify_eq|].
    destruct (store_load _ s); [by simplify_eq| |by simplify_eq]. by eapply apply_and_commit_fs.
  - unfold commit_built_privileged, commit_built_impl in Hc.
    destruct (store_load _ s); [by simplify_eq| |by simplify_eq].
    destruct (build r); [|by simplify_eq].
    apply bind_Some in Hc as ([? ?] & Hc & [= _ <-]). by eapply apply_and_commit_fs.
  - cbn in Hsw. by apply fmap_Some in Hsw as (? & _ & ->).
Qed.

Lemma csteps_fs s s' : rtc cstep s s' → st_fs s' = st_fs s.
Proof. induction 1 as [|? ? ? Hs%cstep_fs _ IH]; congruence. Qed.
End lifetimes.

(** ** The properties *)

(** C32: a commit through the cell is one transition of the record, or none.
    On any store that keeps the contract and whatever fails, it returns, and
    the visible record is the base or what [apply] made of it. [Ok] returns
    exactly that record, durable. A transition that claims backend evidence
    is refused without touching the store. *)
Theorem cell_commit_refines `{!Hashes, !HashLaws} {S Io : Type}
    `{!AtomicControlRecordStore S Io, !StoreContract S Io} t now cap ios (s : S) base :
  store_wf s → store_view s = Load_Exact base → Inv base → transition_wf t →
  ∃ res s' r', commit (store_token s) t now cap ios s = Some (res, s') ∧ store_wf s' ∧
    store_view s' = Load_Exact r' ∧ (r' = base ∨ apply base t now cap = Ok r') ∧ rtc rstep base r' ∧
    (∀ v, store_survives s' v → store_survives s v ∨
       ∃ new, v = Load_Exact new ∧ apply base t now cap = Ok new) ∧
    (∀ new, res = Ok new → is_privileged t = false ∧ apply base t now cap = Ok new ∧ r' = new ∧
       ∀ v, store_survives s' v → v = Load_Exact new) ∧
    (is_privileged t = true → res = Err CTE_PrivilegedTransition ∧ s' = s).
Proof.
  intros Hwf Hv Hi Hwt. unfold commit. destruct (is_privileged t) eqn:Hp.
  { eexists _, s, base. split; [done|]. split_and!; auto; done. }
  destruct (store_load (ios 0%nat) s) as [|b|] eqn:Hl.
  - eexists _, s, base. split; [done|]. split_and!; auto; done.
  - destruct (law_load (ios 0%nat) s) as [Heq|Heq]; rewrite Hl in Heq; [|done].
    rewrite Hv in Heq. injection Heq as ->.
    destruct (apply_and_commit_spec base t now cap (io_drop 1 ios) s)
      as (res & s' & Hr & Hm); [done..|by apply unprivileged_evidence|].
    rewrite Hr. destruct (apply base t now cap) as [new|e] eqn:Hap.
    + destruct Hm as [Hb Hres]. destruct (bt_view _ _ _ Hb) as [Hv'|Hv'].
      * exists res, s', base. rewrite Hv', Hv. split_and!; try done; [apply Hb|by left| |].
        -- intros v Hsv. destruct (bt_survives _ _ _ Hb _ Hsv); eauto.
        -- intros n ->. destruct Hres as [([= <-] & Hvn & Hs)|(? & [=] & _)].
           split_and!; try done. congruence.
      * exists res, s', new. split_and!; try done; [apply Hb|by right| | |].
        -- eapply rtc_l; [|done]. econstructor; [done| |done]. by apply unprivileged_evidence.
        -- intros v Hsv. destruct (bt_survives _ _ _ Hb _ Hsv); eauto.
        -- intros n ->. by destruct Hres as [([= <-] & Hvn & Hs)|(? & [=] & _)].
    + destruct Hm as [-> ->]. eexists _, s, base. split; [done|]. split_and!; auto; done.
  - eexists _, s, base. split; [done|]. split_and!; auto; done.
Qed.

(** C20: durability through crashes. Once [commit] returned [Ok new], every
    later state of the machine (more commits that fail anywhere, sweeps, and
    crashes that surface any directory state since the last fsync) holds a
    consistent record whose history extends [new]: it is never lost, torn or
    rolled back. *)
Theorem committed_record_survives `{!Hashes, !HashLaws, !Ciborium, !CiboriumLaws}
    t now cap ios s base new s1 s2 :
  disk_wf (st_disk s) → view (st_fs s) (st_disk s) = Load_Exact base → Inv base →
  transition_wf t → commit (store_token s) t now cap ios s = Some (Ok new, s1) →
  rtc cstep s1 s2 →
  ∃ r, view (st_fs s2) (st_disk s2) = Load_Exact r ∧ rtc rstep new r ∧ Inv r.
Proof.
  intros Hwf Hv Hi Hwt Hc Hs. unfold commit in Hc. destruct (is_privileged t) eqn:Hp; [done|].
  destruct (store_load (ios 0%nat) s) as [|b|] eqn:Hl; [done| |done].
  apply load_Exact_view in Hl. rewrite Hv in Hl. injection Hl as <-.
  pose proof (unprivileged_evidence base t Hp) as Hev.
  pose proof (apply_and_commit_spec (S:=FileStore) base t now cap (io_drop 1 ios) s) as Hspec.
  destruct (Hspec Hwf Hv Hi Hwt Hev) as (res & s' & Hr & Hm). rewrite Hc in Hr. injection Hr as <- <-.
  destruct (apply base t now cap) as [n|e] eqn:Hap; [|by destruct Hm].
  destruct Hm as [Hb [([= <-] & Hvn & Hsv)|(? & [=] & _)]].
  pose proof (apply_Inv _ _ _ _ _ Hi Hwt Hev Hap) as Hin.
  assert (healthy new s1) as Hh.
  { split; [apply Hb|by exists new|]. intros v Hv1. exists new. by rewrite (Hsv v Hv1). }
  destruct (healthy_steps _ _ _ Hin Hh Hs) as [_ (r & Hr & Hsteps) _].
  exists r. split_and!; [done..|]. by eapply rsteps_Inv.
Qed.

(** One live cell per path. In every history of opens and drops, two live
    cells opened under the same key are the same cell, built for the identity
    and purpose on record; opening a live path for another identity or
    purpose is refused and changes nothing. *)
Theorem registry_single_live_cell p key identity purpose r p' :
  rtc pstep process_new p → open key identity purpose p = (r, p') →
  (∀ c c' i i' q q', c ∈ proc_live p' → c' ∈ proc_live p' →
     proc_cells p' !! c = Some (key, i, q) → proc_cells p' !! c' = Some (key, i', q') →
     c = c' ∧ i = i' ∧ q = q') ∧
  (∀ c, r = Ok c → c ∈ proc_live p' ∧ proc_cells p' !! c = Some (key, identity, purpose)) ∧
  (r = Err MkOpenConflict → p' = p ∧ ∃ c i q, c ∈ proc_live p ∧
     proc_cells p !! c = Some (key, i, q) ∧ (i ≠ identity ∨ q ≠ purpose)).
Proof.
  intros Hs Ho. pose proof (psteps_inv _ _ Hs process_new_inv) as Hi.
  pose proof (open_inv _ _ _ _ _ _ Hi Ho) as Hi'. split_and!.
  - intros c c' i i' q q' Hc Hc' Hcell Hcell'.
    pose proof (ri_registered _ Hi' _ _ _ _ Hc Hcell) as H1.
    pose proof (ri_registered _ Hi' _ _ _ _ Hc' Hcell') as H2.
    rewrite H1 in H2. by simplify_eq.
  - intros c ->. unfold open in Ho. destruct (proc_registry p !! key) as [e|] eqn:He.
    + case_bool_decide as Hlive.
      * destruct (_ || _) eqn:Hm; [done|]. injection Ho as <- <-.
        apply orb_false_iff in Hm as [H1%bool_decide_eq_false H2%bool_decide_eq_false].
        apply dec_stable in H1, H2. subst. split; [done|]. by apply Hi.
      * injection Ho as <- <-. cbn. by rewrite lookup_insert_eq; split; [set_solver|].
    + injection Ho as <- <-. cbn. by rewrite lookup_insert_eq; split; [set_solver|].
  - intros ->. unfold open in Ho. destruct (proc_registry p !! key) as [e|] eqn:He; [|done].
    case_bool_decide as Hlive; [|done]. destruct (_ || _) eqn:Hm; [|done]. injection Ho as <-.
    split; [done|]. exists (reg_cell e), (reg_identity e), (reg_purpose e).
    split_and!; [done|by apply Hi|].
    apply orb_true_iff in Hm as [?%bool_decide_eq_true|?%bool_decide_eq_true]; auto.
Qed.

(** *** The properties at work *)

Section witnesses.
#[local] Existing Instance sample_hashes.
#[local] Existing Instance sample_hash_laws.
#[local] Existing Instance sample_ciborium.
#[local] Existing Instance sample_ciborium_laws.

Definition sample_revocation : RecordTransition := RevokeUrgent Reason_Compromised (sample_txn 2).

(** A store that holds [sample_intent]. *)
Definition sample_intent_dir : Dir :=
  {[as_bytes "record.cbor" := MkNode (MkMeta false true 1 501 384) ["001"%char] true]}.

Definition sample_intent_store : FileStore :=
  MkFileStore sample_fs
    (MkDisk (Some (MkMeta true false 2 501 448)) 501 sample_intent_dir [sample_intent_dir] []).

Lemma sample_intent_store_wf : disk_wf (st_disk sample_intent_store).
Proof. split; [left|]. by intros m [= <-]. Qed.

Lemma sample_intent_store_view :
  view (st_fs sample_intent_store) (st_disk sample_intent_store) = Load_Exact sample_intent.
Proof. by vm_compute. Qed.

Definition sample_commit := commit 7 sample_revocation 10 4 (io_drop 1 sample_ios) sample_intent_store.

Lemma sample_commit_ok : fst <$> sample_commit = Some (Ok sample_preempted).
Proof. by vm_compute. Qed.

Lemma cell_commit_refines_witness :
  ∃ s', sample_commit = Some (Ok sample_preempted, s') ∧
    store_view s' = Load_Exact sample_preempted.
Proof.
  destruct (cell_commit_refines (S:=FileStore) sample_revocation 10 4 (io_drop 1 sample_ios)
    sample_intent_store sample_intent) as (res & s' & r' & Hc & _ & Hv & _ & _ & _ & Hok & _).
  - exact sample_intent_store_wf.
  - exact sample_intent_store_view.
  - exact sample_intent_Inv.
  - exact I.
  - change (sample_commit = Some (res, s')) in Hc. pose proof sample_commit_ok as Hf.
    rewrite Hc in Hf. injection Hf as ->. destruct (Hok _ eq_refl) as (_ & _ & -> & _).
    exists s'. split; [exact Hc|exact Hv].
Defined.

Definition sample_committed_store : FileStore :=
  match sample_commit with Some (_, s) => s | None => sample_intent_store end.

Lemma committed_record_survives_witness :
  ∃ r, view (st_fs sample_committed_store) (st_disk sample_committed_store) = Load_Exact r ∧
    rtc rstep sample_preempted r ∧ Inv r.
Proof.
  apply (committed_record_survives sample_revocation 10 4 (io_drop 1 sample_ios)
    sample_intent_store sample_intent sample_preempted sample_committed_store).
  - exact sample_intent_store_wf.
  - exact sample_intent_store_view.
  - exact sample_intent_Inv.
  - exact I.
  - change (sample_commit = Some (Ok sample_preempted, sample_committed_store)).
    pose proof sample_commit_ok as Hf. unfold sample_committed_store.
    destruct sample_commit as [[r s]|]; [|done]. cbn in Hf. injection Hf as ->. reflexivity.
  - apply rtc_refl.
Defined.

Lemma registry_single_live_cell_witness :
  (open (as_bytes "k") sample_identity PurposeId_RosterSync
     (open (as_bytes "k") sample_identity PurposeId_MeshSession process_new).2).2 =
  (open (as_bytes "k") sample_identity PurposeId_MeshSession process_new).2.
Proof.
  apply (registry_single_live_cell
    (open (as_bytes "k") sample_identity PurposeId_MeshSession process_new).2 (as_bytes "k")
    sample_identity PurposeId_RosterSync (Err MkOpenConflict)).
  - eapply rtc_l; [|apply rtc_refl]. by eapply (pstep_open (as_bytes "k") sample_identity
      PurposeId_MeshSession).
  - reflexivity.
  - reflexivity.
Defined.
End witnesses.
