(* ===== verification/Backend.v ===== *)
(** * The opaque secret backend

    Models [mesh-session-control-model-rs/src/secret_backend.rs]: the
    [SecretBackend] trait as a typeclass with the contract its doc comments
    state, and the in-memory [FakeSecretBackend] that implements it. *)

From stdpp Require Import base gmap sets list strings.
From Stdlib Require Import ZArith Lia Ascii.
From S2P Require Import Prelude.
From S2P Require Import ControlRecord.
From S2P Require Import Samples.

Open Scope Z_scope.

Inductive CreatedOrExisting := Created | Existing.

Inductive CreateOutcome :=
| Create_Unique (created_or_existing : CreatedOrExisting) (binding : ExactBinding)
| Create_Conflict
| Create_MissingRetry
| Create_Unavailable.

Inductive LoadExactOutcome :=
| LoadExact_Ready (b : ExactBinding)
| LoadExact_Missing
| LoadExact_CardinalityConflict
| LoadExact_PublicKeyMismatch
| LoadExact_Unavailable.

Inductive InspectOutcome :=
| Inspect_Present (b : ExactBinding)
| Inspect_Absent
| Inspect_Indeterminate
| Inspect_Conflict.

Record GcReport := MkGcReport {
  gc_attempted : bool;
  gc_residual : bool;
  gc_observation_complete : bool;
  gc_mismatch : bool;
}.

#[export] Instance InspectOutcome_eq_dec : EqDecision InspectOutcome.
Proof. solve_decision. Defined.
#[export] Instance LoadExactOutcome_eq_dec : EqDecision LoadExactOutcome.
Proof. solve_decision. Defined.

(** The trait; [B] is the backend with the state it keeps. *)
Class SecretBackend (B : Type) := {
  create_or_inspect : SlotId → option ExactBinding → B → CreateOutcome * B;
  load_exact : SlotId → bytes → B → LoadExactOutcome * B;
  inspect : SlotId → B → InspectOutcome * B;
  gc_best_effort : SlotId → ExactBinding → B → GcReport * B;
}.

(** What the trait's documentation promises, over the item a slot physically
    holds. Reads change nothing. Creation never replaces an item. Destruction
    touches only its slot, and only an item equal to the expected binding. *)
Class BackendContract (B : Type) `{!SecretBackend B} := {
  backend_wf : B → Prop;
  backend_item : B → SlotId → option ExactBinding;

  item_slot : ∀ b s x, backend_wf b → backend_item b s = Some x → eb_slot x = s;
  create_law : ∀ s e b o b', backend_wf b → create_or_inspect s e b = (o, b') →
    backend_wf b' ∧
    (∀ t x, backend_item b t = Some x → backend_item b' t = Some x) ∧
    (∀ t, t ≠ s → backend_item b' t = backend_item b t) ∧
    match o with
    | Create_Unique Existing x =>
        backend_item b s = Some x ∧ (∀ y, e = Some y → y = x)
    | Create_Unique Created x =>
        backend_item b s = None ∧ backend_item b' s = Some x ∧ (∀ y, e = Some y → y = x)
    | _ => ∀ t, backend_item b' t = backend_item b t
    end;
  load_law : ∀ s k b o b', backend_wf b → load_exact s k b = (o, b') →
    backend_wf b' ∧ (∀ t, backend_item b' t = backend_item b t) ∧
    (∀ x, o = LoadExact_Ready x → backend_item b s = Some x ∧ eb_public_key x = k);
  inspect_law : ∀ s b o b', backend_wf b → inspect s b = (o, b') →
    backend_wf b' ∧ (∀ t, backend_item b' t = backend_item b t) ∧
    (∀ x, o = Inspect_Present x → backend_item b s = Some x) ∧
    (o = Inspect_Absent → backend_item b s = None);
  gc_law : ∀ s e b r b', backend_wf b → gc_best_effort s e b = (r, b') →
    backend_wf b' ∧
    (∀ t, t ≠ s → backend_item b' t = backend_item b t) ∧
    (backend_item b' s = backend_item b s ∨
     (backend_item b s = Some e ∧ backend_item b' s = None)) ∧
    (gc_observation_complete r = true → gc_residual r = false → backend_item b' s = None) ∧
    (gc_mismatch r = true → backend_item b s ≠ Some e);
}.

(** ** The fake *)

#[export] Instance PurposeId_countable : Countable PurposeId.
Proof.
  refine (inj_countable' (λ p, match p with PurposeId_MeshSession => true | _ => false end)
    (λ b : bool, if b then PurposeId_MeshSession else PurposeId_RosterSync) _).
  abstract (by intros []).
Defined.

#[export] Instance BackendKind_countable : Countable BackendKind.
Proof.
  refine (inj_countable'
    (λ b, match b with BackendKind_SecureEnclave => (true, true)
          | BackendKind_TpmSealedSoftware => (true, false) | BackendKind_File => (false, false) end)
    (λ b : bool * bool, if b.1 then if b.2 then BackendKind_SecureEnclave
       else BackendKind_TpmSealedSoftware else BackendKind_File) _).
  abstract (by intros []).
Defined.

#[export] Instance SlotId_countable : Countable SlotId.
Proof.
  refine (inj_countable'
    (λ s, (slot_identity_digest s, slot_purpose s, slot_generation s, slot_txn_id s,
           slot_backend_instance s))
    (λ '(a, b, c, d, e), MkSlotId a b c d e) _).
  abstract (by intros []).
Defined.

(** [HashMap<SlotId, ExactBinding>] behind a mutex. *)
Abbreviation FakeSecretBackend := (gmap SlotId ExactBinding).

Definition fake_new : FakeSecretBackend := ∅.

Section fake.
Context `{!Hashes}.
Implicit Type items : FakeSecretBackend.

Definition synth_binding (slot : SlotId) : ExactBinding :=
  MkExactBinding slot (sha256 (as_bytes (canonical_id slot))) [].

Definition fake_create_or_inspect (slot : SlotId) (expected_binding : option ExactBinding) items
    : CreateOutcome * FakeSecretBackend :=
  if match expected_binding with
     | Some exp => bool_decide (eb_slot exp ≠ slot)
     | None => false
     end
  then (Create_Conflict, items)
  else match items !! slot with
  | Some existing =>
      (match expected_binding with
       | Some exp => if bool_decide (exp ≠ existing) then Create_Conflict
                     else Create_Unique Existing existing
       | None => Create_Unique Existing existing
       end, items)
  | None =>
      let binding := match expected_binding with Some e => e | None => synth_binding slot end in
      (Create_Unique Created binding, <[slot:=binding]> items)
  end.

Definition fake_load_exact (slot : SlotId) (expected_public_key : bytes) items
    : LoadExactOutcome * FakeSecretBackend :=
  (match items !! slot with
   | None => LoadExact_Missing
   | Some b => if bool_decide (eb_public_key b = expected_public_key) then LoadExact_Ready b
               else LoadExact_PublicKeyMismatch
   end, items).

Definition fake_inspect (slot : SlotId) items : InspectOutcome * FakeSecretBackend :=
  (match items !! slot with Some b => Inspect_Present b | None => Inspect_Absent end, items).

Definition fake_gc_best_effort (slot : SlotId) (expected_binding : ExactBinding) items
    : GcReport * FakeSecretBackend :=
  match items !! slot with
  | None => (MkGcReport true false true false, items)
  | Some actual =>
      if bool_decide (actual = expected_binding)
      then (MkGcReport true false true false, delete slot items)
      else (MkGcReport true true true true, items)
  end.

#[export] Instance fake_backend : SecretBackend FakeSecretBackend :=
  {| create_or_inspect := fake_create_or_inspect;
     load_exact := fake_load_exact;
     inspect := fake_inspect;
     gc_best_effort := fake_gc_best_effort |}.

(** Every stored binding names the slot it is stored under. *)
Definition fake_wf items : Prop := map_Forall (λ s x, eb_slot x = s) items.

Lemma fake_create_wf s e items o items' :
  fake_wf items → fake_create_or_inspect s e items = (o, items') → fake_wf items'.
Proof.
  intros Hwf. unfold fake_create_or_inspect. destruct e as [e|].
  - case_bool_decide as Hs; [by intros [= _ <-]|]. apply dec_stable in Hs || idtac.
    destruct (items !! s) as [x|] eqn:Hx; intros [= _ <-]; [done|].
    by apply map_Forall_insert_2.
  - destruct (items !! s) as [x|] eqn:Hx; intros [= _ <-]; [done|].
    by apply map_Forall_insert_2.
Qed.

#[export] Program Instance fake_contract : BackendContract FakeSecretBackend :=
  {| backend_wf := fake_wf; backend_item := λ items s, items !! s |}.
Next Obligation. intros items s x Hwf Hx. by apply (Hwf s x). Qed.
Next Obligation.
  intros s e items o items' Hwf Hc. split; [by eapply fake_create_wf|].
  cbn in Hc. unfold fake_create_or_inspect in Hc.
  destruct (match e with Some exp => bool_decide (eb_slot exp ≠ s) | None => false end);
    [by injection Hc as <- <-|].
  destruct (items !! s) as [x|] eqn:Hx.
  - injection Hc as <- <-. split_and!; [done..|].
    destruct e as [e|]; [|by split]. case_bool_decide as He; [done|].
    split; [done|]. intros y [= <-]. done.
  - injection Hc as <- <-. cbn. split_and!.
    + intros t y Ht. rewrite lookup_insert_ne; [done|]. intros <-. congruence.
    + intros t Ht. by rewrite lookup_insert_ne.
    + done.
    + by rewrite lookup_insert_eq.
    + intros y ->. done.
Qed.
Next Obligation.
  intros s k items o items' Hwf [= <- <-]. split_and!; [done..|]. intros x.
  destruct (items !! s) as [b|]; [|done]. case_bool_decide; [|done]. by intros [= <-].
Qed.
Next Obligation.
  intros s items o items' Hwf [= <- <-]. split_and!; [done..| |];
    destruct (items !! s); [by intros ? [= <-]|done|done|done].
Qed.
Next Obligation.
  intros s e items r items' Hwf Hg. cbn in Hg. unfold fake_gc_best_effort in Hg.
  destruct (items !! s) as [x|] eqn:Hx; [|injection Hg as <- <-; by split_and!; auto].
  case_bool_decide as He; injection Hg as <- <-.
  - subst x. cbn. split_and!.
    + by apply map_Forall_delete.
    + intros t Ht. by rewrite lookup_delete_ne.
    + right. by rewrite lookup_delete_eq.
    + intros _ _. by rewrite lookup_delete_eq.
    + done.
  - split_and!; auto; try done. intros _. congruence.
Qed.
End fake.

(** ** Properties *)

(** Creation is idempotent under lost acknowledgements, on every backend
    that keeps the contract: once a call reported a unique item for a slot,
    repeating it (without an expectation, or expecting that very item) never
    reports another item, and no later creation anywhere replaces it. *)
Theorem create_or_inspect_idempotent {B} `{!SecretBackend B, !BackendContract B}
    (b b1 b2 : B) slot e how x e' how' y slot' e'' o b3 :
  backend_wf b → create_or_inspect slot e b = (Create_Unique how x, b1) →
  create_or_inspect slot' e'' b1 = (o, b2) →
  create_or_inspect slot e' b2 = (Create_Unique how' y, b3) →
  y = x ∧ how' = Existing ∧ backend_item b3 slot = Some x.
Proof.
  intros Hwf H1 H2 H3.
  destruct (create_law _ _ _ _ _ Hwf H1) as (Hwf1 & _ & _ & Ho1).
  destruct (create_law _ _ _ _ _ Hwf1 H2) as (Hwf2 & Hk2 & _ & _).
  destruct (create_law _ _ _ _ _ Hwf2 H3) as (_ & Hk3 & _ & Ho3).
  assert (backend_item b1 slot = Some x) as Hx.
  { destruct how; [by destruct Ho1 as (_ & ? & _)|].
    destruct (create_law _ _ _ _ _ Hwf H1) as (_ & Hk1 & _ & [Hi _]). auto. }
  apply Hk2 in Hx. destruct how'; [by destruct Ho3; congruence|].
  destruct Ho3 as [Hy _]. split_and!; [congruence|done|auto].
Qed.

(** Best-effort destruction is exact on every backend that keeps the
    contract: it never touches another slot, never removes an item that
    differs from the expected binding, and a complete report without residue
    means the slot is empty. *)
Theorem gc_best_effort_exact {B} `{!SecretBackend B, !BackendContract B} (b b' : B) slot e r t x :
  backend_wf b → gc_best_effort slot e b = (r, b') →
  backend_item b t = Some x → (t ≠ slot ∨ x ≠ e) →
  backend_item b' t = Some x ∧
  (gc_observation_complete r = true → gc_residual r = false → t ≠ slot).
Proof.
  intros Hwf Hg Hx Hne. destruct (gc_law _ _ _ _ _ Hwf Hg) as (_ & Hother & Hsame & Hres & _).
  assert (backend_item b' t = Some x) as Ht.
  { destruct (decide (t = slot)) as [->|Hts]; [|by rewrite Hother].
    destruct Hsame as [->|[He _]]; [done|]. destruct Hne; [done|congruence]. }
  split; [done|]. intros Hc Hr ->. rewrite (Hres Hc Hr) in Ht. done.
Qed.

Section witnesses.
#[local] Existing Instance sample_hashes.

Definition sample_backend : FakeSecretBackend := {[sample_slot := sample_binding]}.

Lemma sample_backend_wf : fake_wf sample_backend.
Proof. by apply map_Forall_singleton. Qed.

Lemma create_or_inspect_idempotent_witness :
  fake_create_or_inspect sample_slot None sample_backend
    = (Create_Unique Existing sample_binding, sample_backend).
Proof.
  destruct (create_or_inspect_idempotent (B:=FakeSecretBackend)
    sample_backend sample_backend sample_backend
    sample_slot None Existing sample_binding (Some sample_binding) Existing sample_binding
    sample_slot None (Create_Unique Existing sample_binding) sample_backend) as (_ & _ & Hi).
  - exact sample_backend_wf.
  - reflexivity.
  - reflexivity.
  - reflexivity.
  - reflexivity.
Defined.

Lemma gc_best_effort_exact_witness :
  let '(_, items) := fake_gc_best_effort sample_slot (MkExactBinding sample_slot [] [])
    sample_backend in
  items !! sample_slot = Some sample_binding.
Proof.
  destruct (fake_gc_best_effort sample_slot _ sample_backend) as [r items] eqn:Hg.
  destruct (gc_best_effort_exact (B:=FakeSecretBackend) sample_backend items sample_slot
    (MkExactBinding sample_slot [] []) r sample_slot sample_binding) as [Hi _].
  - exact sample_backend_wf.
  - exact Hg.
  - reflexivity.
  - right. by vm_compute.
  - exact Hi.
Defined.
End witnesses.
