(* ===== verification/Validator.v ===== *)
(** * The full binding validator

    Models [mesh-session-control-model-rs/src/validator.rs]: purposes as a
    typeclass of constants, the exact-scope check, and
    [validate_full_binding] with the roster and the signature verifier as
    parameters. *)

From stdpp Require Import base gmap sets list strings.
From Stdlib Require Import ZArith Lia Ascii.
From S2P Require Import Prelude.
From S2P Require Import ControlRecord.
From S2P Require Import Samples.

Open Scope Z_scope.

Inductive RosterCurrency :=
| Roster_Active (member_pub member_cert_fingerprint : bytes)
| Roster_Revoked
| Roster_NotListed
| Roster_Unavailable.

(** [RosterLookup], at one moment: what it answers for a machine, and the
    revision of its currency. *)
Record RosterLookup := MkRosterLookup {
  query_machine_currency : string → RosterCurrency;
  currency_revision : string → Z;
}.

Inductive RosterChanged := MkRosterChanged.

(** [RosterLookup::acquire_currency_lease] as the trait documents it: granted
    iff the revision did not move. The production bridge has no leases yet and
    refuses every one ([mesh_session_bridge.rs]); what is proved of callers is
    proved for any roster that keeps the documented behaviour. *)
Definition acquire_currency_lease (roster : RosterLookup) (machine_id : string)
    (expected_revision : Z) : Result RosterChanged unit :=
  reject_if (negb (currency_revision roster machine_id =? expected_revision)) MkRosterChanged.

(** [SignatureVerifier::verify] *)
Definition SignatureVerifier : Type := bytes → Delegation → bytes → bool.

Record DelegationPolicy := MkDelegationPolicy { max_ttl : Z }.

Definition policy_production : DelegationPolicy := MkDelegationPolicy 0.
Definition policy_test (ttl : Z) : DelegationPolicy := MkDelegationPolicy ttl.

Definition DELEGATION_SCHEMA_VERSION : Z := 1.

Record DelegationScopePolicy := MkDelegationScopePolicy {
  scope_roles : list string;
  scope_transcript_kinds : list string;
}.

(** [PurposeMarker]: the constants a purpose type carries. *)
Record PurposeMarker := MkPurposeMarker {
  PURPOSE_ID : PurposeId;
  DELEGATION_DOMAIN : string;
  DELEGATION_KIND : string;
  PROFILE : string;
  ROLES : list string;
  required_scope : option DelegationScopePolicy;
}.

Definition MeshSessionPurpose : PurposeMarker :=
  {| PURPOSE_ID := PurposeId_MeshSession;
     DELEGATION_DOMAIN := "soyeht/mesh-session/v1";
     DELEGATION_KIND := "soyeht/mesh-session/delegation/v1";
     PROFILE := "mesh-session";
     ROLES := ["initiator"; "responder"];
     required_scope := Some (MkDelegationScopePolicy ["initiator"; "responder"]
       ["final-confirm"; "activate"; "activate-ack"]) |}.

Definition RosterSyncPurpose : PurposeMarker :=
  {| PURPOSE_ID := PurposeId_RosterSync;
     DELEGATION_DOMAIN := "soyeht/roster-sync/v1";
     DELEGATION_KIND := "soyeht/roster-sync/delegation/v1";
     PROFILE := "roster-sync";
     ROLES := ["initiator"; "responder"];
     required_scope := None |}.

(** The [BTreeSet::insert] loop over [actual]: [None] on a duplicate. *)
Fixpoint collect_distinct (seen : gset string) (l : list string) : option (gset string) :=
  match l with
  | [] => Some seen
  | a :: l => if bool_decide (a ∈ seen) then None else collect_distinct ({[a]} ∪ seen) l
  end.

Definition is_exact_scope (actual required : list string) : bool :=
  if negb (length actual =? length required)%nat then false
  else match collect_distinct ∅ actual with
       | None => false
       | Some seen => iter_all (λ r, bool_decide (r ∈ seen)) required
       end.

Inductive ValidationError :=
| VE_VersionMismatch
| VE_DelegationKindMismatch
| VE_DomainMismatch
| VE_ProfileMismatch
| VE_RoleMismatch
| VE_TranscriptKindsEmpty
| VE_RoleScopeMismatch
| VE_TranscriptKindsScopeMismatch
| VE_ChannelMismatch
| VE_HhIdMismatch
| VE_IdentityMismatch
| VE_DelegationInvalid
| VE_DelegationNotInWindow
| VE_NotAfterDrift
| VE_DelegatorRevoked
| VE_DelegatorNotInRoster
| VE_RosterUnavailable
| VE_DelegatorFingerprintMismatch
| VE_SignatureInvalid
| VE_KeyIdMismatch
| VE_DelegatedPubBindingMismatch
| VE_PurposeMismatch
| VE_PhysicalKeyNotConfirmed
| VE_RosterChangedDuringActivation.

Record BindingContext := MkBindingContext {
  ctx_hh_id : string;
  ctx_machine_id : string;
  ctx_channel : Channel;
}.

Definition from_identity (identity : ControlIdentity) : BindingContext :=
  MkBindingContext (ci_hh_id identity) (ci_machine_id identity) (ci_channel identity).

Section validator.
Context `{!Hashes}.

(** [d.roles.is_empty()] and the like *)
Definition is_empty {A} (l : list A) : bool := match l with [] => true | _ => false end.

Definition check_scope (P : PurposeMarker) (d : Delegation) : Result ValidationError unit :=
  match required_scope P with
  | Some scope =>
      reject_if (negb (is_exact_scope (dg_roles d) (scope_roles scope))) VE_RoleScopeMismatch;;
      reject_if (negb (is_exact_scope (dg_transcript_kinds d) (scope_transcript_kinds scope)))
        VE_TranscriptKindsScopeMismatch
  | None =>
      reject_if (is_empty (dg_roles d)
                 || negb (iter_all (λ r, bool_decide (r ∈ ROLES P)) (dg_roles d)))
        VE_RoleMismatch;;
      reject_if (is_empty (dg_transcript_kinds d)) VE_TranscriptKindsEmpty
  end.

Definition check_roster (roster : RosterLookup) (sig : SignatureVerifier) (d : Delegation)
    : Result ValidationError unit :=
  match query_machine_currency roster (dg_delegator_m_id d) with
  | Roster_Active member_pub member_cert_fingerprint =>
      reject_if (bool_decide (member_cert_fingerprint ≠ dg_delegator_cert_fingerprint d))
        VE_DelegatorFingerprintMismatch;;
      reject_if (negb (sig member_pub d (dg_sig d))) VE_SignatureInvalid
  | Roster_Revoked => Err VE_DelegatorRevoked
  | Roster_NotListed => Err VE_DelegatorNotInRoster
  | Roster_Unavailable => Err VE_RosterUnavailable
  end.

Definition validate_full_binding (P : PurposeMarker) (generation_record : GenerationRecord)
    (ctx : BindingContext) (policy : DelegationPolicy) (roster : RosterLookup)
    (sig : SignatureVerifier) (now : Z) : Result ValidationError unit :=
  let d := gr_delegation generation_record in
  reject_if (negb (dg_version d =? DELEGATION_SCHEMA_VERSION)) VE_VersionMismatch;;
  reject_if (bool_decide (dg_kind d ≠ DELEGATION_KIND P)) VE_DelegationKindMismatch;;
  reject_if (bool_decide (dg_domain d ≠ DELEGATION_DOMAIN P)) VE_DomainMismatch;;
  reject_if (bool_decide (dg_profile d ≠ PROFILE P)) VE_ProfileMismatch;;
  check_scope P d;;
  reject_if (bool_decide (dg_channel d ≠ ctx_channel ctx)) VE_ChannelMismatch;;
  reject_if (bool_decide (dg_hh_id d ≠ ctx_hh_id ctx)) VE_HhIdMismatch;;
  reject_if (bool_decide (dg_delegator_m_id d ≠ ctx_machine_id ctx)) VE_IdentityMismatch;;
  duration ← ok_or (checked_sub (dg_not_after d) (dg_not_before d)) VE_DelegationInvalid;
  reject_if ((dg_not_after d <=? dg_not_before d) || (max_ttl policy <? duration))
    VE_DelegationInvalid;;
  reject_if (negb ((dg_not_before d <=? now) && (now <? dg_not_after d)))
    VE_DelegationNotInWindow;;
  reject_if (negb (gr_not_after generation_record =? dg_not_after d)) VE_NotAfterDrift;;
  check_roster roster sig d;;
  reject_if (bool_decide
    (dg_delegated_key_id d ≠ canonical_id (eb_slot (gr_binding generation_record))))
    VE_KeyIdMismatch;;
  reject_if (bool_decide (dg_delegated_pub d ≠ eb_public_key (gr_binding generation_record)))
    VE_DelegatedPubBindingMismatch.
End validator.

(** ** What validation means *)

Lemma collect_distinct_spec seen l s :
  collect_distinct seen l = Some s ↔
  (NoDup l ∧ ∀ x, x ∈ l → x ∉ seen) ∧ s = list_to_set l ∪ seen.
Proof.
  revert seen; induction l as [|a l IH]; intros seen; cbn.
  { rewrite (left_id_L ∅ (∪)). split; [|by intros [_ ->]].
    intros [= ->]. split; [|done]. split; [apply NoDup_nil_2|].
    intros x Hx. by apply not_elem_of_nil in Hx. }
  case_bool_decide as E.
  { split; [done|]. intros [[_ Hf] _]. destruct (Hf a); [left|done]. }
  rewrite <-(fresh_for_cons _ _ _ E), IH.
  by rewrite (assoc_L (∪)), (comm_L (∪) (list_to_set l) {[a]}).
Qed.

(** A duplicate-free list inside another of the same length is a permutation. *)
Lemma NoDup_subset_perm {A} (l k : list A) :
  NoDup l → NoDup k → length l = length k → (∀ x, x ∈ l → x ∈ k) → l ≡ₚ k.
Proof.
  intros Hl Hk Hlen Hsub.
  assert (l ⊆+ k) as Hs by (by apply NoDup_submseteq).
  apply submseteq_length_Permutation; [done|lia].
Qed.

Lemma is_exact_scope_true actual required :
  NoDup required → is_exact_scope actual required = true ↔ actual ≡ₚ required.
Proof.
  intros Hreq. unfold is_exact_scope.
  destruct (Nat.eqb_spec (length actual) (length required)) as [Hlen|Hlen]; cbn [negb].
  - destruct (collect_distinct ∅ actual) as [s|] eqn:Hc.
    + apply collect_distinct_spec in Hc as [[Hnd _] ->]. rewrite (right_id_L ∅ (∪)).
      rewrite iter_all_true. setoid_rewrite bool_decide_eq_true.
      setoid_rewrite elem_of_list_to_set. split.
      * intros Hall. symmetry. by apply NoDup_subset_perm.
      * intros Hp x Hx. by rewrite Hp.
    + split; [done|]. intros Hp.
      assert (collect_distinct ∅ actual = Some (list_to_set actual ∪ ∅)) as Hs.
      { apply collect_distinct_spec. split; [|done]. split; [by rewrite Hp|].
        intros x _. apply not_elem_of_empty. }
      congruence.
  - split; [done|]. intros Hp%Permutation_length. done.
Qed.

(** The scope a purpose requires. *)
Definition scope_ok (P : PurposeMarker) (d : Delegation) : Prop :=
  match required_scope P with
  | Some scope => is_exact_scope (dg_roles d) (scope_roles scope) = true ∧
                  is_exact_scope (dg_transcript_kinds d) (scope_transcript_kinds scope) = true
  | None => dg_roles d ≠ [] ∧ (∀ r, r ∈ dg_roles d → r ∈ ROLES P) ∧ dg_transcript_kinds d ≠ []
  end.

Definition roster_ok (roster : RosterLookup) (sig : SignatureVerifier) (d : Delegation) : Prop :=
  ∃ member_pub, query_machine_currency roster (dg_delegator_m_id d) =
      Roster_Active member_pub (dg_delegator_cert_fingerprint d) ∧
    sig member_pub d (dg_sig d) = true.

(** The declarative reading of a valid binding. *)
Record ValidBinding `{!Hashes} (P : PurposeMarker) (g : GenerationRecord) (ctx : BindingContext)
    (policy : DelegationPolicy) (roster : RosterLookup) (sig : SignatureVerifier) (now : Z)
    : Prop := {
  vb_version : dg_version (gr_delegation g) = 1;
  vb_kind : dg_kind (gr_delegation g) = DELEGATION_KIND P;
  vb_domain : dg_domain (gr_delegation g) = DELEGATION_DOMAIN P;
  vb_profile : dg_profile (gr_delegation g) = PROFILE P;
  vb_scope : scope_ok P (gr_delegation g);
  vb_channel : dg_channel (gr_delegation g) = ctx_channel ctx;
  vb_hh : dg_hh_id (gr_delegation g) = ctx_hh_id ctx;
  vb_machine : dg_delegator_m_id (gr_delegation g) = ctx_machine_id ctx;
  vb_window : dg_not_before (gr_delegation g) ≤ now < dg_not_after (gr_delegation g);
  vb_ttl : dg_not_after (gr_delegation g) - dg_not_before (gr_delegation g) ≤ max_ttl policy;
  vb_not_after : gr_not_after g = dg_not_after (gr_delegation g);
  vb_roster : roster_ok roster sig (gr_delegation g);
  vb_key_id : dg_delegated_key_id (gr_delegation g) = canonical_id (eb_slot (gr_binding g));
  vb_pub : dg_delegated_pub (gr_delegation g) = eb_public_key (gr_binding g);
}.

Lemma reject_if_bind {E A} b (e : E) (k : Result E A) :
  (reject_if b e;; k) = if b then Err e else k.
Proof. by destruct b. Qed.

Lemma check_scope_Ok P d : check_scope P d = Ok tt ↔ scope_ok P d.
Proof.
  unfold check_scope, scope_ok. destruct (required_scope P) as [scope|].
  - rewrite reject_if_bind.
    destruct (is_exact_scope (dg_roles d) _); cbn; [|naive_solver].
    destruct (is_exact_scope (dg_transcript_kinds d) _); cbn; naive_solver.
  - rewrite reject_if_bind.
    destruct (dg_roles d) as [|x l] eqn:Hr; cbn [is_empty orb]; [naive_solver|].
    destruct (iter_all _ (x :: l)) eqn:Hall; cbn [negb].
    + rewrite iter_all_true in Hall. setoid_rewrite bool_decide_eq_true in Hall.
      destruct (dg_transcript_kinds d); cbn; naive_solver.
    + split; [done|]. intros (_ & Hroles & _). apply not_true_iff_false in Hall. destruct Hall.
      apply iter_all_true. intros y Hy. by apply bool_decide_eq_true, Hroles.
Qed.

Lemma check_roster_Ok roster sig d : check_roster roster sig d = Ok tt ↔ roster_ok roster sig d.
Proof.
  unfold check_roster, roster_ok. destruct (query_machine_currency _ _); [|naive_solver..].
  rewrite reject_if_bind. case_bool_decide as Hf; [naive_solver|].
  rewrite Hf, reject_if_Ok, negb_false_iff. naive_solver.
Qed.

Lemma bind_unit_Ok {E A} (m : Result E unit) (k : Result E A) a :
  (m;; k) = Ok a ↔ m = Ok tt ∧ k = Ok a.
Proof. destruct m as [[]|]; cbn; naive_solver. Qed.

Lemma validate_full_binding_Ok `{!Hashes} P g ctx policy roster sig now :
  validate_full_binding P g ctx policy roster sig now = Ok tt ↔
  ValidBinding P g ctx policy roster sig now.
Proof.
  unfold validate_full_binding. rewrite !bind_unit_Ok, !reject_if_Ok, check_scope_Ok.
  unfold checked_sub. set (d := gr_delegation g).
  destruct (Z.leb_spec (dg_not_before d) (dg_not_after d)) as [Hle|Hlt];
    [cbn [ok_or]; change (Ok ?x ≫= ?f) with (f x); cbn beta|].
  - rewrite !bind_unit_Ok, check_roster_Ok, !reject_if_Ok,
      !negb_false_iff, !bool_decide_eq_false, orb_false_iff, andb_true_iff, !Z.eqb_eq,
      Z.leb_gt, Z.ltb_ge, Z.leb_le, Z.ltb_lt.
    split.
    + intros (? & ? & ? & ? & ? & ? & ? & ? & [_ ?] & ? & ? & ? & ? & ?).
      subst d; split; try done; try lia; by apply dec_stable.
    + intros []. subst d. split_and!; try done; try lia; intros Hne; by apply Hne.
  - split; [|intros []; subst d; lia]. intros (_ & _ & _ & _ & _ & _ & _ & _ & [=]).
Qed.

(** The validator accepts exactly the valid bindings: every check it
    makes is part of the declarative reading, and nothing else is required;
    any failing condition is an error. *)
Theorem validate_full_binding_exact `{!Hashes} P g ctx policy roster sig now :
  (validate_full_binding P g ctx policy roster sig now = Ok tt ↔
   ValidBinding P g ctx policy roster sig now) ∧
  (¬ ValidBinding P g ctx policy roster sig now ↔
   ∃ e, validate_full_binding P g ctx policy roster sig now = Err e).
Proof.
  rewrite <-validate_full_binding_Ok. split; [done|].
  destruct (validate_full_binding P g ctx policy roster sig now) as [[]|e]; naive_solver.
Qed.

(** A delegation the validator accepts for mesh sessions grants exactly
    the two roles and the three transcript kinds of the purpose, each once and
    in any order; it is never accepted for roster sync, whatever context,
    policy, roster, verifier and clock are supplied there; and under the
    production policy nothing is accepted at all. *)
Theorem purpose_scope_separated `{!Hashes} g ctx policy roster sig now :
  validate_full_binding MeshSessionPurpose g ctx policy roster sig now = Ok tt →
  dg_roles (gr_delegation g) ≡ₚ ["initiator"; "responder"] ∧
  dg_transcript_kinds (gr_delegation g) ≡ₚ ["final-confirm"; "activate"; "activate-ack"] ∧
  (∀ ctx' policy' roster' sig' now',
     validate_full_binding RosterSyncPurpose g ctx' policy' roster' sig' now' ≠ Ok tt) ∧
  (∀ P ctx' roster' sig' now',
     validate_full_binding P g ctx' policy_production roster' sig' now' ≠ Ok tt).
Proof.
  intros Hv%validate_full_binding_Ok. destruct (vb_scope _ _ _ _ _ _ _ Hv) as [Hr Hk].
  split_and!.
  - apply is_exact_scope_true in Hr; [done|by_decide].
  - apply is_exact_scope_true in Hk; [done|by_decide].
  - intros c p r s n Hv'%validate_full_binding_Ok.
    pose proof (vb_domain _ _ _ _ _ _ _ Hv) as Hd. rewrite (vb_domain _ _ _ _ _ _ _ Hv') in Hd.
    done.
  - intros P c r s n Hv'%validate_full_binding_Ok.
    pose proof (vb_ttl _ _ _ _ _ _ _ Hv'). pose proof (vb_window _ _ _ _ _ _ _ Hv').
    cbn in *. lia.
Qed.

(** *** The validator at work *)

Section witnesses.
#[local] Existing Instance sample_hashes.

(** The generation [sample_delegation] grants. *)
Definition sample_granted : GenerationRecord :=
  MkGenerationRecord 1 sample_delegation sample_binding 1000.

Definition sample_roster : RosterLookup :=
  MkRosterLookup (λ _, Roster_Active [] []) (λ _, 5).

Definition sample_verifier : SignatureVerifier := λ _ _ _, true.

Lemma purpose_scope_separated_witness :
  validate_full_binding RosterSyncPurpose sample_granted (from_identity sample_identity)
    (policy_test 5000) sample_roster sample_verifier 10 ≠ Ok tt.
Proof.
  pose proof (purpose_scope_separated sample_granted (from_identity sample_identity)
    (policy_test 5000) sample_roster sample_verifier 10) as Hsep.
  destruct Hsep as (_ & _ & Hroster & _); [vm_compute; reflexivity|]. exact (Hroster _ _ _ _ _).
Defined.
End witnesses.
