(* ===== verification/Activate.v ===== *)
(** * Activation

    Models [mesh-session-control-model-rs/src/activate.rs]: the orchestration
    that confirms the physical key and validates the delegation with no lock
    held, then commits the activation against a fresh read; and the
    revalidation of a stored record on load. *)

From stdpp Require Import base gmap sets list strings.
From Stdlib Require Import ZArith Lia Ascii.
From S2P Require Import Prelude.
From S2P Require Import ControlRecord.
From S2P Require Import Transition.
From S2P Require Import TransitionInv.
From S2P Require Import TransitionEffect.
From S2P Require Import Samples.
From S2P Require Import TransitionSpec.
From S2P Require Import History.
From S2P Require Import Codec.
From S2P Require Import StoreSpec.
From S2P Require Import Store.
From S2P Require Import StoreProofs.
From S2P Require Import Commit.
From S2P Require Import Cell.
From S2P Require Import Backend.
From S2P Require Import Validator.

Open Scope Z_scope.

Inductive ActivateError :=
| AE_NothingToActivate
| AE_PhysicalKeyNotConfirmed
| AE_Validation (e : ValidationError)
| AE_Commit (e : CommitTransitionError).

Inductive LoadRevalidatedError :=
| LRE_NoRecord
| LRE_RecordCorrupt
| LRE_Validation (e : ValidationError).

Section activate.
Context `{!Hashes} {S Io B : Type} `{!AtomicControlRecordStore S Io, !SecretBackend B}.

(** The pending operation with its observed binding, if it can be activated
    under [expected_txn_id]. *)
Definition pending_to_activate (base : MeshSignerControlRecordV1) (txn_id : bytes)
    : Result ActivateError (PendingOp * ExactBinding) :=
  p ← ok_or (match rec_pending_op base with
             | Some p => if bool_decide (po_txn_id p = txn_id) then Some p else None
             | None => None
             end) AE_NothingToActivate;
  reject_if (bool_decide (po_phase p ≠ PendingPhase_KeyObserved)) AE_NothingToActivate;;
  binding ← ok_or (po_binding p) AE_NothingToActivate;
  Ok (p, binding).

Definition activation_token (txn_id : bytes) (p : PendingOp) (revision : Z) : WorkerToken :=
  MkWorkerToken txn_id (po_kind p) (po_generation p) (po_epoch p) (po_purpose p)
    (canonical_id (po_canonical_slot p)) revision.

(** The roster is read at three moments: its revision before the validation,
    the currency during it, the lease after it. *)
Definition validate_under_lease (P : PurposeMarker) (g : GenerationRecord) (ctx : BindingContext)
    (policy : DelegationPolicy) (roster : nat → RosterLookup) (sig : SignatureVerifier)
    (now : Z) : Result ValidationError unit :=
  let machine := dg_delegator_m_id (gr_delegation g) in
  let roster_revision_before := currency_revision (roster 0%nat) machine in
  validate_full_binding P g ctx policy (roster 1%nat) sig now;;
  map_err (λ _, VE_RosterChangedDuringActivation)
    (acquire_currency_lease (roster 2%nat) machine roster_revision_before).

(** No guard is held between the load and the commit: [env] is what anyone
    else does to the store in between. The backend [b] is its state when its
    key is asked for. [None] is a failed assertion. *)
Definition activate_from_key_observed (P : PurposeMarker) (token : Z) (env : S → S)
    (roster : nat → RosterLookup) (sig : SignatureVerifier) (policy : DelegationPolicy)
    (expected_txn_id : bytes) (delegation : Delegation) (now : Z) (max_cap : nat)
    (ios : nat → Io) (b : B) (s : S)
    : option (Result ActivateError MeshSignerControlRecordV1 * B * S) :=
  match store_load (ios 0%nat) s with
  | Load_Missing => Some (Err (AE_Commit CTE_NoRecord), b, s)
  | Load_Corrupt => Some (Err (AE_Commit CTE_RecordCorrupt), b, s)
  | Load_Exact base =>
      if bool_decide (rec_purpose base ≠ PURPOSE_ID P)
      then Some (Err (AE_Validation VE_PurposeMismatch), b, s)
      else match iter_find (has_txn_id expected_txn_id) (rec_recent_terminal_results base) with
      | Some existing =>
          Some (match tr_request existing with
                | Request_Activate _ existing_delegation =>
                    if bool_decide (existing_delegation = delegation) then Ok base
                    else Err (AE_Commit (CTE_Transition TE_TerminalTxnReused))
                | _ => Err (AE_Commit (CTE_Transition TE_TerminalTxnReused))
                end, b, s)
      | None =>
          match pending_to_activate base expected_txn_id with
          | Err e => Some (Err e, b, s)
          | Ok (p, binding) =>
              let '(observed, b) := load_exact (po_canonical_slot p) (eb_public_key binding) b in
              if negb (bool_decide (observed = LoadExact_Ready binding))
              then Some (Err AE_PhysicalKeyNotConfirmed, b, s)
              else
                let generation_record :=
                  MkGenerationRecord (po_generation p) delegation binding
                    (dg_not_after delegation) in
                match validate_under_lease P generation_record (from_identity (rec_identity base))
                        policy roster sig now with
                | Err e => Some (Err (AE_Validation e), b, s)
                | Ok _ =>
                    '(r, s) ← commit_built_privileged token
                      (λ fresh, Some (ActivateFromKeyObserved
                         (activation_token expected_txn_id p (rec_revision fresh)) delegation))
                      now max_cap (io_drop 1 ios) (env s);
                    match r with
                    | Ok (Some new) => Some (Ok new, b, s)
                    | Ok None => None
                    | Err e => Some (Err (AE_Commit e), b, s)
                    end
                end
          end
      end
  end.

(** The roster may answer each query differently. *)
Fixpoint revalidate_generations (P : PurposeMarker) (ctx : BindingContext)
    (policy : DelegationPolicy) (roster : nat → RosterLookup) (sig : SignatureVerifier) (now : Z)
    (l : list GenerationRecord) (b : B) : Result ValidationError unit * B :=
  match l with
  | [] => (Ok tt, b)
  | g :: l =>
      let '(observed, b) :=
        load_exact (eb_slot (gr_binding g)) (eb_public_key (gr_binding g)) b in
      if negb (bool_decide (observed = LoadExact_Ready (gr_binding g)))
      then (Err VE_PhysicalKeyNotConfirmed, b)
      else match validate_full_binding P g ctx policy (roster 0%nat) sig now with
           | Err e => (Err e, b)
           | Ok _ => revalidate_generations P ctx policy (io_drop 1 roster) sig now l b
           end
  end.

Definition revalidate_on_load (P : PurposeMarker) (record : MeshSignerControlRecordV1)
    (policy : DelegationPolicy) (roster : nat → RosterLookup) (sig : SignatureVerifier) (now : Z)
    (b : B) : Result ValidationError unit * B :=
  if bool_decide (rec_purpose record ≠ PURPOSE_ID P) then (Err VE_PurposeMismatch, b)
  else revalidate_generations P (from_identity (rec_identity record)) policy roster sig now
         (rec_live_generations record) b.

Definition load_and_revalidate (P : PurposeMarker) (policy : DelegationPolicy)
    (roster : nat → RosterLookup) (sig : SignatureVerifier) (now : Z) (io : Io) (b : B) (s : S)
    : Result LoadRevalidatedError MeshSignerControlRecordV1 * B :=
  match store_load io s with
  | Load_Missing => (Err LRE_NoRecord, b)
  | Load_Corrupt => (Err LRE_RecordCorrupt, b)
  | Load_Exact record =>
      let '(r, b) := revalidate_on_load P record policy roster sig now b in
      (match r with Ok _ => Ok record | Err e => Err (LRE_Validation e) end, b)
  end.
End activate.

(** ** Lemmas *)

Lemma acquire_currency_lease_Ok roster m n :
  acquire_currency_lease roster m n = Ok tt ↔ currency_revision roster m = n.
Proof.
  unfold acquire_currency_lease. rewrite reject_if_Ok, negb_false_iff. apply Z.eqb_eq.
Qed.

Lemma validate_under_lease_Ok `{!Hashes} P g ctx policy roster sig now u :
  validate_under_lease P g ctx policy roster sig now = Ok u ↔
  ValidBinding P g ctx policy (roster 1%nat) sig now ∧
  currency_revision (roster 2%nat) (dg_delegator_m_id (gr_delegation g)) =
  currency_revision (roster 0%nat) (dg_delegator_m_id (gr_delegation g)).
Proof.
  destruct u. unfold validate_under_lease.
  by rewrite bind_unit_Ok, validate_full_binding_Ok, map_err_Ok, acquire_currency_lease_Ok.
Qed.

Lemma pending_to_activate_Ok base txn p binding :
  pending_to_activate base txn = Ok (p, binding) ↔
  rec_pending_op base = Some p ∧ po_txn_id p = txn ∧
  po_phase p = PendingPhase_KeyObserved ∧ po_binding p = Some binding.
Proof.
  unfold pending_to_activate. destruct (rec_pending_op base) as [q|]; [|naive_solver].
  case_bool_decide as Ht; [|naive_solver]. cbn [ok_or].
  change (Ok ?x ≫= ?f) with (f x). cbn beta. rewrite reject_if_bind.
  case_bool_decide as Hp; [naive_solver|]. apply dec_stable in Hp || idtac.
  destruct (po_binding q) as [x|] eqn:Hb; cbn; naive_solver.
Qed.

Section lemmas.
Context `{!Hashes, !HashLaws} {S Io B : Type}
  `{!AtomicControlRecordStore S Io, !StoreContract S Io, !SecretBackend B, !BackendContract B}.

(** A record that already carries the result of this very request. *)
Definition recorded (r : MeshSignerControlRecordV1) (txn : bytes) (d : Delegation) : Prop :=
  ∃ e g, e ∈ rec_recent_terminal_results r ∧ tr_txn_id e = txn ∧ tr_request e = Request_Activate g d.

Lemma revalidate_generations_Ok P ctx policy sig now l : ∀ roster (b b' : B),
  backend_wf b →
  revalidate_generations P ctx policy roster sig now l b = (Ok tt, b') →
  ∀ i g, l !! i = Some g →
    backend_item b (eb_slot (gr_binding g)) = Some (gr_binding g) ∧
    ValidBinding P g ctx policy (roster i) sig now.
Proof.
  induction l as [|x l IH]; intros roster b b' Hwf Hr i g Hg; [done|]. cbn in Hr.
  destruct (load_exact _ _ b) as [o b1] eqn:Hload.
  destruct (load_law _ _ _ _ _ Hwf Hload) as (Hwf1 & Hsame & Hready).
  case_bool_decide as Ho; cbn [negb] in Hr; [|done]. apply Hready in Ho as [Hitem _].
  destruct (validate_full_binding _ _ _ _ _ _ _) as [[]|] eqn:Hval; [|done].
  apply validate_full_binding_Ok in Hval. destruct i as [|i]; [by injection Hg as <-|].
  rewrite <-Hsame. exact (IH _ _ _ Hwf1 Hr i g Hg).
Qed.

(** An activation accepted against a later record is a replay, or activates
    the very operation that was validated. *)
Lemma activation_applies base fresh p binding d now cap new :
  Inv base → rtc rstep base fresh → rec_pending_op base = Some p →
  po_phase p = PendingPhase_KeyObserved → po_binding p = Some binding →
  apply fresh (ActivateFromKeyObserved (activation_token (po_txn_id p) p (rec_revision fresh)) d)
    now cap = Ok new →
  (new = fresh ∧ recorded fresh (po_txn_id p) d) ∨
  (rec_pending_op fresh = Some p ∧ rec_epoch_high_water fresh = rec_epoch_high_water base ∧
   ∃ results, new = activated fresh p binding d results ∧ recorded new (po_txn_id p) d).
Proof.
  intros Hi Hs Hp Hph Hb Hok. pose proof (rsteps_Inv _ _ Hs Hi) as Hif.
  apply apply_Ok in Hok as [[Hrep ->]|(_ & rm & Harm & _)].
  - left. split; [done|]. unfold idempotent_replay in Hrep. cbn in Hrep.
    destruct (iter_find _ _) as [e|] eqn:Hf; [|done]. cbn in Hrep. case_bool_decide as Hr; [|done].
    apply iter_find_Some in Hf as [He Ht%has_txn_id_true]. by exists e, (po_generation p).
  - right. apply apply_arm_effect in Harm; [|eauto using Inv_pending_generation].
    pose proof (effect_records _ _ _ _ _ _ Harm eq_refl) as (e & He & Ht & Hr).
    inversion Harm as [| |tok d' q qb results Hrv Hq Hqp Hqb Hm Hpush| | | |? ? ? ? Hx| | |]; [|done].
    subst. apply pending_matches_token_true in Hm as (_ & _ & Hg & Hep & _). cbn in Hg, Hep.
    assert (q = p) as -> by (by eapply (observed_pending_stable base fresh)).
    rewrite Hb in Hqb. injection Hqb as <-.
    apply (con_pending _ (inv_consistent _ Hi)) in Hp as (_ & _ & Hep1 & _).
    pose proof (con_pending _ (inv_consistent _ Hif) _ Hq) as (_ & _ & Hep2 & _).
    split_and!; [done|congruence|]. exists results. split; [done|]. by exists e, (po_generation p).
Qed.
End lemmas.

(** ** The properties *)

Section claims.
Context `{!Hashes, !HashLaws} {S Io B : Type}
  `{!AtomicControlRecordStore S Io, !StoreContract S Io, !SecretBackend B, !BackendContract B}.

Ltac returns_err :=
  eexists _, _, _; split; [reflexivity|]; left; split; [reflexivity|by left].

(** Everything an activation call can do, with [fresh] the record it finds
    when it commits. *)
Lemma activate_spec P env roster sig policy txn d now cap ios (b : B) (s : S) base fresh :
  store_wf (env s) → store_token (env s) = store_token s →
  store_view s = Load_Exact base → store_view (env s) = Load_Exact fresh →
  Inv base → rtc rstep base fresh → backend_wf b →
  ∃ res b' s', activate_from_key_observed P (store_token s) env roster sig policy txn d now cap
      ios b s = Some (res, b', s') ∧
    ((s' = s ∧ (is_ok res = false ∨ (res = Ok base ∧ recorded base txn d))) ∨
     ∃ p binding, rec_pending_op base = Some p ∧ po_txn_id p = txn ∧
       po_phase p = PendingPhase_KeyObserved ∧ po_binding p = Some binding ∧
       rec_purpose base = PURPOSE_ID P ∧
       backend_item b (po_canonical_slot p) = Some binding ∧
       ValidBinding P (MkGenerationRecord (po_generation p) d binding (dg_not_after d))
         (from_identity (rec_identity base)) policy (roster 1%nat) sig now ∧
       currency_revision (roster 2%nat) (dg_delegator_m_id d) =
       currency_revision (roster 0%nat) (dg_delegator_m_id d) ∧
       ((s' = env s ∧ is_ok res = false) ∨
        ∃ new, apply fresh (ActivateFromKeyObserved (activation_token txn p (rec_revision fresh)) d)
            now cap = Ok new ∧ between new (env s) s' ∧
          (is_ok res = false ∨ (res = Ok new ∧ store_view s' = Load_Exact new ∧
             ∀ v, store_survives s' v → v = Load_Exact new)))).
Proof.
  intros Hwf Htok Hv Hvf Hi Hs Hbwf. unfold activate_from_key_observed.
  destruct (law_load (ios 0%nat) s) as [Hl|Hl]; [|rewrite Hl; returns_err].
  rewrite Hl, Hv. case_bool_decide as Hpur; [returns_err|].
  destruct (iter_find _ _) as [e|] eqn:Hf.
  { apply iter_find_Some in Hf as [He Ht%has_txn_id_true].
    destruct (tr_request e) as [| |g d'] eqn:Hr; [returns_err..|].
    case_bool_decide as Hd; [subst d'|returns_err].
    eexists _, _, s. split; [done|]. left. split; [done|]. right. split; [done|]. by exists e, g. }
  destruct (pending_to_activate base txn) as [[p binding]|] eqn:Hpa; [|returns_err].
  apply pending_to_activate_Ok in Hpa as (Hp & Htx & Hph & Hb).
  destruct (load_exact _ _ b) as [o b'] eqn:Hload.
  destruct (load_law _ _ _ _ _ Hbwf Hload) as (_ & _ & Hready).
  case_bool_decide as Ho; cbn [negb]; [|returns_err]. apply Hready in Ho as [Hitem _].
  destruct (validate_under_lease _ _ _ _ _ _ _) as [u|] eqn:Hval; [|returns_err].
  apply validate_under_lease_Ok in Hval as [Hvalid Hlease].
  destruct (commit_built_spec (λ fresh, Some (ActivateFromKeyObserved
      (activation_token txn p (rec_revision fresh)) d)) fresh now cap (io_drop 1 ios) (env s))
    as (res & s' & Hc & Hcase); [done..|by eauto using rsteps_Inv|by intros t [= <-]|].
  rewrite Htok in Hc. rewrite Hc. cbn [mbind option_bind].
  destruct Hcase as [(-> & [Herr|[_ [=]]])|(t & new & [= <-] & Hap & Hbt & Hres)].
  - destruct res as [|e]; [done|]. eexists _, b', _. split; [done|]. right.
    exists p, binding. split_and!; auto.
  - destruct Hres as [Herr|(-> & Hv' & Hsv)].
    + destruct res as [|e]; [done|]. eexists _, b', _. split; [done|]. right.
      exists p, binding. split_and!; auto. right. exists new. auto.
    + eexists _, b', _. split; [done|]. right. exists p, binding. split_and!; auto.
      right. exists new. auto 10.
Qed.

(** C31: what a successful activation means. Whatever others committed between
    its read and its commit, [Ok new] is either the answer already on record
    for this very request, or: the physical key was confirmed in the backend,
    the delegation validated for the record's own identity, the roster did not
    move between the two, the store durably holds [new], and [new] makes
    exactly the validated generation live and current (unless an identical
    request was recorded in between, which then is returned as it is). *)
Theorem activation_sound P env roster sig policy txn d now cap ios (b b' : B) (s s' : S)
    base fresh new :
  store_wf (env s) → store_token (env s) = store_token s →
  store_view s = Load_Exact base → store_view (env s) = Load_Exact fresh →
  Inv base → rtc rstep base fresh → backend_wf b →
  activate_from_key_observed P (store_token s) env roster sig policy txn d now cap ios b s
    = Some (Ok new, b', s') →
  (new = base ∧ s' = s ∧ recorded base txn d) ∨
  ∃ p binding, rec_pending_op base = Some p ∧ po_txn_id p = txn ∧
    rec_purpose base = PURPOSE_ID P ∧
    backend_item b (po_canonical_slot p) = Some binding ∧
    ValidBinding P (MkGenerationRecord (po_generation p) d binding (dg_not_after d))
      (from_identity (rec_identity base)) policy (roster 1%nat) sig now ∧
    currency_revision (roster 2%nat) (dg_delegator_m_id d) =
    currency_revision (roster 0%nat) (dg_delegator_m_id d) ∧
    store_view s' = Load_Exact new ∧ (∀ v, store_survives s' v → v = Load_Exact new) ∧
    recorded new txn d ∧
    (new = fresh ∨
     (rec_pending_op fresh = Some p ∧ rec_epoch_high_water fresh = rec_epoch_high_water base ∧
      rec_authority new = Authority_Active ∧ rec_current_generation new = Some (po_generation p) ∧
      rec_live_generations new = rec_live_generations fresh ++
        [MkGenerationRecord (po_generation p) d binding (dg_not_after d)])).
Proof.
  intros Hwf Htok Hv Hvf Hi Hs Hb Hcall.
  destruct (activate_spec P env roster sig policy txn d now cap ios b s base fresh)
    as (res & b1 & s1 & Hcall' & Hcase); [done..|].
  rewrite Hcall in Hcall'. injection Hcall' as <- <- <-.
  destruct Hcase as [(-> & [[=]|([= ->] & Hrec)])|Hmain]; [by left|]. right.
  destruct Hmain as (p & binding & Hp & Ht & Hph & Hpb & Hpur & Hitem & Hvalid & Hlease & Hc).
  destruct Hc as [[_ [=]]|(n & Hap & _ & [[=]|([= <-] & Hv' & Hsv)])].
  exists p, binding. subst txn.
  destruct (activation_applies _ _ _ _ _ _ _ _ Hi Hs Hp Hph Hpb Hap)
    as [[-> Hrec]|(Hpf & Hep & results & -> & Hrec)]; split_and!; auto.
  right. by split_and!.
Qed.

(** Revocation wins over a concurrent activation. If a revocation is
    committed at any point between the activation's read and its commit, the
    activation still returns but changes nothing that is visible, whatever
    else happens in between; it can only report a result already on record. *)
Theorem activation_fenced_by_revocation P env roster sig policy txn d now cap ios (b : B) (s : S)
    base r0 reason txn' now' cap' r1 fresh :
  store_wf (env s) → store_token (env s) = store_token s →
  store_view s = Load_Exact base → store_view (env s) = Load_Exact fresh →
  Inv base → backend_wf b →
  rtc rstep base r0 → txn' ∉ (tr_txn_id <$> rec_recent_terminal_results r0) →
  revoke_urgent r0 reason txn' now' cap' = Ok r1 → rtc rstep r1 fresh →
  ∃ res b' s', activate_from_key_observed P (store_token s) env roster sig policy txn d now cap
      ios b s = Some (res, b', s') ∧
    (s' = s ∨ store_view s' = Load_Exact fresh) ∧
    (∀ new, res = Ok new →
       (new = base ∧ recorded base txn d) ∨ (new = fresh ∧ recorded fresh txn d)).
Proof.
  intros Hwf Htok Hv Hvf Hi Hb Hs0 Hfresh Hrev Hs1.
  pose proof (rsteps_Inv _ _ Hs0 Hi) as Hi0.
  assert (rtc rstep base r1) as Hb1.
  { eapply rtc_r; [done|]. by eapply (rstep_apply _ (RevokeUrgent reason txn')). }
  assert (rtc rstep base fresh) as Hs by (by etrans).
  pose proof (revocation_raises_epoch _ _ _ _ _ _ _ _ Hi Hs0 Hfresh Hrev Hs1) as Hlt.
  destruct (activate_spec P env roster sig policy txn d now cap ios b s base fresh)
    as (res & b1 & s1 & Hcall & Hcase); [done..|].
  exists res, b1, s1. split; [done|].
  destruct Hcase as [(-> & [Herr|[-> Hrec]])|Hmain].
  { split; [by left|]. intros new ->. done. }
  { split; [by left|]. intros new [= <-]. by left. }
  destruct Hmain as (p & binding & Hp & <- & Hph & Hpb & _ & _ & _ & _ & Hc).
  destruct Hc as [[-> Herr]|(n & Hap & Hbt & Hres)].
  { split; [by right|]. intros new ->. done. }
  destruct (activation_applies _ _ _ _ _ _ _ _ Hi Hs Hp Hph Hpb Hap)
    as [[-> Hrec]|(_ & Hep & _)]; [|lia].
  split; [right; destruct (bt_view _ _ _ Hbt); congruence|]. intros new ->.
  destruct Hres as [[=]|([= <-] & _)]. by right.
Qed.

(** A record handed out by [load_and_revalidate] is the stored one, is of
    the purpose asked for, and every generation it calls live has its
    physical key in the backend right now and a delegation that is valid
    right now; if one is not, the load fails. *)
Theorem revalidated_record_sound P policy roster sig now io (b b' : B) (s : S) record :
  backend_wf b →
  load_and_revalidate P policy roster sig now io b s = (Ok record, b') →
  store_view s = Load_Exact record ∧ rec_purpose record = PURPOSE_ID P ∧
  ∀ i g, rec_live_generations record !! i = Some g →
    backend_item b (eb_slot (gr_binding g)) = Some (gr_binding g) ∧
    ValidBinding P g (from_identity (rec_identity record)) policy (roster i) sig now.
Proof.
  intros Hwf. unfold load_and_revalidate, revalidate_on_load.
  destruct (law_load io s) as [Hl|Hl]; [|by rewrite Hl].
  destruct (store_load io s) as [|r|]; [done| |done].
  case_bool_decide as Hp; [done|]. apply dec_stable in Hp || idtac.
  destruct (revalidate_generations _ _ _ _ _ _ _ b) as [[[]|e] b1] eqn:Hr; intros [= <- <-].
  split_and!; [done..|]. intros i g Hg. by eapply revalidate_generations_Ok.
Qed.
End claims.

(** *** The properties at work *)

Section witnesses.
#[local] Existing Instance sample_hashes.
#[local] Existing Instance sample_hash_laws.
#[local] Existing Instance sample_ciborium.
#[local] Existing Instance sample_ciborium_laws.

(** Activates [sample_observed] with [sample_delegation]. *)
Definition sample_activation (env : FileStore → FileStore) :=
  activate_from_key_observed MeshSessionPurpose 7 env (λ _, sample_roster) sample_verifier
    (policy_test 5000) (sample_txn 1) sample_delegation 10 4 (io_drop 1 sample_ios)
    sample_backend sample_store.

Definition outcome_of {E A B S} (m : option (Result E A * B * S)) : option (Result E A) :=
  (λ x, x.1.1) <$> m.

Lemma sample_activation_ok : outcome_of (sample_activation id) = Some (Ok sample_active).
Proof. by vm_compute. Qed.

Lemma activation_sound_witness :
  ∃ b' s', sample_activation id = Some (Ok sample_active, b', s') ∧
    rec_authority sample_active = Authority_Active ∧ recorded sample_active (sample_txn 1) sample_delegation.
Proof.
  pose proof sample_activation_ok as Hout.
  destruct (sample_activation id) as [[[r b'] s']|] eqn:Hcall; [|discriminate].
  injection Hout as ->. exists b', s'. split; [reflexivity|].
  destruct (activation_sound (S:=FileStore) (B:=FakeSecretBackend) MeshSessionPurpose id
    (λ _, sample_roster) sample_verifier (policy_test 5000) (sample_txn 1) sample_delegation 10 4
    (io_drop 1 sample_ios) sample_backend b' sample_store s' sample_observed sample_observed
    sample_active) as [(Hne & _)|(p & binding & _ & _ & _ & _ & _ & _ & _ & _ & Hrec & _)].
  - exact sample_disk_wf.
  - reflexivity.
  - vm_compute. reflexivity.
  - vm_compute. reflexivity.
  - exact sample_observed_Inv.
  - apply rtc_refl.
  - exact sample_backend_wf.
  - exact Hcall.
  - discriminate Hne.
  - split; [reflexivity|exact Hrec].
Defined.

(** A store that holds one record of the sample table. *)
Definition sample_dir (c : byte) : Dir :=
  {[as_bytes "record.cbor" := MkNode (MkMeta false true 1 501 384) [c] true]}.

Definition sample_holding (c : byte) : FileStore :=
  MkFileStore sample_fs
    (MkDisk (Some (MkMeta true false 2 501 448)) 501 (sample_dir c) [sample_dir c] []).

Lemma sample_dir_synced c :
  sample_dir c !! fs_name sample_fs = Some (MkNode (MkMeta false true 1 501 384) [c] true).
Proof. apply lookup_singleton_eq. Qed.

Lemma sample_holding_wf c : disk_wf (st_disk (sample_holding c)).
Proof. split; [left|]. by intros m [= <-]. Qed.

(** The store after someone revoked while the activation was validating. *)
Definition sample_revoked_store : FileStore := sample_holding "007".

Lemma activation_fenced_by_revocation_witness :
  ∃ res b' s', sample_activation (λ _, sample_revoked_store) = Some (res, b', s') ∧
    (∀ new, res = Ok new → (new = sample_observed ∧ recorded sample_observed (sample_txn 1) sample_delegation) ∨
       (new = sample_superseded ∧ recorded sample_superseded (sample_txn 1) sample_delegation)).
Proof.
  destruct (activation_fenced_by_revocation (S:=FileStore) (B:=FakeSecretBackend)
    MeshSessionPurpose (λ _, sample_revoked_store)
    (λ _, sample_roster) sample_verifier (policy_test 5000) (sample_txn 1) sample_delegation 10 4
    (io_drop 1 sample_ios) sample_backend sample_store sample_observed sample_observed
    Reason_Lost (sample_txn 2) 10 4 sample_superseded sample_superseded)
    as (res & b' & s' & Hcall & _ & Hres).
  - exact (sample_holding_wf _).
  - reflexivity.
  - vm_compute. reflexivity.
  - vm_compute. reflexivity.
  - exact sample_observed_Inv.
  - exact sample_backend_wf.
  - apply rtc_refl.
  - by_decide.
  - vm_compute. reflexivity.
  - apply rtc_refl.
  - exists res, b', s'. split; [exact Hcall|exact Hres].
Defined.

(** A store that holds [sample_active]. *)
Definition sample_active_store : FileStore := sample_holding "003".

Lemma revalidated_record_sound_witness :
  (load_and_revalidate MeshSessionPurpose (policy_test 5000) (λ _, sample_roster) sample_verifier 10
     sample_io sample_backend sample_active_store).1 = Ok sample_active ∧
  ValidBinding MeshSessionPurpose sample_granted (from_identity sample_identity)
    (policy_test 5000) sample_roster sample_verifier 10.
Proof.
  assert ((load_and_revalidate MeshSessionPurpose (policy_test 5000) (λ _, sample_roster)
    sample_verifier 10 sample_io sample_backend sample_active_store).1 = Ok sample_active) as Hout
    by (vm_compute; reflexivity).
  split; [exact Hout|].
  destruct (load_and_revalidate _ _ _ _ _ _ _ _) as [r b'] eqn:Hcall in Hout.
  cbn in Hout. subst r.
  destruct (revalidated_record_sound (S:=FileStore) (B:=FakeSecretBackend) MeshSessionPurpose
    (policy_test 5000) (λ _, sample_roster) sample_verifier 10 sample_io sample_backend b'
    sample_active_store sample_active) as (_ & _ & Hlive).
  - exact sample_backend_wf.
  - exact Hcall.
  - apply (Hlive 0%nat sample_granted). vm_compute. reflexivity.
Defined.
End witnesses.
