(* ===== verification/Sign.v ===== *)
(** * Checked signing

    Models [mesh-session-control-model-rs/src/sign.rs]: a signer capability
    loaded and validated with no lock held, and the signing operation that
    rechecks it under the roster lease and the sign guard. *)

From stdpp Require Import base gmap sets list strings.
From Stdlib Require Import ZArith Lia Ascii.
From S2P Require Import Prelude.
From S2P Require Import ControlRecord.
From S2P Require Import Transition.
From S2P Require Import TransitionInv.
From S2P Require Import TransitionEffect.
From S2P Require Import Samples.
From S2P Require Import TransitionSpec.
From S2P Require Import History.
From S2P Require Import Codec.
From S2P Require Import StoreSpec.
From S2P Require Import Store.
From S2P Require Import StoreProofs.
From S2P Require Import Commit.
From S2P Require Import Cell.
From S2P Require Import Validator.
From S2P Require Import Activate.

Open Scope Z_scope.

(** [SignerSource] and [SignPrimitive]: [W] is the source with the signers it
    owns; a [&dyn SignPrimitive] is the handle of one of them. *)
Class SignerSource (W : Type) := {
  load_exact_signer : ExactBinding → W → option (ExactBinding * nat);
  sign_opaque : nat → bytes → W → bytes * W;
}.

(** What the trait documents: the signer is the one of the very entry whose
    binding was observed, and signing does not change which key it is. *)
Class SignerContract (W : Type) `{!SignerSource W} := {
  signer_binding : W → nat → option ExactBinding;
  load_signer_law : ∀ e w observed k,
    load_exact_signer e w = Some (observed, k) → signer_binding w k = Some observed;
  sign_law : ∀ k m w sig w', sign_opaque k m w = (sig, w') →
    ∀ j, signer_binding w' j = signer_binding w j;
}.

Record SignerCapability := MkSignerCapability {
  cap_primitive : nat;
  cap_identity : ControlIdentity;
  cap_purpose : PurposeId;
  cap_epoch : Z;
  cap_validated_generation : GenerationRecord;
  cap_roster_revision_at_validation : Z;
}.

(** [SignerCapability::generation] *)
Definition cap_generation (c : SignerCapability) : Z :=
  gr_generation (cap_validated_generation c).

Inductive SignerCapabilityError :=
| SCE_NoRecord
| SCE_RecordCorrupt
| SCE_NotActive
| SCE_GenerationNotLive
| SCE_Validation (e : ValidationError)
| SCE_Expired.

Inductive SignCheckedError :=
| SE_NoRecord
| SE_RecordCorrupt
| SE_RosterChanged
| SE_DelegatorMismatch
| SE_NotActive
| SE_IdentityOrPurposeMismatch
| SE_EpochMismatch
| SE_GenerationNotLive
| SE_GenerationChanged
| SE_Expired
| SE_WatchdogTripped.

(** [Duration::from_millis(250)], in nanoseconds *)
Definition WATCHDOG_BUDGET : Z := 250 * 1000000.

Definition live_generation (record : MeshSignerControlRecordV1) (generation : Z)
    : option GenerationRecord :=
  iter_find (λ g, gr_generation g =? generation) (rec_live_generations record).

Section sign.
Context `{!Hashes} {S Io W : Type} `{!AtomicControlRecordStore S Io, !SignerSource W}.

(** [cell.load_canonical()] with the error of each caller. *)
Definition load_record {E} (no_record corrupt : E) (io : Io) (s : S)
    : Result E MeshSignerControlRecordV1 :=
  match store_load io s with
  | Load_Exact r => Ok r
  | Load_Missing => Err no_record
  | Load_Corrupt => Err corrupt
  end.

(** The roster is read twice: its revision first, the currency later. *)
Definition load_signer_capability (P : PurposeMarker) (policy : DelegationPolicy)
    (roster : nat → RosterLookup) (sig : SignatureVerifier) (now : Z)
    (requested_generation : Z) (io : Io) (w : W) (s : S)
    : Result SignerCapabilityError SignerCapability :=
  record ← load_record SCE_NoRecord SCE_RecordCorrupt io s;
  reject_if (bool_decide (rec_purpose record ≠ PURPOSE_ID P)) (SCE_Validation VE_PurposeMismatch);;
  reject_if (bool_decide (rec_authority record ≠ Authority_Active)) SCE_NotActive;;
  g ← ok_or (live_generation record requested_generation) SCE_GenerationNotLive;
  reject_if (gr_not_after g <=? now) SCE_Expired;;
  let roster_revision_at_validation :=
    currency_revision (roster 0%nat) (dg_delegator_m_id (gr_delegation g)) in
  entry ← ok_or (load_exact_signer (gr_binding g) w) (SCE_Validation VE_PhysicalKeyNotConfirmed);
  let '(observed, signer) := entry in
  reject_if (bool_decide (observed ≠ gr_binding g)) (SCE_Validation VE_PhysicalKeyNotConfirmed);;
  map_err SCE_Validation
    (validate_full_binding P g (from_identity (rec_identity record)) policy (roster 1%nat) sig now);;
  Ok {| cap_primitive := signer;
        cap_identity := rec_identity record;
        cap_purpose := rec_purpose record;
        cap_epoch := rec_epoch_high_water record;
        cap_validated_generation := g;
        cap_roster_revision_at_validation := roster_revision_at_validation |}.

(** Step 2: the delegator the lease will be taken for. *)
Definition check_delegator (capability : SignerCapability) (peek : MeshSignerControlRecordV1)
    : Result SignCheckedError unit :=
  g ← ok_or (live_generation peek (cap_generation capability)) SE_GenerationNotLive;
  reject_if (bool_decide (dg_delegator_m_id (gr_delegation g) ≠
    dg_delegator_m_id (gr_delegation (cap_validated_generation capability)))) SE_DelegatorMismatch.

(** Steps 5 and 6: the exact re-read and the fresh clock sample. *)
Definition recheck (capability : SignerCapability) (fresh : MeshSignerControlRecordV1) (now : Z)
    : Result SignCheckedError unit :=
  reject_if (bool_decide (rec_identity fresh ≠ cap_identity capability)
             || bool_decide (rec_purpose fresh ≠ cap_purpose capability))
    SE_IdentityOrPurposeMismatch;;
  reject_if (bool_decide (rec_authority fresh ≠ Authority_Active)) SE_NotActive;;
  reject_if (negb (rec_epoch_high_water fresh =? cap_epoch capability)) SE_EpochMismatch;;
  g ← ok_or (live_generation fresh (cap_generation capability)) SE_GenerationNotLive;
  reject_if (bool_decide (g ≠ cap_validated_generation capability)) SE_GenerationChanged;;
  reject_if (gr_not_after g <=? now) SE_Expired.

(** Everything before the primitive: [env] is what others do to the store
    between the peek and the sign guard, [roster] is the roster when the lease
    is asked for, [now] the clock sample under both locks. *)
Definition authorize (env : S → S) (roster : RosterLookup) (now : Z)
    (capability : SignerCapability) (ios : nat → Io) (s : S) : Result SignCheckedError unit :=
  peek ← load_record SE_NoRecord SE_RecordCorrupt (ios 0%nat) s;
  check_delegator capability peek;;
  map_err (λ _, SE_RosterChanged)
    (acquire_currency_lease roster
       (dg_delegator_m_id (gr_delegation (cap_validated_generation capability)))
       (cap_roster_revision_at_validation capability));;
  fresh ← load_record SE_NoRecord SE_RecordCorrupt (ios 1%nat) (env s);
  recheck capability fresh now.

(** [elapsed] is how long the primitive took. *)
Definition sign_checked (env : S → S) (roster : RosterLookup) (now elapsed : Z)
    (capability : SignerCapability) (preimage : bytes) (ios : nat → Io) (s : S) (w : W)
    : Result SignCheckedError bytes * W :=
  match authorize env roster now capability ios s with
  | Err e => (Err e, w)
  | Ok _ =>
      let '(signature, w) := sign_opaque (cap_primitive capability) preimage w in
      (if WATCHDOG_BUDGET <? elapsed then Err SE_WatchdogTripped else Ok signature, w)
  end.
End sign.

(** ** The fake signers *)

Record FakeSignPrimitive := MkFakeSignPrimitive {
  fsp_tag : byte;
  fsp_calls : Z;
}.

Record FakeSignerSource := MkFakeSignerSource {
  fss_entries : list (ExactBinding * FakeSignPrimitive);
}.

(** [AtomicU64::fetch_add(1)] wraps around. *)
Definition fake_sign_opaque (k : nat) (preimage : bytes) (w : FakeSignerSource)
    : bytes * FakeSignerSource :=
  match fss_entries w !! k with
  | Some (b, p) =>
      (fsp_tag p :: preimage,
       MkFakeSignerSource (<[k:=(b, MkFakeSignPrimitive (fsp_tag p)
         ((fsp_calls p + 1) mod u64_modulus))]> (fss_entries w)))
  | None => ([], w)
  end.

Definition fake_load_exact_signer (expected : ExactBinding) (w : FakeSignerSource)
    : option (ExactBinding * nat) :=
  k ← position (λ e, bool_decide (e.1 = expected)) (fss_entries w);
  e ← fss_entries w !! k;
  Some (e.1, k).

Definition calls_for (binding : ExactBinding) (w : FakeSignerSource) : option Z :=
  (λ e, fsp_calls e.2) <$> iter_find (λ e, bool_decide (e.1 = binding)) (fss_entries w).

#[export] Instance fake_signers : SignerSource FakeSignerSource :=
  {| load_exact_signer := fake_load_exact_signer; sign_opaque := fake_sign_opaque |}.

#[export] Program Instance fake_signers_contract : SignerContract FakeSignerSource :=
  {| signer_binding := λ w k, fst <$> fss_entries w !! k |}.
Next Obligation.
  intros e w observed k Hl. cbn in Hl. unfold fake_load_exact_signer in Hl.
  apply bind_Some in Hl as (i & _ & Hl). apply bind_Some in Hl as (x & Hx & [= <- <-]).
  by rewrite Hx.
Qed.
Next Obligation.
  intros k m w sig w' Hs j. cbn in Hs. unfold fake_sign_opaque in Hs.
  destruct (fss_entries w !! k) as [[b p]|] eqn:Hk; injection Hs as <- <-; [|done]. cbn.
  destruct (decide (j = k)) as [->|]; [|by rewrite list_lookup_insert_ne].
  rewrite list_lookup_insert_eq; [by rewrite Hk|by eapply lookup_lt_Some].
Qed.

(** ** Lemmas *)

Lemma live_generation_Some r n g :
  live_generation r n = Some g → g ∈ rec_live_generations r ∧ gr_generation g = n.
Proof. intros [Hg Hn%Z.eqb_eq]%iter_find_Some. done. Qed.

Lemma live_generation_unique `{!Hashes} r g :
  Consistent r → g ∈ rec_live_generations r → live_generation r (gr_generation g) = Some g.
Proof.
  intros Hc Hg. destruct (live_generation r (gr_generation g)) as [x|] eqn:Hf.
  - apply live_generation_Some in Hf as [Hx Hn]. f_equal.
    by eapply NoDup_fmap_inj_on; [apply Hc|..].
  - unfold live_generation in Hf. rewrite iter_find_None in Hf. specialize (Hf g Hg).
    by rewrite Z.eqb_refl in Hf.
Qed.

(** What must hold when the primitive runs, of the record read under the
    guard, the roster the lease was taken on, and the clock. *)
Record Authorized (c : SignerCapability) (roster : RosterLookup) (now : Z)
    (fresh : MeshSignerControlRecordV1) : Prop := {
  au_identity : rec_identity fresh = cap_identity c;
  au_purpose : rec_purpose fresh = cap_purpose c;
  au_active : rec_authority fresh = Authority_Active;
  au_epoch : rec_epoch_high_water fresh = cap_epoch c;
  au_live : live_generation fresh (cap_generation c) = Some (cap_validated_generation c);
  au_time : now < gr_not_after (cap_validated_generation c);
  au_lease : currency_revision roster
      (dg_delegator_m_id (gr_delegation (cap_validated_generation c))) =
    cap_roster_revision_at_validation c;
}.

Lemma recheck_Ok c fresh now u :
  recheck c fresh now = Ok u ↔
  rec_identity fresh = cap_identity c ∧ rec_purpose fresh = cap_purpose c ∧
  rec_authority fresh = Authority_Active ∧ rec_epoch_high_water fresh = cap_epoch c ∧
  live_generation fresh (cap_generation c) = Some (cap_validated_generation c) ∧
  now < gr_not_after (cap_validated_generation c).
Proof.
  unfold recheck. rewrite !bind_unit_Ok, !reject_if_Ok, orb_false_iff, !bool_decide_eq_false,
    negb_false_iff, Z.eqb_eq.
  destruct (live_generation fresh (cap_generation c)) as [g|]; cbn [ok_or];
    [change (Ok ?x ≫= ?f) with (f x); cbn beta|naive_solver].
  rewrite bind_unit_Ok, !reject_if_Ok, bool_decide_eq_false, Z.leb_gt.
  split.
  - intros ([?%dec_stable ?%dec_stable] & ?%dec_stable & ? & ?%dec_stable & ?). by subst.
  - intros (? & ? & ? & ? & [= ->] & ?). split_and!; auto.
Qed.

Section lemmas.
Context `{!Hashes} {S Io W : Type} `{!AtomicControlRecordStore S Io, !StoreContract S Io}.

Lemma load_record_Ok {E} (e1 e2 : E) io (s : S) r :
  load_record e1 e2 io s = Ok r → store_view s = Load_Exact r.
Proof.
  unfold load_record. destruct (law_load io s) as [->| ->]; [|done].
  destruct (store_view s); congruence.
Qed.

Lemma load_record_clean {E} (e1 e2 : E) io (s : S) r :
  io_clean s io → store_view s = Load_Exact r → load_record e1 e2 io s = Ok r.
Proof. intros Hc Hv. unfold load_record. by rewrite law_load_clean, Hv. Qed.

Lemma authorize_Ok env roster now c ios (s : S) u :
  authorize env roster now c ios s = Ok u →
  ∃ fresh, store_view (env s) = Load_Exact fresh ∧ Authorized c roster now fresh.
Proof.
  unfold authorize. intros Hok. apply bind_Ok in Hok as (peek & _ & Hok).
  apply bind_unit_Ok in Hok as [_ Hok]. apply bind_unit_Ok in Hok as [Hlease Hok].
  apply bind_Ok in Hok as (fresh & Hfresh & Hre). exists fresh.
  split; [by eapply load_record_Ok|].
  apply map_err_Ok, acquire_currency_lease_Ok in Hlease.
  apply recheck_Ok in Hre as (? & ? & ? & ? & ? & ?). by split.
Qed.
End lemmas.

(** ** The properties *)

Section claims.
Context `{!Hashes, !HashLaws} {S Io W : Type}
  `{!AtomicControlRecordStore S Io, !StoreContract S Io, !SignerSource W, !SignerContract W}.

(** A capability and the record it was loaded from. *)
Lemma load_signer_capability_Ok P policy roster sig now n io (w : W) (s : S) c :
  load_signer_capability P policy roster sig now n io w s = Ok c →
  ∃ base, store_view s = Load_Exact base ∧ rec_purpose base = PURPOSE_ID P ∧
    rec_authority base = Authority_Active ∧
    cap_identity c = rec_identity base ∧ cap_purpose c = rec_purpose base ∧
    cap_epoch c = rec_epoch_high_water base ∧
    cap_validated_generation c ∈ rec_live_generations base ∧ cap_generation c = n ∧
    cap_roster_revision_at_validation c = currency_revision (roster 0%nat)
      (dg_delegator_m_id (gr_delegation (cap_validated_generation c))) ∧
    signer_binding w (cap_primitive c) = Some (gr_binding (cap_validated_generation c)) ∧
    ValidBinding P (cap_validated_generation c) (from_identity (rec_identity base)) policy
      (roster 1%nat) sig now.
Proof.
  unfold load_signer_capability. intros Hok.
  apply bind_Ok in Hok as (base & Hbase & Hok). apply load_record_Ok in Hbase.
  apply bind_unit_Ok in Hok as [Hp Hok]. apply bind_unit_Ok in Hok as [Ha Hok].
  apply bind_Ok in Hok as (g & Hg & Hok). apply bind_unit_Ok in Hok as [_ Hok].
  apply bind_Ok in Hok as ([observed k] & Hk & Hok). apply bind_unit_Ok in Hok as [Ho Hok].
  apply bind_unit_Ok in Hok as [Hv [= <-]]. res_inv.
  apply dec_stable in Hp, Ha, Ho. apply load_signer_law in Hk. subst observed.
  apply live_generation_Some in Hg as [Hg <-]. apply validate_full_binding_Ok in Hv.
  exists base. by split_and!.
Qed.

(** The signing primitive runs only when authorized. A call that is not
    leaves every signer untouched and returns an error. When the primitive
    runs, the record visible under the guard is Active, of the sealed identity,
    purpose and epoch, still holds the validated generation unchanged, the
    clock is before its expiry, and the roster stands where it stood at
    validation; it signs exactly the given preimage with the sealed signer,
    and its bytes are returned unless it overran the watchdog. *)
Theorem sign_checked_safe env roster now elapsed c preimage ios (s : S) (w : W) :
  ∃ res w', sign_checked env roster now elapsed c preimage ios s w = (res, w') ∧
    ((w' = w ∧ ∃ e, res = Err e ∧ authorize env roster now c ios s = Err e) ∨
     ∃ fresh sg, store_view (env s) = Load_Exact fresh ∧ Authorized c roster now fresh ∧
       cap_validated_generation c ∈ rec_live_generations fresh ∧
       sign_opaque (cap_primitive c) preimage w = (sg, w') ∧
       res = if WATCHDOG_BUDGET <? elapsed then Err SE_WatchdogTripped else Ok sg).
Proof.
  unfold sign_checked. destruct (authorize env roster now c ios s) as [u|e] eqn:Ha.
  - apply authorize_Ok in Ha as (fresh & Hv & Hau).
    destruct (sign_opaque _ _ w) as [sg w'] eqn:Hs. eexists _, w'. split; [done|]. right.
    exists fresh, sg. split_and!; try done. by eapply live_generation_Some, Hau.
  - eexists _, w. split; [done|]. left. eauto.
Qed.

(** Signing end to end. A signature under a loaded capability is made by
    the key of the generation that was validated at load: the record then was
    Active with that generation live, the delegation was valid for the
    record's own identity and purpose, the roster has not moved since before
    that validation, and the stored record at signing time still holds this
    generation, unexpired, in the same epoch. *)
Theorem signature_by_validated_key P policy roster sig now n io (w w1 w2 : W) (s : S) c
    env lease now' elapsed preimage ios (s1 : S) sg :
  load_signer_capability P policy roster sig now n io w s = Ok c →
  (∀ j, signer_binding w1 j = signer_binding w j) →
  sign_checked env lease now' elapsed c preimage ios s1 w1 = (Ok sg, w2) →
  ∃ g base fresh, gr_generation g = n ∧
    store_view s = Load_Exact base ∧ g ∈ rec_live_generations base ∧
    ValidBinding P g (from_identity (rec_identity base)) policy (roster 1%nat) sig now ∧
    signer_binding w2 (cap_primitive c) = Some (gr_binding g) ∧
    currency_revision lease (dg_delegator_m_id (gr_delegation g)) =
    currency_revision (roster 0%nat) (dg_delegator_m_id (gr_delegation g)) ∧
    store_view (env s1) = Load_Exact fresh ∧ rec_authority fresh = Authority_Active ∧
    g ∈ rec_live_generations fresh ∧ now' < gr_not_after g ∧
    rec_identity fresh = rec_identity base ∧ rec_purpose fresh = PURPOSE_ID P ∧
    rec_epoch_high_water fresh = rec_epoch_high_water base.
Proof.
  intros Hload Hw1 Hsign.
  destruct (load_signer_capability_Ok _ _ _ _ _ _ _ _ _ _ Hload)
    as (base & Hv & Hp & _ & Hi & Hp' & Hep & Hg & Hn & Hrr & Hk & Hval).
  unfold sign_checked in Hsign. destruct (authorize env lease now' c ios s1) as [u|] eqn:Ha; [|done].
  apply authorize_Ok in Ha as (fresh & Hvf & Hau).
  destruct (sign_opaque _ _ w1) as [sg' w'] eqn:Hs. injection Hsign as _ <-.
  destruct Hau as [? ? ? ? Hlive ? Hlease]. apply live_generation_Some in Hlive as [Hlive _].
  exists (cap_validated_generation c), base, fresh.
  split_and!; try done; [|congruence..]. by rewrite (sign_law _ _ _ _ _ Hs), Hw1.
Qed.

(** C15: a revoked signer cannot sign. If a revocation is committed at any
    point between loading a capability and the guarded read of a signing call
    (whatever else follows, a reactivation included), the call fails and no
    signer runs. *)
Theorem revoked_signer_cannot_sign P policy roster sig now n io (w w1 : W) (s : S) c
    env lease now' elapsed preimage ios (s1 : S) base r0 reason txn now0 cap0 r1 fresh :
  load_signer_capability P policy roster sig now n io w s = Ok c →
  store_view s = Load_Exact base → Inv base → rtc rstep base r0 →
  txn ∉ (tr_txn_id <$> rec_recent_terminal_results r0) →
  revoke_urgent r0 reason txn now0 cap0 = Ok r1 → rtc rstep r1 fresh →
  store_view (env s1) = Load_Exact fresh →
  ∃ e, sign_checked env lease now' elapsed c preimage ios s1 w1 = (Err e, w1).
Proof.
  intros Hload Hv Hi Hs0 Hfresh Hrev Hs1 Hvf.
  destruct (load_signer_capability_Ok _ _ _ _ _ _ _ _ _ _ Hload)
    as (base' & Hv' & _ & _ & _ & _ & Hep & _).
  rewrite Hv in Hv'. injection Hv' as <-.
  unfold sign_checked. destruct (authorize env lease now' c ios s1) as [u|e] eqn:Ha; [|eauto].
  apply authorize_Ok in Ha as (fresh' & Hvf' & Hau). rewrite Hvf in Hvf'. injection Hvf' as <-.
  pose proof (au_epoch _ _ _ _ Hau).
  pose proof (revocation_raises_epoch _ _ _ _ _ _ _ _ Hi Hs0 Hfresh Hrev Hs1). lia.
Qed.

(** A valid signer is not locked out. With no system call failing, a
    capability whose generation is still live (the current one or an older
    one that has not expired) signs, as long as no revocation, no roster
    change and no expiry happened since it was loaded. *)
Theorem live_signer_signs P policy roster sig now n io (w w1 : W) (s : S) c
    env lease now' elapsed preimage ios (s1 : S) base peek fresh :
  load_signer_capability P policy roster sig now n io w s = Ok c →
  store_view s = Load_Exact base → store_view s1 = Load_Exact peek →
  store_view (env s1) = Load_Exact fresh → io_clean s1 (ios 0%nat) → io_clean (env s1) (ios 1%nat) →
  Inv base → rtc rstep base peek → rtc rstep peek fresh →
  cap_validated_generation c ∈ rec_live_generations peek →
  cap_validated_generation c ∈ rec_live_generations fresh →
  rec_authority fresh = Authority_Active →
  rec_epoch_high_water fresh = rec_epoch_high_water base →
  now' < gr_not_after (cap_validated_generation c) → elapsed ≤ WATCHDOG_BUDGET →
  (∀ m, currency_revision lease m = currency_revision (roster 0%nat) m) →
  ∃ sg w2, sign_checked env lease now' elapsed c preimage ios s1 w1 = (Ok sg, w2) ∧
    sign_opaque (cap_primitive c) preimage w1 = (sg, w2).
Proof.
  intros Hload Hv Hvp Hvf Hc0 Hc1 Hi Hs0 Hs1 Hgp Hgf Ha Hep Ht Hel Hroster.
  destruct (load_signer_capability_Ok _ _ _ _ _ _ _ _ _ _ Hload)
    as (base' & Hv' & _ & _ & Hid & Hpu & Hcep & _ & _ & Hrr & _).
  rewrite Hv in Hv'. injection Hv' as <-.
  pose proof (rsteps_Inv _ _ Hs0 Hi) as Hip. pose proof (rsteps_Inv _ _ Hs1 Hip) as Hif.
  destruct (rsteps_counters _ _ Hi Hs0) as (_ & Hid0 & Hpu0 & _).
  destruct (rsteps_counters _ _ Hip Hs1) as (_ & Hid1 & Hpu1 & _).
  assert (authorize env lease now' c ios s1 = Ok tt) as Hauth.
  { unfold authorize. rewrite (load_record_clean _ _ _ _ _ Hc0 Hvp).
    change (Ok ?x ≫= ?f) with (f x). cbn beta. apply bind_unit_Ok. split.
    { unfold check_delegator, cap_generation. rewrite live_generation_unique; [|apply Hip|done].
      cbn. by rewrite bool_decide_false by auto. }
    apply bind_unit_Ok. split.
    { apply map_err_Ok, acquire_currency_lease_Ok. by rewrite Hroster, Hrr. }
    rewrite (load_record_clean _ _ _ _ _ Hc1 Hvf). apply recheck_Ok.
    split_and!; try congruence. apply live_generation_unique; [apply Hif|done]. }
  unfold sign_checked. rewrite Hauth. destruct (sign_opaque _ _ w1) as [sg w2] eqn:Hs.
  exists sg, w2. split; [|done]. by destruct (Z.ltb_spec WATCHDOG_BUDGET elapsed); [lia|].
Qed.
End claims.

(** *** The properties at work *)

Section witnesses.
#[local] Existing Instance sample_hashes.
#[local] Existing Instance sample_hash_laws.
#[local] Existing Instance sample_ciborium.
#[local] Existing Instance sample_ciborium_laws.

(** Two signers; the second owns the key of [sample_active]. *)
Definition sample_signers : FakeSignerSource :=
  MkFakeSignerSource [(MkExactBinding sample_slot [] [], MkFakeSignPrimitive "A" 0);
                      (sample_binding, MkFakeSignPrimitive "B" 0)].

Definition sample_load_capability :=
  load_signer_capability MeshSessionPurpose (policy_test 5000) (λ _, sample_roster)
    sample_verifier 10 1 sample_io sample_signers sample_active_store.

Definition sample_capability : SignerCapability :=
  MkSignerCapability 1 sample_identity PurposeId_MeshSession 1 sample_granted 5.

Lemma sample_capability_loads : sample_load_capability = Ok sample_capability.
Proof. vm_compute. reflexivity. Qed.

Definition sample_sign (env : FileStore → FileStore) :=
  sign_checked env sample_roster 20 0 sample_capability (as_bytes "hi") (λ _, sample_io)
    sample_active_store sample_signers.

Lemma sample_sign_ok : (sample_sign id).1 = Ok (as_bytes "Bhi").
Proof. vm_compute. reflexivity. Qed.

Lemma signature_by_validated_key_witness :
  calls_for sample_binding (sample_sign id).2 = Some 1 ∧
  signer_binding (sample_sign id).2 1%nat = Some sample_binding.
Proof.
  split; [vm_compute; reflexivity|].
  pose proof sample_sign_ok as Hok. destruct (sample_sign id) as [res w2] eqn:Hs.
  cbn [fst] in Hok. subst res. cbn [snd].
  destruct (signature_by_validated_key (S:=FileStore) (W:=FakeSignerSource) MeshSessionPurpose
    (policy_test 5000) (λ _, sample_roster) sample_verifier 10 1 sample_io sample_signers
    sample_signers w2 sample_active_store sample_capability id sample_roster 20 0
    (as_bytes "hi") (λ _, sample_io) sample_active_store (as_bytes "Bhi"))
    as (g & base & fresh & Hn & Hv & Hg & _ & Hk & _).
  - exact sample_capability_loads.
  - reflexivity.
  - exact Hs.
  - assert (Load_Exact base = Load_Exact sample_active) as [= ->]
      by (rewrite <-Hv; vm_compute; reflexivity).
    apply list_elem_of_singleton in Hg as ->. exact Hk.
Defined.

Lemma revoked_signer_cannot_sign_witness :
  ∃ e, sample_sign (λ _, sample_holding "005") = (Err e, sample_signers).
Proof.
  apply (revoked_signer_cannot_sign (S:=FileStore) (W:=FakeSignerSource) MeshSessionPurpose
    (policy_test 5000) (λ _, sample_roster) sample_verifier 10 1 sample_io sample_signers
    sample_signers sample_active_store sample_capability (λ _, sample_holding "005")
    sample_roster 20 0 (as_bytes "hi") (λ _, sample_io) sample_active_store
    sample_active sample_active Reason_Lost (sample_txn 2) 10 4 sample_revoked
    sample_reactivating).
  - exact sample_capability_loads.
  - vm_compute. reflexivity.
  - exact sample_active_Inv.
  - apply rtc_refl.
  - by_decide.
  - vm_compute. reflexivity.
  - exact sample_revoked_then_reactivating.
  - vm_compute. reflexivity.
Defined.

Lemma live_signer_signs_witness :
  ∃ sg w2, sample_sign id = (Ok sg, w2).
Proof.
  destruct (live_signer_signs (S:=FileStore) (W:=FakeSignerSource) MeshSessionPurpose
    (policy_test 5000) (λ _, sample_roster) sample_verifier 10 1 sample_io sample_signers
    sample_signers sample_active_store sample_capability id
    sample_roster 20 0 (as_bytes "hi") (λ _, sample_io) sample_active_store
    sample_active sample_active sample_active) as (sg & w2 & Hs & _).
  - exact sample_capability_loads.
  - vm_compute. reflexivity.
  - vm_compute. reflexivity.
  - vm_compute. reflexivity.
  - by vm_compute.
  - by vm_compute.
  - exact sample_active_Inv.
  - apply rtc_refl.
  - apply rtc_refl.
  - by_decide.
  - by_decide.
  - reflexivity.
  - reflexivity.
  - by vm_compute.
  - by vm_compute.
  - reflexivity.
  - exists sg, w2. exact Hs.
Defined.
End witnesses.
