(* ===== verification/Gc.v ===== *)
(** * The GC worker

    Models [mesh-session-control-model-rs/src/gc.rs]: one tick of the worker
    that inspects and destroys the keys of retired slots, and the removal
    pass. Everything runs against a store and a backend that others may use
    between any two of its calls. *)

From stdpp Require Import base gmap sets list strings.
From Stdlib Require Import ZArith Lia Ascii.
From S2P Require Import Prelude.
From S2P Require Import ControlRecord.
From S2P Require Import Transition.
From S2P Require Import TransitionInv.
From S2P Require Import TransitionEffect.
From S2P Require Import Samples.
From S2P Require Import TransitionSpec.
From S2P Require Import History.
From S2P Require Import Codec.
From S2P Require Import StoreSpec.
From S2P Require Import Store.
From S2P Require Import StoreProofs.
From S2P Require Import Commit.
From S2P Require Import Cell.
From S2P Require Import Backend.
From S2P Require Import Activate.

Open Scope Z_scope.

(** What the worker asked of the backend; a destruction is recorded with the
    store at the moment of the call. *)
Inductive GcEvent (S : Type) :=
| Inspected (slot : SlotId) (outcome : InspectOutcome)
| Destroyed (slot : SlotId) (binding : ExactBinding) (store : S).
Arguments Inspected {S} _ _.
Arguments Destroyed {S} _ _ _.

(** The store, the backend, how many actions have happened, and the calls
    made so far, the latest first. *)
Record World (S B : Type) := MkWorld {
  w_store : S;
  w_backend : B;
  w_clock : nat;
  w_events : list (GcEvent S);
}.
Arguments MkWorld {S B} _ _ _ _.
Arguments w_store {S B} _.
Arguments w_backend {S B} _.
Arguments w_clock {S B} _.
Arguments w_events {S B} _.

(** The tick's local sets and counter. *)
Record Seen := MkSeen {
  resolved_count : nat;
  indeterminate_this_tick : gset string;
  inspected_this_tick : gset string;
  bound_attempted_this_tick : gset string;
}.

Definition seen_nothing : Seen := MkSeen 0 ∅ ∅ ∅.

Definition count_resolved (committed : bool) (seen : Seen) : Seen :=
  MkSeen (if committed then Datatypes.S (resolved_count seen) else resolved_count seen)
    (indeterminate_this_tick seen) (inspected_this_tick seen) (bound_attempted_this_tick seen).
Definition set_indeterminate (id : string) (seen : Seen) : Seen :=
  MkSeen (resolved_count seen) ({[id]} ∪ indeterminate_this_tick seen)
    (inspected_this_tick seen) (bound_attempted_this_tick seen).
Definition set_inspected (id : string) (seen : Seen) : Seen :=
  MkSeen (resolved_count seen) (indeterminate_this_tick seen)
    ({[id]} ∪ inspected_this_tick seen) (bound_attempted_this_tick seen).
Definition set_bound_attempted (id : string) (seen : Seen) : Seen :=
  MkSeen (resolved_count seen) (indeterminate_this_tick seen)
    (inspected_this_tick seen) ({[id]} ∪ bound_attempted_this_tick seen).

(** How a run ends: it returns, an [unreachable!] or an assertion fires, or
    the model's fuel is spent. *)
Inductive Run (A : Type) :=
| Returned (r : Result CommitTransitionError A)
| Panicked
| OutOfFuel.
Arguments Returned {A} _.
Arguments Panicked {A}.
Arguments OutOfFuel {A}.

Section gc.
Context `{!Hashes} {S Io B : Type} `{!AtomicControlRecordStore S Io, !SecretBackend B}.
(** The guard's token, what others do before each action, the I/O behaviour
    of each action. *)
Variables (token : Z) (env : nat → S → B → S * B) (ios : nat → nat → Io).
Variables (now : Z) (max_cap : nat).
Implicit Types w : World S B.

Definition interfere w : World S B :=
  let '(s, b) := env (w_clock w) (w_store w) (w_backend w) in
  MkWorld s b (Datatypes.S (w_clock w)) (w_events w).

Definition w_load w : LoadOutcome * World S B :=
  let w := interfere w in
  (store_load (ios (w_clock w) 0%nat) (w_store w), w).

Definition w_commit_built (build : MeshSignerControlRecordV1 → option RecordTransition) w
    : option (Result CommitTransitionError (option MeshSignerControlRecordV1) * World S B) :=
  let w := interfere w in
  '(r, s) ← commit_built_privileged token build now max_cap (ios (w_clock w)) (w_store w);
  Some (r, MkWorld s (w_backend w) (w_clock w) (w_events w)).

Definition w_sweep w : option (World S B) :=
  let w := interfere w in
  s ← store_sweep token (ios (w_clock w) 0%nat) (w_store w);
  Some (MkWorld s (w_backend w) (w_clock w) (w_events w)).

Definition w_inspect (slot : SlotId) w : InspectOutcome * World S B :=
  let w := interfere w in
  let '(o, b) := inspect slot (w_backend w) in
  (o, MkWorld (w_store w) b (w_clock w) (Inspected slot o :: w_events w)).

Definition w_gc_best_effort (slot : SlotId) (binding : ExactBinding) w : GcReport * World S B :=
  let w := interfere w in
  let '(r, b) := gc_best_effort slot binding (w_backend w) in
  (r, MkWorld (w_store w) b (w_clock w) (Destroyed slot binding (w_store w) :: w_events w)).

(** The selection filter. *)
Definition selectable (seen : Seen) (e : GcEntry) : bool :=
  let id := canonical_id (gc_slot e) in
  if observation_complete_and_residual_zero e then false
  else if bool_decide (id ∈ indeterminate_this_tick seen) then false
  else if match e with
          | GcEntry_Bound _ _ _ GcState_Quarantine | GcEntry_InspectionConflict _ _ => true
          | _ => false
          end then false
  else if match e with
          | GcEntry_AwaitingInspection _ _ | GcEntry_AbsentUnconfirmed _ _ => true
          | _ => false
          end && bool_decide (id ∈ inspected_this_tick seen) then false
  else if match e with GcEntry_Bound _ _ _ _ => true | _ => false end
          && bool_decide (id ∈ bound_attempted_this_tick seen) then false
  else true.

(** [fresh.gc_pending.iter().any(..).then(|| t)] *)
Definition if_tracked (slot_id : string) (txn_id : bytes) (t : RecordTransition)
    (fresh : MeshSignerControlRecordV1) : option RecordTransition :=
  if iter_any (is_gc_entry slot_id txn_id) (rec_gc_pending fresh) then Some t else None.

(** Commits a result and counts it. *)
Definition commit_and_count (build : MeshSignerControlRecordV1 → option RecordTransition)
    (seen : Seen) w : option (Result CommitTransitionError Seen * World S B) :=
  '(r, w) ← w_commit_built build w;
  Some (match r with
        | Ok committed => Ok (count_resolved (is_some committed) seen)
        | Err e => Err e
        end, w).

Definition inspect_arm (slot : SlotId) (slot_id : string) (txn_id : bytes) (seen : Seen) w
    : option (Result CommitTransitionError Seen * World S B) :=
  let seen := set_inspected slot_id seen in
  let '(o, w) := w_inspect slot w in
  match o with
  | Inspect_Indeterminate => Some (Ok (set_indeterminate slot_id seen), w)
  | Inspect_Conflict =>
      commit_and_count (if_tracked slot_id txn_id (GcInspectionConflict slot_id)) seen w
  | Inspect_Present b =>
      commit_and_count (if_tracked slot_id txn_id (GcInspected slot_id (Some b))) seen w
  | Inspect_Absent =>
      commit_and_count (if_tracked slot_id txn_id (GcInspected slot_id None)) seen w
  end.

Definition bound_arm (slot : SlotId) (binding : ExactBinding) (slot_id : string) (txn_id : bytes)
    (seen : Seen) w : option (Result CommitTransitionError Seen * World S B) :=
  let seen := set_bound_attempted slot_id seen in
  '(stabilized, w) ← w_commit_built (if_tracked slot_id txn_id StabilizationRewrite) w;
  match stabilized with
  | Err e => Some (Err e, w)
  | Ok None => Some (Ok seen, w)
  | Ok (Some _) =>
      let '(report, w) := w_gc_best_effort slot binding w in
      if negb (gc_observation_complete report)
      then Some (Ok (set_indeterminate slot_id seen), w)
      else commit_and_count (if_tracked slot_id txn_id
             (GcResolved slot_id (negb (gc_residual report)) (gc_mismatch report))) seen w
  end.

(** One entry. [None] is the [unreachable!] of the last two arms. *)
Definition process_entry (entry : GcEntry) (seen : Seen) w
    : option (Result CommitTransitionError Seen * World S B) :=
  let slot_id := canonical_id (gc_slot entry) in
  let txn_id := gc_txn_id entry in
  match entry with
  | GcEntry_AwaitingInspection slot _ | GcEntry_AbsentUnconfirmed slot _ =>
      inspect_arm slot slot_id txn_id seen w
  | GcEntry_Bound slot _ binding _ => bound_arm slot binding slot_id txn_id seen w
  | GcEntry_Absent _ _ | GcEntry_InspectionConflict _ _ => None
  end.

Fixpoint tick_loop (fuel : nat) (seen : Seen) w : Run nat * World S B :=
  match fuel with
  | O => (OutOfFuel, w)
  | Datatypes.S fuel =>
      let '(loaded, w) := w_load w in
      match loaded with
      | Load_Missing => (Returned (Err CTE_NoRecord), w)
      | Load_Corrupt => (Returned (Err CTE_RecordCorrupt), w)
      | Load_Exact rec =>
          match iter_find (selectable seen) (rec_gc_pending rec) with
          | None => (Returned (Ok (resolved_count seen)), w)
          | Some entry =>
              match process_entry entry seen w with
              | None => (Panicked, w)
              | Some (Err e, w) => (Returned (Err e), w)
              | Some (Ok seen, w) => tick_loop fuel seen w
              end
          end
      end
  end.

Definition gc_worker_tick (fuel : nat) w : Run nat * World S B :=
  match w_sweep w with
  | None => (Panicked, w)
  | Some w => tick_loop fuel seen_nothing w
  end.

Definition is_removable (e : GcEntry) : bool :=
  match e with
  | GcEntry_Bound _ _ _ GcState_Done | GcEntry_Absent _ _ => true
  | _ => false
  end.

Definition next_removal (fresh : MeshSignerControlRecordV1) : option RecordTransition :=
  entry ← iter_find is_removable (rec_gc_pending fresh);
  Some (GcRemoval (canonical_id (gc_slot entry)) (gc_txn_id entry)).

Fixpoint removal_loop (fuel : nat) (removed : nat) w : Run nat * World S B :=
  match fuel with
  | O => (OutOfFuel, w)
  | Datatypes.S fuel =>
      match w_commit_built next_removal w with
      | None => (Panicked, w)
      | Some (Err e, w) => (Returned (Err e), w)
      | Some (Ok (Some _), w) => removal_loop fuel (Datatypes.S removed) w
      | Some (Ok None, w) => (Returned (Ok removed), w)
      end
  end.

Definition gc_removal_pass (fuel : nat) w : Run nat * World S B := removal_loop fuel 0 w.
End gc.
