(* ===== verification/GcProofs.v ===== *)
(** * Safety and termination of the GC worker

    Theorems about [gc.rs] over the file-backed store and any backend that
    keeps its contract, with arbitrary interference between any two actions. *)

From stdpp Require Import base gmap sets list strings.
From Stdlib Require Import ZArith Lia Ascii.
From S2P Require Import Prelude.
From S2P Require Import ControlRecord.
From S2P Require Import Transition.
From S2P Require Import TransitionInv.
From S2P Require Import TransitionEffect.
From S2P Require Import Samples.
From S2P Require Import TransitionSpec.
From S2P Require Import History.
From S2P Require Import Codec.
From S2P Require Import StoreSpec.
From S2P Require Import Store.
From S2P Require Import StoreProofs.
From S2P Require Import Commit.
From S2P Require Import Cell.
From S2P Require Import Backend.
From S2P Require Import Gc.
From S2P Require Import Activate.

Open Scope Z_scope.

(** Ids of the GC entries of a record, and of the record a store shows. *)
Definition gc_ids `{!Hashes} (r : MeshSignerControlRecordV1) : gset string :=
  list_to_set ((λ e, canonical_id (gc_slot e)) <$> rec_gc_pending r).

Definition view_ids `{!Hashes, !Ciborium} (s : FileStore) : gset string :=
  match view (st_fs s) (st_disk s) with Load_Exact r => gc_ids r | _ => ∅ end.

(** No record that is visible, or that a crash may leave, can use [slot], now
    or after any history that follows. *)
Definition beyond_use `{!Hashes, !Ciborium} (s : FileStore) (slot : SlotId) : Prop :=
  ∀ v, survives (st_fs s) (st_disk s) v →
  ∃ r, v = Load_Exact r ∧ ∀ r', rtc rstep r r' → slot ∉ usable_slots r'.

Definition inspected_ids `{!Hashes} {S} (l : list (GcEvent S)) : list string :=
  omap (λ ev, match ev with Inspected slot _ => Some (canonical_id slot) | _ => None end) l.

Definition destroyed_ids `{!Hashes} {S} (l : list (GcEvent S)) : list string :=
  omap (λ ev, match ev with Destroyed slot _ _ => Some (canonical_id slot) | _ => None end) l.

(** The transitions the worker builds about one entry. *)
Definition worker_transition (id : string) (t : RecordTransition) : Prop :=
  match t with
  | GcInspected i _ | GcInspectionConflict i | GcResolved i _ _ => i = id
  | StabilizationRewrite => True
  | _ => False
  end.

Lemma size_grows (x : string) (X : gset string) : ¬ x ∈ X → size ({[x]} ∪ X) = S (size X).
Proof. intros Hx. rewrite size_union by set_solver. by rewrite size_singleton. Qed.

Lemma grow_subseteq (x : string) (X Y : gset string) : x ∈ Y → X ⊆ Y → {[x]} ∪ X ⊆ Y.
Proof. set_solver. Qed.

Lemma ids_within (X Y Z extra ids : gset string) :
  X ∪ extra ⊆ ids → Y ⊆ X ∪ extra → Z ⊆ Y ∪ extra → Z ∪ extra ⊆ ids.
Proof. set_solver. Qed.

Section proofs.
Context `{!Hashes, !HashLaws, !Ciborium, !CiboriumLaws} {B : Type}
  `{!SecretBackend B, !BackendContract B}.
Variables (token : Z) (env : nat → FileStore → B → FileStore * B) (ios : nat → nat → StoreIo).
Variables (now : Z) (max_cap : nat).
Implicit Types (w : World FileStore B) (s : FileStore).

(** What others may do between two actions: anything the cell allows, crashes
    included, and anything that keeps the backend well formed. *)
Definition env_ok : Prop := ∀ k s b,
  rtc cstep s (env k s b).1 ∧ (backend_wf b → backend_wf (env k s b).2).

(** Others add GC work only for slots of [extra] during the run. *)
Definition env_adds (extra : gset string) : Prop := ∀ k s b,
  view_ids (env k s b).1 ⊆ view_ids s ∪ extra.

Record sane w : Prop := {
  sane_view : ∃ r, Inv r ∧ healthy r (w_store w);
  sane_token : store_token (w_store w) = token;
  sane_backend : backend_wf (w_backend w);
}.

Hypothesis Henv : env_ok.

(** One action of the run: the store moves by steps of the cell only. *)
Record advance w w' : Prop := {
  adv_sane : sane w';
  adv_steps : rtc cstep (w_store w) (w_store w');
  adv_ids : ∀ extra, env_adds extra → view_ids (w_store w') ⊆ view_ids (w_store w) ∪ extra;
}.

Lemma advance_refl w : sane w → advance w w.
Proof. split; [done..|]. set_solver. Qed.

Lemma advance_trans w1 w2 w3 : advance w1 w2 → advance w2 w3 → advance w1 w3.
Proof.
  intros [_ ? Hi1] [? ? Hi2]. split; [done|by etrans|]. intros extra He.
  specialize (Hi1 extra He). specialize (Hi2 extra He). set_solver.
Qed.

Lemma sane_steps w s b clock ev :
  sane w → rtc cstep (w_store w) s → backend_wf b → sane (MkWorld s b clock ev).
Proof.
  intros [(r & Hi & Hh) Ht _] Hs Hb. split; cbn; [| |done].
  - exists r. split; [done|]. by eapply healthy_steps.
  - cbn in *. by rewrite (csteps_fs _ _ Hs).
Qed.

Lemma interfere_advance w : sane w → advance w (interfere env w).
Proof.
  intros Hs. unfold interfere. destruct (Henv (w_clock w) (w_store w) (w_backend w)) as [Hst Hb].
  destruct (env _ _ _) as [s b] eqn:He. cbn in Hst, Hb. split; cbn; [|done|].
  - eapply sane_steps; [done..|]. apply Hb, Hs.
  - intros extra Hx. specialize (Hx (w_clock w) (w_store w) (w_backend w)). by rewrite He in Hx.
Qed.

Lemma sane_record w : sane w → ∃ r, view (st_fs (w_store w)) (st_disk (w_store w)) = Load_Exact r ∧ Inv r.
Proof.
  intros [(r0 & Hi & Hh) _ _]. destruct (he_view _ _ Hh) as (r & Hv & Hs).
  exists r. split; [done|]. by eapply rsteps_Inv.
Qed.

Lemma sane_wf w : sane w → store_wf (w_store w).
Proof. intros [(r0 & Hi & Hh) _ _]. apply Hh. Qed.

(** *** The worker's commits *)

Lemma worker_effect_ids old now' t new id :
  arm_effect old now' t new → worker_transition id t → gc_ids new ⊆ gc_ids old.
Proof.
  intros Heff Ht. destruct Heff as [| | | | | |t idx e e' _ Hidx Hedge _| | |]; try done.
  apply gc_edge_slot in Hedge as [Hslot _]. unfold gc_ids. cbn.
  rewrite list_fmap_insert, Hslot, list_insert_id; [done|]. by rewrite list_lookup_fmap, Hidx.
Qed.

Lemma worker_apply_ids old t cap new id :
  Inv old → apply old t now cap = Ok new → worker_transition id t → gc_ids new ⊆ gc_ids old.
Proof.
  intros Hi Hok Ht. destruct (apply_effect _ _ _ _ _ Hi Hok) as [->|Heff]; [done|].
  by eapply worker_effect_ids.
Qed.

(** A commit that never adds entries: what it leaves and what it reports. *)
Lemma w_commit_built_advance build w :
  sane w →
  (∀ base t, Inv base → build base = Some t → transition_wf t ∧ evidence_ok base t) →
  (∀ base t new, Inv base → build base = Some t → apply base t now max_cap = Ok new →
     gc_ids new ⊆ gc_ids base) →
  ∃ r w', w_commit_built token env ios now max_cap build w = Some (r, w') ∧ advance w w' ∧
    w_events w' = w_events w ∧
    (∀ new, r = Ok (Some new) → ∃ base t, Inv base ∧ build base = Some t ∧
       apply base t now max_cap = Ok new ∧ view_ids (w_store (interfere env w)) = gc_ids base ∧
       healthy new (w_store w') ∧ view_ids (w_store w') = gc_ids new) ∧
    (r = Ok None → ∃ base, view (st_fs (w_store w')) (st_disk (w_store w')) = Load_Exact base ∧
       build base = None).
Proof.
  intros Hs Hb Hids. pose proof (interfere_advance _ Hs) as Hadv. unfold w_commit_built.
  assert (w_events (interfere env w) = w_events w) as Hev
    by (unfold interfere; by destruct (env _ _ _)).
  set (w1 := interfere env w) in *. pose proof (adv_sane _ _ Hadv) as Hs1.
  destruct (sane_record _ Hs1) as (base & Hv & Hi).
  destruct (commit_built_spec build base now max_cap (ios (w_clock w1)) (w_store w1))
    as (res & s' & Hc & Hcase);
    [by apply sane_wf|done|done|by intros t; apply Hb|].
  assert (cstep (w_store w1) s') as Hstep by (by eapply (cstep_built build)).
  rewrite (sane_token _ Hs1) in Hc. rewrite Hc. cbn [mbind option_bind].
  assert (view_ids (w_store w1) = gc_ids base) as Hvb by (unfold view_ids; by rewrite Hv).
  eexists res, _. split; [done|]. split_and!; [|done| |].
  - eapply advance_trans; [exact Hadv|]. split; cbn; [by eapply sane_steps; [|apply rtc_once|apply Hs1]|
      by apply rtc_once|].
    intros extra _. rewrite Hvb.
    destruct Hcase as [[-> _]|(t & new & Ht & Hap & Hbt & _)]; [rewrite Hvb; apply union_subseteq_l|].
    apply (union_subseteq_l' _ _ extra). specialize (Hids _ _ _ Hi Ht Hap). unfold view_ids.
    destruct (bt_view _ _ _ Hbt) as [Hv'|Hv']; cbn in Hv'; rewrite Hv'; [by rewrite Hv|done].
  - intros new ->. destruct Hcase as [(_ & [[=]|[[=] _]])|(t & n & Ht & Hap & Hbt & [[=]|([= <-] & Hv' & Hsv)])].
    exists base, t. split_and!; try done.
    + split; cbn; [apply Hbt|by exists new|]. intros v Hvv. exists new. by rewrite (Hsv v Hvv).
    + unfold view_ids. cbn in *. by rewrite Hv'.
  - intros ->. destruct Hcase as [(-> & [[=]|[_ Hn]])|(t & n & Ht & Hap & Hbt & [[=]|([=] & _)])].
    by exists base.
Qed.

Lemma if_tracked_Some id txn t fresh t' :
  if_tracked id txn t fresh = Some t' →
  t' = t ∧ ∃ e, e ∈ rec_gc_pending fresh ∧ canonical_id (gc_slot e) = id.
Proof.
  unfold if_tracked. destruct (iter_any _ _) eqn:Ha; [|done]. intros [= <-]. split; [done|].
  apply iter_any_true in Ha as (e & He & Hid). apply andb_true_iff in Hid as [Hid _].
  apply bool_decide_eq_true in Hid. eauto.
Qed.

Lemma gc_slot_wf r e : Inv r → e ∈ rec_gc_pending r → slot_wf (gc_slot e).
Proof.
  intros [(_ & _ & _ & _ & Hwf) _ _ _] He. apply Hwf. unfold tracked_slots.
  rewrite !elem_of_app. right. left. by apply list_elem_of_fmap_2.
Qed.

(** Entries with the id of a well-formed slot are entries of that slot. *)
Lemma gc_slot_by_id r e slot :
  Inv r → slot_wf slot → e ∈ rec_gc_pending r → canonical_id (gc_slot e) = canonical_id slot →
  gc_slot e = slot.
Proof. intros Hi Hwf He Hid. eapply canonical_id_inj; eauto using gc_slot_wf. Qed.

Lemma worker_wf id t : worker_transition id t → transition_wf t.
Proof. by destruct t. Qed.

Lemma worker_commit id txn t w :
  sane w → worker_transition id t → (∀ base, Inv base → evidence_ok base t) →
  ∃ r w', w_commit_built token env ios now max_cap (if_tracked id txn t) w = Some (r, w') ∧
    advance w w' ∧ w_events w' = w_events w ∧
    (t = StabilizationRewrite → ∀ new, r = Ok (Some new) → Inv new ∧ healthy new (w_store w') ∧
       ∃ e, e ∈ rec_gc_pending new ∧ canonical_id (gc_slot e) = id).
Proof.
  intros Hs Ht Hev.
  destruct (w_commit_built_advance (if_tracked id txn t) w) as (r & w' & Hc & Ha & He & Hok & _);
    [done| | |].
  - intros base t' Hi [-> _]%if_tracked_Some. split; [by eapply worker_wf|by apply Hev].
  - intros base t' new Hi [-> _]%if_tracked_Some Hap. by eapply worker_apply_ids.
  - exists r, w'. split_and!; [done..|]. intros -> new ->.
    destruct (Hok _ eq_refl) as (base & t' & Hi & Hb & Hap & _ & Hh & _).
    apply if_tracked_Some in Hb as [-> He'].
    assert (new = base) as ->; [|done].
    destruct (apply_effect _ _ _ _ _ Hi Hap) as [->|Heff]; [done|]. by inversion Heff.
Qed.

(** Steps after the record durably lists a slot for GC cannot bring it back. *)
Lemma retired_beyond_use r e s s' slot :
  Inv r → healthy r s → e ∈ rec_gc_pending r → gc_slot e = slot → rtc cstep s s' →
  beyond_use s' slot.
Proof.
  intros Hi Hh He <- Hs v Hv. pose proof (healthy_steps _ _ _ Hi Hh Hs) as Hh'.
  destruct (he_survives _ _ Hh' v Hv) as (x & -> & Hx). exists x. split; [done|].
  intros r' Hr'. eapply retired_forever; [done|by etrans|]. by apply list_elem_of_fmap_2.
Qed.

(** *** One entry *)

Definition seen_inspected (id : string) (seen seen' : Seen) : Prop :=
  inspected_this_tick seen' = {[id]} ∪ inspected_this_tick seen ∧
  bound_attempted_this_tick seen' = bound_attempted_this_tick seen.

Definition seen_bound (id : string) (seen seen' : Seen) : Prop :=
  inspected_this_tick seen' = inspected_this_tick seen ∧
  bound_attempted_this_tick seen' = {[id]} ∪ bound_attempted_this_tick seen.

Lemma commit_and_count_spec id txn t seen w :
  sane w → worker_transition id t → (∀ base, Inv base → evidence_ok base t) →
  ∃ r w', commit_and_count token env ios now max_cap (if_tracked id txn t) seen w = Some (r, w') ∧
    advance w w' ∧ w_events w' = w_events w ∧
    (∀ seen', r = Ok seen' → inspected_this_tick seen' = inspected_this_tick seen ∧
       bound_attempted_this_tick seen' = bound_attempted_this_tick seen).
Proof.
  intros Hs Ht Hev. destruct (worker_commit id txn t w Hs Ht Hev) as (r & w' & Hc & Ha & He & _).
  unfold commit_and_count. rewrite Hc. cbn [mbind option_bind]. eexists _, w'.
  split_and!; [done..|]. intros seen' Hr. destruct r; [by injection Hr as <-|done].
Qed.

Lemma inspect_arm_spec slot txn seen w :
  sane w → slot_wf slot →
  ∃ r w', inspect_arm token env ios now max_cap slot (canonical_id slot) txn seen w = Some (r, w') ∧
    advance w w' ∧ (∃ o, w_events w' = Inspected slot o :: w_events w) ∧
    (∀ seen', r = Ok seen' → seen_inspected (canonical_id slot) seen seen').
Proof.
  intros Hs Hwf. pose proof (interfere_advance _ Hs) as Hadv.
  assert (w_events (interfere env w) = w_events w) as Hev
    by (unfold interfere; by destruct (env _ _ _)).
  unfold inspect_arm, w_inspect. set (w1 := interfere env w) in *.
  pose proof (adv_sane _ _ Hadv) as Hs1. destruct (inspect slot (w_backend w1)) as [o b] eqn:Hi.
  destruct (inspect_law _ _ _ _ (sane_backend _ Hs1) Hi) as (Hbwf & _ & Hpres & _).
  set (w2 := MkWorld _ _ _ _). assert (advance w w2) as Hadv2.
  { eapply advance_trans; [exact Hadv|]. split; cbn; [by eapply sane_steps|done|intros; apply union_subseteq_l]. }
  assert (∀ t, worker_transition (canonical_id slot) t → (∀ base, Inv base → evidence_ok base t) →
    ∃ r w', commit_and_count token env ios now max_cap (if_tracked (canonical_id slot) txn t)
        (set_inspected (canonical_id slot) seen) w2 = Some (r, w') ∧
      advance w w' ∧ (∃ o, w_events w' = Inspected slot o :: w_events w) ∧
      (∀ seen', r = Ok seen' → seen_inspected (canonical_id slot) seen seen')) as Hgo.
  { intros t Ht Het. destruct (commit_and_count_spec _ txn t (set_inspected (canonical_id slot) seen)
      w2 (adv_sane _ _ Hadv2) Ht Het) as (r & w' & Hc & Ha & He & Hseen).
    exists r, w'. split_and!; [done|by eapply advance_trans| |done].
    exists o. rewrite He. cbn. by rewrite Hev. }
  destruct o as [x| | |]; [|by apply Hgo| |by apply Hgo].
  { apply Hgo; [done|]. intros base Hib e He Hid.
    rewrite (gc_slot_by_id _ _ _ Hib Hwf He Hid). eapply item_slot; [apply Hs1|by apply Hpres]. }
  eexists _, w2. split_and!; [done..| |].
  - eexists. cbn. by rewrite Hev.
  - by intros seen' [= <-].
Qed.

Lemma bound_arm_spec slot binding txn seen w :
  sane w → slot_wf slot →
  ∃ r w' new, bound_arm token env ios now max_cap slot binding (canonical_id slot) txn seen w
      = Some (r, w') ∧ advance w w' ∧ w_events w' = new ++ w_events w ∧
    (new = [] ∨ ∃ s, new = [Destroyed slot binding s] ∧ beyond_use s slot) ∧
    (∀ seen', r = Ok seen' → seen_bound (canonical_id slot) seen seen').
Proof.
  intros Hs Hwf. unfold bound_arm.
  destruct (worker_commit (canonical_id slot) txn StabilizationRewrite w)
    as (r1 & w1 & Hc & Ha & He & Hst); [done..|].
  rewrite Hc. cbn [mbind option_bind].
  destruct r1 as [[fresh|]|e]; [|by eexists _, w1, []; split_and!; auto; intros ? [= <-]|
    by eexists _, w1, []; split_and!; auto].
  destruct (Hst eq_refl _ eq_refl) as (Hif & Hh & x & Hx & Hid).
  apply (gc_slot_by_id _ _ _ Hif Hwf Hx) in Hid.
  pose proof (interfere_advance _ (adv_sane _ _ Ha)) as Hadv.
  assert (w_events (interfere env w1) = w_events w1) as Hev
    by (unfold interfere; by destruct (env _ _ _)).
  unfold w_gc_best_effort. set (w2 := interfere env w1) in *.
  destruct (gc_best_effort slot binding (w_backend w2)) as [report b] eqn:Hg.
  destruct (gc_law _ _ _ _ _ (sane_backend _ (adv_sane _ _ Hadv)) Hg) as (Hbwf & _).
  assert (beyond_use (w_store w2) slot) as Hsafe
    by (eapply retired_beyond_use; [..|apply Hadv]; done).
  set (w3 := MkWorld _ _ _ _). assert (advance w w3) as Hadv3.
  { eapply advance_trans; [exact Ha|]. eapply advance_trans; [exact Hadv|].
    split; cbn; [eapply sane_steps; [apply Hadv|done|done]|done|intros; apply union_subseteq_l]. }
  assert (w_events w3 = [Destroyed slot binding (w_store w2)] ++ w_events w) as Hev3
    by (cbn; by rewrite Hev, He).
  destruct (gc_observation_complete report); cbn [negb].
  - destruct (commit_and_count_spec (canonical_id slot) txn
      (GcResolved (canonical_id slot) (negb (gc_residual report)) (gc_mismatch report))
      (set_bound_attempted (canonical_id slot) seen) w3) as (r & w' & Hc' & Ha' & He' & Hseen);
      [apply Hadv3|done|done|].
    eexists r, w', _. split; [exact Hc'|]. rewrite He'.
    split_and!; [by eapply advance_trans|exact Hev3|by eauto|exact Hseen].
  - eexists _, w3, _. split; [done|]. split_and!; [done|exact Hev3|by eauto|by intros ? [= <-]].
Qed.

(** What an entry adds to the events, and to the sets of the tick. *)
Definition entry_done (entry : GcEntry) (seen : Seen) (new : list (GcEvent FileStore))
    (r : Result CommitTransitionError Seen) : Prop :=
  let id := canonical_id (gc_slot entry) in
  (¬ id ∈ inspected_this_tick seen ∧ (∃ o, new = [Inspected (gc_slot entry) o]) ∧
   (∀ seen', r = Ok seen' → seen_inspected id seen seen')) ∨
  (¬ id ∈ bound_attempted_this_tick seen ∧
   (new = [] ∨ ∃ b s, new = [Destroyed (gc_slot entry) b s] ∧ beyond_use s (gc_slot entry)) ∧
   (∀ seen', r = Ok seen' → seen_bound id seen seen')).

Lemma selectable_true seen e :
  selectable seen e = true →
  match e with
  | GcEntry_AwaitingInspection _ _ | GcEntry_AbsentUnconfirmed _ _ =>
      canonical_id (gc_slot e) ∉ inspected_this_tick seen
  | GcEntry_Bound _ _ _ _ => canonical_id (gc_slot e) ∉ bound_attempted_this_tick seen
  | _ => False
  end.
Proof.
  unfold selectable. destruct (observation_complete_and_residual_zero e) eqn:Ho; [done|].
  case_bool_decide; [done|].
  destruct e as [| |? ? ? []| |]; cbn [andb]; try done; by case_bool_decide.
Qed.

Lemma process_entry_spec rec entry seen w :
  sane w → Inv rec → entry ∈ rec_gc_pending rec → selectable seen entry = true →
  ∃ r w' new, process_entry token env ios now max_cap entry seen w = Some (r, w') ∧
    advance w w' ∧ w_events w' = new ++ w_events w ∧ entry_done entry seen new r.
Proof.
  intros Hs Hi He Hsel%selectable_true. pose proof (gc_slot_wf _ _ Hi He) as Hwf.
  assert (∀ t, canonical_id (gc_slot entry) ∉ inspected_this_tick seen →
    ∃ r w' new, inspect_arm token env ios now max_cap (gc_slot entry)
        (canonical_id (gc_slot entry)) t seen w = Some (r, w') ∧
      advance w w' ∧ w_events w' = new ++ w_events w ∧ entry_done entry seen new r) as Hins.
  { intros t Hn. destruct (inspect_arm_spec (gc_slot entry) t seen w Hs Hwf)
      as (r & w' & Hr & Ha & (o & Ho) & Hseen).
    exists r, w', [Inspected (gc_slot entry) o]. split_and!; [done..|]. left. eauto. }
  unfold process_entry. destruct entry as [slot t|slot t|slot t b st| |]; [by apply Hins..| |done|done].
  destruct (bound_arm_spec slot b t seen w Hs Hwf) as (r & w' & new & Hr & Ha & Hev & Hnew & Hseen).
  exists r, w', new. split_and!; [done..|]. right. split_and!; [done| |done].
  destruct Hnew as [->|(s & -> & Hsafe)]; [by left|right; eauto].
Qed.

(** *** The loop *)

(** The events so far: one inspection and one destruction per slot at most,
    all in the sets of the tick, and no destruction of a usable slot. *)
Record events_ok (seen : Seen) (l : list (GcEvent FileStore)) : Prop := {
  eo_inspected_once : NoDup (inspected_ids l);
  eo_inspected : ∀ id, id ∈ inspected_ids l → id ∈ inspected_this_tick seen;
  eo_destroyed_once : NoDup (destroyed_ids l);
  eo_destroyed : ∀ id, id ∈ destroyed_ids l → id ∈ bound_attempted_this_tick seen;
  eo_safe : ∀ slot b s, Destroyed slot b s ∈ l → beyond_use s slot;
}.

(** The same without the sets: what holds when the tick returns. *)
Record tick_ok (l : list (GcEvent FileStore)) : Prop := {
  to_inspected_once : NoDup (inspected_ids l);
  to_destroyed_once : NoDup (destroyed_ids l);
  to_safe : ∀ slot b s, Destroyed slot b s ∈ l → beyond_use s slot;
}.

Lemma events_tick_ok seen l : events_ok seen l → tick_ok l.
Proof. by intros []. Qed.

Lemma events_ok_nil seen : events_ok seen [].
Proof.
  split; [apply NoDup_nil_2| |apply NoDup_nil_2| |]; [by intros ? ?%not_elem_of_nil..|].
  by intros ? ? ? ?%not_elem_of_nil.
Qed.

Lemma entry_done_ok entry seen new r l :
  events_ok seen l → entry_done entry seen new r →
  tick_ok (new ++ l) ∧ (∀ seen', r = Ok seen' → events_ok seen' (new ++ l)).
Proof.
  intros [Hi1 Hi2 Hd1 Hd2 Hsf] [(Hn & (o & ->) & Hr)|(Hn & Hnew & Hr)].
  - assert (NoDup (inspected_ids ([Inspected (gc_slot entry) o] ++ l))) as Hnd
      by (cbn; apply NoDup_cons; auto).
    assert (∀ slot b s, Destroyed slot b s ∈ [Inspected (gc_slot entry) o] ++ l →
      beyond_use s slot) as Hsafe by (intros slot b s [[=]|?]%elem_of_cons; eauto).
    split; [by split|]. intros seen' [Hi Hb]%Hr. split; [done| |done| |done].
    + rewrite Hi. cbn. intros x [->|?]%elem_of_cons; set_solver.
    + rewrite Hb. done.
  - assert (NoDup (destroyed_ids (new ++ l))) as Hnd.
    { destruct Hnew as [->|(b & s & -> & _)]; cbn; [done|]. apply NoDup_cons. auto. }
    assert (inspected_ids (new ++ l) = inspected_ids l) as Hins
      by (by destruct Hnew as [->|(b & s & -> & _)]).
    assert (∀ slot b s, Destroyed slot b s ∈ new ++ l → beyond_use s slot) as Hsafe.
    { destruct Hnew as [->|(b & s & -> & Hb)]; [done|].
      intros slot b' s' [[= -> -> ->]|?]%elem_of_cons; eauto. }
    split; [split; by rewrite ?Hins|]. intros seen' [Hi Hb]%Hr. split; [by rewrite Hins| |done| |done].
    + by rewrite Hins, Hi.
    + rewrite Hb. destruct Hnew as [->|(b & s & -> & _)]; cbn; [set_solver|].
      intros x [->|?]%elem_of_cons; set_solver.
Qed.

Lemma w_load_advance w :
  sane w → ∃ o w', w_load env ios w = (o, w') ∧ advance w w' ∧ w_events w' = w_events w ∧
    (o = Load_Corrupt ∨ o = view (st_fs (w_store w')) (st_disk (w_store w'))).
Proof.
  intros Hs. unfold w_load. eexists _, _. split; [done|].
  split_and!; [by apply interfere_advance|unfold interfere; by destruct (env _ _ _)|].
  pose proof (law_load (ios (w_clock (interfere env w)) 0%nat) (w_store (interfere env w))) as Hl.
  destruct Hl as [->|Hl]; [by right|by left].
Qed.

(** Safety: with any fuel, the events of the run are fine and it never hits
    an [unreachable!]. *)
Lemma tick_loop_safe fuel : ∀ seen w,
  sane w → events_ok seen (w_events w) →
  ∃ run w', tick_loop token env ios now max_cap fuel seen w = (run, w') ∧
    run ≠ Panicked ∧ advance w w' ∧ tick_ok (w_events w').
Proof.
  induction fuel as [|fuel IH]; intros seen w Hs Hev; cbn [tick_loop].
  { eexists _, w. split_and!; [done..|by apply advance_refl|by eapply events_tick_ok]. }
  destruct (w_load_advance w Hs) as (o & w1 & -> & Ha1 & He1 & Hview).
  pose proof (adv_sane _ _ Ha1) as Hs1. destruct (sane_record _ Hs1) as (rec & Hv & Hi).
  rewrite <-He1 in Hev. assert (tick_ok (w_events w1)) as Hto by (by eapply events_tick_ok).
  destruct Hview as [->| ->]; [by eexists _, w1|]. rewrite Hv.
  destruct (iter_find (selectable seen) (rec_gc_pending rec)) as [entry|] eqn:Hf; [|by eexists _, w1].
  apply iter_find_Some in Hf as [He Hsel].
  destruct (process_entry_spec rec entry seen w1) as (r & w2 & new & -> & Ha2 & He2 & Hd); [done..|].
  pose proof (advance_trans _ _ _ Ha1 Ha2) as Ha.
  destruct (entry_done_ok _ _ _ _ _ Hev Hd) as [Hto2 Hev2]. rewrite <-He2 in Hto2, Hev2.
  destruct r as [seen'|e]; [|by eexists _, w2].
  destruct (IH seen' w2) as (run & w' & Hr & Hp & Ha3 & Hto'); [apply Ha2|by apply Hev2|].
  exists run, w'. split_and!; [done..|by eapply advance_trans|done].
Qed.

(** Termination: every iteration spends an id of one of the two sets. *)
Lemma tick_loop_terminates extra ids : env_adds extra → ∀ fuel seen w,
  sane w → view_ids (w_store w) ∪ extra ⊆ ids →
  inspected_this_tick seen ⊆ ids → bound_attempted_this_tick seen ⊆ ids →
  (2 * size ids < fuel + size (inspected_this_tick seen) + size (bound_attempted_this_tick seen))%nat →
  ∀ run w', tick_loop token env ios now max_cap fuel seen w = (run, w') → run ≠ OutOfFuel.
Proof.
  intros Hadds. induction fuel as [|fuel IH]; intros seen w Hs Hids Hi Hb Hfuel run w' Hrun.
  { pose proof (subseteq_size _ _ Hi). pose proof (subseteq_size _ _ Hb). lia. }
  cbn [tick_loop] in Hrun.
  destruct (w_load_advance w Hs) as (o & w1 & Hl & Ha1 & He1 & Hview). rewrite Hl in Hrun.
  pose proof (adv_sane _ _ Ha1) as Hs1. destruct (sane_record _ Hs1) as (rec & Hv & Hir).
  destruct Hview as [->| ->]; [by injection Hrun as <- _|]. rewrite Hv in Hrun.
  destruct (iter_find (selectable seen) (rec_gc_pending rec)) as [entry|] eqn:Hf;
    [|by injection Hrun as <- _].
  apply iter_find_Some in Hf as [He Hsel].
  destruct (process_entry_spec rec entry seen w1) as (r & w2 & new & Hp & Ha2 & He2 & Hd); [done..|].
  rewrite Hp in Hrun. destruct r as [seen'|e]; [|by injection Hrun as <- _].
  pose proof (adv_ids _ _ Ha1 _ Hadds) as Hv1. pose proof (adv_ids _ _ Ha2 _ Hadds) as Hv2.
  assert (canonical_id (gc_slot entry) ∈ ids) as Hid.
  { apply Hids. apply Hv1. unfold view_ids. rewrite Hv. apply elem_of_list_to_set.
    by apply (list_elem_of_fmap_2 (λ e, canonical_id (gc_slot e))). }
  destruct Hd as [(Hn & _ & Hseen)|(Hn & _ & Hseen)];
    destruct (Hseen _ eq_refl) as [Hs1' Hs2'];
    (eapply (IH seen' w2); [apply Ha2|by eapply ids_within|..|exact Hrun]; rewrite ?Hs1', ?Hs2';
      rewrite ?size_grows by done; eauto using grow_subseteq; lia).
Qed.

Lemma w_sweep_advance w :
  sane w → ∃ w', w_sweep token env ios w = Some w' ∧ advance w w' ∧ w_events w' = w_events w.
Proof.
  intros Hs. pose proof (interfere_advance _ Hs) as Hadv. unfold w_sweep.
  assert (w_events (interfere env w) = w_events w) as Hev
    by (unfold interfere; by destruct (env _ _ _)).
  set (w1 := interfere env w) in *. pose proof (adv_sane _ _ Hadv) as Hs1.
  pose proof (sane_token _ Hs1) as Htok. cbn in Htok.
  destruct (store_sweep token (ios (w_clock w1) 0%nat) (w_store w1)) as [s'|] eqn:Hsw.
  - eexists. split; [done|]. split; [|done]. eapply advance_trans; [exact Hadv|].
    assert (cstep (w_store w1) s') as Hst.
    { eapply (cstep_sweep (ios (w_clock w1) 0%nat)). cbn [store_token file_contract].
      by rewrite Htok. }
    split; cbn; [by eapply sane_steps; [|apply rtc_once|apply Hs1]|by apply rtc_once|].
    intros extra _. unfold view_ids. cbn in Hsw. apply fmap_Some in Hsw as (d' & Hd & ->). cbn.
    destruct (sane_wf _ Hs1) as [Hin _]. cbn in Hin.
    rewrite (evolves_unchanged_view _ _ _ (sweep_evolves _ _ _ _ _ Hin Hd)). apply union_subseteq_l.
  - exfalso. cbn in Hsw. apply fmap_None in Hsw. unfold sweep_orphan_tmp in Hsw.
    by rewrite Htok, Z.eqb_refl in Hsw.
Qed.

(** *** The removal pass *)

Lemma next_removal_Some base t :
  next_removal base = Some t →
  ∃ e, e ∈ rec_gc_pending base ∧ t = GcRemoval (canonical_id (gc_slot e)) (gc_txn_id e).
Proof.
  unfold next_removal. intros (e & Hf & [= <-])%bind_Some.
  apply iter_find_Some in Hf as [He _]. eauto.
Qed.

Lemma removal_ids base e cap new :
  Inv base → e ∈ rec_gc_pending base →
  apply base (GcRemoval (canonical_id (gc_slot e)) (gc_txn_id e)) now cap = Ok new →
  gc_ids base = {[canonical_id (gc_slot e)]} ∪ gc_ids new ∧
  canonical_id (gc_slot e) ∉ gc_ids new.
Proof.
  intros Hi He Hok. apply apply_Ok in Hok as [[[=] _]|(_ & rm & Harm & _)].
  apply apply_arm_effect in Harm; [|eauto using Inv_pending_generation].
  inversion Harm as [| | | | | |? ? ? ? Hx|id txn x Hf Hres| |]; [done|]. subst.
  pose proof (Inv_gc_ids _ Hi) as Hnd. rewrite <-list_fmap_compose in Hnd.
  assert (∀ y, y ∈ rec_gc_pending base → canonical_id (gc_slot y) = canonical_id (gc_slot e) → y = e)
    as Huniq by (intros y Hy Hid; by eapply (NoDup_fmap_inj_on (canonical_id ∘ gc_slot))).
  assert (∀ y, y ∈ List.filter (λ x, negb (is_gc_entry (canonical_id (gc_slot e)) (gc_txn_id e) x))
    (rec_gc_pending base) ↔ y ∈ rec_gc_pending base ∧ y ≠ e) as Hfil.
  { intros y. rewrite !list_elem_of_In, filter_In, <-list_elem_of_In, negb_true_iff.
    unfold is_gc_entry, has_slot_id. rewrite andb_false_iff, !bool_decide_eq_false.
    split; [intros [Hy [Hne|Hne]]; (split; [done|]); by intros ->|]. intros [Hy Hne]. split; [done|].
    left. intros Hid. by apply Hne, Huniq. }
  unfold gc_ids. cbn. split.
  - apply set_eq. intros z. rewrite elem_of_union, elem_of_singleton, !elem_of_list_to_set,
      !list_elem_of_fmap. setoid_rewrite Hfil. split.
    + intros (y & -> & Hy). destruct (decide (canonical_id (gc_slot y) = canonical_id (gc_slot e)));
        [by left|right]. exists y. split_and!; [done..|]. by intros ->.
    + intros [->|(y & -> & Hy & _)]; eauto.
  - rewrite elem_of_list_to_set, list_elem_of_fmap. setoid_rewrite Hfil.
    intros (y & Hid & Hy & Hne). by apply Hne, Huniq.
Qed.

Lemma removal_loop_returns fuel : env_adds ∅ → ∀ removed w,
  sane w → (size (view_ids (w_store w)) < fuel)%nat →
  ∃ res w', removal_loop token env ios now max_cap fuel removed w = (Returned res, w') ∧
    advance w w' ∧ w_events w' = w_events w ∧
    (∀ n, res = Ok n → ∃ r, view (st_fs (w_store w')) (st_disk (w_store w')) = Load_Exact r ∧
       ∀ e, e ∈ rec_gc_pending r → is_removable e = false).
Proof.
  intros Hadds. induction fuel as [|fuel IH]; intros removed w Hs Hf; [lia|]. cbn [removal_loop].
  destruct (w_commit_built_advance next_removal w) as (r & w1 & Hc & Ha & He & Hok & Hnone); [done| | |].
  { by intros base t Hi (e & _ & ->)%next_removal_Some. }
  { intros base t new Hi (e & Hein & ->)%next_removal_Some Hap.
    destruct (removal_ids _ _ _ _ Hi Hein Hap) as [-> _]. apply union_subseteq_r. }
  rewrite Hc. destruct r as [[new|]|e].
  - destruct (Hok _ eq_refl) as (base & t & Hi & (x & Hx & ->)%next_removal_Some & Hap & Hvi & _ & Hv1).
    destruct (removal_ids _ _ _ _ Hi Hx Hap) as [Heq Hn].
    assert (size (gc_ids base) ≤ size (view_ids (w_store w)))%nat as Hle.
    { apply subseteq_size. rewrite <-Hvi. pose proof (adv_ids _ _ (interfere_advance _ Hs) ∅ Hadds) as Hsub.
      by rewrite (right_id_L ∅ (∪)) in Hsub. }
    rewrite Heq, size_grows in Hle by done.
    destruct (IH (Datatypes.S removed) w1) as (res & w' & Hr & Ha' & He' & Hres);
      [apply Ha|rewrite Hv1; lia|].
    exists res, w'. split_and!; [done|by eapply advance_trans|congruence|done].
  - destruct (Hnone eq_refl) as (base & Hv & Hb). eexists _, w1. split_and!; [done..|].
    intros _ _. exists base. split; [done|]. unfold next_removal in Hb.
    destruct (iter_find is_removable _) eqn:Hfi; [done|]. by apply iter_find_None.
  - by eexists _, w1.
Qed.
End proofs.

(** ** The properties *)

Section claims.
Context `{!Hashes, !HashLaws, !Ciborium, !CiboriumLaws} {B : Type}
  `{!SecretBackend B, !BackendContract B}.
Implicit Types (w : World FileStore B).

(** C19: the worker never destroys a key that is, or can again become, usable.
    Whatever others do to the record and the backend between any two of its
    actions, at every destructive call of a tick each record that is visible
    or that a crash at that moment may leave is one in which the slot is
    neither live nor pending, and in no continuation of that record's history
    does it become so. The tick never reaches an [unreachable!]. *)
Theorem gc_destroys_only_retired token env ios now max_cap fuel w :
  env_ok env → sane token w → w_events w = [] →
  ∃ run w', gc_worker_tick token env ios now max_cap fuel w = (run, w') ∧ run ≠ Panicked ∧
    rtc cstep (w_store w) (w_store w') ∧
    ∀ slot b s, Destroyed slot b s ∈ w_events w' → beyond_use s slot.
Proof.
  intros Henv Hs He. unfold gc_worker_tick.
  destruct (w_sweep_advance token env ios max_cap Henv w Hs) as (w1 & -> & Ha1 & He1).
  destruct (tick_loop_safe token env ios now max_cap Henv fuel seen_nothing w1)
    as (run & w' & Hr & Hp & Ha & Hto); [apply Ha1| |].
  - rewrite He1, He. apply events_ok_nil.
  - exists run, w'. split_and!; [done..| |apply Hto].
    etrans; [by eapply adv_steps|by eapply adv_steps].
Qed.

(** One observation per tick. In one tick no slot is inspected twice and
    no slot is destroyed twice, so the two absent observations that turn an
    entry into [Absent] always come from two separate ticks, and a residue
    that stays is retried by a later tick only. *)
Theorem gc_one_observation_per_tick token env ios now max_cap fuel w run w' :
  env_ok env → sane token w → w_events w = [] →
  gc_worker_tick token env ios now max_cap fuel w = (run, w') →
  NoDup (inspected_ids (w_events w')) ∧ NoDup (destroyed_ids (w_events w')).
Proof.
  intros Henv Hs He. unfold gc_worker_tick.
  destruct (w_sweep_advance token env ios max_cap Henv w Hs) as (w1 & -> & Ha1 & He1).
  destruct (tick_loop_safe token env ios now max_cap Henv fuel seen_nothing w1)
    as (run1 & w2 & -> & Hp & Ha & Hto); [apply Ha1| |].
  - rewrite He1, He. apply events_ok_nil.
  - intros [= -> ->]. by destruct Hto.
Qed.

(** A tick returns. With [n] GC entries visible at its start, and others
    adding work for at most [m] further slots while it runs, the tick is over
    after at most [2 (n + m)] rounds whatever the backend answers (residue
    that never goes away, outages, conflicts) and whatever I/O fails. *)
Theorem gc_worker_tick_returns token env ios now max_cap extra w fuel :
  env_ok env → env_adds env extra → sane token w → w_events w = [] →
  (2 * size (view_ids (w_store w) ∪ extra) < fuel)%nat →
  ∃ res w', gc_worker_tick token env ios now max_cap fuel w = (Returned res, w').
Proof.
  intros Henv Hadds Hs He Hfuel. unfold gc_worker_tick.
  destruct (w_sweep_advance token env ios max_cap Henv w Hs) as (w1 & -> & Ha1 & He1).
  destruct (tick_loop_safe token env ios now max_cap Henv fuel seen_nothing w1)
    as (run & w' & Hr & Hp & _); [apply Ha1| |].
  { rewrite He1, He. apply events_ok_nil. }
  pose proof (adv_ids _ _ _ _ Ha1 extra Hadds) as Hids.
  assert (run ≠ OutOfFuel) as Hnf.
  { eapply (tick_loop_terminates token env ios now max_cap Henv extra
      (view_ids (w_store w) ∪ extra) Hadds fuel seen_nothing w1); [apply Ha1| | | | |exact Hr]; cbn.
    - apply union_subseteq. split; [done|apply union_subseteq_r].
    - apply empty_subseteq.
    - apply empty_subseteq.
    - rewrite size_empty. lia. }
  destruct run as [res| |]; [by exists res, w'|done|done].
Qed.

(** The removal pass returns and is complete. If nobody retires slots
    meanwhile, it is over after as many commits as there are entries plus one;
    it asks nothing of the backend, and when it reports success the record it
    last saw holds no resolved entry any more. *)
Theorem gc_removal_pass_complete token env ios now max_cap w fuel :
  env_ok env → env_adds env ∅ → sane token w →
  (size (view_ids (w_store w)) < fuel)%nat →
  ∃ res w', gc_removal_pass token env ios now max_cap fuel w = (Returned res, w') ∧
    rtc cstep (w_store w) (w_store w') ∧ w_events w' = w_events w ∧
    (∀ n, res = Ok n → ∃ r, view (st_fs (w_store w')) (st_disk (w_store w')) = Load_Exact r ∧
       ∀ e, e ∈ rec_gc_pending r → is_removable e = false).
Proof.
  intros Henv Hadds Hs Hf. unfold gc_removal_pass.
  destruct (removal_loop_returns token env ios now max_cap Henv fuel Hadds 0 w Hs Hf)
    as (res & w' & Hr & Ha & He & Hres).
  exists res, w'. split_and!; [done|by eapply adv_steps|done|done].
Qed.
End claims.

(** *** The properties at work *)

Section witnesses.
#[local] Existing Instance sample_hashes.
#[local] Existing Instance sample_hash_laws.
#[local] Existing Instance sample_ciborium.
#[local] Existing Instance sample_ciborium_laws.

(** Nobody interferes, no system call fails. *)
Definition sample_env (k : nat) (s : FileStore) (b : FakeSecretBackend) := (s, b).
Definition sample_action_ios (k i : nat) : StoreIo := sample_io.

Lemma sample_env_ok : env_ok sample_env.
Proof. intros k s b. split; [apply rtc_refl|done]. Qed.

Lemma sample_env_adds : env_adds sample_env ∅.
Proof. intros k s b. apply union_subseteq_l. Qed.

(** The revoked record with its key still in the backend. *)
Definition sample_world : World FileStore FakeSecretBackend :=
  MkWorld (sample_holding "007") sample_backend 0 [].

Lemma sample_holding_healthy c r :
  view sample_fs (st_disk (sample_holding c)) = Load_Exact r → healthy r (sample_holding c).
Proof.
  intros Hv. split; [apply sample_holding_wf|by exists r|].
  intros v (dir & Hdir & Hsv). change (dir ∈ [sample_dir c]) in Hdir.
  apply list_elem_of_singleton in Hdir as ->. exists r. split; [|done].
  cbn [sample_holding st_fs] in Hsv. rewrite sample_dir_synced in Hsv.
  rewrite (Hsv eq_refl). exact Hv.
Qed.

Lemma sample_world_sane : sane 7 sample_world.
Proof.
  split; [|reflexivity|exact sample_backend_wf]. exists sample_superseded.
  split; [exact sample_superseded_Inv|]. apply sample_holding_healthy. vm_compute. reflexivity.
Qed.

Definition sample_tick := gc_worker_tick 7 sample_env sample_action_ios 10 4 3 sample_world.

(** The slots and bindings of the destructive calls. *)
Definition destroyed_keys {S} (l : list (GcEvent S)) : list (SlotId * ExactBinding) :=
  omap (λ ev, match ev with Destroyed slot b _ => Some (slot, b) | _ => None end) l.

Lemma destroyed_keys_elem {S} (l : list (GcEvent S)) slot b :
  (slot, b) ∈ destroyed_keys l → ∃ s, Destroyed slot b s ∈ l.
Proof.
  unfold destroyed_keys. rewrite list_elem_of_omap. intros ([|slot' b' s] & Hin & Heq); [done|].
  injection Heq as -> ->. eauto.
Qed.

(** The tick destroys the key of [sample_slot] and resolves its entry. *)
Lemma sample_tick_runs :
  sample_tick.1 = Returned (Ok 1%nat) ∧
  destroyed_keys (w_events sample_tick.2) = [(sample_slot, sample_binding)].
Proof. split; vm_compute; reflexivity. Qed.

Lemma gc_destroys_only_retired_witness :
  ∃ s, Destroyed sample_slot sample_binding s ∈ w_events sample_tick.2 ∧ beyond_use s sample_slot.
Proof.
  destruct (gc_destroys_only_retired 7 sample_env sample_action_ios 10 4 3 sample_world)
    as (run & w' & Hr & _ & _ & Hsafe).
  - exact sample_env_ok.
  - exact sample_world_sane.
  - reflexivity.
  - pose proof (proj2 sample_tick_runs) as Hk. change (sample_tick = (run, w')) in Hr.
    rewrite Hr in Hk |- *. cbn [snd] in Hk |- *.
    destruct (destroyed_keys_elem (w_events w') sample_slot sample_binding) as [s Hs];
      [rewrite Hk; left|].
    exists s. split; [exact Hs|]. exact (Hsafe _ _ _ Hs).
Defined.

Lemma gc_one_observation_per_tick_witness :
  NoDup (inspected_ids (w_events sample_tick.2)) ∧ NoDup (destroyed_ids (w_events sample_tick.2)).
Proof.
  apply (gc_one_observation_per_tick 7 sample_env sample_action_ios 10 4 3 sample_world
    sample_tick.1).
  - exact sample_env_ok.
  - exact sample_world_sane.
  - reflexivity.
  - change (gc_worker_tick 7 sample_env sample_action_ios 10 4 3 sample_world) with sample_tick.
    destruct sample_tick. reflexivity.
Defined.

Lemma gc_worker_tick_returns_witness : ∃ res w', sample_tick = (Returned res, w').
Proof.
  destruct (gc_worker_tick_returns 7 sample_env sample_action_ios 10 4 ∅ sample_world 3)
    as (res & w' & Hr).
  - exact sample_env_ok.
  - exact sample_env_adds.
  - exact sample_world_sane.
  - reflexivity.
  - apply Nat.ltb_lt. vm_compute. reflexivity.
  - exists res, w'. exact Hr.
Defined.

(** The same record once the key is gone. *)
Definition sample_resolved_world : World FileStore FakeSecretBackend :=
  MkWorld (sample_holding "008") fake_new 0 [].

Lemma sample_resolved_Inv : Inv sample_resolved.
Proof.
  by eapply (sample_step_Inv sample_superseded (GcResolved (canonical_id sample_slot) true false));
    [apply sample_superseded_Inv|..].
Qed.

Lemma sample_resolved_world_sane : sane 7 sample_resolved_world.
Proof.
  split; [|reflexivity|apply map_Forall_empty]. exists sample_resolved.
  split; [exact sample_resolved_Inv|]. apply sample_holding_healthy. vm_compute. reflexivity.
Qed.

Definition sample_removal := gc_removal_pass 7 sample_env sample_action_ios 10 4 2 sample_resolved_world.

Lemma sample_removal_runs : sample_removal.1 = Returned (Ok 1%nat).
Proof. vm_compute. reflexivity. Qed.

Lemma gc_removal_pass_complete_witness :
  ∃ r, view sample_fs (st_disk (w_store sample_removal.2)) = Load_Exact r ∧
    ∀ e, e ∈ rec_gc_pending r → is_removable e = false.
Proof.
  destruct (gc_removal_pass_complete 7 sample_env sample_action_ios 10 4 sample_resolved_world 2)
    as (res & w' & Hr & Hsteps & _ & Hres).
  - exact sample_env_ok.
  - exact sample_env_adds.
  - exact sample_resolved_world_sane.
  - apply Nat.ltb_lt. vm_compute. reflexivity.
  - change (sample_removal = (Returned res, w')) in Hr. pose proof sample_removal_runs as Hrun.
    rewrite Hr in Hrun |- *. injection Hrun as ->. destruct (Hres _ eq_refl) as (r & Hv & Hn).
    rewrite (csteps_fs _ _ Hsteps) in Hv. exists r. split; [exact Hv|exact Hn].
Defined.
End witnesses.
