(* ===== verification/Rekey.v ===== *)
(** * The rekey policy state machine

    Models [mesh-session-core-rs/src/rekey.rs]: per-direction record counters
    with a mandatory marker every [threshold] records, the move-only permits
    that commit a send, and the receiver's checks. *)

From stdpp Require Import base gmap sets list strings.
From Stdlib Require Import ZArith Lia Ascii.
From S2P Require Import Prelude.

Open Scope Z_scope.

Inductive RekeyError :=
| RE_InvalidRekeyPolicy
| RE_ExpectedRekeyMarker
| RE_PrematureRekeyMarker
| RE_WrongGeneration (expected got : Z)
| RE_GenerationExhausted
| RE_StalePermit
| RE_RngFailure.

(** [RekeyThreshold], a [NonZeroU64]. *)
Record RekeyThreshold := MkRekeyThreshold { rt_value : Z }.

Definition threshold_new (threshold : Z) : Result RekeyError RekeyThreshold :=
  if threshold =? 0 then Err RE_InvalidRekeyPolicy else Ok (MkRekeyThreshold threshold).

Definition minus_one (t : RekeyThreshold) : Z := rt_value t - 1.

Definition REKEY_THRESHOLD_TEST_VALUE : Z := 3.
Definition REKEY_THRESHOLD_DEFAULT_VALUE : Z := Z.shiftl 1 32.

Inductive IncomingRecord :=
| NonMarker
| Marker (next_generation : Z).

(** [SendNonMarkerPermit] and [SendMarkerPermit]; an id is 32 bytes. *)
Record SendNonMarkerPermit := MkNonMarkerPermit {
  nm_issuer : bytes;
  nm_expected_generation : Z;
  nm_expected_policy_count : Z;
}.

Record SendMarkerPermit := MkMarkerPermit {
  mk_issuer : bytes;
  mk_expected_generation : Z;
  mk_expected_policy_count : Z;
  mk_next_generation : Z;
}.

Record DirectionalRekeyState := MkDirectional {
  dr_id : bytes;
  dr_generation : Z;
  dr_policy_count : Z;
  dr_threshold : RekeyThreshold;
}.

(** [RekeyStateId::fresh] asks the operating system: [rng] is its answer. *)
Definition directional_new (threshold : RekeyThreshold) (rng : option bytes)
    : Result RekeyError DirectionalRekeyState :=
  id ← ok_or rng RE_RngFailure;
  Ok (MkDirectional id 0 0 threshold).

Definition with_counters (generation policy_count : Z) (d : DirectionalRekeyState)
    : DirectionalRekeyState :=
  MkDirectional (dr_id d) generation policy_count (dr_threshold d).

Definition before_send_non_marker (d : DirectionalRekeyState)
    : Result RekeyError SendNonMarkerPermit :=
  reject_if (dr_policy_count d =? minus_one (dr_threshold d)) RE_ExpectedRekeyMarker;;
  Ok (MkNonMarkerPermit (dr_id d) (dr_generation d) (dr_policy_count d)).

Definition after_send_non_marker (permit : SendNonMarkerPermit) (d : DirectionalRekeyState)
    : Result RekeyError DirectionalRekeyState :=
  reject_if (bool_decide (nm_issuer permit ≠ dr_id d)
             || negb (nm_expected_generation permit =? dr_generation d)
             || negb (nm_expected_policy_count permit =? dr_policy_count d)) RE_StalePermit;;
  count ← ok_or (checked_add (dr_policy_count d) 1) RE_GenerationExhausted;
  Ok (with_counters (dr_generation d) count d).

Definition before_send_marker (d : DirectionalRekeyState) : Result RekeyError SendMarkerPermit :=
  reject_if (negb (dr_policy_count d =? minus_one (dr_threshold d))) RE_PrematureRekeyMarker;;
  next_generation ← ok_or (checked_add (dr_generation d) 1) RE_GenerationExhausted;
  Ok (MkMarkerPermit (dr_id d) (dr_generation d) (dr_policy_count d) next_generation).

Definition validate_marker_permit (permit : SendMarkerPermit) (d : DirectionalRekeyState)
    : Result RekeyError unit :=
  reject_if (bool_decide (mk_issuer permit ≠ dr_id d)
             || negb (mk_expected_generation permit =? dr_generation d)
             || negb (mk_expected_policy_count permit =? dr_policy_count d)) RE_StalePermit.

Definition after_send_marker (permit : SendMarkerPermit) (d : DirectionalRekeyState)
    : Result RekeyError DirectionalRekeyState :=
  validate_marker_permit permit d;;
  Ok (with_counters (mk_next_generation permit) 0 d).

Definition on_receive (record : IncomingRecord) (d : DirectionalRekeyState)
    : Result RekeyError DirectionalRekeyState :=
  match record with
  | NonMarker =>
      reject_if (dr_policy_count d =? minus_one (dr_threshold d)) RE_ExpectedRekeyMarker;;
      count ← ok_or (checked_add (dr_policy_count d) 1) RE_GenerationExhausted;
      Ok (with_counters (dr_generation d) count d)
  | Marker next_generation =>
      expected ← ok_or (checked_add (dr_generation d) 1) RE_GenerationExhausted;
      reject_if (negb (next_generation =? expected)) (RE_WrongGeneration expected next_generation);;
      reject_if (negb (dr_policy_count d =? minus_one (dr_threshold d))) RE_PrematureRekeyMarker;;
      Ok (with_counters next_generation 0 d)
  end.

Record SessionRekeyState := MkSessionRekey {
  sr_tx : DirectionalRekeyState;
  sr_rx : DirectionalRekeyState;
}.

Definition session_rekey_new (threshold : RekeyThreshold) (rng_tx rng_rx : option bytes)
    : Result RekeyError SessionRekeyState :=
  tx ← directional_new threshold rng_tx;
  rx ← directional_new threshold rng_rx;
  Ok (MkSessionRekey tx rx).

(** ** A direction in use *)

Record rekey_wf (d : DirectionalRekeyState) : Prop := {
  rk_threshold : nonzero_u64 (rt_value (dr_threshold d));
  rk_generation : in_u64 (dr_generation d);
  rk_count : 0 ≤ dr_policy_count d < rt_value (dr_threshold d);
}.

(** How many records the direction has carried. *)
Definition rekey_position (d : DirectionalRekeyState) : Z :=
  dr_generation d * rt_value (dr_threshold d) + dr_policy_count d.

(** One record sent in full: the permit is asked for, then committed. *)
Definition send_record (record : IncomingRecord) (d : DirectionalRekeyState)
    : Result RekeyError DirectionalRekeyState :=
  match record with
  | NonMarker => permit ← before_send_non_marker d; after_send_non_marker permit d
  | Marker next_generation =>
      permit ← before_send_marker d;
      reject_if (negb (mk_next_generation permit =? next_generation))
        (RE_WrongGeneration (mk_next_generation permit) next_generation);;
      after_send_marker permit d
  end.

Fixpoint run_records (step : IncomingRecord → DirectionalRekeyState →
    Result RekeyError DirectionalRekeyState) (l : list IncomingRecord) (d : DirectionalRekeyState)
    : Result RekeyError DirectionalRekeyState :=
  match l with
  | [] => Ok d
  | r :: l => d ← step r d; run_records step l d
  end.

(** *** Instances and a pool of outstanding permits *)

Inductive Permit :=
| P_NonMarker (p : SendNonMarkerPermit)
| P_Marker (p : SendMarkerPermit).

Definition apply_permit (p : Permit) (d : DirectionalRekeyState)
    : Result RekeyError DirectionalRekeyState :=
  match p with
  | P_NonMarker p => after_send_non_marker p d
  | P_Marker p => after_send_marker p d
  end.

Definition issues (d : DirectionalRekeyState) (p : Permit) : Prop :=
  match p with
  | P_NonMarker p => before_send_non_marker d = Ok p
  | P_Marker p => before_send_marker d = Ok p
  end.

(** Any number of directions, and every permit issued and not yet spent. *)
Record RekeyWorld := MkRekeyWorld {
  rw_states : gmap nat DirectionalRekeyState;
  rw_permits : list Permit;
}.

(** Permits are issued at any time and committed in any order on any
    instance; a commit spends the permit. Records arrive at any time. *)
Inductive wstep : RekeyWorld → RekeyWorld → Prop :=
| wstep_issue w i d p :
    rw_states w !! i = Some d → issues d p →
    wstep w (MkRekeyWorld (rw_states w) (p :: rw_permits w))
| wstep_commit w i d p d' l1 l2 :
    rw_permits w = l1 ++ p :: l2 → rw_states w !! i = Some d → apply_permit p d = Ok d' →
    wstep w (MkRekeyWorld (<[i:=d']> (rw_states w)) (l1 ++ l2))
| wstep_rejected w i d p e l1 l2 :
    rw_permits w = l1 ++ p :: l2 → rw_states w !! i = Some d → apply_permit p d = Err e →
    wstep w (MkRekeyWorld (rw_states w) (l1 ++ l2))
| wstep_receive w i d r d' :
    rw_states w !! i = Some d → on_receive r d = Ok d' →
    wstep w (MkRekeyWorld (<[i:=d']> (rw_states w)) (rw_permits w)).

(** ** Lemmas *)

(** The next state, when the record is one the policy allows. *)
Definition rekey_next (record : IncomingRecord) (d d' : DirectionalRekeyState) : Prop :=
  match record with
  | NonMarker => dr_policy_count d + 1 < rt_value (dr_threshold d) ∧
      d' = with_counters (dr_generation d) (dr_policy_count d + 1) d
  | Marker g => dr_policy_count d + 1 = rt_value (dr_threshold d) ∧ g = dr_generation d + 1 ∧
      g < u64_modulus ∧ d' = with_counters g 0 d
  end.

Lemma on_receive_Ok record d d' :
  rekey_wf d → on_receive record d = Ok d' ↔ rekey_next record d d'.
Proof.
  intros [Ht Hg Hc]. unfold nonzero_u64 in Ht.
  destruct record as [|g]; cbn [on_receive rekey_next]; unfold minus_one.
  - destruct (Z.eqb_spec (dr_policy_count d) (rt_value (dr_threshold d) - 1)) as [E|E]; cbn.
    + split; [done|lia].
    + unfold checked_add. rewrite (proj2 (Z.ltb_lt _ _)) by lia. cbn.
      split; [intros [= <-]; split; [lia|done]|by intros [_ ->]].
  - unfold checked_add. destruct (Z.ltb_spec (dr_generation d + 1) u64_modulus); cbn; [|naive_solver lia].
    destruct (Z.eqb_spec g (dr_generation d + 1)) as [->|]; cbn; [|naive_solver].
    destruct (Z.eqb_spec (dr_policy_count d) (rt_value (dr_threshold d) - 1)) as [E|E]; cbn.
    + split; [intros [= <-]; split_and!; [lia|done..]|by intros (_ & _ & _ & ->)].
    + split; [done|lia].
Qed.

(** A permit names the counters it was issued for. *)
Definition permit_matches (p : Permit) (d : DirectionalRekeyState) : Prop :=
  match p with
  | P_NonMarker p => nm_issuer p = dr_id d ∧ nm_expected_generation p = dr_generation d ∧
      nm_expected_policy_count p = dr_policy_count d
  | P_Marker p => mk_issuer p = dr_id d ∧ mk_expected_generation p = dr_generation d ∧
      mk_expected_policy_count p = dr_policy_count d
  end.

#[export] Instance permit_matches_dec p d : Decision (permit_matches p d).
Proof. destruct p; apply _. Defined.

(** What an honest permit says, for the threshold of its issuer. *)
Definition permit_honest (p : Permit) (t : RekeyThreshold) : Prop :=
  match p with
  | P_NonMarker p => nm_expected_policy_count p + 1 < rt_value t
  | P_Marker p => mk_expected_policy_count p + 1 = rt_value t ∧
      mk_next_generation p = mk_expected_generation p + 1 ∧ mk_next_generation p < u64_modulus
  end.

Definition permit_issuer (p : Permit) : bytes :=
  match p with P_NonMarker p => nm_issuer p | P_Marker p => mk_issuer p end.

Definition permit_record (p : Permit) : IncomingRecord :=
  match p with P_NonMarker _ => NonMarker | P_Marker p => Marker (mk_next_generation p) end.

Lemma issues_honest d p :
  rekey_wf d → issues d p → permit_matches p d ∧ permit_honest p (dr_threshold d).
Proof.
  intros [Ht Hg Hc]. destruct p as [p|p]; cbn [issues].
  - unfold before_send_non_marker, minus_one.
    destruct (Z.eqb_spec (dr_policy_count d) (rt_value (dr_threshold d) - 1)); [done|].
    intros [= <-]. cbn. split; [done|lia].
  - unfold before_send_marker, minus_one, checked_add.
    destruct (Z.eqb_spec (dr_policy_count d) (rt_value (dr_threshold d) - 1)); [|done]. cbn.
    destruct (Z.ltb_spec (dr_generation d + 1) u64_modulus); [|done]. intros [= <-]. cbn.
    split; [done|]. split_and!; lia.
Qed.

Lemma apply_permit_stale p d :
  ¬ permit_matches p d → apply_permit p d = Err RE_StalePermit.
Proof.
  intros Hn. destruct p as [p|p]; cbn in *;
    unfold after_send_non_marker, after_send_marker, validate_marker_permit;
    case_bool_decide as Hid; cbn; try done;
    match goal with |- context [?a =? dr_generation d] => destruct (Z.eqb_spec a (dr_generation d)) end;
    cbn; try done;
    match goal with |- context [?a =? dr_policy_count d] => destruct (Z.eqb_spec a (dr_policy_count d)) end;
    cbn; try done; by destruct Hn.
Qed.

Lemma apply_permit_matches p d :
  rekey_wf d → permit_matches p d → permit_honest p (dr_threshold d) →
  ∃ d', apply_permit p d = Ok d' ∧ rekey_next (permit_record p) d d'.
Proof.
  intros [Ht Hg Hc] Hm Hh. unfold nonzero_u64 in Ht.
  destruct p as [p|p]; cbn in *; destruct Hm as (Hid & Hgen & Hcnt);
    unfold after_send_non_marker, after_send_marker, validate_marker_permit;
    rewrite bool_decide_false by auto; rewrite Hgen, Hcnt, !Z.eqb_refl in *; cbn.
  - unfold checked_add. rewrite (proj2 (Z.ltb_lt _ _)) by lia. cbn. eauto.
  - destruct Hh as (? & ? & ?). eexists. split; [done|]. split_and!; [lia..|done].
Qed.

Lemma rekey_next_wf record d d' :
  rekey_wf d → rekey_next record d d' →
  rekey_wf d' ∧ rekey_position d' = rekey_position d + 1 ∧
  dr_id d' = dr_id d ∧ dr_threshold d' = dr_threshold d.
Proof.
  intros [Ht Hg Hc]. unfold nonzero_u64, in_u64 in *.
  destruct record as [|g]; cbn [rekey_next].
  - intros (? & ->). unfold rekey_position. cbn. split_and!; [split; cbn; [done..|lia]|lia|done|done].
  - intros (Hcnt & -> & ? & ->). unfold rekey_position. cbn.
    split_and!; [split; cbn; [done|unfold in_u64; lia|lia]|nia|done|done].
Qed.

Lemma send_record_Ok record d d' :
  rekey_wf d → send_record record d = Ok d' ↔ rekey_next record d d'.
Proof.
  intros Hwf. destruct record as [|g]; cbn [send_record].
  - destruct (before_send_non_marker d) as [p|e] eqn:Hb.
    + destruct (issues_honest d (P_NonMarker p) Hwf Hb) as [Hm Hh].
      destruct (apply_permit_matches _ _ Hwf Hm Hh) as (x & Hx & Hn). cbn in Hx, Hn |- *.
      rewrite Hx. destruct Hn as [? ->]. naive_solver.
    + unfold before_send_non_marker, minus_one in Hb. cbn.
      destruct (Z.eqb_spec (dr_policy_count d) (rt_value (dr_threshold d) - 1)); [|done].
      split; [done|lia].
  - destruct (before_send_marker d) as [p|e] eqn:Hb.
    + destruct (issues_honest d (P_Marker p) Hwf Hb) as [Hm Hh].
      destruct (apply_permit_matches _ _ Hwf Hm Hh) as (x & Hx & Hn). cbn in Hx, Hn |- *.
      destruct Hn as (? & Hgen & ? & ->). destruct (Z.eqb_spec (mk_next_generation p) g) as [<-|Hne].
      * rewrite Hx. cbn. naive_solver.
      * cbn. split; [done|]. intros (_ & -> & _). by rewrite Hgen in Hne.
    + unfold before_send_marker, minus_one, checked_add in Hb. cbn.
      destruct (Z.eqb_spec (dr_policy_count d) (rt_value (dr_threshold d) - 1)); cbn in Hb.
      * destruct (Z.ltb_spec (dr_generation d + 1) u64_modulus); [done|]. split; [done|lia].
      * split; [done|lia].
Qed.

(** *** The world invariant *)

Record RekeyInv (w : RekeyWorld) : Prop := {
  ki_wf : ∀ i d, rw_states w !! i = Some d → rekey_wf d;
  ki_ids : ∀ i j d e, rw_states w !! i = Some d → rw_states w !! j = Some e →
    dr_id d = dr_id e → i = j;
  ki_honest : ∀ p, p ∈ rw_permits w →
    ∃ i d, rw_states w !! i = Some d ∧ permit_issuer p = dr_id d ∧ permit_honest p (dr_threshold d);
}.

(** A permit that commits is an honest one of that very instance. *)
Lemma commit_honest w i d p d' :
  RekeyInv w → p ∈ rw_permits w → rw_states w !! i = Some d → apply_permit p d = Ok d' →
  rekey_next (permit_record p) d d' ∧ permit_matches p d.
Proof.
  intros [Hwf Hids Hho] Hp Hi Hok.
  destruct (decide (permit_matches p d)) as [Hm|Hn]; [|by rewrite (apply_permit_stale _ _ Hn) in Hok].
  destruct (Hho p Hp) as (j & e & Hj & Hiss & Hh).
  assert (dr_id d = dr_id e) as Hide by (destruct p; cbn in *; destruct Hm; congruence).
  pose proof (Hids i j d e Hi Hj Hide) as <-. simplify_eq.
  destruct (apply_permit_matches _ _ (Hwf _ _ Hi) Hm Hh) as (x & Hx & Hn). rewrite Hok in Hx. injection Hx as <-. done.
Qed.

(** Updating one instance by one allowed record keeps the invariant. *)
Lemma RekeyInv_update w i d r d' permits :
  RekeyInv w → rw_states w !! i = Some d → rekey_next r d d' →
  (∀ p, p ∈ permits → p ∈ rw_permits w) → RekeyInv (MkRekeyWorld (<[i:=d']> (rw_states w)) permits).
Proof.
  intros [Hwf Hids Hho] Hi Hn Hsub.
  destruct (rekey_next_wf _ _ _ (Hwf _ _ Hi) Hn) as (Hwf' & _ & Hid & Hth).
  assert (∀ j e, <[i:=d']> (rw_states w) !! j = Some e →
    ∃ e0, rw_states w !! j = Some e0 ∧ dr_id e0 = dr_id e ∧ rekey_wf e) as Hback.
  { intros j e [[<- <-]|[Hne He]]%lookup_insert_Some; eauto. }
  split; cbn.
  - intros j e He. by destruct (Hback j e He) as (? & _ & _ & ?).
  - intros j k e f (e0 & ? & ? & _)%Hback (f0 & ? & ? & _)%Hback Heq.
    eapply Hids; [done..|congruence].
  - intros p Hp. destruct (Hho p (Hsub p Hp)) as (j & e & Hj & Hiss & Hh).
    destruct (decide (j = i)) as [->|Hne].
    + simplify_eq. exists i, d'. rewrite lookup_insert_eq. rewrite Hid, Hth. auto.
    + exists j, e. by rewrite lookup_insert_ne by done.
Qed.

(** One step: the invariant, and every direction moves by at most one record. *)
Lemma wstep_inv w w' :
  RekeyInv w → wstep w w' →
  RekeyInv w' ∧ ∀ i d, rw_states w !! i = Some d → ∃ d', rw_states w' !! i = Some d' ∧
    (d' = d ∨ (rekey_position d' = rekey_position d + 1 ∧ ∃ r, rekey_next r d d')).
Proof.
  intros Hinv Hst. revert Hinv.
  destruct Hst as [w i d p Hi Hiss|w i d p d' l1 l2 Hl Hi Hok|w i d p e l1 l2 Hl Hi Herr|
                   w i d r d' Hi Hok]; intros Hinv.
  - split; [|by eauto]. destruct Hinv as [Hwf Hids Hho]. split; [done..|].
    intros q [->|Hq]%elem_of_cons; [|by apply Hho]. exists i, d.
    destruct (issues_honest _ _ (Hwf _ _ Hi) Hiss) as [Hm Hh].
    split_and!; [done| |done]. destruct p; cbn in *; by destruct Hm.
  - assert (p ∈ rw_permits w) as Hp by (rewrite Hl; set_solver).
    destruct (commit_honest _ _ _ _ _ Hinv Hp Hi Hok) as [Hn _].
    destruct (rekey_next_wf _ _ _ (ki_wf _ Hinv _ _ Hi) Hn) as (_ & Hpos & _).
    split; [eapply RekeyInv_update; [done..|]; intros q; rewrite Hl; set_solver|].
    intros j e Hj. cbn. destruct (decide (j = i)) as [->|]; [|rewrite lookup_insert_ne by done; eauto].
    simplify_eq. rewrite lookup_insert_eq. eauto 10.
  - split; [|by eauto]. destruct Hinv as [Hwf Hids Hho]. split; [done..|].
    intros q Hq. apply Hho. rewrite Hl. set_solver.
  - pose proof (proj1 (on_receive_Ok _ _ _ (ki_wf _ Hinv _ _ Hi)) Hok) as Hn.
    destruct (rekey_next_wf _ _ _ (ki_wf _ Hinv _ _ Hi) Hn) as (_ & Hpos & _).
    split; [by eapply RekeyInv_update|].
    intros j e Hj. cbn. destruct (decide (j = i)) as [->|]; [|rewrite lookup_insert_ne by done; eauto].
    simplify_eq. rewrite lookup_insert_eq. eauto 10.
Qed.

Lemma wsteps_inv w w' :
  RekeyInv w → rtc wstep w w' →
  RekeyInv w' ∧ ∀ i d, rw_states w !! i = Some d →
    ∃ d', rw_states w' !! i = Some d' ∧ rekey_position d ≤ rekey_position d' ∧
      dr_threshold d' = dr_threshold d.
Proof.
  intros Hi Hs. induction Hs as [w|x y z Hxy _ IH].
  { split; [done|]. intros i d Hd. exists d. split_and!; [done|lia|done]. }
  destruct (wstep_inv _ _ Hi Hxy) as [Hiy Hmove]. destruct (IH Hiy) as [Hiz Hmono].
  split; [done|]. intros i d Hd. destruct (Hmove i d Hd) as (d1 & Hd1 & Hcase).
  destruct (Hmono i d1 Hd1) as (d2 & Hd2 & Hle & Hth). exists d2. split; [done|].
  destruct Hcase as [->|(? & r & Hn)]; [done|].
  destruct (rekey_next_wf _ _ _ (ki_wf _ Hi _ _ Hd) Hn) as (_ & _ & _ & Ht).
  split; [lia|congruence].
Qed.

(** ** The properties *)

(** Directions just created: counters zero, distinct ids, no permit issued. *)
Definition rekey_fresh (w : RekeyWorld) : Prop :=
  (∀ i d, rw_states w !! i = Some d →
     nonzero_u64 (rt_value (dr_threshold d)) ∧ dr_generation d = 0 ∧ dr_policy_count d = 0) ∧
  (∀ i j d e, rw_states w !! i = Some d → rw_states w !! j = Some e → dr_id d = dr_id e → i = j) ∧
  rw_permits w = [].

Lemma rekey_fresh_inv w : rekey_fresh w → RekeyInv w.
Proof.
  intros (Hf & Hids & Hp). split; [|done|].
  - intros i d (Ht & Hg & Hc)%Hf. unfold nonzero_u64 in Ht.
    split; rewrite ?Hg, ?Hc; [done|by cbv|lia].
  - rewrite Hp. by intros p ?%not_elem_of_nil.
Qed.

(** The marker boundary cannot be jumped. However permits are hoarded,
    reordered and tried on any of the directions, in every reachable state
    each direction is short of its threshold, and a step moves each direction
    by no record or by exactly one that the policy allows at that point. *)
Theorem rekey_marker_never_skipped w0 w w' i d :
  rekey_fresh w0 → rtc wstep w0 w → wstep w w' → rw_states w !! i = Some d →
  0 ≤ dr_policy_count d < rt_value (dr_threshold d) ∧
  ∃ d', rw_states w' !! i = Some d' ∧
    (d' = d ∨ (rekey_position d' = rekey_position d + 1 ∧ ∃ r, rekey_next r d d')).
Proof.
  intros Hf Hs Hst Hd. destruct (wsteps_inv _ _ (rekey_fresh_inv _ Hf) Hs) as [Hi _].
  split; [by apply (ki_wf _ Hi _ _ Hd)|]. by apply (wstep_inv _ _ Hi Hst).
Qed.

(** A permit authorizes one commit of one snapshot. Once any permit has
    been committed on a direction, every permit that could have been committed
    in its place is refused on it in every later state, whatever happens. *)
Theorem rekey_permit_single_use w0 w i d p d' q w2 d2 :
  rekey_fresh w0 → rtc wstep w0 w → rw_states w !! i = Some d →
  p ∈ rw_permits w → apply_permit p d = Ok d' → permit_matches q d →
  rtc wstep (MkRekeyWorld (<[i:=d']> (rw_states w)) (rw_permits w)) w2 →
  rw_states w2 !! i = Some d2 →
  apply_permit q d2 = Err RE_StalePermit.
Proof.
  intros Hf Hs Hd Hp Hok Hq Hs2 Hd2. destruct (wsteps_inv _ _ (rekey_fresh_inv _ Hf) Hs) as [Hi _].
  destruct (commit_honest _ _ _ _ _ Hi Hp Hd Hok) as [Hn _].
  destruct (rekey_next_wf _ _ _ (ki_wf _ Hi _ _ Hd) Hn) as (_ & Hpos & _ & Hth).
  assert (RekeyInv (MkRekeyWorld (<[i:=d']> (rw_states w)) (rw_permits w))) as Hi'
    by (by eapply RekeyInv_update).
  destruct (wsteps_inv _ _ Hi' Hs2) as [_ Hmono].
  destruct (Hmono i d') as (x & Hx & Hle & Ht2); [by cbn; rewrite lookup_insert_eq|]. rewrite Hd2 in Hx. injection Hx as <-.
  apply apply_permit_stale. intros Hm.
  assert (dr_generation d2 = dr_generation d ∧ dr_policy_count d2 = dr_policy_count d) as [Hg Hc]
    by (destruct q; cbn in Hm, Hq; destruct Hm as (_ & ? & ?), Hq as (_ & ? & ?); split; congruence).
  unfold rekey_position in *. rewrite Hg, Hc, Ht2, Hth in Hle. rewrite Hth in Hpos. lia.
Qed.

Lemma rekey_next_counters r d e d' :
  rekey_next r d d' → dr_threshold d = dr_threshold e → dr_generation d = dr_generation e →
  dr_policy_count d = dr_policy_count e →
  ∃ e', rekey_next r e e' ∧ dr_threshold d' = dr_threshold e' ∧
    dr_generation d' = dr_generation e' ∧ dr_policy_count d' = dr_policy_count e'.
Proof.
  intros Hn Ht Hg Hc. destruct r as [|g]; cbn in *.
  - destruct Hn as [? ->]. eexists. split; [by rewrite <-Ht, <-Hc|]. cbn. split_and!; congruence.
  - destruct Hn as (? & ? & ? & ->). eexists. split; [by rewrite <-Ht, <-Hc, <-Hg|].
    cbn. split_and!; congruence.
Qed.

(** Sender and receiver of a direction stay in step. Starting from equal
    counters, the receiver accepts a sequence of records exactly when the
    sender's permits allow sending it, both then hold equal counters again,
    and they have advanced by exactly its length; so no honest record is ever
    rejected, and none out of turn is accepted. *)
Theorem rekey_directions_in_step tx rx l :
  rekey_wf tx → dr_threshold tx = dr_threshold rx → dr_generation tx = dr_generation rx →
  dr_policy_count tx = dr_policy_count rx →
  (is_ok (run_records send_record l tx) = is_ok (run_records on_receive l rx)) ∧
  (∀ tx' rx', run_records send_record l tx = Ok tx' → run_records on_receive l rx = Ok rx' →
     dr_generation tx' = dr_generation rx' ∧ dr_policy_count tx' = dr_policy_count rx' ∧
     rekey_position tx' = rekey_position tx + Z.of_nat (length l)).
Proof.
  revert tx rx. induction l as [|r l IH]; intros tx rx Hwf Ht Hg Hc; cbn [run_records].
  { split; [done|]. intros tx' rx' [= <-] [= <-]. split_and!; [done..|cbn; lia]. }
  assert (rekey_wf rx) as Hwr by (destruct Hwf; split; congruence).
  destruct (send_record r tx) as [tx1|] eqn:Hs.
  - apply (send_record_Ok _ _ _ Hwf) in Hs as Hn.
    destruct (rekey_next_counters _ _ _ _ Hn Ht Hg Hc) as (rx1 & Hnr & Ht1 & Hg1 & Hc1).
    apply (on_receive_Ok _ _ _ Hwr) in Hnr. rewrite Hnr. cbn.
    destruct (rekey_next_wf _ _ _ Hwf Hn) as (Hwf1 & Hpos & _).
    destruct (IH tx1 rx1 Hwf1 Ht1 Hg1 Hc1) as [Hok Hall]. split; [done|].
    intros tx' rx' H1 H2. destruct (Hall _ _ H1 H2) as (? & ? & ->). split_and!; [done..|]. lia.
  - destruct (on_receive r rx) as [rx1|] eqn:Hr; [|by cbn].
    apply (on_receive_Ok _ _ _ Hwr) in Hr.
    destruct (rekey_next_counters _ _ _ _ Hr (eq_sym Ht) (eq_sym Hg) (eq_sym Hc)) as (tx1 & Hn & _).
    apply (send_record_Ok _ _ _ Hwf) in Hn. congruence.
Qed.

(** *** The properties at work *)

Definition sample_threshold : RekeyThreshold := MkRekeyThreshold 3.
Definition sample_direction (c : byte) : DirectionalRekeyState :=
  MkDirectional (replicate 32 c) 0 0 sample_threshold.
Definition sample_rekey_world : RekeyWorld :=
  MkRekeyWorld {[0%nat := sample_direction "a"; 1%nat := sample_direction "b"]} [].

Lemma sample_rekey_fresh : rekey_fresh sample_rekey_world.
Proof.
  unfold sample_rekey_world. split_and!; [| |done]; cbn [rw_states].
  - intros i d [[_ <-]|[_ [_ <-]%lookup_singleton_Some]]%lookup_insert_Some; by split_and!.
  - intros i j d e [[<- <-]|[_ [<- <-]%lookup_singleton_Some]]%lookup_insert_Some
      [[<- <-]|[_ [<- <-]%lookup_singleton_Some]]%lookup_insert_Some; done.
Qed.

(** One permit issued by the first direction. *)
Definition sample_permit : Permit := P_NonMarker (MkNonMarkerPermit (replicate 32 "a"%char) 0 0).
Definition sample_permit_world : RekeyWorld :=
  MkRekeyWorld (rw_states sample_rekey_world) [sample_permit].

Lemma sample_permit_issued : wstep sample_rekey_world sample_permit_world.
Proof. by apply (wstep_issue sample_rekey_world 0 (sample_direction "a")). Qed.

Lemma rekey_marker_never_skipped_witness :
  ∃ d', rw_states sample_permit_world !! 0%nat = Some d' ∧
    (d' = sample_direction "a" ∨ (rekey_position d' = rekey_position (sample_direction "a") + 1 ∧
       ∃ r, rekey_next r (sample_direction "a") d')).
Proof.
  apply (rekey_marker_never_skipped sample_rekey_world sample_rekey_world sample_permit_world 0
    (sample_direction "a")).
  - exact sample_rekey_fresh.
  - apply rtc_refl.
  - exact sample_permit_issued.
  - reflexivity.
Defined.

Definition sample_advanced : DirectionalRekeyState :=
  MkDirectional (replicate 32 "a"%char) 0 1 sample_threshold.

Lemma rekey_permit_single_use_witness :
  apply_permit sample_permit sample_advanced = Err RE_StalePermit.
Proof.
  apply (rekey_permit_single_use sample_rekey_world sample_permit_world 0 (sample_direction "a")
    sample_permit sample_advanced sample_permit
    (MkRekeyWorld (<[0%nat:=sample_advanced]> (rw_states sample_permit_world)) [sample_permit])).
  - exact sample_rekey_fresh.
  - apply rtc_once. exact sample_permit_issued.
  - reflexivity.
  - left.
  - reflexivity.
  - by split_and!.
  - apply rtc_refl.
  - apply lookup_insert_eq.
Defined.

Lemma rekey_directions_in_step_witness :
  is_ok (run_records send_record [NonMarker; NonMarker; Marker 1; NonMarker] (sample_direction "a")) =
  is_ok (run_records on_receive [NonMarker; NonMarker; Marker 1; NonMarker] (sample_direction "b")).
Proof.
  apply (rekey_directions_in_step (sample_direction "a") (sample_direction "b")).
  - by split.
  - reflexivity.
  - reflexivity.
  - reflexivity.
Defined.
