(* ===== verification/Cbor.v ===== *)
(** * Closed canonical CBOR of the session protocol

    Models [mesh-session-core-rs/src/cbor.rs]: the shape check
    [reject_disallowed], the key-sorting [canonicalize], the canonical encoder
    and decoder, and the removal of the [sig] entry for signing preimages.
    The [ciborium] crate and serde's leaf decoders are parameters; the
    struct-to-map convention of serde's derive with [deny_unknown_fields] is
    the class [Serde]. *)

From stdpp Require Import base gmap sets list strings.
From Stdlib Require Import ZArith Lia Ascii Sorting.Sorted.
From S2P Require Import Prelude.

Open Scope Z_scope.

(** ** Values and the crate *)

(** [ciborium::Value]. The enum is [#[non_exhaustive]]: [CV_Other] stands for
    a variant of a later release. *)
#[warnings="-register-all"]
Inductive CborValue :=
| CV_Integer (z : Z)
| CV_Bytes (b : bytes)
| CV_Float (bits : Z)
| CV_Text (s : string)
| CV_Bool (b : bool)
| CV_Null
| CV_Tag (t : Z) (inner : CborValue)
| CV_Array (items : list CborValue)
| CV_Map (entries : list (CborValue * CborValue))
| CV_Other (o : Z).

Inductive CborError :=
| CE_Encode
| CE_Decode
| CE_NonCanonical
| CE_DuplicateKey
| CE_NullNotAllowed
| CE_TrailingBytes
| CE_UnknownField
| CE_TagNotAllowed
| CE_FloatNotAllowed
| CE_NonTextKey
| CE_DisallowedShape
| CE_MissingOrDuplicateSigField.

#[export] Instance CborError_eq_dec : EqDecision CborError.
Proof. solve_decision. Defined.

(** The functions of [ciborium] and serde the code calls. *)
Class CborCrate := {
  into_writer : CborValue → option bytes;          (* [ser::into_writer] *)
  from_reader : bytes → option (CborValue * nat);  (* [de::from_reader]: the item, the position *)
  de_u64 : CborValue → option Z;                   (* decoding a [u64] field *)
  de_string : CborValue → option string;           (* a [String] field *)
  de_byte_buf : CborValue → option bytes;          (* a [serde_bytes] field *)
  recursion_limit : nat;                           (* nesting [from_reader] accepts *)
}.

Section value_induction.
Context (P : CborValue → Prop).
Hypothesis (HA : ∀ items, Forall P items → P (CV_Array items)).
Hypothesis (HM : ∀ es, Forall (λ e, P e.1 ∧ P e.2) es → P (CV_Map es)).
Hypothesis (HT : ∀ t v, P v → P (CV_Tag t v)).
Hypothesis (HI : ∀ z, P (CV_Integer z)).
Hypothesis (HB : ∀ b, P (CV_Bytes b)).
Hypothesis (HF : ∀ z, P (CV_Float z)).
Hypothesis (HS : ∀ s, P (CV_Text s)).
Hypothesis (HL : ∀ b, P (CV_Bool b)).
Hypothesis (HN : P CV_Null).
Hypothesis (HO : ∀ o, P (CV_Other o)).

Fixpoint CborValue_nested_ind (v : CborValue) : P v :=
  match v with
  | CV_Array items => HA items
      ((fix go l : Forall P l := match l with
        | [] => Forall_nil_2 _
        | x :: l => Forall_cons_2 _ _ _ (CborValue_nested_ind x) (go l) end) items)
  | CV_Map es => HM es
      ((fix go l : Forall (λ e, P e.1 ∧ P e.2) l := match l with
        | [] => Forall_nil_2 _
        | (k, x) :: l => Forall_cons_2 (λ e, P e.1 ∧ P e.2) (k, x) l
            (conj (CborValue_nested_ind k) (CborValue_nested_ind x)) (go l) end) es)
  | CV_Tag t x => HT t x (CborValue_nested_ind x)
  | CV_Integer z => HI z
  | CV_Bytes b => HB b
  | CV_Float z => HF z
  | CV_Text s => HS s
  | CV_Bool b => HL b
  | CV_Null => HN
  | CV_Other o => HO o
  end.
End value_induction.

(** [Value::as_text] *)
Definition as_text (v : CborValue) : option string :=
  match v with CV_Text s => Some s | _ => None end.

(** [Vec<u8>]'s [Ord]: lexicographic. *)
Fixpoint bytes_cmp (a b : bytes) : comparison :=
  match a, b with
  | [], [] => Eq
  | [], _ => Lt
  | _, [] => Gt
  | x :: a, y :: b =>
      match N.compare (N_of_ascii x) (N_of_ascii y) with Eq => bytes_cmp a b | c => c end
  end.

Section cbor.
Context `{!CborCrate}.

(** The [expect] inside never fires on a text key ([cbor_write_read]). *)
Definition encode_key (v : CborValue) : bytes := default [] (into_writer v).

Definition entry_cmp (a b : CborValue * CborValue) : comparison :=
  bytes_cmp (encode_key a.1) (encode_key b.1).

Fixpoint canonicalize (v : CborValue) : CborValue :=
  match v with
  | CV_Map es =>
      CV_Map (sort_by entry_cmp (map (λ e, match e with (k, val) => (k, canonicalize val) end) es))
  | CV_Array items => CV_Array (map canonicalize items)
  | other => other
  end.

(** The loops of [reject_disallowed] over a map's entries and an array's items;
    [seen] lists the members of the [HashSet]. *)
Section reject_loops.
Context (reject : CborValue → Result CborError unit).

Fixpoint reject_entries (seen : list bytes) (l : list (CborValue * CborValue))
    : Result CborError unit :=
  match l with
  | [] => Ok tt
  | (k, val) :: l =>
      reject_if (negb (is_some (as_text k))) CE_NonTextKey;;
      reject k;;
      reject_if (bool_decide (encode_key k ∈ seen)) CE_DuplicateKey;;
      reject val;;
      reject_entries (encode_key k :: seen) l
  end.

Fixpoint reject_items (l : list CborValue) : Result CborError unit :=
  match l with
  | [] => Ok tt
  | x :: l => reject x;; reject_items l
  end.
End reject_loops.

Fixpoint reject_disallowed (v : CborValue) : Result CborError unit :=
  match v with
  | CV_Null => Err CE_NullNotAllowed
  | CV_Tag _ _ => Err CE_TagNotAllowed
  | CV_Float _ => Err CE_FloatNotAllowed
  | CV_Map es => reject_entries reject_disallowed [] es
  | CV_Array items => reject_items reject_disallowed items
  | CV_Integer _ | CV_Bytes _ | CV_Text _ | CV_Bool _ => Ok tt
  | CV_Other _ => Err CE_DisallowedShape
  end.

Definition verify_canonical (b : bytes) : Result CborError unit :=
  '(parsed, position) ← ok_or (from_reader b) CE_Decode;
  reject_if (negb (position =? length b)%nat) CE_TrailingBytes;;
  reject_disallowed parsed;;
  re_encoded ← ok_or (into_writer (canonicalize parsed)) CE_Encode;
  reject_if (bool_decide (re_encoded ≠ b)) CE_NonCanonical.

(** ** Typed values *)

(** [Serialize] and [Deserialize] of a type, as a CBOR value: driving a
    [Serialize] implementation writes what the value writes. *)
Class Serde (T : Type) := {
  to_value : T → CborValue;
  of_value : CborValue → option T;
}.

Definition to_canonical_vec `{!Serde T} (value : T) : Result CborError bytes :=
  raw ← ok_or (into_writer (to_value value)) CE_Encode;
  '(parsed, _) ← ok_or (from_reader raw) CE_Encode;
  reject_disallowed parsed;;
  ok_or (into_writer (canonicalize parsed)) CE_Encode.

Definition from_canonical_bytes `{!Serde T} (b : bytes) : Result CborError T :=
  verify_canonical b;;
  '(parsed, _) ← ok_or (from_reader b) CE_UnknownField;
  ok_or (of_value parsed) CE_UnknownField.

Definition is_sig (e : CborValue * CborValue) : bool := bool_decide (as_text e.1 = Some "sig").

Definition without_sig_field (canonical_bytes : bytes) : Result CborError bytes :=
  verify_canonical canonical_bytes;;
  '(parsed, _) ← ok_or (from_reader canonical_bytes) CE_Decode;
  match parsed with
  | CV_Map es =>
      reject_if (negb (length (List.filter is_sig es) =? 1)%nat) CE_MissingOrDuplicateSigField;;
      ok_or (into_writer (CV_Map (List.filter (λ e, negb (is_sig e)) es))) CE_Encode
  | _ => Err CE_Decode
  end.

Definition unsigned_preimage_body `{!Serde T} (value : T) : Result CborError bytes :=
  full ← to_canonical_vec value;
  without_sig_field full.

Definition map_has_top_level_key (b : bytes) (key : string) : Result CborError bool :=
  '(parsed, _) ← ok_or (from_reader b) CE_Decode;
  match parsed with
  | CV_Map es => Ok (iter_any (λ e, bool_decide (as_text e.1 = Some key)) es)
  | _ => Err CE_Decode
  end.

(** *** Derived structs *)

(** A struct is a map from its field names. [derive(Deserialize)] with
    [deny_unknown_fields] refuses anything but a map, unknown and repeated
    keys, and (by the lookups of the fields) a missing one. *)
Definition to_struct (fields : list (string * CborValue)) : CborValue :=
  CV_Map ((λ f, (CV_Text f.1, f.2)) <$> fields).

Definition known_fields (names : list string) (es : list (CborValue * CborValue)) : bool :=
  match mapM (λ e, as_text e.1) es with
  | Some keys => bool_decide (NoDup keys) && forallb (λ s, bool_decide (s ∈ names)) keys
  | None => false
  end.

Definition field (name : string) (es : list (CborValue * CborValue)) : option CborValue :=
  snd <$> iter_find (λ e, bool_decide (as_text e.1 = Some name)) es.

Definition of_struct {T} (names : list string) (build : (string → option CborValue) → option T)
    (v : CborValue) : option T :=
  match v with
  | CV_Map es => if known_fields names es then build (λ n, field n es) else None
  | _ => None
  end.

(** [Vec<String>] *)
Definition of_strings (l : list string) : CborValue := CV_Array (map CV_Text l).
Definition de_strings (v : CborValue) : option (list string) :=
  match v with CV_Array items => mapM de_string items | _ => None end.
End cbor.
