(* ===== verification/CborProofs.v ===== *)
(** * Canonical CBOR: laws and theorems

    What the code relies on of [ciborium], the declarative reading of the
    shape check, canonical forms as normal forms of values up to the order of
    maps, and the round trips of [Cbor]. *)

From stdpp Require Import base gmap sets list strings sorting.
From Stdlib Require Import ZArith Lia Ascii Sorting.Sorted.
From S2P Require Import Prelude.
From S2P Require Import Cbor.

Open Scope Z_scope.

(** ** The byte order *)

Lemma bytes_cmp_antisym a : ∀ b, bytes_cmp b a = CompOpp (bytes_cmp a b).
Proof.
  induction a as [|x a IH]; intros [|y b]; cbn; try done.
  rewrite N.compare_antisym. destruct (N.compare (N_of_ascii x) (N_of_ascii y)); cbn; auto.
Qed.

Lemma bytes_cmp_Eq a : ∀ b, bytes_cmp a b = Eq ↔ a = b.
Proof.
  induction a as [|x a IH]; intros [|y b]; cbn; try (split; congruence).
  destruct (N.compare_spec (N_of_ascii x) (N_of_ascii y)) as [E|E|E].
  - apply (f_equal ascii_of_N) in E. rewrite !ascii_N_embedding in E. subst y.
    rewrite IH. split; congruence.
  - split; [done|]. intros [= -> _]. lia.
  - split; [done|]. intros [= -> _]. lia.
Qed.

Lemma bytes_cmp_trans a : ∀ b c, bytes_cmp a b = Lt → bytes_cmp b c = Lt → bytes_cmp a c = Lt.
Proof.
  induction a as [|x a IH]; intros [|y b] [|z c]; cbn; try done.
  destruct (N.compare_spec (N_of_ascii x) (N_of_ascii y)) as [E|E|E];
  destruct (N.compare_spec (N_of_ascii y) (N_of_ascii z)) as [F|F|F]; try done; intros H1 H2.
  - rewrite E, F, N.compare_refl. eauto.
  - rewrite E. by rewrite (proj2 (N.compare_lt_iff _ _) F).
  - rewrite <-F. by rewrite (proj2 (N.compare_lt_iff _ _) E).
  - by rewrite (proj2 (N.compare_lt_iff _ _) (N.lt_trans _ _ _ E F)).
Qed.

(** ** What the crate guarantees *)

(** A value the protocol can carry: closed shapes, integers of [ciborium]'s
    range. *)
Fixpoint plain (v : CborValue) : bool :=
  match v with
  | CV_Integer z => (- u64_modulus <=? z) && (z <? u64_modulus)
  | CV_Bytes _ | CV_Text _ | CV_Bool _ => true
  | CV_Array items => forallb plain items
  | CV_Map es => forallb (λ e, match e with (k, val) => plain k && plain val end) es
  | CV_Float _ | CV_Null | CV_Tag _ _ | CV_Other _ => false
  end.

Fixpoint ints_in_range (v : CborValue) : bool :=
  match v with
  | CV_Integer z => (- u64_modulus <=? z) && (z <? u64_modulus)
  | CV_Array items => forallb ints_in_range items
  | CV_Map es => forallb (λ e, match e with (k, val) => ints_in_range k && ints_in_range val end) es
  | CV_Tag _ inner => ints_in_range inner
  | _ => true
  end.

(** Nesting of containers. *)
Fixpoint depth (v : CborValue) : nat :=
  match v with
  | CV_Array items => S (foldr (λ x n, Nat.max (depth x) n) O items)
  | CV_Map es => S (foldr (λ e n, match e with (k, val) =>
                             Nat.max (Nat.max (depth k) (depth val)) n end) O es)
  | CV_Tag _ inner => S (depth inner)
  | _ => O
  end.

(** What a written value reads back as, what the reader can return, and what
    the leaf decoders make of the shapes the encoder emits. *)
Class CborLaws `{!CborCrate} : Prop := {
  cbor_write_read : ∀ v, plain v = true → (depth v ≤ recursion_limit)%nat →
    ∃ b, into_writer v = Some b ∧ from_reader b = Some (v, length b);
  cbor_read_bounds : ∀ b v n, from_reader b = Some (v, n) →
    ints_in_range v = true ∧ (depth v ≤ recursion_limit)%nat;
  cbor_recursion_limit : (4 ≤ recursion_limit)%nat;
  de_u64_integer : ∀ z, in_u64 z → de_u64 (CV_Integer z) = Some z;
  de_u64_bound : ∀ v z, de_u64 v = Some z → in_u64 z;
  de_string_text : ∀ s, de_string (CV_Text s) = Some s;
  de_byte_buf_bytes : ∀ b, de_byte_buf (CV_Bytes b) = Some b;
}.

Section cbor_lemmas.
Context `{!CborCrate, !CborLaws}.

(** *** Keys *)

Lemma text_writes s :
  ∃ b, into_writer (CV_Text s) = Some b ∧ from_reader b = Some (CV_Text s, length b).
Proof. apply cbor_write_read; [done|cbn; lia]. Qed.

Lemma encode_key_text_inj s t : encode_key (CV_Text s) = encode_key (CV_Text t) → s = t.
Proof.
  unfold encode_key. destruct (text_writes s) as (b & -> & Hb), (text_writes t) as (c & -> & Hc).
  cbn. intros ->. congruence.
Qed.

Lemma encode_key_inj k1 k2 :
  is_Some (as_text k1) → is_Some (as_text k2) → encode_key k1 = encode_key k2 → k1 = k2.
Proof.
  intros [s Hs] [t Ht]. destruct k1, k2; try done. intros ->%encode_key_text_inj. done.
Qed.

Lemma entry_cmp_antisym x y : entry_cmp y x = CompOpp (entry_cmp x y).
Proof. apply bytes_cmp_antisym. Qed.

(** ** The shape check, declaratively *)

(** No null, tag, float or unknown shape at any depth; map keys are texts and
    distinct. *)
#[warnings="-register-all"]
Inductive Allowed : CborValue → Prop :=
| Allowed_integer z : Allowed (CV_Integer z)
| Allowed_bytes b : Allowed (CV_Bytes b)
| Allowed_text s : Allowed (CV_Text s)
| Allowed_bool b : Allowed (CV_Bool b)
| Allowed_array items : Forall Allowed items → Allowed (CV_Array items)
| Allowed_map es :
    Forall (λ e, is_Some (as_text e.1)) es → Forall (λ e, Allowed e.2) es →
    NoDup es.*1 → Allowed (CV_Map es).

Lemma reject_items_Ok l :
  Forall (λ x, reject_disallowed x = Ok tt ↔ Allowed x) l →
  reject_items reject_disallowed l = Ok tt ↔ Forall Allowed l.
Proof.
  induction 1 as [|x l Hx _ IH]; cbn; [by split|].
  rewrite Forall_cons, <-Hx, <-IH. destruct (reject_disallowed x) as [[]|]; cbn; naive_solver.
Qed.

Lemma fresh_for_seen (x : bytes) (seen l : list bytes) :
  x ∉ seen →
  (NoDup l ∧ (∀ y, y ∈ l → y ∉ x :: seen)) ↔ NoDup (x :: l) ∧ (∀ y, y ∈ x :: l → y ∉ seen).
Proof.
  intros Hx. rewrite NoDup_cons. setoid_rewrite elem_of_cons. naive_solver.
Qed.

Lemma reject_entries_Ok l : ∀ seen,
  Forall (λ e, (reject_disallowed e.1 = Ok tt ↔ Allowed e.1) ∧
               (reject_disallowed e.2 = Ok tt ↔ Allowed e.2)) l →
  reject_entries reject_disallowed seen l = Ok tt ↔
  Forall (λ e, is_Some (as_text e.1)) l ∧ Forall (λ e, Allowed e.2) l ∧
  NoDup (encode_key <$> l.*1) ∧ (∀ x, x ∈ encode_key <$> l.*1 → x ∉ seen).
Proof.
  induction l as [|[k val] l IH]; intros seen Hl; cbn [reject_entries].
  { split; [|done]. intros _. split_and!; [constructor..|]. intros x Hx. by apply not_elem_of_nil in Hx. }
  apply Forall_cons in Hl as [[Hk Hv] Hl]. cbn [fst snd] in Hk, Hv.
  rewrite !Forall_cons, !fmap_cons. cbn [fst snd].
  destruct (as_text k) as [s|] eqn:Hs; cbn; [|by split; [done|intros (([? ?] & _) & _)]].
  destruct k; try done. cbn [reject_disallowed]. cbn [mbind Result_bind].
  case_bool_decide as Hin; cbn.
  { split; [done|]. intros (_ & _ & _ & Hf). destruct (Hf (encode_key (CV_Text s0))); [left|done]. }
  rewrite <-(fresh_for_seen _ _ _ Hin), <-Hv.
  destruct (reject_disallowed val) as [[]|]; cbn; [|naive_solver].
  rewrite (IH _ Hl). naive_solver.
Qed.

Lemma NoDup_encode_key (l : list CborValue) :
  Forall (λ k, is_Some (as_text k)) l → NoDup (encode_key <$> l) ↔ NoDup l.
Proof.
  intros Hl. split; [apply NoDup_fmap_1|]. induction 1 as [|k l Hk _ IH]; [constructor|].
  apply Forall_cons in Hl as [Hs Hl]. rewrite fmap_cons. constructor; [|auto].
  intros (k' & Heq & Hin)%list_elem_of_fmap. destruct Hk.
  rewrite Forall_forall in Hl. by rewrite (encode_key_inj k k' Hs (Hl _ Hin) Heq).
Qed.

Lemma reject_disallowed_Ok v : reject_disallowed v = Ok tt ↔ Allowed v.
Proof.
  induction v as [items IH|es IH|t v IH| | | | | | |] using CborValue_nested_ind;
    cbn [reject_disallowed]; try (split; [done|by inversion 1]);
    try (by split; [constructor|]).
  - rewrite (reject_items_Ok _ IH). split; [by constructor|by inversion 1].
  - rewrite (reject_entries_Ok _ _ IH). split.
    + intros (Ht & Hv & Hnd & _). constructor; [done..|]. by apply NoDup_fmap_1 in Hnd.
    + inversion 1 as [| | | | |? Ht Hv Hnd]; subst. split_and!; [done..| |by intros; apply not_elem_of_nil].
      apply NoDup_encode_key; [|done]. by rewrite Forall_fmap.
Qed.

(** ** Canonical forms *)

Definition canon_entry (e : CborValue * CborValue) : CborValue * CborValue :=
  (e.1, canonicalize e.2).

Lemma canonicalize_map es : canonicalize (CV_Map es) = CV_Map (sort_by entry_cmp (canon_entry <$> es)).
Proof. cbn. do 2 f_equal. apply map_ext. by intros [k v]. Qed.

Lemma canon_entry_keys es : (canon_entry <$> es).*1 = es.*1.
Proof. by rewrite <-list_fmap_compose. Qed.

Lemma canonicalize_idemp v : canonicalize (canonicalize v) = canonicalize v.
Proof.
  induction v as [items IH|es IH|t v IH| | | | | | |] using CborValue_nested_ind; try done.
  - cbn. f_equal. rewrite map_map. apply map_ext_in. intros x Hx%list_elem_of_In.
    rewrite Forall_forall in IH. auto.
  - rewrite !canonicalize_map. f_equal.
    assert (canon_entry <$> sort_by entry_cmp (canon_entry <$> es)
            = sort_by entry_cmp (canon_entry <$> es)) as ->.
    + rewrite <-(list_fmap_id (sort_by _ _)) at 2. apply list_fmap_ext. intros i [k x] Hi.
      apply list_elem_of_lookup_2 in Hi. rewrite sort_by_perm in Hi.
      apply list_elem_of_fmap in Hi as ([k' x'] & [= -> ->] & Hin).
      rewrite Forall_forall in IH. unfold canon_entry. cbn. f_equal.
      exact (proj2 (IH _ Hin)).
    + apply sort_by_sorted_id, sort_by_sorted, entry_cmp_antisym.
Qed.

Lemma canonicalize_Allowed v : Allowed v → Allowed (canonicalize v).
Proof.
  induction v as [items IH|es IH|t v IH| | | | | | |] using CborValue_nested_ind; try done.
  - inversion 1 as [| | | |? Hi|]; subst. constructor.
    rewrite Forall_forall in *. intros y (x & <- & Hx)%list_elem_of_In%in_map_iff.
    apply list_elem_of_In in Hx. auto.
  - inversion 1 as [| | | | |? Ht Hv Hnd]; subst. rewrite canonicalize_map. constructor.
    + rewrite sort_by_perm. by rewrite Forall_fmap.
    + rewrite sort_by_perm, Forall_fmap. rewrite Forall_forall in *. intros e He.
      by apply (IH _ He), Hv.
    + rewrite sort_by_perm. by rewrite canon_entry_keys.
Qed.

Lemma foldr_max_perm {A} (f : A → nat) (l l' : list A) :
  l ≡ₚ l' → foldr (λ x n, Nat.max (f x) n) O l = foldr (λ x n, Nat.max (f x) n) O l'.
Proof. induction 1; cbn; lia. Qed.

Definition entry_depth (e : CborValue * CborValue) : nat := Nat.max (depth e.1) (depth e.2).

Lemma depth_map es : depth (CV_Map es) = S (foldr (λ e n, Nat.max (entry_depth e) n) O es).
Proof. cbn. f_equal. induction es as [|[k v] es IH]; cbn; [done|]. by rewrite IH. Qed.

Lemma depth_array items : depth (CV_Array items) = S (foldr (λ x n, Nat.max (depth x) n) O items).
Proof. done. Qed.

Lemma canonicalize_depth v : depth (canonicalize v) = depth v.
Proof.
  induction v as [items IH|es IH|t v IH| | | | | | |] using CborValue_nested_ind; try done.
  - cbn [canonicalize]. rewrite !depth_array. f_equal. induction IH as [|x l Hx _ IHl]; [done|].
    cbn. by rewrite Hx, IHl.
  - rewrite canonicalize_map, !depth_map. f_equal.
    rewrite (foldr_max_perm _ _ _ (sort_by_perm entry_cmp _)).
    induction IH as [|[k x] l [_ Hx] _ IHl]; [done|]. rewrite fmap_cons. cbn [foldr].
    rewrite IHl. unfold entry_depth. cbn in *. by rewrite Hx.
Qed.

Lemma Allowed_plain v : Allowed v → ints_in_range v = true → plain v = true.
Proof.
  induction v as [items IH|es IH|t v IH| | | | | | |] using CborValue_nested_ind;
    try (by inversion 1).
  - inversion 1 as [| | | |? Hi|]; subst. cbn. rewrite !forallb_forall. intros Hr x Hx.
    rewrite Forall_forall in *. specialize (Hr x Hx). apply list_elem_of_In in Hx. auto.
  - inversion 1 as [| | | | |? Ht Hv Hnd]; subst. cbn. rewrite !forallb_forall. intros Hr [k x] Hx.
    specialize (Hr _ Hx). cbn in Hr. apply list_elem_of_In in Hx.
    rewrite Forall_forall in *. destruct (IH _ Hx) as [_ IHx]. apply andb_true_iff in Hr as [_ Hr].
    cbn in IHx. rewrite IHx by (done || apply (Hv _ Hx)). destruct (Ht _ Hx) as [s Hs]. cbn in Hs.
    by destruct k.
Qed.

Lemma forallb_perm {A} (f : A → bool) (l l' : list A) : l ≡ₚ l' → forallb f l = forallb f l'.
Proof.
  induction 1 as [|x l l' _ IH|x y l|l1 l2 l3 _ IH1 _ IH2]; cbn; [done|by rewrite IH| |by rewrite IH1].
  by destruct (f x), (f y).
Qed.

Lemma canonicalize_plain v : plain (canonicalize v) = plain v.
Proof.
  induction v as [items IH|es IH|t v IH| | | | | | |] using CborValue_nested_ind; try done.
  - cbn. induction IH as [|x l Hx _ IHl]; [done|]. cbn. by rewrite Hx, IHl.
  - rewrite canonicalize_map. cbn [plain].
    rewrite (forallb_perm _ _ _ (sort_by_perm entry_cmp _)).
    induction IH as [|[k x] l [_ Hx] _ IHl]; [done|]. cbn in *. by rewrite Hx, IHl.
Qed.

(** *** Normal forms *)

(** Equal up to the order of map entries, at every depth. *)
#[warnings="-register-all"]
Inductive value_eqv : CborValue → CborValue → Prop :=
| eqv_same v : value_eqv v v
| eqv_array l1 l2 : Forall2 value_eqv l1 l2 → value_eqv (CV_Array l1) (CV_Array l2)
| eqv_map es1 es es2 :
    Forall2 (λ a b, a.1 = b.1 ∧ value_eqv a.2 b.2) es1 es → es ≡ₚ es2 →
    value_eqv (CV_Map es1) (CV_Map es2).

Lemma in_order_trans : Transitive (in_order entry_cmp).
Proof.
  intros x y z. unfold in_order, entry_cmp.
  destruct (bytes_cmp (encode_key x.1) (encode_key y.1)) eqn:Exy; [| |done]; intros _.
  - apply bytes_cmp_Eq in Exy. by rewrite Exy.
  - destruct (bytes_cmp (encode_key y.1) (encode_key z.1)) eqn:Eyz; [| |done]; intros _.
    + apply bytes_cmp_Eq in Eyz. by rewrite <-Eyz, Exy.
    + by rewrite (bytes_cmp_trans _ _ _ Exy Eyz).
Qed.

Lemma sort_entries_unique l1 l2 :
  Forall (λ e, is_Some (as_text e.1)) l1 → NoDup l1.*1 → l1 ≡ₚ l2 →
  sort_by entry_cmp l1 = sort_by entry_cmp l2.
Proof.
  intros Ht Hnd Hp. eapply (StronglySorted_unique_strong (in_order entry_cmp)).
  - intros x y Hx Hy Hxy Hyx. rewrite sort_by_perm in Hx, Hy. rewrite <-Hp in Hy.
    eapply (NoDup_fmap_inj_on fst _ _ _ Hnd); [done..|].
    rewrite Forall_forall in Ht. apply encode_key_inj; [by apply Ht..|].
    apply bytes_cmp_Eq. unfold in_order in *. rewrite entry_cmp_antisym in Hyx.
    unfold entry_cmp in *. by destruct (bytes_cmp _ _).
  - apply Sorted_StronglySorted; [apply in_order_trans|apply sort_by_sorted, entry_cmp_antisym].
  - apply Sorted_StronglySorted; [apply in_order_trans|apply sort_by_sorted, entry_cmp_antisym].
  - by rewrite !sort_by_perm.
Qed.

Lemma Forall2_canon_entry es1 es :
  Forall (λ e, (∀ w, Allowed e.2 → value_eqv e.2 w → canonicalize e.2 = canonicalize w)) es1 →
  Forall (λ e, Allowed e.2) es1 →
  Forall2 (λ a b, a.1 = b.1 ∧ value_eqv a.2 b.2) es1 es → canon_entry <$> es1 = canon_entry <$> es.
Proof.
  intros IH HA Hf. induction Hf as [|[k x] [k' y] l l' [Hk Hxy] _ IHf]; [done|].
  apply Forall_cons in IH as [Hx IH]. apply Forall_cons in HA as [HAx HA]. cbn in Hx, HAx, Hk, Hxy. subst k'.
  rewrite !fmap_cons. f_equal; [|auto]. unfold canon_entry. cbn. by rewrite (Hx _ HAx Hxy).
Qed.

Lemma eqv_canonicalize v : ∀ w, Allowed v → value_eqv v w → canonicalize v = canonicalize w.
Proof.
  induction v as [items IH|es IH|t v IH| | | | | | |] using CborValue_nested_ind;
    intros w HA Heqv; inversion Heqv as [|l1 l2 Hf|es1 es' es2 Hf Hp]; subst; try done.
  - inversion HA as [| | | |? Hi|]; subst. cbn. f_equal. clear Heqv HA.
    induction Hf as [|x y l l' Hxy _ IHf]; [done|]. apply Forall_cons in IH as [Hx IH].
    apply Forall_cons in Hi as [Hix Hi]. cbn. f_equal; auto.
  - inversion HA as [| | | | |? Ht Hv Hnd]; subst. rewrite !canonicalize_map. f_equal.
    rewrite (Forall2_canon_entry _ es'); [| |done|done].
    + apply sort_entries_unique; [| |by apply fmap_Permutation].
      * rewrite <-(Forall2_canon_entry es es'); [by rewrite Forall_fmap| |done|done].
        by eapply Forall_impl; [exact IH|]; intros e [_ He].
      * rewrite canon_entry_keys. replace es'.*1 with es.*1; [done|].
        clear -Hf. induction Hf as [|a b l l' [Hk _] _ IHf]; [done|]. cbn. by rewrite Hk, IHf.
    + by eapply Forall_impl; [exact IH|]; intros e [_ He].
Qed.

Lemma canonicalize_eqv v : ∀ w, canonicalize v = canonicalize w → value_eqv v w.
Proof.
  induction v as [items IH|es IH|t v IH| | | | | | |] using CborValue_nested_ind;
    intros w Heq; destruct w as [| | | | | | |items'|es'|]; try discriminate Heq;
    try (cbn in Heq; injection Heq as Heq; subst; apply eqv_same).
  - injection Heq as Heq. apply eqv_array. revert items' Heq.
    induction IH as [|x l Hx _ IHl]; intros [|y l'] Heq; try discriminate Heq; [constructor|].
    injection Heq as Hxy Heq. constructor; auto.
  - rewrite !canonicalize_map in Heq. injection Heq as Heq.
    assert (canon_entry <$> es ≡ₚ canon_entry <$> es') as Hp
      by (rewrite <-(sort_by_perm entry_cmp (canon_entry <$> es)), Heq; apply sort_by_perm).
    apply Permutation_map_inv in Hp as (es0 & Hes & Hp).
    eapply eqv_map; [|symmetry; exact Hp]. clear -IH Hes. revert es0 Hes.
    induction IH as [|[k x] l [_ Hx] _ IHl]; intros [|[k' y] l'] Hes; try discriminate Hes; [constructor|].
    rewrite !fmap_cons in Hes. injection Hes as Hk Hy Hes. constructor; [|auto].
    cbn in *. auto.
  - apply eqv_same.
Qed.

(** ** Verification and uniqueness *)

Lemma canonical_writes v :
  Allowed v → ints_in_range v = true → (depth v ≤ recursion_limit)%nat →
  ∃ b, into_writer (canonicalize v) = Some b ∧
       from_reader b = Some (canonicalize v, length b).
Proof.
  intros HA Hr Hd. apply cbor_write_read.
  - rewrite canonicalize_plain. by apply Allowed_plain.
  - by rewrite canonicalize_depth.
Qed.

Lemma verify_canonical_Ok b :
  verify_canonical b = Ok tt ↔
  ∃ v, from_reader b = Some (v, length b) ∧ Allowed v ∧ canonicalize v = v ∧ into_writer v = Some b.
Proof.
  unfold verify_canonical. split.
  - intros Hv. destruct (from_reader b) as [[v n]|] eqn:Hrd; cbn in Hv; [|done].
    destruct (Nat.eqb_spec n (length b)) as [->|]; cbn in Hv; [|done].
    destruct (reject_disallowed v) as [[]|] eqn:Hrej; cbn in Hv; [|done].
    apply reject_disallowed_Ok in Hrej. destruct (cbor_read_bounds _ _ _ Hrd) as [Hr Hd].
    destruct (canonical_writes v Hrej Hr Hd) as (b' & Hw & Hrd'). rewrite Hw in Hv. cbn in Hv.
    case_bool_decide as Hb; [done|]. subst b'. rewrite Hrd in Hrd'. injection Hrd' as Hc.
    exists v. rewrite <-Hc in Hw. split_and!; congruence || done.
  - intros (v & Hrd & HA & Hc & Hw). rewrite Hrd. cbn. rewrite Nat.eqb_refl. cbn.
    rewrite (proj2 (reject_disallowed_Ok v) HA). cbn. rewrite Hc, Hw. cbn.
    by rewrite bool_decide_false by auto.
Qed.

Lemma to_canonical_vec_Ok `{!Serde T} (x : T) b :
  to_canonical_vec x = Ok b →
  ∃ raw v n, into_writer (to_value x) = Some raw ∧ from_reader raw = Some (v, n) ∧ Allowed v ∧
    into_writer (canonicalize v) = Some b ∧ from_reader b = Some (canonicalize v, length b).
Proof.
  unfold to_canonical_vec. intros He. apply bind_Ok in He as (raw & Hraw%ok_or_Ok & He).
  apply bind_Ok in He as ([v n] & Hrd%ok_or_Ok & He).
  apply bind_Ok in He as ([] & Hrej%reject_disallowed_Ok & Hw%ok_or_Ok).
  destruct (cbor_read_bounds _ _ _ Hrd) as [Hr Hd].
  destruct (canonical_writes v Hrej Hr Hd) as (b' & Hw' & Hrd'). simplify_eq. eauto 10.
Qed.

Lemma to_canonical_vec_verifies `{!Serde T} (x : T) b :
  to_canonical_vec x = Ok b → verify_canonical b = Ok tt.
Proof.
  intros (raw & v & n & _ & _ & HA & Hw & Hrd)%to_canonical_vec_Ok.
  apply verify_canonical_Ok. exists (canonicalize v).
  split_and!; [done|by apply canonicalize_Allowed|apply canonicalize_idemp|done].
Qed.

(** ** Typed round trips *)

(** What an implementation of [Serde] owes for the values of its type that
    exist ([valid]): a closed value within the crate's bounds, from which the
    decoder rebuilds it whatever the order of the maps. *)
Class SerdeLaws (T : Type) `{!Serde T} (valid : T → Prop) : Prop := {
  serde_allowed : ∀ x, valid x → Allowed (to_value x);
  serde_plain : ∀ x, valid x → plain (to_value x) = true;
  serde_depth : ∀ x, valid x → (depth (to_value x) ≤ recursion_limit)%nat;
  serde_decode : ∀ x, valid x → of_value (canonicalize (to_value x)) = Some x;
}.

Lemma serde_encodes `{!Serde T, !SerdeLaws T valid} (x : T) :
  valid x →
  ∃ b, to_canonical_vec x = Ok b ∧ into_writer (canonicalize (to_value x)) = Some b ∧
       from_reader b = Some (canonicalize (to_value x), length b) ∧
       verify_canonical b = Ok tt ∧ from_canonical_bytes b = Ok x.
Proof.
  intros Hx. destruct (cbor_write_read (to_value x)) as (raw & Hraw & Hrd);
    [by apply serde_plain|by apply serde_depth|].
  destruct (cbor_write_read (canonicalize (to_value x))) as (b & Hb & Hrb);
    [rewrite canonicalize_plain; by apply serde_plain|
     rewrite canonicalize_depth; by apply serde_depth|].
  assert (verify_canonical b = Ok tt) as Hv.
  { apply verify_canonical_Ok. exists (canonicalize (to_value x)). split_and!; [done| | |done].
    - by apply canonicalize_Allowed, serde_allowed.
    - apply canonicalize_idemp. }
  exists b. split_and!; [|done..|].
  - unfold to_canonical_vec. rewrite Hraw. cbn. rewrite Hrd. cbn.
    rewrite (proj2 (reject_disallowed_Ok _) (serde_allowed x Hx)). cbn. by rewrite Hb.
  - unfold from_canonical_bytes. rewrite Hv. cbn. rewrite Hrb. cbn. by rewrite serde_decode.
Qed.

(** *** Structs *)

Fixpoint assoc (name : string) (fields : list (string * CborValue)) : option CborValue :=
  match fields with
  | [] => None
  | (n, v) :: fields => if String.eqb n name then Some v else assoc name fields
  end.

Lemma assoc_elem n fields v : assoc n fields = Some v → (n, v) ∈ fields.
Proof.
  induction fields as [|[m w] fields IH]; cbn; [done|].
  destruct (String.eqb_spec m n) as [->|]; [intros [= ->]; by left|]. intros ?. right. auto.
Qed.

Lemma NoDup_field_keys (fields : list (string * CborValue)) :
  NoDup fields.*1 → NoDup ((λ f, (CV_Text f.1, f.2)) <$> fields).*1.
Proof.
  intros Hnd. replace (_.*1) with (CV_Text <$> fields.*1).
  - apply NoDup_fmap_2; [by intros ?? [= ->]|done].
  - by rewrite <-!list_fmap_compose.
Qed.

Lemma to_struct_Allowed fields :
  NoDup fields.*1 → Forall (λ f, Allowed f.2) fields → Allowed (to_struct fields).
Proof.
  intros Hnd HA. constructor.
  - rewrite Forall_fmap. apply Forall_forall. intros f _. by eexists.
  - by rewrite Forall_fmap.
  - by apply NoDup_field_keys.
Qed.

Lemma field_perm name es es' :
  NoDup es.*1 → es ≡ₚ es' → field name es = field name es'.
Proof.
  intros Hnd Hp. unfold field.
  destruct (iter_find _ es) as [[k v]|] eqn:H1; destruct (iter_find _ es') as [[k' v']|] eqn:H2.
  - apply iter_find_Some in H1 as [Hin1 Hk%bool_decide_eq_true].
    apply iter_find_Some in H2 as [Hin2 Hk'%bool_decide_eq_true]. rewrite <-Hp in Hin2.
    cbn in *. destruct k, k'; try done. injection Hk as ->. injection Hk' as ->.
    by pose proof (NoDup_fmap_inj_on fst _ _ _ Hnd Hin1 Hin2 eq_refl) as [= ->].
  - apply iter_find_Some in H1 as [Hin Hk]. rewrite Hp in Hin.
    rewrite iter_find_None in H2. rewrite (H2 _ Hin) in Hk. done.
  - apply iter_find_Some in H2 as [Hin Hk]. rewrite <-Hp in Hin.
    rewrite iter_find_None in H1. rewrite (H1 _ Hin) in Hk. done.
  - done.
Qed.

Lemma field_struct name fields :
  field name (canon_entry <$> ((λ f, (CV_Text f.1, f.2)) <$> fields))
  = canonicalize <$> assoc name fields.
Proof.
  unfold field. induction fields as [|[n v] fields IH]; [done|]. cbn.
  destruct (String.eqb_spec n name) as [->|Hn].
  - by rewrite bool_decide_true.
  - rewrite bool_decide_false by congruence. exact IH.
Qed.

Lemma mapM_as_text_fields fields :
  mapM (λ e : CborValue * CborValue, as_text e.1)
    (canon_entry <$> ((λ f, (CV_Text f.1, f.2)) <$> fields)) = Some fields.*1.
Proof. induction fields as [|[n v] fields IH]; [done|]. cbn. cbn in IH. by rewrite IH. Qed.

Lemma mapM_perm {A B} (f : A → option B) l l' k :
  l ≡ₚ l' → mapM f l = Some k → ∃ k', mapM f l' = Some k' ∧ k ≡ₚ k'.
Proof.
  intros Hp. revert k.
  induction Hp as [|x l l' _ IH|x y l|l1 l2 l3 _ IH1 _ IH2]; intros k Hk.
  - eauto.
  - cbn in *. destruct (f x); cbn in *; [|done]. destruct (mapM f l); cbn in *; [|done].
    injection Hk as <-. destruct (IH _ eq_refl) as (k' & -> & Hkp). cbn. eexists. by rewrite Hkp.
  - cbn in *. destruct (f y), (f x); cbn in *; try done. destruct (mapM f l); cbn in *; [|done].
    injection Hk as <-. eexists. split; [done|]. constructor.
  - destruct (IH1 _ Hk) as (k2 & Hk2 & Hp2). destruct (IH2 _ Hk2) as (k3 & ? & ?).
    exists k3. split; [done|by etrans].
Qed.

(** Decoding a canonicalized struct looks the fields up in the struct. *)
Lemma of_struct_canonical {T} names (build : (string → option CborValue) → option T) fields :
  NoDup fields.*1 → Forall (λ n, n ∈ names) fields.*1 →
  ∃ g, of_struct names build (canonicalize (to_struct fields)) = build g ∧
       ∀ n, g n = canonicalize <$> assoc n fields.
Proof.
  intros Hnd Hin. unfold to_struct. rewrite canonicalize_map. cbn [of_struct].
  set (es := canon_entry <$> _).
  assert (NoDup es.*1) as Hes.
  { unfold es. rewrite canon_entry_keys. by apply NoDup_field_keys. }
  assert (known_fields names (sort_by entry_cmp es) = true) as ->.
  { unfold known_fields.
    destruct (mapM_perm _ es (sort_by entry_cmp es) _ (symmetry (sort_by_perm entry_cmp es))
      (mapM_as_text_fields fields)) as (keys & -> & Hp).
    apply andb_true_iff. split.
    - apply bool_decide_eq_true. by rewrite <-Hp.
    - rewrite <-(forallb_perm _ _ _ Hp). apply forallb_forall. intros s Hs%list_elem_of_In.
      apply bool_decide_eq_true. rewrite Forall_forall in Hin. auto. }
  eexists. split; [done|]. intros n. cbn beta.
  rewrite <-(field_perm n es); [apply field_struct|done|by rewrite sort_by_perm].
Qed.

Lemma to_struct_plain fields :
  Forall (λ f, plain f.2 = true) fields → plain (to_struct fields) = true.
Proof.
  intros Hf. cbn. apply forallb_forall. intros e ([n v] & <- & Hin)%in_map_iff. cbn.
  rewrite Forall_forall in Hf. by apply (Hf (n, v)), list_elem_of_In.
Qed.

Lemma to_struct_depth fields d :
  Forall (λ f, (depth f.2 ≤ d)%nat) fields → (depth (to_struct fields) ≤ S d)%nat.
Proof.
  intros Hf. unfold to_struct. rewrite depth_map. apply le_n_S.
  induction Hf as [|[n v] l Hv _ IH]; [cbn; lia|]. rewrite fmap_cons. cbn [foldr].
  unfold entry_depth at 1. cbn in *. lia.
Qed.

(** *** Removing the signature *)

Lemma filter_perm {A} (f : A → bool) (l l' : list A) :
  l ≡ₚ l' → List.filter f l ≡ₚ List.filter f l'.
Proof.
  induction 1 as [|x l l' _ IH|x y l|l1 l2 l3 _ IH1 _ IH2]; cbn; [done| | |by rewrite IH1].
  - destruct (f x); [by constructor|done].
  - destruct (f x), (f y); try done. constructor.
Qed.

Lemma field_without_sig n es :
  n ≠ "sig" → field n (List.filter (λ e, negb (is_sig e)) es) = field n es.
Proof.
  intros Hn. unfold field. induction es as [|e es IH]; [done|]. cbn.
  unfold is_sig at 1. destruct (bool_decide_reflect (as_text e.1 = Some "sig")) as [Hs|Hs]; cbn.
  - rewrite bool_decide_false by congruence. exact IH.
  - case_bool_decide; [done|exact IH].
Qed.

Lemma one_sig fields :
  NoDup fields.*1 → (∃ v, assoc "sig" fields = Some v) →
  length (List.filter is_sig (canon_entry <$> ((λ f, (CV_Text f.1, f.2)) <$> fields))) = 1%nat.
Proof.
  assert (∀ l : list (string * CborValue), "sig" ∉ l.*1 →
    length (List.filter is_sig (canon_entry <$> ((λ f, (CV_Text f.1, f.2)) <$> l))) = 0%nat) as Hnone.
  { induction l as [|[n v] l IH]; [done|]. intros [Hn Hl]%not_elem_of_cons. cbn in *.
    unfold is_sig at 1. cbn. rewrite bool_decide_false by congruence. auto. }
  induction fields as [|[n v] fields IH]; cbn; [by intros _ [? ?]|].
  intros [Hn Hnd]%NoDup_cons [w Hw]. unfold is_sig at 1. cbn.
  destruct (String.eqb_spec n "sig") as [->|Hne].
  - rewrite bool_decide_true by done. cbn [length]. f_equal. by apply Hnone.
  - rewrite bool_decide_false by congruence. apply IH; [done|by exists w].
Qed.

Lemma filter_max_le {A} (f : A → bool) (g : A → nat) l :
  (foldr (λ x n, Nat.max (g x) n) O (List.filter f l) ≤ foldr (λ x n, Nat.max (g x) n) O l)%nat.
Proof. induction l as [|x l IH]; cbn; [lia|]. destruct (f x); cbn; lia. Qed.

Lemma StronglySorted_List_filter {A} (R : A → A → Prop) (f : A → bool) l :
  StronglySorted R l → StronglySorted R (List.filter f l).
Proof.
  induction 1 as [|x l _ IH Hx]; cbn; [constructor|]. destruct (f x); [|done].
  constructor; [done|]. rewrite Forall_forall in *. intros y [Hy _]%list_elem_of_In%filter_In.
  by apply Hx, list_elem_of_In.
Qed.

Lemma filter_sort_entries f l :
  Forall (λ e, is_Some (as_text e.1)) l → NoDup l.*1 →
  List.filter f (sort_by entry_cmp l) = sort_by entry_cmp (List.filter f l).
Proof.
  intros Ht Hnd.
  assert (∀ k, k ∈ List.filter f l → k ∈ l) as Hin
    by (intros k [Hk _]%list_elem_of_In%filter_In; by apply list_elem_of_In).
  rewrite <-(sort_by_sorted_id entry_cmp (List.filter f (sort_by entry_cmp l))).
  - symmetry. apply sort_entries_unique.
    + rewrite Forall_forall in *. auto.
    + clear Ht Hin. induction l as [|e l IH]; [done|]. apply NoDup_cons in Hnd as [He Hnd].
      cbn. destruct (f e); [|auto]. apply NoDup_cons. split; [|auto]. intros Hc. apply He.
      apply list_elem_of_fmap in Hc as (e' & -> & [Hc _]%list_elem_of_In%filter_In).
      apply list_elem_of_fmap. exists e'. by rewrite list_elem_of_In.
    + apply filter_perm. by rewrite sort_by_perm.
  - apply StronglySorted_Sorted, StronglySorted_List_filter.
    apply Sorted_StronglySorted; [apply in_order_trans|apply sort_by_sorted, entry_cmp_antisym].
Qed.

Lemma filter_sig_fields fields :
  List.filter (λ e, negb (is_sig e)) (canon_entry <$> ((λ f, (CV_Text f.1, f.2)) <$> fields)) =
  canon_entry <$> ((λ f, (CV_Text f.1, f.2)) <$> List.filter (λ f, negb (String.eqb f.1 "sig")) fields).
Proof.
  induction fields as [|[n v] fields IH]; [done|]. cbn. unfold is_sig at 1. cbn.
  destruct (String.eqb_spec n "sig") as [->|Hn].
  - by rewrite bool_decide_true by done.
  - rewrite bool_decide_false by congruence. cbn. by rewrite IH.
Qed.

(** The signing preimage of a struct is the canonical encoding of its fields
    but [sig]. *)
Lemma unsigned_preimage_struct `{!Serde T, !SerdeLaws T valid} (x : T) fields :
  valid x → to_value x = to_struct fields → NoDup fields.*1 →
  (∃ v, assoc "sig" fields = Some v) →
  ∃ p es, unsigned_preimage_body x = Ok p ∧ from_reader p = Some (CV_Map es, length p) ∧
    (∀ n, n ≠ "sig" → field n es = canonicalize <$> assoc n fields) ∧
    into_writer (canonicalize (to_struct (List.filter (λ f, negb (String.eqb f.1 "sig")) fields))) = Some p.
Proof.
  intros Hx Hfs Hnd Hsig.
  destruct (serde_encodes x Hx) as (b & Henc & Hw & Hrd & Hv & _).
  pose proof (serde_plain x Hx) as Hp. pose proof (serde_depth x Hx) as Hd.
  rewrite <-canonicalize_plain in Hp. rewrite <-canonicalize_depth in Hd.
  unfold unsigned_preimage_body, without_sig_field. rewrite Henc. cbn. rewrite Hv. cbn.
  rewrite Hrd. cbn. rewrite Hfs in *. unfold to_struct in Hw, Hrd, Hp, Hd |- *.
  rewrite canonicalize_map in *. set (es := canon_entry <$> _) in *.
  assert (length (List.filter is_sig (sort_by entry_cmp es)) = 1%nat) as ->.
  { rewrite (Permutation_length (filter_perm _ _ _ (sort_by_perm entry_cmp es))). by apply one_sig. }
  cbn [Nat.eqb negb reject_if mbind Result_bind].
  destruct (cbor_write_read (CV_Map (List.filter (λ e, negb (is_sig e)) (sort_by entry_cmp es))))
    as (p & Hpw & Hpr).
  - cbn [plain] in *. rewrite forallb_forall in *. intros e [He _]%filter_In. auto.
  - rewrite depth_map in *. etransitivity; [|exact Hd]. apply le_n_S, filter_max_le.
  - exists p, (List.filter (λ e, negb (is_sig e)) (sort_by entry_cmp es)).
    assert (NoDup es.*1) as Hk.
    { pose proof (serde_allowed x Hx) as HA. rewrite Hfs in HA.
      inversion HA as [| | | | |? _ _ Hk]; subst. unfold es. by rewrite canon_entry_keys. }
    split_and!; [by rewrite Hpw|done| |].
    + intros n Hn. rewrite field_without_sig by done.
      rewrite <-field_struct. apply symmetry, field_perm; [done|by rewrite sort_by_perm].
    + change (into_writer (canonicalize (CV_Map ((λ f, (CV_Text f.1, f.2)) <$>
        List.filter (λ f, negb (String.eqb f.1 "sig")) fields))) = Some p).
      rewrite canonicalize_map, <-filter_sig_fields. fold es.
      rewrite <-filter_sort_entries; [done| |done]. unfold es. rewrite !Forall_fmap.
      apply Forall_true. by eexists.
Qed.

(** It does not depend on the signature. *)
Lemma unsigned_preimage_same `{!Serde T, !SerdeLaws T valid} (fields : T → list (string * CborValue)) (x y : T) :
  (∀ z, to_value z = to_struct (fields z)) → (∀ z, NoDup (fields z).*1) →
  (∀ z, ∃ v, assoc "sig" (fields z) = Some v) → valid x → valid y →
  List.filter (λ f, negb (String.eqb f.1 "sig")) (fields x) =
  List.filter (λ f, negb (String.eqb f.1 "sig")) (fields y) →
  unsigned_preimage_body x = unsigned_preimage_body y.
Proof.
  intros Hto Hnd Hsig Hx Hy Heq.
  destruct (unsigned_preimage_struct x _ Hx (Hto x) (Hnd x) (Hsig x)) as (p & _ & -> & _ & _ & Hp).
  destruct (unsigned_preimage_struct y _ Hy (Hto y) (Hnd y) (Hsig y)) as (q & _ & -> & _ & _ & Hq).
  rewrite Heq, Hq in Hp. by injection Hp as ->.
Qed.

(** *** Leaves *)

Lemma of_strings_Allowed l : Allowed (of_strings l).
Proof.
  constructor. apply Forall_forall. intros v (s & <- & _)%list_elem_of_In%in_map_iff. constructor.
Qed.

Lemma of_strings_plain l : plain (of_strings l) = true.
Proof. cbn. apply forallb_forall. by intros v (s & <- & _)%in_map_iff. Qed.

Lemma of_strings_depth l : depth (of_strings l) = 1%nat.
Proof. unfold of_strings. rewrite depth_array. f_equal. induction l; cbn; lia. Qed.

Lemma canonicalize_of_strings l : canonicalize (of_strings l) = of_strings l.
Proof. unfold of_strings. cbn. f_equal. rewrite map_map. by apply map_ext. Qed.

Lemma de_strings_of_strings l : de_strings (of_strings l) = Some l.
Proof.
  cbn. induction l as [|s l IH]; [done|]. cbn. rewrite de_string_text. cbn. by rewrite IH.
Qed.

Lemma int_plain z : in_u64 z → plain (CV_Integer z) = true.
Proof. intros [? ?]. cbn. rewrite andb_true_iff, Z.leb_le, Z.ltb_lt. unfold u64_modulus in *. lia. Qed.

End cbor_lemmas.

(** ** Automation for derived structs *)

Create HintDb serde.
#[export] Hint Constructors Allowed : serde.
#[export] Hint Resolve of_strings_Allowed of_strings_plain int_plain : serde.
#[export] Hint Extern 1 (plain _ = true) => reflexivity : serde.
#[export] Hint Extern 1 (_ ≤ _)%nat => rewrite ?of_strings_depth; cbn; lia : serde.

Ltac solve_fields := repeat (apply Forall_cons_2; [cbn [snd]; auto with serde|]); apply Forall_nil_2.
Ltac struct_allowed := apply to_struct_Allowed; [by_decide|solve_fields].
Ltac struct_plain := apply to_struct_plain; solve_fields.
Ltac struct_depth := apply to_struct_depth; solve_fields.

(** Decoding the canonical form of a struct with its list of fields spelled
    out: first the map, then (the builder unfolded) the fields. *)
Ltac struct_lookup :=
  lazymatch goal with
  | |- context [of_struct ?names ?build (canonicalize (to_struct ?fields))] =>
      let g := fresh "g" in let Hg := fresh "Hg" in
      destruct (of_struct_canonical names build fields) as (g & -> & Hg); [by_decide|by_decide|]
  end.

Ltac struct_leaves :=
  lazymatch goal with Hg : ∀ n, _ = canonicalize <$> assoc n _ |- _ => rewrite !Hg end;
  cbn [assoc fmap option_fmap option_map String.eqb Ascii.eqb Bool.eqb];
  rewrite ?canonicalize_of_strings; cbn [canonicalize mbind option_bind];
  rewrite ?de_u64_integer by done;
  rewrite ?de_string_text, ?de_byte_buf_bytes, ?de_strings_of_strings;
  cbn [mbind option_bind].

(** *** Soundness of decoding *)

(** Whatever a decoder accepts is a value of its type. *)
Class SerdeSound (T : Type) `{!CborCrate, !Serde T} (valid : T → Prop) : Prop :=
  serde_sound : ∀ v x, of_value v = Some x → valid x.

Lemma from_canonical_bytes_valid `{!CborCrate, !Serde T, !SerdeSound T valid} b (x : T) :
  from_canonical_bytes b = Ok x → valid x.
Proof.
  unfold from_canonical_bytes. intros Hx. apply bind_Ok in Hx as ([] & _ & Hx).
  apply bind_Ok in Hx as ([v n] & _ & Hx%ok_or_Ok). by eapply serde_sound.
Qed.

Lemma of_struct_Some `{!CborCrate} {T} names (build : (string → option CborValue) → option T) v x :
  of_struct names build v = Some x → ∃ get, build get = Some x.
Proof. unfold of_struct. destruct v; try done. destruct (known_fields _ _); [eauto|done]. Qed.

(** Inverts a builder that returned, keeping what decoded to integers. *)
Ltac build_inv H :=
  repeat match type of H with
  | mbind _ _ = Some _ =>
      let x := fresh "x" in let Hx := fresh "Hx" in
      apply bind_Some in H as (x & Hx & H);
      try (apply bind_Some in Hx as (? & _ & Hx);
           first [ apply de_u64_bound in Hx | apply serde_sound in Hx | idtac ])
  end.
