(* ===== verification/CborSample.v ===== *)
(** * A concrete CBOR codec

    An instance of the [ciborium] parameter of [Cbor], after RFC 8949: the
    shortest heads and definite lengths when writing, any head when reading.
    It satisfies [CborLaws], so the theorems that assume them are not vacuous,
    and it runs the test vectors of [mesh-session-core-rs/src/cbor.rs]. *)

From stdpp Require Import base gmap sets list strings.
From Stdlib Require Import ZArith Lia Ascii.
From S2P Require Import Prelude.
From S2P Require Import Cbor.
From S2P Require Import CborProofs.

Open Scope Z_scope.

(** A length of more than 64 bits (no machine has one) is escaped: its number
    of bytes in unary, then the bytes. *)
Definition big_width (n : Z) : nat := Z.to_nat (Z.log2 n / 8 + 1).

Definition enc_head (major n : Z) : bytes :=
  if n <? 24 then [byte_of (32 * major + n)]
  else if n <? 2 ^ 8 then byte_of (32 * major + 24) :: to_be_bytes 1 n
  else if n <? 2 ^ 16 then byte_of (32 * major + 25) :: to_be_bytes 2 n
  else if n <? 2 ^ 32 then byte_of (32 * major + 26) :: to_be_bytes 4 n
  else if n <? 2 ^ 64 then byte_of (32 * major + 27) :: to_be_bytes 8 n
  else byte_of (32 * major + 28) :: replicate (big_width n) "1"%char ++
         "0"%char :: to_be_bytes (big_width n) n.

Definition split_at (k : nat) (l : bytes) : option (bytes * bytes) :=
  if (length l <? k)%nat then None else Some (take k l, drop k l).

Fixpoint read_unary (l : bytes) : option (nat * bytes) :=
  match l with
  | "0"%char :: l => Some (O, l)
  | "1"%char :: l => '(n, l) ← read_unary l; Some (S n, l)
  | _ => None
  end.

Definition read_arg (info : Z) (l : bytes) : option (Z * bytes) :=
  if info <? 24 then Some (info, l)
  else if info =? 28 then
    '(k, l) ← read_unary l; '(b, l) ← split_at k l; Some (from_be_bytes b, l)
  else if info <? 28 then
    '(b, l) ← split_at (2 ^ Z.to_nat (info - 24)) l; Some (from_be_bytes b, l)
  else None.

Definition dec_head (l : bytes) : option (Z * Z * bytes) :=
  match l with
  | [] => None
  | c :: l =>
      '(arg, l) ← read_arg (of_byte c mod 32) l;
      Some (of_byte c / 32, arg, l)
  end.

Fixpoint enc (v : CborValue) : bytes :=
  match v with
  | CV_Integer z => if 0 <=? z then enc_head 0 z else enc_head 1 (-1 - z)
  | CV_Bytes b => enc_head 2 (Z.of_nat (length b)) ++ b
  | CV_Text s => enc_head 3 (Z.of_nat (length (as_bytes s))) ++ as_bytes s
  | CV_Array items => enc_head 4 (Z.of_nat (length items)) ++ flat_map enc items
  | CV_Map es => enc_head 5 (Z.of_nat (length es)) ++
      flat_map (λ e, match e with (k, val) => enc k ++ enc val end) es
  | CV_Tag t inner => enc_head 6 t ++ enc inner
  | CV_Bool false => [byte_of 244]
  | CV_Bool true => [byte_of 245]
  | CV_Null => [byte_of 246]
  | CV_Other _ => [byte_of 247]
  | CV_Float bits => byte_of 251 :: to_be_bytes 8 bits
  end.

Section dec_loops.
Context (d : bytes → option (CborValue * bytes)).

Fixpoint dec_items (n : nat) (l : bytes) : option (list CborValue * bytes) :=
  match n with
  | O => Some ([], l)
  | S n => '(x, l) ← d l; '(xs, l) ← dec_items n l; Some (x :: xs, l)
  end.

Fixpoint dec_entries (n : nat) (l : bytes) : option (list (CborValue * CborValue) * bytes) :=
  match n with
  | O => Some ([], l)
  | S n => '(k, l) ← d l; '(x, l) ← d l; '(xs, l) ← dec_entries n l; Some ((k, x) :: xs, l)
  end.
End dec_loops.

Definition dec_leaf (major arg : Z) (l rest : bytes) : option (CborValue * bytes) :=
  if major =? 0 then if arg <? u64_modulus then Some (CV_Integer arg, rest) else None
  else if major =? 1 then if arg <? u64_modulus then Some (CV_Integer (-1 - arg), rest) else None
  else if major =? 2 then
    if Z.of_nat (length rest) <? arg then None
    else Some (CV_Bytes (take (Z.to_nat arg) rest), drop (Z.to_nat arg) rest)
  else if major =? 3 then
    if Z.of_nat (length rest) <? arg then None
    else Some (CV_Text (String.string_of_list_ascii (take (Z.to_nat arg) rest)),
               drop (Z.to_nat arg) rest)
  else if negb (major =? 7) then None
  else if (length rest + 9 =? length l)%nat then Some (CV_Float arg, rest)
  else if arg =? 20 then Some (CV_Bool false, rest)
  else if arg =? 21 then Some (CV_Bool true, rest)
  else if arg =? 22 then Some (CV_Null, rest)
  else if arg =? 23 then Some (CV_Other 0, rest)
  else None.

(** [fuel] bounds the nesting. *)
Fixpoint dec (fuel : nat) (l : bytes) : option (CborValue * bytes) :=
  '(major, arg, rest) ← dec_head l;
  if (major =? 4) || (major =? 5) || (major =? 6) then
    match fuel with
    | O => None
    | S fuel =>
        if major =? 6 then '(v, rest) ← dec fuel rest; Some (CV_Tag arg v, rest)
        else if Z.of_nat (length rest) <? arg then None
        else if major =? 4 then
          '(xs, rest) ← dec_items (dec fuel) (Z.to_nat arg) rest; Some (CV_Array xs, rest)
        else '(xs, rest) ← dec_entries (dec fuel) (Z.to_nat arg) rest; Some (CV_Map xs, rest)
    end
  else dec_leaf major arg l rest.

Definition sample_cbor : CborCrate :=
  {| into_writer := λ v, Some (enc v);
     from_reader := λ b, '(v, rest) ← dec 256 b; Some (v, (length b - length rest)%nat);
     de_u64 := λ v, match v with
       | CV_Integer z => if (0 <=? z) && (z <? u64_modulus) then Some z else None
       | _ => None end;
     de_string := λ v, match v with CV_Text s => Some s | _ => None end;
     de_byte_buf := λ v, match v with CV_Bytes b => Some b | _ => None end;
     recursion_limit := 256 |}.

(** ** The laws *)

Lemma split_at_app k (b rest : bytes) : length b = k → split_at k (b ++ rest) = Some (b, rest).
Proof.
  intros <-. unfold split_at. rewrite length_app.
  destruct (Nat.ltb_spec (length b + length rest) (length b)); [lia|].
  by rewrite take_app_length, drop_app_length.
Qed.

Lemma read_unary_replicate k rest :
  read_unary (replicate k "1"%char ++ "0"%char :: rest) = Some (k, rest).
Proof. induction k as [|k IH]; cbn; [done|]. by rewrite IH. Qed.

Lemma big_width_bound n : 0 < n → n < 256 ^ Z.of_nat (big_width n).
Proof.
  intros Hn. unfold big_width. pose proof (Z.log2_nonneg n).
  rewrite Z2Nat.id by (pose proof (Z.div_pos (Z.log2 n) 8); lia).
  change 256 with (2 ^ 8). rewrite <-Z.pow_mul_r by (pose proof (Z.div_pos (Z.log2 n) 8); lia).
  pose proof (Z.log2_spec n Hn) as [_ Hs]. eapply Z.lt_le_trans; [exact Hs|].
  apply Z.pow_le_mono_r; [lia|]. pose proof (Z.div_mod (Z.log2 n) 8).
  pose proof (Z.mod_pos_bound (Z.log2 n) 8). lia.
Qed.

Lemma read_arg_fixed info k n rest :
  24 ≤ info < 28 → k = (2 ^ Z.to_nat (info - 24))%nat → 0 ≤ n < 256 ^ Z.of_nat k →
  read_arg info (to_be_bytes k n ++ rest) = Some (n, rest).
Proof.
  intros Hi -> Hn. unfold read_arg. rewrite (proj2 (Z.ltb_ge _ _)) by lia.
  rewrite (proj2 (Z.eqb_neq _ _)) by lia. rewrite (proj2 (Z.ltb_lt _ _)) by lia.
  rewrite split_at_app by apply length_to_be_bytes. cbn. by rewrite from_to_be_bytes.
Qed.

Lemma head_byte major info : 0 ≤ major < 8 → 0 ≤ info < 32 →
  of_byte (byte_of (32 * major + info)) mod 32 = info ∧ of_byte (byte_of (32 * major + info)) / 32 = major.
Proof.
  intros. rewrite of_byte_byte_of by lia. split.
  - rewrite Z.add_comm, Z.mul_comm, Z.mod_add, Z.mod_small; lia.
  - rewrite Z.add_comm, Z.mul_comm, Z.div_add, Z.div_small; lia.
Qed.

Lemma dec_head_cons major info n l rest :
  0 ≤ major < 8 → 0 ≤ info < 32 → read_arg info (l ++ rest) = Some (n, rest) →
  dec_head ((byte_of (32 * major + info) :: l) ++ rest) = Some (major, n, rest).
Proof.
  intros Hm Hi Hr. cbn [app dec_head]. destruct (head_byte major info Hm Hi) as [-> ->].
  by rewrite Hr.
Qed.

Lemma dec_head_enc major n rest :
  0 ≤ major < 8 → 0 ≤ n → dec_head (enc_head major n ++ rest) = Some (major, n, rest).
Proof.
  intros Hm Hn. unfold enc_head.
  destruct (Z.ltb_spec n 24).
  { apply dec_head_cons; [lia..|]. cbn [app]. unfold read_arg. by rewrite (proj2 (Z.ltb_lt _ _)). }
  destruct (Z.ltb_spec n (2 ^ 8)); [apply dec_head_cons; [lia..|]; by apply read_arg_fixed|].
  destruct (Z.ltb_spec n (2 ^ 16)); [apply dec_head_cons; [lia..|]; by apply read_arg_fixed|].
  destruct (Z.ltb_spec n (2 ^ 32)); [apply dec_head_cons; [lia..|]; by apply read_arg_fixed|].
  destruct (Z.ltb_spec n (2 ^ 64)); [apply dec_head_cons; [lia..|]; by apply read_arg_fixed|].
  apply dec_head_cons; [lia..|]. unfold read_arg. cbn [Z.ltb Z.eqb Z.compare Pos.compare].
  rewrite <-(assoc_L (++)). cbn [app].
  change (28 <? 24) with false. change (28 =? 28) with true. cbn match.
  rewrite read_unary_replicate. cbn. rewrite split_at_app by apply length_to_be_bytes. cbn.
  rewrite from_to_be_bytes; [done|]. split; [done|]. apply big_width_bound. lia.
Qed.

Lemma enc_head_length m n : (1 ≤ length (enc_head m n))%nat.
Proof. unfold enc_head. repeat case_match; cbn [length]; lia. Qed.

Lemma enc_length v : (1 ≤ length (enc v))%nat.
Proof.
  destruct v as [z| | | |[]| | | | |]; cbn [enc length]; rewrite ?length_app;
    try (destruct (0 <=? z)); try lia;
    match goal with |- context [enc_head ?m ?n] => pose proof (enc_head_length m n); lia end.
Qed.

Lemma flat_map_length {A} (f : A → bytes) (l : list A) :
  (∀ x, 1 ≤ length (f x))%nat → (length l ≤ length (flat_map f l))%nat.
Proof.
  intros Hf. induction l as [|x l IH]; cbn; [lia|]. rewrite length_app. specialize (Hf x). lia.
Qed.

Lemma dec_items_enc d items rest :
  Forall (λ v, ∀ rest, d (enc v ++ rest) = Some (v, rest)) items →
  dec_items d (length items) (flat_map enc items ++ rest) = Some (items, rest).
Proof.
  induction 1 as [|x l Hx _ IH]; [done|]. cbn. rewrite <-(assoc_L (++)), Hx. cbn. by rewrite IH.
Qed.

Lemma dec_entries_enc d es rest :
  Forall (λ e, (∀ rest, d (enc e.1 ++ rest) = Some (e.1, rest)) ∧
               (∀ rest, d (enc e.2 ++ rest) = Some (e.2, rest))) es →
  dec_entries d (length es)
    (flat_map (λ e, match e with (k, val) => enc k ++ enc val end) es ++ rest) = Some (es, rest).
Proof.
  induction 1 as [|[k x] l [Hk Hx] _ IH]; [done|]. cbn in *.
  rewrite <-!(assoc_L (++)), Hk. cbn. rewrite Hx. cbn. by rewrite IH.
Qed.

Lemma foldr_max_Forall {A} (g : A → nat) (l : list A) m :
  (foldr (λ x n, Nat.max (g x) n) O l ≤ m)%nat → Forall (λ x, g x ≤ m)%nat l.
Proof. induction l as [|x l IH]; cbn; intros; constructor; [lia|apply IH; lia]. Qed.

(** A container's head, then its body. *)
Lemma dec_container fuel major n body rest :
  major = 4 ∨ major = 5 → (n ≤ length body)%nat →
  dec (S fuel) ((enc_head major (Z.of_nat n) ++ body) ++ rest) =
  if major =? 4
  then '(xs, rest) ← dec_items (dec fuel) n (body ++ rest); Some (CV_Array xs, rest)
  else '(xs, rest) ← dec_entries (dec fuel) n (body ++ rest); Some (CV_Map xs, rest).
Proof.
  intros Hm Hn. rewrite <-(assoc_L (++)). cbn [dec]. rewrite dec_head_enc by lia. cbn [mbind option_bind].
  destruct Hm as [-> | ->]; cbn [Z.eqb Pos.eqb orb];
    (rewrite (proj2 (Z.ltb_ge _ _)) by (rewrite length_app; lia)); by rewrite Nat2Z.id.
Qed.

(** A leaf's head, then its body. *)
Lemma dec_leaf_head fuel major n body rest :
  0 ≤ major < 4 → 0 ≤ n →
  dec fuel ((enc_head major n ++ body) ++ rest) =
  dec_leaf major n ((enc_head major n ++ body) ++ rest) (body ++ rest).
Proof.
  intros Hm Hn. rewrite <-(assoc_L (++)).
  destruct fuel; cbn [dec]; rewrite dec_head_enc by lia; cbn [mbind option_bind];
    by rewrite !(proj2 (Z.eqb_neq major _)) by lia.
Qed.

Lemma dec_enc v : ∀ fuel rest, plain v = true → (depth v ≤ fuel)%nat →
  dec fuel (enc v ++ rest) = Some (v, rest).
Proof.
  induction v as [items IH|es IH|t v IH|z|b|z|s|b| |o] using CborValue_nested_ind;
    intros fuel rest Hp Hd; try done.
  - rewrite depth_array in Hd. destruct fuel as [|fuel]; [lia|]. cbn [enc].
    rewrite dec_container; [|by left|apply flat_map_length, enc_length]. cbn [Z.eqb Pos.eqb].
    rewrite dec_items_enc; [done|]. apply le_S_n, foldr_max_Forall in Hd.
    cbn in Hp. rewrite forallb_forall in Hp. rewrite Forall_forall in *.
    intros x Hx rest'. apply IH; [done| |by apply Hd]. by apply Hp, list_elem_of_In.
  - rewrite depth_map in Hd. destruct fuel as [|fuel]; [lia|]. cbn [enc].
    rewrite dec_container; [|by right|]; cycle 1.
    { apply flat_map_length. intros [k x]. rewrite length_app. pose proof (enc_length k). lia. }
    cbn [Z.eqb Pos.eqb]. rewrite dec_entries_enc; [done|]. apply le_S_n, foldr_max_Forall in Hd.
    cbn in Hp. rewrite forallb_forall in Hp. rewrite Forall_forall in *. intros [k x] Hx.
    specialize (Hp _ (proj1 (list_elem_of_In _ _) Hx)). apply andb_true_iff in Hp as [Hk Hv].
    specialize (Hd _ Hx). unfold entry_depth in Hd. cbn [fst snd] in *.
    destruct (IH _ Hx) as [IHk IHx]. cbn [fst snd] in IHk, IHx.
    split; intros rest'; [apply IHk|apply IHx]; done || lia.
  - cbn in Hp. apply andb_true_iff in Hp as [Hlo%Z.leb_le Hhi%Z.ltb_lt]. cbn [enc].
    destruct (Z.leb_spec 0 z); rewrite <-(app_nil_r (enc_head _ _)), dec_leaf_head by lia;
      unfold dec_leaf; cbn [Z.eqb]; rewrite (proj2 (Z.ltb_lt _ _)) by lia; [done|].
    do 3 f_equal. lia.
  - cbn [enc]. rewrite dec_leaf_head by lia. unfold dec_leaf. cbn [Z.eqb Pos.eqb].
    rewrite (proj2 (Z.ltb_ge _ _)) by (rewrite length_app; lia).
    by rewrite Nat2Z.id, take_app_length, drop_app_length.
  - cbn [enc]. rewrite dec_leaf_head by lia. unfold dec_leaf. cbn [Z.eqb Pos.eqb].
    rewrite (proj2 (Z.ltb_ge _ _)) by (rewrite length_app; lia).
    rewrite Nat2Z.id, take_app_length, drop_app_length. unfold as_bytes.
    by rewrite String.string_of_list_ascii_of_string.
  - destruct b; destruct fuel; cbn [enc app dec];
      (change (dec_head (byte_of 244 :: rest)) with (Some (7, 20, rest)) ||
       change (dec_head (byte_of 245 :: rest)) with (Some (7, 21, rest)));
      cbn [mbind option_bind]; unfold dec_leaf; cbn [Z.eqb Pos.eqb orb negb length];
      (destruct (Nat.eqb_spec (length rest + 9) (S (length rest))); [lia|done]).
Qed.

Lemma dec_items_bounds d fuel n : ∀ l xs rest,
  (∀ l v rest, d l = Some (v, rest) → ints_in_range v = true ∧ (depth v ≤ fuel)%nat) →
  dec_items d n l = Some (xs, rest) →
  forallb ints_in_range xs = true ∧ (foldr (λ x n, Nat.max (depth x) n) O xs ≤ fuel)%nat.
Proof.
  induction n as [|n IH]; intros l xs rest Hd Hl; cbn in Hl; [by injection Hl as <- <-; cbn; lia|].
  apply bind_Some in Hl as ([x l1] & Hx & Hl). apply bind_Some in Hl as ([ys l2] & Hys & [= <- <-]).
  destruct (IH _ _ _ Hd Hys) as [Hi Hf], (Hd _ _ _ Hx) as [Hxi Hxf]. cbn. rewrite Hxi, Hi. split; [done|lia].
Qed.

Lemma dec_entries_bounds d fuel n : ∀ l xs rest,
  (∀ l v rest, d l = Some (v, rest) → ints_in_range v = true ∧ (depth v ≤ fuel)%nat) →
  dec_entries d n l = Some (xs, rest) →
  ints_in_range (CV_Map xs) = true ∧ (foldr (λ e n, Nat.max (entry_depth e) n) O xs ≤ fuel)%nat.
Proof.
  induction n as [|n IH]; intros l xs rest Hd Hl; cbn in Hl; [by injection Hl as <- <-; cbn; lia|].
  apply bind_Some in Hl as ([k l1] & Hk & Hl). apply bind_Some in Hl as ([x l2] & Hx & Hl).
  apply bind_Some in Hl as ([ys l3] & Hys & [= <- <-]).
  destruct (IH _ _ _ Hd Hys) as [Hi Hf], (Hd _ _ _ Hk) as [Hki Hkf], (Hd _ _ _ Hx) as [Hxi Hxf].
  cbn [ints_in_range forallb foldr] in *. rewrite Hki, Hxi, Hi. split; [done|].
  unfold entry_depth at 1. cbn [fst snd]. lia.
Qed.

Lemma from_be_bytes_nonneg l : 0 ≤ from_be_bytes l.
Proof.
  unfold from_be_bytes. induction (reverse l) as [|a k IH]; cbn; [done|]. lia.
Qed.

Lemma dec_head_nonneg l major arg rest : dec_head l = Some (major, arg, rest) → 0 ≤ arg.
Proof.
  destruct l as [|c l]; cbn [dec_head]; [done|]. intros ([a l'] & Ha & [= <- <- <-])%bind_Some.
  unfold read_arg in Ha.
  destruct (Z.ltb_spec (of_byte c mod 32) 24).
  { injection Ha as <- <-. apply Z.mod_pos_bound. lia. }
  destruct (_ =? 28); [|destruct (_ <? 28); [|done]].
  - apply bind_Some in Ha as ([k l1] & _ & Ha). apply bind_Some in Ha as ([b l2] & _ & [= <- <-]).
    apply from_be_bytes_nonneg.
  - apply bind_Some in Ha as ([b l2] & _ & [= <- <-]). apply from_be_bytes_nonneg.
Qed.

Lemma dec_leaf_bounds major arg l rest v rest' :
  0 ≤ arg → dec_leaf major arg l rest = Some (v, rest') → ints_in_range v = true ∧ depth v = O.
Proof.
  intros Ha. unfold dec_leaf. unfold u64_modulus.
  repeat (case_match; try done); intros [= <- _]; try done; split; try done; cbn;
    rewrite andb_true_iff, Z.leb_le, Z.ltb_lt; unfold u64_modulus; lia.
Qed.

Lemma dec_bounds fuel : ∀ l v rest,
  dec fuel l = Some (v, rest) → ints_in_range v = true ∧ (depth v ≤ fuel)%nat.
Proof.
  induction fuel as [|fuel IH]; intros l v rest Hl; cbn [dec] in Hl;
    apply bind_Some in Hl as ([[major arg] l1] & Hh & Hl); pose proof (dec_head_nonneg _ _ _ _ Hh);
    destruct ((major =? 4) || (major =? 5) || (major =? 6)); try done;
    try (destruct (dec_leaf_bounds _ _ _ _ _ _ H Hl) as [Hi Hd]; split; [done|lia]).
  destruct (major =? 6).
  { apply bind_Some in Hl as ([x l2] & Hx & [= <- <-]). destruct (IH _ _ _ Hx). cbn. split; [done|lia]. }
  destruct (_ <? arg); [done|]. destruct (major =? 4).
  - apply bind_Some in Hl as ([xs l2] & Hx & [= <- <-]).
    destruct (dec_items_bounds _ _ _ _ _ _ IH Hx). rewrite depth_array. split; [done|lia].
  - apply bind_Some in Hl as ([xs l2] & Hx & [= <- <-]).
    destruct (dec_entries_bounds _ _ _ _ _ _ IH Hx). rewrite depth_map. split; [done|lia].
Qed.

#[export] Instance sample_cbor_laws : @CborLaws sample_cbor.
Proof.
  split; cbn [into_writer from_reader de_u64 de_string de_byte_buf recursion_limit sample_cbor].
  - intros v Hp Hd. exists (enc v). split; [done|].
    rewrite <-(app_nil_r (enc v)) at 1. rewrite dec_enc by done. cbn. do 2 f_equal. lia.
  - intros b v n ([w rest] & Hw & [= <- <-])%bind_Some. by eapply dec_bounds.
  - lia.
  - intros z [? ?]. by rewrite (proj2 (Z.leb_le _ _)), (proj2 (Z.ltb_lt _ _)).
  - intros [] w; try done. destruct ((0 <=? z) && (z <? u64_modulus)) eqn:Hz; [|done].
    apply andb_true_iff in Hz as [?%Z.leb_le ?%Z.ltb_lt]. by intros [= <-].
  - done.
  - done.
Qed.
