(* ===== verification/Wire.v ===== *)
(** * Wire framing

    Models [mesh-session-core-rs/src/wire.rs]: reads and writes that go one
    system call at a time, re-arming the deadline before each; the four-byte
    big-endian length prefix with its ceilings; and the typed frames (a type
    byte and a canonical CBOR map) carried inside. *)

From stdpp Require Import base gmap sets list strings.
From Stdlib Require Import ZArith Lia Ascii.
From S2P Require Import Prelude.
From S2P Require Import Cbor.
From S2P Require Import CborProofs.

Open Scope Z_scope.

Definition MAX_NOISE_HANDSHAKE_MESSAGE_LEN : Z := 65535.
Definition MAX_NOISE_RECORD_LEN : Z := 65535.
Definition POLY1305_TAG_LEN : Z := 16.
Definition MAX_PLAINTEXT_LEN : Z := MAX_NOISE_RECORD_LEN - POLY1305_TAG_LEN.
Definition TYPE_BYTE_LEN : Z := 1.
Definition MAX_CBOR_BODY_LEN : Z := MAX_PLAINTEXT_LEN - TYPE_BYTE_LEN.

(** [std::io::Error], as far as the framing tells errors apart. *)
Inductive WireIoError := Io_UnexpectedEof | Io_WriteZero | Io_Other.

Inductive WireError :=
| WE_OversizeFrame (declared max : Z)
| WE_Io (e : WireIoError)
| WE_Cbor (e : CborError)
| WE_TypeKeyInBody
| WE_UnknownTypeByte (type_byte : ascii)
| WE_DeadlineExceeded
| WE_DeadlineArmingFailed.

(** What one round of a loop meets: the time left when it is asked for, a
    failing [setsockopt], a failing system call, the most bytes the call moves
    (zero at the end of the stream), and whether the deadline has passed when
    it returns. *)
Record CallIo := MkCallIo {
  io_remaining : Z;
  io_arm_fails : bool;
  io_call_fails : bool;
  io_chunk : nat;
  io_expired_after : bool;
}.

(** Each round consumes one behaviour. *)
Abbreviation Schedule := (nat → CallIo).
Definition later (ios : Schedule) : Schedule := λ k, ios (S k).

(** Reads [want] more bytes; [fuel] bounds the rounds. Returns what was read,
    what the stream still holds and the behaviours left; [None] is fuel spent. *)
Fixpoint read_loop (fuel want : nat) (ios : Schedule) (input : bytes)
    : option (Result WireError bytes * bytes * Schedule) :=
  match want with
  | O => Some (Ok [], input, ios)
  | _ =>
      match fuel with
      | O => None
      | S fuel =>
          let io := ios O in
          if io_remaining io =? 0 then Some (Err WE_DeadlineExceeded, input, later ios)
          else if io_arm_fails io then Some (Err WE_DeadlineArmingFailed, input, later ios)
          else if io_call_fails io then Some (Err (WE_Io Io_Other), input, later ios)
          else
          let n := Nat.min (io_chunk io) (Nat.min want (length input)) in
          if (n =? 0)%nat then Some (Err (WE_Io Io_UnexpectedEof), input, later ios)
          else if io_expired_after io
          then Some (Err WE_DeadlineExceeded, drop n input, later ios)
          else
          '(r, rest, ios) ← read_loop fuel (want - n) (later ios) (drop n input);
          Some (match r with Ok l => Ok (take n input ++ l) | Err e => Err e end, rest, ios)
      end
  end.

(** Every round reads at least one byte. *)
Definition read_exact_with_deadline (want : nat) (ios : Schedule) (input : bytes) :=
  read_loop want want ios input.

(** Writes [buf]; returns the bytes that reached the wire. *)
Fixpoint write_loop (fuel : nat) (buf : bytes) (ios : Schedule)
    : option (Result WireError unit * bytes * Schedule) :=
  match buf with
  | [] => Some (Ok tt, [], ios)
  | _ =>
      match fuel with
      | O => None
      | S fuel =>
          let io := ios O in
          if io_remaining io =? 0 then Some (Err WE_DeadlineExceeded, [], later ios)
          else if io_arm_fails io then Some (Err WE_DeadlineArmingFailed, [], later ios)
          else if io_call_fails io then Some (Err (WE_Io Io_Other), [], later ios)
          else
          let n := Nat.min (io_chunk io) (length buf) in
          if (n =? 0)%nat then Some (Err (WE_Io Io_WriteZero), [], later ios)
          else
          '(r, out, ios) ← write_loop fuel (drop n buf) (later ios);
          Some (r, take n buf ++ out, ios)
      end
  end.

Definition write_all_with_deadline (buf : bytes) (ios : Schedule) :=
  write_loop (length buf) buf ios.

Definition read_length_prefixed_frame (max_len : Z) (ios : Schedule) (input : bytes)
    : option (Result WireError bytes * bytes * Schedule) :=
  '(r, input, ios) ← read_exact_with_deadline 4 ios input;
  match r with
  | Err e => Some (Err e, input, ios)
  | Ok len_buf =>
      let declared := from_be_bytes len_buf in
      if max_len <? declared then Some (Err (WE_OversizeFrame declared max_len), input, ios)
      else read_exact_with_deadline (Z.to_nat declared) ios input
  end.

Definition write_length_prefixed_frame (body : bytes) (max_len : Z) (ios : Schedule)
    : option (Result WireError unit * bytes * Schedule) :=
  let declared := Z.of_nat (length body) in
  if u32_modulus <=? declared
  then Some (Err (WE_OversizeFrame (u32_modulus - 1) max_len), [], ios)
  else if max_len <? declared then Some (Err (WE_OversizeFrame declared max_len), [], ios)
  else
  '(r, out, ios) ← write_all_with_deadline (to_be_bytes 4 declared) ios;
  match r with
  | Err e => Some (Err e, out, ios)
  | Ok _ =>
      '(r, out', ios) ← write_all_with_deadline body ios;
      Some (r, out ++ out', ios)
  end.

Definition read_handshake_flight := read_length_prefixed_frame MAX_NOISE_HANDSHAKE_MESSAGE_LEN.
Definition write_handshake_flight (body : bytes) :=
  write_length_prefixed_frame body MAX_NOISE_HANDSHAKE_MESSAGE_LEN.
Definition read_transport_record := read_length_prefixed_frame MAX_NOISE_RECORD_LEN.
Definition write_transport_record (body : bytes) :=
  write_length_prefixed_frame body MAX_NOISE_RECORD_LEN.

(** ** Typed frames *)

Section typed_frames.
Context `{!CborCrate}.

(** The checks both directions make of a body; the length is truncated to 32
    bits before it is compared. *)
Definition check_typed_body (body : bytes) : Result WireError unit :=
  reject_if (MAX_CBOR_BODY_LEN <? as_u32 (length body))
    (WE_OversizeFrame (as_u32 (length body)) MAX_CBOR_BODY_LEN);;
  map_err WE_Cbor (verify_canonical body);;
  has_type ← map_err WE_Cbor (map_has_top_level_key body "type");
  reject_if has_type WE_TypeKeyInBody.

Definition encode_typed_frame (type_byte : ascii) (body_cbor : bytes) : Result WireError bytes :=
  check_typed_body body_cbor;;
  Ok (type_byte :: body_cbor).

Definition decode_typed_frame (plaintext : bytes) : Result WireError (ascii * bytes) :=
  match plaintext with
  | [] => Err (WE_Cbor CE_Decode)
  | type_byte :: body =>
      check_typed_body body;;
      Ok (type_byte, body)
  end.

Lemma decode_encode_typed type_byte body plaintext :
  encode_typed_frame type_byte body = Ok plaintext →
  decode_typed_frame plaintext = Ok (type_byte, body).
Proof.
  unfold encode_typed_frame. intros Hf. apply bind_Ok in Hf as ([] & Hc & [= <-]). cbn.
  by rewrite Hc.
Qed.

(** A struct without a [type] field frames, up to the ceiling. *)
Lemma check_typed_struct `{!CborLaws, !Serde T, !SerdeLaws T valid} (x : T) fields b :
  valid x → to_value x = to_struct fields → NoDup fields.*1 → assoc "type" fields = None →
  to_canonical_vec x = Ok b → Z.of_nat (length b) ≤ MAX_CBOR_BODY_LEN →
  check_typed_body b = Ok tt.
Proof.
  intros Hx Hfs Hnd Htype Henc Hlen. unfold check_typed_body, as_u32.
  rewrite Z.mod_small by (unfold MAX_CBOR_BODY_LEN, MAX_PLAINTEXT_LEN, MAX_NOISE_RECORD_LEN,
    POLY1305_TAG_LEN, TYPE_BYTE_LEN, u32_modulus in *; lia).
  rewrite (proj2 (Z.ltb_ge _ _)) by done. cbn [reject_if mbind Result_bind].
  destruct (serde_encodes x Hx) as (b' & Henc' & _ & Hrd & Hv & _).
  rewrite Henc in Henc'. injection Henc' as <-.
  rewrite Hv. cbn. unfold map_has_top_level_key. rewrite Hrd, Hfs. unfold to_struct.
  rewrite canonicalize_map. cbn.
  assert (iter_any (λ e, bool_decide (as_text e.1 = Some "type"))
    (sort_by entry_cmp (canon_entry <$> ((λ f, (CV_Text f.1, f.2)) <$> fields))) = false) as ->; [|done].
  apply iter_any_false. intros e He. rewrite sort_by_perm in He.
  apply list_elem_of_fmap in He as (e' & -> & He). apply list_elem_of_fmap in He as ([n v] & -> & He).
  apply bool_decide_eq_false. cbn. intros [= ->].
  clear -He Htype. induction fields as [|[m w] fields IH]; [by apply not_elem_of_nil in He|].
  cbn [assoc] in Htype. destruct (String.eqb_spec m "type"); [done|].
  apply elem_of_cons in He as [Heq|He]; [congruence|auto].
Qed.
End typed_frames.

(** ** Lemmas *)

(** A read loop with enough fuel returns; what it took and left is the input. *)
Lemma read_loop_spec fuel : ∀ want ios input,
  (want ≤ fuel)%nat →
  ∃ r rest ios', read_loop fuel want ios input = Some (r, rest, ios') ∧
    (∃ taken, input = taken ++ rest ∧ (length taken ≤ want)%nat ∧
       ∀ l, r = Ok l → l = taken ∧ length l = want).
Proof.
  induction fuel as [|fuel IH]; intros want ios input Hle;
    (destruct want as [|want]; [by exists (Ok []), input, ios; split; [|exists []; naive_solver]|]);
    [lia|]. cbn [read_loop].
  assert (∀ e : WireError, ∃ r rest ios', Some (Err e, input, later ios) = Some (r, rest, ios') ∧
    (∃ taken, input = taken ++ rest ∧ (length taken ≤ S want)%nat ∧
       ∀ l : bytes, r = Ok l → l = taken ∧ length l = S want)) as Herr.
  { intros e. eexists _, _, _. split; [done|]. exists []. split_and!; [done|cbn; lia|done]. }
  destruct (io_remaining (ios O) =? 0); [apply Herr|].
  destruct (io_arm_fails (ios O)); [apply Herr|].
  destruct (io_call_fails (ios O)); [apply Herr|].
  set (n := Nat.min (io_chunk (ios O)) (Nat.min (S want) (length input))).
  destruct (Nat.eqb_spec n 0) as [_|Hn]; [apply Herr|].
  assert (length (take n input) = n) as Htk by (rewrite length_take; lia).
  destruct (io_expired_after (ios O)).
  { eexists _, _, _. split; [done|]. exists (take n input).
    rewrite take_drop. split_and!; [done|lia|done]. }
  destruct (IH (S want - n)%nat (later ios) (drop n input)) as (r & rest & ios' & Hr & taken & Hin & Hlen & Hok);
    [lia|].
  rewrite Hr. cbn [mbind option_bind]. eexists _, _, _. split; [done|].
  exists (take n input ++ taken). split_and!.
  - rewrite <-(assoc_L (++)), <-Hin. by rewrite take_drop.
  - rewrite length_app. lia.
  - intros l Hl. destruct r as [l'|]; [|done]. injection Hl as <-.
    destruct (Hok l' eq_refl) as [-> Hl']. split; [done|]. rewrite length_app. lia.
Qed.

(** The loop itself never complains about sizes. *)
Lemma read_loop_not_oversize fuel : ∀ want ios input d m rest ios',
  read_loop fuel want ios input = Some (Err (WE_OversizeFrame d m), rest, ios') → False.
Proof.
  induction fuel as [|fuel IH]; intros [|want] ios input d m rest ios' Hr;
    cbn [read_loop] in Hr; [done..|].
  repeat match type of Hr with (if ?b then _ else _) = _ => destruct b; [done|] end.
  apply bind_Some in Hr as ([[r rest1] ios1] & Hr & Heq). destruct r; [done|].
  injection Heq as -> -> ->. by eapply IH.
Qed.

(** No fault on the way: time left, no failing call, every call moves data. *)
Definition clean_schedule (ios : Schedule) : Prop := ∀ k,
  io_remaining (ios k) ≠ 0 ∧ io_arm_fails (ios k) = false ∧ io_call_fails (ios k) = false ∧
  (0 < io_chunk (ios k))%nat ∧ io_expired_after (ios k) = false.

Lemma clean_later ios : clean_schedule ios → clean_schedule (later ios).
Proof. intros Hc k. apply Hc. Qed.

Lemma read_loop_round fuel want ios input l rest ios' :
  want ≠ 0%nat → clean_schedule ios →
  let n := Nat.min (io_chunk (ios O)) (Nat.min want (length input)) in
  n ≠ 0%nat → read_loop fuel (want - n) (later ios) (drop n input) = Some (Ok l, rest, ios') →
  read_loop (S fuel) want ios input = Some (Ok (take n input ++ l), rest, ios').
Proof.
  intros Hw Hc n Hn Hr. destruct (Hc O) as (Hrem & Harm & Hcall & _ & Hexp).
  destruct want as [|want]; [done|]. cbn [read_loop].
  rewrite (proj2 (Z.eqb_neq _ _) Hrem), Harm, Hcall, Hexp. fold n.
  rewrite (proj2 (Nat.eqb_neq _ _) Hn), Hr. done.
Qed.

Lemma read_loop_clean fuel : ∀ ios l rest,
  (length l ≤ fuel)%nat → clean_schedule ios →
  ∃ ios', read_loop fuel (length l) ios (l ++ rest) = Some (Ok l, rest, ios') ∧ clean_schedule ios'.
Proof.
  induction fuel as [|fuel IH]; intros ios l rest Hle Hc;
    (destruct (decide (l = [])) as [->|Hl]; [by exists ios|]).
  { destruct l; [done|cbn in Hle; lia]. }
  assert (length l ≠ 0%nat) as Hl0 by (by destruct l).
  set (n := Nat.min (io_chunk (ios O)) (Nat.min (length l) (length (l ++ rest)))).
  assert (0 < n ≤ length l)%nat as Hn by (destruct (Hc O) as (_ & _ & _ & ? & _);
    unfold n; rewrite length_app; lia).
  destruct (IH (later ios) (drop n l) rest) as (ios' & Hr & Hc');
    [rewrite length_drop; lia|by apply clean_later|].
  rewrite length_drop, <-drop_app_le in Hr by lia. exists ios'. split; [|done].
  rewrite (read_loop_round _ _ _ _ (drop n l) rest ios' Hl0 Hc) by (fold n; done || lia).
  fold n. rewrite take_app_le by lia. by rewrite take_drop.
Qed.

(** A write puts a prefix of the buffer on the wire, all of it on success. *)
Lemma write_loop_spec fuel : ∀ buf ios,
  (length buf ≤ fuel)%nat →
  ∃ r out ios', write_loop fuel buf ios = Some (r, out, ios') ∧ out `prefix_of` buf ∧
    (r = Ok tt → out = buf) ∧ (clean_schedule ios → r = Ok tt ∧ clean_schedule ios').
Proof.
  induction fuel as [|fuel IH]; intros buf ios Hle;
    (destruct buf as [|a buf]; [by exists (Ok tt), [], ios|]); [cbn in Hle; lia|].
  set (m := a :: buf) in *. cbn [write_loop]. unfold m at 1. fold m.
  assert (∀ e : WireError, (clean_schedule ios → False) → ∃ r out ios',
    Some (Err e, [], later ios) = Some (r, out, ios') ∧ out `prefix_of` m ∧
    (r = Ok tt → out = m) ∧ (clean_schedule ios → r = Ok tt ∧ clean_schedule ios')) as Herr.
  { intros e Hn. eexists _, _, _. split; [done|]. split_and!; [apply prefix_nil|done|by intros ?%Hn]. }
  destruct (Z.eqb_spec (io_remaining (ios O)) 0) as [Hz0|_]; [apply Herr; intros Hc; by destruct (Hc O)|].
  destruct (io_arm_fails (ios O)) eqn:?;
    [apply Herr; intros Hc; destruct (Hc O) as (_ & ? & _); congruence|].
  destruct (io_call_fails (ios O)) eqn:?;
    [apply Herr; intros Hc; destruct (Hc O) as (_ & _ & ? & _); congruence|].
  set (n := Nat.min _ _). destruct (Nat.eqb_spec n 0) as [Hz|Hn].
  { apply Herr. intros Hc. destruct (Hc O) as (_ & _ & _ & ? & _). unfold n, m in Hz. cbn in Hz. lia. }
  destruct (IH (drop n m) (later ios)) as (r & out & ios' & Hr & [k Hk] & Hok & Hcl);
    [rewrite length_drop; lia|].
  rewrite Hr. cbn [mbind option_bind]. eexists _, _, _. split; [done|]. split_and!.
  - exists k. rewrite <-(assoc_L (++)), <-Hk. by rewrite take_drop.
  - intros ->. by rewrite (Hok eq_refl), take_drop.
  - intros Hc. by apply Hcl, clean_later.
Qed.

Lemma read_frame_total max_len ios input :
  ∃ r rest ios', read_length_prefixed_frame max_len ios input = Some (r, rest, ios').
Proof.
  unfold read_length_prefixed_frame, read_exact_with_deadline.
  destruct (read_loop_spec 4 4 ios input) as (r & rest & ios1 & -> & _); [lia|]. cbn.
  destruct r as [l|]; [|eauto]. destruct (max_len <? _); [eauto|].
  destruct (read_loop_spec (Z.to_nat (from_be_bytes l)) (Z.to_nat (from_be_bytes l)) ios1 rest)
    as (? & ? & ? & -> & _); [lia|eauto].
Qed.

Lemma write_frame_total body max_len ios :
  ∃ r out ios', write_length_prefixed_frame body max_len ios = Some (r, out, ios').
Proof.
  unfold write_length_prefixed_frame, write_all_with_deadline.
  destruct (_ <=? _); [eauto|]. destruct (_ <? _); [eauto|].
  set (prefix := to_be_bytes 4 _).
  destruct (write_loop_spec (length prefix) prefix ios) as (r & out & ios1 & -> & _); [lia|]. cbn.
  destruct r; [|eauto].
  destruct (write_loop_spec (length body) body ios1) as (? & ? & ? & -> & _); [lia|]. cbn. eauto.
Qed.

(** ** The properties *)

Lemma from_be_bytes_4 z : 0 ≤ z < u32_modulus → from_be_bytes (to_be_bytes 4 z) = z.
Proof. intros Hz. apply from_to_be_bytes. exact Hz. Qed.

Lemma from_le_bytes_bound l : 0 ≤ from_le_bytes l < 256 ^ Z.of_nat (length l).
Proof.
  induction l as [|a l IH]; cbn [from_le_bytes length]; [by cbn|].
  rewrite Nat2Z.inj_succ, Z.pow_succ_r by lia. pose proof (N_ascii_bounded a). lia.
Qed.

Lemma to_be_from_be l : to_be_bytes (length l) (from_be_bytes l) = l.
Proof.
  unfold to_be_bytes, from_be_bytes. rewrite <-(reverse_involutive l) at 3. f_equal.
  rewrite <-(length_reverse l). induction (reverse l) as [|a k IH]; [done|].
  cbn [length to_le_bytes from_le_bytes]. pose proof (N_ascii_bounded a).
  rewrite (Z.mul_comm 256), Z.mod_add, Z.mod_small by lia. rewrite N2Z.id, ascii_N_embedding.
  f_equal. rewrite Z.div_add, Z.div_small, Z.add_0_l by lia. exact IH.
Qed.

(** Reading a frame is exact under every behaviour of the stream: it
    always returns, what it consumed and what is left are the stream, and [Ok]
    means it consumed exactly one frame: the four-byte big-endian length of
    the body, at most [max_len], and the body; nothing of what follows. An
    oversize length is refused after four bytes, before any of the body. *)
Theorem read_frame_exact max_len ios input :
  ∃ r rest ios' taken, read_length_prefixed_frame max_len ios input = Some (r, rest, ios') ∧
    input = taken ++ rest ∧
    (∀ body, r = Ok body → Z.of_nat (length body) ≤ max_len ∧
       taken = to_be_bytes 4 (Z.of_nat (length body)) ++ body) ∧
    (∀ declared m, r = Err (WE_OversizeFrame declared m) →
       m = max_len ∧ max_len < declared ∧ taken = to_be_bytes 4 declared).
Proof.
  unfold read_length_prefixed_frame, read_exact_with_deadline.
  destruct (read_loop_spec 4 4 ios input) as (r & rest & ios1 & Hr & taken & Hin & Hlen & Hok);
    [lia|].
  rewrite Hr. cbn [mbind option_bind]. destruct r as [len_buf|e].
  - destruct (Hok _ eq_refl) as [-> Hl4]. set (declared := from_be_bytes taken).
    assert (to_be_bytes 4 declared = taken) as Htb by (unfold declared; rewrite <-Hl4; apply to_be_from_be).
    assert (0 ≤ declared) as Hd by (apply from_le_bytes_bound).
    destruct (Z.ltb_spec max_len declared) as [Hbig|Hsmall].
    + eexists _, _, _, taken. split; [done|]. split_and!; [done..|]. by intros ? ? [= <- <-].
    + destruct (read_loop_spec (Z.to_nat declared) (Z.to_nat declared) ios1 rest)
        as (r2 & rest2 & ios2 & Hr2 & body & Hin2 & Hlen2 & Hok2); [lia|].
      eexists r2, rest2, ios2, (taken ++ body). split; [done|]. split_and!.
      * by rewrite <-(assoc_L (++)), <-Hin2.
      * intros l Hl. destruct (Hok2 l Hl) as [-> Hlb]. rewrite Hlb, Z2Nat.id by done. by rewrite Htb.
      * intros d m ->. exfalso. eapply read_loop_not_oversize. exact Hr2.
  - eexists _, _, _, taken. split; [done|]. split_and!; [done..|].
    intros d m [= ->]. exfalso. eapply read_loop_not_oversize. exact Hr.
Qed.

(** Writing a frame is exact under every behaviour of the stream: it
    always returns, what reached the wire is a prefix of the frame, and [Ok]
    means all of it did; a body over the ceiling is refused before a single
    byte is written. *)
Theorem write_frame_exact body max_len ios :
  max_len < u32_modulus →
  let frame := to_be_bytes 4 (Z.of_nat (length body)) ++ body in
  ∃ r out ios', write_length_prefixed_frame body max_len ios = Some (r, out, ios') ∧
    out `prefix_of` frame ∧ (r = Ok tt → out = frame) ∧
    (max_len < Z.of_nat (length body) → out = [] ∧ ∃ d, r = Err (WE_OversizeFrame d max_len)).
Proof.
  intros Hmax frame. unfold write_length_prefixed_frame, write_all_with_deadline.
  destruct (Z.leb_spec u32_modulus (Z.of_nat (length body))) as [Hbig|Hu].
  { eexists _, _, _. split; [done|]. split_and!; [apply prefix_nil|done|eauto]. }
  destruct (Z.ltb_spec max_len (Z.of_nat (length body))) as [Hover|Hfit].
  { eexists _, _, _. split; [done|]. split_and!; [apply prefix_nil|done|eauto]. }
  destruct (write_loop_spec (length (to_be_bytes 4 (Z.of_nat (length body))))
    (to_be_bytes 4 (Z.of_nat (length body))) ios) as (r & out & ios1 & Hr & Hpre & Hok & _); [lia|].
  rewrite Hr. cbn [mbind option_bind]. destruct r as [[]|e].
  - rewrite (Hok eq_refl) in *.
    destruct (write_loop_spec (length body) body ios1) as (r2 & out2 & ios2 & Hr2 & Hpre2 & Hok2 & _);
      [lia|].
    rewrite Hr2. cbn [mbind option_bind]. eexists _, _, _. split; [done|]. split_and!.
    + by apply prefix_app.
    + intros Heq. by rewrite (Hok2 Heq).
    + lia.
  - eexists _, _, _. split; [done|]. split_and!; [by apply prefix_app_r|done|lia].
Qed.

Lemma write_record_clean body ios :
  Z.of_nat (length body) ≤ MAX_NOISE_RECORD_LEN → clean_schedule ios →
  ∃ ios1, write_transport_record body ios
            = Some (Ok tt, to_be_bytes 4 (Z.of_nat (length body)) ++ body, ios1) ∧ clean_schedule ios1.
Proof.
  intros Hlen Hc. unfold write_transport_record, write_length_prefixed_frame,
    write_all_with_deadline, MAX_NOISE_RECORD_LEN in *.
  set (prefix := to_be_bytes 4 (Z.of_nat (length body))).
  rewrite (proj2 (Z.leb_gt _ _)), (proj2 (Z.ltb_ge _ _)) by (unfold u32_modulus; lia).
  destruct (write_loop_spec (length prefix) prefix ios) as (r & out & ios1 & Hr & _ & Hok & Hcl); [lia|].
  destruct (Hcl Hc) as [-> Hc1]. rewrite (Hok eq_refl) in Hr. rewrite Hr. cbn [mbind option_bind].
  destruct (write_loop_spec (length body) body ios1) as (r & out2 & ios2 & Hr2 & _ & Hok2 & Hcl2); [lia|].
  destruct (Hcl2 Hc1) as [-> ?]. rewrite (Hok2 eq_refl) in Hr2. rewrite Hr2. cbn [mbind option_bind].
  eauto.
Qed.

Lemma read_record_clean body ios rest :
  Z.of_nat (length body) ≤ MAX_NOISE_RECORD_LEN → clean_schedule ios →
  ∃ ios1, read_transport_record ios ((to_be_bytes 4 (Z.of_nat (length body)) ++ body) ++ rest)
            = Some (Ok body, rest, ios1) ∧ clean_schedule ios1.
Proof.
  intros Hlen Hc. unfold read_transport_record, read_length_prefixed_frame,
    read_exact_with_deadline, MAX_NOISE_RECORD_LEN in *.
  set (prefix := to_be_bytes 4 (Z.of_nat (length body))).
  assert (length prefix = 4%nat) as Hp4 by (unfold prefix; by rewrite length_to_be_bytes).
  destruct (read_loop_clean 4 ios prefix (body ++ rest)) as (ios1 & Hr & Hc1); [lia|done|].
  rewrite Hp4 in Hr. rewrite <-(assoc_L (++)), Hr. cbn [mbind option_bind]. unfold prefix.
  rewrite from_be_bytes_4 by (unfold u32_modulus; lia). rewrite (proj2 (Z.ltb_ge _ _)) by lia.
  destruct (read_loop_clean (length body) ios1 body rest) as (ios2 & Hr2 & Hc2); [lia|done|].
  rewrite Nat2Z.id. eauto.
Qed.

(** Frames round-trip. On streams without faults, a written frame (here a
    transport record) is read back as its body whatever the sizes of the
    single reads and writes, and whatever follows it on the wire is left for
    the next read. *)
Theorem transport_record_roundtrip body ios ios' rest :
  Z.of_nat (length body) ≤ MAX_NOISE_RECORD_LEN → clean_schedule ios → clean_schedule ios' →
  ∃ out ios1 ios2, write_transport_record body ios = Some (Ok tt, out, ios1) ∧
    read_transport_record ios' (out ++ rest) = Some (Ok body, rest, ios2).
Proof.
  intros Hlen Hc Hc'. destruct (write_record_clean body ios Hlen Hc) as (ios1 & Hw & _).
  destruct (read_record_clean body ios' rest Hlen Hc') as (ios2 & Hr & _). eauto.
Qed.

(** *** The properties at work *)

(** Three bytes at a time. *)
Definition sample_schedule : Schedule := λ _, MkCallIo 9 false false 3 false.

Lemma sample_schedule_clean : clean_schedule sample_schedule.
Proof. intros k. by split_and!; cbn; try lia. Qed.

Lemma write_frame_exact_witness :
  ∃ r out ios', write_length_prefixed_frame (as_bytes "hello") 4 sample_schedule = Some (r, out, ios') ∧
    out = [].
Proof.
  destruct (write_frame_exact (as_bytes "hello") 4 sample_schedule)
    as (r & out & ios' & Hw & _ & _ & Hover).
  - reflexivity.
  - exists r, out, ios'. split; [exact Hw|]. apply Hover. reflexivity.
Defined.

Lemma transport_record_roundtrip_witness :
  ∃ out ios1 ios2, write_transport_record (as_bytes "hello") sample_schedule = Some (Ok tt, out, ios1) ∧
    read_transport_record sample_schedule (out ++ as_bytes "next")
      = Some (Ok (as_bytes "hello"), as_bytes "next", ios2).
Proof.
  apply (transport_record_roundtrip (as_bytes "hello") sample_schedule sample_schedule
    (as_bytes "next")).
  - discriminate.
  - exact sample_schedule_clean.
  - exact sample_schedule_clean.
Defined.
