(* ===== verification/Ingress.v ===== *)
(** * Prevalidated ingress and the ceremony deadline

    Models [mesh-session-core-rs/src/ingress.rs]: a stream, its evidence and
    the monotonic time budget it is born with, kept together from admission to
    the handshake. A [Duration] and an [Instant] are numbers of nanoseconds. *)

From stdpp Require Import base gmap sets list strings.
From Stdlib Require Import ZArith Lia Ascii.
From S2P Require Import Prelude.

Open Scope Z_scope.

Record IngressEvidence := MkIngressEvidence {
  observed_at : Z;
  ingress_expiry : Z;
}.

Record CeremonyDeadlinePolicy := MkCeremonyDeadlinePolicy { max_budget : Z }.

Definition deadline_policy_new (max_budget : Z) : option CeremonyDeadlinePolicy :=
  if max_budget =? 0 then None else Some (MkCeremonyDeadlinePolicy max_budget).

Record CeremonyBudget := MkCeremonyBudget { cb_duration : Z }.

Definition budget_new (duration : Z) (policy : CeremonyDeadlinePolicy) : option CeremonyBudget :=
  if (duration =? 0) || (max_budget policy <? duration) then None
  else Some (MkCeremonyBudget duration).

Record CeremonyDeadline := MkCeremonyDeadline {
  cd_started : Z;
  cd_budget : Z;
}.

(** [started.elapsed()] at the instant [now]; it saturates at zero. *)
Definition elapsed (started now : Z) : Z := Z.max 0 (now - started).

(** [budget.saturating_sub(started.elapsed())] *)
Definition remaining (d : CeremonyDeadline) (now : Z) : Z :=
  Z.max 0 (cd_budget d - elapsed (cd_started d) now).

Definition is_expired (d : CeremonyDeadline) (now : Z) : bool := remaining d now =? 0.

Record PrevalidatedIngress (T : Type) := MkPrevalidatedIngress {
  pi_stream : T;
  pi_evidence : IngressEvidence;
  pi_deadline : CeremonyDeadline;
}.
Arguments MkPrevalidatedIngress {T} _ _ _.
Arguments pi_stream {T} _.
Arguments pi_evidence {T} _.
Arguments pi_deadline {T} _.

(** [now] is what [Instant::now()] returns inside. *)
Definition admit_at_accept {T} (now : Z) (stream : T) (evidence : IngressEvidence)
    (budget : CeremonyBudget) : PrevalidatedIngress T :=
  MkPrevalidatedIngress stream evidence (MkCeremonyDeadline now (cb_duration budget)).

Definition consume_ingress {T} (i : PrevalidatedIngress T)
    : T * IngressEvidence * CeremonyDeadline :=
  (pi_stream i, pi_evidence i, pi_deadline i).

(** ** The deadline *)

Lemma is_expired_spec d now :
  0 < cd_budget d → is_expired d now = true ↔ cd_started d + cd_budget d ≤ now.
Proof. unfold is_expired, remaining, elapsed. rewrite Z.eqb_eq. lia. Qed.

(** C37: a ceremony is bounded by the policy: no budget the policy admits
    (whatever duration the adapter asks for) keeps the ceremony alive past
    [max_budget] after its admission; it is alive at its admission; and once
    expired it stays so, whatever the wall clock does. *)
Theorem ceremony_bounded {T} p policy d budget (stream : T) ev t0 :
  0 ≤ p → 0 ≤ d →
  deadline_policy_new p = Some policy → budget_new d policy = Some budget →
  let '(_, _, deadline) := consume_ingress (admit_at_accept t0 stream ev budget) in
  is_expired deadline t0 = false ∧
  (∀ t, t0 + p ≤ t → is_expired deadline t = true) ∧
  (∀ t t', t ≤ t' → is_expired deadline t = true → is_expired deadline t' = true).
Proof.
  unfold deadline_policy_new, budget_new. intros Hp0 Hd0 Hp Hb.
  destruct (Z.eqb_spec p 0); [done|]. injection Hp as <-.
  destruct (Z.eqb_spec d 0); [done|]. cbn in Hb.
  destruct (Z.ltb_spec p d); [done|]. injection Hb as <-. cbn.
  split_and!.
  - apply not_true_iff_false. rewrite is_expired_spec by (cbn; lia). cbn. lia.
  - intros t Ht. apply is_expired_spec; cbn; lia.
  - intros t t' Ht. rewrite !is_expired_spec by (cbn; lia). cbn. lia.
Qed.

(** A policy of five seconds, three asked for. *)
Lemma ceremony_bounded_witness :
  ∃ policy budget, deadline_policy_new 5000 = Some policy ∧ budget_new 3000 policy = Some budget ∧
    let '(_, _, deadline) := consume_ingress (admit_at_accept 40 tt (MkIngressEvidence 1 2) budget) in
    is_expired deadline 40 = false ∧ is_expired deadline 5040 = true.
Proof.
  eexists _, _. split; [reflexivity|]. split; [reflexivity|].
  destruct (ceremony_bounded 5000 _ 3000 _ tt (MkIngressEvidence 1 2) 40 ltac:(lia) ltac:(lia) eq_refl eq_refl)
    as (Halive & Hdead & _).
  split; [exact Halive|apply Hdead; lia].
Defined.
