(* ===== verification/Crypto.v ===== *)
(** * The cryptographic primitives of the session protocol

    SHA-256 ([sha2]), P-256 ECDSA ([p256]) and Noise ([snow]) are parameters:
    the functions [mesh-session-core-rs] calls, and what it relies on. *)

From stdpp Require Import base gmap sets list strings.
From Stdlib Require Import ZArith Lia Ascii.
From S2P Require Import Prelude.

Open Scope Z_scope.

Class SessionCrypto := {
  sha256 : bytes → bytes;                                (* [Sha256] over the updates *)
  VerifyingKey : Type;
  Signature : Type;
  from_sec1_bytes : bytes → option VerifyingKey;         (* [VerifyingKey::from_sec1_bytes] *)
  to_encoded_point : VerifyingKey → bytes;               (* [to_encoded_point(true)] *)
  signature_from_slice : bytes → option Signature;       (* [Signature::from_slice] *)
  normalize_s : Signature → option Signature;            (* [Some] when the signature is high-S *)
  ecdsa_verify : VerifyingKey → bytes → Signature → bool; (* [Verifier::verify] *)
}.

(** A digest has 32 bytes; a compressed point has 33 and parses back. *)
Class SessionCryptoLaws `{!SessionCrypto} : Prop := {
  sha256_length : ∀ b, length (sha256 b) = 32%nat;
  encoded_point_length : ∀ k, length (to_encoded_point k) = 33%nat;
  encoded_point_parses : ∀ k, from_sec1_bytes (to_encoded_point k) = Some k;
}.

(** [snow]: the handshake and the transport. A failing call is [None]. *)
Class Snow := {
  HandshakeState : Type;
  TransportState : Type;
  build_initiator : string → bytes → bytes → option HandshakeState;  (* pattern, private key, prologue *)
  build_responder : string → bytes → bytes → option HandshakeState;
  hs_write_message : HandshakeState → option (bytes * HandshakeState);          (* empty payload *)
  hs_read_message : HandshakeState → bytes → option (Z * HandshakeState);       (* payload length *)
  is_handshake_finished : HandshakeState → bool;
  get_handshake_hash : HandshakeState → bytes;
  into_transport_mode : HandshakeState → option TransportState;
  ts_write_message : TransportState → bytes → option (bytes * TransportState);
  ts_read_message : TransportState → bytes → option (bytes * TransportState);
  rekey_outgoing : TransportState → TransportState;
  rekey_incoming : TransportState → TransportState;
}.
