(* ===== verification/SessionErrors.v ===== *)
(** * Error types of the session protocol

    Models [mesh-session-core-rs/src/error.rs] (the enums that are not with
    their component) and [D1CancelOutcome] of [intent.rs]. *)

From stdpp Require Import base gmap sets list strings.
From Stdlib Require Import ZArith Lia Ascii.
From S2P Require Import Prelude.
From S2P Require Import Rekey.
From S2P Require Import Cbor.
From S2P Require Import Wire.

Open Scope Z_scope.

Inductive DelegationError :=
| DE_NonCanonical
| DE_InvalidTtlWindow
| DE_TtlExceedsPolicy (ttl max_ttl : Z)
| DE_BadSignature
| DE_HouseholdBindingMismatch
| DE_DelegatorBindingMismatch
| DE_VersionMismatch
| DE_KindMismatch
| DE_DomainMismatch
| DE_ProfileMismatch
| DE_ChannelInvalid
| DE_InvalidDelegatedPubPoint
| DE_DeadlineExceeded
| DE_VerifierUnavailable.

Inductive NoiseSetupError :=
| NE_Snow
| NE_HandshakeNotFinished
| NE_NonEmptyHandshakePayload (len : Z)
| NE_Wire (e : WireError).

Inductive IntentError :=
| IE_Cbor (e : CborError)
| IE_Wire (e : WireError)
| IE_VersionOrDomainMismatch
| IE_ShapeMismatch
| IE_UnexpectedTypeByte (b : ascii)
| IE_BadSignature
| IE_HighSRejected
| IE_InvalidSignatureScalar
| IE_SignerFailed
| IE_SignerProducedInvalidSignature
| IE_KeyIdMismatch
| IE_DelegatedKeyMismatch
| IE_DigestMismatch
| IE_IdentityMismatch
| IE_TtlInvalid
| IE_NonceAlreadyConsumed
| IE_NonceCommitAmbiguous
| IE_NonceLedgerUnavailable
| IE_NoLedgerConfigured
| IE_ChannelMismatch
| IE_NoD1AdmissionConfigured
| IE_NoRetainedGenerationResolverConfigured
| IE_ResolvedGenerationNotAfterMismatch
| IE_ClockUnavailable
| IE_DeadlineExceeded
| IE_D1BindingMismatch
| IE_SignerKeyMismatchPendingIntent
| IE_PendingIntentDelegationMismatch
| IE_PendingIntentCheckpointMismatch
| IE_EmptyIdentifier
| IE_RosterSnapshotUnavailable
| IE_D1MembershipRejected
| IE_D1RegistryUnavailable
| IE_NonceEvidenceRejected.

Inductive D1CancelOutcome :=
| CancelledAndRemoved
| BarrierReleasedBookkeepingDeferred
| RegistryUnavailable.

Inductive AuthFrameError :=
| AE_Cbor (e : CborError)
| AE_Wire (e : WireError)
| AE_ShapeMismatch
| AE_BadSignature
| AE_HighSRejected
| AE_VersionOrDomainMismatch
| AE_RoleOrKindMismatch
| AE_HFinalMismatch
| AE_ExpectedPeerMismatch
| AE_CheckpointMismatch
| AE_Delegation (e : DelegationError)
| AE_DelegationGate
| AE_DigestMismatch
| AE_Noise (e : NoiseSetupError)
| AE_ActivateAckWriteFailed
| AE_AckExchangeFailedWithCancelOutcome (source : AuthFrameError) (cancel_outcome : D1CancelOutcome)
| AE_SignerFailed
| AE_InvalidSignatureScalar
| AE_SignerProducedInvalidSignature
| AE_SignerKeyMismatchDelegation
| AE_Rekey (e : RekeyError)
| AE_DelegationRolesMismatch
| AE_DelegationTranscriptKindsMismatch
| AE_DelegationChannelMismatch
| AE_Intent (e : IntentError).

Inductive PostActiveError :=
| PE_Wire (e : WireError)
| PE_Cbor (e : CborError)
| PE_EmptyRecord
| PE_OversizeBody (declared max : Z)
| PE_NonEmptyControlBody
| PE_UnexpectedAuthFrame (type_byte : ascii)
| PE_UnexpectedIntentRecord
| PE_ReservedTypeByte
| PE_UnknownTypeByte (type_byte : ascii)
| PE_Closed
| PE_NotAuthorized
| PE_Expired
| PE_Rekey (e : RekeyError)
| PE_Noise (e : NoiseSetupError)
| PE_ReceiveBufferTooSmall (buffer_len payload_len : Z)
| PE_PeerClosed
| PE_PeerRevoked
| PE_RekeyOnlyAllowedBeforeClose
| PE_Intent (e : IntentError).
