(* ===== verification/PostActive.v ===== *)
(** * Post-Active records

    Models [mesh-session-core-rs/src/post_active.rs]: the closed namespace of
    the records an active session carries ([DATA], [REVOKE_NOTICE], [CLOSE],
    [REKEY]) and their encodings. *)

From stdpp Require Import base gmap sets list strings.
From Stdlib Require Import ZArith Lia Ascii.
From S2P Require Import Prelude.
From S2P Require Import Cbor.
From S2P Require Import CborProofs.
From S2P Require Import CborSample.
From S2P Require Import Wire.
From S2P Require Import SessionErrors.

Open Scope Z_scope.

Definition DATA_TYPE_BYTE : ascii := byte_of 0x10.
Definition REVOKE_NOTICE_TYPE_BYTE : ascii := byte_of 0x20.
Definition CLOSE_TYPE_BYTE : ascii := byte_of 0x30.
Definition REKEY_TYPE_BYTE : ascii := byte_of 0x40.

Record RekeyMarkerWire := MkRekeyMarkerWire { next_generation : Z }.

Inductive PostActiveRecord :=
| PA_Data (payload : bytes)
| PA_RevokeNotice
| PA_Close
| PA_Rekey (next_generation : Z).

(** [len as u32 > MAX_CBOR_BODY_LEN]: the length is truncated first. *)
Definition check_opaque_body_len (len : nat) : Result PostActiveError unit :=
  reject_if (MAX_CBOR_BODY_LEN <? as_u32 len) (PE_OversizeBody (as_u32 len) MAX_CBOR_BODY_LEN).

Definition encode_data_record (payload : bytes) : Result PostActiveError bytes :=
  check_opaque_body_len (length payload);;
  Ok (DATA_TYPE_BYTE :: payload).

Definition encode_revoke_notice_record : bytes := [REVOKE_NOTICE_TYPE_BYTE].
Definition encode_close_record : bytes := [CLOSE_TYPE_BYTE].

Section post_active.
Context `{!CborCrate}.

Definition marker_fields (m : RekeyMarkerWire) : list (string * CborValue) :=
  [("next_generation", CV_Integer (next_generation m))].

#[export] Instance RekeyMarkerWire_serde : Serde RekeyMarkerWire :=
  {| to_value := λ m, to_struct (marker_fields m);
     of_value := of_struct ["next_generation"] (λ get,
       g ← get "next_generation" ≫= de_u64;
       Some (MkRekeyMarkerWire g)) |}.

Definition encode_rekey_record (next_generation : Z) : Result PostActiveError bytes :=
  body ← map_err PE_Cbor (to_canonical_vec (MkRekeyMarkerWire next_generation));
  map_err PE_Wire (encode_typed_frame REKEY_TYPE_BYTE body).

Definition decode_post_active_record (plaintext : bytes) : Result PostActiveError PostActiveRecord :=
  match plaintext with
  | [] => Err PE_EmptyRecord
  | type_byte :: body =>
      if bool_decide (type_byte = DATA_TYPE_BYTE) then
        check_opaque_body_len (length body);;
        Ok (PA_Data body)
      else if bool_decide (type_byte = REVOKE_NOTICE_TYPE_BYTE) then
        reject_if (negb (bool_decide (body = []))) PE_NonEmptyControlBody;;
        Ok PA_RevokeNotice
      else if bool_decide (type_byte = CLOSE_TYPE_BYTE) then
        reject_if (negb (bool_decide (body = []))) PE_NonEmptyControlBody;;
        Ok PA_Close
      else if bool_decide (type_byte = REKEY_TYPE_BYTE) then
        '(_, cbor_body) ← map_err PE_Wire (decode_typed_frame plaintext);
        marker ← map_err PE_Cbor (from_canonical_bytes cbor_body);
        Ok (PA_Rekey (next_generation marker))
      else if (1 <=? of_byte type_byte) && (of_byte type_byte <=? 5)
      then Err (PE_UnexpectedAuthFrame type_byte)
      else if of_byte type_byte =? 6 then Err PE_UnexpectedIntentRecord
      else if of_byte type_byte =? 7 then Err PE_ReservedTypeByte
      else Err (PE_UnknownTypeByte type_byte)
  end.

(** Encoding of a record, by its kind. *)
Definition encode_record (r : PostActiveRecord) : Result PostActiveError bytes :=
  match r with
  | PA_Data payload => encode_data_record payload
  | PA_RevokeNotice => Ok encode_revoke_notice_record
  | PA_Close => Ok encode_close_record
  | PA_Rekey g => encode_rekey_record g
  end.
End post_active.

(** ** Properties *)

Definition marker_valid (m : RekeyMarkerWire) : Prop := in_u64 (next_generation m).

#[export] Instance RekeyMarkerWire_laws `{!CborCrate, !CborLaws} :
  SerdeLaws RekeyMarkerWire marker_valid.
Proof.
  split; intros m Hm.
  - apply to_struct_Allowed; [by_decide|repeat constructor].
  - apply to_struct_plain. repeat constructor. cbn. destruct Hm as [? ?].
    rewrite andb_true_iff, Z.leb_le, Z.ltb_lt. unfold u64_modulus in *. lia.
  - etransitivity; [apply (to_struct_depth _ 0)|pose proof cbor_recursion_limit; lia].
    repeat constructor.
  - unfold of_value, to_value, RekeyMarkerWire_serde.
    destruct (of_struct_canonical ["next_generation"] (λ get,
      g ← get "next_generation" ≫= de_u64; Some (MkRekeyMarkerWire g)) (marker_fields m)) as (g & -> & Hg);
      [by_decide|repeat constructor|].
    rewrite Hg. cbn. rewrite de_u64_integer by done. by destruct m.
Qed.

Lemma encode_rekey_decodes `{!CborCrate, !CborLaws} g p :
  in_u64 g → encode_rekey_record g = Ok p → decode_post_active_record p = Ok (PA_Rekey g).
Proof.
  intros Hg Hp. unfold encode_rekey_record in Hp. res_inv.
  destruct (serde_encodes (valid:=marker_valid) (MkRekeyMarkerWire g) Hg) as (b & Henc & _ & _ & _ & Hdec).
  rewrite Henc in Hok. injection Hok as <-. pose proof (decode_encode_typed _ _ _ Hp) as Hd.
  unfold encode_typed_frame in Hp. apply bind_Ok in Hp as ([] & Hc & [= <-]).
  unfold decode_post_active_record.
  rewrite !bool_decide_false by (intros [=]). rewrite bool_decide_true by done.
  rewrite Hd. cbn. by rewrite Hdec.
Qed.

Lemma check_opaque_body_len_Ok len u :
  check_opaque_body_len len = Ok u ↔ as_u32 len ≤ MAX_CBOR_BODY_LEN.
Proof. unfold check_opaque_body_len. rewrite reject_if_Ok, Z.ltb_ge. done. Qed.

Lemma encode_record_decodes `{!CborCrate, !CborLaws} r p :
  (∀ g, r = PA_Rekey g → in_u64 g) → encode_record r = Ok p → decode_post_active_record p = Ok r.
Proof.
  destruct r as [payload| | |g]; intros Hg Hp; cbn [encode_record] in Hp.
  - unfold encode_data_record in Hp. apply bind_Ok in Hp as ([] & Hc & [= <-]).
    unfold decode_post_active_record. rewrite bool_decide_true by done. by rewrite Hc.
  - by injection Hp as <-.
  - by injection Hp as <-.
  - apply encode_rekey_decodes; [by apply Hg|done].
Qed.

(** Post-Active records round-trip and their namespace is closed. A record
    that encodes (a marker's generation being a [u64]) decodes to itself. What
    decodes begins with one of the four record types; [DATA] carries exactly
    the bytes after the type byte, whatever they are; [CLOSE] and
    [REVOKE_NOTICE] are single bytes; a [REKEY] body is canonical CBOR. *)
Theorem post_active_roundtrip `{!CborCrate, !CborLaws} :
  (∀ r p, (∀ g, r = PA_Rekey g → in_u64 g) → encode_record r = Ok p →
     decode_post_active_record p = Ok r) ∧
  (∀ p r, decode_post_active_record p = Ok r →
     match r with
     | PA_Data payload => p = DATA_TYPE_BYTE :: payload
     | PA_RevokeNotice => p = [REVOKE_NOTICE_TYPE_BYTE]
     | PA_Close => p = [CLOSE_TYPE_BYTE]
     | PA_Rekey g => in_u64 g ∧ ∃ body, p = REKEY_TYPE_BYTE :: body ∧ verify_canonical body = Ok tt
     end).
Proof.
  split.
  - intros r p. apply encode_record_decodes.
  - intros [|c body] r; cbn [decode_post_active_record]; [done|].
    case_bool_decide; [subst; intros Hr|case_bool_decide; [subst; intros Hr|
      case_bool_decide; [subst; intros Hr|case_bool_decide; [subst; intros Hr|intros Hr]]]].
    + by apply bind_Ok in Hr as ([] & _ & [= <-]).
    + res_inv. by subst.
    + res_inv. by subst.
    + apply bind_Ok in Hr as ([t b] & Hd%map_err_Ok & Hr). cbn [decode_typed_frame] in Hd.
      apply bind_Ok in Hd as ([] & Hc & [= <- <-]). apply bind_Ok in Hr as (m & Hm%map_err_Ok & [= <-]).
      unfold from_canonical_bytes in Hm. apply bind_Ok in Hm as ([] & Hv & Hm). split; [|eauto].
      apply bind_Ok in Hm as ([v n] & _ & Hm%ok_or_Ok). unfold of_value, RekeyMarkerWire_serde, of_struct in Hm.
      destruct v; try done. destruct (known_fields _ _); [|done].
      apply bind_Some in Hm as (z & Hz & [= <-]). apply bind_Some in Hz as (w & _ & Hz).
      by eapply de_u64_bound.
    + destruct ((1 <=? of_byte c) && (of_byte c <=? 5)); [done|].
      destruct (of_byte c =? 6); [done|]. by destruct (of_byte c =? 7).
Qed.

(** The bound of [DATA] is checked on the truncated length. Below 4 GiB a
    payload encodes exactly when it has at most 65,518 bytes; but a payload of
    4 GiB, whose length truncates to zero, encodes and decodes as well. *)
Theorem data_length_truncated `{!CborCrate} :
  (∀ payload, Z.of_nat (length payload) < u32_modulus →
     is_ok (encode_data_record payload) = true ↔ Z.of_nat (length payload) ≤ 65518) ∧
  (∃ payload p, 65518 < Z.of_nat (length payload) ∧ encode_data_record payload = Ok p ∧
     decode_post_active_record p = Ok (PA_Data payload)).
Proof.
  change 65518 with MAX_CBOR_BODY_LEN. split.
  - intros payload Hlt. unfold encode_data_record.
    destruct (check_opaque_body_len (length payload)) as [u|e] eqn:Hc; cbn.
    + apply check_opaque_body_len_Ok in Hc. unfold as_u32 in Hc. rewrite Z.mod_small in Hc by lia. done.
    + split; [done|]. intros Hle.
      assert (check_opaque_body_len (length payload) = Ok tt) as Hok; [|congruence].
      apply check_opaque_body_len_Ok. unfold as_u32. by rewrite Z.mod_small by lia.
  - set (payload := replicate (Z.to_nat u32_modulus) "000"%char).
    assert (Z.of_nat (length payload) = u32_modulus) as Hlen
      by (unfold payload; rewrite length_replicate, Z2Nat.id; done).
    assert (check_opaque_body_len (length payload) = Ok tt) as Hok.
    { apply check_opaque_body_len_Ok. unfold as_u32. by rewrite Hlen. }
    exists payload, (DATA_TYPE_BYTE :: payload). rewrite Hlen. split_and!; [done| |].
    + unfold encode_data_record. by rewrite Hok.
    + unfold decode_post_active_record. rewrite bool_decide_true by done. by rewrite Hok.
Qed.

(** *** The properties at work *)

Section sample.
#[local] Existing Instance sample_cbor.

(** The vector of the source's tests. *)
Example rekey_golden :
  encode_rekey_record 7 = Ok (byte_of 0x40 :: byte_of 0xa1 :: byte_of 0x6f :: as_bytes "next_generation" ++ [byte_of 7]).
Proof. by vm_compute. Qed.

Lemma post_active_roundtrip_witness :
  ∃ p, encode_record (PA_Rekey 7) = Ok p ∧ decode_post_active_record p = Ok (PA_Rekey 7).
Proof.
  exists (byte_of 0x40 :: byte_of 0xa1 :: byte_of 0x6f :: as_bytes "next_generation" ++ [byte_of 7]).
  split; [exact rekey_golden|].
  apply (proj1 (@post_active_roundtrip sample_cbor sample_cbor_laws)).
  - intros g [= <-]. split; [discriminate|reflexivity].
  - exact rekey_golden.
Defined.

(** Control records with a body, non-shortest integers, trailing bytes and
    handshake types are refused. *)
Example post_active_rejections :
  decode_post_active_record [byte_of 0x30; byte_of 0] = Err PE_NonEmptyControlBody ∧
  decode_post_active_record (byte_of 0x40 :: byte_of 0xa1 :: byte_of 0x6f ::
    as_bytes "next_generation" ++ [byte_of 0x18; byte_of 1]) = Err (PE_Wire (WE_Cbor CE_NonCanonical)) ∧
  decode_post_active_record (byte_of 0x40 :: byte_of 0xa1 :: byte_of 0x6f ::
    as_bytes "next_generation" ++ [byte_of 1; byte_of 0]) = Err (PE_Wire (WE_Cbor CE_TrailingBytes)) ∧
  decode_post_active_record [byte_of 3] = Err (PE_UnexpectedAuthFrame (byte_of 3)) ∧
  decode_post_active_record [byte_of 7] = Err PE_ReservedTypeByte.
Proof. by vm_compute. Qed.
End sample.
