(* ===== verification/Delegation.v ===== *)
(** * Mesh-session delegations

    Models [mesh-session-core-rs/src/delegation.rs]: the delegation a machine
    key issues to a session key, its shape validation on every construction
    path, its canonical encoding, the TTL policy and the roster-free part of
    its binding. [DelegationWire] has the same fields as
    [MeshSessionDelegation] and its conversions copy them, so one record
    stands for both. *)

From stdpp Require Import base gmap sets list strings.
From Stdlib Require Import ZArith Lia Ascii.
From S2P Require Import Prelude.
From S2P Require Import Cbor.
From S2P Require Import CborProofs.
From S2P Require Import Crypto.
From S2P Require Import SessionErrors.

Open Scope Z_scope.

Definition DELEGATION_KIND : string := "soyeht/mesh-session/delegation/v1".
Definition DELEGATION_DOMAIN : string := "soyeht/mesh-session/v1".
Definition DELEGATION_PROFILE : string := "mesh-session".
Definition DELEGATION_VERSION : Z := 1.

Record MeshSessionDelegation := MkDelegation {
  d_version : Z;
  d_kind : string;
  d_domain : string;
  d_hh_id : string;
  d_delegator_m_id : string;
  d_delegator_cert_fingerprint : bytes;
  d_delegated_pub : bytes;
  d_delegated_key_id : string;
  d_profile : string;
  d_transcript_kinds : list string;
  d_roles : list string;
  d_channel : string;
  d_serial : Z;
  d_not_before : Z;
  d_not_after : Z;
  d_sig : bytes;
}.

Section delegation.
Context `{!CborCrate, !SessionCrypto}.

Definition validate_shape (d : MeshSessionDelegation) : Result DelegationError unit :=
  reject_if (negb (length (d_delegator_cert_fingerprint d) =? 32)%nat
             || negb (length (d_delegated_pub d) =? 33)%nat
             || negb (length (d_sig d) =? 64)%nat) DE_NonCanonical;;
  reject_if (negb (d_version d =? DELEGATION_VERSION)) DE_VersionMismatch;;
  reject_if (negb (String.eqb (d_kind d) DELEGATION_KIND)) DE_KindMismatch;;
  reject_if (negb (String.eqb (d_domain d) DELEGATION_DOMAIN)) DE_DomainMismatch;;
  reject_if (negb (String.eqb (d_profile d) DELEGATION_PROFILE)) DE_ProfileMismatch;;
  reject_if (negb (String.eqb (d_channel d) "dev") && negb (String.eqb (d_channel d) "release"))
    DE_ChannelInvalid;;
  reject_if (negb (is_some (from_sec1_bytes (d_delegated_pub d)))) DE_InvalidDelegatedPubPoint.

(** [TryFrom<DelegationWire>] *)
Definition delegation_try_from (w : MeshSessionDelegation)
    : Result DelegationError MeshSessionDelegation :=
  validate_shape w;; Ok w.

Definition delegation_fields (d : MeshSessionDelegation) : list (string * CborValue) :=
  [("version", CV_Integer (d_version d));
   ("kind", CV_Text (d_kind d));
   ("domain", CV_Text (d_domain d));
   ("hh_id", CV_Text (d_hh_id d));
   ("delegator_m_id", CV_Text (d_delegator_m_id d));
   ("delegator_cert_fingerprint", CV_Bytes (d_delegator_cert_fingerprint d));
   ("delegated_pub", CV_Bytes (d_delegated_pub d));
   ("delegated_key_id", CV_Text (d_delegated_key_id d));
   ("profile", CV_Text (d_profile d));
   ("transcript_kinds", of_strings (d_transcript_kinds d));
   ("roles", of_strings (d_roles d));
   ("channel", CV_Text (d_channel d));
   ("serial", CV_Integer (d_serial d));
   ("not_before", CV_Integer (d_not_before d));
   ("not_after", CV_Integer (d_not_after d));
   ("sig", CV_Bytes (d_sig d))].

Definition delegation_names : list string :=
  ["version"; "kind"; "domain"; "hh_id"; "delegator_m_id"; "delegator_cert_fingerprint";
   "delegated_pub"; "delegated_key_id"; "profile"; "transcript_kinds"; "roles"; "channel";
   "serial"; "not_before"; "not_after"; "sig"].

Definition delegation_build (get : string → option CborValue) : option MeshSessionDelegation :=
  version ← get "version" ≫= de_u64;
  kind ← get "kind" ≫= de_string;
  domain ← get "domain" ≫= de_string;
  hh_id ← get "hh_id" ≫= de_string;
  delegator_m_id ← get "delegator_m_id" ≫= de_string;
  fingerprint ← get "delegator_cert_fingerprint" ≫= de_byte_buf;
  delegated_pub ← get "delegated_pub" ≫= de_byte_buf;
  delegated_key_id ← get "delegated_key_id" ≫= de_string;
  profile ← get "profile" ≫= de_string;
  transcript_kinds ← get "transcript_kinds" ≫= de_strings;
  roles ← get "roles" ≫= de_strings;
  channel ← get "channel" ≫= de_string;
  serial ← get "serial" ≫= de_u64;
  not_before ← get "not_before" ≫= de_u64;
  not_after ← get "not_after" ≫= de_u64;
  sig ← get "sig" ≫= de_byte_buf;
  Some (MkDelegation version kind domain hh_id delegator_m_id fingerprint delegated_pub
    delegated_key_id profile transcript_kinds roles channel serial not_before not_after sig).

(** [derive] on [DelegationWire]. *)
Definition de_delegation_wire : CborValue → option MeshSessionDelegation :=
  of_struct delegation_names delegation_build.

Definition result_ok {E A} (r : Result E A) : option A :=
  match r with Ok a => Some a | Err _ => None end.

(** [#[serde(try_from = "DelegationWire", into = "DelegationWire")]] *)
#[export] Instance MeshSessionDelegation_serde : Serde MeshSessionDelegation :=
  {| to_value := λ d, to_struct (delegation_fields d);
     of_value := λ v, de_delegation_wire v ≫= λ w, result_ok (delegation_try_from w) |}.

Definition DelegationWire_serde : Serde MeshSessionDelegation :=
  {| to_value := λ d, to_struct (delegation_fields d); of_value := de_delegation_wire |}.

Definition delegation_to_canonical_bytes (d : MeshSessionDelegation) : Result DelegationError bytes :=
  map_err (λ _, DE_NonCanonical) (to_canonical_vec d).

Definition delegation_from_canonical_bytes (b : bytes)
    : Result DelegationError MeshSessionDelegation :=
  wire ← map_err (λ _, DE_NonCanonical) (@from_canonical_bytes _ _ DelegationWire_serde b);
  delegation_try_from wire.
End delegation.

(** ** Policy and binding *)

Record DelegationPolicy := MkDelegationPolicy { max_ttl : Z }.

Definition policy_production : DelegationPolicy := MkDelegationPolicy 0.
Definition policy_test (max_ttl : Z) : DelegationPolicy := MkDelegationPolicy max_ttl.

Definition validate_window (p : DelegationPolicy) (not_before not_after : Z)
    : Result DelegationError unit :=
  ttl ← ok_or (checked_sub not_after not_before) DE_InvalidTtlWindow;
  reject_if (ttl =? 0) DE_InvalidTtlWindow;;
  reject_if (max_ttl p <? ttl) (DE_TtlExceedsPolicy ttl (max_ttl p)).

Definition policy_validate (p : DelegationPolicy) (d : MeshSessionDelegation) :=
  validate_window p (d_not_before d) (d_not_after d).

Record PartialBindingInputs := MkPartialBindingInputs {
  proof_hh_id : string;
  local_hh_id : string;
  proof_self_m_id : string;
  proof_self_cert_fingerprint : bytes;
}.

Definition check_partial_binding (d : MeshSessionDelegation) (ctx : PartialBindingInputs)
    : Result DelegationError unit :=
  reject_if (negb (String.eqb (proof_hh_id ctx) (local_hh_id ctx))
             || negb (String.eqb (local_hh_id ctx) (d_hh_id d))) DE_HouseholdBindingMismatch;;
  reject_if (negb (String.eqb (proof_self_m_id ctx) (d_delegator_m_id d))) DE_DelegatorBindingMismatch;;
  reject_if (bool_decide (proof_self_cert_fingerprint ctx ≠ d_delegator_cert_fingerprint d))
    DE_DelegatorBindingMismatch.

(** [NoVerifierConfigured::verify_delegation] *)
Definition no_verifier_configured (d : MeshSessionDelegation) : Result DelegationError unit :=
  Err DE_BadSignature.

(** ** Lemmas *)

Section delegation_lemmas.
Context `{!CborCrate, !CborLaws, !SessionCrypto}.

(** The fields that are [u64] in Rust are. *)
Record delegation_u64 (d : MeshSessionDelegation) : Prop := {
  du_version : in_u64 (d_version d);
  du_serial : in_u64 (d_serial d);
  du_not_before : in_u64 (d_not_before d);
  du_not_after : in_u64 (d_not_after d);
}.

(** Every delegation a program can hold. *)
Definition delegation_valid (d : MeshSessionDelegation) : Prop :=
  delegation_u64 d ∧ validate_shape d = Ok tt.

Lemma delegation_Allowed d : Allowed (to_struct (delegation_fields d)).
Proof. struct_allowed. Qed.

Lemma delegation_plain d : delegation_u64 d → plain (to_struct (delegation_fields d)) = true.
Proof. intros []. struct_plain. Qed.

Lemma delegation_depth d : (depth (to_struct (delegation_fields d)) ≤ 2)%nat.
Proof. struct_depth. Qed.

Lemma delegation_decodes d :
  delegation_u64 d → de_delegation_wire (canonicalize (to_struct (delegation_fields d))) = Some d.
Proof.
  intros []. unfold de_delegation_wire, delegation_fields.
  struct_lookup. unfold delegation_build. struct_leaves. by destruct d.
Qed.

#[export] Instance DelegationWire_laws : @SerdeLaws _ _ DelegationWire_serde delegation_u64.
Proof.
  split; intros d Hd; cbn [to_value of_value DelegationWire_serde].
  - apply delegation_Allowed.
  - by apply delegation_plain.
  - pose proof (delegation_depth d). pose proof cbor_recursion_limit. lia.
  - by apply delegation_decodes.
Qed.

#[export] Instance MeshSessionDelegation_laws : SerdeLaws MeshSessionDelegation delegation_valid.
Proof.
  split; intros d [Hd Hs]; cbn [to_value of_value MeshSessionDelegation_serde].
  - apply delegation_Allowed.
  - by apply delegation_plain.
  - pose proof (delegation_depth d). pose proof cbor_recursion_limit. lia.
  - rewrite delegation_decodes by done. cbn. unfold delegation_try_from. by rewrite Hs.
Qed.

#[export] Instance MeshSessionDelegation_sound : SerdeSound MeshSessionDelegation delegation_valid.
Proof.
  intros v d Hd. cbn [of_value MeshSessionDelegation_serde] in Hd.
  apply bind_Some in Hd as (w & Hw & Hd). unfold delegation_try_from in Hd.
  destruct (validate_shape w) as [[]|] eqn:Hs; cbn in Hd; [|done]. injection Hd as <-.
  apply of_struct_Some in Hw as [get Hw]. unfold delegation_build in Hw. build_inv Hw.
  injection Hw as <-. by split; [split|].
Qed.

(** What the shape check establishes. *)
Record DelegationShape (d : MeshSessionDelegation) : Prop := {
  ds_fingerprint : length (d_delegator_cert_fingerprint d) = 32%nat;
  ds_pub : length (d_delegated_pub d) = 33%nat;
  ds_sig : length (d_sig d) = 64%nat;
  ds_version : d_version d = DELEGATION_VERSION;
  ds_kind : d_kind d = DELEGATION_KIND;
  ds_domain : d_domain d = DELEGATION_DOMAIN;
  ds_profile : d_profile d = DELEGATION_PROFILE;
  ds_channel : d_channel d = "dev" ∨ d_channel d = "release";
  ds_point : is_Some (from_sec1_bytes (d_delegated_pub d));
}.

Lemma validate_shape_Ok d : validate_shape d = Ok tt ↔ DelegationShape d.
Proof.
  unfold validate_shape. split.
  - intros Hv. res_inv.
    repeat match goal with
    | H : (_ =? _)%nat = true |- _ => apply Nat.eqb_eq in H
    | H : (_ =? _) = true |- _ => apply Z.eqb_eq in H
    | H : String.eqb _ _ = true |- _ => apply String.eqb_eq in H
    end.
    split; try done.
    + destruct (String.eqb_spec (d_channel d) "dev"); [by left|].
      destruct (String.eqb_spec (d_channel d) "release"); [by right|done].
    + destruct (from_sec1_bytes _); [by eexists|done].
  - intros [-> -> -> -> -> -> -> Hc [k Hk]]. rewrite !String.eqb_refl, Hk.
    destruct Hc as [-> | ->]; done.
Qed.

Lemma validate_window_Ok p nb na :
  in_u64 nb → in_u64 na →
  validate_window p nb na = Ok tt ↔ nb < na ∧ na - nb ≤ max_ttl p.
Proof.
  intros [? ?] [? ?]. unfold validate_window, checked_sub.
  destruct (Z.leb_spec nb na); cbn; [|split; [done|lia]].
  destruct (Z.eqb_spec (na - nb) 0); cbn; [split; [done|lia]|].
  destruct (Z.ltb_spec (max_ttl p) (na - nb)); cbn; split; try done; lia.
Qed.

Lemma check_partial_binding_Ok d ctx :
  check_partial_binding d ctx = Ok tt ↔
  proof_hh_id ctx = local_hh_id ctx ∧ local_hh_id ctx = d_hh_id d ∧
  proof_self_m_id ctx = d_delegator_m_id d ∧
  proof_self_cert_fingerprint ctx = d_delegator_cert_fingerprint d.
Proof.
  unfold check_partial_binding. split.
  - intros Hc. apply bind_Ok in Hc as ([] & Hh%reject_if_Ok & Hc).
    apply bind_Ok in Hc as ([] & Hm%reject_if_Ok & Hf%reject_if_Ok). res_inv.
    repeat match goal with H : String.eqb _ _ = true |- _ => apply String.eqb_eq in H end.
    split_and!; try done. by apply dec_stable.
  - intros (-> & -> & -> & ->). rewrite !String.eqb_refl. cbn.
    by rewrite bool_decide_false by auto.
Qed.
End delegation_lemmas.
