(* ===== verification/AuthFrames.v ===== *)
(** * The five authentication frames

    Models [mesh-session-core-rs/src/auth_frames.rs]: the frame schemas with
    their validated construction, the signing preimage and frame digest, the
    closed decoder, and signing and verification with a K_mesh key. Each wire
    shadow struct has the fields of its frame and is converted field by field,
    so one record stands for both. *)

From stdpp Require Import base gmap sets list strings.
From Stdlib Require Import ZArith Lia Ascii.
From S2P Require Import Prelude.
From S2P Require Import Cbor.
From S2P Require Import CborProofs.
From S2P Require Import Wire.
From S2P Require Import Crypto.
From S2P Require Import SessionErrors.
From S2P Require Import Delegation.

Open Scope Z_scope.

Definition TYPE_PROOF_R : ascii := byte_of 0x01.
Definition TYPE_PROOF_I : ascii := byte_of 0x02.
Definition TYPE_FINAL_CONFIRM : ascii := byte_of 0x03.
Definition TYPE_ACTIVATE : ascii := byte_of 0x04.
Definition TYPE_ACTIVATE_ACK : ascii := byte_of 0x05.

Definition PROTOCOL_VERSION : Z := 1.
Definition DOMAIN : string := "soyeht/mesh-session/v1".
Definition ROLE_RESPONDER : string := "responder".
Definition ROLE_INITIATOR : string := "initiator".
Definition KIND_FINAL_CONFIRM : string := "final-confirm".
Definition KIND_ACTIVATE : string := "activate".
Definition KIND_ACTIVATE_ACK : string := "activate-ack".

Definition check_header (protocol_version : Z) (domain : string) : Result AuthFrameError unit :=
  reject_if (negb (protocol_version =? PROTOCOL_VERSION) || negb (String.eqb domain DOMAIN))
    AE_VersionOrDomainMismatch.

Definition check_len (b : bytes) (expected : nat) : Result AuthFrameError unit :=
  reject_if (negb (length b =? expected)%nat) AE_ShapeMismatch.

Record ExpectedResponder := MkExpectedResponder {
  er_hh_id : string;
  er_m_id : string;
  er_cert_fingerprint : bytes;
}.

(** ** Schemas *)

Record ProofR := MkProofR {
  pr_protocol_version : Z;
  pr_domain : string;
  pr_role : string;
  pr_h_final : bytes;
  pr_hh_id : string;
  pr_self_m_id : string;
  pr_self_cert_fingerprint : bytes;
  pr_checkpoint_hash : bytes;
  pr_checkpoint_sequence : Z;
  pr_checkpoint_event_head : bytes;
  pr_checkpoint_not_after : Z;
  pr_delegation : MeshSessionDelegation;
  pr_sig : bytes;
}.

Record ProofI := MkProofI {
  pi_protocol_version : Z;
  pi_domain : string;
  pi_role : string;
  pi_h_final : bytes;
  pi_hh_id : string;
  pi_self_m_id : string;
  pi_expected_peer_m_id : string;
  pi_self_cert_fingerprint : bytes;
  pi_expected_peer_cert_fingerprint : bytes;
  pi_checkpoint_hash : bytes;
  pi_checkpoint_sequence : Z;
  pi_checkpoint_event_head : bytes;
  pi_checkpoint_not_after : Z;
  pi_delegation : MeshSessionDelegation;
  pi_connection_intent_digest : bytes;
  pi_sig : bytes;
}.

Record FinalConfirm := MkFinalConfirm {
  fc_protocol_version : Z;
  fc_domain : string;
  fc_kind : string;
  fc_h_final : bytes;
  fc_initiator_m_id : string;
  fc_initiator_cert_fingerprint : bytes;
  fc_responder_m_id : string;
  fc_sig : bytes;
}.

Record Activate := MkActivate {
  ac_protocol_version : Z;
  ac_domain : string;
  ac_kind : string;
  ac_h_final : bytes;
  ac_responder_m_id : string;
  ac_final_confirm_digest : bytes;
  ac_sig : bytes;
}.

Record ActivateAck := MkActivateAck {
  aa_protocol_version : Z;
  aa_domain : string;
  aa_kind : string;
  aa_h_final : bytes;
  aa_responder_m_id : string;
  aa_activate_digest : bytes;
  aa_sig : bytes;
}.

(** The sealed trait of the frames, with [FrameWithSig]. *)
Class AuthFrameBody (F : Type) := {
  TYPE_BYTE : ascii;
  with_sig_bytes : bytes → F → F;
}.

Section auth_frames.
Context `{!CborCrate, !SessionCrypto}.

(** [ConnectionIntentDigest]'s [Deserialize]: exactly 32 bytes. *)
Definition de_intent_digest (v : CborValue) : option bytes :=
  b ← de_byte_buf v;
  if (length b =? 32)%nat then Some b else None.

(** *** ProofR *)

(** [TryFrom<ProofRWire>] *)
Definition proof_r_try_from (w : ProofR) : Result AuthFrameError ProofR :=
  check_header (pr_protocol_version w) (pr_domain w);;
  reject_if (negb (String.eqb (pr_role w) ROLE_RESPONDER)) AE_RoleOrKindMismatch;;
  check_len (pr_h_final w) 32;;
  check_len (pr_self_cert_fingerprint w) 32;;
  check_len (pr_checkpoint_hash w) 32;;
  check_len (pr_checkpoint_event_head w) 32;;
  check_len (pr_sig w) 64;;
  Ok w.

Definition proof_r_new
    (h_final : bytes) (hh_id : string) (self_m_id : string) (self_cert_fingerprint : bytes)
    (checkpoint_hash : bytes) (checkpoint_sequence : Z) (checkpoint_event_head : bytes)
    (checkpoint_not_after : Z) (delegation : MeshSessionDelegation) (sig : bytes)
    : Result AuthFrameError ProofR :=
  proof_r_try_from (MkProofR PROTOCOL_VERSION DOMAIN ROLE_RESPONDER
    h_final hh_id self_m_id self_cert_fingerprint checkpoint_hash checkpoint_sequence
    checkpoint_event_head checkpoint_not_after delegation sig).

Definition proof_r_fields (f : ProofR) : list (string * CborValue) :=
  [("protocol_version", CV_Integer (pr_protocol_version f));
   ("domain", CV_Text (pr_domain f));
   ("role", CV_Text (pr_role f));
   ("h_final", CV_Bytes (pr_h_final f));
   ("hh_id", CV_Text (pr_hh_id f));
   ("self_m_id", CV_Text (pr_self_m_id f));
   ("self_cert_fingerprint", CV_Bytes (pr_self_cert_fingerprint f));
   ("checkpoint_hash", CV_Bytes (pr_checkpoint_hash f));
   ("checkpoint_sequence", CV_Integer (pr_checkpoint_sequence f));
   ("checkpoint_event_head", CV_Bytes (pr_checkpoint_event_head f));
   ("checkpoint_not_after", CV_Integer (pr_checkpoint_not_after f));
   ("delegation", to_value (pr_delegation f));
   ("sig", CV_Bytes (pr_sig f))].

Definition proof_r_names : list string :=
  ["protocol_version"; "domain"; "role"; "h_final"; "hh_id"; "self_m_id";
   "self_cert_fingerprint"; "checkpoint_hash"; "checkpoint_sequence"; "checkpoint_event_head";
   "checkpoint_not_after"; "delegation"; "sig"].

Definition proof_r_build (get : string → option CborValue) : option ProofR :=
  protocol_version ← get "protocol_version" ≫= de_u64;
  domain ← get "domain" ≫= de_string;
  role ← get "role" ≫= de_string;
  h_final ← get "h_final" ≫= de_byte_buf;
  hh_id ← get "hh_id" ≫= de_string;
  self_m_id ← get "self_m_id" ≫= de_string;
  self_cert_fingerprint ← get "self_cert_fingerprint" ≫= de_byte_buf;
  checkpoint_hash ← get "checkpoint_hash" ≫= de_byte_buf;
  checkpoint_sequence ← get "checkpoint_sequence" ≫= de_u64;
  checkpoint_event_head ← get "checkpoint_event_head" ≫= de_byte_buf;
  checkpoint_not_after ← get "checkpoint_not_after" ≫= de_u64;
  delegation ← get "delegation" ≫= of_value;
  sig ← get "sig" ≫= de_byte_buf;
  Some (MkProofR
    protocol_version domain role h_final hh_id self_m_id self_cert_fingerprint checkpoint_hash
    checkpoint_sequence checkpoint_event_head checkpoint_not_after delegation sig).

#[export] Instance ProofR_serde : Serde ProofR :=
  {| to_value := λ f, to_struct (proof_r_fields f);
     of_value := λ v, of_struct proof_r_names proof_r_build v ≫= λ w, result_ok (proof_r_try_from w) |}.

#[export] Instance ProofR_body : AuthFrameBody ProofR :=
  {| TYPE_BYTE := TYPE_PROOF_R;
     with_sig_bytes := λ sig f, MkProofR
       (pr_protocol_version f) (pr_domain f) (pr_role f) (pr_h_final f) (pr_hh_id f)
       (pr_self_m_id f) (pr_self_cert_fingerprint f) (pr_checkpoint_hash f)
       (pr_checkpoint_sequence f) (pr_checkpoint_event_head f) (pr_checkpoint_not_after f)
       (pr_delegation f) sig |}.

(** *** ProofI *)

(** [TryFrom<ProofIWire>] *)
Definition proof_i_try_from (w : ProofI) : Result AuthFrameError ProofI :=
  check_header (pi_protocol_version w) (pi_domain w);;
  reject_if (negb (String.eqb (pi_role w) ROLE_INITIATOR)) AE_RoleOrKindMismatch;;
  check_len (pi_h_final w) 32;;
  check_len (pi_self_cert_fingerprint w) 32;;
  check_len (pi_expected_peer_cert_fingerprint w) 32;;
  check_len (pi_checkpoint_hash w) 32;;
  check_len (pi_checkpoint_event_head w) 32;;
  check_len (pi_sig w) 64;;
  Ok w.

Definition proof_i_new
    (h_final : bytes) (hh_id : string) (self_m_id : string) (expected_peer_m_id : string)
    (self_cert_fingerprint : bytes) (expected_peer_cert_fingerprint : bytes)
    (checkpoint_hash : bytes) (checkpoint_sequence : Z) (checkpoint_event_head : bytes)
    (checkpoint_not_after : Z) (delegation : MeshSessionDelegation)
    (connection_intent_digest : bytes) (sig : bytes)
    : Result AuthFrameError ProofI :=
  proof_i_try_from (MkProofI PROTOCOL_VERSION DOMAIN ROLE_INITIATOR
    h_final hh_id self_m_id expected_peer_m_id self_cert_fingerprint
    expected_peer_cert_fingerprint checkpoint_hash checkpoint_sequence checkpoint_event_head
    checkpoint_not_after delegation connection_intent_digest sig).

Definition proof_i_fields (f : ProofI) : list (string * CborValue) :=
  [("protocol_version", CV_Integer (pi_protocol_version f));
   ("domain", CV_Text (pi_domain f));
   ("role", CV_Text (pi_role f));
   ("h_final", CV_Bytes (pi_h_final f));
   ("hh_id", CV_Text (pi_hh_id f));
   ("self_m_id", CV_Text (pi_self_m_id f));
   ("expected_peer_m_id", CV_Text (pi_expected_peer_m_id f));
   ("self_cert_fingerprint", CV_Bytes (pi_self_cert_fingerprint f));
   ("expected_peer_cert_fingerprint", CV_Bytes (pi_expected_peer_cert_fingerprint f));
   ("checkpoint_hash", CV_Bytes (pi_checkpoint_hash f));
   ("checkpoint_sequence", CV_Integer (pi_checkpoint_sequence f));
   ("checkpoint_event_head", CV_Bytes (pi_checkpoint_event_head f));
   ("checkpoint_not_after", CV_Integer (pi_checkpoint_not_after f));
   ("delegation", to_value (pi_delegation f));
   ("connection_intent_digest", CV_Bytes (pi_connection_intent_digest f));
   ("sig", CV_Bytes (pi_sig f))].

Definition proof_i_names : list string :=
  ["protocol_version"; "domain"; "role"; "h_final"; "hh_id"; "self_m_id"; "expected_peer_m_id";
   "self_cert_fingerprint"; "expected_peer_cert_fingerprint"; "checkpoint_hash";
   "checkpoint_sequence"; "checkpoint_event_head"; "checkpoint_not_after"; "delegation";
   "connection_intent_digest"; "sig"].

Definition proof_i_build (get : string → option CborValue) : option ProofI :=
  protocol_version ← get "protocol_version" ≫= de_u64;
  domain ← get "domain" ≫= de_string;
  role ← get "role" ≫= de_string;
  h_final ← get "h_final" ≫= de_byte_buf;
  hh_id ← get "hh_id" ≫= de_string;
  self_m_id ← get "self_m_id" ≫= de_string;
  expected_peer_m_id ← get "expected_peer_m_id" ≫= de_string;
  self_cert_fingerprint ← get "self_cert_fingerprint" ≫= de_byte_buf;
  expected_peer_cert_fingerprint ← get "expected_peer_cert_fingerprint" ≫= de_byte_buf;
  checkpoint_hash ← get "checkpoint_hash" ≫= de_byte_buf;
  checkpoint_sequence ← get "checkpoint_sequence" ≫= de_u64;
  checkpoint_event_head ← get "checkpoint_event_head" ≫= de_byte_buf;
  checkpoint_not_after ← get "checkpoint_not_after" ≫= de_u64;
  delegation ← get "delegation" ≫= of_value;
  connection_intent_digest ← get "connection_intent_digest" ≫= de_intent_digest;
  sig ← get "sig" ≫= de_byte_buf;
  Some (MkProofI
    protocol_version domain role h_final hh_id self_m_id expected_peer_m_id
    self_cert_fingerprint expected_peer_cert_fingerprint checkpoint_hash checkpoint_sequence
    checkpoint_event_head checkpoint_not_after delegation connection_intent_digest sig).

#[export] Instance ProofI_serde : Serde ProofI :=
  {| to_value := λ f, to_struct (proof_i_fields f);
     of_value := λ v, of_struct proof_i_names proof_i_build v ≫= λ w, result_ok (proof_i_try_from w) |}.

#[export] Instance ProofI_body : AuthFrameBody ProofI :=
  {| TYPE_BYTE := TYPE_PROOF_I;
     with_sig_bytes := λ sig f, MkProofI
       (pi_protocol_version f) (pi_domain f) (pi_role f) (pi_h_final f) (pi_hh_id f)
       (pi_self_m_id f) (pi_expected_peer_m_id f) (pi_self_cert_fingerprint f)
       (pi_expected_peer_cert_fingerprint f) (pi_checkpoint_hash f) (pi_checkpoint_sequence f)
       (pi_checkpoint_event_head f) (pi_checkpoint_not_after f) (pi_delegation f)
       (pi_connection_intent_digest f) sig |}.

(** *** FinalConfirm *)

(** [TryFrom<FinalConfirmWire>] *)
Definition final_confirm_try_from (w : FinalConfirm) : Result AuthFrameError FinalConfirm :=
  check_header (fc_protocol_version w) (fc_domain w);;
  reject_if (negb (String.eqb (fc_kind w) KIND_FINAL_CONFIRM)) AE_RoleOrKindMismatch;;
  check_len (fc_h_final w) 32;;
  check_len (fc_initiator_cert_fingerprint w) 32;;
  check_len (fc_sig w) 64;;
  Ok w.

Definition final_confirm_new
    (h_final : bytes) (initiator_m_id : string) (initiator_cert_fingerprint : bytes)
    (responder_m_id : string) (sig : bytes)
    : Result AuthFrameError FinalConfirm :=
  final_confirm_try_from (MkFinalConfirm PROTOCOL_VERSION DOMAIN KIND_FINAL_CONFIRM
    h_final initiator_m_id initiator_cert_fingerprint responder_m_id sig).

Definition final_confirm_fields (f : FinalConfirm) : list (string * CborValue) :=
  [("protocol_version", CV_Integer (fc_protocol_version f));
   ("domain", CV_Text (fc_domain f));
   ("kind", CV_Text (fc_kind f));
   ("h_final", CV_Bytes (fc_h_final f));
   ("initiator_m_id", CV_Text (fc_initiator_m_id f));
   ("initiator_cert_fingerprint", CV_Bytes (fc_initiator_cert_fingerprint f));
   ("responder_m_id", CV_Text (fc_responder_m_id f));
   ("sig", CV_Bytes (fc_sig f))].

Definition final_confirm_names : list string :=
  ["protocol_version"; "domain"; "kind"; "h_final"; "initiator_m_id";
   "initiator_cert_fingerprint"; "responder_m_id"; "sig"].

Definition final_confirm_build (get : string → option CborValue) : option FinalConfirm :=
  protocol_version ← get "protocol_version" ≫= de_u64;
  domain ← get "domain" ≫= de_string;
  kind ← get "kind" ≫= de_string;
  h_final ← get "h_final" ≫= de_byte_buf;
  initiator_m_id ← get "initiator_m_id" ≫= de_string;
  initiator_cert_fingerprint ← get "initiator_cert_fingerprint" ≫= de_byte_buf;
  responder_m_id ← get "responder_m_id" ≫= de_string;
  sig ← get "sig" ≫= de_byte_buf;
  Some (MkFinalConfirm
    protocol_version domain kind h_final initiator_m_id initiator_cert_fingerprint
    responder_m_id sig).

#[export] Instance FinalConfirm_serde : Serde FinalConfirm :=
  {| to_value := λ f, to_struct (final_confirm_fields f);
     of_value := λ v, of_struct final_confirm_names final_confirm_build v ≫= λ w, result_ok (final_confirm_try_from w) |}.

#[export] Instance FinalConfirm_body : AuthFrameBody FinalConfirm :=
  {| TYPE_BYTE := TYPE_FINAL_CONFIRM;
     with_sig_bytes := λ sig f, MkFinalConfirm
       (fc_protocol_version f) (fc_domain f) (fc_kind f) (fc_h_final f) (fc_initiator_m_id f)
       (fc_initiator_cert_fingerprint f) (fc_responder_m_id f) sig |}.

(** *** Activate *)

(** [TryFrom<ActivateWire>] *)
Definition activate_try_from (w : Activate) : Result AuthFrameError Activate :=
  check_header (ac_protocol_version w) (ac_domain w);;
  reject_if (negb (String.eqb (ac_kind w) KIND_ACTIVATE)) AE_RoleOrKindMismatch;;
  check_len (ac_h_final w) 32;;
  check_len (ac_final_confirm_digest w) 32;;
  check_len (ac_sig w) 64;;
  Ok w.

Definition activate_new
    (h_final : bytes) (responder_m_id : string) (final_confirm_digest : bytes) (sig : bytes)
    : Result AuthFrameError Activate :=
  activate_try_from (MkActivate PROTOCOL_VERSION DOMAIN KIND_ACTIVATE
    h_final responder_m_id final_confirm_digest sig).

Definition activate_fields (f : Activate) : list (string * CborValue) :=
  [("protocol_version", CV_Integer (ac_protocol_version f));
   ("domain", CV_Text (ac_domain f));
   ("kind", CV_Text (ac_kind f));
   ("h_final", CV_Bytes (ac_h_final f));
   ("responder_m_id", CV_Text (ac_responder_m_id f));
   ("final_confirm_digest", CV_Bytes (ac_final_confirm_digest f));
   ("sig", CV_Bytes (ac_sig f))].

Definition activate_names : list string :=
  ["protocol_version"; "domain"; "kind"; "h_final"; "responder_m_id"; "final_confirm_digest";
   "sig"].

Definition activate_build (get : string → option CborValue) : option Activate :=
  protocol_version ← get "protocol_version" ≫= de_u64;
  domain ← get "domain" ≫= de_string;
  kind ← get "kind" ≫= de_string;
  h_final ← get "h_final" ≫= de_byte_buf;
  responder_m_id ← get "responder_m_id" ≫= de_string;
  final_confirm_digest ← get "final_confirm_digest" ≫= de_byte_buf;
  sig ← get "sig" ≫= de_byte_buf;
  Some (MkActivate
    protocol_version domain kind h_final responder_m_id final_confirm_digest sig).

#[export] Instance Activate_serde : Serde Activate :=
  {| to_value := λ f, to_struct (activate_fields f);
     of_value := λ v, of_struct activate_names activate_build v ≫= λ w, result_ok (activate_try_from w) |}.

#[export] Instance Activate_body : AuthFrameBody Activate :=
  {| TYPE_BYTE := TYPE_ACTIVATE;
     with_sig_bytes := λ sig f, MkActivate
       (ac_protocol_version f) (ac_domain f) (ac_kind f) (ac_h_final f) (ac_responder_m_id f)
       (ac_final_confirm_digest f) sig |}.

(** *** ActivateAck *)

(** [TryFrom<ActivateAckWire>] *)
Definition activate_ack_try_from (w : ActivateAck) : Result AuthFrameError ActivateAck :=
  check_header (aa_protocol_version w) (aa_domain w);;
  reject_if (negb (String.eqb (aa_kind w) KIND_ACTIVATE_ACK)) AE_RoleOrKindMismatch;;
  check_len (aa_h_final w) 32;;
  check_len (aa_activate_digest w) 32;;
  check_len (aa_sig w) 64;;
  Ok w.

Definition activate_ack_new
    (h_final : bytes) (responder_m_id : string) (activate_digest : bytes) (sig : bytes)
    : Result AuthFrameError ActivateAck :=
  activate_ack_try_from (MkActivateAck PROTOCOL_VERSION DOMAIN KIND_ACTIVATE_ACK
    h_final responder_m_id activate_digest sig).

Definition activate_ack_fields (f : ActivateAck) : list (string * CborValue) :=
  [("protocol_version", CV_Integer (aa_protocol_version f));
   ("domain", CV_Text (aa_domain f));
   ("kind", CV_Text (aa_kind f));
   ("h_final", CV_Bytes (aa_h_final f));
   ("responder_m_id", CV_Text (aa_responder_m_id f));
   ("activate_digest", CV_Bytes (aa_activate_digest f));
   ("sig", CV_Bytes (aa_sig f))].

Definition activate_ack_names : list string :=
  ["protocol_version"; "domain"; "kind"; "h_final"; "responder_m_id"; "activate_digest"; "sig"].

Definition activate_ack_build (get : string → option CborValue) : option ActivateAck :=
  protocol_version ← get "protocol_version" ≫= de_u64;
  domain ← get "domain" ≫= de_string;
  kind ← get "kind" ≫= de_string;
  h_final ← get "h_final" ≫= de_byte_buf;
  responder_m_id ← get "responder_m_id" ≫= de_string;
  activate_digest ← get "activate_digest" ≫= de_byte_buf;
  sig ← get "sig" ≫= de_byte_buf;
  Some (MkActivateAck
    protocol_version domain kind h_final responder_m_id activate_digest sig).

#[export] Instance ActivateAck_serde : Serde ActivateAck :=
  {| to_value := λ f, to_struct (activate_ack_fields f);
     of_value := λ v, of_struct activate_ack_names activate_ack_build v ≫= λ w, result_ok (activate_ack_try_from w) |}.

#[export] Instance ActivateAck_body : AuthFrameBody ActivateAck :=
  {| TYPE_BYTE := TYPE_ACTIVATE_ACK;
     with_sig_bytes := λ sig f, MkActivateAck
       (aa_protocol_version f) (aa_domain f) (aa_kind f) (aa_h_final f) (aa_responder_m_id f)
       (aa_activate_digest f) sig |}.

(** ** Preimages and digests *)

(** [MeshSessionFramePreimage::for_frame] *)
Definition for_frame `{!Serde F, !AuthFrameBody F} (frame : F) : Result AuthFrameError bytes :=
  unsigned ← map_err AE_Cbor (unsigned_preimage_body frame);
  Ok (TYPE_BYTE :: unsigned).

(** [digest_for_frame], [frame_digest] *)
Definition frame_digest `{!Serde F, !AuthFrameBody F} (frame : F) : Result AuthFrameError bytes :=
  full ← map_err AE_Cbor (to_canonical_vec frame);
  Ok (sha256 (TYPE_BYTE :: full)).

(** ** The closed set of frames *)

Inductive AuthFrame :=
| AF_ProofR (f : ProofR)
| AF_ProofI (f : ProofI)
| AF_FinalConfirm (f : FinalConfirm)
| AF_Activate (f : Activate)
| AF_ActivateAck (f : ActivateAck).

Definition encode_auth_frame (frame : AuthFrame) : Result AuthFrameError bytes :=
  '(type_byte, body_cbor) ←
    match frame with
    | AF_ProofR f => b ← map_err AE_Cbor (to_canonical_vec f); Ok (TYPE_PROOF_R, b)
    | AF_ProofI f => b ← map_err AE_Cbor (to_canonical_vec f); Ok (TYPE_PROOF_I, b)
    | AF_FinalConfirm f => b ← map_err AE_Cbor (to_canonical_vec f); Ok (TYPE_FINAL_CONFIRM, b)
    | AF_Activate f => b ← map_err AE_Cbor (to_canonical_vec f); Ok (TYPE_ACTIVATE, b)
    | AF_ActivateAck f => b ← map_err AE_Cbor (to_canonical_vec f); Ok (TYPE_ACTIVATE_ACK, b)
    end;
  map_err AE_Wire (encode_typed_frame type_byte body_cbor).

Definition decode_auth_frame (plaintext : bytes) : Result AuthFrameError AuthFrame :=
  '(type_byte, body) ← map_err AE_Wire (decode_typed_frame plaintext);
  if bool_decide (type_byte = TYPE_PROOF_R) then
    f ← map_err AE_Cbor (from_canonical_bytes body); Ok (AF_ProofR f)
  else if bool_decide (type_byte = TYPE_PROOF_I) then
    f ← map_err AE_Cbor (from_canonical_bytes body); Ok (AF_ProofI f)
  else if bool_decide (type_byte = TYPE_FINAL_CONFIRM) then
    f ← map_err AE_Cbor (from_canonical_bytes body); Ok (AF_FinalConfirm f)
  else if bool_decide (type_byte = TYPE_ACTIVATE) then
    f ← map_err AE_Cbor (from_canonical_bytes body); Ok (AF_Activate f)
  else if bool_decide (type_byte = TYPE_ACTIVATE_ACK) then
    f ← map_err AE_Cbor (from_canonical_bytes body); Ok (AF_ActivateAck f)
  else Err (AE_Wire (WE_UnknownTypeByte type_byte)).

(** ** Signing and verification *)

Definition parse_low_s_signature (signature : bytes) : Result AuthFrameError Signature :=
  sig ← ok_or (signature_from_slice signature) AE_InvalidSignatureScalar;
  reject_if (is_some (normalize_s sig)) AE_HighSRejected;;
  Ok sig.

(** [RawP256FrameVerifier::verify_mesh_session_frame] *)
Definition verify_mesh_session_frame (key : VerifyingKey) (preimage signature : bytes)
    : Result AuthFrameError unit :=
  sig ← parse_low_s_signature signature;
  reject_if (negb (ecdsa_verify key preimage sig)) AE_BadSignature.

Definition verifier_from_delegated_pub (delegated_pub : bytes) : Result AuthFrameError VerifyingKey :=
  ok_or (from_sec1_bytes delegated_pub) AE_BadSignature.

(** [sign] is the signer's [sign_mesh_session_frame] on the state it may
    touch, [public_key] the key it reports. *)
Definition sign_frame {S} `{!Serde F, !AuthFrameBody F} (sign : bytes → ST S AuthFrameError bytes)
    (public_key : VerifyingKey) (frame : F) : ST S AuthFrameError F :=
  preimage ← lift (for_frame frame);
  sig_bytes ← sign preimage;
  sig ← lift (parse_low_s_signature sig_bytes);
  lift (reject_if (negb (ecdsa_verify public_key preimage sig)) AE_SignerProducedInvalidSignature);;
  mret (with_sig_bytes sig_bytes frame).

Definition verify_frame `{!Serde F, !AuthFrameBody F} (frame : F) (sig : bytes)
    (verifier : VerifyingKey) : Result AuthFrameError unit :=
  preimage ← for_frame frame;
  verify_mesh_session_frame verifier preimage sig.
End auth_frames.

(** ** Lemmas *)

(** A checked construction keeps the value it checks. *)
Ltac try_from_same := intros Ht; repeat (apply bind_Ok in Ht as ([] & _ & Ht)); by injection Ht as <-.

(** Everything a frame decodes to is valid. *)
Tactic Notation "frame_sound" reference(inst) constr(same) reference(build) :=
  intros v f Hf; cbn [of_value inst] in Hf; apply bind_Some in Hf as (w & Hw & Hf);
  let Ht := fresh "Ht" in let E := fresh "E" in
  match type of Hf with result_ok ?r = _ => destruct r eqn:Ht; cbn in Hf; [|done] end;
  injection Hf as <-; pose proof (same _ _ Ht) as E; subst;
  apply of_struct_Some in Hw as [get Hw]; unfold build in Hw; build_inv Hw; injection Hw as <-;
  split; first [done|by eauto with serde].

Section frame_lemmas.
Context `{!CborCrate, !CborLaws, !SessionCrypto}.

Lemma nested_delegation_Allowed (d : MeshSessionDelegation) : delegation_valid d → Allowed (to_value d).
Proof. apply serde_allowed. Qed.

Lemma nested_delegation_plain (d : MeshSessionDelegation) : delegation_valid d → plain (to_value d) = true.
Proof. apply serde_plain. Qed.

Lemma nested_delegation_depth (d : MeshSessionDelegation) : (depth (to_value d) ≤ 2)%nat.
Proof. cbn [to_value MeshSessionDelegation_serde]. apply delegation_depth. Qed.

Hint Resolve nested_delegation_Allowed nested_delegation_plain nested_delegation_depth : serde.

Lemma frame_depth fields :
  Forall (λ f, (depth f.2 ≤ 2)%nat) fields → (depth (to_struct fields) ≤ recursion_limit)%nat.
Proof. intros ?%to_struct_depth. pose proof cbor_recursion_limit. lia. Qed.

Lemma de_intent_digest_bytes b : length b = 32%nat → de_intent_digest (CV_Bytes b) = Some b.
Proof. intros Hb. unfold de_intent_digest. rewrite de_byte_buf_bytes. cbn. by rewrite Hb. Qed.

(** *** Every frame a program can hold *)

Record proof_r_valid (f : ProofR) : Prop := {
  prv_protocol_version : in_u64 (pr_protocol_version f);
  prv_checkpoint_sequence : in_u64 (pr_checkpoint_sequence f);
  prv_checkpoint_not_after : in_u64 (pr_checkpoint_not_after f);
  prv_delegation : delegation_valid (pr_delegation f);
  prv_shape : proof_r_try_from f = Ok f;
}.

#[export] Instance ProofR_laws : SerdeLaws ProofR proof_r_valid.
Proof.
  split; intros f []; cbn [to_value of_value ProofR_serde].
  - struct_allowed.
  - struct_plain.
  - apply frame_depth. solve_fields.
  - unfold proof_r_fields. struct_lookup. unfold proof_r_build. struct_leaves.
    rewrite serde_decode by done. cbn [mbind option_bind].
    destruct f; cbn in *. by rewrite prv_shape0.
Qed.

Record proof_i_valid (f : ProofI) : Prop := {
  piv_protocol_version : in_u64 (pi_protocol_version f);
  piv_checkpoint_sequence : in_u64 (pi_checkpoint_sequence f);
  piv_checkpoint_not_after : in_u64 (pi_checkpoint_not_after f);
  piv_delegation : delegation_valid (pi_delegation f);
  piv_connection_intent_digest : length (pi_connection_intent_digest f) = 32%nat;
  piv_shape : proof_i_try_from f = Ok f;
}.

#[export] Instance ProofI_laws : SerdeLaws ProofI proof_i_valid.
Proof.
  split; intros f []; cbn [to_value of_value ProofI_serde].
  - struct_allowed.
  - struct_plain.
  - apply frame_depth. solve_fields.
  - unfold proof_i_fields. struct_lookup. unfold proof_i_build. struct_leaves.
    rewrite serde_decode by done. cbn [mbind option_bind].
    rewrite de_intent_digest_bytes by done. cbn [mbind option_bind].
    destruct f; cbn in *. by rewrite piv_shape0.
Qed.

Record final_confirm_valid (f : FinalConfirm) : Prop := {
  fcv_protocol_version : in_u64 (fc_protocol_version f);
  fcv_shape : final_confirm_try_from f = Ok f;
}.

#[export] Instance FinalConfirm_laws : SerdeLaws FinalConfirm final_confirm_valid.
Proof.
  split; intros f []; cbn [to_value of_value FinalConfirm_serde].
  - struct_allowed.
  - struct_plain.
  - apply frame_depth. solve_fields.
  - unfold final_confirm_fields. struct_lookup. unfold final_confirm_build. struct_leaves.
    destruct f; cbn in *. by rewrite fcv_shape0.
Qed.

Record activate_valid (f : Activate) : Prop := {
  acv_protocol_version : in_u64 (ac_protocol_version f);
  acv_shape : activate_try_from f = Ok f;
}.

#[export] Instance Activate_laws : SerdeLaws Activate activate_valid.
Proof.
  split; intros f []; cbn [to_value of_value Activate_serde].
  - struct_allowed.
  - struct_plain.
  - apply frame_depth. solve_fields.
  - unfold activate_fields. struct_lookup. unfold activate_build. struct_leaves.
    destruct f; cbn in *. by rewrite acv_shape0.
Qed.

Record activate_ack_valid (f : ActivateAck) : Prop := {
  aav_protocol_version : in_u64 (aa_protocol_version f);
  aav_shape : activate_ack_try_from f = Ok f;
}.

#[export] Instance ActivateAck_laws : SerdeLaws ActivateAck activate_ack_valid.
Proof.
  split; intros f []; cbn [to_value of_value ActivateAck_serde].
  - struct_allowed.
  - struct_plain.
  - apply frame_depth. solve_fields.
  - unfold activate_ack_fields. struct_lookup. unfold activate_ack_build. struct_leaves.
    destruct f; cbn in *. by rewrite aav_shape0.
Qed.

(** *** Decoding yields valid frames *)

Lemma de_intent_digest_length v b : de_intent_digest v = Some b → length b = 32%nat.
Proof.
  unfold de_intent_digest. intros Hb. apply bind_Some in Hb as (b' & _ & Hb).
  destruct (Nat.eqb_spec (length b') 32); [by injection Hb as <-|done].
Qed.

Hint Resolve de_intent_digest_length : serde.

Lemma proof_r_try_from_same w f : proof_r_try_from w = Ok f → f = w.
Proof. unfold proof_r_try_from. try_from_same. Qed.
Lemma proof_i_try_from_same w f : proof_i_try_from w = Ok f → f = w.
Proof. unfold proof_i_try_from. try_from_same. Qed.
Lemma final_confirm_try_from_same w f : final_confirm_try_from w = Ok f → f = w.
Proof. unfold final_confirm_try_from. try_from_same. Qed.
Lemma activate_try_from_same w f : activate_try_from w = Ok f → f = w.
Proof. unfold activate_try_from. try_from_same. Qed.
Lemma activate_ack_try_from_same w f : activate_ack_try_from w = Ok f → f = w.
Proof. unfold activate_ack_try_from. try_from_same. Qed.

#[export] Instance ProofR_sound : SerdeSound ProofR proof_r_valid.
Proof. frame_sound ProofR_serde proof_r_try_from_same proof_r_build. Qed.
#[export] Instance ProofI_sound : SerdeSound ProofI proof_i_valid.
Proof. frame_sound ProofI_serde proof_i_try_from_same proof_i_build. Qed.
#[export] Instance FinalConfirm_sound : SerdeSound FinalConfirm final_confirm_valid.
Proof. frame_sound FinalConfirm_serde final_confirm_try_from_same final_confirm_build. Qed.
#[export] Instance Activate_sound : SerdeSound Activate activate_valid.
Proof. frame_sound Activate_serde activate_try_from_same activate_build. Qed.
#[export] Instance ActivateAck_sound : SerdeSound ActivateAck activate_ack_valid.
Proof. frame_sound ActivateAck_serde activate_ack_try_from_same activate_ack_build. Qed.

(** *** Encoding the closed set *)

Definition auth_frame_valid (f : AuthFrame) : Prop :=
  match f with
  | AF_ProofR f => proof_r_valid f
  | AF_ProofI f => proof_i_valid f
  | AF_FinalConfirm f => final_confirm_valid f
  | AF_Activate f => activate_valid f
  | AF_ActivateAck f => activate_ack_valid f
  end.

Definition frame_type (f : AuthFrame) : ascii :=
  match f with
  | AF_ProofR _ => TYPE_PROOF_R
  | AF_ProofI _ => TYPE_PROOF_I
  | AF_FinalConfirm _ => TYPE_FINAL_CONFIRM
  | AF_Activate _ => TYPE_ACTIVATE
  | AF_ActivateAck _ => TYPE_ACTIVATE_ACK
  end.

(** The canonical body of a frame. *)
Definition frame_body (f : AuthFrame) : Result CborError bytes :=
  match f with
  | AF_ProofR f => to_canonical_vec f
  | AF_ProofI f => to_canonical_vec f
  | AF_FinalConfirm f => to_canonical_vec f
  | AF_Activate f => to_canonical_vec f
  | AF_ActivateAck f => to_canonical_vec f
  end.

Lemma encode_auth_frame_alt f :
  encode_auth_frame f =
    (b ← map_err AE_Cbor (frame_body f); map_err AE_Wire (encode_typed_frame (frame_type f) b)).
Proof. unfold encode_auth_frame. destruct f; cbn [frame_body]; by destruct (to_canonical_vec _). Qed.

Lemma frame_body_Ok f : auth_frame_valid f → ∃ b, frame_body f = Ok b.
Proof.
  destruct f; cbn [auth_frame_valid frame_body]; intros Hv;
    destruct (serde_encodes _ Hv) as (b & Hb & _); eauto.
Qed.

(** A valid frame whose body is within the ceiling encodes. *)
Lemma encode_auth_frame_Ok f b :
  auth_frame_valid f → frame_body f = Ok b → Z.of_nat (length b) ≤ MAX_CBOR_BODY_LEN →
  encode_auth_frame f = Ok (frame_type f :: b).
Proof.
  intros Hv Hb Hlen. rewrite encode_auth_frame_alt, Hb. cbn. unfold encode_typed_frame.
  assert (check_typed_body b = Ok tt) as ->; [|done].
  destruct f; cbn [auth_frame_valid frame_body] in *;
    (eapply (check_typed_struct _ _ _ Hv); [reflexivity|by_decide|reflexivity|exact Hb|exact Hlen]).
Qed.

Lemma decode_encode_frame f p :
  auth_frame_valid f → encode_auth_frame f = Ok p → decode_auth_frame p = Ok f.
Proof.
  intros Hv He. rewrite encode_auth_frame_alt in He.
  apply bind_Ok in He as (b & Hb%map_err_Ok & He%map_err_Ok).
  unfold decode_auth_frame. rewrite (decode_encode_typed _ _ _ He). cbn [map_err mbind Result_bind].
  destruct f; cbn [auth_frame_valid frame_body frame_type] in *;
    rewrite ?(bool_decide_false (_ = _)) by (intros [=]); rewrite bool_decide_true by done;
    destruct (serde_encodes _ Hv) as (b' & Hb' & _ & _ & _ & Hdec);
    rewrite Hb in Hb'; injection Hb' as <-; by rewrite Hdec.
Qed.

(** Every decoded frame is valid. *)
Lemma decode_auth_frame_valid p f : decode_auth_frame p = Ok f → auth_frame_valid f.
Proof.
  unfold decode_auth_frame. intros Hf. apply bind_Ok in Hf as ([t b] & _ & Hf).
  repeat (case_bool_decide; [apply bind_Ok in Hf as (g & Hg%map_err_Ok & [= <-]);
    by apply from_canonical_bytes_valid in Hg|]). done.
Qed.

(** A decoded frame passed its construction checks. *)
Lemma from_canonical_try_from `{!Serde T} (wire : CborValue → option T)
    (try_from : T → Result AuthFrameError T) b f :
  (∀ v, of_value v = wire v ≫= λ w, result_ok (try_from w)) →
  from_canonical_bytes b = Ok f → verify_canonical b = Ok tt ∧ ∃ w, try_from w = Ok f.
Proof.
  intros Hof Hf. unfold from_canonical_bytes in Hf. apply bind_Ok in Hf as ([] & Hv & Hf).
  split; [done|]. apply bind_Ok in Hf as ([v n] & _ & Hf%ok_or_Ok).
  rewrite Hof in Hf. apply bind_Some in Hf as (w & _ & Hw). exists w.
  destruct (try_from w); cbn in Hw; [congruence|done].
Qed.

(** *** Preimages *)

(** Two values with the same preimage agree on every field but [sig]. *)
Lemma unsigned_preimage_fields `{!Serde T, !SerdeLaws T valid} (fields : T → list (string * CborValue))
    (x y : T) p :
  (∀ z, to_value z = to_struct (fields z)) → (∀ z, NoDup (fields z).*1) →
  (∀ z, ∃ v, assoc "sig" (fields z) = Some v) → valid x → valid y →
  unsigned_preimage_body x = Ok p → unsigned_preimage_body y = Ok p →
  ∀ n, n ≠ "sig" → canonicalize <$> assoc n (fields x) = canonicalize <$> assoc n (fields y).
Proof.
  intros Hto Hnd Hsig Hx Hy Hpx Hpy n Hn.
  destruct (unsigned_preimage_struct x (fields x) Hx (Hto x) (Hnd x) (Hsig x)) as (p1 & es1 & Hp1 & Hr1 & Hf1 & _).
  destruct (unsigned_preimage_struct y (fields y) Hy (Hto y) (Hnd y) (Hsig y)) as (p2 & es2 & Hp2 & Hr2 & Hf2 & _).
  rewrite Hpx in Hp1. rewrite Hpy in Hp2. injection Hp1 as <-. injection Hp2 as <-.
  rewrite Hr1 in Hr2. injection Hr2 as <-. by rewrite <-Hf1, <-Hf2.
Qed.

Lemma serde_canonical_inj `{!Serde T, !SerdeLaws T valid} (x y : T) :
  valid x → valid y → canonicalize (to_value x) = canonicalize (to_value y) → x = y.
Proof.
  intros Hx Hy Heq. apply (inj Some). rewrite <-(serde_decode x Hx), <-(serde_decode y Hy). by rewrite Heq.
Qed.

Lemma canonical_vec_inj `{!Serde T, !SerdeLaws T valid} (x y : T) b :
  valid x → valid y → to_canonical_vec x = Ok b → to_canonical_vec y = Ok b → x = y.
Proof.
  intros Hx Hy Hbx Hby.
  destruct (serde_encodes x Hx) as (b1 & Hp1 & _ & _ & _ & Hd1).
  destruct (serde_encodes y Hy) as (b2 & Hp2 & _ & _ & _ & Hd2).
  rewrite Hbx in Hp1. rewrite Hby in Hp2. congruence.
Qed.

Definition auth_preimage (f : AuthFrame) : Result AuthFrameError bytes :=
  match f with
  | AF_ProofR f => for_frame f
  | AF_ProofI f => for_frame f
  | AF_FinalConfirm f => for_frame f
  | AF_Activate f => for_frame f
  | AF_ActivateAck f => for_frame f
  end.

Definition erase_sig (f : AuthFrame) : AuthFrame :=
  match f with
  | AF_ProofR f => AF_ProofR (with_sig_bytes [] f)
  | AF_ProofI f => AF_ProofI (with_sig_bytes [] f)
  | AF_FinalConfirm f => AF_FinalConfirm (with_sig_bytes [] f)
  | AF_Activate f => AF_Activate (with_sig_bytes [] f)
  | AF_ActivateAck f => AF_ActivateAck (with_sig_bytes [] f)
  end.
End frame_lemmas.

(** Instantiates [H] (from [unsigned_preimage_fields]) at every name of [l]. *)
Ltac use_fields H l :=
  lazymatch l with
  | [] => idtac
  | "sig" :: ?l => use_fields H l
  | ?n :: ?l =>
      let E := fresh "E" in
      pose proof (H n ltac:(discriminate)) as E;
      cbn [assoc fmap option_fmap option_map String.eqb Ascii.eqb Bool.eqb canonicalize] in E;
      use_fields H l
  end.

Section preimage_lemmas.
Context `{!CborCrate, !CborLaws, !SessionCrypto}.

Ltac preimage_start fields :=
  intros Hf Hg Hpf Hpg; unfold for_frame in Hpf, Hpg;
  apply bind_Ok in Hpf as (b & Hbf%map_err_Ok & [= <-]);
  apply bind_Ok in Hpg as (b' & Hbg%map_err_Ok & Heq); injection Heq as ->;
  pose proof (unsigned_preimage_fields fields _ _ _ (λ _, eq_refl) ltac:(intros; by_decide)
    ltac:(intros; by eexists) Hf Hg Hbf Hbg) as Hfields.

Ltac preimage_end :=
  repeat match goal with
  | E : Some (CV_Integer _) = _ |- _ => injection E as E
  | E : Some (CV_Text _) = _ |- _ => injection E as E
  | E : Some (CV_Bytes _) = _ |- _ => injection E as E
  end; cbn in *; subst; reflexivity.

Lemma proof_r_preimage_inj (f g : ProofR) p :
  proof_r_valid f → proof_r_valid g → for_frame f = Ok p → for_frame g = Ok p →
  with_sig_bytes [] f = with_sig_bytes [] g.
Proof.
  preimage_start proof_r_fields. unfold proof_r_fields in Hfields.
  let l := eval unfold proof_r_names in proof_r_names in use_fields Hfields l.
  assert (pr_delegation f = pr_delegation g) as Hd.
  { destruct Hf, Hg. eapply serde_canonical_inj; [done..|]. congruence. }
  clear Hf Hg Hbf Hbg Hfields. destruct f, g. preimage_end.
Qed.

Lemma proof_i_preimage_inj (f g : ProofI) p :
  proof_i_valid f → proof_i_valid g → for_frame f = Ok p → for_frame g = Ok p →
  with_sig_bytes [] f = with_sig_bytes [] g.
Proof.
  preimage_start proof_i_fields. unfold proof_i_fields in Hfields.
  let l := eval unfold proof_i_names in proof_i_names in use_fields Hfields l.
  assert (pi_delegation f = pi_delegation g) as Hd.
  { destruct Hf, Hg. eapply serde_canonical_inj; [done..|]. congruence. }
  clear Hf Hg Hbf Hbg Hfields. destruct f, g. preimage_end.
Qed.

Lemma final_confirm_preimage_inj (f g : FinalConfirm) p :
  final_confirm_valid f → final_confirm_valid g → for_frame f = Ok p → for_frame g = Ok p →
  with_sig_bytes [] f = with_sig_bytes [] g.
Proof.
  preimage_start final_confirm_fields. unfold final_confirm_fields in Hfields.
  let l := eval unfold final_confirm_names in final_confirm_names in use_fields Hfields l.
  clear Hf Hg Hbf Hbg Hfields. destruct f, g. preimage_end.
Qed.

Lemma activate_preimage_inj (f g : Activate) p :
  activate_valid f → activate_valid g → for_frame f = Ok p → for_frame g = Ok p →
  with_sig_bytes [] f = with_sig_bytes [] g.
Proof.
  preimage_start activate_fields. unfold activate_fields in Hfields.
  let l := eval unfold activate_names in activate_names in use_fields Hfields l.
  clear Hf Hg Hbf Hbg Hfields. destruct f, g. preimage_end.
Qed.

Lemma activate_ack_preimage_inj (f g : ActivateAck) p :
  activate_ack_valid f → activate_ack_valid g → for_frame f = Ok p → for_frame g = Ok p →
  with_sig_bytes [] f = with_sig_bytes [] g.
Proof.
  preimage_start activate_ack_fields. unfold activate_ack_fields in Hfields.
  let l := eval unfold activate_ack_names in activate_ack_names in use_fields Hfields l.
  clear Hf Hg Hbf Hbg Hfields. destruct f, g. preimage_end.
Qed.

Lemma auth_preimage_head f p : auth_preimage f = Ok p → ∃ b, p = frame_type f :: b.
Proof.
  destruct f; cbn [auth_preimage frame_type]; unfold for_frame;
    intros Hp; apply bind_Ok in Hp as (b & _ & [= <-]); by eexists.
Qed.

Lemma auth_preimage_inj f g p :
  auth_frame_valid f → auth_frame_valid g → auth_preimage f = Ok p → auth_preimage g = Ok p →
  erase_sig f = erase_sig g.
Proof.
  intros Hf Hg Hpf Hpg.
  destruct (auth_preimage_head _ _ Hpf) as [b ->], (auth_preimage_head _ _ Hpg) as [b' [= Ht _]].
  destruct f, g; try discriminate Ht; cbn [auth_frame_valid auth_preimage erase_sig] in *; f_equal.
  - by eapply proof_r_preimage_inj.
  - by eapply proof_i_preimage_inj.
  - by eapply final_confirm_preimage_inj.
  - by eapply activate_preimage_inj.
  - by eapply activate_ack_preimage_inj.
Qed.
End preimage_lemmas.
