(* ===== verification/Intent.v ===== *)
(** * The signed connection intent

    Models [mesh-session-core-rs/src/intent.rs]: the 0x06 intent record, its
    digest and signature, the single-use [PendingIntent] token bound to
    signer, identity, delegation and checkpoint, and the values passed through
    the admission, nonce-ledger and resolver seams. [LocalIdentity],
    [LocalCheckpoint] and [ExpectedChannel] are from [auth_state_machine.rs]. *)

From stdpp Require Import base gmap sets list strings.
From Stdlib Require Import ZArith Lia Ascii.
From S2P Require Import Prelude.
From S2P Require Import Cbor.
From S2P Require Import CborProofs.
From S2P Require Import Wire.
From S2P Require Import Crypto.
From S2P Require Import SessionErrors.
From S2P Require Import Delegation.
From S2P Require Import AuthFrames.

Open Scope Z_scope.

Definition INTENT_TYPE_BYTE : ascii := byte_of 0x06.
Definition INTENT_DOMAIN : string := "soyeht/mesh-connection-intent/v1".
Definition INTENT_VERSION : Z := 1.

Inductive ExpectedChannel := EC_Dev | EC_Release.

#[export] Instance ExpectedChannel_eq_dec : EqDecision ExpectedChannel.
Proof. solve_decision. Defined.

Definition channel_as_str (c : ExpectedChannel) : string :=
  match c with EC_Dev => "dev" | EC_Release => "release" end.

Record LocalIdentity := MkLocalIdentity {
  li_hh_id : string;
  li_m_id : string;
  li_cert_fingerprint : bytes;
  li_delegation : MeshSessionDelegation;
}.

Record LocalCheckpoint := MkLocalCheckpoint {
  lc_hash : bytes;
  lc_sequence : Z;
  lc_event_head : bytes;
  lc_not_after : Z;
}.

(** [map_low_s_error] *)
Definition map_low_s_error (e : AuthFrameError) : IntentError :=
  match e with AE_HighSRejected => IE_HighSRejected | _ => IE_InvalidSignatureScalar end.

Definition check_intent_header (version : Z) (domain : string) : Result IntentError unit :=
  reject_if (negb (version =? INTENT_VERSION) || negb (String.eqb domain INTENT_DOMAIN))
    IE_VersionOrDomainMismatch.

Definition check_intent_len (b : bytes) (expected : nat) : Result IntentError unit :=
  reject_if (negb (length b =? expected)%nat) IE_ShapeMismatch.

Definition check_nonempty (s : string) : Result IntentError unit :=
  reject_if (String.eqb s "") IE_EmptyIdentifier.

(** [SignedMeshConnectionIntentWire] has the same fields. *)
Record SignedMeshConnectionIntent := MkIntent {
  in_version : Z;
  in_domain : string;
  in_hh_id : string;
  in_initiator_m_id : string;
  in_initiator_cert_fingerprint : bytes;
  in_target_m_id : string;
  in_target_cert_fingerprint : bytes;
  in_checkpoint_hash : bytes;
  in_delegated_key_id : string;
  in_nonce : bytes;
  in_not_after : Z;
  in_sig : bytes;
}.

(** [TryFrom<SignedMeshConnectionIntentWire>] *)
Definition intent_try_from (w : SignedMeshConnectionIntent)
    : Result IntentError SignedMeshConnectionIntent :=
  check_intent_header (in_version w) (in_domain w);;
  check_nonempty (in_hh_id w);;
  check_nonempty (in_initiator_m_id w);;
  check_nonempty (in_target_m_id w);;
  check_nonempty (in_delegated_key_id w);;
  check_intent_len (in_initiator_cert_fingerprint w) 32;;
  check_intent_len (in_target_cert_fingerprint w) 32;;
  check_intent_len (in_checkpoint_hash w) 32;;
  check_intent_len (in_nonce w) 32;;
  check_intent_len (in_sig w) 64;;
  Ok w.

Definition intent_new (hh_id initiator_m_id : string) (initiator_cert_fingerprint : bytes)
    (target_m_id : string) (target_cert_fingerprint checkpoint_hash : bytes)
    (delegated_key_id : string) (nonce : bytes) (not_after : Z) (sig : bytes)
    : Result IntentError SignedMeshConnectionIntent :=
  intent_try_from (MkIntent INTENT_VERSION INTENT_DOMAIN hh_id initiator_m_id
    initiator_cert_fingerprint target_m_id target_cert_fingerprint checkpoint_hash
    delegated_key_id nonce not_after sig).

Definition intent_with_sig (sig : bytes) (i : SignedMeshConnectionIntent)
    : SignedMeshConnectionIntent :=
  MkIntent (in_version i) (in_domain i) (in_hh_id i) (in_initiator_m_id i)
    (in_initiator_cert_fingerprint i) (in_target_m_id i) (in_target_cert_fingerprint i)
    (in_checkpoint_hash i) (in_delegated_key_id i) (in_nonce i) (in_not_after i) sig.

(** ** Values of the seams *)

Inductive NonceConsumeOutcome :=
| NC_Committed
| NC_AlreadyConsumed
| NC_MayHaveTakenEffect
| NC_Unavailable.

Record IntentNonceKey := MkIntentNonceKey {
  nk_hh_id : string;
  nk_initiator_m_id : string;
  nk_delegated_key_id : string;
  nk_nonce : bytes;
}.

Record D1MembershipKey := MkD1MembershipKey {
  mk_session_id : bytes;
  mk_hh_id : string;
  mk_peer_m_id : string;
  mk_peer_cert_fingerprint : bytes;
  mk_checkpoint_hash : bytes;
  mk_checkpoint_sequence : Z;
}.

Record ResolvedSignerAuthority := MkResolvedSignerAuthority {
  rs_delegated_pub : bytes;
  rs_generation : Z;
  rs_not_after : Z;
}.

Record IntentSignerBinding := MkIntentSignerBinding {
  sb_hh_id : string;
  sb_initiator_m_id : string;
  sb_channel : ExpectedChannel;
  sb_delegated_key_id : string;
  sb_delegated_pub : bytes;
  sb_generation : Z;
  sb_delegation_serial : Z;
  sb_not_after : Z;
}.

Definition signer_binding_new (hh_id initiator_m_id : string) (channel : ExpectedChannel)
    (delegated_key_id : string) (resolved : ResolvedSignerAuthority) (delegation_serial : Z)
    : IntentSignerBinding :=
  MkIntentSignerBinding hh_id initiator_m_id channel delegated_key_id (rs_delegated_pub resolved)
    (rs_generation resolved) delegation_serial (rs_not_after resolved).

(** The fail-closed defaults: [NoIntentLedgerConfigured], [NoClockConfigured],
    [NoRetainedGenerationResolverConfigured], [NoD1AdmissionConfigured]. *)
Definition no_ledger_configured : Result IntentError NonceConsumeOutcome := Err IE_NoLedgerConfigured.
Definition no_clock_configured : Result IntentError Z := Err IE_ClockUnavailable.
Definition no_resolver_configured : Result IntentError ResolvedSignerAuthority :=
  Err IE_NoRetainedGenerationResolverConfigured.
Definition no_d1_admission_configured : Result IntentError Empty_set := Err IE_NoD1AdmissionConfigured.

Section intent.
Context `{!CborCrate, !SessionCrypto}.

Definition intent_fields (i : SignedMeshConnectionIntent) : list (string * CborValue) :=
  [("v", CV_Integer (in_version i));
   ("domain", CV_Text (in_domain i));
   ("hh_id", CV_Text (in_hh_id i));
   ("initiator_m_id", CV_Text (in_initiator_m_id i));
   ("initiator_cert_fingerprint", CV_Bytes (in_initiator_cert_fingerprint i));
   ("target_m_id", CV_Text (in_target_m_id i));
   ("target_cert_fingerprint", CV_Bytes (in_target_cert_fingerprint i));
   ("checkpoint_hash", CV_Bytes (in_checkpoint_hash i));
   ("delegated_key_id", CV_Text (in_delegated_key_id i));
   ("nonce", CV_Bytes (in_nonce i));
   ("not_after", CV_Integer (in_not_after i));
   ("sig", CV_Bytes (in_sig i))].

Definition intent_names : list string :=
  ["v"; "domain"; "hh_id"; "initiator_m_id"; "initiator_cert_fingerprint"; "target_m_id";
   "target_cert_fingerprint"; "checkpoint_hash"; "delegated_key_id"; "nonce"; "not_after"; "sig"].

Definition intent_build (get : string → option CborValue) : option SignedMeshConnectionIntent :=
  version ← get "v" ≫= de_u64;
  domain ← get "domain" ≫= de_string;
  hh_id ← get "hh_id" ≫= de_string;
  initiator_m_id ← get "initiator_m_id" ≫= de_string;
  initiator_cert_fingerprint ← get "initiator_cert_fingerprint" ≫= de_byte_buf;
  target_m_id ← get "target_m_id" ≫= de_string;
  target_cert_fingerprint ← get "target_cert_fingerprint" ≫= de_byte_buf;
  checkpoint_hash ← get "checkpoint_hash" ≫= de_byte_buf;
  delegated_key_id ← get "delegated_key_id" ≫= de_string;
  nonce ← get "nonce" ≫= de_byte_buf;
  not_after ← get "not_after" ≫= de_u64;
  sig ← get "sig" ≫= de_byte_buf;
  Some (MkIntent version domain hh_id initiator_m_id initiator_cert_fingerprint target_m_id
    target_cert_fingerprint checkpoint_hash delegated_key_id nonce not_after sig).

#[export] Instance SignedMeshConnectionIntent_serde : Serde SignedMeshConnectionIntent :=
  {| to_value := λ i, to_struct (intent_fields i);
     of_value := λ v, of_struct intent_names intent_build v ≫= λ w, result_ok (intent_try_from w) |}.

(** [IntentSigningPreimage::for_intent] *)
Definition for_intent (i : SignedMeshConnectionIntent) : Result IntentError bytes :=
  unsigned ← map_err IE_Cbor (unsigned_preimage_body i);
  Ok (INTENT_TYPE_BYTE :: unsigned).

Definition intent_digest (i : SignedMeshConnectionIntent) : Result IntentError bytes :=
  full ← map_err IE_Cbor (to_canonical_vec i);
  Ok (sha256 (as_bytes INTENT_DOMAIN ++ full)).

(** [sign] is the signer's [sign_intent], [public_key] the key it reports. *)
Definition sign_intent_record {S} (sign : bytes → ST S AuthFrameError bytes)
    (public_key : VerifyingKey) (intent : SignedMeshConnectionIntent)
    : ST S IntentError SignedMeshConnectionIntent :=
  preimage ← lift (for_intent intent);
  sig_bytes ← st_map_err (λ _, IE_SignerFailed) (sign preimage);
  sig ← lift (map_err map_low_s_error (parse_low_s_signature sig_bytes));
  lift (reject_if (negb (ecdsa_verify public_key preimage sig)) IE_SignerProducedInvalidSignature);;
  mret (intent_with_sig sig_bytes intent).

(** [RawP256FrameVerifier::verify_intent] *)
Definition verify_intent (key : VerifyingKey) (preimage signature : bytes) : Result IntentError unit :=
  sig ← map_err map_low_s_error (parse_low_s_signature signature);
  reject_if (negb (ecdsa_verify key preimage sig)) IE_BadSignature.

Definition verify_intent_record (intent : SignedMeshConnectionIntent) (verifier : VerifyingKey)
    : Result IntentError unit :=
  preimage ← for_intent intent;
  reject_if (negb (length (in_sig intent) =? 64)%nat) IE_ShapeMismatch;;
  verify_intent verifier preimage (in_sig intent).

Definition encode_intent_record (intent : SignedMeshConnectionIntent) : Result IntentError bytes :=
  body_cbor ← map_err IE_Cbor (to_canonical_vec intent);
  map_err IE_Wire (encode_typed_frame INTENT_TYPE_BYTE body_cbor).

Definition decode_intent_record (plaintext : bytes) : Result IntentError SignedMeshConnectionIntent :=
  '(type_byte, body) ← map_err IE_Wire (decode_typed_frame plaintext);
  reject_if (bool_decide (type_byte ≠ INTENT_TYPE_BYTE)) (IE_UnexpectedTypeByte type_byte);;
  intent ← map_err IE_Cbor (from_canonical_bytes body);
  reject_if (negb (length (in_sig intent) =? 64)%nat) IE_ShapeMismatch;;
  map_err map_low_s_error (parse_low_s_signature (in_sig intent));;
  Ok intent.

(** ** The pending intent *)

Record IntentDetails := MkIntentDetails {
  id_target_m_id : string;
  id_target_cert_fingerprint : bytes;
  id_nonce : bytes;
  id_not_after : Z;
}.

Record PendingIntent := MkPendingIntent {
  pg_intent : SignedMeshConnectionIntent;
  pg_channel : ExpectedChannel;
  pg_signer_pub : bytes;
  pg_delegation_digest : bytes;
  pg_checkpoint_sequence : Z;
  pg_checkpoint_event_head : bytes;
  pg_checkpoint_not_after : Z;
}.

Definition delegation_digest (d : MeshSessionDelegation) : Result IntentError bytes :=
  canonical ← map_err (λ _, IE_ShapeMismatch) (delegation_to_canonical_bytes d);
  Ok (sha256 canonical).

Definition zero_sig : bytes := replicate 64 (byte_of 0).

Definition build_and_sign {S} (details : IntentDetails) (channel : ExpectedChannel)
    (local : LocalIdentity) (checkpoint : LocalCheckpoint)
    (sign : bytes → ST S AuthFrameError bytes) (public_key : VerifyingKey)
    : ST S IntentError PendingIntent :=
  let signer_pub := to_encoded_point public_key in
  delegation_digest_now ← lift (delegation_digest (li_delegation local));
  unsigned ← lift (intent_new (li_hh_id local) (li_m_id local) (li_cert_fingerprint local)
    (id_target_m_id details) (id_target_cert_fingerprint details) (lc_hash checkpoint)
    (d_delegated_key_id (li_delegation local)) (id_nonce details) (id_not_after details) zero_sig);
  intent ← sign_intent_record sign public_key unsigned;
  mret (MkPendingIntent intent channel signer_pub delegation_digest_now (lc_sequence checkpoint)
    (lc_event_head checkpoint) (lc_not_after checkpoint)).

Definition verify_binds_to (p : PendingIntent) (local : LocalIdentity) (checkpoint : LocalCheckpoint)
    (public_key : VerifyingKey) (expected_channel : ExpectedChannel) : Result IntentError unit :=
  reject_if (bool_decide (to_encoded_point public_key ≠ pg_signer_pub p))
    IE_SignerKeyMismatchPendingIntent;;
  reject_if (negb (String.eqb (in_hh_id (pg_intent p)) (li_hh_id local))
             || negb (String.eqb (in_initiator_m_id (pg_intent p)) (li_m_id local))
             || bool_decide (in_initiator_cert_fingerprint (pg_intent p) ≠ li_cert_fingerprint local)
             || negb (String.eqb (in_delegated_key_id (pg_intent p))
                        (d_delegated_key_id (li_delegation local)))
             || bool_decide (pg_channel p ≠ expected_channel)) IE_IdentityMismatch;;
  digest ← delegation_digest (li_delegation local);
  reject_if (bool_decide (digest ≠ pg_delegation_digest p)) IE_PendingIntentDelegationMismatch;;
  reject_if (d_not_after (li_delegation local) <? in_not_after (pg_intent p)) IE_TtlInvalid;;
  reject_if (bool_decide (in_checkpoint_hash (pg_intent p) ≠ lc_hash checkpoint)
             || negb (pg_checkpoint_sequence p =? lc_sequence checkpoint)
             || bool_decide (pg_checkpoint_event_head p ≠ lc_event_head checkpoint)
             || negb (pg_checkpoint_not_after p =? lc_not_after checkpoint))
    IE_PendingIntentCheckpointMismatch.

Definition expected_responder (p : PendingIntent) : ExpectedResponder :=
  MkExpectedResponder (in_hh_id (pg_intent p)) (in_target_m_id (pg_intent p))
    (in_target_cert_fingerprint (pg_intent p)).
End intent.

(** ** Lemmas *)

Section intent_lemmas.
Context `{!CborCrate, !CborLaws, !SessionCrypto}.

Record intent_valid (i : SignedMeshConnectionIntent) : Prop := {
  iv_version : in_u64 (in_version i);
  iv_not_after : in_u64 (in_not_after i);
  iv_shape : intent_try_from i = Ok i;
}.

#[export] Instance SignedMeshConnectionIntent_laws :
  SerdeLaws SignedMeshConnectionIntent intent_valid.
Proof.
  split; intros i []; cbn [to_value of_value SignedMeshConnectionIntent_serde].
  - struct_allowed.
  - struct_plain.
  - apply frame_depth. solve_fields.
  - unfold intent_fields. struct_lookup. unfold intent_build. struct_leaves.
    destruct i; cbn in *. by rewrite iv_shape0.
Qed.

Lemma intent_try_from_same w i : intent_try_from w = Ok i → i = w.
Proof. unfold intent_try_from. try_from_same. Qed.

#[export] Instance SignedMeshConnectionIntent_sound : SerdeSound SignedMeshConnectionIntent intent_valid.
Proof. frame_sound SignedMeshConnectionIntent_serde intent_try_from_same intent_build. Qed.

Lemma decode_intent_record_valid p i : decode_intent_record p = Ok i → intent_valid i.
Proof.
  unfold decode_intent_record. intros Hi. apply bind_Ok in Hi as ([t b] & _ & Hi).
  apply bind_Ok in Hi as ([] & _ & Hi). apply bind_Ok in Hi as (j & Hj%map_err_Ok & Hi).
  apply bind_Ok in Hi as ([] & _ & Hi). apply bind_Ok in Hi as (s & _ & [= <-]).
  by apply from_canonical_bytes_valid in Hj.
Qed.

Lemma intent_preimage_inj i j p :
  intent_valid i → intent_valid j → for_intent i = Ok p → for_intent j = Ok p →
  intent_with_sig [] i = intent_with_sig [] j.
Proof.
  intros Hi Hj Hpi Hpj. unfold for_intent in Hpi, Hpj.
  apply bind_Ok in Hpi as (b & Hbi%map_err_Ok & [= <-]).
  apply bind_Ok in Hpj as (b' & Hbj%map_err_Ok & Heq). injection Heq as ->.
  pose proof (unsigned_preimage_fields intent_fields _ _ _ (λ _, eq_refl) ltac:(intros; by_decide)
    ltac:(intros; by eexists) Hi Hj Hbi Hbj) as Hfields.
  unfold intent_fields in Hfields.
  let l := eval unfold intent_names in intent_names in use_fields Hfields l.
  clear Hi Hj Hbi Hbj Hfields. destruct i, j. cbn in *. simplify_eq. done.
Qed.

(** An intent preimage is never a frame preimage. *)
Lemma intent_preimage_not_frame i f p : for_intent i = Ok p → auth_preimage f = Ok p → False.
Proof.
  unfold for_intent. intros Hi Hf. apply bind_Ok in Hi as (b & _ & [= <-]).
  destruct (auth_preimage_head _ _ Hf) as [b' [= Ht _]]. by destruct f.
Qed.

Lemma decode_encode_intent i p :
  intent_valid i → is_ok (parse_low_s_signature (in_sig i)) = true →
  encode_intent_record i = Ok p → decode_intent_record p = Ok i.
Proof.
  intros Hi Hs He. unfold encode_intent_record in He.
  apply bind_Ok in He as (b & Hb%map_err_Ok & He%map_err_Ok).
  unfold decode_intent_record. rewrite (decode_encode_typed _ _ _ He). cbn [map_err mbind Result_bind].
  rewrite bool_decide_false by auto. cbn [reject_if mbind Result_bind].
  destruct (serde_encodes _ Hi) as (b' & Hb' & _ & _ & _ & Hdec).
  rewrite Hb in Hb'. injection Hb' as <-. rewrite Hdec. cbn [map_err mbind Result_bind].
  destruct Hi as [_ _ Hshape]. unfold intent_try_from in Hshape. res_inv.
  unfold check_intent_len in *. res_inv.
  repeat match goal with Hl : (_ =? _)%nat = true |- _ => rewrite Hl; clear Hl end.
  cbn. by destruct (parse_low_s_signature (in_sig i)).
Qed.

(** *** The token binds everything it was built for *)

Lemma to_encoded_point_inj `{!SessionCryptoLaws} k k' :
  to_encoded_point k = to_encoded_point k' → k = k'.
Proof.
  intros Heq. apply (inj Some). by rewrite <-!encoded_point_parses, Heq.
Qed.

Lemma intent_new_Ok hh m fp tm tfp cp key nonce na sig i :
  intent_new hh m fp tm tfp cp key nonce na sig = Ok i →
  i = MkIntent INTENT_VERSION INTENT_DOMAIN hh m fp tm tfp cp key nonce na sig.
Proof.
  unfold intent_new, intent_try_from. intros Hn.
  repeat (apply bind_Ok in Hn as ([] & _ & Hn)). by injection Hn as <-.
Qed.

Lemma sign_intent_record_Ok {S} (sign : bytes → ST S AuthFrameError bytes) k i s j s' :
  sign_intent_record sign k i s = (Ok j, s') →
  ∃ sig sig' p, j = intent_with_sig sig i ∧ for_intent i = Ok p ∧
    sign p s = (Ok sig, s') ∧ parse_low_s_signature sig = Ok sig' ∧ ecdsa_verify k p sig' = true.
Proof.
  unfold sign_intent_record. intros Hs. st_step Hs. injection Hs as <- <-.
  apply negb_false_iff in Hst2. eauto 10.
Qed.

Lemma intent_try_from_sig i sig :
  length sig = 64%nat → intent_try_from i = Ok i →
  intent_try_from (intent_with_sig sig i) = Ok (intent_with_sig sig i).
Proof.
  unfold intent_try_from. intros Hs Hi.
  repeat (apply bind_Ok in Hi as ([] & Hc & Hi); cbn; rewrite Hc; clear Hc; cbn [mbind Result_bind]).
  unfold check_intent_len. by rewrite Hs.
Qed.

Lemma intent_valid_sig i sig :
  length sig = 64%nat → intent_valid i → intent_valid (intent_with_sig sig i).
Proof. intros Hs []. split; [done..|by apply intent_try_from_sig]. Qed.

Lemma for_intent_sig i sig :
  length sig = 64%nat → intent_valid i → for_intent (intent_with_sig sig i) = for_intent i.
Proof.
  intros Hs Hi. unfold for_intent. f_equal. f_equal.
  apply (unsigned_preimage_same (valid:=intent_valid) intent_fields);
    [done|intros; by_decide|by eexists|by apply intent_valid_sig|done|done].
Qed.

(** The digest of a delegation determines it, short of a collision. *)
Definition no_collision (d d' : MeshSessionDelegation) : Prop :=
  ∀ b b', to_canonical_vec d = Ok b → to_canonical_vec d' = Ok b' → sha256 b = sha256 b' → b = b'.

Lemma delegation_digest_inj d d' h :
  delegation_valid d → delegation_valid d' → no_collision d d' →
  delegation_digest d = Ok h → delegation_digest d' = Ok h → d = d'.
Proof.
  unfold delegation_digest, delegation_to_canonical_bytes. intros Hd Hd' Hnc Hh Hh'.
  apply bind_Ok in Hh as (b & Hb%map_err_Ok%map_err_Ok & [= <-]).
  apply bind_Ok in Hh' as (b' & Hb'%map_err_Ok%map_err_Ok & [= Heq]).
  rewrite <-(Hnc b b' Hb Hb') in Hb' by done. by eapply canonical_vec_inj.
Qed.

Context `{!SessionCryptoLaws}.

(** What [build_and_sign] puts in the token. *)
Lemma build_and_sign_Ok {S} details channel local checkpoint (sign : bytes → ST S AuthFrameError bytes)
    pk s p s' :
  build_and_sign details channel local checkpoint sign pk s = (Ok p, s') →
  ∃ h i, delegation_digest (li_delegation local) = Ok h ∧
    i = MkIntent INTENT_VERSION INTENT_DOMAIN (li_hh_id local) (li_m_id local)
          (li_cert_fingerprint local) (id_target_m_id details) (id_target_cert_fingerprint details)
          (lc_hash checkpoint) (d_delegated_key_id (li_delegation local)) (id_nonce details)
          (id_not_after details) zero_sig ∧
    intent_try_from i = Ok i ∧
    sign_intent_record sign pk i s = (Ok (pg_intent p), s') ∧
    p = MkPendingIntent (pg_intent p) channel (to_encoded_point pk) h (lc_sequence checkpoint)
          (lc_event_head checkpoint) (lc_not_after checkpoint).
Proof.
  unfold build_and_sign. intros Hb. st_step Hb. injection Hb as <- <-.
  exists x, x0. pose proof (intent_new_Ok _ _ _ _ _ _ _ _ _ _ _ Hst0) as ->. cbn. eauto.
Qed.

Lemma verify_binds_to_Ok p local checkpoint pk channel :
  verify_binds_to p local checkpoint pk channel = Ok tt ↔
  to_encoded_point pk = pg_signer_pub p ∧
  in_hh_id (pg_intent p) = li_hh_id local ∧ in_initiator_m_id (pg_intent p) = li_m_id local ∧
  in_initiator_cert_fingerprint (pg_intent p) = li_cert_fingerprint local ∧
  in_delegated_key_id (pg_intent p) = d_delegated_key_id (li_delegation local) ∧
  pg_channel p = channel ∧
  delegation_digest (li_delegation local) = Ok (pg_delegation_digest p) ∧
  in_not_after (pg_intent p) ≤ d_not_after (li_delegation local) ∧
  in_checkpoint_hash (pg_intent p) = lc_hash checkpoint ∧
  pg_checkpoint_sequence p = lc_sequence checkpoint ∧
  pg_checkpoint_event_head p = lc_event_head checkpoint ∧
  pg_checkpoint_not_after p = lc_not_after checkpoint.
Proof.
  unfold verify_binds_to. split.
  - intros Hv. apply bind_Ok in Hv as ([] & Hc1%reject_if_Ok & Hv).
    apply bind_Ok in Hv as ([] & Hc2%reject_if_Ok & Hv). apply bind_Ok in Hv as (h & Hh & Hv).
    apply bind_Ok in Hv as ([] & Hc3%reject_if_Ok & Hv). apply bind_Ok in Hv as ([] & Hc4%reject_if_Ok & Hc5%reject_if_Ok).
    rewrite !orb_false_iff, !negb_false_iff, !String.eqb_eq in Hc2.
    rewrite !orb_false_iff, !negb_false_iff, !Z.eqb_eq in Hc5.
    apply Z.ltb_ge in Hc4. rewrite bool_decide_eq_false in Hc1, Hc3.
    rewrite !bool_decide_eq_false in Hc2, Hc5. apply dec_stable in Hc1, Hc3.
    destruct Hc2 as [[[[? ?] ?%dec_stable] ?] ?%dec_stable].
    destruct Hc5 as [[[?%dec_stable ?] ?%dec_stable] ?]. by subst.
  - intros (-> & -> & -> & -> & -> & -> & -> & Hna & -> & -> & -> & ->).
    rewrite !String.eqb_refl, !Z.eqb_refl. rewrite !(bool_decide_false (_ ≠ _)) by auto. cbn.
    rewrite bool_decide_false by auto. cbn. by rewrite (proj2 (Z.ltb_ge _ _)).
Qed.

(** The pending intent binds everything it was built for. A token that
    [build_and_sign] returned carries an intent signed by the very key of the
    signer, and [verify_binds_to] lets it start a handshake with exactly the
    local identity (delegation included, field by field), checkpoint, signer
    key and channel it was built with, provided the intent does not outlive
    the delegation. Distinct delegations are told apart by a SHA-256 digest:
    the two at hand are assumed not to collide. *)
Theorem pending_intent_binds {S} details channel local checkpoint
    (sign : bytes → ST S AuthFrameError bytes) pk s p s' :
  (∀ x s sig s', sign x s = (Ok sig, s') → length sig = 64%nat) →
  in_u64 (id_not_after details) → delegation_valid (li_delegation local) →
  build_and_sign details channel local checkpoint sign pk s = (Ok p, s') →
  verify_intent_record (pg_intent p) pk = Ok tt ∧
  ∀ local' checkpoint' pk' channel',
    delegation_valid (li_delegation local') →
    no_collision (li_delegation local) (li_delegation local') →
    verify_binds_to p local' checkpoint' pk' channel' = Ok tt ↔
    local' = local ∧ checkpoint' = checkpoint ∧ pk' = pk ∧ channel' = channel ∧
    id_not_after details ≤ d_not_after (li_delegation local).
Proof.
  intros Hlen Hna Hd Hb. apply build_and_sign_Ok in Hb as (h & i & Hh & Hi & Htry & Hs & ->).
  assert (intent_valid i) as Hv by (split; [by rewrite Hi; vm_compute|by rewrite Hi|done]).
  destruct (sign_intent_record_Ok _ _ _ _ _ _ Hs) as (sig & sig' & q & Hj & Hq & Hsig & Hlow & Hver).
  pose proof (Hlen _ _ _ _ Hsig) as Hsl.
  cbn [pg_intent] in Hj |- *. rewrite Hj. split.
  - unfold verify_intent_record, verify_intent. rewrite for_intent_sig, Hq by done. cbn.
    rewrite Hsl. cbn. rewrite Hlow. cbn. by rewrite Hver.
  - intros local' checkpoint' pk' channel' Hd' Hnc. rewrite verify_binds_to_Ok. subst i. cbn. split.
    + intros (Hpk%to_encoded_point_inj & ? & ? & ? & _ & -> & Hdg & Hle & ? & ? & ? & ?).
      pose proof (delegation_digest_inj _ _ _ Hd Hd' Hnc Hh Hdg) as Hdd.
      destruct local, local', checkpoint, checkpoint'. cbn in *. by subst.
    + intros (-> & -> & -> & -> & ?). split_and!; done.
Qed.
End intent_lemmas.
