(* ===== verification/Seams.v ===== *)
(** * The seams of the session ceremony

    What [mesh-session-core-rs/src/auth_state_machine.rs] calls outside the
    crate: the clocks, the random source, the signer, the delegation verifier,
    the signer resolver, the nonce ledger and the D1 admission registry, each a
    trait of the source; and the connection they are called with. Every call
    may read and change one external state [X], which stands for everything
    else in the process. The deadline a call is given is not passed on: it is
    fixed for the ceremony, and [X] holds the time.

    A connection keeps a log of the calls made and their answers, in order. It
    is read by no definition; the theorems about the order of effects are about
    it. *)

From stdpp Require Import base gmap sets list strings.
From Stdlib Require Import ZArith Lia Ascii.
From S2P Require Import Prelude.
From S2P Require Import Rekey.
From S2P Require Import Cbor.
From S2P Require Import Wire.
From S2P Require Import Ingress.
From S2P Require Import Crypto.
From S2P Require Import SessionErrors.
From S2P Require Import PostActive.
From S2P Require Import Delegation.
From S2P Require Import AuthFrames.
From S2P Require Import Intent.

Open Scope Z_scope.

Inductive Role := Initiator | Responder.

Class Seams `{!SessionCrypto} := {
  X : Type;
  Pending : Type;                                        (* [D1Admission::Pending] *)
  Active : Type;                                         (* [D1Admission::Active] *)
  instant_now : X → Z * X;                               (* [Instant::now] *)
  clock_now : ST X IntentError Z;                        (* [Clock::now] *)
  os_rng : X → option bytes * X;                         (* 32 bytes of the operating system *)
  generate_keypair : X → option bytes * X;               (* [snow]'s, the private half *)
  public_key : VerifyingKey;                             (* [MeshSessionFrameSigner::public_key] *)
  sign_mesh_session_frame : bytes → ST X AuthFrameError bytes;
  sign_64 : ∀ p x sig x', sign_mesh_session_frame p x = (Ok sig, x') →
    length sig = 64%nat;                                 (* it returns a [[u8; 64]] *)
  verify_delegation : MeshSessionDelegation → ST X DelegationError unit;
  resolve : string → string → ExpectedChannel → string → ST X IntentError ResolvedSignerAuthority;
  consume : IntentNonceKey → Z → bytes → ExpectedChannel → ST X IntentError NonceConsumeOutcome;
  reserve_pending : D1MembershipKey → ST X IntentError Pending;
  commit_after_ack : Pending → X → Active * X;
  cancel_before_ack : Pending → X → D1CancelOutcome * X;
  try_authorize : Active → X → bool * X;                 (* a guard, or [None] *)
  drop_guard : Active → X → X;
}.

Inductive Event :=
| Ev_Noise (h : bytes)                                   (* the three flights ran, with this hash *)
| Ev_Sign (preimage : bytes) (r : Result AuthFrameError bytes)
| Ev_SendFrame (f : AuthFrame)                           (* its record was handed to the stream *)
| Ev_SendIntent (i : SignedMeshConnectionIntent)
| Ev_RecvFrame (f : AuthFrame)                           (* read, decrypted and decoded *)
| Ev_RecvIntent (i : SignedMeshConnectionIntent)
| Ev_VerifyDelegation (d : MeshSessionDelegation) (r : Result DelegationError unit)
| Ev_Resolve (hh_id m_id : string) (channel : ExpectedChannel) (key_id : string)
    (r : Result IntentError ResolvedSignerAuthority)
| Ev_Consume (key : IntentNonceKey) (not_after : Z) (digest : bytes) (channel : ExpectedChannel)
    (r : Result IntentError NonceConsumeOutcome)
| Ev_Reserve (key : D1MembershipKey) (r : Result IntentError unit) (* [Ok]: a permit was issued *)
| Ev_Commit                                              (* the permit was committed *)
| Ev_Cancel (outcome : D1CancelOutcome)                  (* the permit was cancelled *)
| Ev_Guard (granted : bool)                              (* a forwarding guard was asked for *)
| Ev_Clock (r : Result IntentError Z)                    (* the session read the clock *)
| Ev_SendRecord (record : PostActiveRecord)              (* handed to the stream *)
| Ev_RecvRecord (record : PostActiveRecord)
| Ev_Deliver (payload : bytes)                           (* copied to the caller's buffer *)
| Ev_Drop.                                               (* the guard was dropped *)

Section connection.
Context `{!SessionCrypto, !Seams}.

(** The stream: what the peer will have sent, what was written, and how the
    system calls behave. *)
Record Conn := MkConn {
  c_ext : X;
  c_in : bytes;
  c_out : bytes;
  c_ios : Schedule;
  c_log : list Event;
}.

Definition with_ext (x : X) (c : Conn) : Conn :=
  MkConn x (c_in c) (c_out c) (c_ios c) (c_log c).

Definition log_event {E} (e : Event) : ST Conn E unit :=
  λ c, (Ok tt, MkConn (c_ext c) (c_in c) (c_out c) (c_ios c) (c_log c ++ [e])).

(** A call of a seam, and one that is logged with its answer. *)
Definition call {E A} (m : ST X E A) : ST Conn E A :=
  λ c, match m (c_ext c) with (r, x) => (r, with_ext x c) end.

Definition logged {E A} (ev : Result E A → Event) (m : ST X E A) : ST Conn E A :=
  λ c, match m (c_ext c) with
       | (r, x) => (r, MkConn x (c_in c) (c_out c) (c_ios c) (c_log c ++ [ev r]))
       end.

(** A call that cannot fail. *)
Definition ask {E A} (m : X → A * X) : ST Conn E A :=
  λ c, match m (c_ext c) with (a, x) => (Ok a, with_ext x c) end.

(** Reading and writing a frame; [None], fuel spent, never happens
    ([read_step_total], [write_step_total]). *)
Definition read_step (read : Schedule → bytes → option (Result WireError bytes * bytes * Schedule))
    : ST Conn WireError bytes :=
  λ c, match read (c_ios c) (c_in c) with
       | Some (r, rest, ios) => (r, MkConn (c_ext c) rest (c_out c) ios (c_log c))
       | None => (Err (WE_Io Io_Other), c)
       end.

Definition write_step (write : Schedule → option (Result WireError unit * bytes * Schedule))
    : ST Conn WireError unit :=
  λ c, match write (c_ios c) with
       | Some (r, out, ios) => (r, MkConn (c_ext c) (c_in c) (c_out c ++ out) ios (c_log c))
       | None => (Err (WE_Io Io_Other), c)
       end.

Lemma read_step_total max_len c :
  read_length_prefixed_frame max_len (c_ios c) (c_in c) ≠ None.
Proof. destruct (read_frame_total max_len (c_ios c) (c_in c)) as (? & ? & ? & ->). done. Qed.

Lemma write_step_total body max_len c :
  write_length_prefixed_frame body max_len (c_ios c) ≠ None.
Proof. destruct (write_frame_total body max_len (c_ios c)) as (? & ? & ? & ->). done. Qed.
End connection.
