(* ===== verification/Refine.v ===== *)
(** * Programs against state machines

    A small logic for showing that what a program does follows a protocol: the
    protocol is a labelled transition system over the events of a log, and a
    step of a program refines it from a phase when everything it appends to the
    log is a path. *)

From stdpp Require Import base gmap sets list strings.
From Stdlib Require Import ZArith Lia Ascii.
From S2P Require Import Prelude.
From S2P Require Import Crypto.
From S2P Require Import Seams.

(** ** Paths *)

Inductive path {P} (step : P → Event → P → Prop) : P → list Event → P → Prop :=
| path_nil p : path step p [] p
| path_cons p e p1 l p2 : step p e p1 → path step p1 l p2 → path step p (e :: l) p2.

Section paths.
Context {P : Type} (step : P → Event → P → Prop).

Lemma path_app ph l1 ph1 l2 ph2 :
  path step ph l1 ph1 → path step ph1 l2 ph2 → path step ph (l1 ++ l2) ph2.
Proof. induction 1; [done|]. intros. econstructor; eauto. Qed.

Lemma path_one p e q : step p e q → path step p [e] q.
Proof. intros. econstructor; [done|constructor]. Qed.

Lemma path_split p l1 l2 q : path step p (l1 ++ l2) q → ∃ m, path step p l1 m ∧ path step m l2 q.
Proof.
  revert p. induction l1 as [|e l1 IH]; cbn; intros p Hp; [eexists; split; [constructor|done]|].
  inversion Hp as [|? ? p1 ? ? Hs Hp1]; subst. destruct (IH _ Hp1) as (m & ? & ?).
  exists m. split; [by econstructor|done].
Qed.

Lemma path_mid p l1 e l2 q :
  path step p (l1 ++ e :: l2) q → ∃ m m', path step p l1 m ∧ step m e m' ∧ path step m' l2 q.
Proof.
  intros (m & Hm & Hq)%path_split. inversion Hq; subst. eauto.
Qed.

Lemma path_last p l q :
  path step p l q → (l = [] ∧ p = q) ∨ ∃ l0 e m, l = l0 ++ [e] ∧ path step p l0 m ∧ step m e q.
Proof.
  intros Hp. destruct l as [|e l _] using rev_ind; [left; by inversion Hp|].
  right. destruct (path_mid _ _ _ _ _ Hp) as (m & m' & ? & ? & Hn). inversion Hn; subst. eauto 10.
Qed.
End paths.

(** ** Refinement *)

(** States with a log. *)
Class HasLog (S : Type) := log_of : S → list Event.

#[export] Instance Conn_log `{!SessionCrypto, !Seams} : HasLog Conn := c_log.

Section refines.
Context {S P : Type} `{!HasLog S} {Inv : S → Prop} {step : P → Event → P → Prop}.

(** From phase [ph] and a state in [Inv], whatever [m] logs is a path; it keeps
    [Inv], and ends in [Q] when it succeeds and in [QE] when it fails. *)
Definition Refines {E A} (ph : P) (m : ST S E A) (Q : A → P → Prop) (QE : P → Prop) : Prop :=
  ∀ s r s', Inv s → m s = (r, s') → Inv s' ∧ ∃ l ph', log_of s' = log_of s ++ l ∧ path step ph l ph' ∧
    match r with Ok a => Q a ph' | Err _ => QE ph' end.

Lemma ref_bind {E A B} {Q1 : A → P → Prop} ph (m : ST S E A) (f : A → ST S E B) Q QE :
  Refines ph m Q1 QE → (∀ a ph1, Q1 a ph1 → Refines ph1 (f a) Q QE) → Refines ph (m ≫= f) Q QE.
Proof.
  intros Hm Hf s r s' Hi Hr. unfold mbind, ST_bind in Hr. destruct (m s) as [[a|e] s1] eqn:Em.
  - destruct (Hm _ _ _ Hi Em) as (Hi1 & l & ph1 & Hl & Hp & HQ).
    destruct (Hf a ph1 HQ _ _ _ Hi1 Hr) as (Hi2 & l2 & ph2 & Hl2 & Hp2 & HQ2).
    split; [done|]. exists (l ++ l2), ph2. split_and!; [|by eapply path_app|done].
    by rewrite Hl2, Hl, (assoc_L (++)).
  - injection Hr as <- <-. by apply (Hm _ _ _ Hi Em).
Qed.

Lemma ref_weaken {E A} ph (m : ST S E A) Q Q' (QE QE' : P → Prop) :
  Refines ph m Q QE → (∀ a p, Q a p → Q' a p) → (∀ p, QE p → QE' p) → Refines ph m Q' QE'.
Proof.
  intros Hm HQ HQE s r s' Hi Hr. destruct (Hm _ _ _ Hi Hr) as (? & l & ph' & ? & ? & ?).
  split; [done|]. exists l, ph'. split_and!; [done..|]. destruct r; auto.
Qed.

Lemma ref_ret {E A} ph (a : A) (Q : A → P → Prop) QE :
  Q a ph → Refines (E:=E) ph (mret a) Q QE.
Proof.
  intros HQ s r s' Hi [= <- <-]. split; [done|]. exists [], ph. rewrite app_nil_r.
  split_and!; [done|constructor|done].
Qed.

Lemma ref_lift {E A} ph (r : Result E A) (Q : A → P → Prop) (QE : P → Prop) :
  (∀ a, r = Ok a → Q a ph) → QE ph → Refines ph (lift r) Q QE.
Proof.
  intros HQ HE s r' s' Hi [= <- <-]. split; [done|]. exists [], ph. rewrite app_nil_r.
  split_and!; [done|constructor|]. destruct r; auto.
Qed.

Lemma ref_lift_bind {E A B} ph (r : Result E A) (f : A → ST S E B) Q (QE : P → Prop) :
  QE ph → (∀ a, r = Ok a → Refines ph (f a) Q QE) → Refines ph (lift r ≫= f) Q QE.
Proof.
  intros HE Hf. apply (ref_bind (Q1:=λ a p, p = ph ∧ r = Ok a)); [by apply ref_lift|].
  intros a ? [-> Ha]. auto.
Qed.

Lemma ref_map_err {E F A} ph (g : E → F) (m : ST S E A) Q QE :
  Refines ph m Q QE → Refines ph (st_map_err g m) Q QE.
Proof.
  intros Hm s r s' Hi Hr. unfold st_map_err in Hr. destruct (m s) as [r0 s0] eqn:Em.
  injection Hr as <- <-. destruct (Hm _ _ _ Hi Em) as (? & l & ph' & ? & ? & ?).
  split; [done|]. exists l, ph'. split_and!; [done..|]. by destruct r0.
Qed.

(** A step that logs one event. *)
Definition Logs {E A} (ev : Result E A → Event) (m : ST S E A) : Prop :=
  ∀ s r s', Inv s → m s = (r, s') → Inv s' ∧ log_of s' = log_of s ++ [ev r].

Lemma ref_logs {E A} ph (ev : Result E A → Event) (m : ST S E A) (next : Result E A → P)
    (Q : A → P → Prop) (QE : P → Prop) :
  Logs ev m → (∀ r s s', m s = (r, s') → step ph (ev r) (next r)) → (∀ a, Q a (next (Ok a))) →
  (∀ e, QE (next (Err e))) → Refines ph m Q QE.
Proof.
  intros Hm Hs HQ HE s r s' Hi Hr. destruct (Hm _ _ _ Hi Hr) as [Hi' Hl]. split; [done|].
  exists [ev r], (next r). split_and!; [done| |destruct r; auto]. apply path_one. by eapply Hs.
Qed.

(** Steps that log nothing. *)
Definition Silent {E A} (m : ST S E A) : Prop :=
  ∀ s r s', Inv s → m s = (r, s') → Inv s' ∧ log_of s' = log_of s.

Lemma ref_silent {E A} ph (m : ST S E A) (Q : A → P → Prop) (QE : P → Prop) :
  Silent m → (∀ a, Q a ph) → QE ph → Refines ph m Q QE.
Proof.
  intros Hm HQ HE s r s' Hi Hr. destruct (Hm _ _ _ Hi Hr) as [Hi' Hl]. split; [done|].
  exists [], ph. rewrite app_nil_r. split_and!; [done|constructor|]. destruct r; auto.
Qed.

Lemma ref_silent_bind {E A B} ph (m : ST S E A) (f : A → ST S E B) Q (QE : P → Prop) :
  Silent m → QE ph → (∀ a, Refines ph (f a) Q QE) → Refines ph (m ≫= f) Q QE.
Proof.
  intros Hm HE Hf. apply (ref_bind (Q1:=λ _ p, p = ph)); [by apply ref_silent|].
  intros a ? ->. auto.
Qed.

Lemma silent_bind {E A B} (m : ST S E A) (f : A → ST S E B) :
  Silent m → (∀ a, Silent (f a)) → Silent (m ≫= f).
Proof.
  intros Hm Hf s r s' Hi Hr. unfold mbind, ST_bind in Hr. destruct (m s) as [[a|e] s1] eqn:Em.
  - destruct (Hm _ _ _ Hi Em) as [Hi1 <-]. by apply (Hf _ _ _ _ Hi1 Hr).
  - injection Hr as <- <-. by apply (Hm _ _ _ Hi Em).
Qed.

Lemma silent_ret {E A} (a : A) : Silent (E:=E) (mret a).
Proof. by intros s r s' Hi [= <- <-]. Qed.

Lemma silent_lift {E A} (r : Result E A) : Silent (lift r).
Proof. by intros s r' s' Hi [= <- <-]. Qed.

Lemma silent_map_err {E F A} (g : E → F) (m : ST S E A) : Silent m → Silent (st_map_err g m).
Proof.
  intros Hm s r s' Hi Hr. unfold st_map_err in Hr. destruct (m s) eqn:Em. injection Hr as <- <-.
  by apply (Hm _ _ _ Hi Em).
Qed.
End refines.

Arguments Refines {_ _ _} _ _ {_ _}.
Arguments Logs {_ _} _ {_ _}.
Arguments Silent {_ _} _ {_ _}.

(** No invariant. *)
Definition any {S} (_ : S) : Prop := True.

(** Without an invariant, a refinement is a statement on the runs. *)
Lemma ref_any {S P E A} `{!HasLog S} (step : P → Event → P → Prop) ph (m : ST S E A) Q QE :
  Refines any step ph m Q QE ↔ ∀ s r s', m s = (r, s') →
    ∃ l ph', log_of s' = log_of s ++ l ∧ path step ph l ph' ∧
      match r with Ok a => Q a ph' | Err _ => QE ph' end.
Proof.
  split; intros Hm s r s'; [intros Hr; by destruct (Hm s r s' I Hr)|].
  intros _ Hr. split; [done|by apply (Hm s r s')].
Qed.

(** The steps of a connection. *)
Section connection_steps.
Context `{!SessionCrypto, !Seams}.

Lemma logs_log {E} e : Logs any (λ _, e) (log_event (E:=E) e).
Proof. by intros s r s' _ [= <- <-]. Qed.

Lemma logs_logged {E A} (ev : Result E A → Event) m : Logs any ev (logged ev m).
Proof.
  intros s r s' _ Hr. unfold logged in Hr. destruct (m (c_ext s)). by injection Hr as <- <-.
Qed.

Lemma logged_call {E A} (ev : Result E A → Event) m s r s' :
  logged ev m s = (r, s') → ∃ x', m (c_ext s) = (r, x').
Proof. unfold logged. destruct (m (c_ext s)) as [r0 x]. intros [= <- <-]. eauto. Qed.

Lemma ref_conn {P E A} {step : P → Event → P → Prop} {ph} {m : ST Conn E A} {Q QE c r c'} :
  Refines any step ph m Q QE → m c = (r, c') →
  ∃ l ph', c_log c' = c_log c ++ l ∧ path step ph l ph' ∧
    match r with Ok a => Q a ph' | Err _ => QE ph' end.
Proof. intros Hm Hr. by destruct (Hm _ _ _ I Hr). Qed.

Lemma ref_log {P E} (step : P → Event → P → Prop) ph ph' e (Q : unit → P → Prop) QE :
  step ph e ph' → Q tt ph' → Refines any step ph (log_event (E:=E) e) Q QE.
Proof.
  intros Hs HQ. apply ref_any. intros s r s' [= <- <-]. exists [e], ph'.
  split_and!; [done|by apply path_one|done].
Qed.

Lemma ref_logged {P E A} (step : P → Event → P → Prop) ph (ev : Result E A → Event) m
    (next : Result E A → P) (Q : A → P → Prop) (QE : P → Prop) :
  (∀ r x x', m x = (r, x') → step ph (ev r) (next r)) → (∀ a, Q a (next (Ok a))) →
  (∀ e, QE (next (Err e))) → Refines any step ph (logged ev m) Q QE.
Proof.
  intros Hs HQ HE. eapply ref_logs with (next := next); [apply logs_logged| |done..].
  intros r s s' (x' & Hm)%logged_call. by eapply Hs.
Qed.

Lemma silent_ask {E A} (m : X → A * X) : Silent any (ask (E:=E) m).
Proof. intros s r s' _ Hr. unfold ask in Hr. destruct (m _). by injection Hr as <- <-. Qed.

Lemma silent_call {E A} (m : ST X E A) : Silent any (call m).
Proof. intros s r s' _ Hr. unfold call in Hr. destruct (m _). by injection Hr as <- <-. Qed.

Lemma silent_read read : Silent any (read_step read).
Proof.
  intros s r s' _ Hr. unfold read_step in Hr.
  destruct (read _ _) as [[[? ?] ?]|]; by injection Hr as <- <-.
Qed.

Lemma silent_write write : Silent any (write_step write).
Proof.
  intros s r s' _ Hr. unfold write_step in Hr.
  destruct (write _) as [[[? ?] ?]|]; by injection Hr as <- <-.
Qed.
End connection_steps.

(** Proves that a step logs nothing. *)
Ltac silent := repeat (intros; first
  [ apply silent_bind | apply silent_ret | apply silent_lift | apply silent_map_err
  | apply silent_ask | apply silent_call | apply silent_read | apply silent_write
  | match goal with |- Silent _ (match ?x with _ => _ end) => destruct x end ]).
