(* ===== verification/Noise.v ===== *)
(** * The Noise XX handshake

    Models [mesh-session-core-rs/src/noise.rs]: the fixed prologue, the
    handshake state built from a fresh key pair, and the three flights with
    their empty payloads, over the framing of [Wire]. *)

From stdpp Require Import base gmap sets list strings.
From Stdlib Require Import ZArith Lia Ascii.
From S2P Require Import Prelude.
From S2P Require Import Cbor.
From S2P Require Import Wire.
From S2P Require Import Crypto.
From S2P Require Import SessionErrors.
From S2P Require Import AuthFrames.
From S2P Require Import Intent.
From S2P Require Import Seams.

Open Scope Z_scope.

Definition PROTOCOL_NAME : string := "soyeht/mesh-session/v1".
Definition PROTOCOL_VERSION_BYTE : ascii := byte_of 0x01.
Definition NOISE_PATTERN : string := "Noise_XX_25519_ChaChaPoly_BLAKE2s".

Definition prologue : bytes := as_bytes PROTOCOL_NAME ++ [PROTOCOL_VERSION_BYTE].

Section noise.
Context `{!SessionCrypto, !Snow, !Seams}.

Definition build_handshake_state (role : Role) : ST Conn NoiseSetupError HandshakeState :=
  keypair ← ask generate_keypair;
  private_key ← lift (ok_or keypair NE_Snow);
  lift (ok_or (match role with
               | Initiator => build_initiator NOISE_PATTERN private_key prologue
               | Responder => build_responder NOISE_PATTERN private_key prologue
               end) NE_Snow).

(** The closures [send] and [recv] of [run_xx_handshake]. *)
Definition send_flight (handshake : HandshakeState) : ST Conn NoiseSetupError HandshakeState :=
  '(message, handshake) ← lift (ok_or (hs_write_message handshake) NE_Snow);
  st_map_err NE_Wire (write_step (write_handshake_flight message));;
  mret handshake.

Definition recv_flight (handshake : HandshakeState) : ST Conn NoiseSetupError HandshakeState :=
  msg ← st_map_err NE_Wire (read_step read_handshake_flight);
  '(payload_len, handshake) ← lift (ok_or (hs_read_message handshake msg) NE_Snow);
  lift (reject_if (negb (payload_len =? 0)) (NE_NonEmptyHandshakePayload payload_len));;
  mret handshake.

(** [HandshakeOutcome] is the pair of transport and handshake hash. *)
Definition run_xx_handshake (role : Role) : ST Conn NoiseSetupError (TransportState * bytes) :=
  handshake ← build_handshake_state role;
  handshake ←
    match role with
    | Initiator =>
        handshake ← send_flight handshake;
        handshake ← recv_flight handshake;
        send_flight handshake
    | Responder =>
        handshake ← recv_flight handshake;
        handshake ← send_flight handshake;
        recv_flight handshake
    end;
  lift (reject_if (negb (is_handshake_finished handshake)) NE_HandshakeNotFinished);;
  let handshake_hash := get_handshake_hash handshake in
  transport ← lift (ok_or (into_transport_mode handshake) NE_Snow);
  log_event (Ev_Noise handshake_hash);;
  mret (transport, handshake_hash).
End noise.
