(* ===== verification/Handshake.v ===== *)
(** * The authentication ceremony

    Models [mesh-session-core-rs/src/auth_state_machine.rs] up to the active
    session: the Noise flights, then Proof-R, the connection intent, Proof-I,
    FinalConfirm, Activate and ActivateAck in their order, with every check of
    both sides, the nonce consumption and the two-phase D1 admission. *)

From stdpp Require Import base gmap sets list strings.
From Stdlib Require Import ZArith Lia Ascii.
From S2P Require Import Prelude.
From S2P Require Import Rekey.
From S2P Require Import Cbor.
From S2P Require Import Wire.
From S2P Require Import Ingress.
From S2P Require Import Crypto.
From S2P Require Import SessionErrors.
From S2P Require Import Delegation.
From S2P Require Import AuthFrames.
From S2P Require Import Intent.
From S2P Require Import Seams.
From S2P Require Import Noise.

Open Scope Z_scope.

Definition EXPECTED_DELEGATION_ROLES : list string := ["initiator"; "responder"].
Definition EXPECTED_TRANSCRIPT_KINDS : list string := ["final-confirm"; "activate"; "activate-ack"].

(** [sort_unstable] on [&str] sorts by bytes; equal strings are equal, so
    stability cannot be seen. *)
Definition str_cmp (a b : string) : comparison := bytes_cmp (as_bytes a) (as_bytes b).

Definition string_set_matches_exactly (actual expected : list string) : bool :=
  bool_decide (sort_by str_cmp actual = sort_by str_cmp expected).

Definition check_h_final (frame_h_final expected : bytes) : Result AuthFrameError unit :=
  reject_if (bool_decide (frame_h_final ≠ expected)) AE_HFinalMismatch.

Definition effective_expires_at (checkpoint_not_after local_delegation_not_after
    peer_delegation_not_after lease_expires_at ingress_expiry intent_not_after : Z) : Z :=
  Z.min checkpoint_not_after (Z.min local_delegation_not_after (Z.min peer_delegation_not_after
    (Z.min lease_expires_at (Z.min ingress_expiry intent_not_after)))).

Definition check_effective_expiry (now expires_at : Z) : Result AuthFrameError unit :=
  if now <? expires_at then Ok tt else Err (AE_Intent IE_TtlInvalid).

Definition check_local_delegation_channel (delegation : MeshSessionDelegation)
    (expected_channel : ExpectedChannel) : Result AuthFrameError unit :=
  reject_if (negb (String.eqb (d_channel delegation) (channel_as_str expected_channel)))
    AE_DelegationChannelMismatch.

Definition check_checkpoint (frame_hash : bytes) (frame_sequence : Z) (frame_event_head : bytes)
    (frame_not_after : Z) (local : LocalCheckpoint) : Result AuthFrameError unit :=
  reject_if (bool_decide (frame_hash ≠ lc_hash local)
             || negb (frame_sequence =? lc_sequence local)
             || bool_decide (frame_event_head ≠ lc_event_head local)
             || negb (frame_not_after =? lc_not_after local)) AE_CheckpointMismatch.

(** A slice as an array: its length is checked. *)
Definition sig_array (sig : bytes) : Result AuthFrameError bytes :=
  reject_if (negb (length sig =? 64)%nat) AE_ShapeMismatch;;
  Ok sig.

Section active_session.
Context `{!SessionCrypto, !Snow, !Seams}.

(** [ActiveMeshSession] less its stream, which is the connection. *)
Record ActiveMeshSession := MkActiveMeshSession {
  s_transport : TransportState;
  s_rekey : SessionRekeyState;
  s_peer_hh_id : string;
  s_peer_m_id : string;
  s_peer_cert_fingerprint : bytes;
  s_ingress_evidence : IngressEvidence;
  s_h_final : bytes;
  s_gate : Active;
  s_expires_at : Z;
  s_closed : bool;
}.
End active_session.

Section handshake.
Context `{!CborCrate, !SessionCrypto, !Snow, !Seams}.

Definition check_signer_matches_delegation (delegation : MeshSessionDelegation)
    : Result AuthFrameError unit :=
  reject_if (bool_decide (to_encoded_point public_key ≠ d_delegated_pub delegation))
    AE_SignerKeyMismatchDelegation.

(** [deadline.is_expired()] reads the monotonic clock. *)
Definition check_ceremony_deadline (deadline : CeremonyDeadline) : ST Conn AuthFrameError unit :=
  now ← ask instant_now;
  lift (reject_if (is_expired deadline now) (AE_Intent IE_DeadlineExceeded)).

(** ** Records *)

(** Encrypts [plaintext] and writes its record; [e] is what is sent. *)
Definition send_record_of (e : Event) (transport : TransportState) (plaintext : bytes)
    : ST Conn AuthFrameError TransportState :=
  '(ciphertext, transport) ← lift (ok_or (ts_write_message transport plaintext) (AE_Noise NE_Snow));
  log_event e;;
  st_map_err AE_Wire (write_step (write_transport_record ciphertext));;
  mret transport.

Definition send_frame (transport : TransportState) (frame : AuthFrame)
    : ST Conn AuthFrameError TransportState :=
  plaintext ← lift (encode_auth_frame frame);
  send_record_of (Ev_SendFrame frame) transport plaintext.

Definition send_intent_record (transport : TransportState) (intent : SignedMeshConnectionIntent)
    : ST Conn AuthFrameError TransportState :=
  plaintext ← lift (map_err AE_Intent (encode_intent_record intent));
  send_record_of (Ev_SendIntent intent) transport plaintext.

(** Reads a record and decrypts it. *)
Definition recv_plaintext (transport : TransportState)
    : ST Conn AuthFrameError (bytes * TransportState) :=
  ciphertext ← st_map_err AE_Wire (read_step read_transport_record);
  lift (ok_or (ts_read_message transport ciphertext) (AE_Noise NE_Snow)).

Definition recv_frame (transport : TransportState)
    : ST Conn AuthFrameError (AuthFrame * TransportState) :=
  '(plaintext, transport) ← recv_plaintext transport;
  frame ← lift (decode_auth_frame plaintext);
  log_event (Ev_RecvFrame frame);;
  mret (frame, transport).

Definition recv_intent_record (transport : TransportState)
    : ST Conn AuthFrameError (SignedMeshConnectionIntent * TransportState) :=
  '(plaintext, transport) ← recv_plaintext transport;
  intent ← lift (map_err AE_Intent (decode_intent_record plaintext));
  log_event (Ev_RecvIntent intent);;
  mret (intent, transport).

(** [let AuthFrame::K(f) = frame else { RoleOrKindMismatch }] *)
Definition expect_proof_r (f : AuthFrame) : Result AuthFrameError ProofR :=
  match f with AF_ProofR f => Ok f | _ => Err AE_RoleOrKindMismatch end.
Definition expect_proof_i (f : AuthFrame) : Result AuthFrameError ProofI :=
  match f with AF_ProofI f => Ok f | _ => Err AE_RoleOrKindMismatch end.
Definition expect_final_confirm (f : AuthFrame) : Result AuthFrameError FinalConfirm :=
  match f with AF_FinalConfirm f => Ok f | _ => Err AE_RoleOrKindMismatch end.
Definition expect_activate (f : AuthFrame) : Result AuthFrameError Activate :=
  match f with AF_Activate f => Ok f | _ => Err AE_RoleOrKindMismatch end.
Definition expect_activate_ack (f : AuthFrame) : Result AuthFrameError ActivateAck :=
  match f with AF_ActivateAck f => Ok f | _ => Err AE_RoleOrKindMismatch end.

(** [sign_frame] with the ceremony's signer. *)
Definition sign_with_k_mesh `{!Serde F, !AuthFrameBody F} (frame : F) : ST Conn AuthFrameError F :=
  sign_frame (λ preimage, logged (Ev_Sign preimage) (sign_mesh_session_frame preimage))
    public_key frame.

(** ** Checks *)

Definition pass_delegation_gate (delegation : MeshSessionDelegation) (policy : DelegationPolicy)
    (ctx : PartialBindingInputs) (expected_channel : ExpectedChannel) : ST Conn AuthFrameError unit :=
  lift (map_err AE_Delegation (policy_validate policy delegation));;
  st_map_err (λ _, AE_DelegationGate)
    (logged (Ev_VerifyDelegation delegation) (verify_delegation delegation));;
  lift (reject_if (negb (string_set_matches_exactly (d_roles delegation) EXPECTED_DELEGATION_ROLES))
    AE_DelegationRolesMismatch);;
  lift (reject_if (negb (string_set_matches_exactly (d_transcript_kinds delegation)
                           EXPECTED_TRANSCRIPT_KINDS)) AE_DelegationTranscriptKindsMismatch);;
  lift (reject_if (negb (String.eqb (d_channel delegation) (channel_as_str expected_channel)))
    AE_DelegationChannelMismatch);;
  lift (map_err AE_Delegation (check_partial_binding delegation ctx)).

(** [now] is the reading of the clock; the nonce is not consumed here. *)
Definition run_combined_intent_check (intent_record : SignedMeshConnectionIntent)
    (received_intent_digest : bytes) (proof_i : ProofI) (initiator_verifier : VerifyingKey)
    (local : LocalIdentity) (checkpoint : LocalCheckpoint) (lease_expires_at ingress_expiry now : Z)
    : Result AuthFrameError (IntentNonceKey * Z) :=
  map_err AE_Intent (verify_intent_record intent_record initiator_verifier);;
  reject_if (negb (String.eqb (in_delegated_key_id intent_record)
                     (d_delegated_key_id (pi_delegation proof_i)))) (AE_Intent IE_KeyIdMismatch);;
  reject_if (bool_decide (pi_connection_intent_digest proof_i ≠ received_intent_digest))
    (AE_Intent IE_DigestMismatch);;
  reject_if (negb (String.eqb (in_hh_id intent_record) (pi_hh_id proof_i))
             || negb (String.eqb (in_initiator_m_id intent_record) (pi_self_m_id proof_i))
             || bool_decide (in_initiator_cert_fingerprint intent_record ≠ pi_self_cert_fingerprint proof_i)
             || negb (String.eqb (in_target_m_id intent_record) (li_m_id local))
             || bool_decide (in_target_cert_fingerprint intent_record ≠ li_cert_fingerprint local))
    (AE_Intent IE_IdentityMismatch);;
  reject_if (d_not_after (pi_delegation proof_i) <? in_not_after intent_record)
    (AE_Intent IE_TtlInvalid);;
  let expires_at := effective_expires_at (lc_not_after checkpoint) (d_not_after (li_delegation local))
    (d_not_after (pi_delegation proof_i)) lease_expires_at ingress_expiry (in_not_after intent_record) in
  check_effective_expiry now expires_at;;
  reject_if (negb (length (in_nonce intent_record) =? 32)%nat) (AE_Intent IE_ShapeMismatch);;
  Ok (MkIntentNonceKey (in_hh_id intent_record) (in_initiator_m_id intent_record)
        (in_delegated_key_id intent_record) (in_nonce intent_record), expires_at).

(** [SessionRekeyState::new], asking for one identifier after the other. *)
Definition mint_rekey (rekey_threshold : RekeyThreshold) : ST Conn AuthFrameError SessionRekeyState :=
  rng_tx ← ask os_rng;
  tx ← lift (map_err AE_Rekey (directional_new rekey_threshold rng_tx));
  rng_rx ← ask os_rng;
  rx ← lift (map_err AE_Rekey (directional_new rekey_threshold rng_rx));
  mret (MkSessionRekey tx rx).

(** [clock.now()] *)
Definition read_clock : ST Conn AuthFrameError Z := st_map_err AE_Intent (call clock_now).

Definition reserve (key : D1MembershipKey) : ST Conn AuthFrameError Pending :=
  st_map_err AE_Intent (logged (λ r, Ev_Reserve key (_ ← r; Ok tt)) (reserve_pending key)).

Definition cancel {A} (pending : Pending) (source : AuthFrameError) : ST Conn AuthFrameError A :=
  cancel_outcome ← ask (cancel_before_ack pending);
  log_event (Ev_Cancel cancel_outcome);;
  lift (Err (AE_AckExchangeFailedWithCancelOutcome source cancel_outcome)).

Definition commit (pending : Pending) : ST Conn AuthFrameError Active :=
  gate ← ask (commit_after_ack pending);
  log_event Ev_Commit;;
  mret gate.

(** [match m { Ok(a) => a, Err(e) => cancel the permit }] *)
Definition or_cancel {A} (pending : Pending) (m : ST Conn AuthFrameError A)
    : ST Conn AuthFrameError A :=
  λ c, match m c with
       | (Ok a, c) => (Ok a, c)
       | (Err e, c) => cancel pending e c
       end.

(** The Noise flights and what comes before them, on either side. *)
Definition begin_ceremony (role : Role) (deadline : CeremonyDeadline) (rekey_threshold : RekeyThreshold)
    : ST Conn AuthFrameError (SessionRekeyState * TransportState * bytes) :=
  check_ceremony_deadline deadline;;
  rekey ← mint_rekey rekey_threshold;
  '(transport, h_final) ← st_map_err AE_Noise (run_xx_handshake role);
  check_ceremony_deadline deadline;;
  mret (rekey, transport, h_final).

(** ** The responder *)

Section responder.
Context (local : LocalIdentity) (checkpoint : LocalCheckpoint) (expected_channel : ExpectedChannel)
        (policy : DelegationPolicy) (deadline : CeremonyDeadline).

(** Frame 1, out. *)
Definition responder_send_proof_r (transport : TransportState) (h_final : bytes)
    : ST Conn AuthFrameError TransportState :=
  proof_r ← lift (proof_r_new h_final (li_hh_id local) (li_m_id local) (li_cert_fingerprint local)
    (lc_hash checkpoint) (lc_sequence checkpoint) (lc_event_head checkpoint) (lc_not_after checkpoint)
    (li_delegation local) zero_sig);
  proof_r ← sign_with_k_mesh proof_r;
  send_frame transport (AF_ProofR proof_r).

(** The intent record, in. *)
Definition responder_recv_intent (transport : TransportState)
    : ST Conn AuthFrameError (SignedMeshConnectionIntent * bytes * TransportState) :=
  '(intent_record, transport) ← recv_intent_record transport;
  received_intent_digest ← lift (map_err AE_Intent (intent_digest intent_record));
  check_ceremony_deadline deadline;;
  mret (intent_record, received_intent_digest, transport).

(** Frame 2, in, up to its signature under the resolved key. *)
Definition responder_recv_proof_i (transport : TransportState) (h_final : bytes)
    : ST Conn AuthFrameError (ProofI * VerifyingKey * TransportState) :=
  '(frame, transport) ← recv_frame transport;
  proof_i ← lift (expect_proof_i frame);
  lift (check_h_final (pi_h_final proof_i) h_final);;
  lift (reject_if (negb (String.eqb (pi_expected_peer_m_id proof_i) (li_m_id local))
                   || bool_decide (pi_expected_peer_cert_fingerprint proof_i ≠ li_cert_fingerprint local))
    AE_ExpectedPeerMismatch);;
  lift (check_checkpoint (pi_checkpoint_hash proof_i) (pi_checkpoint_sequence proof_i)
    (pi_checkpoint_event_head proof_i) (pi_checkpoint_not_after proof_i) checkpoint);;
  pass_delegation_gate (pi_delegation proof_i) policy
    (MkPartialBindingInputs (pi_hh_id proof_i) (li_hh_id local) (pi_self_m_id proof_i)
       (pi_self_cert_fingerprint proof_i)) expected_channel;;
  check_ceremony_deadline deadline;;
  resolved ← st_map_err AE_Intent (logged
    (Ev_Resolve (pi_hh_id proof_i) (pi_self_m_id proof_i) expected_channel
       (d_delegated_key_id (pi_delegation proof_i)))
    (resolve (pi_hh_id proof_i) (pi_self_m_id proof_i) expected_channel
       (d_delegated_key_id (pi_delegation proof_i))));
  lift (reject_if (negb (rs_not_after resolved =? d_not_after (pi_delegation proof_i)))
    (AE_Intent IE_ResolvedGenerationNotAfterMismatch));;
  initiator_verifier ← lift (verifier_from_delegated_pub (rs_delegated_pub resolved));
  sig ← lift (sig_array (pi_sig proof_i));
  lift (verify_frame proof_i sig initiator_verifier);;
  mret (proof_i, initiator_verifier, transport).

(** The combined check and the consumption of the nonce. *)
Definition responder_consume_nonce (intent_record : SignedMeshConnectionIntent)
    (received_intent_digest : bytes) (proof_i : ProofI) (initiator_verifier : VerifyingKey)
    (lease_expires_at ingress_expiry : Z) : ST Conn AuthFrameError Z :=
  now ← read_clock;
  '(nonce_key, expires_at) ← lift (run_combined_intent_check intent_record received_intent_digest
    proof_i initiator_verifier local checkpoint lease_expires_at ingress_expiry now);
  check_ceremony_deadline deadline;;
  outcome ← st_map_err AE_Intent (logged
    (Ev_Consume nonce_key (in_not_after intent_record) received_intent_digest expected_channel)
    (consume nonce_key (in_not_after intent_record) received_intent_digest expected_channel));
  lift (match outcome with
        | NC_Committed => Ok tt
        | NC_AlreadyConsumed => Err (AE_Intent IE_NonceAlreadyConsumed)
        | NC_MayHaveTakenEffect => Err (AE_Intent IE_NonceCommitAmbiguous)
        | NC_Unavailable => Err (AE_Intent IE_NonceLedgerUnavailable)
        end);;
  check_ceremony_deadline deadline;;
  mret expires_at.

(** Frame 3, out. *)
Definition responder_send_final_confirm (transport : TransportState) (h_final : bytes) (proof_i : ProofI)
    : ST Conn AuthFrameError (FinalConfirm * TransportState) :=
  final_confirm ← lift (final_confirm_new h_final (pi_self_m_id proof_i)
    (pi_self_cert_fingerprint proof_i) (li_m_id local) zero_sig);
  final_confirm ← sign_with_k_mesh final_confirm;
  transport ← send_frame transport (AF_FinalConfirm final_confirm);
  check_ceremony_deadline deadline;;
  mret (final_confirm, transport).

(** Frame 4, in. *)
Definition responder_recv_activate (transport : TransportState) (h_final : bytes)
    (final_confirm : FinalConfirm) (initiator_verifier : VerifyingKey)
    : ST Conn AuthFrameError (Activate * TransportState) :=
  '(frame, transport) ← recv_frame transport;
  activate ← lift (expect_activate frame);
  lift (check_h_final (ac_h_final activate) h_final);;
  lift (reject_if (negb (String.eqb (ac_responder_m_id activate) (li_m_id local)))
    AE_ExpectedPeerMismatch);;
  expected_final_confirm_digest ← lift (frame_digest final_confirm);
  lift (reject_if (bool_decide (ac_final_confirm_digest activate ≠ expected_final_confirm_digest))
    AE_DigestMismatch);;
  sig ← lift (sig_array (ac_sig activate));
  lift (verify_frame activate sig initiator_verifier);;
  check_ceremony_deadline deadline;;
  mret (activate, transport).

(** The acknowledgement, built and signed, and the permit reserved for it. *)
Definition responder_prepare_ack (h_final : bytes) (proof_i : ProofI) (activate : Activate)
    (expires_at : Z) : ST Conn AuthFrameError (ActivateAck * Pending) :=
  activate_digest ← lift (frame_digest activate);
  activate_ack ← lift (activate_ack_new h_final (li_m_id local) activate_digest zero_sig);
  activate_ack ← sign_with_k_mesh activate_ack;
  now ← read_clock;
  lift (check_effective_expiry now expires_at);;
  pending ← reserve (MkD1MembershipKey h_final (pi_hh_id proof_i) (pi_self_m_id proof_i)
    (pi_self_cert_fingerprint proof_i) (lc_hash checkpoint) (lc_sequence checkpoint));
  mret (activate_ack, pending).
End responder.

Definition run_responder_handshake (ingress : PrevalidatedIngress unit) (local : LocalIdentity)
    (checkpoint : LocalCheckpoint) (expected_channel : ExpectedChannel) (policy : DelegationPolicy)
    (lease_expires_at : Z) (rekey_threshold : RekeyThreshold)
    : ST Conn AuthFrameError ActiveMeshSession :=
  lift (check_signer_matches_delegation (li_delegation local));;
  lift (check_local_delegation_channel (li_delegation local) expected_channel);;
  let '(_, ingress_evidence, deadline) := consume_ingress ingress in
  '(rekey, transport, h_final) ← begin_ceremony Responder deadline rekey_threshold;
  transport ← responder_send_proof_r local checkpoint transport h_final;
  '(intent_record, received_intent_digest, transport) ← responder_recv_intent deadline transport;
  '(proof_i, initiator_verifier, transport) ←
    responder_recv_proof_i local checkpoint expected_channel policy deadline transport h_final;
  expires_at ← responder_consume_nonce local checkpoint expected_channel deadline intent_record
    received_intent_digest proof_i initiator_verifier lease_expires_at (ingress_expiry ingress_evidence);
  '(final_confirm, transport) ← responder_send_final_confirm local deadline transport h_final proof_i;
  '(activate, transport) ←
    responder_recv_activate local deadline transport h_final final_confirm initiator_verifier;
  '(activate_ack, pending) ← responder_prepare_ack local checkpoint h_final proof_i activate expires_at;
  transport ← or_cancel pending (send_frame transport (AF_ActivateAck activate_ack));
  gate ← commit pending;
  mret (MkActiveMeshSession transport rekey (pi_hh_id proof_i) (pi_self_m_id proof_i)
    (pi_self_cert_fingerprint proof_i) ingress_evidence h_final gate expires_at false).

(** ** The initiator *)

Section initiator.
Context (local : LocalIdentity) (checkpoint : LocalCheckpoint) (expected_channel : ExpectedChannel)
        (policy : DelegationPolicy) (deadline : CeremonyDeadline) (pending_intent : PendingIntent)
        (expected : ExpectedResponder).

(** Frame 1, in, up to its signature under the delegated key. *)
Definition initiator_recv_proof_r (transport : TransportState) (h_final : bytes)
    : ST Conn AuthFrameError (ProofR * VerifyingKey * TransportState) :=
  '(frame, transport) ← recv_frame transport;
  proof_r ← lift (expect_proof_r frame);
  lift (check_h_final (pr_h_final proof_r) h_final);;
  lift (reject_if (negb (String.eqb (pr_hh_id proof_r) (er_hh_id expected))
                   || negb (String.eqb (pr_self_m_id proof_r) (er_m_id expected))
                   || bool_decide (pr_self_cert_fingerprint proof_r ≠ er_cert_fingerprint expected))
    AE_ExpectedPeerMismatch);;
  lift (check_checkpoint (pr_checkpoint_hash proof_r) (pr_checkpoint_sequence proof_r)
    (pr_checkpoint_event_head proof_r) (pr_checkpoint_not_after proof_r) checkpoint);;
  pass_delegation_gate (pr_delegation proof_r) policy
    (MkPartialBindingInputs (pr_hh_id proof_r) (li_hh_id local) (pr_self_m_id proof_r)
       (pr_self_cert_fingerprint proof_r)) expected_channel;;
  responder_verifier ← lift (verifier_from_delegated_pub (d_delegated_pub (pr_delegation proof_r)));
  sig ← lift (sig_array (pr_sig proof_r));
  lift (verify_frame proof_r sig responder_verifier);;
  mret (proof_r, responder_verifier, transport).

(** The effective expiry, then the intent record, out. *)
Definition initiator_send_intent (transport : TransportState) (proof_r : ProofR)
    (lease_expires_at ingress_expiry : Z) : ST Conn AuthFrameError (Z * bytes * TransportState) :=
  now ← read_clock;
  let expires_at := effective_expires_at (lc_not_after checkpoint) (d_not_after (li_delegation local))
    (d_not_after (pr_delegation proof_r)) lease_expires_at ingress_expiry
    (in_not_after (pg_intent pending_intent)) in
  lift (check_effective_expiry now expires_at);;
  transport ← send_intent_record transport (pg_intent pending_intent);
  connection_intent_digest ← lift (map_err AE_Intent (intent_digest (pg_intent pending_intent)));
  check_ceremony_deadline deadline;;
  mret (expires_at, connection_intent_digest, transport).

(** Frame 2, out. *)
Definition initiator_send_proof_i (transport : TransportState) (h_final connection_intent_digest : bytes)
    : ST Conn AuthFrameError TransportState :=
  proof_i ← lift (proof_i_new h_final (li_hh_id local) (li_m_id local) (er_m_id expected)
    (li_cert_fingerprint local) (er_cert_fingerprint expected) (lc_hash checkpoint)
    (lc_sequence checkpoint) (lc_event_head checkpoint) (lc_not_after checkpoint)
    (li_delegation local) connection_intent_digest zero_sig);
  proof_i ← sign_with_k_mesh proof_i;
  transport ← send_frame transport (AF_ProofI proof_i);
  check_ceremony_deadline deadline;;
  mret transport.

(** Frame 3, in. *)
Definition initiator_recv_final_confirm (transport : TransportState) (h_final : bytes)
    (responder_verifier : VerifyingKey) : ST Conn AuthFrameError (FinalConfirm * TransportState) :=
  '(frame, transport) ← recv_frame transport;
  final_confirm ← lift (expect_final_confirm frame);
  lift (check_h_final (fc_h_final final_confirm) h_final);;
  lift (reject_if (negb (String.eqb (fc_initiator_m_id final_confirm) (li_m_id local))
                   || bool_decide (fc_initiator_cert_fingerprint final_confirm ≠ li_cert_fingerprint local)
                   || negb (String.eqb (fc_responder_m_id final_confirm) (er_m_id expected)))
    AE_ExpectedPeerMismatch);;
  sig ← lift (sig_array (fc_sig final_confirm));
  lift (verify_frame final_confirm sig responder_verifier);;
  check_ceremony_deadline deadline;;
  mret (final_confirm, transport).

(** Frame 4, built and signed, and the permit reserved before it is sent. *)
Definition initiator_prepare_activate (h_final : bytes) (final_confirm : FinalConfirm) (expires_at : Z)
    : ST Conn AuthFrameError (Activate * Pending) :=
  final_confirm_digest ← lift (frame_digest final_confirm);
  activate ← lift (activate_new h_final (er_m_id expected) final_confirm_digest zero_sig);
  activate ← sign_with_k_mesh activate;
  now ← read_clock;
  lift (check_effective_expiry now expires_at);;
  pending ← reserve (MkD1MembershipKey h_final (li_hh_id local) (er_m_id expected)
    (er_cert_fingerprint expected) (lc_hash checkpoint) (lc_sequence checkpoint));
  mret (activate, pending).

(** Frame 4, out, and frame 5, in: the closure behind [ack_result]. *)
Definition initiator_exchange_ack (transport : TransportState) (h_final : bytes) (activate : Activate)
    (responder_verifier : VerifyingKey) : ST Conn AuthFrameError TransportState :=
  transport ← send_frame transport (AF_Activate activate);
  '(frame, transport) ← recv_frame transport;
  activate_ack ← lift (expect_activate_ack frame);
  lift (check_h_final (aa_h_final activate_ack) h_final);;
  lift (reject_if (negb (String.eqb (aa_responder_m_id activate_ack) (er_m_id expected)))
    AE_ExpectedPeerMismatch);;
  expected_activate_digest ← lift (frame_digest activate);
  lift (reject_if (bool_decide (aa_activate_digest activate_ack ≠ expected_activate_digest))
    AE_DigestMismatch);;
  sig ← lift (sig_array (aa_sig activate_ack));
  lift (verify_frame activate_ack sig responder_verifier);;
  mret transport.
End initiator.

Definition run_initiator_handshake (ingress : PrevalidatedIngress unit) (pending_intent : PendingIntent)
    (local : LocalIdentity) (checkpoint : LocalCheckpoint) (expected_channel : ExpectedChannel)
    (policy : DelegationPolicy) (lease_expires_at : Z) (rekey_threshold : RekeyThreshold)
    : ST Conn AuthFrameError ActiveMeshSession :=
  lift (check_signer_matches_delegation (li_delegation local));;
  lift (check_local_delegation_channel (li_delegation local) expected_channel);;
  lift (map_err AE_Intent (verify_binds_to pending_intent local checkpoint public_key expected_channel));;
  let expected := expected_responder pending_intent in
  let '(_, ingress_evidence, deadline) := consume_ingress ingress in
  '(rekey, transport, h_final) ← begin_ceremony Initiator deadline rekey_threshold;
  '(proof_r, responder_verifier, transport) ←
    initiator_recv_proof_r local checkpoint expected_channel policy expected transport h_final;
  '(expires_at, connection_intent_digest, transport) ←
    initiator_send_intent local checkpoint deadline pending_intent transport proof_r lease_expires_at
      (ingress_expiry ingress_evidence);
  transport ← initiator_send_proof_i local checkpoint deadline expected transport h_final
    connection_intent_digest;
  '(final_confirm, transport) ←
    initiator_recv_final_confirm local deadline expected transport h_final responder_verifier;
  '(activate, pending) ←
    initiator_prepare_activate local checkpoint expected h_final final_confirm expires_at;
  transport ← or_cancel pending
    (initiator_exchange_ack expected transport h_final activate responder_verifier);
  gate ← commit pending;
  mret (MkActiveMeshSession transport rekey (er_hh_id expected) (er_m_id expected)
    (er_cert_fingerprint expected) ingress_evidence h_final gate expires_at false).
End handshake.
