(* ===== verification/SessionSamples.v ===== *)
(** * A concrete session

    Toy instances of the parameters of the session protocol, small enough to
    evaluate: a hash, a signature scheme, a transport and the seams of two
    machines, [init] and [resp]. The ceremony runs on them byte for byte, each
    side reading what the other wrote. *)

From stdpp Require Import base gmap sets list strings.
From Stdlib Require Import ZArith Lia Ascii.
From S2P Require Import Prelude.
From S2P Require Import Rekey.
From S2P Require Import Cbor.
From S2P Require Import CborProofs.
From S2P Require Import CborSample.
From S2P Require Import Wire.
From S2P Require Import Ingress.
From S2P Require Import Crypto.
From S2P Require Import SessionErrors.
From S2P Require Import Delegation.
From S2P Require Import AuthFrames.
From S2P Require Import Intent.
From S2P Require Import Seams.
From S2P Require Import Noise.
From S2P Require Import Handshake.

Open Scope Z_scope.

(** ** Cryptography *)

Definition toy_hash (b : bytes) : bytes :=
  to_be_bytes 32 (foldl (λ acc c, Z.land (acc * 257 + of_byte c + 1) 0xffffffffffffffff) 7 b).

Definition toy_point (k : ascii) : bytes := byte_of 2 :: k :: replicate 31 (byte_of 0).

Definition toy_parse_point (b : bytes) : option ascii :=
  match b with
  | _ :: k :: _ => if bool_decide (b = toy_point k) then Some k else None
  | _ => None
  end.

Definition toy_sign (k : ascii) (p : bytes) : bytes := (k :: replicate 31 (byte_of 0)) ++ toy_hash p.

#[export] Instance toy_crypto : SessionCrypto := {|
  sha256 := toy_hash;
  VerifyingKey := ascii;
  Signature := bytes;
  from_sec1_bytes := toy_parse_point;
  to_encoded_point := toy_point;
  signature_from_slice := λ b, if (length b =? 64)%nat then Some b else None;
  normalize_s := λ _, None;
  ecdsa_verify := λ k p s, bool_decide (s = toy_sign k p);
|}.

#[export] Instance toy_crypto_laws : SessionCryptoLaws.
Proof.
  split.
  - intros b. apply length_to_be_bytes.
  - done.
  - intros k. cbn. unfold toy_parse_point, toy_point. by rewrite bool_decide_true.
Qed.

(** A transport that appends a tag naming the generation of the key. *)
Definition toy_tag (generation : Z) : bytes := replicate 16 (byte_of (generation mod 256)).

#[export] Instance toy_snow : Snow := {|
  HandshakeState := nat;
  TransportState := Z * Z;
  build_initiator := λ _ _ _, Some O;
  build_responder := λ _ _ _, Some O;
  hs_write_message := λ n, Some ([byte_of 9], S n);
  hs_read_message := λ n _, Some (0, S n);
  is_handshake_finished := λ n, (n =? 3)%nat;
  get_handshake_hash := λ _, replicate 32 (byte_of 7);
  into_transport_mode := λ _, Some (0, 0);
  ts_write_message := λ t p, Some (p ++ toy_tag t.1, t);
  ts_read_message := λ t c,
    let n := (length c - 16)%nat in
    if bool_decide (16 ≤ length c)%nat && bool_decide (drop n c = toy_tag t.2)
    then Some (take n c, t) else None;
  rekey_outgoing := λ t, (t.1 + 1, t.2);
  rekey_incoming := λ t, (t.1, t.2 + 1);
|}.

(** ** The two machines *)

Definition init_key : ascii := "i".
Definition resp_key : ascii := "r".

Definition sample_delegation (m_id : string) (fp : bytes) (key : ascii) (kid : string)
    : MeshSessionDelegation :=
  MkDelegation 1 DELEGATION_KIND DELEGATION_DOMAIN "hh" m_id fp (toy_point key) kid DELEGATION_PROFILE
    ["activate"; "final-confirm"; "activate-ack"] ["responder"; "initiator"] "dev" 1 10 1000
    (replicate 64 (byte_of 1)).

Definition init_fp : bytes := replicate 32 "I"%char.
Definition resp_fp : bytes := replicate 32 "R"%char.

Definition init_local : LocalIdentity :=
  MkLocalIdentity "hh" "m-init" init_fp (sample_delegation "m-init" init_fp init_key "k-init").
Definition resp_local : LocalIdentity :=
  MkLocalIdentity "hh" "m-resp" resp_fp (sample_delegation "m-resp" resp_fp resp_key "k-resp").

Definition sample_checkpoint : LocalCheckpoint :=
  MkLocalCheckpoint (replicate 32 "c"%char) 5 (replicate 32 "e"%char) 900.

(** The external state: whether the registry still authorises the session. *)
Definition toy_seams (key peer_key : ascii) : Seams := {|
  X := bool;
  Pending := unit;
  Active := unit;
  instant_now := λ x, (0, x);
  clock_now := λ x, (Ok 100, x);
  os_rng := λ x, (Some (replicate 32 key), x);
  generate_keypair := λ x, (Some (replicate 32 key), x);
  public_key := (key : @VerifyingKey toy_crypto);
  sign_mesh_session_frame := λ p x, (Ok (toy_sign key p), x);
  sign_64 := λ p x sig x' H, ltac:(injection H as <- <-; unfold toy_sign, toy_hash;
    rewrite length_app, length_to_be_bytes; reflexivity);
  verify_delegation := λ _ x, (Ok tt, x);
  resolve := λ _ _ _ _ x, (Ok (MkResolvedSignerAuthority (toy_point peer_key) 1 1000), x);
  consume := λ _ _ _ _ x, (Ok NC_Committed, x);
  reserve_pending := λ _ x, (Ok tt, x);
  commit_after_ack := λ _ x, (tt, x);
  cancel_before_ack := λ _ x, (CancelledAndRemoved, x);
  try_authorize := λ _ x, (x, x);
  drop_guard := λ _ x, x;
|}.

Definition init_seams : Seams := toy_seams init_key resp_key.
Definition resp_seams : Seams := toy_seams resp_key init_key.

(** Every call moves up to seven bytes and none fails. *)
Definition calm : Schedule := λ _, MkCallIo 1000 false false 7 false.

Lemma calm_clean : clean_schedule calm.
Proof. intros k. unfold calm. cbn. split_and!; done || lia. Qed.

Definition sample_ingress : PrevalidatedIngress unit :=
  MkPrevalidatedIngress tt (MkIngressEvidence 100 800) (MkCeremonyDeadline 0 1000).

Definition sample_details : IntentDetails := MkIntentDetails "m-resp" resp_fp (replicate 32 "n"%char) 700.

#[local] Existing Instance sample_cbor.

Definition sample_build : Result IntentError PendingIntent * unit :=
  build_and_sign sample_details EC_Dev init_local sample_checkpoint
    (λ p x, (Ok (toy_sign init_key p), x)) (init_key : @VerifyingKey toy_crypto) tt.

Definition no_intent : PendingIntent :=
  MkPendingIntent (MkIntent 0 "" "" "" [] "" [] [] "" [] 0 []) EC_Dev [] [] 0 [] 0.

Definition sample_pending : PendingIntent :=
  match sample_build with (Ok p, _) => p | _ => no_intent end.

Definition threshold_3 : RekeyThreshold := MkRekeyThreshold 3.
Definition sample_policy : DelegationPolicy := MkDelegationPolicy 2000.

Definition init_conn (input : bytes) : @Conn _ init_seams := @MkConn _ init_seams true input [] calm [].
Definition resp_conn (input : bytes) : @Conn _ resp_seams := @MkConn _ resp_seams true input [] calm [].

Abbreviation init_run input :=
  (@run_initiator_handshake sample_cbor toy_crypto toy_snow init_seams sample_ingress sample_pending
    init_local sample_checkpoint EC_Dev sample_policy 750 threshold_3 (init_conn input)).

Abbreviation resp_run input :=
  (@run_responder_handshake sample_cbor toy_crypto toy_snow resp_seams sample_ingress resp_local
    sample_checkpoint EC_Dev sample_policy 750 threshold_3 (resp_conn input)).

(** What each side writes, when each has seen what the other wrote so far. *)
Fixpoint exchange (n : nat) : bytes * bytes :=
  match n with
  | O => ([], [])
  | S n => let '(from_init, from_resp) := exchange n in
      (c_out (init_run from_resp).2, c_out (resp_run from_init).2)
  end.

(** Eight rounds are enough: what the two sides wrote, and what they did. *)
Definition streams : bytes * bytes := Eval vm_compute in exchange 8.
Definition from_init : bytes := streams.1.
Definition from_resp : bytes := streams.2.

Definition init_log : list Event := Eval vm_compute in c_log (init_run from_resp).2.
Definition resp_log : list Event := Eval vm_compute in c_log (resp_run from_init).2.

(** Both sides finish, and each wrote what the other read. *)
Lemma init_run_ok :
  is_ok (init_run from_resp).1 = true ∧ c_log (init_run from_resp).2 = init_log ∧
  c_out (init_run from_resp).2 = from_init.
Proof. vm_compute. done. Qed.

Lemma resp_run_ok :
  is_ok (resp_run from_init).1 = true ∧ c_log (resp_run from_init).2 = resp_log ∧
  c_out (resp_run from_init).2 = from_resp.
Proof. vm_compute. done. Qed.
