(* ===== verification/Records.v ===== *)
(** * The records of the ceremony

    What the encodings of [mesh-session-core-rs] guarantee to the protocol:
    canonical CBOR is a normal form, the five frames and the intent round-trip
    and decode only to values of their types, and no signature can be taken for
    one on something else. *)

From stdpp Require Import base gmap sets list strings.
From Stdlib Require Import ZArith Lia Ascii.
From S2P Require Import Prelude.
From S2P Require Import Cbor.
From S2P Require Import CborProofs.
From S2P Require Import CborSample.
From S2P Require Import Wire.
From S2P Require Import Crypto.
From S2P Require Import SessionErrors.
From S2P Require Import Delegation.
From S2P Require Import AuthFrames.
From S2P Require Import Intent.
From S2P Require Import Seams.
From S2P Require Import Handshake.
From S2P Require Import SessionSamples.

Open Scope Z_scope.

Section records.
Context `{!CborCrate, !CborLaws, !SessionCrypto}.

(** Canonical CBOR is a normal form. What [to_canonical_vec] writes passes
    [verify_canonical]; two canonical encodings of values that differ only in
    the order of map entries, at any depth, are the same bytes; and a canonical
    encoding is read to its last byte, as a value of the closed set (text keys
    without repetition, no null, float, tag or other shape). *)
Theorem canonical_cbor_normal_form :
  (∀ T `(!Serde T) (x : T) b, to_canonical_vec x = Ok b → verify_canonical b = Ok tt) ∧
  (∀ b1 b2 v1 v2 n1 n2, verify_canonical b1 = Ok tt → verify_canonical b2 = Ok tt →
     from_reader b1 = Some (v1, n1) → from_reader b2 = Some (v2, n2) → value_eqv v1 v2 → b1 = b2) ∧
  (∀ b, verify_canonical b = Ok tt → ∃ v, from_reader b = Some (v, length b) ∧ Allowed v).
Proof.
  split_and!.
  - intros T HT x b. apply to_canonical_vec_verifies.
  - intros b1 b2 v1 v2 n1 n2 (w1 & Hr1 & HA & Hc1 & Hw1)%verify_canonical_Ok
      (w2 & Hr2 & _ & Hc2 & Hw2)%verify_canonical_Ok Hv1 Hv2 Heqv.
    rewrite Hr1 in Hv1. rewrite Hr2 in Hv2. injection Hv1 as -> <-. injection Hv2 as -> <-.
    pose proof (eqv_canonicalize _ _ HA Heqv). congruence.
  - intros b (v & Hr & HA & _)%verify_canonical_Ok. eauto.
Qed.

(** A record of the ceremony: a frame or the intent. *)
Inductive CeremonyRecord :=
| CR_Frame (f : AuthFrame)
| CR_Intent (i : SignedMeshConnectionIntent).

Definition record_valid (r : CeremonyRecord) : Prop :=
  match r with
  | CR_Frame f => auth_frame_valid f
  | CR_Intent i => intent_valid i ∧ is_ok (parse_low_s_signature (in_sig i)) = true
  end.

(** [p] is an encoding of [r]; [p] is accepted as [r]. *)
Definition encodes (r : CeremonyRecord) (p : bytes) : Prop :=
  match r with
  | CR_Frame f => encode_auth_frame f = Ok p
  | CR_Intent i => encode_intent_record i = Ok p
  end.

Definition decodes (p : bytes) (r : CeremonyRecord) : Prop :=
  match r with
  | CR_Frame f => decode_auth_frame p = Ok f
  | CR_Intent i => decode_intent_record p = Ok i
  end.

Definition signed_bytes (r : CeremonyRecord) (p : bytes) : Prop :=
  match r with
  | CR_Frame f => auth_preimage f = Ok p
  | CR_Intent i => for_intent i = Ok p
  end.

Definition without_sig (r : CeremonyRecord) : CeremonyRecord :=
  match r with
  | CR_Frame f => CR_Frame (erase_sig f)
  | CR_Intent i => CR_Intent (intent_with_sig [] i)
  end.

(** The type byte a decoder took. *)
Lemma decode_auth_frame_head p f : decode_auth_frame p = Ok f → ∃ b, p = frame_type f :: b.
Proof.
  unfold decode_auth_frame. intros Hf. apply bind_Ok in Hf as ([t b] & Ht%map_err_Ok & Hf).
  destruct p as [|c p]; [done|]. cbn [decode_typed_frame] in Ht. apply bind_Ok in Ht as ([] & _ & [= -> ->]).
  repeat (case_bool_decide; [subst; apply bind_Ok in Hf as (g & _ & [= <-]); by eexists|]). done.
Qed.

Lemma decode_intent_head p i : decode_intent_record p = Ok i → ∃ b, p = INTENT_TYPE_BYTE :: b.
Proof.
  unfold decode_intent_record. intros Hi. apply bind_Ok in Hi as ([t b] & Ht%map_err_Ok & Hi).
  destruct p as [|c p]; [done|]. cbn [decode_typed_frame] in Ht. apply bind_Ok in Ht as ([] & _ & [= -> ->]).
  apply bind_Ok in Hi as ([] & Hc%reject_if_Ok & _). apply bool_decide_eq_false, dec_stable in Hc.
  subst. by eexists.
Qed.

(** C34: the records of the ceremony round-trip, and decoding is typed. A valid
    record that encodes decodes to itself, and encoding fails only for a body
    above the ceiling (frames). Whatever bytes come, a decoded record is valid:
    its integers are in range and every construction check of its type holds.
    One plaintext never decodes as two different records. *)
Theorem ceremony_records_typed :
  (∀ r p, record_valid r → encodes r p → decodes p r) ∧
  (∀ f, auth_frame_valid f → ∃ b, frame_body f = Ok b ∧
     (Z.of_nat (length b) ≤ MAX_CBOR_BODY_LEN → encodes (CR_Frame f) (frame_type f :: b))) ∧
  (∀ p f, decodes p (CR_Frame f) → auth_frame_valid f) ∧
  (∀ p i, decodes p (CR_Intent i) → intent_valid i) ∧
  (∀ p r r', decodes p r → decodes p r' → r = r').
Proof.
  split_and!.
  - intros [f|i] p; cbn; [apply decode_encode_frame|intros [Hi Hs]; by apply decode_encode_intent].
  - intros f Hf. destruct (frame_body_Ok f Hf) as (b & Hb). exists b. split; [done|].
    intros Hlen. by apply encode_auth_frame_Ok.
  - intros p f. apply decode_auth_frame_valid.
  - intros p i. apply decode_intent_record_valid.
  - intros p [f|i] [f'|i']; cbn; intros Hr Hr'; try congruence.
    + destruct (decode_auth_frame_head _ _ Hr) as [b ->], (decode_intent_head _ _ Hr') as [b' [= Ht _]].
      by destruct f.
    + destruct (decode_intent_head _ _ Hr) as [b ->], (decode_auth_frame_head _ _ Hr') as [b' [= Ht _]].
      by destruct f'.
Qed.

(** C30: a signature cannot be moved. Two valid records with the same signed
    bytes are the same record up to the signature: the same kind, and equal
    in every field, the nested delegation with its own signature included. So
    a signature on a frame says nothing about any other frame, nor about an
    intent. *)
Theorem signatures_unambiguous r r' p :
  record_valid r → record_valid r' → signed_bytes r p → signed_bytes r' p →
  without_sig r = without_sig r'.
Proof.
  destruct r as [f|i], r' as [f'|i']; cbn; intros Hv Hv' Hp Hp'.
  - f_equal. by eapply auth_preimage_inj.
  - exfalso. by eapply intent_preimage_not_frame.
  - exfalso. by eapply intent_preimage_not_frame.
  - f_equal. destruct Hv, Hv'. by eapply intent_preimage_inj.
Qed.
End records.

(** ** At work *)

#[local] Existing Instance sample_cbor.

Definition sample_intent : SignedMeshConnectionIntent := Eval vm_compute in pg_intent sample_pending.
Definition other_sig : bytes := replicate 64 "z"%char.

Lemma sample_intent_ok : pg_intent sample_pending = sample_intent.
Proof. by vm_compute. Qed.

Lemma sample_intent_record : record_valid (CR_Intent sample_intent).
Proof. by split; [split; vm_compute|vm_compute]. Qed.

Lemma resigned_intent_valid : record_valid (CR_Intent (intent_with_sig other_sig sample_intent)).
Proof. by split; [split; vm_compute|vm_compute]. Qed.

Definition sample_preimage : bytes :=
  Eval vm_compute in match for_intent sample_intent with Ok p => p | Err _ => [] end.

Lemma signatures_unambiguous_witness :
  without_sig (CR_Intent sample_intent) = without_sig (CR_Intent (intent_with_sig other_sig sample_intent)).
Proof.
  apply (@signatures_unambiguous sample_cbor sample_cbor_laws toy_crypto
    (CR_Intent sample_intent) (CR_Intent (intent_with_sig other_sig sample_intent)) sample_preimage).
  - exact sample_intent_record.
  - exact resigned_intent_valid.
  - by vm_compute.
  - by vm_compute.
Defined.

Lemma init_delegation_valid : delegation_valid (li_delegation init_local).
Proof. split; [split|]; vm_compute; done. Qed.

Lemma sample_build_ok : sample_build = (Ok sample_pending, tt).
Proof. vm_compute. reflexivity. Qed.

(** The token of the sample ceremony starts it, and not under another channel. *)
Lemma pending_intent_binds_witness :
  verify_intent_record (pg_intent sample_pending) (init_key : @VerifyingKey toy_crypto) = Ok tt ∧
  verify_binds_to sample_pending init_local sample_checkpoint (init_key : @VerifyingKey toy_crypto) EC_Dev = Ok tt.
Proof.
  pose proof init_delegation_valid as Hd. pose proof sample_build_ok as Hb.
  destruct (@pending_intent_binds sample_cbor sample_cbor_laws toy_crypto toy_crypto_laws unit sample_details EC_Dev
    init_local sample_checkpoint (λ p x, (Ok (toy_sign init_key p), x)) init_key tt sample_pending tt)
    as [Hv Hbind]; [|split; [discriminate|reflexivity]|exact Hd|exact Hb|].
  - intros x s sig s' [= <- <-]. unfold toy_sign, toy_hash. rewrite length_app, length_to_be_bytes. reflexivity.
  - split; [exact Hv|]. apply (Hbind init_local sample_checkpoint init_key EC_Dev Hd).
    + intros b b' Eb Eb' _. rewrite Eb in Eb'. injection Eb' as <-. reflexivity.
    + split_and!; [reflexivity..|discriminate].
Defined.

Definition sample_record : bytes :=
  Eval vm_compute in match encode_intent_record sample_intent with Ok p => p | Err _ => [] end.

(** The intent record of the sample ceremony decodes to it, and to nothing else. *)
Lemma ceremony_records_typed_witness :
  decodes sample_record (CR_Intent sample_intent) ∧
  ∀ r, decodes sample_record r → r = CR_Intent sample_intent.
Proof.
  destruct (@ceremony_records_typed sample_cbor sample_cbor_laws toy_crypto) as (Hrt & _ & _ & _ & Huniq).
  assert (decodes sample_record (CR_Intent sample_intent)) as Hd.
  { apply Hrt; [exact sample_intent_record|]. by vm_compute. }
  split; [exact Hd|]. intros r Hr. exact (Huniq _ _ _ Hr Hd).
Defined.

Lemma canonical_cbor_normal_form_witness :
  ∃ b, to_canonical_vec sample_intent = Ok b ∧ verify_canonical b = Ok tt.
Proof.
  destruct (@canonical_cbor_normal_form sample_cbor sample_cbor_laws) as (Hv & _).
  exists (drop 1 sample_record). assert (to_canonical_vec sample_intent = Ok (drop 1 sample_record)) as Hb by (by vm_compute).
  split; [exact Hb|]. exact (Hv _ _ _ _ Hb).
Defined.
