(* ===== verification/Protocol.v ===== *)
(** * The protocol each side of the ceremony follows

    An abstract specification of the authentication ceremony: one state
    machine per role over the log of [Seams], whose transitions carry the
    conditions under which an effect is allowed. It says nothing of framing,
    encryption, deadlines or clocks. [HandshakeProofs] shows that the functions
    of [Handshake] implement it: what a run does is always a path of the
    machine of its role. *)

From stdpp Require Import base gmap sets list strings.
From Stdlib Require Import ZArith Lia Ascii.
From S2P Require Import Prelude.
From S2P Require Import Cbor.
From S2P Require Import Crypto.
From S2P Require Import SessionErrors.
From S2P Require Import Delegation.
From S2P Require Import AuthFrames.
From S2P Require Import Intent.
From S2P Require Import Seams.
From S2P Require Import Handshake.

Open Scope Z_scope.

Section protocol.
Context `{!CborCrate, !SessionCrypto, !Snow, !Seams}.
Context (local : LocalIdentity) (checkpoint : LocalCheckpoint) (channel : ExpectedChannel)
        (policy : DelegationPolicy) (lease_expires_at ingress_expiry : Z).

(** What a signer returns has 64 bytes. *)
Definition sig_sized (r : Result AuthFrameError bytes) : Prop :=
  match r with Ok sig => length sig = 64%nat | Err _ => True end.

(** A low-S signature of [p] by the local key. *)
Definition signed (p sig : bytes) : Prop :=
  ∃ s, parse_low_s_signature sig = Ok s ∧ ecdsa_verify public_key p s = true.

(** A peer's delegation in scope: issued by the machine that presents it, for
    this household, this channel and exactly the ceremony's roles and kinds. *)
Record delegation_in_scope (d : MeshSessionDelegation) (hh_id m_id : string) (fingerprint : bytes)
    : Prop := {
  sc_household : hh_id = li_hh_id local;
  sc_delegated_household : d_hh_id d = li_hh_id local;
  sc_delegator : d_delegator_m_id d = m_id;
  sc_fingerprint : d_delegator_cert_fingerprint d = fingerprint;
  sc_roles : d_roles d ≡ₚ EXPECTED_DELEGATION_ROLES;
  sc_kinds : d_transcript_kinds d ≡ₚ EXPECTED_TRANSCRIPT_KINDS;
  sc_channel : d_channel d = channel_as_str channel;
}.

(** The checkpoint a proof carries is the local one. *)
Definition same_checkpoint (hash : bytes) (sequence : Z) (event_head : bytes) (not_after : Z) : Prop :=
  hash = lc_hash checkpoint ∧ sequence = lc_sequence checkpoint ∧
  event_head = lc_event_head checkpoint ∧ not_after = lc_not_after checkpoint.

(** The latest time that every bound on the session allows. *)
Definition is_expiry (exp peer_not_after intent_not_after : Z) : Prop :=
  let bounds := [lc_not_after checkpoint; d_not_after (li_delegation local); peer_not_after;
                 lease_expires_at; ingress_expiry; intent_not_after] in
  exp ∈ bounds ∧ ∀ b, b ∈ bounds → exp ≤ b.

(** ** Responder *)

Record proof_i_for_us (h : bytes) (pi : ProofI) : Prop := {
  pf_h_final : pi_h_final pi = h;
  pf_peer : pi_expected_peer_m_id pi = li_m_id local;
  pf_peer_fingerprint : pi_expected_peer_cert_fingerprint pi = li_cert_fingerprint local;
  pf_checkpoint : same_checkpoint (pi_checkpoint_hash pi) (pi_checkpoint_sequence pi)
                    (pi_checkpoint_event_head pi) (pi_checkpoint_not_after pi);
}.

(** Proof-I and the intent, both signed by [k], agree and name this machine. *)
Record intent_admitted (i : SignedMeshConnectionIntent) (pi : ProofI) (k : VerifyingKey) (exp : Z)
    : Prop := {
  ia_proof : verify_frame pi (pi_sig pi) k = Ok tt;
  ia_intent : verify_intent_record i k = Ok tt;
  ia_digest : intent_digest i = Ok (pi_connection_intent_digest pi);
  ia_key_id : in_delegated_key_id i = d_delegated_key_id (pi_delegation pi);
  ia_household : in_hh_id i = pi_hh_id pi;
  ia_initiator : in_initiator_m_id i = pi_self_m_id pi;
  ia_initiator_fingerprint : in_initiator_cert_fingerprint i = pi_self_cert_fingerprint pi;
  ia_target : in_target_m_id i = li_m_id local;
  ia_target_fingerprint : in_target_cert_fingerprint i = li_cert_fingerprint local;
  ia_window : in_not_after i ≤ d_not_after (pi_delegation pi);
  ia_expiry : is_expiry exp (d_not_after (pi_delegation pi)) (in_not_after i);
}.

Definition nonce_key_of (i : SignedMeshConnectionIntent) : IntentNonceKey :=
  MkIntentNonceKey (in_hh_id i) (in_initiator_m_id i) (in_delegated_key_id i) (in_nonce i).

Record activate_answers (h : bytes) (fc : FinalConfirm) (k : VerifyingKey) (a : Activate) : Prop := {
  an_h_final : ac_h_final a = h;
  an_responder : ac_responder_m_id a = li_m_id local;
  an_digest : frame_digest fc = Ok (ac_final_confirm_digest a);
  an_signed : verify_frame a (ac_sig a) k = Ok tt;
}.

(** What is settled once the nonce is consumed. *)
Record RSession := MkRSession {
  rs_h : bytes;
  rs_intent : SignedMeshConnectionIntent;
  rs_proof_i : ProofI;
  rs_key : VerifyingKey;
  rs_expires_at : Z;
}.

Inductive RPhase :=
| R_Idle
| R_Noise (h : bytes)
| R_SignedR (h : bytes) (f : ProofR) (sig : bytes)
| R_SentR (h : bytes)
| R_Intent (h : bytes) (i : SignedMeshConnectionIntent)
| R_Frame2 (h : bytes) (i : SignedMeshConnectionIntent) (f : AuthFrame)
| R_Gated (h : bytes) (i : SignedMeshConnectionIntent) (pi : ProofI)
| R_Resolved (h : bytes) (i : SignedMeshConnectionIntent) (pi : ProofI) (k : ResolvedSignerAuthority)
| R_Consumed (t : RSession)
| R_SignedFC (t : RSession) (f : FinalConfirm) (sig : bytes)
| R_SentFC (t : RSession) (fc : FinalConfirm)
| R_Frame4 (t : RSession) (fc : FinalConfirm) (f : AuthFrame)
| R_SignedAck (t : RSession) (fc : FinalConfirm) (a : Activate) (f : ActivateAck) (sig : bytes)
| R_Reserved (t : RSession) (fc : FinalConfirm) (a : Activate) (f : ActivateAck) (sig : bytes)
| R_SentAck (t : RSession) (fc : FinalConfirm) (a : Activate) (ack : ActivateAck)
| R_Active (t : RSession) (fc : FinalConfirm) (a : Activate) (ack : ActivateAck)
| R_Closed.

Inductive rstep : RPhase → Event → RPhase → Prop :=
| rs_noise h : rstep R_Idle (Ev_Noise h) (R_Noise h)
| rs_sign_r h f p r :
    proof_r_new h (li_hh_id local) (li_m_id local) (li_cert_fingerprint local) (lc_hash checkpoint)
      (lc_sequence checkpoint) (lc_event_head checkpoint) (lc_not_after checkpoint)
      (li_delegation local) zero_sig = Ok f →
    for_frame f = Ok p →
    sig_sized r →
    rstep (R_Noise h) (Ev_Sign p r) (match r with Ok sig => R_SignedR h f sig | Err _ => R_Closed end)
| rs_send_r h f p sig :
    for_frame f = Ok p → signed p sig →
    rstep (R_SignedR h f sig) (Ev_SendFrame (AF_ProofR (with_sig_bytes sig f))) (R_SentR h)
| rs_recv_intent h i : intent_valid i → rstep (R_SentR h) (Ev_RecvIntent i) (R_Intent h i)
| rs_recv_frame2 h i f : auth_frame_valid f → rstep (R_Intent h i) (Ev_RecvFrame f) (R_Frame2 h i f)
| rs_verify_delegation h i pi r :
    proof_i_for_us h pi → policy_validate policy (pi_delegation pi) = Ok tt →
    rstep (R_Frame2 h i (AF_ProofI pi)) (Ev_VerifyDelegation (pi_delegation pi) r)
      (match r with Ok _ => R_Gated h i pi | Err _ => R_Closed end)
| rs_resolve h i pi r :
    delegation_in_scope (pi_delegation pi) (pi_hh_id pi) (pi_self_m_id pi) (pi_self_cert_fingerprint pi) →
    rstep (R_Gated h i pi)
      (Ev_Resolve (pi_hh_id pi) (pi_self_m_id pi) channel (d_delegated_key_id (pi_delegation pi)) r)
      (match r with Ok k => R_Resolved h i pi k | Err _ => R_Closed end)
| rs_consume h i pi rs k exp r :
    from_sec1_bytes (rs_delegated_pub rs) = Some k → rs_not_after rs = d_not_after (pi_delegation pi) →
    intent_admitted i pi k exp →
    rstep (R_Resolved h i pi rs)
      (Ev_Consume (nonce_key_of i) (in_not_after i) (pi_connection_intent_digest pi) channel r)
      (match r with Ok NC_Committed => R_Consumed (MkRSession h i pi k exp) | _ => R_Closed end)
| rs_sign_fc t f p r :
    final_confirm_new (rs_h t) (pi_self_m_id (rs_proof_i t)) (pi_self_cert_fingerprint (rs_proof_i t))
      (li_m_id local) zero_sig = Ok f →
    for_frame f = Ok p →
    sig_sized r →
    rstep (R_Consumed t) (Ev_Sign p r) (match r with Ok sig => R_SignedFC t f sig | Err _ => R_Closed end)
| rs_send_fc t f p sig :
    for_frame f = Ok p → signed p sig →
    rstep (R_SignedFC t f sig) (Ev_SendFrame (AF_FinalConfirm (with_sig_bytes sig f)))
      (R_SentFC t (with_sig_bytes sig f))
| rs_recv_frame4 t fc f : auth_frame_valid f → rstep (R_SentFC t fc) (Ev_RecvFrame f) (R_Frame4 t fc f)
| rs_sign_ack t fc a dg f p r :
    activate_answers (rs_h t) fc (rs_key t) a → frame_digest a = Ok dg →
    activate_ack_new (rs_h t) (li_m_id local) dg zero_sig = Ok f → for_frame f = Ok p →
    sig_sized r →
    rstep (R_Frame4 t fc (AF_Activate a)) (Ev_Sign p r)
      (match r with Ok sig => R_SignedAck t fc a f sig | Err _ => R_Closed end)
| rs_reserve t fc a f p sig r :
    for_frame f = Ok p → signed p sig →
    rstep (R_SignedAck t fc a f sig)
      (Ev_Reserve (MkD1MembershipKey (rs_h t) (pi_hh_id (rs_proof_i t)) (pi_self_m_id (rs_proof_i t))
         (pi_self_cert_fingerprint (rs_proof_i t)) (lc_hash checkpoint) (lc_sequence checkpoint)) r)
      (match r with Ok _ => R_Reserved t fc a f sig | Err _ => R_Closed end)
| rs_send_ack t fc a f sig :
    rstep (R_Reserved t fc a f sig) (Ev_SendFrame (AF_ActivateAck (with_sig_bytes sig f)))
      (R_SentAck t fc a (with_sig_bytes sig f))
| rs_commit t fc a ack : rstep (R_SentAck t fc a ack) Ev_Commit (R_Active t fc a ack)
| rs_cancel_unsent t fc a f sig o : rstep (R_Reserved t fc a f sig) (Ev_Cancel o) R_Closed
| rs_cancel_sent t fc a ack o : rstep (R_SentAck t fc a ack) (Ev_Cancel o) R_Closed.

(** A permit is outstanding, or the session is up. *)
Definition r_holds (ph : RPhase) : bool :=
  match ph with R_Reserved _ _ _ _ _ | R_SentAck _ _ _ _ | R_Active _ _ _ _ => true | _ => false end.

(** ** Initiator *)

Context (intent : SignedMeshConnectionIntent) (expected : ExpectedResponder).

Record proof_r_expected (h : bytes) (pr : ProofR) : Prop := {
  pe_h_final : pr_h_final pr = h;
  pe_household : pr_hh_id pr = er_hh_id expected;
  pe_responder : pr_self_m_id pr = er_m_id expected;
  pe_fingerprint : pr_self_cert_fingerprint pr = er_cert_fingerprint expected;
  pe_checkpoint : same_checkpoint (pr_checkpoint_hash pr) (pr_checkpoint_sequence pr)
                    (pr_checkpoint_event_head pr) (pr_checkpoint_not_after pr);
}.

(** Proof-R is signed by [k], the key its delegation names. *)
Record responder_admitted (pr : ProofR) (k : VerifyingKey) (exp : Z) : Prop := {
  ra_scope : delegation_in_scope (pr_delegation pr) (pr_hh_id pr) (pr_self_m_id pr) (pr_self_cert_fingerprint pr);
  ra_key : from_sec1_bytes (d_delegated_pub (pr_delegation pr)) = Some k;
  ra_signed : verify_frame pr (pr_sig pr) k = Ok tt;
  ra_expiry : is_expiry exp (d_not_after (pr_delegation pr)) (in_not_after intent);
}.

Record final_confirm_for_us (h : bytes) (k : VerifyingKey) (fc : FinalConfirm) : Prop := {
  ff_h_final : fc_h_final fc = h;
  ff_initiator : fc_initiator_m_id fc = li_m_id local;
  ff_initiator_fingerprint : fc_initiator_cert_fingerprint fc = li_cert_fingerprint local;
  ff_responder : fc_responder_m_id fc = er_m_id expected;
  ff_signed : verify_frame fc (fc_sig fc) k = Ok tt;
}.

Record ack_answers (h : bytes) (k : VerifyingKey) (a : Activate) (ack : ActivateAck) : Prop := {
  ak_h_final : aa_h_final ack = h;
  ak_responder : aa_responder_m_id ack = er_m_id expected;
  ak_digest : frame_digest a = Ok (aa_activate_digest ack);
  ak_signed : verify_frame ack (aa_sig ack) k = Ok tt;
}.

(** What is settled once Proof-R is accepted. *)
Record ISession := MkISession {
  is_h : bytes;
  is_proof_r : ProofR;
  is_key : VerifyingKey;
  is_expires_at : Z;
}.

Inductive IPhase :=
| I_Idle
| I_Noise (h : bytes)
| I_Frame1 (h : bytes) (f : AuthFrame)
| I_Gated (h : bytes) (pr : ProofR)
| I_SentIntent (t : ISession)
| I_SignedI (t : ISession) (f : ProofI) (sig : bytes)
| I_SentI (t : ISession)
| I_Frame3 (t : ISession) (f : AuthFrame)
| I_SignedA (t : ISession) (fc : FinalConfirm) (f : Activate) (sig : bytes)
| I_Reserved (t : ISession) (fc : FinalConfirm) (f : Activate) (sig : bytes)
| I_SentA (t : ISession) (fc : FinalConfirm) (a : Activate)
| I_Frame5 (t : ISession) (fc : FinalConfirm) (a : Activate) (f : AuthFrame)
| I_Active (t : ISession) (fc : FinalConfirm) (a : Activate) (ack : ActivateAck)
| I_Closed.

Inductive istep : IPhase → Event → IPhase → Prop :=
| is_noise h : istep I_Idle (Ev_Noise h) (I_Noise h)
| is_recv_frame1 h f : auth_frame_valid f → istep (I_Noise h) (Ev_RecvFrame f) (I_Frame1 h f)
| is_verify_delegation h pr r :
    proof_r_expected h pr → policy_validate policy (pr_delegation pr) = Ok tt →
    istep (I_Frame1 h (AF_ProofR pr)) (Ev_VerifyDelegation (pr_delegation pr) r)
      (match r with Ok _ => I_Gated h pr | Err _ => I_Closed end)
| is_send_intent h pr k exp :
    responder_admitted pr k exp →
    istep (I_Gated h pr) (Ev_SendIntent intent) (I_SentIntent (MkISession h pr k exp))
| is_sign_i t dg f p r :
    intent_digest intent = Ok dg →
    proof_i_new (is_h t) (li_hh_id local) (li_m_id local) (er_m_id expected) (li_cert_fingerprint local)
      (er_cert_fingerprint expected) (lc_hash checkpoint) (lc_sequence checkpoint)
      (lc_event_head checkpoint) (lc_not_after checkpoint) (li_delegation local) dg zero_sig = Ok f →
    for_frame f = Ok p →
    sig_sized r →
    istep (I_SentIntent t) (Ev_Sign p r) (match r with Ok sig => I_SignedI t f sig | Err _ => I_Closed end)
| is_send_i t f p sig :
    for_frame f = Ok p → signed p sig →
    istep (I_SignedI t f sig) (Ev_SendFrame (AF_ProofI (with_sig_bytes sig f))) (I_SentI t)
| is_recv_frame3 t f : auth_frame_valid f → istep (I_SentI t) (Ev_RecvFrame f) (I_Frame3 t f)
| is_sign_a t fc dg f p r :
    final_confirm_for_us (is_h t) (is_key t) fc → frame_digest fc = Ok dg →
    activate_new (is_h t) (er_m_id expected) dg zero_sig = Ok f → for_frame f = Ok p →
    sig_sized r →
    istep (I_Frame3 t (AF_FinalConfirm fc)) (Ev_Sign p r)
      (match r with Ok sig => I_SignedA t fc f sig | Err _ => I_Closed end)
| is_reserve t fc f p sig r :
    for_frame f = Ok p → signed p sig →
    istep (I_SignedA t fc f sig)
      (Ev_Reserve (MkD1MembershipKey (is_h t) (li_hh_id local) (er_m_id expected)
         (er_cert_fingerprint expected) (lc_hash checkpoint) (lc_sequence checkpoint)) r)
      (match r with Ok _ => I_Reserved t fc f sig | Err _ => I_Closed end)
| is_send_a t fc f sig :
    istep (I_Reserved t fc f sig) (Ev_SendFrame (AF_Activate (with_sig_bytes sig f)))
      (I_SentA t fc (with_sig_bytes sig f))
| is_recv_frame5 t fc a f : auth_frame_valid f → istep (I_SentA t fc a) (Ev_RecvFrame f) (I_Frame5 t fc a f)
| is_commit t fc a ack :
    ack_answers (is_h t) (is_key t) a ack →
    istep (I_Frame5 t fc a (AF_ActivateAck ack)) Ev_Commit (I_Active t fc a ack)
| is_cancel_unsent t fc f sig o : istep (I_Reserved t fc f sig) (Ev_Cancel o) I_Closed
| is_cancel_sent t fc a o : istep (I_SentA t fc a) (Ev_Cancel o) I_Closed
| is_cancel_answered t fc a f o : istep (I_Frame5 t fc a f) (Ev_Cancel o) I_Closed.

Definition i_holds (ph : IPhase) : bool :=
  match ph with
  | I_Reserved _ _ _ _ | I_SentA _ _ _ | I_Frame5 _ _ _ _ | I_Active _ _ _ _ => true
  | _ => false
  end.
End protocol.
