(* ===== verification/HandshakeProofs.v ===== *)
(** * The ceremony implements its protocol

    The logs of [run_responder_handshake] and [run_initiator_handshake] are
    paths of the state machines of [Protocol], and what follows: when a nonce
    is consumed, that a D1 permit is always settled, and that two sides that
    both finish agree. *)

From stdpp Require Import base gmap sets list strings sorting.
From Stdlib Require Import ZArith Lia Ascii Sorting.Sorted.
From S2P Require Import Prelude.
From S2P Require Import Rekey.
From S2P Require Import Cbor.
From S2P Require Import CborProofs.
From S2P Require Import CborSample.
From S2P Require Import Wire.
From S2P Require Import Ingress.
From S2P Require Import Crypto.
From S2P Require Import SessionErrors.
From S2P Require Import Delegation.
From S2P Require Import AuthFrames.
From S2P Require Import Intent.
From S2P Require Import Seams.
From S2P Require Import Refine.
From S2P Require Import Noise.
From S2P Require Import Handshake.
From S2P Require Import SessionSamples.
From S2P Require Import Protocol.

Open Scope Z_scope.

(** ** Exact sets of strings *)

Lemma str_cmp_antisym x y : str_cmp y x = CompOpp (str_cmp x y).
Proof. apply bytes_cmp_antisym. Qed.

Lemma str_order_trans : Transitive (in_order str_cmp).
Proof.
  intros x y z. unfold in_order, str_cmp.
  destruct (bytes_cmp (as_bytes x) (as_bytes y)) eqn:Exy; [| |done]; intros _.
  - apply bytes_cmp_Eq in Exy. by rewrite Exy.
  - destruct (bytes_cmp (as_bytes y) (as_bytes z)) eqn:Eyz; [| |done]; intros _.
    + apply bytes_cmp_Eq in Eyz. by rewrite <-Eyz, Exy.
    + by rewrite (bytes_cmp_trans _ _ _ Exy Eyz).
Qed.

Lemma sort_str_perm l l' : sort_by str_cmp l = sort_by str_cmp l' ↔ l ≡ₚ l'.
Proof.
  split.
  - intros Heq. by rewrite <-(sort_by_perm str_cmp l), Heq, sort_by_perm.
  - intros Hp. apply (StronglySorted_unique_strong (in_order str_cmp)).
    + intros x y _ _ Hxy Hyx. apply as_bytes_inj, bytes_cmp_Eq. fold (str_cmp x y).
      unfold in_order in *. rewrite str_cmp_antisym in Hyx. by destruct (str_cmp x y).
    + apply Sorted_StronglySorted; [apply str_order_trans|apply sort_by_sorted, str_cmp_antisym].
    + apply Sorted_StronglySorted; [apply str_order_trans|apply sort_by_sorted, str_cmp_antisym].
    + by rewrite !sort_by_perm.
Qed.

Lemma string_set_matches_perm actual expected :
  string_set_matches_exactly actual expected = true ↔ actual ≡ₚ expected.
Proof. unfold string_set_matches_exactly. rewrite bool_decide_eq_true. apply sort_str_perm. Qed.

(** ** The building blocks *)

Section blocks.
Context `{!CborCrate, !CborLaws, !SessionCrypto, !Snow, !Seams} {P : Type} (step : P → Event → P → Prop).

Lemma silent_deadline deadline : Silent any (check_ceremony_deadline deadline).
Proof. unfold check_ceremony_deadline. silent. Qed.

Lemma silent_clock : Silent any read_clock.
Proof. unfold read_clock. silent. Qed.

Lemma silent_recv transport : Silent any (recv_plaintext transport).
Proof. unfold recv_plaintext. silent. Qed.

Lemma ref_send_record e ph ph' transport plaintext (Q : TransportState → P → Prop) (QE : P → Prop) :
  step ph e ph' → (∀ t, Q t ph') → QE ph → QE ph' →
  Refines any step ph (send_record_of e transport plaintext) Q QE.
Proof.
  intros Hs HQ HE HE'. unfold send_record_of.
  apply ref_lift_bind; [done|]. intros [ct t] _.
  apply (ref_bind (Q1:=λ _ p, p = ph')); [by apply ref_log with ph'|]. intros [] ? ->.
  apply ref_silent_bind; [silent|done|]. intros []. by apply ref_ret.
Qed.

Lemma ref_send_frame f ph ph' transport (Q : TransportState → P → Prop) (QE : P → Prop) :
  step ph (Ev_SendFrame f) ph' → (∀ t, Q t ph') → QE ph → QE ph' →
  Refines any step ph (send_frame transport f) Q QE.
Proof.
  intros Hs HQ HE HE'. unfold send_frame. apply ref_lift_bind; [done|]. intros pt _.
  by apply ref_send_record with ph'.
Qed.

Lemma ref_send_intent i ph ph' transport (Q : TransportState → P → Prop) (QE : P → Prop) :
  step ph (Ev_SendIntent i) ph' → (∀ t, Q t ph') → QE ph → QE ph' →
  Refines any step ph (send_intent_record transport i) Q QE.
Proof.
  intros Hs HQ HE HE'. unfold send_intent_record. apply ref_lift_bind; [done|]. intros pt _.
  by apply ref_send_record with ph'.
Qed.

Lemma ref_recv_frame ph (next : AuthFrame → P) transport (Q : AuthFrame * TransportState → P → Prop)
    (QE : P → Prop) :
  (∀ f, auth_frame_valid f → step ph (Ev_RecvFrame f) (next f)) → (∀ f t, Q (f, t) (next f)) → QE ph →
  Refines any step ph (recv_frame transport) Q QE.
Proof.
  intros Hs HQ HE. unfold recv_frame.
  apply ref_silent_bind; [apply silent_recv|done|]. intros [pt t].
  apply ref_lift_bind; [done|]. intros f Hf%decode_auth_frame_valid.
  apply (ref_bind (Q1:=λ _ p, p = next f)); [by apply ref_log with (next f); [apply Hs|]|]. intros [] ? ->.
  by apply ref_ret.
Qed.

Lemma ref_recv_intent ph (next : SignedMeshConnectionIntent → P) transport
    (Q : SignedMeshConnectionIntent * TransportState → P → Prop) (QE : P → Prop) :
  (∀ i, intent_valid i → step ph (Ev_RecvIntent i) (next i)) → (∀ i t, Q (i, t) (next i)) → QE ph →
  Refines any step ph (recv_intent_record transport) Q QE.
Proof.
  intros Hs HQ HE. unfold recv_intent_record.
  apply ref_silent_bind; [apply silent_recv|done|]. intros [pt t].
  apply ref_lift_bind; [done|]. intros i Hi%map_err_Ok%decode_intent_record_valid.
  apply (ref_bind (Q1:=λ _ p, p = next i)); [by apply ref_log with (next i); [apply Hs|]|]. intros [] ? ->.
  by apply ref_ret.
Qed.

(** Signing: the signature that comes back is by the local key. *)
Lemma ref_sign `{!Serde F, !AuthFrameBody F} (f : F) ph (next : Result AuthFrameError bytes → P)
    (QE : P → Prop) :
  (∀ p r, for_frame f = Ok p → sig_sized r → step ph (Ev_Sign p r) (next r)) → QE ph → (∀ r, QE (next r)) →
  Refines any step ph (sign_with_k_mesh f)
    (λ f' ph', ∃ p sig, for_frame f = Ok p ∧ signed p sig ∧ f' = with_sig_bytes sig f ∧
       ph' = next (Ok sig)) QE.
Proof.
  intros Hs HE HE'. unfold sign_with_k_mesh, sign_frame.
  apply ref_lift_bind; [done|]. intros p Hp.
  apply (ref_bind (Q1:=λ sig ph1, ph1 = next (Ok sig)));
    [apply ref_logged with next; [|done|done]; intros r x x' Hr; apply Hs; [done|];
     destruct r; [by eapply sign_64|done]|].
  intros sig ? ->. apply ref_lift_bind; [done|]. intros s Hlow.
  apply ref_lift_bind; [done|]. intros [] Hv%reject_if_Ok%negb_false_iff.
  apply ref_ret. exists p, sig. split_and!; [done| |done..]. by exists s.
Qed.

(** A step guarded by a permit: a failure inside cancels it. *)
Lemma ref_or_cancel {A} ph pending (m : ST Conn AuthFrameError A) (Q : A → P → Prop)
    (mid QE : P → Prop) :
  Refines any step ph m Q mid → (∀ p, mid p → ∀ o, ∃ p', step p (Ev_Cancel o) p' ∧ QE p') →
  Refines any step ph (or_cancel pending m) Q QE.
Proof.
  intros Hm Hc. apply ref_any.
  intros c r c' Hr. unfold or_cancel in Hr. destruct (m c) as [[a|e] c1] eqn:Em.
  - injection Hr as <- <-. by apply (ref_conn Hm Em).
  - destruct (ref_conn Hm Em) as (l & ph1 & Hl & Hp & Hmid). unfold cancel, mbind, ST_bind, ask in Hr.
    destruct (cancel_before_ack pending (c_ext c1)) as [o x].
    cbn in Hr. injection Hr as <- <-. destruct (Hc _ Hmid o) as (ph2 & Hs & HE).
    exists (l ++ [Ev_Cancel o]), ph2. cbn. rewrite Hl, (assoc_L (++)). split_and!; [done| |done].
    eapply path_app; [done|]. econstructor; [done|constructor].
Qed.

Lemma ref_commit pending ph ph' (Q : Active → P → Prop) QE :
  step ph Ev_Commit ph' → (∀ g, Q g ph') → Refines any step ph (commit pending) Q QE.
Proof.
  intros Hs HQ. apply ref_any. intros c r c' Hr. unfold commit, mbind, ST_bind, ask in Hr.
  destruct (commit_after_ack pending (c_ext c)) as [g x]. cbn in Hr. injection Hr as <- <-.
  exists [Ev_Commit], ph'. split_and!; [done| |done]. econstructor; [done|constructor].
Qed.

Lemma ref_reserve key ph (next : Result IntentError unit → P) (Q : Pending → P → Prop) (QE : P → Prop) :
  (∀ r, step ph (Ev_Reserve key r) (next r)) → (∀ p, Q p (next (Ok tt))) → (∀ e, QE (next (Err e))) →
  Refines any step ph (reserve key) Q QE.
Proof.
  intros Hs HQ HE. unfold reserve. apply ref_map_err.
  apply (ref_logged _ _ _ _ (λ r, next (_ ← r; Ok tt))); [intros; apply Hs|done|done].
Qed.

Lemma ref_begin role deadline threshold ph (next : bytes → P)
    (Q : SessionRekeyState * TransportState * bytes → P → Prop) (QE : P → Prop) :
  (∀ h, step ph (Ev_Noise h) (next h)) → (∀ r t h, Q (r, t, h) (next h)) →
  QE ph → (∀ h, QE (next h)) → Refines any step ph (begin_ceremony role deadline threshold) Q QE.
Proof.
  intros Hs HQ HE HE'. unfold begin_ceremony.
  apply ref_silent_bind; [apply silent_deadline|done|]. intros [].
  apply ref_silent_bind; [unfold mint_rekey; silent|done|]. intros rk.
  apply (ref_bind (Q1:=λ th p, p = next th.2)).
  - apply ref_map_err. unfold run_xx_handshake.
    apply ref_silent_bind; [unfold build_handshake_state; silent|done|]. intros hs.
    apply ref_silent_bind; [unfold send_flight, recv_flight; silent|done|]. intros hs1.
    apply ref_lift_bind; [done|]. intros [] _. apply ref_lift_bind; [done|]. intros t _.
    apply (ref_bind (Q1:=λ _ p, p = next (get_handshake_hash hs1)));
      [by apply ref_log with (next (get_handshake_hash hs1))|].
    intros [] ? ->. by apply ref_ret.
  - intros [t h] ? ->. cbn [snd].
    apply ref_silent_bind; [apply silent_deadline|done|]. intros []. by apply ref_ret.
Qed.
End blocks.

(** Steps of a proof that a phase of the ceremony follows the machine: a pure
    check or value, with what it establishes; a check of the deadline; a
    reading of the clock. *)
Tactic Notation "ref_pure" simple_intropattern(x) simple_intropattern(H) :=
  apply ref_lift_bind; [done|]; intros x H.
Ltac ref_skip :=
  apply ref_silent_bind; [first [apply silent_deadline|apply silent_clock]|done|].

(** ** The checks *)

Section checks.
Context `{!CborCrate, !CborLaws, !SessionCrypto, !Snow, !Seams} {P : Type} (step : P → Event → P → Prop).
Context (local : LocalIdentity) (checkpoint : LocalCheckpoint) (channel : ExpectedChannel)
        (policy : DelegationPolicy) (lease_expires_at ingress_expiry : Z).

Lemma check_checkpoint_Ok hash seq head na u :
  check_checkpoint hash seq head na checkpoint = Ok u → same_checkpoint checkpoint hash seq head na.
Proof.
  unfold check_checkpoint. intros Hc%reject_if_Ok.
  rewrite !orb_false_iff, !negb_false_iff, !bool_decide_eq_false, !Z.eqb_eq in Hc.
  destruct Hc as [[[?%dec_stable ?] ?%dec_stable] ?]. done.
Qed.

Lemma reject_ne_Ok {E A} `{!EqDecision A} (x y : A) (e : E) u :
  reject_if (bool_decide (x ≠ y)) e = Ok u → x = y.
Proof. intros Hc%reject_if_Ok. by apply bool_decide_eq_false, dec_stable in Hc. Qed.

Lemma reject_string_Ok {E} x y (e : E) u : reject_if (negb (String.eqb x y)) e = Ok u → x = y.
Proof. by intros Hc%reject_if_Ok%negb_false_iff%String.eqb_eq. Qed.

Lemma reject_set_Ok {E} actual expected (e : E) u :
  reject_if (negb (string_set_matches_exactly actual expected)) e = Ok u → actual ≡ₚ expected.
Proof. by intros Hc%reject_if_Ok%negb_false_iff%string_set_matches_perm. Qed.

Lemma sig_array_Ok sig sig' : sig_array sig = Ok sig' → sig' = sig.
Proof. unfold sig_array. intros Hs. apply bind_Ok in Hs as ([] & _ & [= <-]). done. Qed.

Lemma effective_expires_at_spec peer intent :
  is_expiry local checkpoint lease_expires_at ingress_expiry
    (effective_expires_at (lc_not_after checkpoint) (d_not_after (li_delegation local)) peer
       lease_expires_at ingress_expiry intent) peer intent.
Proof.
  unfold is_expiry, effective_expires_at. split; [|set_solver by lia].
  rewrite !elem_of_cons. lia.
Qed.

Lemma ref_gate d hh m fp ph (next : Result DelegationError unit → P) (Q : unit → P → Prop) (QE : P → Prop) :
  (policy_validate policy d = Ok tt → ∀ r, step ph (Ev_VerifyDelegation d r) (next r)) →
  (delegation_in_scope local channel d hh m fp → Q tt (next (Ok tt))) → QE ph → (∀ r, QE (next r)) →
  Refines any step ph (pass_delegation_gate d policy
    (MkPartialBindingInputs hh (li_hh_id local) m fp) channel) Q QE.
Proof.
  intros Hs HQ HE HE'. unfold pass_delegation_gate. ref_pure [] Hp%map_err_Ok.
  apply (ref_bind (Q1:=λ _ p, p = next (Ok tt))).
  { apply ref_map_err, ref_logged with next; [intros; by apply Hs|by intros []|done]. }
  intros [] ? ->. ref_pure [] Hroles%reject_set_Ok. ref_pure [] Hkinds%reject_set_Ok.
  ref_pure [] Hch%reject_string_Ok. apply ref_lift; [|done].
  intros [] Hb%map_err_Ok. apply check_partial_binding_Ok in Hb as (? & ? & ? & ?). cbn in *.
  apply HQ. split; congruence.
Qed.

Lemma combined_check_Ok i dg pi k now key exp :
  intent_digest i = Ok dg → verify_frame pi (pi_sig pi) k = Ok tt →
  run_combined_intent_check i dg pi k local checkpoint lease_expires_at ingress_expiry now = Ok (key, exp) →
  key = nonce_key_of i ∧ dg = pi_connection_intent_digest pi ∧ now < exp ∧
  intent_admitted local checkpoint lease_expires_at ingress_expiry i pi k exp.
Proof.
  intros Hdg Hvf Hc. unfold run_combined_intent_check in Hc.
  apply bind_Ok in Hc as ([] & Hvi%map_err_Ok & Hc). apply bind_Ok in Hc as ([] & Hk%reject_string_Ok & Hc).
  apply bind_Ok in Hc as ([] & Hd%reject_ne_Ok & Hc). apply bind_Ok in Hc as ([] & Hid%reject_if_Ok & Hc).
  apply bind_Ok in Hc as ([] & Hna%reject_if_Ok%Z.ltb_ge & Hc). apply bind_Ok in Hc as ([] & Hexp & Hc).
  apply bind_Ok in Hc as ([] & _ & [= <- <-]).
  rewrite !orb_false_iff, !negb_false_iff, !String.eqb_eq, !bool_decide_eq_false in Hid.
  destruct Hid as [[[[? ?] ?%dec_stable] ?] ?%dec_stable]. subst dg.
  unfold check_effective_expiry in Hexp.
  destruct (Z.ltb_spec now (effective_expires_at (lc_not_after checkpoint) (d_not_after (li_delegation local))
    (d_not_after (pi_delegation pi)) lease_expires_at ingress_expiry (in_not_after i))); [|done].
  split_and!; [done..|]. split; try done. apply effective_expires_at_spec.
Qed.
End checks.

(** ** The responder *)

Section responder.
Context `{!CborCrate, !CborLaws, !SessionCrypto, !Snow, !Seams}.
Context (local : LocalIdentity) (checkpoint : LocalCheckpoint) (channel : ExpectedChannel)
        (policy : DelegationPolicy) (lease_expires_at ingress_expiry : Z) (deadline : CeremonyDeadline).

Abbreviation R := (rstep local checkpoint channel policy lease_expires_at ingress_expiry).
Abbreviation RE := (λ ph, r_holds ph = false).

Lemma ref_send_proof_r transport h :
  Refines any R (R_Noise h) (responder_send_proof_r local checkpoint transport h) (λ _ ph, ph = R_SentR h) RE.
Proof.
  unfold responder_send_proof_r. ref_pure f Hf. eapply ref_bind.
  - apply ref_sign with (next := λ r, match r with Ok sig => R_SignedR h f sig | Err _ => R_Closed end);
      [intros; by eapply rs_sign_r|done|by intros []].
  - intros f' ? (pre & sig & Hpre & Hsig & -> & ->).
    apply ref_send_frame with (R_SentR h); [by eapply rs_send_r|done..].
Qed.

Lemma ref_responder_recv_intent transport h :
  Refines any R (R_SentR h) (responder_recv_intent deadline transport)
    (λ '(i, dg, _) ph, ph = R_Intent h i ∧ intent_digest i = Ok dg) RE.
Proof.
  unfold responder_recv_intent. apply (ref_bind (Q1:=λ '(i, _) ph, ph = R_Intent h i)).
  { apply ref_recv_intent with (R_Intent h); [by constructor|done..]. }
  intros [i t] ? ->. ref_pure dg Hdg%map_err_Ok. ref_skip. intros []. by apply ref_ret.
Qed.

Lemma ref_responder_recv_proof_i transport h i :
  Refines any R (R_Intent h i) (responder_recv_proof_i local checkpoint channel policy deadline transport h)
    (λ '(pi, k, _) ph, ∃ rs, ph = R_Resolved h i pi rs ∧ from_sec1_bytes (rs_delegated_pub rs) = Some k ∧
       rs_not_after rs = d_not_after (pi_delegation pi) ∧ verify_frame pi (pi_sig pi) k = Ok tt) RE.
Proof.
  unfold responder_recv_proof_i. apply (ref_bind (Q1:=λ '(f, _) p, p = R_Frame2 h i f)).
  { apply ref_recv_frame with (R_Frame2 h i); [by constructor|done..]. }
  intros [f t] ? ->. ref_pure pi Hpi.
  assert (f = AF_ProofI pi) as -> by (destruct f; try done; by injection Hpi as <-).
  ref_pure [] Hh%reject_ne_Ok. ref_pure [] Hpeer%reject_if_Ok. ref_pure [] Hcp%check_checkpoint_Ok.
  rewrite orb_false_iff, negb_false_iff, String.eqb_eq, bool_decide_eq_false in Hpeer.
  destruct Hpeer as [Hm Hfp%dec_stable].
  apply (ref_bind (Q1:=λ _ p, p = R_Gated h i pi ∧ delegation_in_scope local channel (pi_delegation pi)
    (pi_hh_id pi) (pi_self_m_id pi) (pi_self_cert_fingerprint pi))).
  { apply ref_gate with (λ r, match r with Ok _ => R_Gated h i pi | Err _ => R_Closed end);
      [intros; by constructor|done|done|by intros []]. }
  intros [] ? [-> Hscope]. ref_skip. intros []. apply (ref_bind (Q1:=λ rs p, p = R_Resolved h i pi rs)).
  { apply ref_map_err, ref_logged with (λ r, match r with Ok k => R_Resolved h i pi k | Err _ => R_Closed end);
      [intros; by constructor|done|done]. }
  intros rs ? ->. ref_pure [] Hna%reject_if_Ok%negb_false_iff%Z.eqb_eq. ref_pure k Hk%ok_or_Ok.
  ref_pure sig Hs%sig_array_Ok. subst sig. ref_pure [] Hv. apply ref_ret. eauto.
Qed.

Lemma ref_responder_consume i dg pi k rs h :
  intent_digest i = Ok dg → from_sec1_bytes (rs_delegated_pub rs) = Some k →
  rs_not_after rs = d_not_after (pi_delegation pi) → verify_frame pi (pi_sig pi) k = Ok tt →
  Refines any R (R_Resolved h i pi rs)
    (responder_consume_nonce local checkpoint channel deadline i dg pi k lease_expires_at ingress_expiry)
    (λ exp ph, ph = R_Consumed (MkRSession h i pi k exp)) RE.
Proof.
  intros Hdg Hk Hna Hv. unfold responder_consume_nonce. ref_skip. intros now. ref_pure [key exp] Hc.
  destruct (combined_check_Ok _ _ _ _ _ _ _ _ _ _ _ Hdg Hv Hc) as (-> & -> & _ & Hadm).
  ref_skip. intros [].
  set (next := λ r : Result IntentError NonceConsumeOutcome,
    match r with Ok NC_Committed => R_Consumed (MkRSession h i pi k exp) | _ => R_Closed end).
  apply (ref_bind (Q1:=λ o p, p = next (Ok o))).
  { apply ref_map_err, ref_logged with next; [intros; by eapply rs_consume|done|done]. }
  intros o ? ->. apply ref_lift_bind; [by destruct o|]. intros [] Ho. destruct o; try done.
  ref_skip. intros []. by apply ref_ret.
Qed.

Lemma ref_responder_send_final_confirm transport t :
  Refines any R (R_Consumed t) (responder_send_final_confirm local deadline transport (rs_h t) (rs_proof_i t))
    (λ '(fc, _) ph, ph = R_SentFC t fc) RE.
Proof.
  unfold responder_send_final_confirm. ref_pure f Hf. eapply ref_bind.
  - apply ref_sign with (next := λ r, match r with Ok sig => R_SignedFC t f sig | Err _ => R_Closed end);
      [intros; by eapply rs_sign_fc|done|by intros []].
  - intros f' ? (pre & sig & Hpre & Hsig & -> & ->).
    apply (ref_bind (Q1:=λ _ p, p = R_SentFC t (with_sig_bytes sig f))).
    { apply ref_send_frame with (R_SentFC t (with_sig_bytes sig f)); [by eapply rs_send_fc|done..]. }
    intros tr ? ->. ref_skip. intros []. by apply ref_ret.
Qed.

Lemma ref_responder_recv_activate transport t fc :
  Refines any R (R_SentFC t fc) (responder_recv_activate local deadline transport (rs_h t) fc (rs_key t))
    (λ '(a, _) ph, ph = R_Frame4 t fc (AF_Activate a) ∧ activate_answers local (rs_h t) fc (rs_key t) a) RE.
Proof.
  unfold responder_recv_activate. apply (ref_bind (Q1:=λ '(f, _) p, p = R_Frame4 t fc f)).
  { apply ref_recv_frame with (R_Frame4 t fc); [by constructor|done..]. }
  intros [f tr] ? ->. ref_pure a Ha.
  assert (f = AF_Activate a) as -> by (destruct f; try done; by injection Ha as <-).
  ref_pure [] Hh%reject_ne_Ok. ref_pure [] Hm%reject_string_Ok. ref_pure dg Hdg. ref_pure [] Hd%reject_ne_Ok.
  subst dg. ref_pure sig Hs%sig_array_Ok. subst sig. ref_pure [] Hv. ref_skip. intros []. by apply ref_ret.
Qed.

Lemma ref_responder_prepare_ack t fc a :
  activate_answers local (rs_h t) fc (rs_key t) a →
  Refines any R (R_Frame4 t fc (AF_Activate a))
    (responder_prepare_ack local checkpoint (rs_h t) (rs_proof_i t) a (rs_expires_at t))
    (λ '(ack, _) ph, ∃ f sig, ack = with_sig_bytes sig f ∧ ph = R_Reserved t fc a f sig) RE.
Proof.
  intros Hans. unfold responder_prepare_ack. ref_pure dg Hdg. ref_pure f Hf. eapply ref_bind.
  { apply ref_sign with (next := λ r, match r with Ok sig => R_SignedAck t fc a f sig | Err _ => R_Closed end);
      [intros; by eapply rs_sign_ack|done|by intros []]. }
  intros f' ? (pre & sig & Hpre & Hsig & -> & ->). ref_skip. intros now. ref_pure [] _.
  apply (ref_bind (Q1:=λ _ p, p = R_Reserved t fc a f sig)).
  { apply ref_reserve with (λ r, match r with Ok _ => R_Reserved t fc a f sig | Err _ => R_Closed end);
      [intros; by eapply rs_reserve|done|done]. }
  intros pd ? ->. apply ref_ret. eauto.
Qed.

(** The session a run hands out, and what it was granted for. *)
Definition responder_session (t : RSession) (ev : IngressEvidence) (s : ActiveMeshSession) : Prop :=
  s_h_final s = rs_h t ∧ s_peer_hh_id s = pi_hh_id (rs_proof_i t) ∧
  s_peer_m_id s = pi_self_m_id (rs_proof_i t) ∧
  s_peer_cert_fingerprint s = pi_self_cert_fingerprint (rs_proof_i t) ∧
  s_ingress_evidence s = ev ∧ s_expires_at s = rs_expires_at t ∧ s_closed s = false.
End responder.

Section responder_run.
Context `{!CborCrate, !CborLaws, !SessionCrypto, !Snow, !Seams}.
Context (local : LocalIdentity) (checkpoint : LocalCheckpoint) (channel : ExpectedChannel)
        (policy : DelegationPolicy) (lease_expires_at : Z) (threshold : RekeyThreshold)
        (ingress : PrevalidatedIngress unit).

Abbreviation R := (rstep local checkpoint channel policy lease_expires_at
  (ingress_expiry (pi_evidence ingress))).
Abbreviation run := (run_responder_handshake ingress local checkpoint channel policy lease_expires_at threshold).

Lemma responder_run :
  Refines any R R_Idle run
    (λ s ph, ∃ t fc a ack, ph = R_Active t fc a ack ∧ responder_session t (pi_evidence ingress) s)
    (λ ph, r_holds ph = false).
Proof.
  unfold run_responder_handshake. cbn [consume_ingress]. ref_pure [] _. ref_pure [] _.
  apply (ref_bind (Q1:=λ '(_, _, h) p, p = R_Noise h)).
  { apply ref_begin with R_Noise; [by constructor|done..]. }
  intros [[rk tr] h] ? ->. eapply ref_bind; [apply ref_send_proof_r|]. intros tr1 ? ->.
  eapply ref_bind; [apply ref_responder_recv_intent|]. intros [[i dg] tr2] ? [-> Hdg].
  eapply ref_bind; [apply ref_responder_recv_proof_i|]. intros [[pi k] tr3] ? (rs & -> & Hk & Hna & Hv).
  eapply ref_bind; [by eapply ref_responder_consume|]. intros exp ? ->.
  set (t := MkRSession h i pi k exp).
  eapply ref_bind; [apply (ref_responder_send_final_confirm _ _ _ _ _ _ _ _ t)|]. intros [fc tr4] ? ->.
  eapply ref_bind; [apply (ref_responder_recv_activate _ _ _ _ _ _ _ _ t)|]. intros [a tr5] ? [-> Hans].
  eapply ref_bind; [by apply (ref_responder_prepare_ack _ _ _ _ _ _ t)|].
  intros [ack pd] ? (f & sig & -> & ->).
  apply (ref_bind (Q1:=λ _ p, p = R_SentAck t fc a (with_sig_bytes sig f))).
  - apply ref_or_cancel with (λ p, p = R_Reserved t fc a f sig ∨ p = R_SentAck t fc a (with_sig_bytes sig f)).
    + apply ref_send_frame with (R_SentAck t fc a (with_sig_bytes sig f)); [constructor|auto..].
    + intros p [->| ->] o; exists R_Closed; (split; [constructor|done]).
  - intros tr6 ? ->. apply (ref_bind (Q1:=λ _ p, p = R_Active t fc a (with_sig_bytes sig f))).
    { eapply ref_commit; [constructor|done]. }
    intros g ? ->. apply ref_ret. exists t, fc, a, (with_sig_bytes sig f). done.
Qed.

(** C11: the responder implements its protocol. Whatever the peer sends, the
    stream does and the seams answer, everything a run does, in order, is a
    path of the responder's state machine, and the run ends in its [Active]
    phase exactly when it returns a session, which carries what the phase was
    reached with; a run that fails ends with no permit outstanding. *)
Theorem responder_refines c r c' :
  run c = (r, c') →
  ∃ l ph, c_log c' = c_log c ++ l ∧ path R R_Idle l ph ∧
    match r with
    | Ok s => ∃ t fc a ack, ph = R_Active t fc a ack ∧ responder_session t (pi_evidence ingress) s
    | Err _ => r_holds ph = false
    end.
Proof. exact (ref_conn responder_run). Qed.
End responder_run.

(** ** The initiator *)

Section initiator.
Context `{!CborCrate, !CborLaws, !SessionCrypto, !Snow, !Seams}.
Context (local : LocalIdentity) (checkpoint : LocalCheckpoint) (channel : ExpectedChannel)
        (policy : DelegationPolicy) (lease_expires_at ingress_expiry : Z) (deadline : CeremonyDeadline)
        (pending_intent : PendingIntent).

Abbreviation expected := (expected_responder pending_intent).
Abbreviation I := (istep local checkpoint channel policy lease_expires_at ingress_expiry
  (pg_intent pending_intent) expected).
Abbreviation IE := (λ ph, i_holds ph = false).

Lemma ref_initiator_recv_proof_r transport h :
  Refines any I (I_Noise h) (initiator_recv_proof_r local checkpoint channel policy expected transport h)
    (λ '(pr, k, _) ph, ph = I_Gated h pr ∧
       delegation_in_scope local channel (pr_delegation pr) (pr_hh_id pr) (pr_self_m_id pr)
         (pr_self_cert_fingerprint pr) ∧
       from_sec1_bytes (d_delegated_pub (pr_delegation pr)) = Some k ∧ verify_frame pr (pr_sig pr) k = Ok tt) IE.
Proof.
  unfold initiator_recv_proof_r. apply (ref_bind (Q1:=λ '(f, _) p, p = I_Frame1 h f)).
  { apply ref_recv_frame with (I_Frame1 h); [by constructor|done..]. }
  intros [f t] ? ->. ref_pure pr Hpr.
  assert (f = AF_ProofR pr) as -> by (destruct f; try done; by injection Hpr as <-).
  ref_pure [] Hh%reject_ne_Ok. ref_pure [] Hpeer%reject_if_Ok. ref_pure [] Hcp%check_checkpoint_Ok.
  rewrite !orb_false_iff, !negb_false_iff, !String.eqb_eq, bool_decide_eq_false in Hpeer.
  destruct Hpeer as [[Hhh Hm] Hfp%dec_stable].
  apply (ref_bind (Q1:=λ _ p, p = I_Gated h pr ∧ delegation_in_scope local channel (pr_delegation pr)
    (pr_hh_id pr) (pr_self_m_id pr) (pr_self_cert_fingerprint pr))).
  { apply ref_gate with (λ r, match r with Ok _ => I_Gated h pr | Err _ => I_Closed end);
      [intros; by constructor|done|done|by intros []]. }
  intros [] ? [-> Hscope]. ref_pure k Hk%ok_or_Ok. ref_pure sig Hs%sig_array_Ok. subst sig.
  ref_pure [] Hv. by apply ref_ret.
Qed.

Lemma ref_initiator_send_intent transport h pr k :
  delegation_in_scope local channel (pr_delegation pr) (pr_hh_id pr) (pr_self_m_id pr)
    (pr_self_cert_fingerprint pr) →
  from_sec1_bytes (d_delegated_pub (pr_delegation pr)) = Some k → verify_frame pr (pr_sig pr) k = Ok tt →
  Refines any I (I_Gated h pr)
    (initiator_send_intent local checkpoint deadline pending_intent transport pr lease_expires_at ingress_expiry)
    (λ '(exp, dg, _) ph, ph = I_SentIntent (MkISession h pr k exp) ∧
       intent_digest (pg_intent pending_intent) = Ok dg) IE.
Proof.
  intros Hscope Hk Hv. unfold initiator_send_intent. ref_skip. intros now. ref_pure [] _.
  set (exp := effective_expires_at _ _ _ _ _ _).
  apply (ref_bind (Q1:=λ _ p, p = I_SentIntent (MkISession h pr k exp))).
  { eapply ref_send_intent; [constructor; split; [done..|apply effective_expires_at_spec]|done..]. }
  intros tr ? ->. ref_pure dg Hdg%map_err_Ok. ref_skip. intros []. by apply ref_ret.
Qed.

Lemma ref_initiator_send_proof_i transport t dg :
  intent_digest (pg_intent pending_intent) = Ok dg →
  Refines any I (I_SentIntent t) (initiator_send_proof_i local checkpoint deadline expected transport (is_h t) dg)
    (λ _ ph, ph = I_SentI t) IE.
Proof.
  intros Hdg. unfold initiator_send_proof_i. ref_pure f Hf. eapply ref_bind.
  - apply ref_sign with (next := λ r, match r with Ok sig => I_SignedI t f sig | Err _ => I_Closed end);
      [intros; by eapply is_sign_i|done|by intros []].
  - intros f' ? (pre & sig & Hpre & Hsig & -> & ->).
    apply (ref_bind (Q1:=λ _ p, p = I_SentI t)).
    { apply ref_send_frame with (I_SentI t); [by eapply is_send_i|done..]. }
    intros tr ? ->. ref_skip. intros []. by apply ref_ret.
Qed.

Lemma ref_initiator_recv_final_confirm transport t :
  Refines any I (I_SentI t) (initiator_recv_final_confirm local deadline expected transport (is_h t) (is_key t))
    (λ '(fc, _) ph, ph = I_Frame3 t (AF_FinalConfirm fc) ∧
       final_confirm_for_us local expected (is_h t) (is_key t) fc) IE.
Proof.
  unfold initiator_recv_final_confirm. apply (ref_bind (Q1:=λ '(f, _) p, p = I_Frame3 t f)).
  { apply ref_recv_frame with (I_Frame3 t); [by constructor|done..]. }
  intros [f tr] ? ->. ref_pure fc Hfc.
  assert (f = AF_FinalConfirm fc) as -> by (destruct f; try done; by injection Hfc as <-).
  ref_pure [] Hh%reject_ne_Ok. ref_pure [] Hpeer%reject_if_Ok.
  rewrite !orb_false_iff, !negb_false_iff, !String.eqb_eq, bool_decide_eq_false in Hpeer.
  destruct Hpeer as [[Hm Hfp%dec_stable] Hr]. ref_pure sig Hs%sig_array_Ok. subst sig. ref_pure [] Hv.
  ref_skip. intros []. by apply ref_ret.
Qed.

Lemma ref_initiator_prepare_activate t fc :
  final_confirm_for_us local expected (is_h t) (is_key t) fc →
  Refines any I (I_Frame3 t (AF_FinalConfirm fc))
    (initiator_prepare_activate local checkpoint expected (is_h t) fc (is_expires_at t))
    (λ '(a, _) ph, ∃ f sig, a = with_sig_bytes sig f ∧ ph = I_Reserved t fc f sig) IE.
Proof.
  intros Hfc. unfold initiator_prepare_activate. ref_pure dg Hdg. ref_pure f Hf. eapply ref_bind.
  { apply ref_sign with (next := λ r, match r with Ok sig => I_SignedA t fc f sig | Err _ => I_Closed end);
      [intros; by eapply is_sign_a|done|by intros []]. }
  intros f' ? (pre & sig & Hpre & Hsig & -> & ->). ref_skip. intros now. ref_pure [] _.
  apply (ref_bind (Q1:=λ _ p, p = I_Reserved t fc f sig)).
  { apply ref_reserve with (λ r, match r with Ok _ => I_Reserved t fc f sig | Err _ => I_Closed end);
      [intros; by eapply is_reserve|done|done]. }
  intros pd ? ->. apply ref_ret. eauto.
Qed.

(** While the acknowledgement is awaited, a permit is held. *)
Definition awaiting (t : ISession) (fc : FinalConfirm) (f : Activate) (sig : bytes) (ph : IPhase) : Prop :=
  ph = I_Reserved t fc f sig ∨ ph = I_SentA t fc (with_sig_bytes sig f) ∨
  ∃ g, ph = I_Frame5 t fc (with_sig_bytes sig f) g.

Lemma ref_initiator_exchange_ack transport t fc f sig :
  Refines any I (I_Reserved t fc f sig)
    (initiator_exchange_ack expected transport (is_h t) (with_sig_bytes sig f) (is_key t))
    (λ _ ph, ∃ ack, ph = I_Frame5 t fc (with_sig_bytes sig f) (AF_ActivateAck ack) ∧
       ack_answers expected (is_h t) (is_key t) (with_sig_bytes sig f) ack)
    (awaiting t fc f sig).
Proof.
  unfold initiator_exchange_ack. set (a := with_sig_bytes sig f).
  apply (ref_bind (Q1:=λ _ p, p = I_SentA t fc a)).
  { apply ref_send_frame with (I_SentA t fc a); [constructor|done|by left|by right; left]. }
  intros tr ? ->. apply (ref_bind (Q1:=λ '(g, _) p, p = I_Frame5 t fc a g)).
  { apply ref_recv_frame with (I_Frame5 t fc a); [by constructor|done|by right; left]. }
  intros [g tr1] ? ->.
  assert (awaiting t fc f sig (I_Frame5 t fc a g)) as Hw by (right; right; eauto).
  ref_pure ack Hack.
  assert (g = AF_ActivateAck ack) as -> by (destruct g; try done; by injection Hack as <-).
  ref_pure [] Hh%reject_ne_Ok. ref_pure [] Hm%reject_string_Ok. ref_pure dg Hdg. ref_pure [] Hd%reject_ne_Ok.
  subst dg. ref_pure sig' Hs%sig_array_Ok. subst sig'. ref_pure [] Hv. apply ref_ret. by exists ack.
Qed.

Definition initiator_session (t : ISession) (ev : IngressEvidence) (s : ActiveMeshSession) : Prop :=
  s_h_final s = is_h t ∧ s_peer_hh_id s = er_hh_id expected ∧ s_peer_m_id s = er_m_id expected ∧
  s_peer_cert_fingerprint s = er_cert_fingerprint expected ∧
  s_ingress_evidence s = ev ∧ s_expires_at s = is_expires_at t ∧ s_closed s = false.
End initiator.

Section initiator_run.
Context `{!CborCrate, !CborLaws, !SessionCrypto, !Snow, !Seams}.
Context (local : LocalIdentity) (checkpoint : LocalCheckpoint) (channel : ExpectedChannel)
        (policy : DelegationPolicy) (lease_expires_at : Z) (threshold : RekeyThreshold)
        (ingress : PrevalidatedIngress unit) (pending_intent : PendingIntent).

Abbreviation expected := (expected_responder pending_intent).
Abbreviation I := (istep local checkpoint channel policy lease_expires_at
  (ingress_expiry (pi_evidence ingress)) (pg_intent pending_intent) expected).
Abbreviation run := (run_initiator_handshake ingress pending_intent local checkpoint channel policy
  lease_expires_at threshold).

Lemma initiator_run :
  Refines any I I_Idle run
    (λ s ph, ∃ t fc a ack, ph = I_Active t fc a ack ∧
       initiator_session pending_intent t (pi_evidence ingress) s)
    (λ ph, i_holds ph = false).
Proof.
  unfold run_initiator_handshake. cbn [consume_ingress]. ref_pure [] _. ref_pure [] _. ref_pure [] _.
  apply (ref_bind (Q1:=λ '(_, _, h) p, p = I_Noise h)).
  { apply ref_begin with I_Noise; [by constructor|done..]. }
  intros [[rk tr] h] ? ->. eapply ref_bind; [apply ref_initiator_recv_proof_r|].
  intros [[pr k] tr1] ? (-> & Hscope & Hk & Hv).
  eapply ref_bind; [by apply (ref_initiator_send_intent _ _ _ _ _ _ _ _ _ h)|].
  intros [[exp dg] tr2] ? [-> Hdg]. set (t := MkISession h pr k exp).
  eapply ref_bind; [by apply (ref_initiator_send_proof_i _ _ _ _ _ _ _ _ _ t)|]. intros tr3 ? ->.
  eapply ref_bind; [apply (ref_initiator_recv_final_confirm _ _ _ _ _ _ _ _ _ t)|]. intros [fc tr4] ? [-> Hfc].
  eapply ref_bind; [by apply (ref_initiator_prepare_activate _ _ _ _ _ _ _ t)|].
  intros [a pd] ? (f & sig & -> & ->). eapply ref_bind.
  - eapply ref_or_cancel; [apply (ref_initiator_exchange_ack _ _ _ _ _ _ _ _ t)|].
    intros p [->|[->|[g ->]]] o; exists I_Closed; (split; [constructor|done]).
  - intros tr6 ? (ack & -> & Hans).
    apply (ref_bind (Q1:=λ _ p, p = I_Active t fc (with_sig_bytes sig f) ack)).
    { eapply ref_commit; [by constructor|done]. }
    intros g ? ->. apply ref_ret. exists t, fc, (with_sig_bytes sig f), ack. done.
Qed.

(** C18: the initiator implements its protocol, in the same sense: everything a
    run does is a path of the initiator's state machine, it ends in [Active]
    exactly when a session is returned, and a failing run leaves no permit
    outstanding, whichever step of sending Activate and awaiting its
    acknowledgement failed. *)
Theorem initiator_refines c r c' :
  run c = (r, c') →
  ∃ l ph, c_log c' = c_log c ++ l ∧ path I I_Idle l ph ∧
    match r with
    | Ok s => ∃ t fc a ack, ph = I_Active t fc a ack ∧
        initiator_session pending_intent t (pi_evidence ingress) s
    | Err _ => i_holds ph = false
    end.
Proof. exact (ref_conn initiator_run). Qed.
End initiator_run.

(** ** At work *)

(** The responder of the sample ceremony ends active. *)
Lemma responder_refines_witness :
  ∃ r c' l ph, resp_run from_init = (r, c') ∧ c_log c' = c_log (resp_conn from_init) ++ l ∧
    path (@rstep sample_cbor _ resp_seams resp_local sample_checkpoint EC_Dev sample_policy 750 800) R_Idle l ph ∧
    r_holds ph = true.
Proof.
  destruct resp_run_ok as [Hok _]. destruct (resp_run from_init) as [r c'] eqn:Hrun.
  destruct (@responder_refines sample_cbor sample_cbor_laws _ _ resp_seams resp_local sample_checkpoint
    EC_Dev sample_policy 750 threshold_3 sample_ingress _ _ _ Hrun) as (l & ph & Hl & Hp & Hr).
  destruct r as [s|e]; [|discriminate Hok]. destruct Hr as (t & fc & a & ack & -> & _).
  exists (Ok s), c', l, (R_Active t fc a ack).
  split_and!; [reflexivity|exact Hl|exact Hp|reflexivity].
Defined.

Lemma initiator_refines_witness :
  ∃ r c' l ph, init_run from_resp = (r, c') ∧ c_log c' = c_log (init_conn from_resp) ++ l ∧
    path (@istep sample_cbor _ init_seams init_local sample_checkpoint EC_Dev sample_policy 750 800
      (pg_intent sample_pending) (expected_responder sample_pending)) I_Idle l ph ∧
    i_holds ph = true.
Proof.
  destruct init_run_ok as [Hok _]. destruct (init_run from_resp) as [r c'] eqn:Hrun.
  destruct (@initiator_refines sample_cbor sample_cbor_laws _ _ init_seams init_local sample_checkpoint
    EC_Dev sample_policy 750 threshold_3 sample_ingress sample_pending _ _ _ Hrun) as (l & ph & Hl & Hp & Hr).
  destruct r as [s|e]; [|discriminate Hok]. destruct Hr as (t & fc & a & ack & -> & _).
  exists (Ok s), c', l, (I_Active t fc a ack).
  split_and!; [reflexivity|exact Hl|exact Hp|reflexivity].
Defined.
