(* ===== verification/Agreement.v ===== *)
(** * What the ceremony guarantees

    Consequences of the refinements of [HandshakeProofs]: when a nonce is
    spent and what may happen before and after, that a D1 permit is settled
    exactly once, and that an initiator that becomes active agrees with the
    responder it talked to. *)

From stdpp Require Import base gmap sets list strings.
From Stdlib Require Import ZArith Lia Ascii.
From S2P Require Import Prelude.
From S2P Require Import Rekey.
From S2P Require Import Cbor.
From S2P Require Import CborProofs.
From S2P Require Import CborSample.
From S2P Require Import Ingress.
From S2P Require Import Crypto.
From S2P Require Import SessionErrors.
From S2P Require Import Delegation.
From S2P Require Import AuthFrames.
From S2P Require Import Intent.
From S2P Require Import Seams.
From S2P Require Import Refine.
From S2P Require Import Handshake.
From S2P Require Import SessionSamples.
From S2P Require Import Protocol.
From S2P Require Import HandshakeProofs.

Open Scope Z_scope.

(** Undoes the last step of a path into a known phase. *)
Ltac path_back H :=
  let l := fresh "l" in let e := fresh "e" in let m := fresh "m" in
  let Heq := fresh "Heq" in let Hs := fresh "Hs" in
  apply path_last in H as [[-> Heq]|(l & e & m & -> & H & Hs)]; [discriminate Heq|];
  inversion Hs; clear Hs; subst;
  repeat match goal with
  | E : match ?r with Ok _ => _ | Err _ => _ end = _ |- _ => destruct r; try discriminate E
  | E : match ?o with NC_Committed => _ | _ => _ end = _ |- _ => destruct o; try discriminate E
  end; simplify_eq.

(** ** The nonce *)

Section nonce.
Context `{!CborCrate, !CborLaws, !SessionCrypto, !Snow, !Seams}.
Context (local : LocalIdentity) (checkpoint : LocalCheckpoint) (channel : ExpectedChannel)
        (policy : DelegationPolicy) (lease_expires_at ingress_expiry : Z).
Abbreviation R := (rstep local checkpoint channel policy lease_expires_at ingress_expiry).

(** What has happened, in full, when the initiator's key is resolved. *)
Lemma resolved_history l h i pi rs :
  path R R_Idle l (R_Resolved h i pi rs) →
  ∃ p f sig u, l = [Ev_Noise h; Ev_Sign p (Ok sig); Ev_SendFrame (AF_ProofR (with_sig_bytes sig f));
                  Ev_RecvIntent i; Ev_RecvFrame (AF_ProofI pi);
                  Ev_VerifyDelegation (pi_delegation pi) (Ok u);
                  Ev_Resolve (pi_hh_id pi) (pi_self_m_id pi) channel
                    (d_delegated_key_id (pi_delegation pi)) (Ok rs)] ∧
    proof_i_for_us local checkpoint h pi ∧ policy_validate policy (pi_delegation pi) = Ok tt ∧
    delegation_in_scope local channel (pi_delegation pi) (pi_hh_id pi) (pi_self_m_id pi)
      (pi_self_cert_fingerprint pi) ∧ intent_valid i ∧ proof_i_valid pi.
Proof.
  intros Hp. do 7 path_back Hp.
  apply path_last in Hp as [[-> _]|(? & ? & ? & _ & _ & Hs)]; [|inversion Hs; repeat case_match; done].
  eauto 15.
Qed.

Definition r_session (ph : RPhase) : option RSession :=
  match ph with
  | R_Consumed t | R_SignedFC t _ _ | R_SentFC t _ | R_Frame4 t _ _ | R_SignedAck t _ _ _ _
  | R_Reserved t _ _ _ _ | R_SentAck t _ _ _ | R_Active t _ _ _ => Some t
  | _ => None
  end.

(** The consumption behind every later phase. *)
Definition consumed_for (t : RSession) : Event :=
  Ev_Consume (nonce_key_of (rs_intent t)) (in_not_after (rs_intent t))
    (pi_connection_intent_digest (rs_proof_i t)) channel (Ok NC_Committed).

Lemma rstep_session m e ph t :
  R m e ph → r_session ph = Some t →
  r_session m = Some t ∨
  (e = consumed_for t ∧ ∃ rs, m = R_Resolved (rs_h t) (rs_intent t) (rs_proof_i t) rs ∧
     from_sec1_bytes (rs_delegated_pub rs) = Some (rs_key t) ∧
     intent_admitted local checkpoint lease_expires_at ingress_expiry (rs_intent t) (rs_proof_i t)
       (rs_key t) (rs_expires_at t)).
Proof. intros Hs Ht. destruct Hs; repeat case_match; cbn in *; simplify_eq; eauto 10. Qed.

Lemma session_consumed l : ∀ ph t,
  path R R_Idle l ph → r_session ph = Some t →
  ∃ l1 l2 rs, l = l1 ++ consumed_for t :: l2 ∧
    path R R_Idle l1 (R_Resolved (rs_h t) (rs_intent t) (rs_proof_i t) rs) ∧
    from_sec1_bytes (rs_delegated_pub rs) = Some (rs_key t) ∧
    intent_admitted local checkpoint lease_expires_at ingress_expiry (rs_intent t) (rs_proof_i t)
      (rs_key t) (rs_expires_at t).
Proof.
  induction l as [|e l IH] using rev_ind; intros ph t Hp Ht.
  { inversion Hp; subst. done. }
  apply path_last in Hp as [[? _]|(l0 & e0 & m & [-> [= ->]]%app_inj_2 & Hp & Hs)];
    [by destruct l|..|done].
  destruct (rstep_session _ _ _ _ Hs Ht) as [Hm|(-> & rs & -> & Hk & Hadm)].
  - destruct (IH m t Hp Hm) as (l1 & l2 & rs & -> & ?). exists l1, (l2 ++ [e0]), rs.
    by rewrite <-(assoc_L (++)).
  - by exists l0, [], rs.
Qed.

(** Once a nonce was asked for, none is again. *)
Definition r_spent (ph : RPhase) : bool :=
  match ph with R_Closed => true | _ => is_some (r_session ph) end.

Definition is_consume (e : Event) : bool := match e with Ev_Consume _ _ _ _ _ => true | _ => false end.

Lemma spent_no_consume p l q :
  path R p l q → r_spent p = true → Forall (λ e, is_consume e = false) l.
Proof.
  induction 1 as [|p e p1 l q Hs _ IH]; intros Hsp; [constructor|].
  assert (is_consume e = false ∧ r_spent p1 = true) as [? ?]; [|constructor; auto].
  destruct Hs; try done; cbn in *; repeat case_match; done.
Qed.

(** Effects that commit the responder. *)
Definition r_binding (e : Event) : bool :=
  match e with
  | Ev_SendFrame (AF_ProofR _) => false
  | Ev_SendFrame _ | Ev_Reserve _ _ | Ev_Commit => true
  | _ => false
  end.

Lemma binding_session m e ph : R m e ph → r_binding e = true → is_Some (r_session m).
Proof. intros Hs He. destruct Hs; try done; eauto. Qed.
End nonce.

(** C16: the responder spends a nonce at most once, and only for a connection
    it has authenticated. In every run, whatever its end: when the ledger is
    asked, Proof-I and the intent have been received, the delegation was
    verified and in scope, its key was resolved, and under that key both are
    signed, agree with each other and name this machine, its checkpoint and
    this Noise session, and nothing but Proof-R was sent before; the ledger is
    not asked again; and no FinalConfirm, no permit and no ActivateAck comes
    before the ledger has answered [Committed]. *)
Theorem nonce_spent_once_authenticated `{!CborCrate, !CborLaws, !SessionCrypto, !Snow, !Seams}
    local checkpoint channel policy lease_expires_at threshold ingress c r c' :
  run_responder_handshake ingress local checkpoint channel policy lease_expires_at threshold c = (r, c') →
  ∃ l, c_log c' = c_log c ++ l ∧
    (∀ l1 l2 key na dg ch o, l = l1 ++ Ev_Consume key na dg ch o :: l2 →
       Forall (λ e, is_consume e = false) l2 ∧
       ∃ h p f sig u i pi rs k exp,
         l1 = [Ev_Noise h; Ev_Sign p (Ok sig); Ev_SendFrame (AF_ProofR (with_sig_bytes sig f));
               Ev_RecvIntent i; Ev_RecvFrame (AF_ProofI pi);
               Ev_VerifyDelegation (pi_delegation pi) (Ok u);
               Ev_Resolve (pi_hh_id pi) (pi_self_m_id pi) channel
                 (d_delegated_key_id (pi_delegation pi)) (Ok rs)] ∧
         key = nonce_key_of i ∧ na = in_not_after i ∧ dg = pi_connection_intent_digest pi ∧ ch = channel ∧
         proof_i_for_us local checkpoint h pi ∧
         delegation_in_scope local channel (pi_delegation pi) (pi_hh_id pi) (pi_self_m_id pi)
           (pi_self_cert_fingerprint pi) ∧
         from_sec1_bytes (rs_delegated_pub rs) = Some k ∧
         intent_admitted local checkpoint lease_expires_at (ingress_expiry (pi_evidence ingress)) i pi k exp) ∧
    (∀ l1 l2 e, l = l1 ++ e :: l2 → r_binding e = true →
       ∃ key na dg, Ev_Consume key na dg channel (Ok NC_Committed) ∈ l1).
Proof.
  intros Hrun. destruct (ref_conn (responder_run _ _ _ _ _ _ _) Hrun) as (l & ph & Hl & Hp & _).
  exists l. split_and!; [done| |].
  - intros l1 l2 key na dg ch o ->. destruct (path_mid _ _ _ _ _ _ Hp) as (m & m' & Hm & Hs & Hq).
    inversion Hs; subst. split.
    + eapply spent_no_consume; [exact Hq|]. by destruct o as [[]|].
    + destruct (resolved_history _ _ _ _ _ _ _ _ _ _ _ Hm) as (p & f & sig & u & -> & ? & ? & ? & _).
      eexists h, p, f, sig, u, i, pi, rs, k, exp. by split_and!.
  - intros l1 l2 e -> He. destruct (path_mid _ _ _ _ _ _ Hp) as (m & m' & Hm & Hs & _).
    destruct (binding_session _ _ _ _ _ _ _ _ _ Hs He) as [t Ht].
    destruct (session_consumed _ _ _ _ _ _ _ _ _ Hm Ht) as (la & lb & rs & -> & _).
    eexists _, _, _. apply elem_of_app. right. apply elem_of_cons. by left.
Qed.

(** ** The permit *)

Definition is_issue (e : Event) : bool := match e with Ev_Reserve _ (Ok _) => true | _ => false end.
Definition is_commit_event (e : Event) : bool := match e with Ev_Commit => true | _ => false end.
Definition is_cancel (e : Event) : bool := match e with Ev_Cancel _ => true | _ => false end.

Definition count (f : Event → bool) (l : list Event) : nat := length (List.filter f l).

Lemma count_snoc f l e : count f (l ++ [e]) = (count f l + Nat.b2n (f e))%nat.
Proof. unfold count. rewrite List.filter_app, length_app. cbn. by destruct (f e). Qed.

(** Where a phase stands: before the permit, holding it, active, or closed. *)
Inductive Stage := Before | Holding | Up | Closed.

(** Every step moves between stages as its event says. *)
Definition moves (e : Event) (a b : Stage) : Prop :=
  if is_issue e then a = Before ∧ b = Holding
  else if is_commit_event e then a = Holding ∧ b = Up
  else if is_cancel e then a = Holding ∧ b = Closed
  else a = b ∨ (a = Before ∧ b = Closed).

Definition stage_counts (st : Stage) (l : list Event) : Prop :=
  match st with
  | Before => count is_issue l = 0 ∧ count is_commit_event l = 0 ∧ count is_cancel l = 0
  | Holding => count is_issue l = 1 ∧ count is_commit_event l = 0 ∧ count is_cancel l = 0
  | Up => count is_issue l = 1 ∧ count is_commit_event l = 1 ∧ count is_cancel l = 0
  | Closed => count is_issue l = count is_cancel l ∧ count is_cancel l ≤ 1 ∧ count is_commit_event l = 0
  end%nat.

Lemma stages_counted {P} (step : P → Event → P → Prop) (stage : P → Stage) p :
  (∀ p e q, step p e q → moves e (stage p) (stage q)) → stage p = Before →
  ∀ l q, path step p l q → stage_counts (stage q) l.
Proof.
  intros Hstep Hp l. induction l as [|e l IH] using rev_ind; intros q Hq.
  { inversion Hq; subst. by rewrite Hp. }
  apply path_last in Hq as [[? _]|(l0 & e0 & m & [-> [= ->]]%app_inj_2 & Hl & Hs)];
    [by destruct l|..|done].
  specialize (IH _ Hl). pose proof (Hstep _ _ _ Hs) as Hm. unfold stage_counts, moves in *.
  rewrite !count_snoc. destruct (is_issue e0) eqn:Ei, (is_commit_event e0) eqn:Ec, (is_cancel e0) eqn:Ea;
    try (by destruct e0); destruct_or?; destruct_and?;
    repeat match goal with E : stage _ = _ |- _ => rewrite E in * end; cbn;
    try (destruct (stage q)); lia.
Qed.

Section permits.
Context `{!CborCrate, !CborLaws, !SessionCrypto, !Snow, !Seams}.

Definition r_stage (ph : RPhase) : Stage :=
  match ph with
  | R_Reserved _ _ _ _ _ | R_SentAck _ _ _ _ => Holding
  | R_Active _ _ _ _ => Up
  | R_Closed => Closed
  | _ => Before
  end.

Definition i_stage (ph : IPhase) : Stage :=
  match ph with
  | I_Reserved _ _ _ _ | I_SentA _ _ _ | I_Frame5 _ _ _ _ => Holding
  | I_Active _ _ _ _ => Up
  | I_Closed => Closed
  | _ => Before
  end.

Lemma rstep_moves local cp ch policy lease ie p e q :
  rstep local cp ch policy lease ie p e q → moves e (r_stage p) (r_stage q).
Proof. destruct 1; repeat case_match; cbn; auto. Qed.

Lemma istep_moves local cp ch policy lease ie i er p e q :
  istep local cp ch policy lease ie i er p e q → moves e (i_stage p) (i_stage q).
Proof. destruct 1; repeat case_match; cbn; auto. Qed.

(** A run of either side settles its permit: committed if and only if it
    returned a session, else cancelled if it was issued; never both. *)
Definition settled {A} (r : Result AuthFrameError A) (l : list Event) : Prop :=
  count is_commit_event l = Nat.b2n (is_ok r) ∧
  count is_issue l = (count is_commit_event l + count is_cancel l)%nat ∧
  (count is_issue l ≤ 1)%nat.
End permits.

(** C17: a D1 permit is settled exactly once. In every run of either side: at
    most one permit is issued; it is committed exactly when the run returns a
    session; when the run fails it is cancelled, and nothing is ever cancelled
    after it was committed or without having been issued. *)
Theorem permit_settled_exactly_once `{!CborCrate, !CborLaws, !SessionCrypto, !Snow, !Seams}
    local checkpoint channel policy lease_expires_at threshold ingress pending_intent c :
  (∀ r c', run_responder_handshake ingress local checkpoint channel policy lease_expires_at threshold c
     = (r, c') → ∃ l, c_log c' = c_log c ++ l ∧ settled r l) ∧
  (∀ r c', run_initiator_handshake ingress pending_intent local checkpoint channel policy
     lease_expires_at threshold c = (r, c') → ∃ l, c_log c' = c_log c ++ l ∧ settled r l).
Proof.
  split; intros r c' Hrun.
  - destruct (ref_conn (responder_run _ _ _ _ _ _ _) Hrun) as (l & ph & Hl & Hp & Hr).
    exists l. split; [done|]. pose proof (stages_counted _ r_stage R_Idle (rstep_moves _ _ _ _ _ _) eq_refl _ _ Hp) as Hc.
    unfold settled. destruct r as [s|e]; cbn.
    + destruct Hr as (t & fc & a & ack & -> & _). cbn in Hc. lia.
    + destruct ph; try done; cbn in Hc; lia.
  - destruct (ref_conn (initiator_run _ _ _ _ _ _ _ _) Hrun) as (l & ph & Hl & Hp & Hr).
    exists l. split; [done|]. pose proof (stages_counted _ i_stage I_Idle (istep_moves _ _ _ _ _ _ _ _) eq_refl _ _ Hp) as Hc.
    unfold settled. destruct r as [s|e]; cbn.
    + destruct Hr as (t & fc & a & ack & -> & _). cbn in Hc. lia.
    + destruct ph; try done; cbn in Hc; lia.
Qed.

(** ** Agreement *)

(** What was signed, what was received under a signature, what was hashed. *)
Definition signed_preimages (l : list Event) : list bytes :=
  omap (λ e, match e with Ev_Sign p (Ok _) => Some p | _ => None end) l.

Section digests.
Context `{!CborCrate, !SessionCrypto}.

Definition received_preimages (l : list Event) : list bytes :=
  omap (λ e, match e with Ev_RecvFrame f => result_ok (auth_preimage f) | _ => None end) l.

Definition hashed_inputs (l : list Event) : list bytes :=
  omap (λ e, match e with
             | Ev_SendFrame f | Ev_RecvFrame f =>
                 body ← result_ok (frame_body f); Some (frame_type f :: body)
             | Ev_SendIntent i | Ev_RecvIntent i =>
                 body ← result_ok (to_canonical_vec i); Some (as_bytes INTENT_DOMAIN ++ body)
             | _ => None
             end) l.

(** A frame received by one side under the other's key was signed by it. *)
Definition unforged (k : VerifyingKey) (receiver signer : list Event) : Prop :=
  ∀ p s, p ∈ received_preimages receiver → ecdsa_verify k p s = true → p ∈ signed_preimages signer.

(** SHA-256 does not collide on what was hashed. *)
Definition collision_free (l : list Event) : Prop :=
  ∀ b b', b ∈ hashed_inputs l → b' ∈ hashed_inputs l → sha256 b = sha256 b' → b = b'.
End digests.

Section agreement_lemmas.
Context `{!CborCrate, !CborLaws, !SessionCrypto}.

Lemma elem_of_signed_preimages p l :
  p ∈ signed_preimages l → ∃ sig, Ev_Sign p (Ok sig) ∈ l.
Proof.
  unfold signed_preimages. intros (e & He & Hp)%list_elem_of_omap.
  destruct e as [|? []| | | | | | | | | | | | | | | |]; try done. injection Hp as ->. eauto.
Qed.

Lemma received_preimage f p l :
  Ev_RecvFrame f ∈ l → auth_preimage f = Ok p → p ∈ received_preimages l.
Proof. intros Hf Hp. apply list_elem_of_omap. exists (Ev_RecvFrame f). by rewrite Hp. Qed.

Lemma verify_frame_verifies `{!Serde F, !AuthFrameBody F} (f : F) sig k :
  verify_frame f sig k = Ok tt → ∃ p s, for_frame f = Ok p ∧ ecdsa_verify k p s = true.
Proof.
  unfold verify_frame, verify_mesh_session_frame. intros Hv.
  apply bind_Ok in Hv as (p & Hp & Hv). apply bind_Ok in Hv as (s & _ & Hv%reject_if_Ok%negb_false_iff).
  eauto.
Qed.

Definition auth_digest (f : AuthFrame) : Result AuthFrameError bytes :=
  match f with
  | AF_ProofR f => frame_digest f
  | AF_ProofI f => frame_digest f
  | AF_FinalConfirm f => frame_digest f
  | AF_Activate f => frame_digest f
  | AF_ActivateAck f => frame_digest f
  end.

Lemma auth_digest_Ok f d :
  auth_digest f = Ok d → ∃ b, frame_body f = Ok b ∧ d = sha256 (frame_type f :: b).
Proof.
  destruct f; cbn [auth_digest frame_body frame_type]; unfold frame_digest; intros Hd;
    apply bind_Ok in Hd as (b & Hb%map_err_Ok & [= <-]); eauto.
Qed.

Lemma hashed_frame f b l :
  (Ev_SendFrame f ∈ l ∨ Ev_RecvFrame f ∈ l) → frame_body f = Ok b → frame_type f :: b ∈ hashed_inputs l.
Proof.
  intros Hf Hb. apply list_elem_of_omap.
  destruct Hf; [exists (Ev_SendFrame f)|exists (Ev_RecvFrame f)]; by rewrite Hb.
Qed.

Lemma hashed_intent i b l :
  (Ev_SendIntent i ∈ l ∨ Ev_RecvIntent i ∈ l) → to_canonical_vec i = Ok b →
  as_bytes INTENT_DOMAIN ++ b ∈ hashed_inputs l.
Proof.
  intros Hi Hb. apply list_elem_of_omap.
  destruct Hi; [exists (Ev_SendIntent i)|exists (Ev_RecvIntent i)]; by rewrite Hb.
Qed.

(** Digests determine the frames and intents of a log. *)
Lemma frame_digest_inj l f g d :
  collision_free l → (Ev_SendFrame f ∈ l ∨ Ev_RecvFrame f ∈ l) → (Ev_SendFrame g ∈ l ∨ Ev_RecvFrame g ∈ l) →
  auth_frame_valid f → auth_frame_valid g → auth_digest f = Ok d → auth_digest g = Ok d → f = g.
Proof.
  intros Hcf Hf Hg Hv Hv' (b & Hb & ->)%auth_digest_Ok (b' & Hb' & Heq)%auth_digest_Ok.
  assert (frame_type f :: b = frame_type g :: b') as [= Ht <-].
  { apply Hcf; [by apply (hashed_frame f)|by apply (hashed_frame g)|done]. }
  destruct f, g; try discriminate Ht; cbn [frame_body auth_frame_valid] in *;
    f_equal; (eapply canonical_vec_inj; [exact Hv|exact Hv'|done|done]).
Qed.

Lemma intent_digest_inj l i j d :
  collision_free l → (Ev_SendIntent i ∈ l ∨ Ev_RecvIntent i ∈ l) →
  (Ev_SendIntent j ∈ l ∨ Ev_RecvIntent j ∈ l) →
  intent_valid i → intent_valid j → intent_digest i = Ok d → intent_digest j = Ok d → i = j.
Proof.
  intros Hcf Hi Hj Hv Hv' Hd Hd'. unfold intent_digest in Hd, Hd'.
  apply bind_Ok in Hd as (b & Hb%map_err_Ok & [= <-]). apply bind_Ok in Hd' as (b' & Hb'%map_err_Ok & [= Heq]).
  assert (as_bytes INTENT_DOMAIN ++ b = as_bytes INTENT_DOMAIN ++ b') as <-%app_inv_head.
  { apply Hcf; [by apply (hashed_intent i)|by apply (hashed_intent j)|done]. }
  by apply (canonical_vec_inj (valid:=intent_valid) i j b).
Qed.
End agreement_lemmas.

(** *** Frames built by the ceremony *)

(** The values the ceremony is started with fit their types. *)
Record local_valid `{!SessionCrypto} (local : LocalIdentity) (checkpoint : LocalCheckpoint) : Prop := {
  lv_delegation : delegation_valid (li_delegation local);
  lv_sequence : in_u64 (lc_sequence checkpoint);
  lv_not_after : in_u64 (lc_not_after checkpoint);
}.

Section built.
Context `{!CborCrate, !CborLaws, !SessionCrypto}.

Lemma activate_built h m dg f :
  activate_new h m dg zero_sig = Ok f →
  f = MkActivate PROTOCOL_VERSION DOMAIN KIND_ACTIVATE h m dg zero_sig ∧
  ∀ sig, sig_sized (Ok sig) → activate_valid (with_sig_bytes sig f).
Proof.
  unfold activate_new. intros Hf. pose proof (activate_try_from_same _ _ Hf) as ->.
  split; [done|]. intros sig Hs. cbn in Hs. split; [by vm_compute|]. unfold activate_try_from in *. cbn in *.
  repeat (apply bind_Ok in Hf as ([] & Hc & Hf); cbn; rewrite Hc; clear Hc; cbn [mbind Result_bind]).
  unfold check_len. by rewrite Hs.
Qed.

Lemma activate_ack_built h m dg f :
  activate_ack_new h m dg zero_sig = Ok f →
  f = MkActivateAck PROTOCOL_VERSION DOMAIN KIND_ACTIVATE_ACK h m dg zero_sig ∧ activate_ack_valid f.
Proof.
  unfold activate_ack_new. intros Hf. pose proof (activate_ack_try_from_same _ _ Hf) as ->.
  split; [done|]. split; [by vm_compute|done].
Qed.

Lemma proof_i_built local checkpoint h er_m er_fp dg f :
  local_valid local checkpoint → length dg = 32%nat →
  proof_i_new h (li_hh_id local) (li_m_id local) er_m (li_cert_fingerprint local) er_fp
    (lc_hash checkpoint) (lc_sequence checkpoint) (lc_event_head checkpoint) (lc_not_after checkpoint)
    (li_delegation local) dg zero_sig = Ok f →
  f = MkProofI PROTOCOL_VERSION DOMAIN ROLE_INITIATOR h (li_hh_id local) (li_m_id local) er_m
    (li_cert_fingerprint local) er_fp (lc_hash checkpoint) (lc_sequence checkpoint)
    (lc_event_head checkpoint) (lc_not_after checkpoint) (li_delegation local) dg zero_sig ∧
  proof_i_valid f.
Proof.
  intros [] Hdg Hf. unfold proof_i_new in Hf. pose proof (proof_i_try_from_same _ _ Hf) as ->.
  split; [done|]. by split.
Qed.
End built.

(** *** The two sides *)

Section responder_side.
Context `{!CborCrate, !CborLaws, !SessionCrypto, !Snow, !Seams}.
Context (local : LocalIdentity) (checkpoint : LocalCheckpoint) (channel : ExpectedChannel)
        (policy : DelegationPolicy) (lease_expires_at ingress_expiry : Z).
Abbreviation R := (rstep local checkpoint channel policy lease_expires_at ingress_expiry).

(** What precedes the frame that answers FinalConfirm. *)
Lemma frame4_history l t fc a :
  path R R_Idle l (R_Frame4 t fc (AF_Activate a)) →
  Ev_RecvFrame (AF_Activate a) ∈ l ∧ activate_valid a.
Proof. intros Hp. path_back Hp. split; [set_solver|done]. Qed.

(** Everything a responder session rests on happened. *)
Lemma session_history l ph t :
  path R R_Idle l ph → r_session ph = Some t →
  consumed_for channel t ∈ l ∧ Ev_RecvIntent (rs_intent t) ∈ l ∧
  Ev_RecvFrame (AF_ProofI (rs_proof_i t)) ∈ l ∧
  (∃ hh m ch kid rs, Ev_Resolve hh m ch kid (Ok rs) ∈ l ∧
     from_sec1_bytes (rs_delegated_pub rs) = Some (rs_key t)) ∧
  proof_i_for_us local checkpoint (rs_h t) (rs_proof_i t) ∧
  intent_admitted local checkpoint lease_expires_at ingress_expiry (rs_intent t) (rs_proof_i t)
    (rs_key t) (rs_expires_at t) ∧
  intent_valid (rs_intent t) ∧ proof_i_valid (rs_proof_i t).
Proof.
  intros Hp Ht. apply (session_consumed _ _ _ _ _ _ _ _ _ Hp) in Ht as (l1 & l2 & rs & -> & Hr & Hk & Ha).
  apply resolved_history in Hr as (p & f & sig & u & -> & Hus & _ & _ & Hi & Hpi).
  split_and!; try done; [set_solver..|].
  exists (pi_hh_id (rs_proof_i t)), (pi_self_m_id (rs_proof_i t)), channel,
    (d_delegated_key_id (pi_delegation (rs_proof_i t))), rs. split; [set_solver|done].
Qed.

(** A signed acknowledgement answers an accepted Activate. *)
Lemma ack_signed l ph ack p sig :
  path R R_Idle l ph → Ev_Sign p (Ok sig) ∈ l → for_frame ack = Ok p → activate_ack_valid ack →
  ∃ t fc a l1 f l2, l = l1 ++ Ev_Sign p (Ok sig) :: l2 ∧
    path R R_Idle l1 (R_Frame4 t fc (AF_Activate a)) ∧ activate_answers local (rs_h t) fc (rs_key t) a ∧
    aa_h_final ack = rs_h t ∧ aa_responder_m_id ack = li_m_id local ∧
    frame_digest a = Ok (aa_activate_digest ack) ∧ path R (R_SignedAck t fc a f sig) l2 ph.
Proof.
  intros Hp (l1 & l2 & ->)%list_elem_of_split Hf Hv.
  destruct (path_mid _ _ _ _ _ _ Hp) as (m & m' & Hm & Hs & Hq).
  destruct (auth_preimage_head (AF_ActivateAck ack) p Hf) as [b ->].
  inversion Hs; subst; try (match goal with
    | Hg : for_frame (F:=ProofR) ?g = Ok _ |- _ =>
        destruct (auth_preimage_head (AF_ProofR g) _ Hg) as [? [=]]
    | Hg : for_frame (F:=FinalConfirm) ?g = Ok _ |- _ =>
        destruct (auth_preimage_head (AF_FinalConfirm g) _ Hg) as [? [=]]
    end).
  match goal with Hg : activate_ack_new _ _ _ _ = Ok ?f |- _ =>
    destruct (activate_ack_built _ _ _ _ Hg) as [Hfe Hfv] end.
  match goal with Hg : for_frame f = Ok _ |- _ =>
    pose proof (activate_ack_preimage_inj _ _ _ Hfv Hv Hg Hf) as Heq end.
  subst f. destruct ack. cbn in Heq. injection Heq as <- <- <- <- <- <-.
  eexists _, _, _, l1, _, l2. split_and!; done.
Qed.

(** The session of a path does not change. *)
Lemma session_kept p l q t t' :
  path R p l q → r_session p = Some t → r_session q = Some t' → t' = t.
Proof.
  induction 1 as [|p e p1 l q Hs Hp IH]; [congruence|]. intros Ht Hq.
  assert (r_session p1 = Some t ∨ p1 = R_Closed) as [Hs1| ->].
  { destruct Hs; repeat case_match; cbn in *; simplify_eq; auto. }
  - auto.
  - inversion Hp; subst; [done|]. match goal with Hs : R R_Closed _ _ |- _ => inversion Hs end.
Qed.
End responder_side.

Section initiator_side.
Context `{!CborCrate, !CborLaws, !SessionCrypto, !SessionCryptoLaws, !Snow, !Seams}.
Context (local : LocalIdentity) (checkpoint : LocalCheckpoint) (channel : ExpectedChannel)
        (policy : DelegationPolicy) (lease_expires_at ingress_expiry : Z)
        (intent : SignedMeshConnectionIntent) (expected : ExpectedResponder).
Abbreviation I := (istep local checkpoint channel policy lease_expires_at ingress_expiry intent expected).

(** What precedes an active session. *)
Lemma active_history l t fc a ack :
  path I I_Idle l (I_Active t fc a ack) →
  from_sec1_bytes (d_delegated_pub (pr_delegation (is_proof_r t))) = Some (is_key t) ∧
  ack_answers expected (is_h t) (is_key t) a ack ∧ activate_valid a ∧ activate_ack_valid ack ∧
  Ev_RecvFrame (AF_ProofR (is_proof_r t)) ∈ l ∧ Ev_SendFrame (AF_Activate a) ∈ l ∧
  Ev_RecvFrame (AF_ActivateAck ack) ∈ l.
Proof.
  intros Hp. do 11 path_back Hp.
  match goal with Hf : activate_new _ _ _ _ = Ok _ |- _ =>
    destruct (activate_built _ _ _ _ Hf) as [-> Hv] end.
  match goal with Ha : responder_admitted _ _ _ _ _ _ _ _ _ |- _ => destruct Ha end.
  split_and!; try done; first [by apply Hv|set_solver].
Qed.

(** A signed Proof-I is the one of this ceremony. *)
Lemma proof_i_signed l ph pi p sig :
  local_valid local checkpoint →
  path I I_Idle l ph → Ev_Sign p (Ok sig) ∈ l → for_frame pi = Ok p → proof_i_valid pi →
  Ev_SendIntent intent ∈ l ∧ intent_digest intent = Ok (pi_connection_intent_digest pi) ∧
  pi_hh_id pi = li_hh_id local ∧ pi_self_m_id pi = li_m_id local ∧
  pi_self_cert_fingerprint pi = li_cert_fingerprint local ∧
  pi_expected_peer_m_id pi = er_m_id expected ∧
  pi_expected_peer_cert_fingerprint pi = er_cert_fingerprint expected ∧
  pi_checkpoint_hash pi = lc_hash checkpoint ∧ pi_checkpoint_sequence pi = lc_sequence checkpoint ∧
  pi_checkpoint_event_head pi = lc_event_head checkpoint ∧
  pi_checkpoint_not_after pi = lc_not_after checkpoint ∧ pi_delegation pi = li_delegation local.
Proof.
  intros Hlv Hp (l1 & l2 & ->)%list_elem_of_split Hf Hv.
  destruct (path_mid _ _ _ _ _ _ Hp) as (m & m' & Hm & Hs & _).
  destruct (auth_preimage_head (AF_ProofI pi) p Hf) as [b ->].
  inversion Hs; subst; try (match goal with
    | Hg : for_frame (F:=Activate) ?g = Ok _ |- _ =>
        destruct (auth_preimage_head (AF_Activate g) _ Hg) as [? [=]]
    end).
  assert (length dg = 32%nat) as Hdg.
  { match goal with Hd : intent_digest intent = Ok dg |- _ => unfold intent_digest in Hd;
      apply bind_Ok in Hd as (? & _ & [= <-]) end. apply sha256_length. }
  match goal with Hg : proof_i_new _ _ _ _ _ _ _ _ _ _ _ _ _ = Ok ?f |- _ =>
    destruct (proof_i_built _ _ _ _ _ _ _ Hlv Hdg Hg) as [Hfe Hfv] end.
  match goal with Hg : for_frame f = Ok _ |- _ =>
    pose proof (proof_i_preimage_inj _ _ _ Hfv Hv Hg Hf) as Heq end.
  subst f. destruct pi. cbn in Heq. injection Heq as <- <- <- <- <- <- <- <- <- <- <- <- <- <- <-.
  assert (Ev_SendIntent intent ∈ l1) as Hi by (path_back Hm; set_solver).
  split_and!; [set_solver|done..].
Qed.
End initiator_side.

(** C1: agreement. An initiator that becomes active shares the session with
    the responder it meant to reach: that responder's run carries the same
    Noise hash, has taken the initiator for the machine it is, was itself the
    machine the intent named, on the same checkpoint, consumed the nonce of the
    initiator's own intent and accepted the very Activate frame the initiator
    sent; and if it returned a session, the two sessions name each other.
    Assumed: the delegation the initiator accepted names the responder's key
    and the resolver answered with the initiator's; frames of these runs
    verified under those keys were signed by their owners' runs; SHA-256 does
    not collide on what the runs hashed. *)
Theorem handshake_agreement `{!CborCrate, !CborLaws, !SessionCrypto, !SessionCryptoLaws, !Snow}
    (SI SR : Seams) localI localR checkpointI checkpointR channelI channelR policyI policyR leaseI leaseR
    thresholdI thresholdR ingressI ingressR pending cI cR sI cI' rR cR' lI lR :
  @run_initiator_handshake _ _ _ SI ingressI pending localI checkpointI channelI policyI leaseI thresholdI cI
    = (Ok sI, cI') →
  @run_responder_handshake _ _ _ SR ingressR localR checkpointR channelR policyR leaseR thresholdR cR
    = (rR, cR') →
  c_log cI' = c_log cI ++ lI → c_log cR' = c_log cR ++ lR →
  local_valid localI checkpointI → intent_valid (pg_intent pending) →
  (∀ pr, Ev_RecvFrame (AF_ProofR pr) ∈ lI →
     from_sec1_bytes (d_delegated_pub (pr_delegation pr)) = Some (@public_key _ SR)) →
  (∀ hh m ch kid rs, Ev_Resolve hh m ch kid (Ok rs) ∈ lR →
     from_sec1_bytes (rs_delegated_pub rs) = Some (@public_key _ SI)) →
  unforged (@public_key _ SR) lI lR → unforged (@public_key _ SI) lR lI → collision_free (lI ++ lR) →
  ∃ t a, rs_h t = s_h_final sI ∧ rs_intent t = pg_intent pending ∧ consumed_for channelR t ∈ lR ∧
    pi_hh_id (rs_proof_i t) = li_hh_id localI ∧ pi_self_m_id (rs_proof_i t) = li_m_id localI ∧
    pi_self_cert_fingerprint (rs_proof_i t) = li_cert_fingerprint localI ∧
    li_m_id localR = s_peer_m_id sI ∧ li_cert_fingerprint localR = s_peer_cert_fingerprint sI ∧
    checkpointR = checkpointI ∧
    Ev_SendFrame (AF_Activate a) ∈ lI ∧ Ev_RecvFrame (AF_Activate a) ∈ lR ∧
    (∀ sR, rR = Ok sR → s_h_final sR = s_h_final sI ∧ s_peer_m_id sR = li_m_id localI ∧
       s_peer_hh_id sR = li_hh_id localI ∧ s_peer_cert_fingerprint sR = li_cert_fingerprint localI).
Proof.
  intros HI HR HlI HlR Hlv Hiv HkR HkI HfR HfI Hcf.
  destruct (ref_conn (@initiator_run _ _ _ _ SI _ _ _ _ _ _ _ _) HI)
    as (l & ph & Hl & HpI & t & fc & a & ack & -> & Hses).
  rewrite HlI in Hl. apply app_inv_head in Hl as <-.
  destruct (ref_conn (@responder_run _ _ _ _ SR _ _ _ _ _ _ _) HR) as (l & ph & Hl & HpR & Hres).
  rewrite HlR in Hl. apply app_inv_head in Hl as <-.
  pose proof HpI as HpI0. apply active_history in HpI0 as (Hk & Hack & Hav & Hackv & HinR & HinA & HinK).
  rewrite (HkR _ HinR) in Hk. injection Hk as Hk.
  destruct Hack as [Hah Har Had (p & s & Hp & Hs)%verify_frame_verifies]. rewrite <-Hk in Hs.
  pose proof (HfR p s (received_preimage (AF_ActivateAck ack) p lI HinK Hp) Hs) as Hsig.
  apply elem_of_signed_preimages in Hsig as [sig Hsig].
  pose proof HpR as HpR0. eapply ack_signed in HpR0
    as (tR & fcR & aR & l1 & f & l2 & HlR2 & Hp4 & Hans & Hh & Hm & HdR & Hp5); [|exact Hsig|exact Hp|exact Hackv].
  pose proof Hp4 as Hp4'. apply frame4_history in Hp4' as (HrA & HavR).
  pose proof Hp4 as Hp4'. eapply session_history in Hp4'
    as (Hcons & HrI & HrP & (hh & m & ch & kid & rs & Hres' & HkRes) & Hus & Hadm & Hiv' & Hpv); [|done].
  assert (∀ e, e ∈ l1 → e ∈ lR) as Hsub by (intros e; rewrite HlR2; set_solver).
  rewrite (HkI _ _ _ _ _ (Hsub _ Hres')) in HkRes. injection HkRes as HkRes.
  pose proof (ia_proof _ _ _ _ _ _ _ _ Hadm) as (q & s' & Hq & Hs')%verify_frame_verifies.
  rewrite <-HkRes in Hs'.
  pose proof (HfI q s' (received_preimage (AF_ProofI (rs_proof_i tR)) q lR (Hsub _ HrP) Hq) Hs') as Hsig'.
  apply elem_of_signed_preimages in Hsig' as [sig' Hsig'].
  eapply proof_i_signed in HpI
    as (HsI & Hdi & Hi1 & Hi2 & Hi3 & Hi4 & Hi5 & Hc1 & Hc2 & Hc3 & Hc4 & Hd); [|done..].
  destruct Hus as [Hu1 Hu2 Hu3 (Hu4 & Hu5 & Hu6 & Hu7)], Hses as (Hses1 & _ & Hses2 & Hses3 & _).
  exists tR, a. split_and!; try congruence.
  - eapply (intent_digest_inj (lI ++ lR)); [done|set_solver..|done|done|by eapply ia_digest|done].
  - by apply Hsub.
  - destruct checkpointI, checkpointR. cbn in *. congruence.
  - replace a with aR; [by apply Hsub|].
    assert (AF_Activate aR = AF_Activate a) as [= ?]; [|done].
    eapply (frame_digest_inj (lI ++ lR)); [done|set_solver..|done|done|exact HdR|exact Had].
  - intros sR ->. destruct Hres as (t' & fc' & a' & ack' & -> & Hs1 & Hs2 & Hs3 & Hs4 & _).
    assert (t' = tR) as -> by (eapply session_kept; [exact Hp5|done..]). split_and!; congruence.
Qed.

(** ** At work *)

(** The sample responder asks the ledger once and becomes active. *)
Lemma nonce_spent_once_authenticated_witness :
  ∃ r c' l1 l2 key na dg, resp_run from_init = (r, c') ∧ is_ok r = true ∧
    c_log c' = l1 ++ Ev_Consume key na dg EC_Dev (Ok NC_Committed) :: l2 ∧
    Forall (λ e, is_consume e = false) l2 ∧ length l1 = 7%nat.
Proof.
  destruct resp_run_ok as [Hok [Hlog _]]. destruct (resp_run from_init) as [r c'] eqn:Hrun.
  cbn [fst snd] in Hok, Hlog.
  destruct (@nonce_spent_once_authenticated sample_cbor sample_cbor_laws toy_crypto toy_snow resp_seams
    _ _ _ _ _ _ _ _ _ _ Hrun) as (l & Hl & Hone & _).
  rewrite Hlog in Hl. cbn [c_log resp_conn app] in Hl. subst l.
  destruct (Hone (take 7 resp_log) (drop 8 resp_log) _ _ _ _ _ eq_refl) as [Hno _].
  eexists r, c', (take 7 resp_log), (drop 8 resp_log), _, _, _.
  split_and!; [reflexivity|exact Hok|rewrite Hlog; reflexivity|exact Hno|reflexivity].
Defined.

Lemma permit_settled_exactly_once_witness :
  ∃ r c' l, init_run from_resp = (r, c') ∧ is_ok r = true ∧ c_log c' = l ∧ settled r l ∧
    count is_commit_event l = 1%nat.
Proof.
  destruct init_run_ok as [Hok _]. destruct (init_run from_resp) as [r c'] eqn:Hrun.
  cbn [fst] in Hok.
  destruct (proj2 (@permit_settled_exactly_once sample_cbor sample_cbor_laws toy_crypto toy_snow init_seams
    _ _ _ _ _ _ _ _ _) _ _ Hrun) as (l & Hl & Hs).
  exists r, c', l. split_and!; [reflexivity|exact Hok|exact Hl|exact Hs|]. destruct Hs as [-> _]. by rewrite Hok.
Defined.

Lemma sample_local_valid : local_valid init_local sample_checkpoint.
Proof. split; [split; [split|]|..]; vm_compute; done. Qed.

Lemma sample_intent_valid : intent_valid (pg_intent sample_pending).
Proof. split; vm_compute; done. Qed.

(** The frames the initiator received were signed by the responder, and the
    other way round; nothing collides. *)
Lemma sample_logs :
  Forall (λ e, match e with
    | Ev_RecvFrame (AF_ProofR pr) => from_sec1_bytes (d_delegated_pub (pr_delegation pr)) = Some resp_key
    | _ => True end) init_log ∧
  Forall (λ e, match e with
    | Ev_Resolve _ _ _ _ (Ok rs) => from_sec1_bytes (rs_delegated_pub rs) = Some init_key
    | _ => True end) resp_log ∧
  Forall (λ p, p ∈ signed_preimages resp_log) (@received_preimages sample_cbor _ init_log) ∧
  Forall (λ p, p ∈ signed_preimages init_log) (@received_preimages sample_cbor _ resp_log) ∧
  Forall (λ b, Forall (λ b', toy_hash b = toy_hash b' → b = b')
    (@hashed_inputs sample_cbor _ (init_log ++ resp_log)))
    (@hashed_inputs sample_cbor _ (init_log ++ resp_log)).
Proof.
  split_and!.
  - vm_compute. repeat constructor.
  - vm_compute. repeat constructor.
  - by_decide.
  - by_decide.
  - by_decide.
Qed.

Lemma handshake_agreement_witness :
  ∃ sI cI' sR cR' t a, init_run from_resp = (Ok sI, cI') ∧ resp_run from_init = (Ok sR, cR') ∧
    rs_h t = s_h_final sI ∧ rs_intent t = pg_intent sample_pending ∧
    consumed_for EC_Dev t ∈ resp_log ∧ Ev_SendFrame (AF_Activate a) ∈ init_log ∧
    Ev_RecvFrame (AF_Activate a) ∈ resp_log ∧
    s_h_final sR = s_h_final sI ∧ s_peer_m_id sR = "m-init" ∧ "m-resp" = s_peer_m_id sI.
Proof.
  destruct init_run_ok as [HokI [HlI _]], resp_run_ok as [HokR [HlR _]].
  destruct (init_run from_resp) as [rI cI'] eqn:HI, (resp_run from_init) as [rR cR'] eqn:HR.
  cbn [fst snd] in *. destruct rI as [sI|]; [|discriminate HokI]. destruct rR as [sR|]; [|discriminate HokR].
  destruct sample_logs as (HkR & HkI & HfR & HfI & Hcf). rewrite Forall_forall in HkR, HkI. rewrite Forall_forall in HfR, HfI.
  destruct (@handshake_agreement sample_cbor sample_cbor_laws toy_crypto toy_crypto_laws toy_snow
    init_seams resp_seams _ _ _ _ _ _ _ _ _ _ _ _ _ _ _ _ _ _ _ _ _ init_log resp_log HI HR HlI HlR
    sample_local_valid sample_intent_valid) as (t & a & Hr).
  - intros pr Hpr. exact (HkR _ Hpr).
  - intros hh m ch kid rs Hrs. exact (HkI _ Hrs).
  - intros p s Hp _. exact (HfR _ Hp).
  - intros p s Hp _. exact (HfI _ Hp).
  - intros b b' Hb Hb'. rewrite Forall_forall in Hcf. specialize (Hcf b Hb).
    rewrite Forall_forall in Hcf. exact (Hcf b' Hb').
  - destruct Hr as (Hr1 & Hr2 & Hr3 & _ & _ & _ & Hr7 & _ & _ & Hr10 & Hr11 & Hr12).
    destruct (Hr12 sR eq_refl) as (Hs1 & Hs2 & _). exists sI, cI', sR, cR', t, a. split_and!; first [assumption|reflexivity].
Defined.
