(* ===== verification/Session.v ===== *)
(** * The active session

    Models the operations of [ActiveMeshSession] in
    [mesh-session-core-rs/src/auth_state_machine.rs]: DATA under a forwarding
    guard and the session's expiry, the rekey counters coupled to the
    transport's keys, and the ways a session closes. The state is the session
    with its connection. *)

From stdpp Require Import base gmap sets list strings.
From Stdlib Require Import ZArith Lia Ascii.
From S2P Require Import Prelude.
From S2P Require Import Rekey.
From S2P Require Import Cbor.
From S2P Require Import Wire.
From S2P Require Import Ingress.
From S2P Require Import Crypto.
From S2P Require Import SessionErrors.
From S2P Require Import PostActive.
From S2P Require Import AuthFrames.
From S2P Require Import Intent.
From S2P Require Import Seams.
From S2P Require Import Handshake.

Open Scope Z_scope.

(** ** Operation deadlines *)

(** [OperationDeadline]; [now] is what [Instant::now()] returns inside [new]. *)
Record OperationDeadline := MkOperationDeadline {
  od_started : Z;
  od_budget : Z;
}.

Definition operation_deadline_new (now budget : Z) : option OperationDeadline :=
  if budget =? 0 then None else Some (MkOperationDeadline now budget).

Definition od_remaining (d : OperationDeadline) (now : Z) : Z :=
  Z.max 0 (od_budget d - elapsed (od_started d) now).

Definition od_is_expired (d : OperationDeadline) (now : Z) : bool := od_remaining d now =? 0.

Section session.
Context `{!CborCrate, !SessionCrypto, !Snow, !Seams}.

Definition SC : Type := ActiveMeshSession * Conn.

Definition with_transport (t : TransportState) (s : ActiveMeshSession) : ActiveMeshSession :=
  MkActiveMeshSession t (s_rekey s) (s_peer_hh_id s) (s_peer_m_id s) (s_peer_cert_fingerprint s)
    (s_ingress_evidence s) (s_h_final s) (s_gate s) (s_expires_at s) (s_closed s).

Definition with_rekey (r : SessionRekeyState) (s : ActiveMeshSession) : ActiveMeshSession :=
  MkActiveMeshSession (s_transport s) r (s_peer_hh_id s) (s_peer_m_id s) (s_peer_cert_fingerprint s)
    (s_ingress_evidence s) (s_h_final s) (s_gate s) (s_expires_at s) (s_closed s).

Definition close (s : ActiveMeshSession) : ActiveMeshSession :=
  MkActiveMeshSession (s_transport s) (s_rekey s) (s_peer_hh_id s) (s_peer_m_id s)
    (s_peer_cert_fingerprint s) (s_ingress_evidence s) (s_h_final s) (s_gate s) (s_expires_at s) true.

(** Reading and changing the session; a step of the connection. *)
Definition session {E} : ST SC E ActiveMeshSession := λ s, (Ok s.1, s).
Definition update {E} (f : ActiveMeshSession → ActiveMeshSession) : ST SC E unit :=
  λ s, (Ok tt, (f s.1, s.2)).
Definition conn {E A} (m : ST Conn E A) : ST SC E A :=
  λ s, match m s.2 with (r, c) => (r, (s.1, c)) end.

(** ** Rekeying *)

Definition set_tx (tx : DirectionalRekeyState) : ST SC PostActiveError unit :=
  update (λ s, with_rekey (MkSessionRekey tx (sr_rx (s_rekey s))) s).
Definition set_rx (rx : DirectionalRekeyState) : ST SC PostActiveError unit :=
  update (λ s, with_rekey (MkSessionRekey (sr_tx (s_rekey s)) rx) s).

(** [self.rekey.tx().before_send_non_marker()], left for the caller to match. *)
Definition ask_non_marker : ST SC PostActiveError (Result RekeyError SendNonMarkerPermit) :=
  s ← session; mret (before_send_non_marker (sr_tx (s_rekey s))).

Definition commit_non_marker (permit : SendNonMarkerPermit) : ST SC PostActiveError unit :=
  s ← session;
  tx ← lift (map_err PE_Rekey (after_send_non_marker permit (sr_tx (s_rekey s))));
  set_tx tx.

Definition commit_outgoing_rekey (permit : SendMarkerPermit) : ST SC PostActiveError unit :=
  s ← session;
  lift (map_err PE_Rekey (validate_marker_permit permit (sr_tx (s_rekey s))));;
  update (λ s, with_transport (rekey_outgoing (s_transport s)) s);;
  s ← session;
  tx ← lift (map_err PE_Rekey (after_send_marker permit (sr_tx (s_rekey s))));
  set_tx tx.

Definition observe_incoming_non_marker : ST SC PostActiveError unit :=
  s ← session;
  rx ← lift (map_err PE_Rekey (on_receive NonMarker (sr_rx (s_rekey s))));
  set_rx rx.

Definition commit_incoming_rekey (next_generation : Z) : ST SC PostActiveError unit :=
  s ← session;
  rx ← lift (map_err PE_Rekey (on_receive (Marker next_generation) (sr_rx (s_rekey s))));
  set_rx rx;;
  update (λ s, with_transport (rekey_incoming (s_transport s)) s).

(** ** Records *)

(** [OperationDeadline::new(budget).ok_or(Expired)?] *)
Definition start_operation (budget : Z) : ST SC PostActiveError OperationDeadline :=
  now ← conn (ask instant_now);
  lift (ok_or (operation_deadline_new now budget) PE_Expired).

(** Encrypts [plaintext] (the encoding of [record]) and writes it. *)
Definition write_record (record : PostActiveRecord) (plaintext : bytes) : ST SC PostActiveError unit :=
  s ← session;
  '(ciphertext, transport) ←
    lift (ok_or (ts_write_message (s_transport s) plaintext) (PE_Noise NE_Snow));
  update (with_transport transport);;
  conn (log_event (Ev_SendRecord record));;
  st_map_err PE_Wire (conn (write_step (write_transport_record ciphertext))).

Definition send_outgoing_rekey_marker (budget : Z) : ST SC PostActiveError unit :=
  s ← session;
  permit ← lift (map_err PE_Rekey (before_send_marker (sr_tx (s_rekey s))));
  start_operation budget;;
  record ← lift (encode_rekey_record (mk_next_generation permit));
  write_record (PA_Rekey (mk_next_generation permit)) record;;
  commit_outgoing_rekey permit.

(** A permit for a non-marker record, sending the marker first if one is due. *)
Definition permit_after_marker (budget : Z) : ST SC PostActiveError SendNonMarkerPermit :=
  first ← ask_non_marker;
  match first with
  | Ok permit => mret permit
  | Err RE_ExpectedRekeyMarker =>
      send_outgoing_rekey_marker budget;;
      second ← ask_non_marker;
      lift (map_err PE_Rekey second)
  | Err e => lift (Err (PE_Rekey e))
  end.

(** ** The guard *)

(** The guard is dropped when [body] ends, however it ends. *)
Definition drop_after {A} (body : ST SC PostActiveError A) : ST SC PostActiveError A :=
  λ st, match body st with
        | (r, (s, c)) => (r, (s, MkConn (drop_guard (s_gate s) (c_ext c)) (c_in c) (c_out c) (c_ios c)
                                   (c_log c ++ [Ev_Drop])))
        end.

Definition with_guard {A} (body : ST SC PostActiveError A) : ST SC PostActiveError A :=
  s ← session;
  granted ← conn (ask (try_authorize (s_gate s)));
  conn (log_event (Ev_Guard granted));;
  lift (reject_if (negb granted) PE_NotAuthorized);;
  drop_after body.

(** A fresh reading of the clock, against the session's expiry. *)
Definition check_not_expired : ST SC PostActiveError unit :=
  now ← st_map_err PE_Intent (conn (logged Ev_Clock clock_now));
  s ← session;
  lift (reject_if (s_expires_at s <=? now) PE_Expired).

(** ** DATA *)

Definition send_data_inner (payload : bytes) (budget : Z) : ST SC PostActiveError unit :=
  permit ← permit_after_marker budget;
  with_guard (
    check_not_expired;;
    start_operation budget;;
    record ← lift (encode_data_record payload);
    write_record (PA_Data payload) record);;
  commit_non_marker permit.

(** [if self.closed { Err(Closed) }], then [inner]; an error closes. *)
Definition guarded_operation {A} (inner : ST SC PostActiveError A) : ST SC PostActiveError A :=
  λ st, if s_closed st.1 then (Err PE_Closed, st)
        else match inner st with
             | (Ok a, st) => (Ok a, st)
             | (Err e, (s, c)) => (Err e, (close s, c))
             end.

Definition send_data (payload : bytes) (budget : Z) : ST SC PostActiveError unit :=
  guarded_operation (send_data_inner payload budget).

(** One round of the receive loop up to the record. *)
Definition read_record (budget : Z) : ST SC PostActiveError PostActiveRecord :=
  start_operation budget;;
  ciphertext ← st_map_err PE_Wire (conn (read_step read_transport_record));
  s ← session;
  '(plaintext, transport) ←
    lift (ok_or (ts_read_message (s_transport s) ciphertext) (PE_Noise NE_Snow));
  update (with_transport transport);;
  record ← lift (decode_post_active_record plaintext);
  conn (log_event (Ev_RecvRecord record));;
  mret record.

(** Copies [payload] into [buffer]; returns the length and the new contents.
    On every error the buffer is as it was. *)
Definition deliver (payload buffer : bytes) : ST SC PostActiveError (nat * bytes) :=
  observe_incoming_non_marker;;
  with_guard (
    check_not_expired;;
    lift (reject_if (length buffer <? length payload)%nat
      (PE_ReceiveBufferTooSmall (Z.of_nat (length buffer)) (Z.of_nat (length payload))));;
    conn (log_event (Ev_Deliver payload));;
    mret (length payload, payload ++ drop (length payload) buffer)).

(** The loop; [None] is fuel spent. *)
Fixpoint receive_loop (fuel : nat) (buffer : bytes) (budget : Z) (st : SC)
    : option (Result PostActiveError (nat * bytes) * SC) :=
  match fuel with
  | O => None
  | S fuel =>
      match read_record budget st with
      | (Err e, st) => Some (Err e, st)
      | (Ok (PA_Rekey next_generation), st) =>
          match commit_incoming_rekey next_generation st with
          | (Err e, st) => Some (Err e, st)
          | (Ok _, st) => receive_loop fuel buffer budget st
          end
      | (Ok PA_Close, st) =>
          Some ((observe_incoming_non_marker;; lift (Err PE_PeerClosed)) st)
      | (Ok PA_RevokeNotice, st) =>
          Some ((observe_incoming_non_marker;; lift (Err PE_PeerRevoked)) st)
      | (Ok (PA_Data payload), st) => Some (deliver payload buffer st)
      end
  end.

(** Every round takes at least four bytes off the stream. *)
Definition receive_data_inner (buffer : bytes) (budget : Z) : ST SC PostActiveError (nat * bytes) :=
  λ st, match receive_loop (S (length (c_in st.2))) buffer budget st with
        | Some (r, st) => (r, st)
        | None => (Err (PE_Wire (WE_Io Io_Other)), st)
        end.

Definition receive_data (buffer : bytes) (budget : Z) : ST SC PostActiveError (nat * bytes) :=
  guarded_operation (receive_data_inner buffer budget).

(** ** Closing *)

(** [if self.closed { return Ok(()) }; self.closed = true; inner] *)
Definition closing_operation (inner : ST SC PostActiveError unit) : ST SC PostActiveError unit :=
  λ st, if s_closed st.1 then (Ok tt, st) else inner (close st.1, st.2).

Definition close_gracefully (budget : Z) : ST SC PostActiveError unit :=
  closing_operation (
    permit ← permit_after_marker budget;
    start_operation budget;;
    write_record PA_Close encode_close_record;;
    commit_non_marker permit).

(** [let _ = m;] *)
Definition ignore {A} (m : ST SC PostActiveError A) : ST SC PostActiveError unit :=
  λ st, match m st with (_, st) => (Ok tt, st) end.

(** The notice, best effort: a failure to start or to encrypt ends it, the
    results of writing and of committing are discarded. *)
Definition send_revoke_notice (permit : SendNonMarkerPermit) (budget : Z) : ST SC PostActiveError unit :=
  λ st,
    match start_operation budget st with
    | (Err _, st) => (Ok tt, st)
    | (Ok _, st) =>
        match ts_write_message (s_transport st.1) encode_revoke_notice_record with
        | None => (Ok tt, st)
        | Some (ciphertext, transport) =>
            (update (with_transport transport);;
             conn (log_event (Ev_SendRecord PA_RevokeNotice));;
             ignore (st_map_err PE_Wire (conn (write_step (write_transport_record ciphertext))));;
             ignore (commit_non_marker permit)) st
        end
    end.

Definition notify_revoked_and_close (budget : Z) : ST SC PostActiveError unit :=
  closing_operation (
    first ← ask_non_marker;
    match first with
    | Err _ => mret tt
    | Ok permit => send_revoke_notice permit budget
    end).
End session.
