(* ===== verification/SessionProofs.v ===== *)
(** * What an active session guarantees

    Over any sequence of operations on a session, whatever the peer, the stream
    and the seams do: closing is final; a payload moves only under a guard the
    admission registry granted and a clock reading before the session's expiry;
    receiving always ends. *)

From stdpp Require Import base gmap sets list strings.
From Stdlib Require Import ZArith Lia Ascii.
From S2P Require Import Prelude.
From S2P Require Import Rekey.
From S2P Require Import Cbor.
From S2P Require Import Wire.
From S2P Require Import Ingress.
From S2P Require Import Crypto.
From S2P Require Import SessionErrors.
From S2P Require Import PostActive.
From S2P Require Import AuthFrames.
From S2P Require Import Intent.
From S2P Require Import Seams.
From S2P Require Import Refine.
From S2P Require Import Handshake.
From S2P Require Import Session.

Open Scope Z_scope.

(** ** Sequences of operations *)

Inductive SessionOp :=
| Op_Send (payload : bytes) (budget : Z)
| Op_Receive (buffer : bytes) (budget : Z)
| Op_Close (budget : Z)
| Op_Revoke (budget : Z).

(** The operations that close the session whatever happens. *)
Definition closes (op : SessionOp) : bool :=
  match op with Op_Close _ | Op_Revoke _ => true | _ => false end.

Section operations.
Context `{!CborCrate, !SessionCrypto, !Snow, !Seams}.

Definition run_op (op : SessionOp) : ST SC PostActiveError unit :=
  match op with
  | Op_Send payload budget => send_data payload budget
  | Op_Receive buffer budget => receive_data buffer budget;; mret tt
  | Op_Close budget => close_gracefully budget
  | Op_Revoke budget => notify_revoked_and_close budget
  end.

Fixpoint run_ops (ops : list SessionOp) (st : SC) : SC :=
  match ops with
  | [] => st
  | op :: ops => run_ops ops (run_op op st).2
  end.

#[export] Instance SC_log : HasLog SC := λ st, c_log st.2.
End operations.

(** ** The data machine *)

(** A received payload waits in [D_Got] for its guard; [D_Held] has the guard,
    [D_Fresh] has also seen the clock before the expiry. *)
Inductive DPhase :=
| D_Idle
| D_Got (payload : bytes)
| D_Held (received : option bytes)
| D_Fresh (received : option bytes)
| D_Lapsed
| D_Used.

Definition not_data (r : PostActiveRecord) : Prop := ∀ p, r ≠ PA_Data p.

Inductive dstep (expires_at : Z) : DPhase → Event → DPhase → Prop :=
| d_guard_send : dstep expires_at D_Idle (Ev_Guard true) (D_Held None)
| d_guard_recv p : dstep expires_at (D_Got p) (Ev_Guard true) (D_Held (Some p))
| d_refused_send : dstep expires_at D_Idle (Ev_Guard false) D_Idle
| d_refused_recv p : dstep expires_at (D_Got p) (Ev_Guard false) D_Idle
| d_fresh o now : now < expires_at → dstep expires_at (D_Held o) (Ev_Clock (Ok now)) (D_Fresh o)
| d_lapsed o r : (∀ now, r = Ok now → expires_at ≤ now) →
    dstep expires_at (D_Held o) (Ev_Clock r) D_Lapsed
| d_send p : dstep expires_at (D_Fresh None) (Ev_SendRecord (PA_Data p)) D_Used
| d_deliver p : dstep expires_at (D_Fresh (Some p)) (Ev_Deliver p) D_Used
| d_drop_lapsed : dstep expires_at D_Lapsed Ev_Drop D_Idle
| d_drop_used : dstep expires_at D_Used Ev_Drop D_Idle
| d_drop_fresh o : dstep expires_at (D_Fresh o) Ev_Drop D_Idle
| d_recv_data p : dstep expires_at D_Idle (Ev_RecvRecord (PA_Data p)) (D_Got p)
| d_recv r : not_data r → dstep expires_at D_Idle (Ev_RecvRecord r) D_Idle
| d_send_control r : not_data r → dstep expires_at D_Idle (Ev_SendRecord r) D_Idle.

(** ** The operations against the machine *)

Section machine.
Context `{!CborCrate, !SessionCrypto, !Snow, !Seams} (exp : Z) (b : bool).

(** What the operations leave alone. *)
Definition fixed (st : SC) : Prop := s_expires_at st.1 = exp ∧ s_closed st.1 = b.

Abbreviation D := (dstep exp).
Abbreviation Ref := (Refines fixed D).
Abbreviation idle := (λ ph, ph = D_Idle).

Lemma silent_session {E} : Silent fixed (session (E:=E)).
Proof. by intros s r s' Hi [= <- <-]. Qed.

Lemma silent_update {E} f : (∀ s, s_expires_at (f s) = s_expires_at s ∧ s_closed (f s) = s_closed s) →
  Silent fixed (update (E:=E) f).
Proof.
  intros Hf s r s' [He Hb] [= <- <-]. destruct (Hf s.1) as [Hfe Hfb].
  split; [|done]. split; cbn; congruence.
Qed.

Lemma silent_conn {E A} (m : ST Conn E A) : Silent any m → Silent fixed (conn m).
Proof.
  intros Hm [s c] r s' Hi Hr. unfold conn in Hr. cbn in Hr. destruct (m c) as [r0 c'] eqn:Em.
  injection Hr as <- <-. destruct (Hm _ _ _ I Em) as [_ Hl]. done.
Qed.

Lemma ref_session_bind {E A} ph (f : ActiveMeshSession → ST SC E A) Q QE :
  (∀ s, s_expires_at s = exp → Ref ph (f s) Q QE) → Ref ph (session ≫= f) Q QE.
Proof.
  intros Hf st r st' Hi Hr. unfold mbind, ST_bind, session in Hr. exact (Hf _ (proj1 Hi) _ _ _ Hi Hr).
Qed.

Lemma ref_conn_log {E} ph ph' e (Q : unit → DPhase → Prop) QE :
  D ph e ph' → Q tt ph' → Ref ph (conn (log_event (E:=E) e)) Q QE.
Proof.
  intros Hs HQ [s c] r s' Hi [= <- <-]. split; [done|]. exists [e], ph'.
  split_and!; [done|by apply path_one|done].
Qed.
End machine.

(** Proves that a step of a session logs nothing. *)
Ltac silent_s := repeat (intros; first
  [ apply silent_bind | apply silent_ret | apply silent_lift | apply silent_map_err
  | apply silent_session | apply silent_update; done | apply silent_conn; silent
  | match goal with |- Silent _ (match ?x with _ => _ end) => destruct x end ]).

Section machine_operations.
Context `{!CborCrate, !SessionCrypto, !Snow, !Seams} (exp : Z) (b : bool).
Abbreviation D := (dstep exp).
Abbreviation Ref := (Refines (fixed exp b) D).
Abbreviation idle := (λ ph, ph = D_Idle).

Lemma silent_start budget : Silent (fixed exp b) (start_operation budget).
Proof. unfold start_operation. silent_s. Qed.

Lemma silent_observe : Silent (fixed exp b) observe_incoming_non_marker.
Proof. unfold observe_incoming_non_marker, set_rx. silent_s. Qed.

Lemma silent_commit_non_marker permit : Silent (fixed exp b) (commit_non_marker permit).
Proof. unfold commit_non_marker, set_tx. silent_s. Qed.

Lemma silent_commit_incoming g : Silent (fixed exp b) (commit_incoming_rekey g).
Proof. unfold commit_incoming_rekey, set_rx. silent_s. Qed.

Lemma ref_write_record record plaintext ph ph' QE :
  D ph (Ev_SendRecord record) ph' → QE ph → QE ph' →
  Ref ph (write_record record plaintext) (λ _ p, p = ph') QE.
Proof.
  intros Hs HE HE'. unfold write_record. apply ref_session_bind. intros s _.
  apply ref_lift_bind; [done|]. intros [ct tr] _.
  apply ref_silent_bind; [silent_s|done|]. intros [].
  apply (ref_bind (Q1:=λ _ p, p = ph')); [by eapply ref_conn_log|]. intros [] ? ->.
  apply ref_silent; [silent_s|done..].
Qed.

Lemma ref_permit budget : Ref D_Idle (permit_after_marker budget) (λ _, idle) idle.
Proof.
  unfold permit_after_marker, ask_non_marker. apply ref_silent_bind; [silent_s|done|].
  intros [p|e]; [by apply ref_ret|].
  destruct e; try solve [apply ref_silent; [silent_s|done..]].
  apply (ref_bind (Q1:=λ _, idle)); [|intros [] ? ->; apply ref_silent; [silent_s|done..]].
  unfold send_outgoing_rekey_marker. apply ref_silent_bind; [silent_s|done|]. intros s.
  apply ref_silent_bind; [silent_s|done|]. intros p.
  apply ref_silent_bind; [apply silent_start|done|]. intros _.
  apply ref_silent_bind; [silent_s|done|]. intros r.
  apply (ref_bind (Q1:=λ _, idle)); [apply ref_write_record; [by constructor|done..]|].
  intros [] ? ->. apply ref_silent; [unfold commit_outgoing_rekey, set_tx; silent_s|done..].
Qed.

Lemma ref_drop_after {A} ph (body : ST SC PostActiveError A) Q QE :
  Ref ph body Q QE → (∀ a p, Q a p → D p Ev_Drop D_Idle) → (∀ p, QE p → D p Ev_Drop D_Idle) →
  Ref ph (drop_after body) (λ _, idle) idle.
Proof.
  intros Hb HQ HE st r st' Hi Hr. unfold drop_after in Hr.
  destruct (body st) as [r0 [s c]] eqn:Eb. injection Hr as <- <-.
  destruct (Hb _ _ _ Hi Eb) as (Hi' & l & ph' & Hl & Hp & Hr). split; [done|].
  exists (l ++ [Ev_Drop]), D_Idle. split_and!.
  - unfold log_of, SC_log in *. cbn in *. by rewrite Hl, (assoc_L (++)).
  - eapply path_app; [done|]. apply path_one. destruct r0; eauto.
  - by destruct r0.
Qed.

(** A body run under a guard: it starts with the guard held. *)
Lemma ref_with_guard {A} ph o (body : ST SC PostActiveError A) Q QE :
  D ph (Ev_Guard true) (D_Held o) → D ph (Ev_Guard false) D_Idle →
  Ref (D_Held o) body Q QE → (∀ a p, Q a p → D p Ev_Drop D_Idle) → (∀ p, QE p → D p Ev_Drop D_Idle) →
  Ref ph (with_guard body) (λ _, idle) (λ p, p = D_Idle ∨ p = ph).
Proof.
  intros Ht Hf Hb HQ HE. unfold with_guard. apply ref_silent_bind; [silent_s|auto|]. intros s.
  apply ref_silent_bind; [silent_s|auto|]. intros [|].
  - apply (ref_bind (Q1:=λ _ p, p = D_Held o)); [by eapply ref_conn_log|]. intros [] ? ->. cbn [negb reject_if].
    apply (ref_bind (Q1:=λ _ p, p = D_Held o)).
    { intros st r st' Hi [= <- <-]. split; [done|]. exists [], (D_Held o). rewrite app_nil_r.
      split_and!; [done|constructor|done]. }
    intros [] ? ->. eapply ref_weaken; [by eapply ref_drop_after|done|auto].
  - apply (ref_bind (Q1:=λ _ p, p = D_Idle)); [by eapply ref_conn_log|]. intros [] ? ->.
    apply ref_lift_bind; [auto|]. by intros [].
Qed.

Definition droppable (ph : DPhase) : Prop :=
  match ph with D_Lapsed | D_Used | D_Fresh _ => True | _ => False end.

Lemma droppable_drop ph : droppable ph → D ph Ev_Drop D_Idle.
Proof. destruct ph; try done; constructor. Qed.

Lemma ref_check_not_expired o :
  Ref (D_Held o) check_not_expired (λ _ p, p = D_Fresh o) droppable.
Proof.
  intros [s c] r st' [He Hb] Hr. cbn in He, Hb.
  unfold check_not_expired, mbind, ST_bind, st_map_err, conn, logged, session, lift in Hr. cbn in Hr.
  destruct (clock_now (c_ext c)) as [rc x]. destruct rc as [now|e].
  - cbn in Hr. injection Hr as <- <-. split; [done|]. unfold reject_if.
    destruct (Z.leb_spec (s_expires_at s) now).
    + exists [Ev_Clock (Ok now)], D_Lapsed. split_and!; [done| |done]. apply path_one, d_lapsed.
      intros ? [= <-]. lia.
    + exists [Ev_Clock (Ok now)], (D_Fresh o). split_and!; [done| |done]. apply path_one, d_fresh. lia.
  - cbn in Hr. injection Hr as <- <-. split; [done|].
    exists [Ev_Clock (Err e)], D_Lapsed. split_and!; [done| |done]. by apply path_one, d_lapsed.
Qed.

Lemma ref_send payload budget : Ref D_Idle (send_data_inner payload budget) (λ _, idle) idle.
Proof.
  unfold send_data_inner. apply (ref_bind (Q1:=λ _, idle)); [apply ref_permit|]. intros p ? ->.
  apply (ref_bind (Q1:=λ _, idle)); [|intros [] ? ->; apply ref_silent; [apply silent_commit_non_marker|done..]].
  eapply ref_weaken; [eapply (ref_with_guard _ None _ (λ _, droppable) droppable)| |]; [constructor..| | | | |].
  - apply (ref_bind (Q1:=λ _ p, p = D_Fresh None)); [apply ref_check_not_expired|]. intros [] ? ->.
    apply ref_silent_bind; [apply silent_start|done|]. intros _.
    apply ref_silent_bind; [silent_s|done|]. intros record.
    eapply ref_weaken; [apply (ref_write_record _ _ _ D_Used droppable)| |]; [constructor|done..|by intros [] ? ->|done].
  - intros _. apply droppable_drop.
  - apply droppable_drop.
  - done.
  - by intros ? [|].
Qed.

(** A payload that waits for its guard, or nothing. *)
Definition waiting (ph : DPhase) : Prop := ph = D_Idle ∨ ∃ p, ph = D_Got p.

Lemma ref_deliver payload buffer : Ref (D_Got payload) (deliver payload buffer) (λ _, idle) waiting.
Proof.
  unfold deliver. apply ref_silent_bind; [apply silent_observe|right; eauto|]. intros [].
  eapply ref_weaken;
    [eapply (ref_with_guard _ (Some payload) _ (λ _, droppable) droppable)| |]; [constructor..| | | | |].
  - apply (ref_bind (Q1:=λ _ p, p = D_Fresh (Some payload))); [apply ref_check_not_expired|]. intros [] ? ->.
    apply ref_silent_bind; [silent_s|done|]. intros [].
    apply (ref_bind (Q1:=λ _ p, p = D_Used)); [eapply ref_conn_log; [constructor|done]|]. intros [] ? ->.
    by apply ref_ret.
  - intros _. apply droppable_drop.
  - apply droppable_drop.
  - done.
  - intros p [->| ->]; [by left|right; eauto].
Qed.

Definition after_record (r : PostActiveRecord) : DPhase :=
  match r with PA_Data p => D_Got p | _ => D_Idle end.

Lemma ref_read_record budget : Ref D_Idle (read_record budget) (λ r p, p = after_record r) idle.
Proof.
  unfold read_record. apply ref_silent_bind; [apply silent_start|done|]. intros _.
  apply ref_silent_bind; [silent_s|done|]. intros ct. apply ref_silent_bind; [silent_s|done|]. intros s.
  apply ref_silent_bind; [silent_s|done|]. intros [pt tr]. apply ref_silent_bind; [silent_s|done|]. intros [].
  apply ref_silent_bind; [silent_s|done|]. intros r.
  apply (ref_bind (Q1:=λ _ p, p = after_record r));
    [eapply ref_conn_log; [|done]; destruct r; by constructor|].
  intros [] ? ->. by apply ref_ret.
Qed.
End machine_operations.

(** ** Receiving ends *)

Section receiving.
Context `{!CborCrate, !SessionCrypto, !Snow, !Seams} (buffer : bytes) (budget : Z).

Lemma start_operation_conn budget0 st r st' :
  start_operation budget0 st = (r, st') →
  st'.1 = st.1 ∧ c_in st'.2 = c_in st.2 ∧ c_out st'.2 = c_out st.2 ∧ c_ios st'.2 = c_ios st.2.
Proof.
  destruct st as [s c]. unfold start_operation, mbind, ST_bind, conn, ask. cbn.
  destruct (instant_now (c_ext c)) as [now x]. cbn. by intros [= <- <-].
Qed.

(** A record is a whole frame of the stream. *)
Lemma read_record_frame st record st' :
  read_record budget st = (Ok record, st') →
  ∃ body, c_in st.2 = to_be_bytes 4 (Z.of_nat (length body)) ++ body ++ c_in st'.2.
Proof.
  unfold read_record. intros Hr. apply st_bind_Ok in Hr as (d & [s1 c1] & Hd & Hr).
  apply start_operation_conn in Hd as (Hs & Hin & _). cbn in Hs, Hin.
  apply st_bind_Ok in Hr as (ct & [s2 c2] & Hc%st_map_err_Ok & Hr).
  unfold conn, read_step, read_transport_record in Hc. cbn [fst snd] in Hc.
  destruct (read_frame_exact MAX_NOISE_RECORD_LEN (c_ios c1) (c_in c1)) as (r & rest & ios' & taken & Hrd & Htk & Hok & _).
  rewrite Hrd in Hc. injection Hc as -> <- <-. destruct (Hok _ eq_refl) as [_ ->].
  exists ct. rewrite <-Hin, Htk, <-(assoc_L (++)). do 2 f_equal.
  unfold session, update, conn, lift, mbind, ST_bind in Hr. cbn in Hr.
  destruct (ts_read_message _ _) as [[pt tr]|]; [|done]. cbn in Hr.
  destruct (decode_post_active_record pt); [|done]. by injection Hr as <- <-.
Qed.

Lemma commit_incoming_conn g st r st' :
  commit_incoming_rekey g st = (r, st') → st'.2 = st.2.
Proof.
  unfold commit_incoming_rekey, session, set_rx, update, lift, mbind, ST_bind.
  destruct (map_err _ _); cbn; by intros [= <- <-].
Qed.

Lemma read_record_shrinks st record st' :
  read_record budget st = (Ok record, st') → (length (c_in st'.2) < length (c_in st.2))%nat.
Proof.
  intros (body & ->)%read_record_frame. rewrite !length_app, length_to_be_bytes. lia.
Qed.

Lemma receive_loop_total fuel : ∀ st,
  (length (c_in st.2) < fuel)%nat → receive_loop fuel buffer budget st ≠ None.
Proof.
  induction fuel as [|fuel IH]; intros st Hlt; [lia|]. cbn [receive_loop].
  destruct (read_record budget st) as [[record|e] st1] eqn:Er; [|done].
  pose proof (read_record_shrinks _ _ _ Er). destruct record as [| | |g]; try done.
  destruct (commit_incoming_rekey g st1) as [[[]|e] st2] eqn:Ec; [|done].
  apply IH. rewrite (commit_incoming_conn _ _ _ _ Ec). lia.
Qed.

Lemma receive_loop_mono fuel fuel' : ∀ st x,
  (fuel ≤ fuel')%nat → receive_loop fuel buffer budget st = Some x → receive_loop fuel' buffer budget st = Some x.
Proof.
  revert fuel'. induction fuel as [|fuel IH]; intros fuel' st x Hle; [done|].
  destruct fuel' as [|fuel']; [lia|]. cbn [receive_loop].
  destruct (read_record budget st) as [[[| | |g]|e] st1]; try done.
  destruct (commit_incoming_rekey g st1) as [[[]|e] st2]; [|done]. apply IH. lia.
Qed.

(** The result of the loop. *)
Lemma receive_data_inner_loop st r st' :
  receive_data_inner buffer budget st = (r, st') →
  receive_loop (S (length (c_in st.2))) buffer budget st = Some (r, st').
Proof.
  unfold receive_data_inner. intros Hr.
  destruct (receive_loop _ _ _ _) as [[r0 st0]|] eqn:El; [by injection Hr as <- <-|].
  exfalso. eapply receive_loop_total; [|exact El]. lia.
Qed.

(** What [Refines] says of one run from [ph]. *)
Definition traced exp b (ph : DPhase) (st : SC) (r : Result PostActiveError (nat * bytes)) (st' : SC) : Prop :=
  fixed exp b st' ∧ ∃ l ph', c_log st'.2 = c_log st.2 ++ l ∧ path (dstep exp) ph l ph' ∧
    match r with Ok _ => ph' = D_Idle | Err _ => waiting ph' end.

Lemma traced_app exp b ph st r st' st0 l0 ph0 :
  c_log st.2 = c_log st0.2 ++ l0 → path (dstep exp) ph0 l0 ph →
  traced exp b ph st r st' → traced exp b ph0 st0 r st'.
Proof.
  intros Hl0 Hp0 (Hi & l & ph' & Hl & Hp & Hr). split; [done|]. exists (l0 ++ l), ph'.
  rewrite Hl, Hl0, (assoc_L (++)). split_and!; [done|by eapply path_app|done].
Qed.

Lemma traced_here exp b st e : fixed exp b st → traced exp b D_Idle st (Err e) st.
Proof.
  intros Hi. split; [done|]. exists [], D_Idle. rewrite app_nil_r.
  split_and!; [done|constructor|by left].
Qed.

Lemma ref_observe_end exp b e :
  Refines (fixed exp b) (dstep exp) D_Idle (observe_incoming_non_marker;; lift (Err e))
    (λ _ : nat * bytes, λ ph, ph = D_Idle) waiting.
Proof.
  apply ref_silent; [|done|by left].
  apply silent_bind; [apply silent_observe|intros; apply silent_lift].
Qed.

Lemma ref_receive_loop exp b fuel : ∀ st r st',
  fixed exp b st → receive_loop fuel buffer budget st = Some (r, st') → traced exp b D_Idle st r st'.
Proof.
  induction fuel as [|fuel IH]; intros st r st' Hi Hr; [done|]. cbn [receive_loop] in Hr.
  destruct (read_record budget st) as [r1 st1] eqn:E1.
  destruct (ref_read_record exp b budget _ _ _ Hi E1) as (Hi1 & l1 & ph1 & Hl1 & Hp1 & Hr1).
  eapply traced_app; [exact Hl1|exact Hp1|].
  destruct r1 as [[payload| | |g]|e]; cbn in Hr1; subst ph1.
  - injection Hr as Hr. by apply (ref_deliver exp b payload buffer).
  - injection Hr as Hr. by apply (ref_observe_end exp b PE_PeerRevoked).
  - injection Hr as Hr. by apply (ref_observe_end exp b PE_PeerClosed).
  - destruct (commit_incoming_rekey g st1) as [r2 st2] eqn:E2.
    destruct (silent_commit_incoming exp b g _ _ _ Hi1 E2) as [Hi2 Hl2].
    eapply (traced_app _ _ D_Idle st2 _ _ _ []); [by rewrite app_nil_r|constructor|].
    destruct r2 as [[]|e]; [by apply IH|]. injection Hr as <- <-. by apply traced_here.
  - injection Hr as <- <-. by apply traced_here.
Qed.
End receiving.

(** ** Whole operations *)

Section whole.
Context `{!CborCrate, !SessionCrypto, !Snow, !Seams}.
Abbreviation idle := (λ ph, ph = D_Idle).

Lemma silent_ignore {A} exp b (m : ST SC PostActiveError A) :
  Silent (fixed exp b) m → Silent (fixed exp b) (ignore m).
Proof.
  intros Hm st r st' Hi Hr. unfold ignore in Hr. destruct (m st) as [r0 st0] eqn:Em.
  injection Hr as <- <-. by apply (Hm _ _ _ Hi Em).
Qed.

Lemma ref_revoke_notice exp b permit budget :
  Refines (fixed exp b) (dstep exp) D_Idle (send_revoke_notice permit budget) (λ _, idle) idle.
Proof.
  intros st r st' Hi Hr. unfold send_revoke_notice in Hr.
  assert (∀ st1, fixed exp b st1 → c_log st1.2 = c_log st.2 → (Ok tt, st1) = (r, st') →
    fixed exp b st' ∧ ∃ l ph', log_of st' = log_of st ++ l ∧ path (dstep exp) D_Idle l ph' ∧
      match r with Ok _ => ph' = D_Idle | Err _ => ph' = D_Idle end) as Hstop.
  { intros st1 Hi1 Hl1 [= <- <-]. split; [done|]. exists [], D_Idle. rewrite app_nil_r.
    split_and!; [done|constructor|done]. }
  destruct (start_operation budget st) as [r1 st1] eqn:E1.
  destruct (silent_start exp b budget _ _ _ Hi E1) as [Hi1 Hl1].
  destruct r1; [|by eapply Hstop]. destruct (ts_write_message _ _) as [[ct tr]|]; [|by eapply Hstop].
  assert (Refines (fixed exp b) (dstep exp) D_Idle
    (update (with_transport tr);; conn (log_event (Ev_SendRecord PA_RevokeNotice));;
     ignore (st_map_err PE_Wire (conn (write_step (write_transport_record ct))));;
     ignore (commit_non_marker permit)) (λ _, idle) idle) as Href.
  { apply ref_silent_bind; [silent_s|done|]. intros [].
    apply (ref_bind (Q1:=λ _, idle)); [eapply ref_conn_log; [by constructor|done]|]. intros [] ? ->.
    apply ref_silent; [|done..].
    apply silent_bind; [|intros]; apply silent_ignore; [silent_s|apply silent_commit_non_marker]. }
  destruct (Href _ _ _ Hi1 Hr) as (Hi2 & l & ph & Hl & Hp & Hr2). split; [done|].
  exists l, ph. split_and!; [by rewrite Hl, Hl1|done..].
Qed.

Lemma ref_close_inner exp b budget :
  Refines (fixed exp b) (dstep exp) D_Idle
    (permit ← permit_after_marker budget; start_operation budget;;
     write_record PA_Close encode_close_record;; commit_non_marker permit) (λ _, idle) idle.
Proof.
  apply (ref_bind (Q1:=λ _, idle)); [apply ref_permit|]. intros p ? ->.
  apply ref_silent_bind; [apply silent_start|done|]. intros _.
  apply (ref_bind (Q1:=λ _, idle)); [apply ref_write_record; [by constructor|done..]|].
  intros [] ? ->. apply ref_silent; [apply silent_commit_non_marker|done..].
Qed.

(** What an operation does to the session and the log. *)
Record op_effect (closing : bool) (st : SC) (ok : bool) (st' : SC) : Prop := {
  oe_expiry : s_expires_at st'.1 = s_expires_at st.1;
  oe_closed : s_closed st'.1 = s_closed st.1 || negb ok || closing;
  oe_inert : s_closed st.1 = true → st' = st;
  oe_log : ∃ l ph, c_log st'.2 = c_log st.2 ++ l ∧ path (dstep (s_expires_at st.1)) D_Idle l ph ∧
    waiting ph ∧ (s_closed st'.1 = false → ph = D_Idle);
}.

Lemma op_effect_closed closing st ok :
  s_closed st.1 = true → op_effect closing st ok st.
Proof.
  intros Hc. split; [done|by rewrite Hc|done|]. exists [], D_Idle. rewrite app_nil_r.
  split_and!; [done|constructor|by left|done].
Qed.

Lemma guarded_effect {A} (inner : ST SC PostActiveError A) st r st' :
  (∀ st r st', fixed (s_expires_at st.1) false st → inner st = (r, st') →
     fixed (s_expires_at st.1) false st' ∧
     ∃ l ph, c_log st'.2 = c_log st.2 ++ l ∧ path (dstep (s_expires_at st.1)) D_Idle l ph ∧
       match r with Ok _ => ph = D_Idle | Err _ => waiting ph end) →
  guarded_operation inner st = (r, st') → op_effect false st (is_ok r) st'.
Proof.
  intros Hin Hr. unfold guarded_operation in Hr. destruct (s_closed st.1) eqn:Hc.
  { injection Hr as <- <-. by apply op_effect_closed. }
  destruct (inner st) as [[a|e] [s c]] eqn:Ei; injection Hr as <- <-;
    destruct (Hin st _ _ (conj eq_refl Hc) Ei) as ([He Hb] & l & ph & Hl & Hp & Hph); cbn in *.
  - split; cbn; [done|by rewrite Hb, Hc|by rewrite Hc|].
    exists l, ph. split_and!; [done..|by left|done].
  - split; cbn; [done|by rewrite Hc|by rewrite Hc|]. exists l, ph. done.
Qed.

Lemma closing_effect (inner : ST SC PostActiveError unit) st r st' :
  Refines (fixed (s_expires_at st.1) true) (dstep (s_expires_at st.1)) D_Idle inner (λ _, idle) idle →
  closing_operation inner st = (r, st') → op_effect true st (is_ok r) st'.
Proof.
  intros Hin Hr. unfold closing_operation in Hr. destruct (s_closed st.1) eqn:Hc.
  { injection Hr as <- <-. by apply op_effect_closed. }
  assert (fixed (s_expires_at st.1) true (close st.1, st.2)) as Hi by done.
  destruct (Hin _ _ _ Hi Hr) as ([He Hb] & l & ph & Hl & Hp & Hph).
  assert (ph = D_Idle) as -> by (by destruct r).
  split; [done|by rewrite Hb, orb_true_r|by rewrite Hc|].
  exists l, D_Idle. split_and!; [done..|by left|done].
Qed.

Lemma run_op_effect op st r st' :
  run_op op st = (r, st') → op_effect (closes op) st (is_ok r) st'.
Proof.
  destruct op as [payload budget|buffer budget|budget|budget]; cbn [run_op closes]; intros Hr.
  - apply guarded_effect with (inner := send_data_inner payload budget) (r := r); [|done].
    intros st0 r0 st0' Hi Hr0. destruct (ref_send _ _ payload budget _ _ _ Hi Hr0) as (? & l & ph & ? & ? & Hph).
    split; [done|]. exists l, ph. split_and!; [done..|]. destruct r0; [done|by left].
  - unfold mbind, ST_bind in Hr. destruct (receive_data buffer budget st) as [r0 st0] eqn:E0.
    assert (op_effect false st (is_ok r0) st0) as Heff.
    { apply guarded_effect with (inner := receive_data_inner buffer budget) (r := r0); [|done].
      intros st1 r1 st1' Hi Hr1%receive_data_inner_loop. by eapply ref_receive_loop in Hr1. }
    destruct r0; injection Hr as <- <-; exact Heff.
  - by eapply closing_effect; [apply ref_close_inner|].
  - eapply closing_effect; [|done]. unfold ask_non_marker. apply ref_silent_bind; [silent_s|done|].
    intros [p|e]; [apply ref_revoke_notice|by apply ref_ret].
Qed.
End whole.

(** ** Closing is final *)

Section sequences.
Context `{!CborCrate, !SessionCrypto, !Snow, !Seams}.

Lemma run_ops_closed ops st : s_closed st.1 = true → run_ops ops st = st.
Proof.
  intros Hc. induction ops as [|op ops IH]; [done|]. cbn.
  destruct (run_op op st) as [r st'] eqn:Ho. by rewrite (oe_inert _ _ _ _ (run_op_effect _ _ _ _ Ho) Hc).
Qed.

(** Whatever is done to a session, its log follows the data machine. *)
Lemma run_ops_path ops : ∀ st, ∃ l ph, c_log (run_ops ops st).2 = c_log st.2 ++ l ∧
  path (dstep (s_expires_at st.1)) D_Idle l ph ∧ waiting ph.
Proof.
  induction ops as [|op ops IH]; intros st; cbn.
  { exists [], D_Idle. rewrite app_nil_r. split_and!; [done|constructor|by left]. }
  destruct (run_op op st) as [r st1] eqn:Ho. cbn [snd].
  destruct (run_op_effect _ _ _ _ Ho) as [He _ _ (l1 & ph1 & Hl1 & Hp1 & Hw & Hidle)].
  destruct (s_closed st1.1) eqn:Hc; [rewrite (run_ops_closed _ _ Hc); eauto|].
  rewrite (Hidle eq_refl) in Hp1. destruct (IH st1) as (l2 & ph2 & Hl2 & Hp2 & Hw2).
  exists (l1 ++ l2), ph2. rewrite Hl2, Hl1, (assoc_L (++)). rewrite He in Hp2.
  split_and!; [done|by eapply path_app|done].
Qed.

(** Closing is final, and failing closes. An operation leaves the session
    closed exactly when it was closed before, when it failed, or when it was
    a closing one. On a closed session nothing ever happens again: sending and
    receiving answer [Closed], closing again succeeds, and no sequence of
    operations changes the session, reads or writes a byte, calls a seam or
    adds to the log. *)
Theorem closed_is_final op st r st' :
  run_op op st = (r, st') →
  s_closed st'.1 = s_closed st.1 || negb (is_ok r) || closes op ∧
  (s_closed st'.1 = true →
     (∀ ops, run_ops ops st' = st') ∧
     (∀ payload budget, send_data payload budget st' = (Err PE_Closed, st')) ∧
     (∀ buffer budget, receive_data buffer budget st' = (Err PE_Closed, st')) ∧
     (∀ budget, close_gracefully budget st' = (Ok tt, st')) ∧
     (∀ budget, notify_revoked_and_close budget st' = (Ok tt, st'))).
Proof.
  intros Ho. destruct (run_op_effect _ _ _ _ Ho) as [_ Hclosed _ _]. split; [done|]. intros Hc.
  split; [intros; by apply run_ops_closed|].
  split_and!; intros; unfold send_data, receive_data, close_gracefully, notify_revoked_and_close,
    guarded_operation, closing_operation; by rewrite Hc.
Qed.

(** ** Payloads move under a guard *)

Lemma fresh_history exp o l :
  path (dstep exp) D_Idle l (D_Fresh o) → ∃ l0 now, now < exp ∧
    l = l0 ++ match o with Some p => [Ev_RecvRecord (PA_Data p)] | None => [] end
           ++ [Ev_Guard true; Ev_Clock (Ok now)].
Proof.
  intros [[_ [=]]|(l0 & e & m & -> & Hp & Hs)]%path_last. inversion Hs as [| | | |o' now Hnow| | | | | | | | |]; subst.
  apply path_last in Hp as [[_ [=]]|(l1 & e & m & -> & Hp & Hs1)].
  inversion Hs1; subst.
  - exists l1, now. split; [done|]. by rewrite <-(assoc_L (++)).
  - apply path_last in Hp as [[_ [=]]|(l2 & e & m & -> & Hp & Hs2)]. inversion Hs2; subst.
    exists l2, now. split; [done|]. by rewrite <-!(assoc_L (++)).
Qed.

Lemma used_drops exp l ph : path (dstep exp) D_Used l ph → waiting ph → ∃ l', l = Ev_Drop :: l'.
Proof.
  intros Hp [->|[p ->]]; inversion Hp as [|? ? ? ? ? Hs]; subst; inversion Hs; subst; eauto.
Qed.

(** C12: payloads move only under authority. In everything any sequence of
    operations does, a [DATA] record handed to the stream comes right after a
    forwarding guard the admission registry granted and a reading of the clock
    that is before the session's expiry; a payload copied to the caller comes
    right after its record was received, a granted guard and such a reading.
    In both cases the guard is dropped next: one guard moves one payload. *)
Theorem payloads_move_under_guard ops st :
  ∃ l, c_log (run_ops ops st).2 = c_log st.2 ++ l ∧
    (∀ l1 l2 payload, l = l1 ++ Ev_SendRecord (PA_Data payload) :: l2 →
       ∃ l0 now l3, l1 = l0 ++ [Ev_Guard true; Ev_Clock (Ok now)] ∧
         now < s_expires_at st.1 ∧ l2 = Ev_Drop :: l3) ∧
    (∀ l1 l2 payload, l = l1 ++ Ev_Deliver payload :: l2 →
       ∃ l0 now l3, l1 = l0 ++ [Ev_RecvRecord (PA_Data payload); Ev_Guard true; Ev_Clock (Ok now)] ∧
         now < s_expires_at st.1 ∧ l2 = Ev_Drop :: l3).
Proof.
  destruct (run_ops_path ops st) as (l & ph & Hl & Hp & Hw). exists l. split_and!; [done| |];
    intros l1 l2 payload ->; destruct (path_mid _ _ _ _ _ _ Hp) as (m & m' & Hm & Hs & Hq).
  - inversion Hs as [| | | | | | | | | | | | |? Hnd]; subst; [|by destruct (Hnd payload)].
    apply fresh_history in Hm as (l0 & now & ? & ->). destruct (used_drops _ _ _ Hq Hw) as [l3 ->]. eauto 10.
  - inversion Hs; subst. apply fresh_history in Hm as (l0 & now & ? & ->).
    destruct (used_drops _ _ _ Hq Hw) as [l3 ->]. eauto 10.
Qed.
End sequences.

(** ** Receiving reads few records *)

Section receive_bound.
Context `{!CborCrate, !SessionCrypto, !Snow, !Seams} (buffer : bytes) (budget : Z).

Abbreviation rx st := (sr_rx (s_rekey st.1)).

Lemma read_record_rekey st r st' :
  read_record budget st = (r, st') → s_rekey st'.1 = s_rekey st.1.
Proof.
  unfold read_record, start_operation, session, update, conn, ask, lift, mbind, ST_bind, st_map_err.
  destruct st as [s c]. cbn. destruct (instant_now _) as [now x]. cbn.
  destruct (ok_or _ _); cbn; [|by intros [= <- <-]].
  destruct (read_step _ _) as [[ct|e] c1]; cbn; [|by intros [= <- <-]].
  destruct (ok_or _ _) as [[pt tr]|]; cbn; [|by intros [= <- <-]].
  destruct (decode_post_active_record pt); cbn; by intros [= <- <-].
Qed.

Lemma commit_incoming_Ok g st u st' :
  rekey_wf (rx st) → commit_incoming_rekey g st = (Ok u, st') → rekey_next (Marker g) (rx st) (rx st').
Proof.
  intros Hwf. unfold commit_incoming_rekey, session, set_rx, update, lift, mbind, ST_bind.
  destruct (map_err _ _) as [d|e] eqn:Em; cbn; [|done]. intros [= <- <-].
  apply map_err_Ok in Em. exact (proj1 (on_receive_Ok _ _ _ Hwf) Em).
Qed.

Lemma receive_loop_two st :
  rekey_wf (rx st) → 2 ≤ rt_value (dr_threshold (rx st)) → receive_loop 2 buffer budget st ≠ None.
Proof.
  intros Hwf Ht E2. cbn [receive_loop] in E2.
  destruct (read_record budget st) as [[[| | |g]|] st1] eqn:E1; try done.
  apply read_record_rekey in E1. rewrite <-E1 in Hwf, Ht.
  destruct (commit_incoming_rekey g st1) as [[[]|] st2] eqn:Ec; [|done].
  pose proof (commit_incoming_Ok _ _ _ _ Hwf Ec) as Hn.
  destruct (rekey_next_wf _ _ _ Hwf Hn) as (Hwf2 & _ & _ & Ht2). cbn in Hn. destruct Hn as (_ & _ & _ & Hd).
  destruct (read_record budget st2) as [[[| | |g']|] st3] eqn:E3; try done.
  apply read_record_rekey in E3. rewrite <-E3 in Hwf2, Ht2, Hd.
  destruct (commit_incoming_rekey g' st3) as [[[]|] st4] eqn:Ec'; [|done].
  pose proof (commit_incoming_Ok _ _ _ _ Hwf2 Ec') as [Hc _].
  rewrite Ht2, Hd in Hc. cbn in Hc. lia.
Qed.

(** C35: receiving ends. Every round of the receive loop takes a whole record
    off the stream, so the loop returns whatever the stream holds, and more
    fuel changes nothing; and when the threshold is two or more it reads at
    most two records, since a marker may not follow a marker. *)
Theorem receive_ends st :
  (∃ r st', receive_data_inner buffer budget st = (r, st') ∧
     ∀ fuel, (length (c_in st.2) < fuel)%nat → receive_loop fuel buffer budget st = Some (r, st')) ∧
  (rekey_wf (rx st) → 2 ≤ rt_value (dr_threshold (rx st)) →
     receive_loop 2 buffer budget st = Some (receive_data_inner buffer budget st)).
Proof.
  destruct (receive_data_inner buffer budget st) as [r st'] eqn:Hr.
  pose proof (receive_data_inner_loop _ _ _ _ _ Hr) as Hl. split.
  - exists r, st'. split; [done|]. intros fuel Hlt. eapply receive_loop_mono; [|exact Hl]. lia.
  - intros Hwf Ht. destruct (receive_loop 2 buffer budget st) as [x|] eqn:E2.
    + destruct (decide (2 ≤ S (length (c_in st.2)))%nat) as [Hle|Hn].
      * rewrite <-Hl. symmetry. by eapply receive_loop_mono.
      * rewrite <-E2. eapply receive_loop_mono; [|exact Hl]. lia.
    + by destruct (receive_loop_two st Hwf Ht).
Qed.
End receive_bound.
