(* ===== verification/SessionLink.v ===== *)
(** * Two sessions, end to end

    A sender and a receiver whose transports and rekey counters are in step:
    what the one sends the other receives, across any number of rekeys. And the
    one threshold under which a session carries nothing. *)

From stdpp Require Import base gmap sets list strings.
From Stdlib Require Import ZArith Lia Ascii.
From S2P Require Import Prelude.
From S2P Require Import Rekey.
From S2P Require Import Cbor.
From S2P Require Import CborProofs.
From S2P Require Import CborSample.
From S2P Require Import Wire.
From S2P Require Import Ingress.
From S2P Require Import Crypto.
From S2P Require Import SessionErrors.
From S2P Require Import PostActive.
From S2P Require Import AuthFrames.
From S2P Require Import Intent.
From S2P Require Import Seams.
From S2P Require Import Handshake.
From S2P Require Import SessionSamples.
From S2P Require Import Session.
From S2P Require Import SessionProofs.

Open Scope Z_scope.

(** What is relied on of [snow]'s transports: [linked t u] says that the
    sending half of [t] and the receiving half of [u] hold the same key and
    nonce. What the one encrypts the other decrypts, and rekeying both halves
    keeps them together. *)
Class SnowLaws `{!Snow} := {
  linked : TransportState → TransportState → Prop;
  linked_read : ∀ t u p ct t', linked t u → ts_write_message t p = Some (ct, t') →
    ∃ u', ts_read_message u ct = Some (p, u') ∧ linked t' u';
  linked_rekey : ∀ t u, linked t u → linked (rekey_outgoing t) (rekey_incoming u);
}.

(** Equal counters and thresholds; the ids differ. *)
Definition in_step (d e : DirectionalRekeyState) : Prop :=
  dr_generation d = dr_generation e ∧ dr_policy_count d = dr_policy_count e ∧
  dr_threshold d = dr_threshold e.

Lemma in_step_next record d d' e :
  in_step d e → rekey_next record d d' → ∃ e', rekey_next record e e' ∧ in_step d' e'.
Proof.
  intros (Hg & Hc & Ht). destruct record as [|g]; cbn.
  - intros [? ->]. eexists. rewrite <-Hc, <-Ht. split; [done|]. unfold in_step. cbn. by rewrite Hg, Ht.
  - intros (? & ? & ? & ->). eexists. rewrite <-Hc, <-Ht, <-Hg. split; [done|]. by unfold in_step.
Qed.

(** How a record counts. *)
Definition counts_as (r : PostActiveRecord) : IncomingRecord :=
  match r with PA_Rekey g => Marker g | _ => NonMarker end.

Definition record_frame (ct : bytes) : bytes := to_be_bytes 4 (Z.of_nat (length ct)) ++ ct.

Section sender.
Context `{!CborCrate, !SessionCrypto, !Snow, !Seams}.

Abbreviation tx st := (sr_tx (s_rekey st.1)).

(** One record leaves: the frame on the wire, the keys and counters after. *)
Definition emits (st : SC) (record : PostActiveRecord) (ct : bytes) (st' : SC) : Prop :=
  ∃ p t, encode_record record = Ok p ∧ ts_write_message (s_transport st.1) p = Some (ct, t) ∧
    Z.of_nat (length ct) ≤ MAX_NOISE_RECORD_LEN ∧
    s_transport st'.1 = match record with PA_Rekey _ => rekey_outgoing t | _ => t end ∧
    rekey_next (counts_as record) (tx st) (tx st') ∧ c_out st'.2 = c_out st.2 ++ record_frame ct.

Lemma write_record_Ok record p st u st' :
  write_record record p st = (Ok u, st') →
  ∃ ct t, ts_write_message (s_transport st.1) p = Some (ct, t) ∧
    Z.of_nat (length ct) ≤ MAX_NOISE_RECORD_LEN ∧ st'.1 = with_transport t st.1 ∧
    c_out st'.2 = c_out st.2 ++ record_frame ct.
Proof.
  unfold write_record, session, update, conn, log_event, lift, mbind, ST_bind, st_map_err, write_step. cbn.
  destruct (ts_write_message _ p) as [[ct t]|]; [|done]. cbn.
  destruct (write_frame_exact ct MAX_NOISE_RECORD_LEN (c_ios st.2)) as (r & out & ios & Hw & _ & Hok & Hover);
    [done|]. fold (write_transport_record ct (c_ios st.2)) in Hw. rewrite Hw. cbn.
  destruct r as [[]|]; [|done]. intros [= <- <-]. exists ct, t. cbn. rewrite (Hok eq_refl).
  split_and!; [done| |done..]. destruct (decide (Z.of_nat (length ct) ≤ MAX_NOISE_RECORD_LEN)); [done|].
  destruct Hover as (_ & d & [=]). lia.
Qed.

Lemma commit_non_marker_Ok permit st u st' :
  rekey_wf (tx st) → before_send_non_marker (tx st) = Ok permit → commit_non_marker permit st = (Ok u, st') →
  rekey_next NonMarker (tx st) (tx st') ∧ s_transport st'.1 = s_transport st.1 ∧ st'.2 = st.2.
Proof.
  intros Hwf Hp. unfold commit_non_marker, session, set_tx, update, lift, mbind, ST_bind.
  destruct (after_send_non_marker permit (tx st)) as [d|] eqn:Ha; [|done]. intros [= <- <-].
  split; [|done]. apply (proj1 (send_record_Ok NonMarker (tx st) d Hwf)). cbn. by rewrite Hp.
Qed.

Lemma start_Ok budget st d st' :
  start_operation budget st = (Ok d, st') → st'.1 = st.1 ∧ c_out st'.2 = c_out st.2.
Proof. intros (? & _ & ? & _)%start_operation_conn. done. Qed.

Lemma commit_outgoing_Ok permit st u st' :
  commit_outgoing_rekey permit st = (Ok u, st') →
  after_send_marker permit (tx st) = Ok (tx st') ∧
  s_transport st'.1 = rekey_outgoing (s_transport st.1) ∧ st'.2 = st.2.
Proof.
  unfold commit_outgoing_rekey, session, set_tx, update, lift, mbind, ST_bind.
  destruct (validate_marker_permit permit (tx st)) as [[]|] eqn:Hv; [|done]. cbn.
  unfold after_send_marker. rewrite Hv. cbn. by intros [= <- <-].
Qed.

Lemma send_marker_Ok budget st u st' :
  rekey_wf (tx st) → send_outgoing_rekey_marker budget st = (Ok u, st') →
  ∃ g ct, in_u64 g ∧ emits st (PA_Rekey g) ct st'.
Proof.
  intros Hwf. unfold send_outgoing_rekey_marker. intros Hr.
  apply st_bind_Ok in Hr as (s0 & st0 & [= <- <-] & Hr).
  apply st_bind_Ok in Hr as (permit & st0 & [Hp%map_err_Ok ->]%lift_Ok & Hr).
  apply st_bind_Ok in Hr as (d & st1 & [Hst1e Ho1]%start_Ok & Hr).
  apply st_bind_Ok in Hr as (p & st2 & [Henc ->]%lift_Ok & Hr).
  apply st_bind_Ok in Hr as ([] & st3 & (ct & t & Hw & Hlen & Hs3 & Ho3)%write_record_Ok & Hr).
  apply commit_outgoing_Ok in Hr as (Ha & Ht & Hc). set (g := mk_next_generation permit) in *.
  assert (rekey_next (Marker g) (tx st) (tx st')) as Hn.
  { apply (proj1 (send_record_Ok _ _ _ Hwf)). cbn. rewrite Hp. cbn. fold g. rewrite Z.eqb_refl. cbn.
    rewrite Hs3, Hst1e in Ha. done. }
  exists g, ct. split.
  - destruct Hn as (_ & -> & ? & _). destruct (rk_generation _ Hwf). split; lia.
  - rewrite Hst1e in *. exists p, t. rewrite Ht, Hc, Hs3, Ho3, Ho1. done.
Qed.

(** A permit, after a marker if one was due. *)
Lemma permit_Ok budget st permit st' :
  rekey_wf (tx st) → permit_after_marker budget st = (Ok permit, st') →
  before_send_non_marker (tx st') = Ok permit ∧
  (st' = st ∨ ∃ g ct, in_u64 g ∧ emits st (PA_Rekey g) ct st').
Proof.
  intros Hwf. unfold permit_after_marker. intros Hr. apply st_bind_Ok in Hr as (first & st0 & [= <- <-] & Hr).
  destruct (before_send_non_marker (tx st)) as [q|e] eqn:Hb; [injection Hr as <- <-; auto|].
  destruct e; try done. apply st_bind_Ok in Hr as ([] & st1 & Hm%send_marker_Ok & Hr); [|done].
  apply st_bind_Ok in Hr as (second & st2 & [= <- <-] & [Hs%map_err_Ok ->]%lift_Ok). auto.
Qed.

Lemma with_guard_Ok {A} (body : ST SC PostActiveError A) st a st' :
  with_guard body st = (Ok a, st') →
  ∃ c1 s2 c2, c_out c1 = c_out st.2 ∧ body (st.1, c1) = (Ok a, (s2, c2)) ∧ st'.1 = s2 ∧ c_out st'.2 = c_out c2.
Proof.
  unfold with_guard, session, conn, ask, log_event, lift, mbind, ST_bind, drop_after. cbn.
  destruct (try_authorize _ _) as [[|] x]; cbn; [|done].
  destruct (body _) as [r [s2 c2]] eqn:Eb. intros [= -> <-]. eexists _, _, _.
  split_and!; [|exact Eb|done|done]. done.
Qed.

(** What a successful send put on the wire: the payload's record, after a
    marker's if one was due. *)
Lemma send_data_Ok payload budget st u st' :
  rekey_wf (tx st) → send_data payload budget st = (Ok u, st') →
  ∃ st1 ct, (st1 = st ∨ ∃ g ct1, in_u64 g ∧ emits st (PA_Rekey g) ct1 st1) ∧
    emits st1 (PA_Data payload) ct st'.
Proof.
  intros Hwf. unfold send_data, guarded_operation. destruct (s_closed st.1); [done|].
  destruct (send_data_inner payload budget st) as [[[]|] [s c]] eqn:Hr; [|done]. intros [= <- <-].
  unfold send_data_inner in Hr.
  apply st_bind_Ok in Hr as (permit & st1 & (Hb & Hst1)%permit_Ok & Hr); [|done].
  apply st_bind_Ok in Hr as ([] & st2 & (c1 & s2 & c2 & Ho1 & Hbody & Hs2 & Ho2)%with_guard_Ok & Hr).
  apply st_bind_Ok in Hbody as ([] & st3 & Hck & Hbody).
  assert (st3.1 = st1.1 ∧ c_out st3.2 = c_out c1) as [Hst3 Ho3].
  { unfold check_not_expired, conn, logged, session, lift, mbind, ST_bind, st_map_err in Hck. cbn in Hck.
    destruct (clock_now _) as [[now|] x]; [|done]. cbn in Hck. by injection Hck as _ <-. }
  apply st_bind_Ok in Hbody as (d & st4 & [Hst4 Ho4]%start_Ok & Hbody).
  apply st_bind_Ok in Hbody as (p & st5 & [Henc ->]%lift_Ok & Hbody).
  apply write_record_Ok in Hbody as (ct & t & Hw & Hlen & Hst5 & Ho5). cbn in Hst5, Ho5.
  assert (tx st2 = tx st1) as Htx by (by rewrite Hs2, Hst5, Hst4, Hst3).
  rewrite <-Htx in Hb. apply commit_non_marker_Ok in Hr as (Hn & Ht & Hc); [|..|done].
  2:{ rewrite Htx. destruct Hst1 as [->|(g & ct1 & _ & _ & _ & _ & _ & _ & _ & Hn & _)]; [done|].
      by eapply rekey_next_wf. }
  exists st1, ct. split; [done|]. exists p, t. rewrite Hst4, Hst3 in Hw.
  rewrite Htx in Hn. split_and!; [done..| |done|].
  - by rewrite Ht, Hs2, Hst5.
  - rewrite Hc, Ho2, Ho5, Ho4, Ho3, Ho1. done.
Qed.
End sender.

(** ** The receiver *)

Lemma st_bind_run {S E A B} (m : ST S E A) (f : A → ST S E B) s a s' :
  m s = (Ok a, s') → (m ≫= f) s = f a s'.
Proof. intros Hm. unfold mbind, ST_bind. by rewrite Hm. Qed.

Section receiver.
Context `{!CborCrate, !SessionCrypto, !Snow, !Seams}.

Abbreviation rx st := (sr_rx (s_rekey st.1)).

(** States of the outside in which the registry admits the session and the
    clock is before its expiry, and which receiving does not leave. *)
Record admits (gate : Active) (expires_at : Z) (good : X → Prop) : Prop := {
  ad_instant : ∀ x, good x → good (instant_now x).2;
  ad_granted : ∀ x, good x → (try_authorize gate x).1 = true ∧ good (try_authorize gate x).2;
  ad_in_time : ∀ x, good x → ∃ now x', clock_now x = (Ok now, x') ∧ now < expires_at ∧ good x';
  ad_drop : ∀ x, good x → good (drop_guard gate x);
}.

(** An open receiver in such a state, on a stream without faults. *)
Record ready (good : X → Prop) (st : SC) : Prop := {
  rd_open : s_closed st.1 = false;
  rd_admitted : admits (s_gate st.1) (s_expires_at st.1) good;
  rd_good : good (c_ext st.2);
  rd_clean : clean_schedule (c_ios st.2);
  rd_wf : rekey_wf (rx st);
}.

Lemma ready_same good st st' :
  ready good st → good (c_ext st'.2) → s_closed st'.1 = s_closed st.1 → s_gate st'.1 = s_gate st.1 →
  s_expires_at st'.1 = s_expires_at st.1 → clean_schedule (c_ios st'.2) → rekey_wf (rx st') → ready good st'.
Proof. intros [] Hgd Hc Hg He Hcl Hwf. split; rewrite ?Hc, ?Hg, ?He; done. Qed.

Lemma read_record_reads good budget st ct rest p u record :
  ready good st → budget ≠ 0 → c_in st.2 = record_frame ct ++ rest →
  Z.of_nat (length ct) ≤ MAX_NOISE_RECORD_LEN → ts_read_message (s_transport st.1) ct = Some (p, u) →
  decode_post_active_record p = Ok record →
  ∃ c', read_record budget st = (Ok record, (with_transport u st.1, c')) ∧ c_in c' = rest ∧
    clean_schedule (c_ios c') ∧ good (c_ext c').
Proof.
  intros Hrd Hb Hin Hlen Hts Hdec. destruct st as [s c]. cbn [fst snd] in *.
  destruct (read_record_clean ct (c_ios c) rest Hlen (rd_clean _ _ Hrd)) as (ios & Hr & Hcl).
  assert (∃ d x, start_operation budget (s, c) = (Ok d, (s, with_ext x c)) ∧ good x) as (d & x & Hd & Hx).
  { pose proof (ad_instant _ _ _ (rd_admitted _ _ Hrd) _ (rd_good _ _ Hrd)) as Hgx. cbn in Hgx. unfold start_operation, conn, ask, mbind, ST_bind, lift, operation_deadline_new. cbn.
    destruct (instant_now (c_ext c)) as [now x]. cbn. rewrite (proj2 (Z.eqb_neq _ _) Hb). cbn. eauto. }
  unfold read_record. rewrite (st_bind_run _ _ _ _ _ Hd).
  erewrite st_bind_run; [|unfold conn, read_step, st_map_err; cbn [fst snd with_ext c_ios c_in];
    rewrite Hin; unfold record_frame; rewrite Hr; reflexivity].
  unfold session, update, conn, log_event, lift, mbind, ST_bind. cbn. rewrite Hts. cbn. rewrite Hdec. cbn. eauto 10.
Qed.

Lemma commit_incoming_commits g st e :
  on_receive (Marker g) (rx st) = Ok e →
  commit_incoming_rekey g st =
    (Ok tt, (with_transport (rekey_incoming (s_transport st.1))
               (with_rekey (MkSessionRekey (sr_tx (s_rekey st.1)) e) st.1), st.2)).
Proof.
  intros He. unfold commit_incoming_rekey, session, set_rx, update, lift, mbind, ST_bind. by rewrite He.
Qed.

Lemma deliver_delivers good payload buffer st e :
  ready good st → on_receive NonMarker (rx st) = Ok e → (length payload ≤ length buffer)%nat →
  ∃ c', deliver payload buffer st =
      (Ok (length payload, payload ++ drop (length payload) buffer),
       (with_rekey (MkSessionRekey (sr_tx (s_rekey st.1)) e) st.1, c')) ∧
    c_in c' = c_in st.2 ∧ c_ios c' = c_ios st.2 ∧ good (c_ext c').
Proof.
  intros Hrd He Hlen. destruct st as [s c]. cbn in *.
  unfold deliver. rewrite (proj2 (Nat.ltb_ge _ _) Hlen). cbn [reject_if].
  unfold observe_incoming_non_marker, with_guard, drop_after, check_not_expired, session, set_rx,
    update, conn, ask, logged, log_event, lift, mbind, ST_bind, st_map_err. cbn. rewrite He. cbn.
  destruct Hrd as [_ Had Hx _ _]. cbn in Had, Hx. destruct (ad_granted _ _ _ Had _ Hx) as [Hg Hx1].
  destruct (try_authorize (s_gate s) (c_ext c)) as [granted x]. cbn in Hg, Hx1. subst granted. cbn.
  destruct (ad_in_time _ _ _ Had _ Hx1) as (now & x' & Hck & Hlt & Hx2). rewrite Hck. cbn.
  rewrite (proj2 (Z.leb_gt _ _)) by lia. cbn. pose proof (ad_drop _ _ _ Had _ Hx2). eauto 10.
Qed.
End receiver.

(** ** Sender and receiver together *)

Section streams.
Context `{!CborCrate, !SessionCrypto, !Snow, !Seams}.

(** A caller that sends payloads, and one that receives into one buffer. *)
Fixpoint send_all (payloads : list bytes) (budget : Z) : ST SC PostActiveError unit :=
  match payloads with
  | [] => mret tt
  | payload :: payloads => send_data payload budget;; send_all payloads budget
  end.

Fixpoint receive_all (n : nat) (buffer : bytes) (budget : Z) : ST SC PostActiveError (list bytes) :=
  match n with
  | O => mret []
  | S n =>
      '(len, buffer) ← receive_data buffer budget;
      payloads ← receive_all n buffer budget;
      mret (take len buffer :: payloads)
  end.
End streams.

Section linked_sessions.
Context `{!CborCrate, !CborLaws, !SessionCrypto, !Snow, !SnowLaws} {SA SB : Seams} (good : @X _ SB → Prop).
Implicit Types (A : @SC _ _ SA) (B : @SC _ _ SB).

Definition synced A B : Prop :=
  linked (s_transport A.1) (s_transport B.1) ∧ in_step (sr_tx (s_rekey A.1)) (sr_rx (s_rekey B.1)).

(** What the sender emits, the receiver reads and counts alike. *)
Lemma absorbs A record ct A' B budget rest :
  synced A B → ready good B → budget ≠ 0 → (∀ g, record = PA_Rekey g → in_u64 g) →
  emits A record ct A' → c_in B.2 = record_frame ct ++ rest →
  ∃ u c' e, read_record budget B = (Ok record, (with_transport u B.1, c')) ∧ c_in c' = rest ∧
    clean_schedule (c_ios c') ∧ good (c_ext c') ∧ on_receive (counts_as record) (sr_rx (s_rekey B.1)) = Ok e ∧
    in_step (sr_tx (s_rekey A'.1)) e ∧ rekey_wf e ∧
    linked (s_transport A'.1) match record with PA_Rekey _ => rekey_incoming u | _ => u end.
Proof.
  intros [Hl Hst] Hrd Hb Hg (p & t & Henc & Hw & Hlen & Ht & Hn & _) Hin.
  destruct (linked_read _ _ _ _ _ Hl Hw) as (u & Hr & Hl').
  destruct (read_record_reads good budget B ct rest p u record Hrd Hb Hin Hlen Hr) as (c' & Hread & Hin' & Hcl & Hgd);
    [by apply encode_record_decodes|].
  destruct (in_step_next _ _ _ _ Hst Hn) as (e & Hne & Hst').
  destruct (rekey_next_wf _ _ _ (rd_wf _ _ Hrd) Hne) as [Hwf _].
  exists u, c', e. split_and!; [done..| |done|done|].
  - by apply on_receive_Ok; [apply Hrd|].
  - rewrite Ht. destruct record; [done..|by apply linked_rekey].
Qed.

Lemma receive_payload A payload ct A' B fuel buffer budget rest :
  synced A B → ready good B → budget ≠ 0 → (length payload ≤ length buffer)%nat →
  emits A (PA_Data payload) ct A' → c_in B.2 = record_frame ct ++ rest →
  ∃ B', receive_loop (S fuel) buffer budget B
          = Some (Ok (length payload, payload ++ drop (length payload) buffer), B') ∧
    synced A' B' ∧ ready good B' ∧ c_in B'.2 = rest.
Proof.
  intros Hs Hrd Hb Hlen Hem Hin.
  destruct (absorbs A (PA_Data payload) _ _ _ budget _ Hs Hrd Hb ltac:(done) Hem Hin)
    as (u & c' & e & Hread & Hin' & Hcl & Hgd & He & Hst & Hwf & Hl).
  assert (ready good (with_transport u B.1, c')) as Hrd1 by (apply (ready_same _ B); try done; apply Hrd).
  destruct (deliver_delivers good payload buffer _ e Hrd1 He Hlen) as (c2 & Hd & Hin2 & Hio2 & Hgd2).
  cbn [receive_loop]. rewrite Hread, Hd. eexists. split; [done|]. split_and!.
  - by split.
  - apply (ready_same _ _ _ Hrd1); try done. cbn. by rewrite Hio2.
  - cbn. by rewrite Hin2.
Qed.

Lemma receive_marker A g ct A' B fuel buffer budget rest :
  synced A B → ready good B → budget ≠ 0 → in_u64 g →
  emits A (PA_Rekey g) ct A' → c_in B.2 = record_frame ct ++ rest →
  ∃ B', receive_loop (S fuel) buffer budget B = receive_loop fuel buffer budget B' ∧
    synced A' B' ∧ ready good B' ∧ c_in B'.2 = rest.
Proof.
  intros Hs Hrd Hb Hg Hem Hin.
  destruct (absorbs A (PA_Rekey g) _ _ _ budget _ Hs Hrd Hb ltac:(by intros ? [= <-]) Hem Hin)
    as (u & c' & e & Hread & Hin' & Hcl & Hgd & He & Hst & Hwf & Hl).
  pose proof (commit_incoming_commits g (with_transport u B.1, c') e He) as Hc.
  cbn [receive_loop]. rewrite Hread, Hc. eexists. split; [done|]. split_and!; [by split| |done].
  by apply (ready_same _ _ _ Hrd).
Qed.

Lemma receive_data_loop B fuel buffer budget r B' :
  s_closed B.1 = false → receive_loop fuel buffer budget B = Some (Ok r, B') →
  receive_data buffer budget B = (Ok r, B').
Proof.
  intros Ho Hf. unfold receive_data, guarded_operation. rewrite Ho.
  destruct (receive_data_inner buffer budget B) as [r0 B0] eqn:Hi.
  pose proof (receive_data_inner_loop _ _ _ _ _ Hi) as Hl.
  assert (Some (r0, B0) = Some (Ok r, B')) as [= -> ->]; [|done].
  rewrite <-Hl. destruct (decide (fuel ≤ S (length (c_in B.2)))%nat).
  - by eapply receive_loop_mono.
  - rewrite <-Hf. symmetry. rewrite Hl. eapply receive_loop_mono; [|exact Hl]. lia.
Qed.

(** What [out] does to a receiver in step with [A]. *)
Definition carries A A' (out payload : bytes) : Prop :=
  ∀ B buffer budget rest,
    synced A B → ready good B → budget ≠ 0 → (length payload ≤ length buffer)%nat → c_in B.2 = out ++ rest →
    ∃ B', receive_data buffer budget B
            = (Ok (length payload, payload ++ drop (length payload) buffer), B') ∧
      synced A' B' ∧ ready good B' ∧ c_in B'.2 = rest.

(** One payload, with the marker before it if there is one. *)
Lemma receive_sent A payload budgetA u A' :
  rekey_wf (sr_tx (s_rekey A.1)) → send_data payload budgetA A = (Ok u, A') →
  rekey_wf (sr_tx (s_rekey A'.1)) ∧ ∃ out, c_out A'.2 = c_out A.2 ++ out ∧ carries A A' out payload.
Proof.
  intros HwfA Hsend. destruct (send_data_Ok _ _ _ _ _ HwfA Hsend) as (A1 & ct & Hfirst & Hem).
  pose proof Hem as (_ & _ & _ & _ & _ & _ & Hn & Ho).
  destruct Hfirst as [->|(g & ct1 & Hg & Hem1)].
  - split; [by eapply rekey_next_wf|]. exists (record_frame ct). split; [done|].
    intros B buffer budget rest Hs Hrd Hb Hlen Hin.
    destruct (receive_payload _ _ _ _ _ 0 _ _ _ Hs Hrd Hb Hlen Hem Hin) as (B' & Hr & Hrest).
    exists B'. split; [|done]. eapply receive_data_loop; [apply Hrd|done].
  - pose proof Hem1 as (_ & _ & _ & _ & _ & _ & Hn1 & Ho1).
    split; [eapply rekey_next_wf; [|exact Hn]; by eapply rekey_next_wf|].
    exists (record_frame ct1 ++ record_frame ct). split; [by rewrite Ho, Ho1, (assoc_L (++))|].
    intros B buffer budget rest Hs Hrd Hb Hlen Hin. rewrite <-(assoc_L (++)) in Hin.
    destruct (receive_marker _ _ _ _ _ 1 buffer _ _ Hs Hrd Hb Hg Hem1 Hin) as (B1 & Hr1 & Hs1 & Hrd1 & Hin1).
    destruct (receive_payload _ _ _ _ _ 0 _ _ _ Hs1 Hrd1 Hb Hlen Hem Hin1) as (B' & Hr & Hrest).
    exists B'. split; [|done]. eapply receive_data_loop; [apply Hrd|by rewrite Hr1].
Qed.
(** C13: what is sent arrives. For a sender and a receiver whose keys and
    counters are in step, the bytes a sequence of successful sends puts on the
    wire, however the sender's stream split or delayed them and however many
    rekey markers fell due among them, are received as exactly those payloads
    in that order, one receive each; the two are in step again, and what
    follows on the wire is untouched. *)
Theorem sent_data_arrives payloads budgetA A u A' :
  rekey_wf (sr_tx (s_rekey A.1)) → send_all payloads budgetA A = (Ok u, A') →
  ∃ out, c_out A'.2 = c_out A.2 ++ out ∧
    ∀ B buffer budget rest,
      synced A B → ready good B → budget ≠ 0 → Forall (λ p, length p ≤ length buffer)%nat payloads →
      c_in B.2 = out ++ rest →
      ∃ B', receive_all (length payloads) buffer budget B = (Ok payloads, B') ∧
        synced A' B' ∧ ready good B' ∧ c_in B'.2 = rest.
Proof.
  revert A. induction payloads as [|p ps IH]; intros A Hwf Hsend; cbn [send_all] in Hsend.
  { injection Hsend as <- <-. exists []. rewrite app_nil_r. split; [done|].
    intros B buffer budget rest Hs Hrd _ _ Hin. by exists B. }
  apply st_bind_Ok in Hsend as ([] & A1 & Hone & Hsend).
  destruct (receive_sent _ _ _ _ _ Hwf Hone) as (Hwf1 & out1 & Ho1 & Hcar).
  destruct (IH A1 Hwf1 Hsend) as (out2 & Ho2 & Hrest).
  exists (out1 ++ out2). split; [by rewrite Ho2, Ho1, (assoc_L (++))|].
  intros B buffer budget rest Hs Hrd Hb [Hp Hps]%Forall_cons Hin. rewrite <-(assoc_L (++)) in Hin.
  destruct (Hcar B buffer budget _ Hs Hrd Hb Hp Hin) as (B1 & Hr1 & Hs1 & Hrd1 & Hin1).
  set (buf := p ++ drop (length p) buffer) in *.
  assert (length buf = length buffer) as Hlen by (unfold buf; rewrite length_app, length_drop; lia).
  destruct (Hrest B1 buf budget rest Hs1 Hrd1 Hb) as (B' & Hr' & ?); [by rewrite Hlen|done|].
  exists B'. split; [|done]. cbn [receive_all length]. rewrite (st_bind_run _ _ _ _ _ Hr1). cbn beta iota.
  rewrite (st_bind_run _ _ _ _ _ Hr'). unfold buf. by rewrite take_app_length.
Qed.
End linked_sessions.

(** ** A threshold of one *)

Section threshold_one.
Context `{!CborCrate, !SessionCrypto, !Snow, !Seams}.

Definition every_record_a_marker (d : DirectionalRekeyState) : Prop :=
  rekey_wf d ∧ rt_value (dr_threshold d) = 1.

Lemma one_no_data d d' : every_record_a_marker d → ¬ rekey_next NonMarker d d'.
Proof. intros [[_ _ Hc] Ht] [Hlt _]. lia. Qed.

Lemma one_next record d d' : every_record_a_marker d → rekey_next record d d' → every_record_a_marker d'.
Proof.
  intros [Hwf Ht] Hn. destruct (rekey_next_wf _ _ _ Hwf Hn) as (? & _ & _ & Heq). by split; [|rewrite Heq].
Qed.

Lemma one_no_permit budget st permit st' :
  every_record_a_marker (sr_tx (s_rekey st.1)) → permit_after_marker budget st ≠ (Ok permit, st').
Proof.
  intros H1d Hp. destruct (permit_Ok _ _ _ _ (proj1 H1d) Hp) as [Hb Hst].
  assert (every_record_a_marker (sr_tx (s_rekey st'.1))) as H1d'.
  { destruct Hst as [->|(g & ct & _ & _ & _ & _ & _ & _ & _ & Hn & _)]; [done|by eapply one_next]. }
  destruct H1d' as [[_ _ Hc] Ht]. unfold before_send_non_marker, minus_one in Hb.
  rewrite (proj2 (Z.eqb_eq _ _)) in Hb by lia. done.
Qed.

Lemma one_no_delivery buffer budget fuel : ∀ st r st',
  every_record_a_marker (sr_rx (s_rekey st.1)) → receive_loop fuel buffer budget st ≠ Some (Ok r, st').
Proof.
  induction fuel as [|fuel IH]; intros st r st' H1d Hr; [done|]. cbn [receive_loop] in Hr.
  destruct (read_record budget st) as [r1 st1] eqn:E1. pose proof (read_record_rekey _ _ _ _ E1) as Hk.
  rewrite <-Hk in H1d.
  assert (∀ u st2, observe_incoming_non_marker st1 ≠ (Ok u, st2)) as Hno.
  { intros u st2. unfold observe_incoming_non_marker, session, set_rx, update, lift, mbind, ST_bind.
    destruct (map_err _ _) as [d|] eqn:Em; [|done]. apply map_err_Ok in Em.
    apply on_receive_Ok in Em; [by eapply one_no_data in Em|apply H1d]. }
  destruct r1 as [[payload| | |g]|e].
  - injection Hr as Hr. unfold deliver in Hr. apply st_bind_Ok in Hr as (u & st2 & Ho & _). by eapply Hno.
  - injection Hr as Hr. apply st_bind_Ok in Hr as (u & st2 & Ho & _). by eapply Hno.
  - injection Hr as Hr. apply st_bind_Ok in Hr as (u & st2 & Ho & _). by eapply Hno.
  - destruct (commit_incoming_rekey g st1) as [[[]|] st2] eqn:Ec; [|done].
    eapply IH; [|exact Hr]. eapply one_next; [exact H1d|]. eapply commit_incoming_Ok; [apply H1d|exact Ec].
  - done.
Qed.

(** A threshold of one is accepted and unusable. [RekeyThreshold::new]
    takes it, since it is not zero; but in a session with it every record is
    due to be a marker, also the record after a marker: no payload is ever
    sent or received, and not even a graceful close succeeds. *)
Theorem threshold_one_carries_nothing payload buffer budget st :
  every_record_a_marker (sr_tx (s_rekey st.1)) → every_record_a_marker (sr_rx (s_rekey st.1)) →
  s_closed st.1 = false →
  is_ok (threshold_new 1) = true ∧ is_ok (send_data payload budget st).1 = false ∧
  is_ok (receive_data buffer budget st).1 = false ∧ is_ok (close_gracefully budget st).1 = false.
Proof.
  intros Htx Hrx Ho. split; [done|]. unfold send_data, receive_data, close_gracefully,
    guarded_operation, closing_operation. rewrite Ho. split_and!.
  - destruct (send_data_inner payload budget st) as [[u|] [s c]] eqn:Hr; [|done].
    apply st_bind_Ok in Hr as (p & st1 & Hp & _). by eapply one_no_permit in Hp.
  - destruct (receive_data_inner buffer budget st) as [[r|] [s c]] eqn:Hr; [|done].
    apply receive_data_inner_loop in Hr. by eapply one_no_delivery in Hr.
  - match goal with |- is_ok (?run).1 = false => destruct run as [[u|] st1] eqn:Hr end; [|done].
    apply st_bind_Ok in Hr as (p & st2 & Hp & _). by eapply one_no_permit in Hp.
Qed.
End threshold_one.

(** ** At work *)

(** The toy transport: a half is its generation. *)
Definition toy_linked (t u : Z * Z) : Prop := t.1 = u.2.

#[export] Instance toy_snow_laws : @SnowLaws toy_snow.
Proof.
  refine (@Build_SnowLaws toy_snow toy_linked _ _); unfold toy_linked.
  - intros t u p ct t' Htu [= <- <-]. exists u. split; [|done].
    assert (length (toy_tag t.1) = 16%nat) as H16 by apply length_replicate.
    change ((let n := (length (p ++ toy_tag t.1) - 16)%nat in
      if bool_decide (16 ≤ length (p ++ toy_tag t.1))%nat && bool_decide (drop n (p ++ toy_tag t.1) = toy_tag u.2)
      then Some (take n (p ++ toy_tag t.1), u) else None) = Some (p, u)).
    rewrite length_app, H16, Nat.add_sub. cbn zeta.
    rewrite drop_app_length, take_app_length, Htu, !bool_decide_true; [done..|lia].
  - intros t u Htu. cbn in *. by rewrite Htu.
Defined.

Definition sample_direction (generation count threshold : Z) : DirectionalRekeyState :=
  MkDirectional (replicate 32 "d"%char) generation count (MkRekeyThreshold threshold).

(** Sessions one record before a marker is due. *)
Definition sample_session (S : Seams) (gate : @Active _ S) (threshold count : Z) : @ActiveMeshSession _ _ S :=
  MkActiveMeshSession ((4, 4) : @TransportState toy_snow)
    (MkSessionRekey (sample_direction 4 count threshold) (sample_direction 4 count threshold))
    "hh" "peer" (replicate 32 "f"%char) (MkIngressEvidence 100 800) (replicate 32 "h"%char) gate 700 false.

#[local] Existing Instance sample_cbor.

Definition sample_sender : @SC _ _ init_seams := (sample_session init_seams tt 3 1, init_conn []).
Definition sample_receiver (input : bytes) : @SC _ _ resp_seams :=
  (sample_session resp_seams tt 3 1, resp_conn input).
Definition sample_payloads : list bytes := [as_bytes "one"; as_bytes "two"; as_bytes "three"].
Definition sample_buffer : bytes := replicate 8 "."%char.

(** Three payloads, two markers. *)
Abbreviation sample_sends := (send_all sample_payloads 5 sample_sender).

Lemma sample_sends_ok : is_ok sample_sends.1 = true.
Proof. by vm_compute. Qed.

Definition sample_wire : bytes := Eval vm_compute in c_out (sample_sends.2).2.

Lemma sample_wire_ok : c_out (sample_sends.2).2 = sample_wire.
Proof. by vm_compute. Qed.

Lemma sample_direction_wf generation count threshold :
  nonzero_u64 threshold → in_u64 generation → 0 ≤ count < threshold →
  rekey_wf (sample_direction generation count threshold).
Proof. intros Ht Hg Hc. by split. Qed.

Lemma sent_data_arrives_witness :
  ∃ B', receive_all 3 sample_buffer 5 (sample_receiver (sample_wire ++ as_bytes "rest"))
          = (Ok sample_payloads, B') ∧ c_in B'.2 = as_bytes "rest".
Proof.
  pose proof sample_sends_ok as Hok. pose proof sample_wire_ok as Hwire.
  destruct sample_sends as [[u|e] A'] eqn:Hsend; [|discriminate Hok].
  destruct (@sent_data_arrives sample_cbor sample_cbor_laws toy_crypto toy_snow toy_snow_laws
    init_seams resp_seams (λ x : bool, x = true) sample_payloads 5 sample_sender u A') as (out & Hout & Hall);
    [apply sample_direction_wf; by split|exact Hsend|].
  destruct (Hall (sample_receiver (sample_wire ++ as_bytes "rest")) sample_buffer 5 (as_bytes "rest"))
    as (B' & Hr & _ & _ & Hin).
  - split; [reflexivity|]. by split_and!.
  - split; [reflexivity| |reflexivity|exact calm_clean|apply sample_direction_wf; by split].
    split; intros x Hx; [exact Hx|split; exact Hx| |exact Hx]. exists 100, x. by split_and!.
  - discriminate.
  - repeat constructor.
  - cbn in Hwire. cbn in Hout. rewrite Hwire in Hout. rewrite <-Hout. reflexivity.
  - exists B'. split; [exact Hr|exact Hin].
Defined.

Lemma threshold_one_carries_nothing_witness :
  is_ok (send_data (as_bytes "x") 5 (sample_session init_seams tt 1 0, init_conn [])).1 = false.
Proof.
  apply (threshold_one_carries_nothing (as_bytes "x") sample_buffer 5
    (sample_session init_seams tt 1 0, init_conn [])).
  - split; [apply sample_direction_wf; by split|reflexivity].
  - split; [apply sample_direction_wf; by split|reflexivity].
  - reflexivity.
Defined.

(** A receive that fails closes: here the stream holds nothing. *)
Lemma closed_is_final_witness :
  s_closed (run_op (Op_Receive sample_buffer 5) (sample_receiver [])).2.1 = true.
Proof.
  destruct (run_op (Op_Receive sample_buffer 5) (sample_receiver [])) as [r st'] eqn:Hr.
  destruct (closed_is_final _ _ _ _ Hr) as [Hc _].
  assert (is_ok r = false) as Hf.
  { transitivity (is_ok (run_op (Op_Receive sample_buffer 5) (sample_receiver [])).1);
      [by rewrite Hr|by vm_compute]. }
  cbn [snd]. rewrite Hc, Hf. reflexivity.
Defined.

(** The receiver reads a marker and the payload behind it in two rounds. *)
Lemma receive_ends_witness :
  receive_loop 2 sample_buffer 5 (sample_receiver sample_wire)
    = Some (receive_data_inner sample_buffer 5 (sample_receiver sample_wire)).
Proof.
  apply (receive_ends sample_buffer 5 (sample_receiver sample_wire)).
  - apply sample_direction_wf; by split.
  - discriminate.
Defined.

(** A sequence of operations, and where its payloads are in the log. *)
Example sample_operations :
  c_log (run_ops [Op_Send (as_bytes "one") 5; Op_Close 5; Op_Send (as_bytes "two") 5] sample_sender).2
  = [Ev_Guard true; Ev_Clock (Ok 100); Ev_SendRecord (PA_Data (as_bytes "one")); Ev_Drop;
     Ev_SendRecord (PA_Rekey 5); Ev_SendRecord PA_Close].
Proof. by vm_compute. Qed.
