(* ===== verification/RosterView.v ===== *)
(** * The roster snapshot and the bindings derived from it

    Models the projection end of [household-rs/src/machine_roster_authority.rs]:
    [RosterSnapshotView], the immutable view of one accepted roster checkpoint,
    and the three ways a [SealedBinding] (what the session registry admits) is
    obtained from one: for a responder the initiator expected, for a peer the
    transport authenticated, and for the membership key of a ceremony. *)

From stdpp Require Import base gmap sets list strings.
From Stdlib Require Import ZArith Lia Ascii.
From S2P Require Import Prelude.

Open Scope Z_scope.

(** [MachineId] and [HouseholdId] wrap a string, compared as such. *)
Abbreviation MachineId := string (only parsing).
Abbreviation HouseholdId := string (only parsing).

Record RosterMemberView := MkRosterMemberView {
  rm_m_id : MachineId;
  rm_m_pub : bytes;
  rm_machine_cert_fingerprint : bytes;
}.

Record RosterSnapshotView := MkRosterSnapshotView {
  rv_hh_id : HouseholdId;
  rv_checkpoint_hash : bytes;
  rv_checkpoint_sequence : Z;
  rv_checkpoint_event_head : bytes;
  rv_not_after : Z;
  rv_active : list RosterMemberView;
  rv_revoked_m_ids : list MachineId;
}.

Definition lookup_active (s : RosterSnapshotView) (m_id : MachineId) : option RosterMemberView :=
  snd <$> list_find (λ m, rm_m_id m = m_id) (rv_active s).

Definition is_revoked (s : RosterSnapshotView) (m_id : MachineId) : bool :=
  existsb (λ r, bool_decide (r = m_id)) (rv_revoked_m_ids s).

Definition active_m_ids (s : RosterSnapshotView) : list MachineId := rm_m_id <$> rv_active s.

Definition is_active (s : RosterSnapshotView) (m_id : MachineId) : bool :=
  is_some (lookup_active s m_id) && negb (is_revoked s m_id).

(** ** Bindings *)

Record SealedBinding := MkSealedBinding {
  sb_hh_id : HouseholdId;
  sb_m_id : MachineId;
  sb_machine_cert_fingerprint : bytes;
  sb_checkpoint_hash : bytes;
  sb_checkpoint_sequence : Z;
}.

Inductive PeerSelectionSource := LocalOwnerPresentSelection.

Record PeerExpectation := MkPeerExpectation {
  px_checkpoint_hash : bytes;
  px_m_id : MachineId;
  px_source : PeerSelectionSource;
}.

Record ExpectedResponder := MkExpectedResponder {
  er_hh_id : HouseholdId;
  er_m_id : MachineId;
  er_cert_fingerprint : bytes;
}.

Inductive ExpectedResponderError :=
| ER_ExpectationSnapshotMismatch
| ER_MachineRevoked
| ER_MachineNotActive.

Definition from_peer_expectation (expectation : PeerExpectation) (snapshot : RosterSnapshotView)
    : Result ExpectedResponderError ExpectedResponder :=
  reject_if (negb (bool_decide (px_checkpoint_hash expectation = rv_checkpoint_hash snapshot)))
    ER_ExpectationSnapshotMismatch;;
  reject_if (is_revoked snapshot (px_m_id expectation)) ER_MachineRevoked;;
  member ← ok_or (lookup_active snapshot (px_m_id expectation)) ER_MachineNotActive;
  Ok (MkExpectedResponder (rv_hh_id snapshot) (px_m_id expectation)
        (rm_machine_cert_fingerprint member)).

Definition from_expected_responder (responder : ExpectedResponder) (snapshot : RosterSnapshotView)
    : SealedBinding :=
  MkSealedBinding (er_hh_id responder) (er_m_id responder) (er_cert_fingerprint responder)
    (rv_checkpoint_hash snapshot) (rv_checkpoint_sequence snapshot).

Inductive RespondingPeerError := RP_MachineRevoked | RP_MachineNotActive.

(** [AuthenticatedPeerClaim] carries the machine the transport authenticated. *)
Record AuthenticatedPeerClaim := MkAuthenticatedPeerClaim { pc_m_id : MachineId }.

Definition from_responding_peer (claim : AuthenticatedPeerClaim) (snapshot : RosterSnapshotView)
    : Result RespondingPeerError SealedBinding :=
  reject_if (is_revoked snapshot (pc_m_id claim)) RP_MachineRevoked;;
  member ← ok_or (lookup_active snapshot (pc_m_id claim)) RP_MachineNotActive;
  Ok (MkSealedBinding (rv_hh_id snapshot) (pc_m_id claim) (rm_machine_cert_fingerprint member)
        (rv_checkpoint_hash snapshot) (rv_checkpoint_sequence snapshot)).

(** [MembershipKeyRejected] has no field: every rejection is the same value. *)
Inductive MembershipKeyRejected := MembershipKeyRejected_.

Definition validate_membership_fields (hh_id peer_m_id : string)
    (peer_cert_fingerprint checkpoint_hash : bytes) (checkpoint_sequence : Z)
    (snapshot : RosterSnapshotView) : Result MembershipKeyRejected SealedBinding :=
  reject_if (is_revoked snapshot peer_m_id) MembershipKeyRejected_;;
  member ← ok_or (lookup_active snapshot peer_m_id) MembershipKeyRejected_;
  let hh_id_matches := bool_decide (hh_id = rv_hh_id snapshot) in
  let fingerprint_matches :=
    bool_decide (peer_cert_fingerprint = rm_machine_cert_fingerprint member) in
  let checkpoint_hash_matches := bool_decide (checkpoint_hash = rv_checkpoint_hash snapshot) in
  let checkpoint_sequence_matches :=
    bool_decide (checkpoint_sequence = rv_checkpoint_sequence snapshot) in
  reject_if (negb (hh_id_matches && fingerprint_matches && checkpoint_hash_matches &&
                   checkpoint_sequence_matches)) MembershipKeyRejected_;;
  Ok (MkSealedBinding (rv_hh_id snapshot) peer_m_id (rm_machine_cert_fingerprint member)
        (rv_checkpoint_hash snapshot) (rv_checkpoint_sequence snapshot)).

(** ** What a binding says of the snapshot it came from *)

(** The machine is an unrevoked member of the snapshot, under the certificate
    and at the revision the binding names. *)
Record Bound (b : SealedBinding) (s : RosterSnapshotView) : Prop := {
  bd_hh_id : sb_hh_id b = rv_hh_id s;
  bd_hash : sb_checkpoint_hash b = rv_checkpoint_hash s;
  bd_sequence : sb_checkpoint_sequence b = rv_checkpoint_sequence s;
  bd_revoked : is_revoked s (sb_m_id b) = false;
  bd_member : rm_machine_cert_fingerprint <$> lookup_active s (sb_m_id b) =
              Some (sb_machine_cert_fingerprint b);
}.

Lemma lookup_active_member s m_id m :
  lookup_active s m_id = Some m → m ∈ rv_active s ∧ rm_m_id m = m_id.
Proof.
  unfold lookup_active. intros ([i x] & Hf & ->)%fmap_Some.
  apply list_find_Some in Hf as (Hi & Hx & _). cbn. by eauto using list_elem_of_lookup_2.
Qed.

Lemma is_revoked_spec s m_id : is_revoked s m_id = true ↔ m_id ∈ rv_revoked_m_ids s.
Proof.
  unfold is_revoked. rewrite existsb_exists. split.
  - intros (x & Hin & ->%bool_decide_eq_true). by apply list_elem_of_In.
  - intros Hin. exists m_id. by rewrite <-list_elem_of_In, bool_decide_eq_true.
Qed.

Lemma from_responding_peer_bound claim s b :
  from_responding_peer claim s = Ok b → Bound b s ∧ sb_m_id b = pc_m_id claim.
Proof.
  unfold from_responding_peer. intros H. res_inv. subst. cbn.
  split; [|done]. split; cbn; try done. match goal with Hl : lookup_active _ _ = _ |- _ => by rewrite Hl end.
Qed.

Lemma from_peer_expectation_bound e s r :
  from_peer_expectation e s = Ok r → Bound (from_expected_responder r s) s.
Proof.
  unfold from_peer_expectation. intros H. res_inv. subst. split; cbn; try done.
  match goal with Hl : lookup_active _ _ = _ |- _ => by rewrite Hl end.
Qed.

Lemma validate_membership_fields_Ok hh_id m_id fp hash seq s b :
  validate_membership_fields hh_id m_id fp hash seq s = Ok b ↔
  Bound b s ∧ b = MkSealedBinding hh_id m_id fp hash seq.
Proof.
  unfold validate_membership_fields. split.
  - intros H. res_inv. subst. split; [split|]; cbn; try done.
    match goal with Hl : lookup_active _ _ = _ |- _ => by rewrite Hl end.
  - intros [[Hh Hc Hs Hr Hm] ->]. cbn in *. subst. rewrite Hr. cbn.
    apply fmap_Some in Hm as (m & Hm & ->). rewrite Hm. cbn.
    rewrite !bool_decide_true by done. done.
Qed.
