(* ===== verification/Registry.v ===== *)
(** * The mesh session registry: its data and critical sections

    Models [household-rs/src/mesh_session_registry.rs]: the revision the
    registry judges sessions by, the sessions it tracks, and the body of every
    method that runs under its lock, as a function of the data the lock
    protects. How the methods take the lock, announce, drain and return, and
    how they interleave with forwarding, is [RegistrySteps].

    A body returns the new data, the stores to shared atomics it makes while
    the lock is held, in order, and what the method does next. It reads the
    phases of the sessions it tracks ([phase]) and whether their handles are
    still owned ([alive], a [Weak]'s count), both of which change outside the
    lock, so they are arguments. A [Weak<H>] is the number of its handle, an
    [Arc<SessionSync>] the number of its allocation. *)

From stdpp Require Import base gmap sets list strings.
From Stdlib Require Import ZArith Lia Ascii.
From S2P Require Import Prelude.
From S2P Require Import RosterView.

Open Scope Z_scope.

Abbreviation SessionId := Z (only parsing).

(** [PHASE_PENDING], [PHASE_ACTIVE], [PHASE_CLOSED] *)
Inductive Phase := PHASE_PENDING | PHASE_ACTIVE | PHASE_CLOSED.

#[export] Instance Phase_eq_dec : EqDecision Phase.
Proof. solve_decision. Defined.

Inductive RegisterRefusal :=
| RR_HouseholdMismatch
| RR_RevisionMismatch
| RR_MachineRevoked
| RR_MachineNotActive
| RR_HandleAlreadyDropped
| RR_RegistryUnavailable
| RR_SessionIdSpaceExhausted.

Inductive TryPreauthorizeError :=
| TP_Busy
| TP_Expired
| TP_Poisoned
| TP_Refused (r : RegisterRefusal).

Inductive PendingCancelOutcome :=
| PC_ClosedAndRemoved
| PC_ClosedCleanupDeferred
| PC_RegistryUnavailable.

Inductive ReconcileOutcome :=
| RO_Swept (removed : nat)
| RO_Busy
| RO_RegistryUnavailable.

Inductive RetireOutcome :=
| RT_RetiredAndDrained
| RT_NotTracked
| RT_RegistryUnavailable.

Inductive ObserveOutcome := OO_Applied | OO_Recovered | OO_Idempotent | OO_Rejected.

(** ** The revision *)

Record Revision := MkRevision {
  rev_checkpoint_hash : bytes;
  rev_checkpoint_sequence : Z;
  rev_active : gmap MachineId bytes;
  rev_revoked : list MachineId;           (* a set: only asked for membership *)
}.

(** The pairs collected into the [active] map: a later one replaces. *)
Definition collect_active (s : RosterSnapshotView) : list MachineId → gmap MachineId bytes :=
  foldl (λ acc m_id, match lookup_active s m_id with
                     | Some member => <[m_id := rm_machine_cert_fingerprint member]> acc
                     | None => acc
                     end) ∅.

Definition from_snapshot (s : RosterSnapshotView) : Revision :=
  MkRevision (rv_checkpoint_hash s) (rv_checkpoint_sequence s)
    (collect_active s (active_m_ids s)) (rv_revoked_m_ids s).

Inductive RevisionComparison := RC_Regression | RC_Fork | RC_Idempotent | RC_Advance.

Definition compare (r : Revision) (checkpoint_hash : bytes) (checkpoint_sequence : Z)
    : RevisionComparison :=
  match checkpoint_sequence ?= rev_checkpoint_sequence r with
  | Lt => RC_Regression
  | Eq => if bool_decide (checkpoint_hash = rev_checkpoint_hash r) then RC_Idempotent else RC_Fork
  | Gt => RC_Advance
  end.

(** ** Tracked sessions *)

Record SessionEntry := MkSessionEntry {
  se_m_id : MachineId;
  se_machine_cert_fingerprint : bytes;
  se_handle : nat;
  se_sync : nat;
}.

Abbreviation Sessions := (gmap SessionId SessionEntry) (only parsing).
Abbreviation ByMachine := (gmap MachineId (list SessionId)) (only parsing).

Inductive Mode :=
| Live (sessions : Sessions) (by_machine : ByMachine)
| Unavailable.

Record Inner := MkInner {
  in_hh_id : HouseholdId;
  in_last_known_revision : Revision;
  in_next_session_id : Z;
  in_mode : Mode;
}.

Definition with_mode (m : Mode) (i : Inner) : Inner :=
  MkInner (in_hh_id i) (in_last_known_revision i) (in_next_session_id i) m.

(** [MeshSessionRegistry::new]'s [Inner]. *)
Definition inner_new (initial : RosterSnapshotView) : Inner :=
  MkInner (rv_hh_id initial) (from_snapshot initial) 0 (Live ∅ ∅).

(** [should_revoke], on the fields of the entry it reads. *)
Definition should_revoke (m_id : MachineId) (fingerprint : bytes) (r : Revision) : bool :=
  if bool_decide (m_id ∈ rev_revoked r) then true else
  match rev_active r !! m_id with
  | None => true
  | Some fp => negb (bool_decide (fp = fingerprint))
  end.

(** The bucket of [m_id] without [id], removed when it becomes empty. *)
Definition unbucket (m_id : MachineId) (id : SessionId) (by_machine : ByMachine) : ByMachine :=
  match by_machine !! m_id with
  | None => by_machine
  | Some ids =>
      match filter (λ existing, existing ≠ id) ids with
      | [] => delete m_id by_machine
      | ids' => <[m_id := ids']> by_machine
      end
  end.

(** [sessions.remove(id)] with the bucket of the removed entry. *)
Definition forget (id : SessionId) (maps : Sessions * ByMachine) : Sessions * ByMachine :=
  match fst maps !! id with
  | None => maps
  | Some entry => (delete id (fst maps), unbucket (se_m_id entry) id (snd maps))
  end.

Definition forget_all (ids : list SessionId) (maps : Sessions * ByMachine) : Sessions * ByMachine :=
  foldl (λ maps id, forget id maps) maps ids.

(** ** The bodies under the lock *)

Section bodies.
Context (phase : nat → Phase).    (* the phase read of an allocation *)
Context (alive : nat → bool).     (* [handle.strong_count() > 0] *)

Definition closed_ids (sessions : Sessions) : list SessionId :=
  fst <$> filter (λ p, phase (se_sync p.2) = PHASE_CLOSED) (map_to_list sessions).

Definition prune_closed_locked (maps : Sessions * ByMachine) : Sessions * ByMachine * nat :=
  let closed := closed_ids (fst maps) in
  (forget_all closed maps, length closed).

(** [new_sync] is the allocation [SessionSync::new_pending] returns; the answer
    is the new data and the identifier of the reserved session. *)
Definition preauthorize_locked (guard : Inner) (binding : SealedBinding) (handle new_sync : nat)
    : Result RegisterRefusal (Inner * SessionId) :=
  match in_mode guard with
  | Unavailable => Err RR_RegistryUnavailable
  | Live sessions by_machine =>
      let last_known_revision := in_last_known_revision guard in
      reject_if (negb (bool_decide (sb_hh_id binding = in_hh_id guard))) RR_HouseholdMismatch;;
      reject_if (negb (bool_decide
                   (rev_checkpoint_hash last_known_revision = sb_checkpoint_hash binding)) ||
                 negb (rev_checkpoint_sequence last_known_revision =?
                   sb_checkpoint_sequence binding)) RR_RevisionMismatch;;
      reject_if (bool_decide (sb_m_id binding ∈ rev_revoked last_known_revision))
        RR_MachineRevoked;;
      reject_if (match rev_active last_known_revision !! sb_m_id binding with
                 | Some fp => negb (bool_decide (fp = sb_machine_cert_fingerprint binding))
                 | None => true
                 end) RR_MachineNotActive;;
      reject_if (negb (alive handle)) RR_HandleAlreadyDropped;;
      id ← ok_or (checked_add (in_next_session_id guard) 1) RR_SessionIdSpaceExhausted;
      let '((sessions, by_machine), _) := prune_closed_locked (sessions, by_machine) in
      let entry := MkSessionEntry (sb_m_id binding) (sb_machine_cert_fingerprint binding)
                     handle new_sync in
      let ids := default [] (by_machine !! sb_m_id binding) in
      Ok (MkInner (in_hh_id guard) last_known_revision id
            (Live (<[id := entry]> sessions) (<[sb_m_id binding := ids ++ [id]]> by_machine)), id)
  end.

Definition try_remove_closed_pending (guard : Inner) (id : SessionId) (sync : nat) (m_id : MachineId)
    : Inner * PendingCancelOutcome :=
  match in_mode guard with
  | Unavailable => (guard, PC_RegistryUnavailable)
  | Live sessions by_machine =>
      let is_mine := match sessions !! id with
                     | Some entry => bool_decide (se_sync entry = sync)
                     | None => false
                     end in
      if negb is_mine then (guard, PC_ClosedAndRemoved) else
      (with_mode (Live (delete id sessions) (unbucket m_id id by_machine)) guard,
       PC_ClosedAndRemoved)
  end.

Definition reconcile_closed_pending (guard : Inner) : Inner * ReconcileOutcome :=
  match in_mode guard with
  | Unavailable => (guard, RO_RegistryUnavailable)
  | Live sessions by_machine =>
      let '((sessions, by_machine), removed) := prune_closed_locked (sessions, by_machine) in
      (with_mode (Live sessions by_machine) guard, RO_Swept removed)
  end.

(** A session to announce to and drain: [(SessionId, Arc<SessionSync>)], with
    the handle its notice goes to. *)
Record Target := MkTarget { tg_id : SessionId; tg_sync : nat; tg_handle : nat }.

Definition target_of (p : SessionId * SessionEntry) : Target :=
  MkTarget p.1 (se_sync p.2) (se_handle p.2).

(** [unregister_inner] and [retire_locally_inner]: the removed entry, if any. *)
Definition remove_session (guard : Inner) (id : SessionId) : option (Inner * option Target) :=
  match in_mode guard with
  | Unavailable => None
  | Live sessions by_machine =>
      let '(sessions', by_machine') := forget id (sessions, by_machine) in
      Some (with_mode (Live sessions' by_machine') guard,
            (λ entry, target_of (id, entry)) <$> sessions !! id)
  end.

(** [ids.retain(..)] of the dead-handle prune: [keep] spares an id without
    looking at its handle; the removed entries are collected. *)
Fixpoint retain_alive (keep : SessionId → bool) (ids : list SessionId) (sessions : Sessions)
    : list SessionId * Sessions * list Target :=
  match ids with
  | [] => ([], sessions, [])
  | id :: ids =>
      if keep id then
        let '(kept, sessions, dead) := retain_alive keep ids sessions in
        (id :: kept, sessions, dead)
      else
      match sessions !! id with
      | None => retain_alive keep ids sessions
      | Some entry =>
          if alive (se_handle entry) then
            let '(kept, sessions, dead) := retain_alive keep ids sessions in
            (id :: kept, sessions, dead)
          else
            let '(kept, sessions, dead) := retain_alive keep ids (delete id sessions) in
            (kept, sessions, target_of (id, entry) :: dead)
      end
  end.

Definition set_bucket (m_id : MachineId) (ids : list SessionId) (by_machine : ByMachine) : ByMachine :=
  match ids with [] => delete m_id by_machine | _ => <[m_id := ids]> by_machine end.

Definition is_active_id (sessions : Sessions) (id : SessionId) : bool :=
  match sessions !! id with
  | Some entry => bool_decide (phase (se_sync entry) = PHASE_ACTIVE)
  | None => false
  end.

Definition registered_count_inner (guard : Inner) (m_id : MachineId) : Inner * list Target * nat :=
  match in_mode guard with
  | Unavailable => (guard, [], 0%nat)
  | Live sessions by_machine =>
      let '((sessions, by_machine), _) := prune_closed_locked (sessions, by_machine) in
      match by_machine !! m_id with
      | None => (with_mode (Live sessions by_machine) guard, [], 0%nat)
      | Some ids =>
          let '(ids, sessions, dead) := retain_alive (λ _, false) ids sessions in
          (with_mode (Live sessions (set_bucket m_id ids by_machine)) guard, dead,
           length (filter (λ id, is_active_id sessions id = true) ids))
      end
  end.

(** The [for m_id in still_tracked] loop of the [Advance] branch. *)
Fixpoint prune_dead (keep : SessionId → bool) (tracked : list MachineId) (maps : Sessions * ByMachine)
    : Sessions * ByMachine * list Target :=
  match tracked with
  | [] => (maps, [])
  | m_id :: tracked =>
      match snd maps !! m_id with
      | None => prune_dead keep tracked maps
      | Some ids =>
          let '(ids, sessions, dead) := retain_alive keep ids (fst maps) in
          let '(maps, dead') := prune_dead keep tracked (sessions, set_bucket m_id ids (snd maps)) in
          (maps, dead ++ dead')
      end
  end.

(** A store to an atomic shared with the gates, made while the lock is held. *)
Inductive Effect :=
| Ef_Announce (t : Target)             (* [announce_revoke] *)
| Ef_StoreGeneration (generation : Z)  (* [generation.store(..)] *)
| Ef_StoreLive (live : bool).          (* [registry_live.store(..)] *)

Definition all_targets (sessions : Sessions) : list Target := target_of <$> map_to_list sessions.

(** The targets of an [Advance] to [new_revision], and the maps without the
    pruned sessions. *)
Definition advance (sessions : Sessions) (by_machine : ByMachine) (new_revision : Revision)
    : Sessions * ByMachine * list Target :=
  let to_revoke :=
    filter (λ p, should_revoke (se_m_id p.2) (se_machine_cert_fingerprint p.2) new_revision = true)
      (map_to_list sessions) in
  let to_revoke_ids := fst <$> to_revoke in
  let '(maps, _) := prune_closed_locked (sessions, by_machine) in
  let '(maps, dead) := prune_dead (λ id, bool_decide (id ∈ to_revoke_ids))
                         (fst <$> map_to_list (snd maps)) maps in
  (maps, (target_of <$> to_revoke) ++ dead).

(** Phase A of [observe_new_checkpoint_inner]: the announcements come last. *)
Definition observe_phase_a (generation : Z) (guard : Inner) (snapshot : RosterSnapshotView)
    : Inner * list Effect * ObserveOutcome :=
  let comparison :=
    if bool_decide (rv_hh_id snapshot = in_hh_id guard)
    then compare (in_last_known_revision guard) (rv_checkpoint_hash snapshot)
           (rv_checkpoint_sequence snapshot)
    else RC_Fork in
  match in_mode guard, comparison with
  | Live sessions _, (RC_Regression | RC_Fork) =>
      (with_mode Unavailable guard,
       Ef_StoreLive false :: (Ef_Announce <$> all_targets sessions), OO_Rejected)
  | Unavailable, (RC_Regression | RC_Fork) => (guard, [], OO_Rejected)
  | Live _ _, RC_Idempotent => (guard, [], OO_Idempotent)
  | Unavailable, (RC_Idempotent | RC_Advance) =>
      match checked_add generation 1 with
      | Some next_generation =>
          (MkInner (in_hh_id guard) (from_snapshot snapshot) (in_next_session_id guard) (Live ∅ ∅),
           [Ef_StoreGeneration next_generation; Ef_StoreLive true], OO_Recovered)
      | None => (guard, [], OO_Rejected)
      end
  | Live sessions by_machine, RC_Advance =>
      let new_revision := from_snapshot snapshot in
      let '((sessions, by_machine), to_revoke) := advance sessions by_machine new_revision in
      (MkInner (in_hh_id guard) new_revision (in_next_session_id guard) (Live sessions by_machine),
       Ef_Announce <$> to_revoke, OO_Applied)
  end.

(** Phase C of the same. *)
Definition observe_phase_c (guard : Inner) (to_revoke : list Target) : Inner :=
  match in_mode guard with
  | Unavailable => guard
  | Live sessions by_machine =>
      let '(sessions, by_machine) := forget_all (tg_id <$> to_revoke) (sessions, by_machine) in
      with_mode (Live sessions by_machine) guard
  end.

(** [mark_unavailable]: the sessions to revoke once the lock is released. *)
Definition mark_unavailable_locked (guard : Inner) : Inner * list Effect * list Target :=
  match in_mode guard with
  | Unavailable => (guard, [], [])
  | Live sessions _ => (with_mode Unavailable guard, [Ef_StoreLive false], all_targets sessions)
  end.

Definition is_unavailable (guard : Inner) : bool :=
  match in_mode guard with Unavailable => true | Live _ _ => false end.
End bodies.

(** ** The maps *)

(** The buckets list exactly the tracked sessions, each under its machine. *)
Record Indexed (sessions : Sessions) (by_machine : ByMachine) : Prop := {
  ix_bucket : ∀ m_id ids, by_machine !! m_id = Some ids →
    ids ≠ [] ∧ NoDup ids ∧ ∀ id, id ∈ ids → ∃ e, sessions !! id = Some e ∧ se_m_id e = m_id;
  ix_listed : ∀ id e, sessions !! id = Some e →
    ∃ ids, by_machine !! se_m_id e = Some ids ∧ id ∈ ids;
}.

Lemma indexed_empty : Indexed ∅ ∅.
Proof. split; intros * H; by rewrite lookup_empty in H. Qed.

Lemma set_bucket_lookup m_id ids by_machine m :
  set_bucket m_id ids by_machine !! m =
  if decide (m = m_id) then match ids with [] => None | _ => Some ids end else by_machine !! m.
Proof.
  unfold set_bucket. destruct ids; case_decide; subst;
    by rewrite ?lookup_delete_eq, ?lookup_insert_eq, ?lookup_delete_ne, ?lookup_insert_ne by done.
Qed.

Lemma unbucket_lookup m_id id by_machine m :
  unbucket m_id id by_machine !! m =
  if decide (m = m_id)
  then by_machine !! m ≫= λ ids,
         match filter (λ x, x ≠ id) ids with [] => None | ids' => Some ids' end
  else by_machine !! m.
Proof.
  unfold unbucket. destruct (by_machine !! m_id) as [ids|] eqn:Hb.
  - trans (set_bucket m_id (filter (λ x, x ≠ id) ids) by_machine !! m).
    { by destruct (filter _ ids). }
    rewrite set_bucket_lookup. destruct (decide (m = m_id)) as [->|]; [|done]. rewrite Hb. cbn. by destruct (filter _ ids).
  - case_decide; subst; by rewrite ?Hb.
Qed.

(** Replacing the bucket of a machine by what is left of it. *)
Lemma indexed_shrink sessions by_machine m_id ids kept sessions' :
  Indexed sessions by_machine → by_machine !! m_id = Some ids →
  kept `sublist_of` ids →
  (∀ id, sessions' !! id =
     if bool_decide (id ∈ ids ∧ id ∉ kept) then None else sessions !! id) →
  Indexed sessions' (set_bucket m_id kept by_machine).
Proof.
  intros [Hb Hl] Hm Hsub Hs'. destruct (Hb _ _ Hm) as (_ & Hnd & Hids).
  assert (∀ m l id, by_machine !! m = Some l → id ∈ l → m ≠ m_id → id ∉ ids) as Hother.
  { intros m l id Hml Hin Hne Hin2. destruct (Hb _ _ Hml) as (_ & _ & Hl2).
    destruct (Hl2 _ Hin) as (e & He & <-). destruct (Hids _ Hin2) as (e' & He' & Hm'). congruence. }
  split.
  - intros m l. rewrite set_bucket_lookup. case_decide as Hmm.
    + subst. destruct kept as [|x kept]; [done|]. intros [= <-].
      split_and!; [done|by eapply sublist_NoDup|].
      intros id Hin. destruct (Hids id) as (e & He & Hm'); [by eapply elem_of_sublist|].
      exists e. by rewrite Hs', bool_decide_false by tauto.
    + intros Hml. destruct (Hb _ _ Hml) as (? & ? & Hl2). split_and!; [done..|].
      intros id Hin. destruct (Hl2 _ Hin) as (e & He & ?). exists e.
      rewrite Hs', bool_decide_false; [done|]. intros [Hin2 _]. by eapply Hother.
  - intros id e. rewrite Hs'. case_bool_decide as Hgone; [done|]. intros He.
    destruct (Hl _ _ He) as (l & Hml & Hin). rewrite set_bucket_lookup. case_decide as Hmm.
    + rewrite Hmm, Hm in Hml. injection Hml as <-.
      destruct (decide (id ∈ kept)) as [Hk|]; [|tauto]. destruct kept; [by apply not_elem_of_nil in Hk|].
      eauto.
    + eauto.
Qed.

Lemma forget_indexed id maps :
  Indexed maps.1 maps.2 → Indexed (forget id maps).1 (forget id maps).2.
Proof.
  intros Hi. unfold forget. destruct (fst maps !! id) as [e|] eqn:He; [|done]. cbn.
  destruct (ix_listed _ _ Hi _ _ He) as (ids & Hb & Hin).
  assert (unbucket (se_m_id e) id maps.2 =
          set_bucket (se_m_id e) (filter (λ x, x ≠ id) ids) maps.2) as ->.
  { unfold unbucket. rewrite Hb. by destruct (filter _ ids). }
  eapply indexed_shrink; [done..|apply sublist_filter|]. intros id'.
  destruct (decide (id' = id)) as [->|Hne].
  - rewrite lookup_delete_eq, bool_decide_true; [done|].
    rewrite list_elem_of_filter. naive_solver.
  - rewrite lookup_delete_ne, bool_decide_false; [done| |done].
    rewrite list_elem_of_filter. naive_solver.
Qed.

Lemma forget_lookup id maps id' :
  (forget id maps).1 !! id' = if decide (id' = id) then None else maps.1 !! id'.
Proof.
  unfold forget. destruct (fst maps !! id) eqn:He; case_decide; subst; cbn;
    by rewrite ?lookup_delete_eq, ?lookup_delete_ne by done.
Qed.

Lemma forget_all_indexed ids maps :
  Indexed maps.1 maps.2 → Indexed (forget_all ids maps).1 (forget_all ids maps).2.
Proof.
  revert maps. induction ids as [|id ids IH]; intros maps; cbn; [done|].
  intros. by apply IH, forget_indexed.
Qed.

Lemma forget_all_lookup ids maps id :
  (forget_all ids maps).1 !! id = if decide (id ∈ ids) then None else maps.1 !! id.
Proof.
  revert maps. induction ids as [|x ids IH]; intros maps; cbn.
  - by rewrite decide_False by apply not_elem_of_nil.
  - change (foldl _ (forget x maps) ids) with (forget_all ids (forget x maps)).
    rewrite IH, forget_lookup. repeat case_decide; set_solver.
Qed.

Section body_lemmas.
Context (phase : nat → Phase) (alive : nat → bool).
Implicit Types (sessions : Sessions) (by_machine : ByMachine) (maps : Sessions * ByMachine).

Lemma closed_ids_spec sessions id :
  id ∈ closed_ids phase sessions ↔
  ∃ e, sessions !! id = Some e ∧ phase (se_sync e) = PHASE_CLOSED.
Proof.
  unfold closed_ids. rewrite list_elem_of_fmap. split.
  - intros ([i e] & -> & [Hp Hin]%list_elem_of_filter). exists e. cbn in *.
    by apply elem_of_map_to_list in Hin.
  - intros (e & He & Hp). exists (id, e). split; [done|]. apply list_elem_of_filter.
    by rewrite elem_of_map_to_list.
Qed.

(** The sweep removes exactly the sessions read as closed. *)
Lemma prune_closed_lookup maps id e :
  (prune_closed_locked phase maps).1.1 !! id = Some e ↔
  maps.1 !! id = Some e ∧ phase (se_sync e) ≠ PHASE_CLOSED.
Proof.
  unfold prune_closed_locked. cbn. rewrite forget_all_lookup.
  case_decide as Hd; rewrite closed_ids_spec in Hd; naive_solver.
Qed.

Lemma prune_closed_indexed maps :
  Indexed maps.1 maps.2 →
  Indexed (prune_closed_locked phase maps).1.1 (prune_closed_locked phase maps).1.2.
Proof. apply forget_all_indexed. Qed.

(** What a pruning [(sessions', dead)] of [sessions] did: what is gone is dead
    and collected, nothing else changed. *)
Record Pruned sessions sessions' (dead : list Target) : Prop := {
  pr_kept : ∀ id e, sessions' !! id = Some e → sessions !! id = Some e;
  pr_gone : ∀ id e, sessions !! id = Some e →
    sessions' !! id = Some e ∨ target_of (id, e) ∈ dead;
  pr_dead : ∀ t, t ∈ dead → ∃ e, sessions !! tg_id t = Some e ∧ t = target_of (tg_id t, e);
}.

Lemma pruned_refl sessions : Pruned sessions sessions [].
Proof. split; [done|by left|]. intros t Ht. by apply not_elem_of_nil in Ht. Qed.

Lemma pruned_trans s1 s2 s3 d1 d2 :
  Pruned s1 s2 d1 → Pruned s2 s3 d2 → Pruned s1 s3 (d1 ++ d2).
Proof.
  intros [K1 G1 D1] [K2 G2 D2]. split.
  - auto.
  - intros id e He. destruct (G1 _ _ He) as [He2|]; [|set_solver].
    destruct (G2 _ _ He2); [by left|set_solver].
  - intros t [Ht|Ht]%elem_of_app; [auto|]. destruct (D2 _ Ht) as (e & He & ->). eauto.
Qed.

Lemma pruned_delete sessions id e :
  sessions !! id = Some e → Pruned sessions (delete id sessions) [target_of (id, e)].
Proof.
  intros He. split.
  - intros i x [? ?]%lookup_delete_Some. done.
  - intros i x Hx. destruct (decide (i = id)) as [->|].
    + right. assert (x = e) as -> by congruence. set_solver.
    + left. by rewrite lookup_delete_ne by done.
  - intros t ->%list_elem_of_singleton. eauto.
Qed.

Lemma retain_alive_spec keep ids sessions kept sessions' dead :
  retain_alive alive keep ids sessions = (kept, sessions', dead) →
  Pruned sessions sessions' dead ∧ kept `sublist_of` ids ∧
  (NoDup ids → (∀ id, id ∈ ids → is_Some (sessions !! id)) →
   ∀ id, sessions' !! id = if bool_decide (id ∈ ids ∧ id ∉ kept) then None else sessions !! id).
Proof.
  revert sessions kept sessions' dead.
  induction ids as [|i ids IH]; intros sessions kept sessions' dead; cbn [retain_alive].
  { intros [= <- <- <-]. split_and!; [apply pruned_refl|done|].
    intros _ _ id. by rewrite bool_decide_false by set_solver. }
  assert (∀ r, retain_alive alive keep ids sessions = r →
    (i :: r.1.1, r.1.2, r.2) = (kept, sessions', dead) →
    Pruned sessions sessions' dead ∧ kept `sublist_of` i :: ids ∧
    (NoDup (i :: ids) → (∀ id, id ∈ i :: ids → is_Some (sessions !! id)) →
     ∀ id, sessions' !! id = if bool_decide (id ∈ i :: ids ∧ id ∉ kept) then None
                             else sessions !! id)) as Hkeep.
  { intros [[k s] d] Hr [= <- <- <-]. destruct (IH _ _ _ _ Hr) as (Hp & Hsub & Hl).
    split_and!; [done|by constructor|]. intros [Hni Hnd]%NoDup_cons Hin id.
    rewrite Hl by set_solver. destruct (decide (id = i)) as [->|].
    - rewrite !bool_decide_false; [done|set_solver..].
    - by rewrite (bool_decide_ext _ (id ∈ i :: ids ∧ id ∉ i :: k)) by set_solver. }
  destruct (keep i).
  { destruct (retain_alive alive keep ids sessions) as [[k s] d] eqn:Hr. by apply (Hkeep _ eq_refl). }
  destruct (sessions !! i) as [e|] eqn:He.
  - destruct (alive (se_handle e)).
    { destruct (retain_alive alive keep ids sessions) as [[k s] d] eqn:Hr. by apply (Hkeep _ eq_refl). }
    destruct (retain_alive alive keep ids (delete i sessions)) as [[k s] d] eqn:Hr.
    intros [= <- <- <-]. destruct (IH _ _ _ _ Hr) as (Hp & Hsub & Hl). split_and!.
    + apply (pruned_trans _ (delete i sessions) _ [_]); [by apply pruned_delete|done].
    + by constructor.
    + intros [Hni Hnd]%NoDup_cons Hin id. rewrite Hl; [|done|].
      2: { intros x Hx. rewrite lookup_delete_ne by set_solver. apply Hin. set_solver. }
      destruct (decide (id = i)) as [->|].
      * rewrite bool_decide_false by set_solver. rewrite lookup_delete_eq, bool_decide_true; [done|].
        split; [set_solver|]. intros Hk. apply Hni. by eapply elem_of_sublist.
      * rewrite lookup_delete_ne by done.
        by rewrite (bool_decide_ext _ (id ∈ i :: ids ∧ id ∉ k)) by set_solver.
  - intros Hr. destruct (IH _ _ _ _ Hr) as (Hp & Hsub & Hl). split_and!; [done|by constructor|].
    intros _ Hin. destruct (Hin i) as [? ?]; [set_solver|congruence].
Qed.

Lemma retain_alive_indexed keep ids sessions by_machine m_id kept sessions' dead :
  Indexed sessions by_machine → by_machine !! m_id = Some ids →
  retain_alive alive keep ids sessions = (kept, sessions', dead) →
  Indexed sessions' (set_bucket m_id kept by_machine).
Proof.
  intros Hi Hm Hr. destruct (retain_alive_spec _ _ _ _ _ _ Hr) as (_ & Hsub & Hl).
  destruct (ix_bucket _ _ Hi _ _ Hm) as (_ & Hnd & Hids).
  eapply indexed_shrink; [done..|]. apply Hl; [done|].
  intros id Hin. destruct (Hids _ Hin) as (e & -> & _). by eexists.
Qed.

Lemma prune_dead_spec keep tracked maps maps' dead :
  prune_dead alive keep tracked maps = (maps', dead) →
  Pruned maps.1 maps'.1 dead ∧ (Indexed maps.1 maps.2 → Indexed maps'.1 maps'.2).
Proof.
  revert maps maps' dead. induction tracked as [|m tracked IH]; intros maps maps' dead; cbn.
  { intros [= <- <-]. split; [apply pruned_refl|done]. }
  destruct (maps.2 !! m) as [ids|] eqn:Hm; [|by apply IH].
  destruct (retain_alive alive keep ids maps.1) as [[kept s] d] eqn:Hr.
  destruct (prune_dead alive keep tracked _) as [mp d'] eqn:Hp. intros [= <- <-].
  destruct (IH _ _ _ Hp) as [Hpr Hi]. destruct (retain_alive_spec _ _ _ _ _ _ Hr) as (Hpr1 & _ & _).
  split; [by eapply pruned_trans|]. intros Hix. apply Hi. cbn. by eapply retain_alive_indexed.
Qed.
End body_lemmas.
