(* ===== verification/RegistrySteps.v ===== *)
(** * The mesh session registry: threads

    Models how the methods of [household-rs/src/mesh_session_registry.rs] run
    concurrently. A world holds the data under the registry lock, the shared
    atomics ([registry_live], [generation]), one [SessionSync] per admitted
    session (its atomics, its mutex and what the mutex protects), and one
    program counter per call in progress. A step is one access to shared
    memory: an atomic load or store, taking or releasing a lock, going to
    sleep on the condition variable or being woken. All orderings in the source
    are [SeqCst], so runs are interleavings of steps.

    The body of a critical section is one step ([Registry]'s function, applied
    when the last of its reads happens), followed by its stores to the shared
    atomics one by one; the data becomes visible when the lock is released,
    which is when anyone else can read it. A phase read inside a body may be
    older than the body's step ([observe_phase]): phases only move forward.

    A guard or a permit that a caller holds is a program counter too, from
    which the caller moves on by dropping, committing or cancelling. *)

From stdpp Require Import base gmap sets list strings.
From Stdlib Require Import ZArith Lia Ascii.
From S2P Require Import Prelude.
From S2P Require Import RosterView.
From S2P Require Import Registry.

Open Scope Z_scope.

(** ** [SessionSync] *)

Record SessionSync := MkSync {
  writer_intent : nat;
  ss_phase : Phase;
  writer_active : bool;       (* [GateState], under the mutex *)
  active_readers : nat;
  state_holder : option nat;  (* who holds the mutex *)
  state_poisoned : bool;
}.

Definition new_pending : SessionSync := MkSync 0 PHASE_PENDING false 0 None false.

Definition set_intent (n : nat) (s : SessionSync) : SessionSync :=
  MkSync n (ss_phase s) (writer_active s) (active_readers s) (state_holder s) (state_poisoned s).
Definition set_phase (p : Phase) (s : SessionSync) : SessionSync :=
  MkSync (writer_intent s) p (writer_active s) (active_readers s) (state_holder s) (state_poisoned s).
Definition set_writer_active (b : bool) (s : SessionSync) : SessionSync :=
  MkSync (writer_intent s) (ss_phase s) b (active_readers s) (state_holder s) (state_poisoned s).
Definition set_readers (n : nat) (s : SessionSync) : SessionSync :=
  MkSync (writer_intent s) (ss_phase s) (writer_active s) n (state_holder s) (state_poisoned s).
Definition set_holder (h : option nat) (s : SessionSync) : SessionSync :=
  MkSync (writer_intent s) (ss_phase s) (writer_active s) (active_readers s) h (state_poisoned s).
Definition set_poisoned (s : SessionSync) : SessionSync :=
  MkSync (writer_intent s) (ss_phase s) (writer_active s) (active_readers s) (state_holder s) true.

Definition announce_revoke (s : SessionSync) : SessionSync := set_intent (S (writer_intent s)) s.

(** The compare-and-exchange from [PHASE_PENDING] of [commit_after_ack] and
    [close_if_pending]. *)
Definition cas_pending (p : Phase) (s : SessionSync) : SessionSync :=
  if bool_decide (ss_phase s = PHASE_PENDING) then set_phase p s else s.

(** A read of a phase that is now [actual]; [stale] is what it was when read. *)
Definition observe_phase (stale : option Phase) (actual : Phase) : Phase :=
  match stale, actual with
  | Some PHASE_PENDING, _ => PHASE_PENDING
  | Some PHASE_ACTIVE, (PHASE_ACTIVE | PHASE_CLOSED) => PHASE_ACTIVE
  | _, p => p
  end.

(** A session's [SessionSync] and, for the theorems, what it was created for. *)
Record Cell := MkCell {
  c_sync : SessionSync;
  c_id : SessionId;
  c_m_id : MachineId;
  c_fingerprint : bytes;
  c_generation : Z;
}.

Definition on_sync (f : SessionSync → SessionSync) (c : Cell) : Cell :=
  MkCell (f (c_sync c)) (c_id c) (c_m_id c) (c_fingerprint c) (c_generation c).

(** ** Program counters *)

(** What a method returns. *)
Inductive Ret :=
| Ret_Preauthorize (e : TryPreauthorizeError)
| Ret_Cancel (o : PendingCancelOutcome)
| Ret_Reconcile (o : ReconcileOutcome)
| Ret_Unregister
| Ret_Retire (o : RetireOutcome)
| Ret_Count (n : nat)
| Ret_IsUnavailable (b : bool)
| Ret_Observe (o : ObserveOutcome)
| Ret_Commit                      (* the permit became an [ActiveSessionRegistration] *)
| Ret_Drop                        (* a permit or a guard was dropped *)
| Ret_NoGuard                     (* [try_authorize_forwarding] returned [None] *)
| Ret_Panic.

(** The method whose critical section on the registry lock comes next. *)
Inductive LockOp :=
| L_Preauthorize (binding : SealedBinding) (handle : nat) (deadline_at : Z)
| L_RemoveClosedPending (id : SessionId) (sync : nat) (m_id : MachineId)
| L_Reconcile
| L_Unregister (id : SessionId)
| L_Retire (id : SessionId)
| L_Count (m_id : MachineId)
| L_IsUnavailable
| L_Observe (snapshot : RosterSnapshotView)
| L_PhaseC (to_revoke : list Target) (outcome : ObserveOutcome)
| L_MarkUnavailable.

(** What a method does once its targets are drained. *)
Inductive After :=
| Af_Return (r : Ret)
| Af_PhaseC (outcome : ObserveOutcome)
| Af_Finish (outcome : ObserveOutcome) (drained : list Target). (* after phase C *)

(** What a method does once it has released the registry lock. *)
Inductive Next :=
| Nx_Permit (c : Cell)                       (* return the permit of a new session *)
| Nx_Revoke (later : list Target) (k : After). (* announce to [later], drain all, go on *)

(** [drain_after_announce_inner], between two accesses. *)
Inductive DrainPc :=
| D_Lock        (* before [state.lock()] *)
| D_Phase       (* locked, before [self.phase()] *)
| D_Sleep1      (* in [wait_timeout] *)
| D_Relock1     (* woken from it, the mutex not yet back *)
| D_Close       (* locked, before the store of [PHASE_CLOSED] *)
| D_Readers     (* locked, before the test of [active_readers] *)
| D_Sleep3      (* in [wait] *)
| D_Relock3
| D_WriterOn    (* locked, before [writer_active = true] *)
| D_WriterOff
| D_Unlock
| D_Sub.        (* unlocked, before [fetch_sub] *)

(** [SessionGate::try_authorize_forwarding], [try_enter] and the guard's [Drop]. *)
Inductive GatePc :=
| G_Live0 | G_Gen0 | G_Intent0 | G_Phase0
| G_Lock
| G_Intent1 | G_WriterActive1 | G_Phase1
| G_Enter       (* locked and admitted, before [active_readers += 1] *)
| G_Unlock      (* entered, before the mutex is released *)
| G_Refuse      (* locked and refused *)
| G_Live1 | G_Gen1
| G_Guard       (* the guard is with the caller *)
| G_DropLock | G_Dec | G_DropUnlock.

Inductive Pc :=
| Pc_Lock (op : LockOp)
| Pc_Body (op : LockOp)                      (* the registry lock is held *)
| Pc_Stores (todo : list Effect) (announced : list Target) (data : Inner) (k : Next)
| Pc_Announce (todo announced : list Target) (k : After)
| Pc_Drain (d : DrainPc) (t : Target) (rest all : list Target) (k : After)
| Pc_Drained (rest all : list Target) (k : After)
| Pc_Permit (sync : nat) (id : SessionId) (m_id : MachineId)
| Pc_Gate (g : GatePc) (sync : nat) (generation : Z) (admitted_at : option Revision)
| Pc_Done (r : Ret) (drained : list Target).

(** [admitted_at] is for the theorems: the registry's revision when the gate
    found no announced writer for the second time. [drained] too: the sessions
    this call has waited out. *)

Record World := MkWorld {
  w_inner : Inner;
  w_holder : option nat;      (* who holds the registry lock *)
  w_poisoned : bool;
  w_live : bool;              (* [registry_live] *)
  w_generation : Z;
  w_cells : list Cell;        (* an [Arc<SessionSync>] is an index *)
  w_pcs : list Pc;
}.

Definition set_pc (t : nat) (p : Pc) (w : World) : World :=
  MkWorld (w_inner w) (w_holder w) (w_poisoned w) (w_live w) (w_generation w) (w_cells w)
    (<[t := p]> (w_pcs w)).
Definition set_inner_holder (h : option nat) (w : World) : World :=
  MkWorld (w_inner w) h (w_poisoned w) (w_live w) (w_generation w) (w_cells w) (w_pcs w).
Definition set_inner (i : Inner) (w : World) : World :=
  MkWorld i (w_holder w) (w_poisoned w) (w_live w) (w_generation w) (w_cells w) (w_pcs w).
Definition set_live (b : bool) (w : World) : World :=
  MkWorld (w_inner w) (w_holder w) (w_poisoned w) b (w_generation w) (w_cells w) (w_pcs w).
Definition set_generation (g : Z) (w : World) : World :=
  MkWorld (w_inner w) (w_holder w) (w_poisoned w) (w_live w) g (w_cells w) (w_pcs w).
Definition poison (w : World) : World :=
  MkWorld (w_inner w) None true false (w_generation w) (w_cells w) (w_pcs w).
Definition upd_sync (s : nat) (f : SessionSync → SessionSync) (w : World) : World :=
  MkWorld (w_inner w) (w_holder w) (w_poisoned w) (w_live w) (w_generation w)
    (alter (on_sync f) s (w_cells w)) (w_pcs w).
Definition new_cell (c : Cell) (w : World) : World :=
  MkWorld (w_inner w) (w_holder w) (w_poisoned w) (w_live w) (w_generation w)
    (w_cells w ++ [c]) (w_pcs w).
Definition map_pcs (f : Pc → Pc) (w : World) : World :=
  MkWorld (w_inner w) (w_holder w) (w_poisoned w) (w_live w) (w_generation w) (w_cells w)
    (f <$> w_pcs w).

(** [MeshSessionRegistry::new] *)
Definition registry_new (initial : RosterSnapshotView) : World :=
  MkWorld (inner_new initial) None false true 0 [] [].

(** [drained.notify_all()] *)
Definition wake (s : nat) (p : Pc) : Pc :=
  match p with
  | Pc_Drain D_Sleep1 t rest all k =>
      if bool_decide (tg_sync t = s) then Pc_Drain D_Relock1 t rest all k else p
  | Pc_Drain D_Sleep3 t rest all k =>
      if bool_decide (tg_sync t = s) then Pc_Drain D_Relock3 t rest all k else p
  | _ => p
  end.

Definition notify_all (s : nat) (w : World) : World := map_pcs (wake s) w.

(** ** The registry lock *)

(** What a body may read outside the lock, and the clock. *)
Record Env := MkEnv {
  e_stale : nat → option Phase;
  e_alive : nat → bool;
  e_now : Z;
}.

Definition body_phase (e : Env) (w : World) (s : nat) : Phase :=
  match w_cells w !! s with
  | Some c => observe_phase (e_stale e s) (ss_phase (c_sync c))
  | None => PHASE_PENDING
  end.

(** Which methods [try_lock], and what they return when that fails. *)
Definition busy (op : LockOp) : option Ret :=
  match op with
  | L_Preauthorize _ _ _ => Some (Ret_Preauthorize TP_Busy)
  | L_RemoveClosedPending _ _ _ => Some (Ret_Cancel PC_ClosedCleanupDeferred)
  | L_Reconcile => Some (Ret_Reconcile RO_Busy)
  | _ => None
  end.

(** What they return when the lock is poisoned. *)
Definition on_poison (op : LockOp) : Ret :=
  match op with
  | L_Preauthorize _ _ _ => Ret_Preauthorize TP_Poisoned
  | L_RemoveClosedPending _ _ _ => Ret_Cancel PC_RegistryUnavailable
  | L_Reconcile => Ret_Reconcile RO_RegistryUnavailable
  | L_Unregister _ => Ret_Unregister
  | L_Retire _ => Ret_Retire RT_RegistryUnavailable
  | L_Count _ => Ret_Count 0
  | L_IsUnavailable => Ret_IsUnavailable true
  | L_Observe _ | L_MarkUnavailable => Ret_Observe OO_Rejected
  | L_PhaseC _ o => Ret_Observe o
  end.

Definition drained_of (op : LockOp) : list Target :=
  match op with L_PhaseC to_revoke _ => to_revoke | _ => [] end.

(** [inner.lock()] or [inner.try_lock()]; [None] while the call blocks. A lock
    that is held is not looked at for poison. *)
Definition lock_inner (t : nat) (op : LockOp) (w : World) : option World :=
  match w_holder w with
  | Some _ => (λ r, set_pc t (Pc_Done r []) w) <$> busy op
  | None =>
      if w_poisoned w
      then Some (set_pc t (Pc_Done (on_poison op) (drained_of op)) (set_live false w))
      else Some (set_pc t (Pc_Body op) (set_inner_holder (Some t) w))
  end.

Definition revoke_then (k : After) : Next := Nx_Revoke [] k.

(** The body of a method under the lock: the new data, the stores, what next. *)
Definition run_body (e : Env) (w : World) (op : LockOp) : Inner * list Effect * Next :=
  let inner := w_inner w in
  let phase := body_phase e w in
  let alive := e_alive e in
  match op with
  | L_Preauthorize binding handle deadline_at =>
      if deadline_at <=? e_now e
      then (inner, [], revoke_then (Af_Return (Ret_Preauthorize TP_Expired)))
      else
      match preauthorize_locked phase alive inner binding handle (length (w_cells w)) with
      | Err r => (inner, [], revoke_then (Af_Return (Ret_Preauthorize (TP_Refused r))))
      | Ok (inner', id) =>
          (inner', [], Nx_Permit (MkCell new_pending id (sb_m_id binding)
                         (sb_machine_cert_fingerprint binding) (w_generation w)))
      end
  | L_RemoveClosedPending id sync m_id =>
      let '(inner', o) := try_remove_closed_pending inner id sync m_id in
      (inner', [], revoke_then (Af_Return (Ret_Cancel o)))
  | L_Reconcile =>
      let '(inner', o) := reconcile_closed_pending phase inner in
      (inner', [], revoke_then (Af_Return (Ret_Reconcile o)))
  | L_Unregister id =>
      match remove_session inner id with
      | Some (inner', Some target) =>
          (inner', [Ef_Announce target], revoke_then (Af_Return Ret_Unregister))
      | Some (inner', None) => (inner', [], revoke_then (Af_Return Ret_Unregister))
      | None => (inner, [], revoke_then (Af_Return Ret_Unregister))
      end
  | L_Retire id =>
      match remove_session inner id with
      | Some (inner', Some target) =>
          (inner', [Ef_Announce target], revoke_then (Af_Return (Ret_Retire RT_RetiredAndDrained)))
      | Some (inner', None) => (inner', [], revoke_then (Af_Return (Ret_Retire RT_NotTracked)))
      | None => (inner, [], revoke_then (Af_Return (Ret_Retire RT_RegistryUnavailable)))
      end
  | L_Count m_id =>
      let '(inner', dead, n) := registered_count_inner phase alive inner m_id in
      (inner', Ef_Announce <$> dead, revoke_then (Af_Return (Ret_Count n)))
  | L_IsUnavailable =>
      (inner, [], revoke_then (Af_Return (Ret_IsUnavailable (is_unavailable inner))))
  | L_Observe snapshot =>
      let '(inner', effects, o) := observe_phase_a phase alive (w_generation w) inner snapshot in
      (inner', effects, revoke_then (Af_PhaseC o))
  | L_PhaseC to_revoke o =>
      (observe_phase_c inner to_revoke, [], revoke_then (Af_Finish o to_revoke))
  | L_MarkUnavailable =>
      let '(inner', effects, later) := mark_unavailable_locked inner in
      (inner', effects, Nx_Revoke later (Af_Return (Ret_Observe OO_Rejected)))
  end.

Definition store (f : Effect) (w : World) : World :=
  match f with
  | Ef_Announce t => upd_sync (tg_sync t) announce_revoke w
  | Ef_StoreGeneration g => set_generation g w
  | Ef_StoreLive b => set_live b w
  end.

Definition announced_by (f : Effect) : list Target :=
  match f with Ef_Announce t => [t] | _ => [] end.

(** The data is written and the lock released. *)
Definition unlock_inner (t : nat) (announced : list Target) (data : Inner) (k : Next) (w : World)
    : World :=
  let w' := set_inner_holder None (set_inner data w) in
  match k with
  | Nx_Permit c =>
      set_pc t (Pc_Permit (length (w_cells w)) (c_id c) (c_m_id c)) (new_cell c w')
  | Nx_Revoke later k => set_pc t (Pc_Announce later announced k) w'
  end.

(** Once its targets are drained a method returns, or takes the lock again to
    forget them if there are any. *)
Definition after_drain (all : list Target) (k : After) : Pc :=
  match k, all with
  | Af_Return r, _ => Pc_Done r all
  | Af_PhaseC o, [] => Pc_Done (Ret_Observe o) []
  | Af_PhaseC o, _ => Pc_Lock (L_PhaseC all o)
  | Af_Finish o drained, _ => Pc_Done (Ret_Observe o) drained
  end.

(** ** Draining one session *)

(** [state.lock()], poisoned or not; [None] while the call blocks. *)
Definition lock_state (t s : nat) (w : World) : option World :=
  c ← w_cells w !! s;
  match state_holder (c_sync c) with
  | None => Some (upd_sync s (set_holder (Some t)) w)
  | Some _ => None
  end.

Definition unlock_state (s : nat) (w : World) : World := upd_sync s (set_holder None) w.

Definition drain_step (i : nat) (d : DrainPc) (t : Target) (rest all : list Target) (k : After)
    (w : World) : option World :=
  let s := tg_sync t in
  let goto d w := set_pc i (Pc_Drain d t rest all k) w in
  c ← w_cells w !! s;
  let sync := c_sync c in
  match d with
  | D_Lock => goto D_Phase <$> lock_state i s w
  | D_Phase =>
      Some (if bool_decide (ss_phase sync = PHASE_PENDING)
            then goto D_Sleep1 (unlock_state s w) else goto D_Close w)
  | D_Sleep1 => Some (goto D_Relock1 w)                       (* the timeout *)
  | D_Relock1 => goto D_Phase <$> lock_state i s w
  | D_Close => Some (goto D_Readers (upd_sync s (set_phase PHASE_CLOSED) w))
  | D_Readers =>
      Some (if (0 <? active_readers sync)%nat
            then goto D_Sleep3 (unlock_state s w) else goto D_WriterOn w)
  | D_Sleep3 => None                                          (* until it is woken *)
  | D_Relock3 => goto D_Readers <$> lock_state i s w
  | D_WriterOn => Some (goto D_WriterOff (upd_sync s (set_writer_active true) w))
  | D_WriterOff => Some (goto D_Unlock (upd_sync s (set_writer_active false) w))
  | D_Unlock => Some (goto D_Sub (unlock_state s w))
  | D_Sub =>
      Some (set_pc i (Pc_Drained rest all k)
              (upd_sync s (set_intent (writer_intent sync - 1)) w))
  end.

(** ** Forwarding *)

Definition gate_step (i : nat) (g : GatePc) (s : nat) (gen : Z) (adm : option Revision) (w : World)
    : option World :=
  let goto g w := set_pc i (Pc_Gate g s gen adm) w in
  let refuse w := set_pc i (Pc_Done Ret_NoGuard []) w in
  c ← w_cells w !! s;
  let sync := c_sync c in
  match g with
  | G_Live0 => Some (if w_live w then goto G_Gen0 w else refuse w)
  | G_Gen0 => Some (if gen =? w_generation w then goto G_Intent0 w else refuse w)
  | G_Intent0 => Some (if (0 <? writer_intent sync)%nat then refuse w else goto G_Phase0 w)
  | G_Phase0 =>
      Some (if bool_decide (ss_phase sync = PHASE_ACTIVE) then goto G_Lock w else refuse w)
  | G_Lock =>
      w' ← lock_state i s w;
      Some (if state_poisoned sync then goto G_Refuse w' else goto G_Intent1 w')
  | G_Intent1 =>
      Some (if (0 <? writer_intent sync)%nat then goto G_Refuse w
            else set_pc i (Pc_Gate G_WriterActive1 s gen
                             (Some (in_last_known_revision (w_inner w)))) w)
  | G_WriterActive1 => Some (if writer_active sync then goto G_Refuse w else goto G_Phase1 w)
  | G_Phase1 =>
      Some (if bool_decide (ss_phase sync = PHASE_ACTIVE) then goto G_Enter w else goto G_Refuse w)
  | G_Enter => Some (goto G_Unlock (upd_sync s (set_readers (S (active_readers sync))) w))
  | G_Unlock => Some (goto G_Live1 (unlock_state s w))
  | G_Refuse => Some (refuse (unlock_state s w))
  | G_Live1 => Some (if w_live w then goto G_Gen1 w else goto G_DropLock w)
  | G_Gen1 => Some (if gen =? w_generation w then goto G_Guard w else goto G_DropLock w)
  | G_Guard => None                                           (* until it is dropped *)
  | G_DropLock => goto G_Dec <$> lock_state i s w
  | G_Dec =>
      let n := (active_readers sync - 1)%nat in
      let w' := goto G_DropUnlock (upd_sync s (set_readers n) w) in
      Some (if (n =? 0)%nat then notify_all s w' else w')
  | G_DropUnlock => Some (set_pc i (Pc_Done Ret_Drop []) (unlock_state s w))
  end.

(** ** Steps *)

(** One step of the call [i]; [None] when it waits or has returned. *)
Definition run_pc (i : nat) (e : Env) (p : Pc) (w : World) : option World :=
  match p with
  | Pc_Lock op => lock_inner i op w
  | Pc_Body op =>
      let '(data, effects, k) := run_body e w op in
      Some (set_pc i (Pc_Stores effects [] data k) w)
  | Pc_Stores (f :: todo) announced data k =>
      Some (set_pc i (Pc_Stores todo (announced ++ announced_by f) data k) (store f w))
  | Pc_Stores [] announced data k => Some (unlock_inner i announced data k w)
  | Pc_Announce (t :: todo) announced k =>
      Some (set_pc i (Pc_Announce todo (announced ++ [t]) k) (store (Ef_Announce t) w))
  | Pc_Announce [] announced k => Some (set_pc i (Pc_Drained announced announced k) w)
  | Pc_Drain d t rest all k => drain_step i d t rest all k w
  | Pc_Drained (t :: rest) all k => Some (set_pc i (Pc_Drain D_Lock t rest all k) w)
  | Pc_Drained [] all k => Some (set_pc i (after_drain all k) w)
  | Pc_Permit _ _ _ => None
  | Pc_Gate g s gen adm => gate_step i g s gen adm w
  | Pc_Done _ _ => None
  end.

(** A method a caller may start. A gate exists once its session was reserved,
    with the generation of that moment. *)
Inductive Call :=
| Call_Op (op : LockOp)
| Call_Authorize (s : nat).

(** [observe_authority_result] *)
Definition observe_authority_result (r : option RosterSnapshotView) : Call :=
  match r with Some snapshot => Call_Op (L_Observe snapshot) | None => Call_Op L_MarkUnavailable end.

Definition start (c : Call) (w : World) : option Pc :=
  match c with
  | Call_Op (L_RemoveClosedPending _ _ _ | L_PhaseC _ _) => None   (* internal *)
  | Call_Op op => Some (Pc_Lock op)
  | Call_Authorize s => (λ c, Pc_Gate G_Live0 s (c_generation c) None) <$> w_cells w !! s
  end.

Inductive Act :=
| A_Call (c : Call)
| A_Run (i : nat) (e : Env)
| A_CommitAfterAck (i : nat)    (* [PendingSessionAdmission::commit_after_ack] *)
| A_CancelBeforeAck (i : nat)
| A_DropPermit (i : nat)
| A_DropGuard (i : nat)
| A_SpuriousWake (i : nat)
| A_Panic (i : nat)             (* a panic inside a critical section of the registry *)
| A_PoisonState (s : nat).      (* a panic inside one of a session's mutex *)

Definition step (a : Act) (w : World) : option World :=
  match a with
  | A_Call c =>
      (λ p, MkWorld (w_inner w) (w_holder w) (w_poisoned w) (w_live w) (w_generation w)
              (w_cells w) (w_pcs w ++ [p])) <$> start c w
  | A_Run i e => p ← w_pcs w !! i; run_pc i e p w
  | A_CommitAfterAck i =>
      p ← w_pcs w !! i;
      match p with
      | Pc_Permit s _ _ =>
          Some (notify_all s (set_pc i (Pc_Done Ret_Commit [])
                                (upd_sync s (cas_pending PHASE_ACTIVE) w)))
      | _ => None
      end
  | A_CancelBeforeAck i =>
      p ← w_pcs w !! i;
      match p with
      | Pc_Permit s id m_id =>
          Some (notify_all s (set_pc i (Pc_Lock (L_RemoveClosedPending id s m_id))
                                (upd_sync s (cas_pending PHASE_CLOSED) w)))
      | _ => None
      end
  | A_DropPermit i =>
      p ← w_pcs w !! i;
      match p with
      | Pc_Permit s _ _ =>
          Some (notify_all s (set_pc i (Pc_Done Ret_Drop [])
                                (upd_sync s (cas_pending PHASE_CLOSED) w)))
      | _ => None
      end
  | A_DropGuard i =>
      p ← w_pcs w !! i;
      match p with
      | Pc_Gate G_Guard s gen adm => Some (set_pc i (Pc_Gate G_DropLock s gen adm) w)
      | _ => None
      end
  | A_SpuriousWake i =>
      p ← w_pcs w !! i;
      match p with
      | Pc_Drain D_Sleep3 t rest all k => Some (set_pc i (Pc_Drain D_Relock3 t rest all k) w)
      | _ => None
      end
  | A_Panic i =>
      p ← w_pcs w !! i;
      match p with
      | Pc_Body _ | Pc_Stores _ _ _ _ => Some (set_pc i (Pc_Done Ret_Panic []) (poison w))
      | _ => None
      end
  | A_PoisonState s =>
      c ← w_cells w !! s;
      match state_holder (c_sync c) with
      | None => Some (upd_sync s set_poisoned w)
      | Some _ => None
      end
  end.

Inductive wstep : World → World → Prop :=
| wstep_act a w w' : step a w = Some w' → wstep w w'.

Fixpoint run_acts (l : list Act) (w : World) : option World :=
  match l with
  | [] => Some w
  | a :: l => w' ← step a w; run_acts l w'
  end.

Lemma run_acts_rtc l w w' : run_acts l w = Some w' → rtc wstep w w'.
Proof.
  revert w; induction l as [|a l IH]; intros w; cbn; [by intros [= ->]|].
  intros (w1 & Hst & Hr)%bind_Some. eapply rtc_l; [by econstructor|]. auto.
Qed.
