(* ===== verification/RegistryInv.v ===== *)
(** * The mesh session registry: invariants

    The invariants every interleaving of [RegistrySteps] keeps: the counters of
    a [SessionSync] count the calls they stand for, its phase only moves
    forward, and no session the revision in force condemns can be forwarded
    for unless a revoker has announced itself to it. *)

From stdpp Require Import base gmap sets list strings.
From Stdlib Require Import ZArith Lia Ascii.
From S2P Require Import Prelude.
From S2P Require Import RosterView.
From S2P Require Import Registry.
From S2P Require Import RegistrySteps.

Open Scope Z_scope.

(** ** Sums over the calls in progress *)

Section sums.
Context {A : Type} (f : A → nat).

Lemma sum_insert (l : list A) i x y :
  l !! i = Some x →
  (sum_list_with f (<[i := y]> l) + f x = sum_list_with f l + f y)%nat.
Proof.
  revert i. induction l as [|z l IH]; intros [|i] H; simpl in *; [done|done| |].
  - injection H as ->. lia.
  - specialize (IH _ H). lia.
Qed.

Lemma sum_app (l1 l2 : list A) :
  sum_list_with f (l1 ++ l2) = (sum_list_with f l1 + sum_list_with f l2)%nat.
Proof. induction l1; cbn; lia. Qed.

Lemma sum_fmap (g : A → A) (l : list A) :
  (∀ x, f (g x) = f x) → sum_list_with f (g <$> l) = sum_list_with f l.
Proof. intros Hg. induction l as [|x l IH]; cbn; [done|]. by rewrite Hg, IH. Qed.

Lemma sum_elem (l : list A) i x : l !! i = Some x → (f x ≤ sum_list_with f l)%nat.
Proof.
  revert i. induction l as [|z l IH]; intros [|i] H; simpl in *; [done|done| |].
  - injection H as ->. lia.
  - specialize (IH _ H). lia.
Qed.

Lemma sum_pos (l : list A) :
  (0 < sum_list_with f l)%nat → ∃ i x, l !! i = Some x ∧ (0 < f x)%nat.
Proof.
  induction l as [|x l IH]; cbn; [lia|]. intros H. destruct (decide (0 < f x)%nat) as [Hx|Hx].
  - by exists 0%nat, x.
  - destruct IH as (i & y & Hi & Hy); [lia|]. by exists (S i), y.
Qed.

Lemma sum_two (l : list A) i j x y :
  i ≠ j → l !! i = Some x → l !! j = Some y → (f x + f y ≤ sum_list_with f l)%nat.
Proof.
  revert i j. induction l as [|z l IH]; intros [|i] [|j] Hij Hi Hj; simpl in *; try done.
  - injection Hi as ->. pose proof (sum_elem _ _ _ Hj). lia.
  - injection Hj as ->. pose proof (sum_elem _ _ _ Hi). lia.
  - pose proof (IH i j ltac:(congruence) Hi Hj). lia.
Qed.
End sums.

(** ** What a call stands for *)

Definition count_sync (s : nat) (l : list Target) : nat :=
  length (filter (λ t, tg_sync t = s) l).

(** The announcements to [s] the call made and has not taken back. *)
Definition owes (s : nat) (p : Pc) : nat :=
  match p with
  | Pc_Stores _ announced _ _ | Pc_Announce _ announced _ => count_sync s announced
  | Pc_Drain _ t rest _ _ => count_sync s (t :: rest)
  | Pc_Drained rest _ _ => count_sync s rest
  | _ => 0
  end.

(** Whether the call is one of the active readers of [s]. *)
Definition inside (s : nat) (p : Pc) : nat :=
  match p with
  | Pc_Gate (G_Unlock | G_Live1 | G_Gen1 | G_Guard | G_DropLock | G_Dec) s' _ _ =>
      if decide (s' = s) then 1 else 0
  | _ => 0
  end.

Definition permits (s : nat) (p : Pc) : nat :=
  match p with Pc_Permit s' _ _ => if decide (s' = s) then 1 else 0 | _ => 0 end.

Definition holds_state (p : Pc) : option nat :=
  match p with
  | Pc_Drain (D_Phase | D_Close | D_Readers | D_WriterOn | D_WriterOff | D_Unlock) t _ _ _ =>
      Some (tg_sync t)
  | Pc_Gate (G_Intent1 | G_WriterActive1 | G_Phase1 | G_Enter | G_Unlock | G_Refuse | G_Dec
             | G_DropUnlock) s _ _ => Some s
  | _ => None
  end.

Definition holds_inner (p : Pc) : bool :=
  match p with Pc_Body _ | Pc_Stores _ _ _ _ => true | _ => false end.

(** The call has closed [s] and waits for its readers. *)
Definition waits_readers (s : nat) (p : Pc) : bool :=
  match p with
  | Pc_Drain (D_Readers | D_Sleep3 | D_Relock3) t _ _ _ => bool_decide (tg_sync t = s)
  | _ => false
  end.

Lemma count_sync_cons s t l :
  count_sync s (t :: l) = ((if decide (tg_sync t = s) then 1 else 0) + count_sync s l)%nat.
Proof. unfold count_sync. rewrite filter_cons. by case_decide. Qed.

Lemma count_sync_app s l1 l2 : count_sync s (l1 ++ l2) = (count_sync s l1 + count_sync s l2)%nat.
Proof. unfold count_sync. by rewrite filter_app, length_app. Qed.

(** ** Facts about one session *)

Definition cell_at (w : World) (s : nat) (P : Cell → Prop) : Prop :=
  ∃ c, w_cells w !! s = Some c ∧ P c.

Definition phase_of (c : Cell) : Phase := ss_phase (c_sync c).
Definition intent_of (c : Cell) : nat := writer_intent (c_sync c).
Definition readers_of (c : Cell) : nat := active_readers (c_sync c).

Definition is_closed (c : Cell) : Prop := phase_of c = PHASE_CLOSED.
Definition is_drained (c : Cell) : Prop := phase_of c = PHASE_CLOSED ∧ readers_of c = 0%nat.

Definition target_ok (w : World) (t : Target) : Prop :=
  cell_at w (tg_sync t) (λ c, c_id c = tg_id t).

Definition target_drained (w : World) (t : Target) : Prop :=
  cell_at w (tg_sync t) (λ c, c_id c = tg_id t ∧ is_drained c).

(** The revision [r] allows the session. *)
Definition allowed (c : Cell) (r : Revision) : Prop :=
  should_revoke (c_m_id c) (c_fingerprint c) r = false.

(** No gate of the session can pass both of the last two checks again. *)
Definition doomed (w : World) (c : Cell) : Prop :=
  c_generation c < w_generation w ∨ in_mode (w_inner w) = Unavailable ∧ w_live w = false.

(** [inner] tracks the session of the cell at [s]. *)
Definition tracks (i : Inner) (s : nat) (c : Cell) : Prop :=
  ∃ sessions by_machine e, in_mode i = Live sessions by_machine ∧
    sessions !! c_id c = Some e ∧ se_sync e = s.

Definition entry_of (e : SessionEntry) (id : SessionId) (c : Cell) : Prop :=
  c_id c = id ∧ c_m_id c = se_m_id e ∧ c_fingerprint c = se_machine_cert_fingerprint e.

(** Every entry belongs to the cell it names. *)
Definition entries_ok (cells : list Cell) (i : Inner) : Prop :=
  match in_mode i with
  | Unavailable => True
  | Live sessions by_machine =>
      Indexed sessions by_machine ∧
      ∀ id e, sessions !! id = Some e → ∃ c, cells !! se_sync e = Some c ∧ entry_of e id c
  end.

Definition is_live (i : Inner) : bool := negb (is_unavailable i).

(** Every session of the current generation that can still be forwarded for
    and has no announced revoker is tracked, and allowed by the revision;
    [except] are about to be announced to. *)
Definition enforced (w : World) (i : Inner) (except : list Target) : Prop :=
  is_live i = true → ∀ s c, w_cells w !! s = Some c → c_generation c = w_generation w →
  intent_of c = 0%nat → ¬ is_closed c →
  (∃ t, t ∈ except ∧ tg_sync t = s) ∨ tracks i s c ∧ allowed c (in_last_known_revision i).

Definition announcements (l : list Effect) : list Target := l ≫= announced_by.

(** All sessions there are belong to an earlier generation. *)
Definition bumped (w : World) : Prop :=
  ∀ s c, w_cells w !! s = Some c → c_generation c < w_generation w.

(** ** Facts about one call *)

Inductive StoresOk (w : World) (todo : list Effect) (data : Inner) (k : Next) : Prop :=
| so_recover :                           (* [Unavailable] to [Live] *)
    is_live (w_inner w) = false → in_mode data = Live ∅ ∅ →
    in_next_session_id data = in_next_session_id (w_inner w) →
    (∃ k', k = revoke_then k') →
    todo = [Ef_StoreGeneration (w_generation w + 1); Ef_StoreLive true] ∨
      bumped w ∧ (todo = [Ef_StoreLive true] ∨ todo = []) →
    StoresOk w todo data k
| so_other :
    Forall (λ f, f = Ef_StoreLive false ∨ ∃ t, f = Ef_Announce t) todo →
    (is_live (w_inner w) = false → is_live data = false) →
    (is_live data = false → w_live w = false ∨ bumped w ∨ Ef_StoreLive false ∈ todo) →
    enforced w data (announcements todo) →
    match k with
    | Nx_Revoke _ _ => entries_ok (w_cells w) data ∧
        in_next_session_id data = in_next_session_id (w_inner w)
    | Nx_Permit c =>
        entries_ok (w_cells w ++ [c]) data ∧ is_live data = true ∧
        in_next_session_id (w_inner w) < c_id c ∧ c_id c = in_next_session_id data ∧
        c_sync c = new_pending ∧ c_generation c = w_generation w ∧
        tracks data (length (w_cells w)) c ∧ allowed c (in_last_known_revision data)
    end →
    StoresOk w todo data k.

Definition op_ok (w : World) (op : LockOp) : Prop :=
  match op with
  | L_RemoveClosedPending id s m_id =>
      cell_at w s (λ c, c_id c = id ∧ c_m_id c = m_id ∧ is_closed c)
  | L_PhaseC to_revoke _ => Forall (target_drained w) to_revoke
  | _ => True
  end.

Definition after_ok (w : World) (k : After) : Prop :=
  match k with Af_Finish _ drained => Forall (target_drained w) drained | _ => True end.

Definition drain_ok (w : World) (d : DrainPc) (s : nat) : Prop :=
  match d with
  | D_Close => cell_at w s (λ c, phase_of c ≠ PHASE_PENDING)
  | D_Readers | D_Sleep3 | D_Relock3 => cell_at w s is_closed
  | D_WriterOn | D_WriterOff | D_Unlock | D_Sub => cell_at w s is_drained
  | _ => True
  end.

Definition gate_ok (w : World) (g : GatePc) (adm : option Revision) (c : Cell) : Prop :=
  match g with
  | G_WriterActive1 | G_Phase1 =>
      ∃ r, adm = Some r ∧ (is_closed c ∨ doomed w c ∨ allowed c r)
  | G_Enter => phase_of c = PHASE_ACTIVE ∧ ∃ r, adm = Some r ∧ (doomed w c ∨ allowed c r)
  | G_Unlock | G_Live1 => ∃ r, adm = Some r ∧ (doomed w c ∨ allowed c r)
  | G_Gen1 => ∃ r, adm = Some r ∧ (c_generation c < w_generation w ∨ allowed c r)
  | G_Guard => ∃ r, adm = Some r ∧ allowed c r
  | _ => True
  end.

Definition drained_or (w : World) (todo all : list Target) : Prop :=
  Forall (λ t, t ∈ todo ∨ target_drained w t) all.

Definition pc_ok (w : World) (p : Pc) : Prop :=
  match p with
  | Pc_Lock op | Pc_Body op => op_ok w op
  | Pc_Stores todo announced data k =>
      StoresOk w todo data k ∧ Forall (target_ok w) announced ∧
      Forall (target_ok w) (announcements todo) ∧
      match k with
      | Nx_Permit _ => todo = [] ∧ announced = []
      | Nx_Revoke later k => Forall (target_ok w) later ∧ after_ok w k
      end
  | Pc_Announce todo announced k =>
      Forall (target_ok w) todo ∧ Forall (target_ok w) announced ∧ after_ok w k
  | Pc_Drain d t rest all k =>
      Forall (target_ok w) (t :: rest) ∧ drained_or w (t :: rest) all ∧
      drain_ok w d (tg_sync t) ∧ after_ok w k
  | Pc_Drained rest all k =>
      Forall (target_ok w) rest ∧ drained_or w rest all ∧ after_ok w k
  | Pc_Permit s id m_id => cell_at w s (λ c, c_id c = id ∧ c_m_id c = m_id)
  | Pc_Gate g s gen adm => cell_at w s (λ c, c_generation c = gen ∧ gate_ok w g adm c)
  | Pc_Done _ drained => Forall (target_drained w) drained
  end.

(** ** The invariant *)

Record CellInv (w : World) (s : nat) (c : Cell) : Prop := {
  ci_owes : (sum_list_with (owes s) (w_pcs w) ≤ intent_of c)%nat;
  ci_exact : w_poisoned w = false → sum_list_with (owes s) (w_pcs w) = intent_of c;
  ci_readers : sum_list_with (inside s) (w_pcs w) = readers_of c;
  ci_permits : sum_list_with (permits s) (w_pcs w) =
               (if decide (phase_of c = PHASE_PENDING) then 1 else 0)%nat;
  ci_holder : ∀ i, state_holder (c_sync c) = Some i ↔
                   ∃ p, w_pcs w !! i = Some p ∧ holds_state p = Some s;
  ci_pending : phase_of c = PHASE_PENDING → readers_of c = 0%nat;
  ci_waits : is_closed c → (0 < readers_of c)%nat →
             ∃ i p, w_pcs w !! i = Some p ∧ waits_readers s p = true;
  ci_id : c_id c ≤ in_next_session_id (w_inner w);
  ci_generation : c_generation c ≤ w_generation w;
}.

Record Inv (w : World) : Prop := {
  iv_cells : ∀ s c, w_cells w !! s = Some c → CellInv w s c;
  iv_pcs : ∀ i p, w_pcs w !! i = Some p → pc_ok w p;
  iv_holder : ∀ i, w_holder w = Some i ↔ ∃ p, w_pcs w !! i = Some p ∧ holds_inner p = true;
  iv_ids : ∀ s1 s2 c1 c2, w_cells w !! s1 = Some c1 → w_cells w !! s2 = Some c2 →
           c_id c1 = c_id c2 → s1 = s2;
  iv_entries : entries_ok (w_cells w) (w_inner w);
  iv_enforced : enforced w (w_inner w) [];
  iv_unavailable : is_live (w_inner w) = false → w_live w = false ∨ bumped w;
  iv_poisoned : w_poisoned w = true → w_holder w = None ∧ w_live w = false;
}.

(** ** Steps of other calls *)

Definition same_birth (c c' : Cell) : Prop :=
  c_id c' = c_id c ∧ c_m_id c' = c_m_id c ∧ c_fingerprint c' = c_fingerprint c ∧
  c_generation c' = c_generation c.

(** What a step of another call may do to a session, as far as call [j] can
    tell; [j] is protected while it holds the mutex. *)
Record SyncEv (j : nat) (c c' : SessionSync) : Prop := {
  se_closed : ss_phase c = PHASE_CLOSED → ss_phase c' = PHASE_CLOSED;
  se_unpending : ss_phase c ≠ PHASE_PENDING → ss_phase c' ≠ PHASE_PENDING;
  se_drained : ss_phase c = PHASE_CLOSED → active_readers c = 0%nat → active_readers c' = 0%nat;
  se_locked : state_holder c = Some j → ss_phase c = PHASE_ACTIVE → ss_phase c' = PHASE_ACTIVE;
  se_intent : writer_intent c' = 0%nat → ss_phase c' ≠ PHASE_CLOSED → writer_intent c = 0%nat;
}.

Lemma sync_ev_refl j c : SyncEv j c c.
Proof. by split. Qed.

Record Evolves (j : nat) (w w' : World) : Prop := {
  ev_cells : ∀ s c, w_cells w !! s = Some c →
    ∃ c', w_cells w' !! s = Some c' ∧ same_birth c c' ∧ SyncEv j (c_sync c) (c_sync c');
  ev_generation : w_generation w ≤ w_generation w';
  ev_doomed : ∀ s c, w_cells w !! s = Some c → doomed w c → doomed w' c;
  ev_holder : w_holder w = Some j →
    w_inner w' = w_inner w ∧ w_generation w' = w_generation w ∧ w_live w' = w_live w ∧
    length (w_cells w') = length (w_cells w);
}.

Lemma doomed_birth w c c' : same_birth c c' → doomed w c → doomed w c'.
Proof. intros (_ & _ & _ & Hg). unfold doomed. by rewrite Hg. Qed.

Lemma allowed_birth c c' r : same_birth c c' → allowed c r → allowed c' r.
Proof. intros (_ & Hm & Hf & _). unfold allowed. by rewrite Hm, Hf. Qed.

Section evolves.
Context (j : nat) (w w' : World) (Hev : Evolves j w w').

Lemma cell_at_evolves s (P Q : Cell → Prop) :
  (∀ c c', same_birth c c' → SyncEv j (c_sync c) (c_sync c') →
    w_cells w !! s = Some c → P c → Q c') → cell_at w s P → cell_at w' s Q.
Proof.
  intros HPQ (c & Hc & HP). destruct (ev_cells _ _ _ Hev _ _ Hc) as (c' & Hc' & Hb & Hs).
  exists c'. eauto.
Qed.

Lemma target_ok_evolves t : target_ok w t → target_ok w' t.
Proof. apply cell_at_evolves. intros c c' (-> & _) _ _. done. Qed.

Lemma drained_evolves c c' : SyncEv j (c_sync c) (c_sync c') → is_drained c → is_drained c'.
Proof. intros [] []. split; unfold phase_of, readers_of in *; eauto. Qed.

Lemma target_drained_evolves t : target_drained w t → target_drained w' t.
Proof.
  apply cell_at_evolves. intros c c' (-> & _) Hs _ [? Hd]. by eauto using drained_evolves.
Qed.

Lemma targets_ok_evolves l : Forall (target_ok w) l → Forall (target_ok w') l.
Proof. intros H. eapply Forall_impl; [exact H|]. apply target_ok_evolves. Qed.

Lemma targets_drained_evolves l : Forall (target_drained w) l → Forall (target_drained w') l.
Proof. intros H. eapply Forall_impl; [exact H|]. apply target_drained_evolves. Qed.

Lemma drained_or_evolves todo all : drained_or w todo all → drained_or w' todo all.
Proof.
  intros H. eapply Forall_impl; [exact H|]. cbn. intros t [?|?]; [by left|].
  right. by apply target_drained_evolves.
Qed.

Lemma op_ok_evolves op : op_ok w op → op_ok w' op.
Proof.
  destruct op; cbn; try done; [|apply targets_drained_evolves].
  apply cell_at_evolves. intros c c' (-> & -> & _) [] _ (? & ? & ?). unfold is_closed, phase_of in *. auto.
Qed.

Lemma after_ok_evolves k : after_ok w k → after_ok w' k.
Proof. destruct k; cbn; try done. apply targets_drained_evolves. Qed.

Lemma drain_ok_evolves d s : drain_ok w d s → drain_ok w' d s.
Proof.
  destruct d; cbn; try done; apply cell_at_evolves; intros c c' _ Hs _ ?;
    unfold is_closed, phase_of in *; eauto using drained_evolves, se_closed, se_unpending.
Qed.

Lemma gate_ok_evolves g adm s c c' :
  same_birth c c' → SyncEv j (c_sync c) (c_sync c') → w_cells w !! s = Some c →
  (g = G_Enter → state_holder (c_sync c) = Some j) →
  gate_ok w g adm c → gate_ok w' g adm c'.
Proof.
  intros Hb Hs Hc Hh. pose proof (ev_generation _ _ _ Hev).
  assert (doomed w c → doomed w' c') as Hd.
  { intros. eapply doomed_birth; [done|]. by eapply ev_doomed. }
  assert (∀ r, allowed c r → allowed c' r) as Ha by (intros; by eapply allowed_birth).
  destruct g; cbn; try done; unfold is_closed, phase_of in *; destruct Hs as [Hcl _ _ Hlk _].
  1-2: intros (r & -> & [?|[?|?]]); exists r; naive_solver.
  1: intros (? & r & -> & ?); (split; [by apply Hlk; [apply Hh|]|]); exists r; naive_solver.
  1-2: intros (r & -> & [?|?]); exists r; naive_solver.
  1: intros (r & -> & [?|?]); exists r; (split; [done|]);
    [left; destruct Hb as (_ & _ & _ & ->); lia|right; by auto].
  intros (r & -> & ?). exists r. auto.
Qed.

Lemma enforced_evolves data except :
  w_generation w' = w_generation w → length (w_cells w') = length (w_cells w) →
  enforced w data except → enforced w' data except.
Proof.
  intros Hg Hlen He Hl s c' Hc' Hgen Hi Hncl.
  assert (is_Some (w_cells w !! s)) as [c Hc].
  { apply lookup_lt_is_Some. rewrite <-Hlen. by eapply lookup_lt_Some. }
  destruct (ev_cells _ _ _ Hev _ _ Hc) as (c2 & Hc2 & Hb & Hs).
  assert (c2 = c') as -> by congruence.
  destruct (He Hl s c Hc) as [?|[(ss & bm & e & Hm & He' & Hse) Hall]].
  - destruct Hb as (_ & _ & _ & Hgb). congruence.
  - by eapply (se_intent _ _ _ Hs).
  - intros Hcl. by apply Hncl, (se_closed _ _ _ Hs).
  - by left.
  - right. split; [|by eapply allowed_birth]. exists ss, bm, e. split_and!; [done| |done].
    destruct Hb as (-> & _). done.
Qed.

Lemma entries_ok_evolves extra data :
  entries_ok (w_cells w ++ extra) data → length (w_cells w') = length (w_cells w) →
  entries_ok (w_cells w' ++ extra) data.
Proof.
  unfold entries_ok. destruct (in_mode data); [|done]. intros [Hi He] Hlen. split; [done|].
  intros id e Hid. destruct (He _ _ Hid) as (c & Hc & Hent).
  apply lookup_app_Some in Hc as [Hc|[Hge Hc]].
  - destruct (ev_cells _ _ _ Hev _ _ Hc) as (c' & Hc' & (H1 & H2 & H3 & _) & _). exists c'.
    split; [by apply lookup_app_l_Some|]. unfold entry_of in *. by rewrite H1, H2, H3.
  - exists c. split; [|done]. rewrite lookup_app_r by lia. by rewrite Hlen.
Qed.

Lemma bumped_evolves : length (w_cells w') = length (w_cells w) → bumped w → bumped w'.
Proof.
  intros Hlen Hb s c' Hc'. assert (is_Some (w_cells w !! s)) as [c Hc].
  { apply lookup_lt_is_Some. rewrite <-Hlen. by eapply lookup_lt_Some. }
  destruct (ev_cells _ _ _ Hev _ _ Hc) as (c2 & Hc2 & (_ & _ & _ & Hg) & _).
  specialize (Hb _ _ Hc). pose proof (ev_generation _ _ _ Hev). assert (c2 = c') as -> by congruence.
  lia.
Qed.

Lemma stores_ok_evolves todo data k :
  w_holder w = Some j → StoresOk w todo data k → StoresOk w' todo data k.
Proof.
  intros Hh. destruct (ev_holder _ _ _ Hev Hh) as (Hi & Hg & Hl & Hlen).
  intros [Hm Hd Hn Hk Ht|Ht Hm Hd He Hk].
  - apply so_recover; rewrite ?Hi, ?Hg; try done.
    destruct Ht as [?|[? ?]]; [by left|right]. by eauto using bumped_evolves.
  - apply so_other; rewrite ?Hi, ?Hg, ?Hl; try done.
    + intros Hd'. destruct (Hd Hd') as [?|[?|?]]; eauto using bumped_evolves.
    + by apply enforced_evolves.
    + destruct k as [c|later k].
      * rewrite Hlen. destruct Hk as [Hent Hk]. split; [|done]. by apply entries_ok_evolves.
      * destruct Hk as [Hent Hn]. split; [|done]. rewrite <-(app_nil_r (w_cells w')).
        apply entries_ok_evolves; [|done]. by rewrite app_nil_r.
Qed.

Lemma pc_ok_evolves p :
  (holds_inner p = true → w_holder w = Some j) →
  (∀ s c, holds_state p = Some s → w_cells w !! s = Some c → state_holder (c_sync c) = Some j) →
  pc_ok w p → pc_ok w' p.
Proof.
  intros Hhi Hhs. destruct p as [op|op|todo ann data k|todo ann k|d t rest all k|rest all k|s id m|
    g s gen adm|r dr]; cbn.
  - apply op_ok_evolves.
  - apply op_ok_evolves.
  - intros (Hst & ? & ? & Hk). split_and!; [|by apply targets_ok_evolves..|].
    + apply stores_ok_evolves; auto.
    + destruct k; [done|]. destruct Hk. split; auto using targets_ok_evolves, after_ok_evolves.
  - intros (? & ? & ?). split_and!; auto using targets_ok_evolves, after_ok_evolves.
  - intros (? & ? & ? & ?).
    split_and!; auto using targets_ok_evolves, after_ok_evolves, drained_or_evolves, drain_ok_evolves.
  - intros (? & ? & ?). split_and!; auto using targets_ok_evolves, after_ok_evolves, drained_or_evolves.
  - apply cell_at_evolves. intros c c' (-> & -> & _) _ _. done.
  - apply cell_at_evolves. intros c c' Hb Hs Hc [Hg Hok]. split.
    + by destruct Hb as (_ & _ & _ & ->).
    + eapply gate_ok_evolves; [done..| |done]. intros ->. by eapply Hhs.
  - apply targets_drained_evolves.
Qed.
End evolves.
