(* ===== verification/RegistryPreserve.v ===== *)
(** * The mesh session registry: every step keeps the invariants

    Preservation of [RegistryInv]'s invariant: first the steps that touch one
    session (draining, forwarding, permits), then the registry lock. *)

From stdpp Require Import base gmap sets list strings.
From Stdlib Require Import ZArith Lia Ascii.
From S2P Require Import Prelude.
From S2P Require Import RosterView.
From S2P Require Import Registry.
From S2P Require Import RegistrySteps.
From S2P Require Import RegistryInv.

Open Scope Z_scope.

(** ** Steps that touch one session *)

Definition pending_nat (c : SessionSync) : nat :=
  if decide (ss_phase c = PHASE_PENDING) then 1 else 0.

(** Call [i] moves from [p] to [p'] and takes the state of session [s] from [c]
    to [c'], keeping the counts. *)
Record LocalStep (i : nat) (p p' : Pc) (s : nat) (c c' : SessionSync) : Prop := {
  ls_other : ∀ x, x ≠ s → owes x p' = owes x p ∧ inside x p' = inside x p ∧
             permits x p' = permits x p ∧ (holds_state p' = Some x ↔ holds_state p = Some x) ∧
             waits_readers x p' = waits_readers x p;
  ls_inner : holds_inner p' = holds_inner p;
  ls_owes : (owes s p' + writer_intent c = writer_intent c' + owes s p)%nat;
  ls_inside : (inside s p' + active_readers c = active_readers c' + inside s p)%nat;
  ls_permits : (permits s p' + pending_nat c = pending_nat c' + permits s p)%nat;
  ls_holder : ∀ j, j ≠ i → state_holder c' = Some j ↔ state_holder c = Some j;
  ls_held : state_holder c' = Some i ↔ holds_state p' = Some s;
  ls_pending : ss_phase c' = PHASE_PENDING → active_readers c' = 0%nat;
  ls_waits : ss_phase c' = PHASE_CLOSED → (0 < active_readers c')%nat →
    waits_readers s p' = true ∨
    ss_phase c = PHASE_CLOSED ∧ (0 < active_readers c)%nat ∧ waits_readers s p = false;
  ls_ev : ∀ j, j ≠ i → SyncEv j c c';
}.

Lemma lookup_upd_sync w s f x :
  w_cells (upd_sync s f w) !! x =
  if decide (x = s) then on_sync f <$> w_cells w !! s else w_cells w !! x.
Proof.
  cbn. case_decide; subst.
  - by rewrite list_lookup_alter_eq.
  - by rewrite list_lookup_alter_ne.
Qed.

Lemma upd_sync_id s w : upd_sync s id w = w.
Proof.
  destruct w. unfold upd_sync. cbn. f_equal. apply list_eq. intros x.
  destruct (decide (x = s)) as [->|].
  - rewrite list_lookup_alter_eq. by destruct (_ !! s) as [[]|].
  - by rewrite list_lookup_alter_ne.
Qed.

Section local.
Context (w : World) (i : nat) (p p' : Pc) (s : nat) (c : Cell) (f : SessionSync → SessionSync).
Context (HI : Inv w) (Hp : w_pcs w !! i = Some p) (Hc : w_cells w !! s = Some c).
Context (HL : LocalStep i p p' s (c_sync c) (f (c_sync c))).

Let w' := set_pc i p' (upd_sync s f w).

Lemma local_cells x cx :
  w_cells w' !! x = Some cx →
  x = s ∧ cx = on_sync f c ∨ x ≠ s ∧ w_cells w !! x = Some cx.
Proof.
  unfold w'. change (w_cells (set_pc _ _ ?u)) with (w_cells u). rewrite lookup_upd_sync.
  case_decide as Hx; [|by right]. rewrite Hc. cbn. intros [= <-]. by left.
Qed.

Lemma local_pcs j q : w_pcs w' !! j = Some q → j = i ∧ q = p' ∨ j ≠ i ∧ w_pcs w !! j = Some q.
Proof.
  cbn. intros [(-> & <- & ?)|[? ?]]%list_lookup_insert_Some; [by left|right].
  split; [congruence|done].
Qed.

Lemma local_pcs_self : w_pcs w' !! i = Some p'.
Proof. cbn. rewrite list_lookup_insert_eq; [done|]. by eapply lookup_lt_Some. Qed.

Lemma local_pcs_other j : j ≠ i → w_pcs w' !! j = w_pcs w !! j.
Proof. intros. cbn. by rewrite list_lookup_insert_ne. Qed.

Lemma local_evolves j : j ≠ i → Evolves j w w'.
Proof.
  intros Hj. split.
  - intros x cx Hx. unfold w'. change (w_cells (set_pc _ _ ?u)) with (w_cells u).
    rewrite lookup_upd_sync. case_decide as Hd.
    + subst. rewrite Hc. cbn. assert (cx = c) as -> by congruence. exists (on_sync f c).
      split_and!; [done|done|]. by apply HL.
    + exists cx. split_and!; [done|done|]. apply sync_ev_refl.
  - done.
  - done.
  - intros _. split_and!; try done. unfold w'. cbn. by rewrite length_alter.
Qed.

Lemma sum_local (g : Pc → nat) :
  (sum_list_with g (w_pcs w') + g p = sum_list_with g (w_pcs w) + g p')%nat.
Proof. unfold w'. cbn. by apply sum_insert. Qed.

Lemma local_cell_self : CellInv w' s (on_sync f c).
Proof.
  destruct (iv_cells _ HI _ _ Hc) as [C1 C1' C2 C3 C4 C5 C6 C7 C8].
  destruct HL as [_ _ L3 L4 L5 L6 L7 L8 L9 _].
  pose proof (sum_local (owes s)). pose proof (sum_local (inside s)).
  pose proof (sum_local (permits s)).
  unfold intent_of, readers_of, phase_of, pending_nat in *.
  split; unfold intent_of, readers_of, phase_of; try done; cbn [on_sync c_sync].
  - lia.
  - intros Hpo. specialize (C1' Hpo). lia.
  - lia.
  - lia.
  - intros j. destruct (decide (j = i)) as [->|Hj].
    + rewrite L7, local_pcs_self. naive_solver.
    + by rewrite L6, C4, local_pcs_other by done.
  - intros Hcl Hr. destruct (L9 Hcl Hr) as [Hw|(Hcl0 & Hr0 & Hnw)].
    + exists i, p'. by rewrite local_pcs_self.
    + destruct (C6 Hcl0 Hr0) as (j & q & Hq & Hwq). exists j, q. split; [|done].
      rewrite local_pcs_other; [done|]. intros ->. congruence.
Qed.

Lemma local_cell_other x cx : x ≠ s → w_cells w !! x = Some cx → CellInv w' x cx.
Proof.
  intros Hx Hcx. destruct (iv_cells _ HI _ _ Hcx) as [C1 C1' C2 C3 C4 C5 C6 C7 C8].
  destruct (ls_other _ _ _ _ _ _ HL x Hx) as (O1 & O2 & O3 & O4 & O5).
  pose proof (sum_local (owes x)). pose proof (sum_local (inside x)).
  pose proof (sum_local (permits x)).
  split; try done.
  - lia.
  - intros Hpo. specialize (C1' Hpo). lia.
  - lia.
  - lia.
  - intros j. rewrite C4. destruct (decide (j = i)) as [->|Hj].
    + rewrite local_pcs_self, Hp. naive_solver.
    + by rewrite local_pcs_other.
  - intros Hcl Hr. destruct (C6 Hcl Hr) as (j & q & Hq & Hwq).
    destruct (decide (j = i)) as [->|Hj].
    + exists i, p'. rewrite local_pcs_self. split; [done|]. congruence.
    + exists j, q. by rewrite local_pcs_other.
Qed.

Lemma inv_local : pc_ok w' p' → Inv w'.
Proof.
  intros Hok'. pose proof HI as [I1 I2 I3 I4 I5 I6 I7 I8]. split; try done.
  - intros x cx [[-> ->]|[? ?]]%local_cells; [apply local_cell_self|by apply local_cell_other].
  - intros j q [[-> ->]|[Hj Hq]]%local_pcs; [done|].
    eapply pc_ok_evolves; [by apply local_evolves| | |by eapply I2].
    + intros Hh. apply I3. eauto.
    + intros x cx Hh Hx. apply (ci_holder _ _ _ (I1 _ _ Hx)). eauto.
  - intros j. change (w_holder w') with (w_holder w). rewrite I3.
    destruct (decide (j = i)) as [->|Hj].
    + rewrite local_pcs_self, Hp. pose proof (ls_inner _ _ _ _ _ _ HL). naive_solver congruence.
    + by rewrite local_pcs_other.
  - intros s1 s2 c1 c2 [[-> ->]|[? H1]]%local_cells [[-> ->]|[? H2]]%local_cells Hid; try done.
    + by eapply I4.
    + by eapply I4.
    + by eapply I4.
  - rewrite <-(app_nil_r (w_cells w')). eapply (entries_ok_evolves (S i) w); [by apply local_evolves; lia| |].
    + rewrite app_nil_r. done.
    + unfold w'. cbn. by rewrite length_alter.
  - eapply (enforced_evolves (S i) w); try done; [by apply local_evolves; lia|].
    unfold w'. cbn. by rewrite length_alter.
  - intros Hm. destruct (I7 Hm) as [?|?]; [by left|right].
    eapply (bumped_evolves (S i) w); [by apply local_evolves; lia| |done].
    unfold w'. cbn. by rewrite length_alter.
Qed.
End local.

Lemma lock_state_Some i s w w' :
  lock_state i s w = Some w' ↔
  ∃ c, w_cells w !! s = Some c ∧ state_holder (c_sync c) = None ∧
       w' = upd_sync s (set_holder (Some i)) w.
Proof.
  unfold lock_state. split.
  - intros (c & Hc & H)%bind_Some. exists c. destruct (state_holder (c_sync c)); [done|].
    by injection H as <-.
  - intros (c & -> & Hh & ->). cbn. by rewrite Hh.
Qed.

(** The mutex of the session is held by exactly the call that says so. *)
Lemma inv_held w i p s c :
  Inv w → w_pcs w !! i = Some p → w_cells w !! s = Some c → holds_state p = Some s →
  state_holder (c_sync c) = Some i.
Proof. intros HI Hp Hc Hh. apply (ci_holder _ _ _ (iv_cells _ HI _ _ Hc)). eauto. Qed.

Lemma inv_not_held w i p s c :
  Inv w → w_pcs w !! i = Some p → w_cells w !! s = Some c → holds_state p ≠ Some s →
  state_holder (c_sync c) ≠ Some i.
Proof.
  intros HI Hp Hc Hh (q & Hq & Hs)%(ci_holder _ _ _ (iv_cells _ HI _ _ Hc)). congruence.
Qed.

Lemma count_sync_other s t l : tg_sync t ≠ s → count_sync s (t :: l) = count_sync s l.
Proof. intros. rewrite count_sync_cons, decide_False by done. done. Qed.

Lemma count_sync_self t l : count_sync (tg_sync t) (t :: l) = S (count_sync (tg_sync t) l).
Proof. rewrite count_sync_cons, decide_True by done. done. Qed.

Lemma drain_holds_other d t rest all k x :
  x ≠ tg_sync t → holds_state (Pc_Drain d t rest all k) ≠ Some x.
Proof. intros Hx. destruct d; cbn; congruence. Qed.

Lemma drain_waits_other d t rest all k x :
  x ≠ tg_sync t → waits_readers x (Pc_Drain d t rest all k) = false.
Proof. intros Hx. destruct d; cbn; try done; by rewrite bool_decide_false. Qed.

Lemma gate_other g s gen adm x :
  x ≠ s → inside x (Pc_Gate g s gen adm) = 0%nat ∧ holds_state (Pc_Gate g s gen adm) ≠ Some x.
Proof. intros Hx. destruct g; cbn; rewrite ?decide_False by done; (split; [done|congruence]). Qed.

(** Between two program counters of one drain. *)
Lemma drain_local i d d' t rest all k c c' :
  writer_intent c' = writer_intent c → active_readers c' = active_readers c →
  pending_nat c' = pending_nat c →
  (∀ j, j ≠ i → state_holder c' = Some j ↔ state_holder c = Some j) →
  (state_holder c' = Some i ↔ holds_state (Pc_Drain d' t rest all k) = Some (tg_sync t)) →
  (ss_phase c' = PHASE_PENDING → active_readers c' = 0%nat) →
  (ss_phase c' = PHASE_CLOSED → (0 < active_readers c')%nat →
    waits_readers (tg_sync t) (Pc_Drain d' t rest all k) = true ∨
    ss_phase c = PHASE_CLOSED ∧ waits_readers (tg_sync t) (Pc_Drain d t rest all k) = false) →
  (∀ j, j ≠ i → SyncEv j c c') →
  LocalStep i (Pc_Drain d t rest all k) (Pc_Drain d' t rest all k) (tg_sync t) c c'.
Proof.
  intros H1 H2 H3 H4 H5 H6 H7 H8. split; try done.
  - intros x Hx. rewrite !drain_waits_other by done. split_and!; try done.
    split; intros H; exfalso; by eapply drain_holds_other.
  - rewrite H1. cbn [owes]. lia.
  - cbn. lia.
  - cbn. lia.
  - intros Hcl Hr. destruct (H7 Hcl Hr) as [?|[? ?]]; [by left|right]. rewrite H2 in Hr. done.
Qed.

(** From one program counter of a gate to another. *)
Lemma gate_local i g g' s gen adm adm' c c' :
  writer_intent c' = writer_intent c →
  (inside s (Pc_Gate g' s gen adm') + active_readers c =
   active_readers c' + inside s (Pc_Gate g s gen adm))%nat →
  ss_phase c' = ss_phase c →
  (∀ j, j ≠ i → state_holder c' = Some j ↔ state_holder c = Some j) →
  (state_holder c' = Some i ↔ holds_state (Pc_Gate g' s gen adm') = Some s) →
  (active_readers c' ≤ active_readers c ∨ ss_phase c = PHASE_ACTIVE)%nat →
  (ss_phase c = PHASE_PENDING → active_readers c = 0%nat) →
  LocalStep i (Pc_Gate g s gen adm) (Pc_Gate g' s gen adm') s c c'.
Proof.
  intros H1 H2 H3 H4 H5 H6 H7. split; try done; unfold pending_nat; rewrite ?H3.
  - intros x Hx. destruct (gate_other g s gen adm x Hx) as [-> ?].
    destruct (gate_other g' s gen adm' x Hx) as [-> ?]. split_and!; done.
  - rewrite H1. cbn [owes]. lia.
  - done.
  - intros Hp. destruct H6 as [?|?]; [|congruence]. specialize (H7 Hp). lia.
  - intros Hcl Hr. right. split_and!; [done|destruct H6; [lia|congruence]|done].
  - intros j Hj. split; rewrite ?H3, ?H1; try done. intros Hcl Hz.
    destruct H6 as [?|?]; [lia|congruence].
Qed.

(** [drain_ok] and what else a session's state alone decides, on the cell. *)
Definition drain_cell (d : DrainPc) (c : SessionSync) : Prop :=
  match d with
  | D_Close => ss_phase c ≠ PHASE_PENDING
  | D_Readers | D_Sleep3 | D_Relock3 => ss_phase c = PHASE_CLOSED
  | D_WriterOn | D_WriterOff | D_Unlock | D_Sub =>
      ss_phase c = PHASE_CLOSED ∧ active_readers c = 0%nat
  | _ => True
  end.

Lemma drain_cell_ok w d s c : w_cells w !! s = Some c → drain_cell d (c_sync c) → drain_ok w d s.
Proof. intros Hc Hd. destruct d; cbn in *; try done; exists c; done. Qed.

Lemma drain_ok_cell w d s c : w_cells w !! s = Some c → drain_ok w d s → drain_cell d (c_sync c).
Proof.
  intros Hc Hd. destruct d; cbn in *; try done; destruct Hd as (c' & Hc' & Hd);
    assert (c' = c) as -> by congruence; done.
Qed.

Lemma upd_sync_self w i p s c f :
  w_cells w !! s = Some c → w_cells (set_pc i p (upd_sync s f w)) !! s = Some (on_sync f c).
Proof.
  intros Hc. change (w_cells (set_pc _ _ ?u)) with (w_cells u).
  by rewrite lookup_upd_sync, decide_True, Hc.
Qed.

Lemma inv_drain w i d d' t rest all k c f :
  Inv w → w_pcs w !! i = Some (Pc_Drain d t rest all k) →
  w_cells w !! tg_sync t = Some c →
  LocalStep i (Pc_Drain d t rest all k) (Pc_Drain d' t rest all k) (tg_sync t)
    (c_sync c) (f (c_sync c)) →
  drain_cell d' (f (c_sync c)) →
  Inv (set_pc i (Pc_Drain d' t rest all k) (upd_sync (tg_sync t) f w)).
Proof.
  intros HI Hp Hc HL Hd. eapply inv_local; [done..|].
  destruct (iv_pcs _ HI _ _ Hp) as (Htok & Hdor & _ & Hafter).
  assert (Evolves (S i) w (set_pc i (Pc_Drain d' t rest all k) (upd_sync (tg_sync t) f w))) as Hev.
  { eapply local_evolves; [done..|lia]. }
  cbn. split_and!.
  - by eapply targets_ok_evolves.
  - by eapply drained_or_evolves.
  - eapply drain_cell_ok; [by apply upd_sync_self|done].
  - by eapply after_ok_evolves.
Qed.

Lemma drained_or_cons w t rest all :
  target_drained w t → drained_or w (t :: rest) all → drained_or w rest all.
Proof.
  intros Ht Hall. eapply Forall_impl; [exact Hall|]. cbn. intros x [Hx|Hx]; [|by right].
  apply elem_of_cons in Hx as [->|Hx]; [by right|by left].
Qed.

(** Side conditions on one session's state. *)
Ltac sync_side :=
  intros; unfold pending_nat in *; cbn in *;
  try done; try congruence; try lia;
  repeat match goal with
  | |- _ ∧ _ => split
  | |- _ ↔ _ => split
  | |- SyncEv _ _ _ => split; cbn in *
  | |- _ → _ => intros ?
  end; try done; try congruence; try lia;
  rewrite ?bool_decide_true by done; try (by left); try (right; by auto); try naive_solver congruence.

Lemma drain_step_inv i d t rest all k w w' :
  Inv w → w_pcs w !! i = Some (Pc_Drain d t rest all k) →
  drain_step i d t rest all k w = Some w' → Inv w'.
Proof.
  intros HI Hp H. unfold drain_step in H. apply bind_Some in H as (c & Hc & H).
  pose proof (iv_pcs _ HI _ _ Hp) as (Htok & Hdor & Hdok & Hafter).
  pose proof (drain_ok_cell _ _ _ _ Hc Hdok) as Hdc.
  pose proof (inv_held _ _ _ _ _ HI Hp Hc) as Hheld.
  pose proof (inv_not_held _ _ _ _ _ HI Hp Hc) as Hnheld.
  pose proof (ci_pending _ _ _ (iv_cells _ HI _ _ Hc)) as C5. unfold phase_of, readers_of in C5.
  assert (∀ d' f, LocalStep i (Pc_Drain d t rest all k) (Pc_Drain d' t rest all k) (tg_sync t)
    (c_sync c) (f (c_sync c)) → drain_cell d' (f (c_sync c)) →
    w' = set_pc i (Pc_Drain d' t rest all k) (upd_sync (tg_sync t) f w) → Inv w') as Hgo.
  { intros d' f HL Hd ->. by eapply inv_drain. }
  assert (∀ d', LocalStep i (Pc_Drain d t rest all k) (Pc_Drain d' t rest all k) (tg_sync t)
    (c_sync c) (id (c_sync c)) → drain_cell d' (c_sync c) →
    w' = set_pc i (Pc_Drain d' t rest all k) w → Inv w') as Hread.
  { intros d' HL Hd ->. rewrite <-(upd_sync_id (tg_sync t) w). by eapply inv_drain. }
  assert (∀ d', holds_state (Pc_Drain d' t rest all k) = Some (tg_sync t) →
    (waits_readers (tg_sync t) (Pc_Drain d' t rest all k) = true ∨
     waits_readers (tg_sync t) (Pc_Drain d t rest all k) = false) →
    drain_cell d' (c_sync c) → ∀ w1, lock_state i (tg_sync t) w = Some w1 →
    w' = set_pc i (Pc_Drain d' t rest all k) w1 → Inv w') as Hlock.
  { intros d' Hh' Hw Hd w1 (c' & Hc' & Hh & ->)%lock_state_Some ->.
    assert (c' = c) as -> by congruence. eapply Hgo; [| |reflexivity]; [|by destruct d'].
    apply drain_local; sync_side. rewrite bool_decide_true in Hw by done. destruct Hw; auto. }
  destruct d; cbn in Hheld, Hnheld, Hdc.
  - apply fmap_Some in H as (w1 & Hl & ->). by eapply (Hlock D_Phase); eauto.
  - injection H as <-. specialize (Hheld eq_refl). case_bool_decide as Hph.
    + eapply (Hgo D_Sleep1 (set_holder None)); [|done|done]. apply drain_local; sync_side.
    + eapply (Hread D_Close); [|done|done]. apply drain_local; sync_side.
  - injection H as <-. eapply (Hread D_Relock1); [|done|done].
    apply drain_local; sync_side.
  - apply fmap_Some in H as (w1 & Hl & ->). by eapply (Hlock D_Phase); eauto.
  - injection H as <-. specialize (Hheld eq_refl).
    eapply (Hgo D_Readers (set_phase PHASE_CLOSED)); [|done|done]. apply drain_local; sync_side.
    + by rewrite !decide_False.
  - injection H as <-. specialize (Hheld eq_refl). destruct (Nat.ltb_spec 0 (active_readers (c_sync c))).
    + eapply (Hgo D_Sleep3 (set_holder None)); [|done|done]. apply drain_local; sync_side.
    + eapply (Hread D_WriterOn); [|split; [done|lia]|done]. apply drain_local; sync_side.
  - done.
  - apply fmap_Some in H as (w1 & Hl & ->). eapply (Hlock D_Readers); eauto. left. by apply bool_decide_true.
  - injection H as <-. specialize (Hheld eq_refl).
    eapply (Hgo D_WriterOff (set_writer_active true)); [|done|done]. apply drain_local; sync_side.
  - injection H as <-. specialize (Hheld eq_refl).
    eapply (Hgo D_Unlock (set_writer_active false)); [|done|done]. apply drain_local; sync_side.
  - injection H as <-. specialize (Hheld eq_refl).
    eapply (Hgo D_Sub (set_holder None)); [|done|done]. apply drain_local; sync_side.
  - injection H as <-. specialize (Hnheld ltac:(done)). destruct Hdc as [Hcl Hr0].
    pose proof (ci_owes _ _ _ (iv_cells _ HI _ _ Hc)) as C1. unfold intent_of in C1.
    pose proof (sum_elem (owes (tg_sync t)) _ _ _ Hp) as Hle. cbn [owes] in Hle.
    rewrite count_sync_self in Hle.
    assert (LocalStep i (Pc_Drain D_Sub t rest all k) (Pc_Drained rest all k) (tg_sync t) (c_sync c)
      (set_intent (writer_intent (c_sync c) - 1) (c_sync c))) as HL.
    { clear -Hcl Hr0 Hnheld C1 Hle.
      split; cbn [owes inside permits holds_state waits_readers]; rewrite ?count_sync_self;
        cbn [set_intent writer_intent ss_phase active_readers state_holder]; try done; try lia.
      intros x Hx. by rewrite count_sync_other. }
    eapply (inv_local _ _ _ _ _ _ (set_intent (writer_intent (c_sync c) - 1))); [done..|].
    pose proof (local_evolves _ _ _ (Pc_Drained rest all k) _ _ _ Hc HL (S i) ltac:(lia)) as Hev.
    apply Forall_cons in Htok as [Ht Htok]. cbn. split_and!.
    + by eapply targets_ok_evolves.
    + eapply drained_or_cons; [|by eapply drained_or_evolves].
      eapply target_drained_evolves; [done|]. destruct Ht as (c0 & Hc0 & Hid).
      exists c0. split_and!; try done; assert (c0 = c) as -> by congruence; done.
    + by eapply after_ok_evolves.
Qed.

(** Waking sleepers changes nothing that is counted. *)
Lemma wake_counts s p x :
  owes x (wake s p) = owes x p ∧ inside x (wake s p) = inside x p ∧
  permits x (wake s p) = permits x p ∧ holds_state (wake s p) = holds_state p ∧
  holds_inner (wake s p) = holds_inner p ∧ waits_readers x (wake s p) = waits_readers x p.
Proof.
  destruct p as [| | | |d t rest all k| | | |]; cbn; try done.
  destruct d; cbn; try done; case_bool_decide; done.
Qed.

Lemma wake_pc_ok w s p : pc_ok w p → pc_ok w (wake s p).
Proof.
  destruct p as [| | | |d t rest all k| | | |]; cbn; try done.
  destruct d; cbn; try done; case_bool_decide; done.
Qed.

Lemma notify_evolves j s w : Evolves j w (notify_all s w).
Proof. split; try done. intros x c Hc. exists c. split_and!; [done..|]. apply sync_ev_refl. Qed.

Lemma inv_notify s w : Inv w → Inv (notify_all s w).
Proof.
  intros [I1 I2 I3 I4 I5 I6 I7 I8].
  assert (∀ i (P : Pc → Prop), (∀ p, P (wake s p) ↔ P p) →
    (∃ p, w_pcs (notify_all s w) !! i = Some p ∧ P p) ↔ (∃ p, w_pcs w !! i = Some p ∧ P p)) as Hex.
  { intros i P HP. cbn. rewrite list_lookup_fmap. split.
    - intros (p & (q & Hq & ->)%fmap_Some & Hp). exists q. by rewrite <-HP.
    - intros (p & Hp & HPp). rewrite Hp. exists (wake s p). by rewrite HP. }
  split; try done.
  - intros x c Hc. destruct (I1 _ _ Hc) as [C1 C1' C2 C3 C4 C5 C6 C7 C8].
    split; try done; cbn; rewrite ?sum_fmap; try done; try (intros; apply (wake_counts s)).
    + intros i. rewrite C4, <-(Hex i (λ p, holds_state p = Some x)); [done|].
      intros p. by destruct (wake_counts s p x) as (_ & _ & _ & -> & _).
    + intros Hcl Hr. destruct (C6 Hcl Hr) as (i & p & Hp & Hw). exists i.
      apply (Hex i (λ p, waits_readers x p = true)); [|eauto].
      intros q. by destruct (wake_counts s q x) as (_ & _ & _ & _ & _ & ->).
  - intros i p Hp. cbn in Hp. rewrite list_lookup_fmap in Hp.
    apply fmap_Some in Hp as (q & Hq & ->). apply wake_pc_ok.
    eapply (pc_ok_evolves i); [apply notify_evolves| | |by eapply I2].
    + intros Hh. apply I3. eauto.
    + intros x cx Hh Hx. apply (ci_holder _ _ _ (I1 _ _ Hx)). eauto.
  - intros i. change (w_holder (notify_all s w)) with (w_holder w). rewrite I3.
    rewrite <-(Hex i (λ p, holds_inner p = true)); [done|].
    intros p. by destruct (wake_counts s p 0) as (_ & _ & _ & _ & -> & _).
Qed.

(** ** Forwarding *)

Lemma inv_gate w i g g' s gen adm adm' c f :
  Inv w → w_pcs w !! i = Some (Pc_Gate g s gen adm) → w_cells w !! s = Some c →
  LocalStep i (Pc_Gate g s gen adm) (Pc_Gate g' s gen adm') s (c_sync c) (f (c_sync c)) →
  gate_ok w g' adm' (on_sync f c) →
  Inv (set_pc i (Pc_Gate g' s gen adm') (upd_sync s f w)).
Proof.
  intros HI Hp Hc HL Hg. eapply inv_local; [done..|].
  destruct (iv_pcs _ HI _ _ Hp) as (c' & Hc' & Hgen & _). assert (c' = c) as -> by congruence.
  cbn. exists (on_sync f c). split; [by eapply (upd_sync_self _ i (Pc_Gate g' s gen adm'))|done].
Qed.

(** A gate that refuses, holding the mutex or not. *)
Lemma inv_gate_done w i g s gen adm c f r :
  Inv w → w_pcs w !! i = Some (Pc_Gate g s gen adm) → w_cells w !! s = Some c →
  inside s (Pc_Gate g s gen adm) = 0%nat →
  (f = id ∧ holds_state (Pc_Gate g s gen adm) = None ∨
   f = set_holder None ∧ holds_state (Pc_Gate g s gen adm) = Some s) →
  Inv (set_pc i (Pc_Done r []) (upd_sync s f w)).
Proof.
  intros HI Hp Hc Hin Hf. eapply inv_local; [done..| |by constructor].
  pose proof (ci_pending _ _ _ (iv_cells _ HI _ _ Hc)) as C5. unfold phase_of, readers_of in C5.
  assert (∀ x, x ≠ s → holds_state (Pc_Gate g s gen adm) ≠ Some x) as Hho.
  { intros x Hx. by apply gate_other. }
  assert (∀ x, x ≠ s → inside x (Pc_Gate g s gen adm) = 0%nat) as Hio.
  { intros x Hx. by apply gate_other. }
  destruct Hf as [[-> Hh]|[-> Hh]].
  - pose proof (inv_not_held _ _ _ _ _ HI Hp Hc ltac:(congruence)). split; rewrite ?Hin; cbn [owes]; try done; try (cbn; lia).
    + intros x Hx. rewrite Hio by done. specialize (Hho x Hx). by split_and!.
    + intros Hcl Hr. right. done.
  - pose proof (inv_held _ _ _ _ _ HI Hp Hc Hh). split; rewrite ?Hin; cbn [owes]; try done; try (cbn; lia).
    + intros x Hx. rewrite Hio by done. specialize (Hho x Hx). by split_and!.
    + intros j Hj. cbn. split; congruence.
    + intros Hcl Hr. right. done.
Qed.

(** A session with no announced revoker is closed, or its gate is doomed, or
    the revision in force allows it. *)
Lemma unannounced_allowed w s c :
  Inv w → w_cells w !! s = Some c → intent_of c = 0%nat →
  is_closed c ∨ doomed w c ∨ allowed c (in_last_known_revision (w_inner w)).
Proof.
  intros HI Hc Hi. destruct (decide (phase_of c = PHASE_CLOSED)) as [|Hncl]; [by left|right].
  pose proof (ci_generation _ _ _ (iv_cells _ HI _ _ Hc)).
  destruct (decide (c_generation c = w_generation w)); [|left; left; lia].
  destruct (is_live (w_inner w)) eqn:Hl.
  - right. destruct (iv_enforced _ HI Hl s c) as [(t & Ht & _)|[_ ?]]; try done.
    by apply not_elem_of_nil in Ht.
  - left. destruct (iv_unavailable _ HI Hl) as [?|Hb]; [right|left; by eapply Hb].
    split; [|done]. unfold is_live, is_unavailable in Hl. by destruct (in_mode _).
Qed.

Lemma gate_step_inv i g s gen adm w w' :
  Inv w → w_pcs w !! i = Some (Pc_Gate g s gen adm) →
  gate_step i g s gen adm w = Some w' → Inv w'.
Proof.
  intros HI Hp H. unfold gate_step in H. apply bind_Some in H as (c & Hc & H).
  destruct (iv_pcs _ HI _ _ Hp) as (c0 & Hc0 & Hgen & Hok).
  assert (c0 = c) as -> by congruence. clear Hc0.
  pose proof (inv_held _ _ _ _ _ HI Hp Hc) as Hheld.
  pose proof (inv_not_held _ _ _ _ _ HI Hp Hc) as Hnheld.
  pose proof (ci_pending _ _ _ (iv_cells _ HI _ _ Hc)) as C5. unfold phase_of, readers_of in C5.
  assert (∀ g' adm', inside s (Pc_Gate g' s gen adm') = inside s (Pc_Gate g s gen adm) →
    holds_state (Pc_Gate g' s gen adm') = holds_state (Pc_Gate g s gen adm) →
    gate_ok w g' adm' c → Inv (set_pc i (Pc_Gate g' s gen adm') w)) as Hread.
  { intros g' adm' Hi Hh Hg. rewrite <-(upd_sync_id s w).
    eapply (inv_gate _ _ g _ _ _ adm); [done..| |by destruct c].
    apply gate_local; try done; [by rewrite Hi, Nat.add_comm| |by left].
    rewrite Hh. cbn. split; [|by apply Hheld]. intros Hs.
    destruct (decide (holds_state (Pc_Gate g s gen adm) = Some s)); [done|by apply Hnheld in Hs]. }
  assert (∀ g', inside s (Pc_Gate g' s gen adm) = inside s (Pc_Gate g s gen adm) →
    holds_state (Pc_Gate g' s gen adm) = Some s → gate_ok w g' adm c →
    ∀ w1, lock_state i s w = Some w1 → Inv (set_pc i (Pc_Gate g' s gen adm) w1)) as Hlock.
  { intros g' Hi Hh Hg w1 (c' & Hc' & Hn & ->)%lock_state_Some. assert (c' = c) as -> by congruence.
    eapply (inv_gate _ _ g _ _ _ adm); [done..| |by destruct g'].
    apply gate_local; try done; cbn [set_holder writer_intent active_readers ss_phase state_holder].
    - lia.
    - intros j Hj. rewrite Hn. split; congruence.
    - by left. }
  assert (∀ g', inside s (Pc_Gate g' s gen adm) = inside s (Pc_Gate g s gen adm) →
    holds_state (Pc_Gate g s gen adm) = Some s → holds_state (Pc_Gate g' s gen adm) = None →
    gate_ok w g' adm c → Inv (set_pc i (Pc_Gate g' s gen adm) (unlock_state s w))) as Hunlock.
  { intros g' Hi Hh Hh' Hg. eapply (inv_gate _ _ g _ _ _ adm); [done..| |by destruct g'].
    specialize (Hheld Hh).
    apply gate_local; try done; cbn [set_holder writer_intent active_readers ss_phase state_holder].
    - lia.
    - intros j Hj. split; congruence.
    - rewrite Hh'. split; congruence.
    - by left. }
  assert (∀ r, inside s (Pc_Gate g s gen adm) = 0%nat → holds_state (Pc_Gate g s gen adm) = None →
    Inv (set_pc i (Pc_Done r []) w)) as Hdone.
  { intros r Hi Hh. rewrite <-(upd_sync_id s w). eapply inv_gate_done; eauto. }
  destruct g; try done.
  - injection H as <-. destruct (w_live w); [by apply Hread|by apply Hdone].
  - injection H as <-. destruct (gen =? w_generation w); [by apply Hread|by apply Hdone].
  - injection H as <-. destruct (0 <? _)%nat; [by apply Hdone|by apply Hread].
  - injection H as <-. case_bool_decide; [by apply Hread|by apply Hdone].
  - apply bind_Some in H as (w1 & Hl & H). injection H as <-.
    destruct (state_poisoned _); by eapply Hlock.
  - injection H as <-. destruct (Nat.ltb_spec 0 (writer_intent (c_sync c))); [by apply Hread|].
    apply Hread; try done. eexists. split; [done|]. apply (unannounced_allowed w s); try done.
    unfold intent_of. lia.
  - injection H as <-. destruct (writer_active _); by apply Hread.
  - injection H as <-. case_bool_decide as Hph; [|by apply Hread].
    apply Hread; try done. split; [done|]. destruct Hok as (r & -> & [Hcl|Hok]); [|eauto].
    unfold is_closed, phase_of in Hcl. congruence.
  - injection H as <-. destruct Hok as [Hph Hok]. unfold phase_of in Hph.
    eapply (inv_gate _ _ G_Enter _ _ _ adm _ _ (set_readers (S (active_readers (c_sync c)))));
      [done..| |done].
    apply gate_local; cbn; rewrite ?decide_True by done; try done; try lia; try (by right).
  - injection H as <-. by apply Hunlock.
  - injection H as <-. eapply inv_gate_done; eauto.
  - injection H as <-. destruct (w_live w) eqn:Hl; [|by apply Hread].
    apply Hread; try done. destruct Hok as (r & -> & Hok). exists r. split; [done|].
    destruct Hok as [[?|[_ ?]]|?]; [by left|congruence|by right].
  - injection H as <-. destruct (Z.eqb_spec gen (w_generation w)); [|by apply Hread].
    apply Hread; try done. destruct Hok as (r & -> & Hok). exists r. split; [done|].
    destruct Hok as [?|?]; [lia|done].
  - apply fmap_Some in H as (w1 & Hl & ->). by eapply Hlock.
  - injection H as <-.
    assert (Inv (set_pc i (Pc_Gate G_DropUnlock s gen adm)
      (upd_sync s (set_readers (active_readers (c_sync c) - 1)) w))) as HI'.
    { pose proof (ci_readers _ _ _ (iv_cells _ HI _ _ Hc)) as C2. unfold readers_of in C2.
      pose proof (sum_elem (inside s) _ _ _ Hp) as Hle. cbn in Hle. rewrite decide_True in Hle by done.
      eapply (inv_gate _ _ G_Dec _ _ _ adm _ _ (set_readers (active_readers (c_sync c) - 1)));
        [done..| |done].
      apply gate_local; cbn; rewrite ?decide_True by done; try done; try lia. }
    destruct (_ =? 0)%nat; [by apply inv_notify|done].
  - injection H as <-. eapply inv_gate_done; eauto.
Qed.
