(* ===== verification/RegistryLock.v ===== *)
(** * The mesh session registry: the registry lock

    Preservation of [RegistryInv]'s invariant by permits, by the critical
    sections on the registry lock and by what the methods do between them; and
    so by every step. *)

From stdpp Require Import base gmap sets list strings.
From Stdlib Require Import ZArith Lia Ascii.
From S2P Require Import Prelude.
From S2P Require Import RosterView.
From S2P Require Import Registry.
From S2P Require Import RegistrySteps.
From S2P Require Import RegistryInv.
From S2P Require Import RegistryPreserve.

Open Scope Z_scope.

(** ** Permits *)

Lemma permit_pending w i s id m_id c :
  Inv w → w_pcs w !! i = Some (Pc_Permit s id m_id) → w_cells w !! s = Some c →
  phase_of c = PHASE_PENDING.
Proof.
  intros HI Hp Hc. pose proof (ci_permits _ _ _ (iv_cells _ HI _ _ Hc)) as C3.
  pose proof (sum_elem (permits s) _ _ _ Hp) as Hle. cbn in Hle. rewrite decide_True in Hle by done.
  destruct (decide (phase_of c = PHASE_PENDING)); [done|lia].
Qed.

(** The permit is settled: [ph] is the phase it leaves. *)
Lemma inv_permit w i s id m_id ph p' :
  Inv w → w_pcs w !! i = Some (Pc_Permit s id m_id) → ph ≠ PHASE_PENDING →
  p' = Pc_Done Ret_Commit [] ∨ p' = Pc_Done Ret_Drop [] ∨
    ph = PHASE_CLOSED ∧ p' = Pc_Lock (L_RemoveClosedPending id s m_id) →
  Inv (notify_all s (set_pc i p' (upd_sync s (cas_pending ph) w))).
Proof.
  intros HI Hp Hph Hp'. apply inv_notify.
  destruct (iv_pcs _ HI _ _ Hp) as (c & Hc & Hid & Hm).
  pose proof (permit_pending _ _ _ _ _ _ HI Hp Hc) as Hpend.
  pose proof (ci_pending _ _ _ (iv_cells _ HI _ _ Hc) Hpend) as Hr. unfold phase_of, readers_of in *.
  assert (cas_pending ph (c_sync c) = set_phase ph (c_sync c)) as Hcas.
  { unfold cas_pending. by rewrite bool_decide_true. }
  pose proof (inv_not_held _ _ _ _ _ HI Hp Hc ltac:(done)) as Hnh.
  eapply inv_local; [done..| |].
  - rewrite Hcas. unfold pending_nat.
    split; unfold pending_nat; cbn [set_phase writer_intent active_readers ss_phase state_holder];
      rewrite ?Hpend, ?decide_True, ?(decide_False _ _ Hph) by done;
      destruct Hp' as [->|[->|[_ ->]]]; cbn;
      try done; try lia; try (rewrite decide_True by done; rewrite decide_False by done; lia).
    all: try (intros x Hx; by rewrite decide_False by done).
    all: try by rewrite decide_True.
    all: intros j _; split; cbn; try done; congruence.
  - destruct Hp' as [->|[->|[-> ->]]]; [by constructor..|].
    exists (on_sync (cas_pending PHASE_CLOSED) c).
    split; [by eapply (upd_sync_self _ i (Pc_Done Ret_Drop []))|]. cbn.
    unfold is_closed, phase_of. cbn. by rewrite Hcas.
Qed.

(** ** Steps that leave the sessions alone *)

(** A program counter that is in no session. *)
Definition outside (p : Pc) : Prop :=
  (∀ x, inside x p = 0%nat ∧ waits_readers x p = false) ∧ holds_state p = None.

Section registry_step.
Context (w w' : World) (i : nat) (p p' : Pc).
Context (HI : Inv w) (Hp : w_pcs w !! i = Some p).
Context (Hcells : w_cells w' = w_cells w) (Hpcs : w_pcs w' = <[i := p']> (w_pcs w)).
Context (Hout : outside p) (Hout' : outside p').
Context (Howes : ∀ x, (owes x p' ≤ owes x p)%nat) (Hpermits : ∀ x, permits x p' = permits x p).
Context (Hexact : w_poisoned w' = false → w_poisoned w = false ∧ ∀ x, owes x p' = owes x p).
Context (Hgen : w_generation w ≤ w_generation w').
Context (Hnext : in_next_session_id (w_inner w) ≤ in_next_session_id (w_inner w')).

Lemma reg_self : w_pcs w' !! i = Some p'.
Proof. rewrite Hpcs, list_lookup_insert_eq; [done|]. by eapply lookup_lt_Some. Qed.

Lemma reg_other j : j ≠ i → w_pcs w' !! j = w_pcs w !! j.
Proof. intros. by rewrite Hpcs, list_lookup_insert_ne. Qed.

Lemma reg_cell x c : w_cells w !! x = Some c → CellInv w' x c.
Proof.
  intros Hc. destruct (iv_cells _ HI _ _ Hc) as [C1 C1' C2 C3 C4 C5 C6 C7 C8].
  destruct Hout as [Ho1 Ho2], Hout' as [Ho1' Ho2'].
  destruct (Ho1 x) as [Hi Hw], (Ho1' x) as [Hi' Hw'].
  specialize (Howes x). specialize (Hpermits x).
  pose proof (sum_insert (owes x) _ _ _ p' Hp). pose proof (sum_insert (inside x) _ _ _ p' Hp).
  pose proof (sum_insert (permits x) _ _ _ p' Hp).
  split; rewrite ?Hpcs; try done; try lia.
  - intros Hpo. destruct (Hexact Hpo) as [Hpo0 Hex]. specialize (C1' Hpo0). specialize (Hex x). lia.
  - intros j. rewrite C4. destruct (decide (j = i)) as [->|].
    + rewrite <-Hpcs, reg_self, Hp. naive_solver congruence.
    + by rewrite <-Hpcs, reg_other.
  - intros Hcl Hr. destruct (C6 Hcl Hr) as (j & q & Hq & Hwq). rewrite <-Hpcs.
    destruct (decide (j = i)) as [->|]; [congruence|]. exists j, q. by rewrite reg_other.
Qed.

Lemma inv_reg :
  (∀ j, j ≠ i → Evolves j w w') →
  (∀ j, w_holder w' = Some j ↔ if decide (j = i) then holds_inner p' = true else w_holder w = Some j) →
  pc_ok w' p' → entries_ok (w_cells w') (w_inner w') → enforced w' (w_inner w') [] →
  (is_live (w_inner w') = false → w_live w' = false ∨ bumped w') →
  (w_poisoned w' = true → w_holder w' = None ∧ w_live w' = false) → Inv w'.
Proof.
  intros Hev Hhold Hok Hent Henf Hun Hpo. pose proof HI as [I1 I2 I3 I4 I5 I6 I7 I8]. split; try done.
  - rewrite Hcells. apply reg_cell.
  - intros j q Hq. destruct (decide (j = i)) as [->|Hj].
    + rewrite reg_self in Hq. by injection Hq as <-.
    + rewrite reg_other in Hq by done. eapply pc_ok_evolves; [by apply Hev| | |by eapply I2].
      * intros Hh. apply I3. eauto.
      * intros x cx Hh Hx. apply (ci_holder _ _ _ (I1 _ _ Hx)). eauto.
  - intros j. rewrite Hhold. case_decide as Hj.
    + subst. rewrite reg_self. naive_solver.
    + rewrite reg_other by done. apply I3.
  - rewrite Hcells. done.
Qed.
End registry_step.

(** What other calls see of a step that changes no cell. *)
Lemma evolves_reg j w w' :
  w_cells w' = w_cells w → w_generation w ≤ w_generation w' →
  (∀ s c, w_cells w !! s = Some c → doomed w c → doomed w' c) →
  (w_holder w = Some j → w_inner w' = w_inner w ∧ w_generation w' = w_generation w ∧
     w_live w' = w_live w) →
  Evolves j w w'.
Proof.
  intros Hc Hg Hd Hh. split; [|done|done|].
  - intros s c Hs. exists c. rewrite Hc. split_and!; [done..|]. apply sync_ev_refl.
  - intros Hj. destruct (Hh Hj) as (? & ? & ?). by rewrite Hc.
Qed.

Lemma target_ok_cells w w' t : w_cells w' = w_cells w → target_ok w t → target_ok w' t.
Proof. unfold target_ok, cell_at. by intros ->. Qed.

Lemma evolves_pc j i p w : Evolves j w (set_pc i p w).
Proof. by apply evolves_reg. Qed.

(** A call moves on without touching anything. *)
Lemma inv_pc w i p p' :
  Inv w → w_pcs w !! i = Some p → outside p → outside p' →
  (∀ x, owes x p' = owes x p) → (∀ x, permits x p' = permits x p) →
  holds_inner p' = holds_inner p → pc_ok w p' → Inv (set_pc i p' w).
Proof.
  intros HI Hp Ho Ho' Hw Hpm Hh Hok. pose proof HI as [I1 I2 I3 I4 I5 I6 I7 I8].
  eapply (inv_reg w _ i p p'); try done.
  - intros x. by rewrite Hw.
  - intros. apply evolves_pc.
  - intros j. cbn. case_decide as Hj; [|done]. subst. rewrite I3, Hh, Hp. naive_solver.
  - destruct p'; try done.
    + destruct Hok as [Hst Hrest]. split; [|exact Hrest].
      destruct Hst; [by apply so_recover|by apply so_other].
Qed.

(** ** Announcing *)

Lemma announce_local i p p' t c :
  (∀ x, owes x p' = (owes x p + count_sync x [t])%nat) →
  outside p → outside p' → (∀ x, permits x p' = permits x p) → holds_inner p' = holds_inner p →
  state_holder c ≠ Some i →
  (ss_phase c = PHASE_PENDING → active_readers c = 0%nat) →
  LocalStep i p p' (tg_sync t) c (announce_revoke c).
Proof.
  intros How [Ho1 Ho2] [Ho1' Ho2'] Hpm Hh Hnh Hpend. split; try done.
  - intros x Hx. rewrite How, count_sync_other, Hpm, Ho2, Ho2' by done.
    destruct (Ho1 x) as [-> ->], (Ho1' x) as [-> ->]. by split_and!.
  - rewrite How, count_sync_self. cbn. lia.
  - destruct (Ho1 (tg_sync t)) as [-> _], (Ho1' (tg_sync t)) as [-> _]. cbn. lia.
  - rewrite Hpm. unfold pending_nat. cbn. lia.
  - rewrite Ho2'. cbn. split; [done|congruence].
  - intros. right. by destruct (Ho1 (tg_sync t)) as [_ ->].
Qed.

Lemma enforced_drop w data t except :
  enforced w data (t :: except) →
  (∀ c, w_cells w !! tg_sync t = Some c → (0 < intent_of c)%nat) → enforced w data except.
Proof.
  intros He Ht Hl s c Hc Hg Hi Hncl.
  destruct (He Hl s c Hc Hg Hi Hncl) as [(t' & Hin & Hs)|?]; [|by right].
  apply elem_of_cons in Hin as [->|Hin]; [|left; eauto].
  subst. specialize (Ht _ Hc). lia.
Qed.

Lemma announced_owes x announced t :
  count_sync x (announced ++ [t]) = (count_sync x announced + count_sync x [t])%nat.
Proof. apply count_sync_app. Qed.

Lemma inv_store_announce w i t todo announced data k :
  Inv w → w_pcs w !! i = Some (Pc_Stores (Ef_Announce t :: todo) announced data k) →
  Inv (set_pc i (Pc_Stores todo (announced ++ [t]) data k)
         (upd_sync (tg_sync t) announce_revoke w)).
Proof.
  intros HI Hp. destruct (iv_pcs _ HI _ _ Hp) as (Hst & Hann & Hann' & Hk).
  cbn in Hann'. apply Forall_cons in Hann' as [(c & Hc & Hid) Hann'].
  assert (LocalStep i (Pc_Stores (Ef_Announce t :: todo) announced data k)
    (Pc_Stores todo (announced ++ [t]) data k) (tg_sync t) (c_sync c)
    (announce_revoke (c_sync c))) as HL.
  { apply announce_local; try done.
    - intros x. apply announced_owes.
    - eapply (inv_not_held w i); done.
    - apply (ci_pending _ _ _ (iv_cells _ HI _ _ Hc)). }
  eapply inv_local; [done..|].
  pose proof (local_evolves _ _ _ (Pc_Stores todo (announced ++ [t]) data k) _ _ _ Hc HL (S i)
    ltac:(lia)) as Hev.
  set (w' := set_pc i _ _) in *.
  assert (length (w_cells w') = length (w_cells w)) as Hlen by apply length_alter.
  assert (target_ok w t) as Ht by (by exists c).
  split_and!.
  - destruct Hst as [_ _ _ _ [[=]|[_ [[=]|[=]]]]|Ht1 Ht2 Ht3 Ht4 Ht5].
    apply so_other; try done.
    + by apply Forall_cons in Ht1 as [_ ?].
    + intros Hd. destruct (Ht3 Hd) as [?|[?|Hin]]; [by left| |].
      * right; left. by eapply bumped_evolves.
      * apply elem_of_cons in Hin as [[=]|?]. auto.
    + apply (enforced_drop _ _ t); [by eapply enforced_evolves|].
      intros c' Hc'. unfold w' in Hc'. rewrite (upd_sync_self _ _ _ _ _ _ Hc) in Hc'.
      injection Hc' as <-. unfold intent_of. cbn. lia.
    + destruct k as [c1|]; [rewrite Hlen|]; destruct Ht5 as [Hent Ht5]; (split; [|done]).
      * by eapply entries_ok_evolves.
      * rewrite <-(app_nil_r (w_cells w')). eapply entries_ok_evolves; [done| |done].
        by rewrite app_nil_r.
  - apply Forall_app. split; [by eapply targets_ok_evolves|].
    constructor; [by eapply target_ok_evolves|constructor].
  - by eapply targets_ok_evolves.
  - destruct k; [by destruct Hk|]. destruct Hk.
    split; [by eapply targets_ok_evolves|by eapply after_ok_evolves].
Qed.

Lemma inv_announce w i t todo announced k :
  Inv w → w_pcs w !! i = Some (Pc_Announce (t :: todo) announced k) →
  Inv (set_pc i (Pc_Announce todo (announced ++ [t]) k) (upd_sync (tg_sync t) announce_revoke w)).
Proof.
  intros HI Hp. destruct (iv_pcs _ HI _ _ Hp) as (Htodo & Hann & Hk).
  apply Forall_cons in Htodo as [Ht Htodo]. pose proof Ht as (c & Hc & Hid).
  assert (LocalStep i (Pc_Announce (t :: todo) announced k) (Pc_Announce todo (announced ++ [t]) k)
    (tg_sync t) (c_sync c) (announce_revoke (c_sync c))) as HL.
  { apply announce_local; try done.
    - intros x. apply announced_owes.
    - eapply (inv_not_held w i); done.
    - apply (ci_pending _ _ _ (iv_cells _ HI _ _ Hc)). }
  eapply inv_local; [done..|].
  pose proof (local_evolves _ _ _ (Pc_Announce todo (announced ++ [t]) k) _ _ _ Hc HL (S i)
    ltac:(lia)) as Hev.
  split_and!.
  - by eapply targets_ok_evolves.
  - apply Forall_app. split; [by eapply targets_ok_evolves|].
    constructor; [by eapply target_ok_evolves|constructor].
  - by eapply after_ok_evolves.
Qed.

(** ** The other stores, and taking and releasing the lock *)

Lemma holder_unique w i p j :
  Inv w → w_pcs w !! i = Some p → holds_inner p = true → w_holder w = Some j → j = i.
Proof.
  intros HI Hp Hh Hj. assert (w_holder w = Some i) by (apply (iv_holder _ HI); eauto). congruence.
Qed.

Lemma is_live_Unavailable i : is_live i = false ↔ in_mode i = Unavailable.
Proof. unfold is_live, is_unavailable. by destruct (in_mode i). Qed.

Lemma outside_stores todo announced data k : outside (Pc_Stores todo announced data k).
Proof. by split. Qed.

Lemma inv_store_generation w i g todo announced data k :
  Inv w → w_pcs w !! i = Some (Pc_Stores (Ef_StoreGeneration g :: todo) announced data k) →
  Inv (set_pc i (Pc_Stores todo (announced ++ []) data k) (set_generation g w)).
Proof.
  intros HI Hp. destruct (iv_pcs _ HI _ _ Hp) as (Hst & Hann & Hann' & Hk).
  destruct Hst as [Hl Hd Hn Hkk [[= -> ->]|[_ [[=]|[=]]]]|Ht1 Ht2 Ht3 Ht4 Ht5].
  2: { by apply Forall_cons in Ht1 as [[[=]|[? [=]]] _]. }
  assert (∀ s c, w_cells w !! s = Some c → c_generation c < w_generation w + 1) as Hb.
  { intros s c Hc. pose proof (ci_generation _ _ _ (iv_cells _ HI _ _ Hc)). lia. }
  eapply (inv_reg w _ i); [done..|apply outside_stores|apply outside_stores| | | | | | | | | | | |];
    rewrite ?app_nil_r; try done.
  - cbn. lia.
  - intros j Hj. apply evolves_reg; try done; cbn; [lia| |].
    + intros s c Hc _. left. by eapply Hb.
    + intros Hjh. by eapply holder_unique in Hjh.
  - intros j. cbn. case_decide; [|done]. subst. rewrite (iv_holder _ HI). naive_solver.
  - destruct Hkk as [k' ->]. split; [|exact (conj Hann (conj Hann' Hk))].
    apply so_recover; try done; [by eexists|]. right. split; [exact Hb|by left].
  - apply HI.
  - intros Hl'. cbn in Hl'. congruence.
  - intros _. right. exact Hb.
  - apply HI.
Qed.

Lemma inv_store_live w i b todo announced data k :
  Inv w → w_pcs w !! i = Some (Pc_Stores (Ef_StoreLive b :: todo) announced data k) →
  Inv (set_pc i (Pc_Stores todo (announced ++ []) data k) (set_live b w)).
Proof.
  intros HI Hp. destruct (iv_pcs _ HI _ _ Hp) as (Hst & Hann & Hann' & Hk).
  assert ((is_live (w_inner w) = false ∧ bumped w ∧ b = true ∨ b = false) ∧
    StoresOk (set_pc i (Pc_Stores todo (announced ++ []) data k) (set_live b w)) todo data k)
    as [Hcase Hst'].
  { destruct Hst as [Hl Hd Hn Hkk [[=]|[Hb [[= -> ->]|[=]]]]|Ht1 Ht2 Ht3 Ht4 Ht5].
    - split; [by left|]. apply so_recover; try done. right. split; [done|by right].
    - apply Forall_cons in Ht1 as [Hb Ht1]. destruct Hb as [[= ->]|[? [=]]].
      split; [by right|].
      apply so_other; try done. by left. }
  eapply (inv_reg w _ i); [done..|apply outside_stores|apply outside_stores| | | | | | | | | | | |];
    rewrite ?app_nil_r in *; try done.
  - intros j Hj. apply evolves_reg; try done.
    + intros s c Hc [?|[? ?]]; [by left|].
      destruct Hcase as [(_ & Hb & ->)| ->]; [left; by eapply Hb|right; done].
    + intros Hjh. by eapply holder_unique in Hjh.
  - intros j. cbn. case_decide; [|done]. subst. rewrite (iv_holder _ HI). naive_solver.
  - split; [done|]. destruct k; [by destruct Hk|]. exact (conj Hann (conj Hann' Hk)).
  - apply HI.
  - apply HI.
  - cbn. intros _. destruct Hcase as [(_ & Hb & ->)| ->]; [by right|by left].
  - intros Hpo. destruct (iv_poisoned _ HI Hpo) as [Hn _].
    assert (w_holder w = Some i) by (apply (iv_holder _ HI); eauto). congruence.
Qed.

Lemma inv_lock_inner w i op w' :
  Inv w → w_pcs w !! i = Some (Pc_Lock op) → lock_inner i op w = Some w' → Inv w'.
Proof.
  intros HI Hp H. pose proof (iv_pcs _ HI _ _ Hp) as Hop. cbn in Hop. unfold lock_inner in H.
  assert (w_holder w ≠ Some i) as Hni.
  { intros (q & Hq & Hh)%(iv_holder _ HI). assert (q = Pc_Lock op) as -> by congruence. done. }
  destruct (w_holder w) as [j|] eqn:Hh; [|destruct (w_poisoned w) eqn:Hpo].
  - apply fmap_Some in H as (r & Hb & ->). eapply inv_pc; try done. by constructor.
  - injection H as <-. eapply (inv_reg w _ i); try done.
    + intros j Hj. apply evolves_reg; try done; [|cbn; congruence].
      intros s c _ [?|[? ?]]; [by left|by right].
    + intros j. cbn. rewrite Hh. case_decide; done.
    + cbn. destruct op; cbn; try (by constructor). exact Hop.
    + apply HI.
    + apply HI.
    + by left.
  - injection H as <-. eapply (inv_reg w _ i); try done.
    + intros j Hj. apply evolves_reg; try done.
    + intros j. cbn. rewrite Hh. case_decide; naive_solver.
    + apply HI.
    + apply HI.
    + apply HI.
    + intros Hpo'. cbn in Hpo'. congruence.
Qed.

Lemma inv_panic w i p :
  Inv w → w_pcs w !! i = Some p → holds_inner p = true →
  Inv (set_pc i (Pc_Done Ret_Panic []) (poison w)).
Proof.
  intros HI Hp Hh. assert (w_holder w = Some i) as Hhi by (apply (iv_holder _ HI); eauto).
  assert (outside p ∧ ∀ x, permits x p = 0%nat) as [Ho Hpm] by (by destruct p).
  eapply (inv_reg w _ i p); try done.
  - intros x. cbn. lia.
  - intros j Hj. apply evolves_reg; try done; [|congruence].
    intros s c _ [?|[? ?]]; [by left|by right].
  - intros j. cbn. rewrite Hhi. case_decide; naive_solver.
  - by constructor.
  - apply HI.
  - apply HI.
  - by left.
Qed.

(** ** Releasing the lock *)

Lemma entries_ok_empty cells i : in_mode i = Live ∅ ∅ → entries_ok cells i.
Proof.
  intros Hm. unfold entries_ok. rewrite Hm. split; [apply indexed_empty|].
  intros id e He. by rewrite lookup_empty in He.
Qed.

Lemma enforced_bumped w i : bumped w → enforced w i [].
Proof. intros Hb _ s c Hc Hg. specialize (Hb _ _ Hc). lia. Qed.

(** What holds once the stores are made and the data is published. *)
Lemma stores_done w data k :
  (is_live (w_inner w) = false → w_live w = false ∨ bumped w) →
  StoresOk w [] data k →
  enforced w data [] ∧ (is_live data = false → w_live w = false ∨ bumped w) ∧
  (is_live (w_inner w) = false → is_live data = false ∨ bumped w) ∧
  in_next_session_id (w_inner w) ≤ in_next_session_id data.
Proof.
  intros Hun [Hl Hd Hn [k' ->] [[=]|[Hb _]]|Ht1 Ht2 Ht3 Ht4 Ht5].
  - split_and!; [by apply enforced_bumped|by right|by right|lia].
  - split_and!; [done| |by left; apply Ht2|].
    + intros Hd. destruct (Ht3 Hd) as [?|[?|Hin]]; [by left|by right|].
      by apply not_elem_of_nil in Hin.
    + destruct k; [|destruct Ht5; lia]. destruct Ht5 as (_ & _ & ? & ? & _). lia.
Qed.

Lemma doomed_publish w w' data c :
  w_generation w' = w_generation w → w_live w' = w_live w → w_inner w' = data →
  (is_live (w_inner w) = false → is_live data = false ∨ bumped w) →
  ∀ s, w_cells w !! s = Some c → doomed w c → doomed w' c.
Proof.
  intros Hg Hl Hi Hd s Hc [?|[Hm Hlive]]; [left; lia|].
  apply is_live_Unavailable in Hm. destruct (Hd Hm) as [Hd'|Hb].
  - right. rewrite Hi, Hl. by apply is_live_Unavailable in Hd'.
  - left. rewrite Hg. by eapply Hb.
Qed.

Lemma inv_unlock_revoke w i announced data later k :
  Inv w → w_pcs w !! i = Some (Pc_Stores [] announced data (Nx_Revoke later k)) →
  Inv (unlock_inner i announced data (Nx_Revoke later k) w).
Proof.
  intros HI Hp. destruct (iv_pcs _ HI _ _ Hp) as (Hst & Hann & _ & Hlater & Hafter).
  destruct (stores_done _ _ _ (iv_unavailable _ HI) Hst) as (Henf & Hun & Hd & Hn).
  assert (w_holder w = Some i) as Hh by (apply (iv_holder _ HI); eauto).
  assert (entries_ok (w_cells w) data) as Hent.
  { destruct Hst as [_ Hm _ _ _|_ _ _ _ [? _]]; [by apply entries_ok_empty|done]. }
  cbn. eapply (inv_reg w _ i); try done.
  - intros j Hj. apply evolves_reg; try done; [|cbn; congruence].
    intros s c Hc. by eapply doomed_publish.
  - intros j. cbn. rewrite Hh. case_decide; naive_solver.
  - intros Hpo. destruct (iv_poisoned _ HI Hpo). congruence.
Qed.

(** Nobody refers to a session that does not exist yet. *)
Lemma pc_ok_fresh w p s :
  pc_ok w p → (length (w_cells w) ≤ s)%nat →
  owes s p = 0%nat ∧ inside s p = 0%nat ∧ permits s p = 0%nat ∧ holds_state p ≠ Some s.
Proof.
  intros Hok Hs.
  assert (∀ s' P, cell_at w s' P → s' ≠ s) as Hcell.
  { intros s' P (c & Hc & _) ->. apply lookup_lt_Some in Hc. lia. }
  assert (∀ l, Forall (target_ok w) l → count_sync s l = 0%nat) as Hcount.
  { intros l Hl. induction Hl as [|t l Ht Hl IH]; [done|]. rewrite count_sync_cons, IH.
    rewrite decide_False; [done|]. by eapply Hcell. }
  destruct p as [op|op|todo ann data k|todo ann k|d t rest all k|rest all k|s' id m|
    g s' gen adm|r dr]; cbn in *; try done.
  - destruct Hok as (_ & Ha & _). by rewrite Hcount.
  - destruct Hok as (_ & Ha & _). by rewrite Hcount.
  - destruct Hok as (Ht & _). split_and!; try done; [exact (Hcount (t :: rest) Ht)|].
    apply Forall_cons in Ht as [Ht _]. apply Hcell in Ht. destruct d; congruence.
  - destruct Hok as (Ht & _). by rewrite Hcount.
  - apply Hcell in Hok. by rewrite decide_False.
  - apply Hcell in Hok. destruct g; rewrite ?decide_False by done; split_and!; congruence.
Qed.

Lemma sum_zero {A} (f : A → nat) (l : list A) :
  (∀ i x, l !! i = Some x → f x = 0%nat) → sum_list_with f l = 0%nat.
Proof.
  intros H. induction l as [|x l IH]; cbn; [done|]. rewrite (H 0%nat x eq_refl), IH; [done|].
  intros i y Hy. by apply (H (S i) y).
Qed.

Section new_session.
Context (w : World) (i : nat) (data : Inner) (c : Cell).
Context (HI : Inv w) (Hp : w_pcs w !! i = Some (Pc_Stores [] [] data (Nx_Permit c))).
Context (Hst : StoresOk w [] data (Nx_Permit c)).

Let n := length (w_cells w).
Let w' := unlock_inner i [] data (Nx_Permit c) w.

Lemma new_session_facts :
  entries_ok (w_cells w ++ [c]) data ∧ is_live data = true ∧
  in_next_session_id (w_inner w) < c_id c ∧ c_id c = in_next_session_id data ∧
  c_sync c = new_pending ∧ c_generation c = w_generation w ∧
  tracks data n c ∧ allowed c (in_last_known_revision data).
Proof. destruct Hst as [_ _ _ [k' [=]] _|_ _ _ _ Ht5]. exact Ht5. Qed.

Lemma new_session_pcs j :
  w_pcs w' !! j = if decide (j = i) then Some (Pc_Permit n (c_id c) (c_m_id c)) else w_pcs w !! j.
Proof.
  cbn. case_decide; subst.
  - rewrite list_lookup_insert_eq; [done|]. by eapply lookup_lt_Some.
  - by rewrite list_lookup_insert_ne.
Qed.

Lemma new_session_cell x cx : w_cells w !! x = Some cx → CellInv w' x cx.
Proof.
  intros Hc. destruct (iv_cells _ HI _ _ Hc) as [C1 C1' C2 C3 C4 C5 C6 C7 C8].
  assert (n ≠ x) as Hx by (apply lookup_lt_Some in Hc; unfold n; lia).
  destruct new_session_facts as (_ & _ & F3 & F4 & _).
  set (p' := Pc_Permit n (c_id c) (c_m_id c)).
  pose proof (sum_insert (owes x) _ _ _ p' Hp). pose proof (sum_insert (inside x) _ _ _ p' Hp).
  pose proof (sum_insert (permits x) _ _ _ p' Hp). cbn in *. rewrite decide_False in * by done.
  split; cbn; try done; try (fold n; fold p'; lia).
  - intros Hpo. specialize (C1' Hpo). fold n. fold p'. lia.
  - intros j. rewrite C4. change (<[i := _]> (w_pcs w)) with (w_pcs w'). rewrite new_session_pcs.
    destruct (decide (j = i)) as [->|]; [|done]. rewrite Hp. naive_solver.
  - intros Hcl Hr. destruct (C6 Hcl Hr) as (j & q & Hq & Hwq). exists j, q. split; [|done].
    change (<[i := _]> (w_pcs w)) with (w_pcs w'). rewrite new_session_pcs, decide_False; [done|].
    intros ->. assert (q = Pc_Stores [] [] data (Nx_Permit c)) as -> by congruence. done.
Qed.

Lemma new_session_new : CellInv w' n c.
Proof.
  destruct new_session_facts as (_ & _ & F3 & F4 & F5 & F6 & _).
  assert (∀ j q, w_pcs w' !! j = Some q → owes n q = 0%nat ∧ inside n q = 0%nat ∧
    holds_state q ≠ Some n ∧ (j ≠ i → permits n q = 0%nat)) as Hz.
  { intros j q. rewrite new_session_pcs. case_decide as Hj.
    - intros [= <-]. by split_and!.
    - intros Hq. destruct (pc_ok_fresh w q n (iv_pcs _ HI _ _ Hq) ltac:(done)) as (? & ? & ? & ?). done. }
  split; unfold intent_of, readers_of, phase_of, is_closed; rewrite ?F5; cbn [new_pending
    writer_intent active_readers ss_phase state_holder]; try done.
  - rewrite sum_zero; [done|]. intros j q Hq. by destruct (Hz _ _ Hq).
  - intros _. apply sum_zero. intros j q Hq. by destruct (Hz _ _ Hq).
  - apply sum_zero. intros j q Hq. by destruct (Hz _ _ Hq) as (_ & ? & _).
  - assert (sum_list_with (permits n) (w_pcs w) = 0%nat) as H0.
    { apply sum_zero. intros j q Hq. by apply (pc_ok_fresh w q n (iv_pcs _ HI _ _ Hq)). }
    pose proof (sum_insert (permits n) _ _ _ (Pc_Permit n (c_id c) (c_m_id c)) Hp) as Hs.
    cbn in Hs. rewrite decide_True in Hs by done. cbn. fold n. rewrite H0 in Hs.
    rewrite decide_True by done. lia.
  - intros j. split; [done|]. intros (q & Hq & Hh). by destruct (Hz _ _ Hq) as (_ & _ & ? & _).
  - cbn. lia.
  - cbn. lia.
  - cbn. lia.
Qed.

Lemma new_session_evolves j : j ≠ i → Evolves j w w'.
Proof.
  intros Hj. destruct (stores_done _ _ _ (iv_unavailable _ HI) Hst) as (_ & _ & Hd & _). split.
  - intros s cs Hs. exists cs. cbn. split_and!; [by apply lookup_app_l_Some|done|apply sync_ev_refl].
  - done.
  - intros s cs Hs. by eapply doomed_publish.
  - intros Hjh. exfalso. apply Hj. by eapply holder_unique.
Qed.

Lemma new_session_lookup s cs :
  w_cells w' !! s = Some cs → w_cells w !! s = Some cs ∨ s = n ∧ cs = c.
Proof.
  cbn. rewrite lookup_app. destruct (w_cells w !! s) as [x|] eqn:Hs; [by left|].
  apply lookup_ge_None in Hs. intros [H0 Hc]%list_lookup_singleton_Some. right. split; [unfold n; lia|done].
Qed.

Lemma inv_unlock_permit : Inv w'.
Proof.
  destruct new_session_facts as (F1 & F2 & F3 & F4 & F5 & F6 & F7 & F8).
  destruct (stores_done _ _ _ (iv_unavailable _ HI) Hst) as (Henf & Hun & Hd & Hn).
  pose proof HI as [I1 I2 I3 I4 I5 I6 I7 I8].
  assert (w_holder w = Some i) as Hh by (apply I3; eauto).
  split; try done.
  - intros s cs [Hs|[-> ->]]%new_session_lookup; [by apply new_session_cell|apply new_session_new].
  - intros j q. rewrite new_session_pcs. case_decide as Hj.
    + intros [= <-]. exists c. split; [|done]. cbn. by rewrite lookup_app_r, Nat.sub_diag.
    + intros Hq. eapply pc_ok_evolves; [by apply new_session_evolves| | |by eapply I2].
      * intros Hhi. apply I3. eauto.
      * intros x cx Hhs Hx. apply (ci_holder _ _ _ (I1 _ _ Hx)). eauto.
  - intros j. cbn. split; [done|]. intros (q & Hq & Hhq). exfalso.
    change (<[i := _]> (w_pcs w)) with (w_pcs w') in Hq. rewrite new_session_pcs in Hq.
    case_decide as Hj; [by injection Hq as <-|]. apply Hj. eapply holder_unique; eauto.
    apply I3. eauto.
  - intros s1 s2 c1 c2 [H1|[-> ->]]%new_session_lookup [H2|[-> ->]]%new_session_lookup Hid; try done.
    + by eapply I4.
    + pose proof (ci_id _ _ _ (I1 _ _ H1)). lia.
    + pose proof (ci_id _ _ _ (I1 _ _ H2)). lia.
  - intros Hl s cs [Hs|[-> ->]]%new_session_lookup Hg Hi Hncl; [by eapply Henf|]. by right.
  - cbn. intros Hl. congruence.
  - intros Hpo. destruct (I8 Hpo). congruence.
Qed.
End new_session.
