(* ===== verification/RegistryBodies.v ===== *)
(** * The mesh session registry: the bodies, and every step

    The critical sections of [Registry] establish what [RegistryInv] asks of a
    call that is about to publish new data; with [RegistryPreserve] and
    [RegistryLock] this gives the invariant for every reachable world. *)

From stdpp Require Import base gmap sets list strings.
From Stdlib Require Import ZArith Lia Ascii.
From S2P Require Import Prelude.
From S2P Require Import RosterView.
From S2P Require Import Registry.
From S2P Require Import RegistrySteps.
From S2P Require Import RegistryInv.
From S2P Require Import RegistryPreserve.
From S2P Require Import RegistryLock.

Open Scope Z_scope.

(** ** The bodies *)

Lemma announcements_fmap l : announcements (Ef_Announce <$> l) = l.
Proof. unfold announcements. induction l as [|t l IH]; cbn; [done|]. by rewrite IH. Qed.

Lemma body_phase_closed e w s c :
  w_cells w !! s = Some c → body_phase e w s = PHASE_CLOSED → is_closed c.
Proof.
  intros Hc. unfold body_phase, is_closed, phase_of. rewrite Hc. unfold observe_phase.
  destruct (e_stale e s) as [[]|], (ss_phase (c_sync c)); done.
Qed.

Lemma indexed_insert sessions by_machine id e :
  Indexed sessions by_machine → sessions !! id = None →
  Indexed (<[id := e]> sessions)
    (<[se_m_id e := default [] (by_machine !! se_m_id e) ++ [id]]> by_machine).
Proof.
  intros [Hb Hl] Hid. split.
  - intros m ids. destruct (decide (m = se_m_id e)) as [->|Hm].
    + rewrite lookup_insert_eq. intros [= <-].
      assert (NoDup (default [] (by_machine !! se_m_id e)) ∧
        ∀ x, x ∈ default [] (by_machine !! se_m_id e) →
          ∃ e', sessions !! x = Some e' ∧ se_m_id e' = se_m_id e) as [Hnd Hin].
      { destruct (by_machine !! se_m_id e) as [ids|] eqn:Hm; cbn.
        - by destruct (Hb _ _ Hm) as (_ & ? & ?).
        - split; [constructor|]. by intros x ?%not_elem_of_nil. }
      split_and!.
      * by destruct (default [] _).
      * apply NoDup_app. split_and!; [done| |apply NoDup_singleton].
        intros x Hx ->%list_elem_of_singleton. destruct (Hin _ Hx) as (? & ? & _). congruence.
      * intros x [Hx|Hx]%elem_of_app.
        -- destruct (Hin _ Hx) as (e' & He' & ?). exists e'. rewrite lookup_insert_ne; [done|congruence].
        -- apply list_elem_of_singleton in Hx as ->. exists e. by rewrite lookup_insert_eq.
    + rewrite lookup_insert_ne by done. intros Hm'. destruct (Hb _ _ Hm') as (? & ? & Hin).
      split_and!; [done..|]. intros x Hx. destruct (Hin _ Hx) as (e' & He' & ?). exists e'.
      rewrite lookup_insert_ne; [done|congruence].
  - intros x e'. destruct (decide (x = id)) as [->|Hx].
    + rewrite lookup_insert_eq. intros [= ->]. eexists. rewrite lookup_insert_eq. split; [done|].
      apply elem_of_app. right. by apply list_elem_of_singleton.
    + rewrite lookup_insert_ne by done. intros He'. destruct (Hl _ _ He') as (ids & Hm & Hin).
      destruct (decide (se_m_id e' = se_m_id e)) as [Hme|Hme].
      * rewrite Hme in *. eexists. rewrite lookup_insert_eq. split; [done|].
        rewrite Hm. cbn. apply elem_of_app. by left.
      * exists ids. by rewrite lookup_insert_ne.
Qed.

(** What a body may do to the tracked sessions: forget the closed ones, collect
    others to announce to, and keep the rest if the revision allows them. *)
Record Trimmed (w : World) (sessions sessions' : Sessions) (r' : Revision) (anns : list Target)
    : Prop := {
  tr_kept : ∀ id e, sessions' !! id = Some e → sessions !! id = Some e;
  tr_gone : ∀ id e, sessions !! id = Some e →
    cell_at w (se_sync e) is_closed ∨ target_of (id, e) ∈ anns ∨
    sessions' !! id = Some e ∧
      (r' = in_last_known_revision (w_inner w) ∨
       should_revoke (se_m_id e) (se_machine_cert_fingerprint e) r' = false);
  tr_anns : ∀ t, t ∈ anns → ∃ e, sessions !! tg_id t = Some e ∧ t = target_of (tg_id t, e);
}.

Section bodies_ok.
Context (w : World) (HI : Inv w).
Context (sessions : Sessions) (by_machine : ByMachine).
Context (Hmode : in_mode (w_inner w) = Live sessions by_machine).

Lemma live_entries :
  Indexed sessions by_machine ∧
  ∀ id e, sessions !! id = Some e → ∃ c, w_cells w !! se_sync e = Some c ∧ entry_of e id c.
Proof. pose proof (iv_entries _ HI) as H. unfold entries_ok in H. by rewrite Hmode in H. Qed.

Lemma targets_of_sessions anns :
  (∀ t, t ∈ anns → ∃ e, sessions !! tg_id t = Some e ∧ t = target_of (tg_id t, e)) →
  Forall (target_ok w) anns.
Proof.
  intros H. apply Forall_forall. intros t Ht. destruct (H _ Ht) as (e & He & ->).
  destruct live_entries as [_ Hent]. destruct (Hent _ _ He) as (c & Hc & Hid & _). by exists c.
Qed.

Lemma trimmed_enforced sessions' by_machine' r' anns data :
  Trimmed w sessions sessions' r' anns →
  in_mode data = Live sessions' by_machine' → in_last_known_revision data = r' →
  enforced w data anns.
Proof.
  intros [T1 T2 T3] Hm Hr _ s c Hc Hg Hi Hncl.
  destruct (iv_enforced _ HI) with (s := s) (c := c) as [(t & Ht & _)|[Htr Hal]]; try done.
  { unfold is_live, is_unavailable. by rewrite Hmode. }
  { by apply not_elem_of_nil in Ht. }
  destruct Htr as (ss & bm & e & Hm' & He & Hs). rewrite Hmode in Hm'. injection Hm' as <- <-.
  destruct live_entries as [_ Hent]. destruct (Hent _ _ He) as (c' & Hc' & _ & Hem & Hef).
  assert (c' = c) as -> by congruence.
  destruct (T2 _ _ He) as [(c' & Hc2 & Hcl)|[Hin|[He' Hok]]].
  - assert (c' = c) as -> by congruence. done.
  - left. eexists. split; [done|]. done.
  - right. split; [by exists sessions', by_machine', e|]. unfold allowed in *. subst.
    destruct Hok as [->|Hok]; [done|]. by rewrite Hem, Hef.
Qed.

Lemma trimmed_entries sessions' by_machine' r' anns data :
  Trimmed w sessions sessions' r' anns → Indexed sessions' by_machine' →
  in_mode data = Live sessions' by_machine' → entries_ok (w_cells w) data.
Proof.
  intros [T1 _ _] Hix Hm. unfold entries_ok. rewrite Hm. split; [done|].
  intros id e He. apply live_entries. by apply T1.
Qed.

(** The general case of a body that leaves the registry live. *)
Lemma trimmed_ok sessions' by_machine' r' anns data k :
  Trimmed w sessions sessions' r' anns → Indexed sessions' by_machine' →
  in_mode data = Live sessions' by_machine' → in_last_known_revision data = r' →
  in_next_session_id data = in_next_session_id (w_inner w) → after_ok w k →
  pc_ok w (Pc_Stores (Ef_Announce <$> anns) [] data (revoke_then k)).
Proof.
  intros HT Hix Hm Hr Hn Hk.
  assert (is_live data = true) as Hl by (unfold is_live, is_unavailable; by rewrite Hm).
  split_and!; [|constructor| |split; [constructor|done]].
  - apply so_other.
    + apply Forall_fmap, Forall_forall. intros t _. right. by exists t.
    + intros H. unfold is_live, is_unavailable in H. by rewrite Hmode in H.
    + congruence.
    + rewrite announcements_fmap. by eapply trimmed_enforced.
    + split; [by eapply trimmed_entries|done].
  - rewrite announcements_fmap. apply targets_of_sessions, HT.
Qed.

Lemma trimmed_ok_nil sessions' by_machine' data k :
  Trimmed w sessions sessions' (in_last_known_revision (w_inner w)) [] →
  Indexed sessions' by_machine' → in_mode data = Live sessions' by_machine' →
  in_last_known_revision data = in_last_known_revision (w_inner w) →
  in_next_session_id data = in_next_session_id (w_inner w) → after_ok w k →
  pc_ok w (Pc_Stores [] [] data (revoke_then k)).
Proof. intros. by eapply (trimmed_ok sessions' by_machine' _ []). Qed.
End bodies_ok.

(** *** The bodies one by one *)

Section body_steps.
Context (w : World) (HI : Inv w) (e : Env).
Let phase := body_phase e w.

Lemma seen_closed sessions by_machine id en :
  in_mode (w_inner w) = Live sessions by_machine →
  sessions !! id = Some en → phase (se_sync en) = PHASE_CLOSED → cell_at w (se_sync en) is_closed.
Proof.
  intros Hm He Hp. destruct (live_entries w HI _ _ Hm) as [_ Hent].
  destruct (Hent _ _ He) as (c & Hc & _). exists c. split; [done|]. by eapply body_phase_closed.
Qed.

(** The sweep of closed sessions. *)
Lemma prune_trimmed sessions by_machine :
  in_mode (w_inner w) = Live sessions by_machine →
  Trimmed w sessions (prune_closed_locked phase (sessions, by_machine)).1.1
    (in_last_known_revision (w_inner w)) [].
Proof.
  intros Hm. split.
  - intros id en [He _]%prune_closed_lookup. done.
  - intros id en He. destruct (decide (phase (se_sync en) = PHASE_CLOSED)).
    + left. by eapply seen_closed.
    + right; right. split; [|by left]. by apply prune_closed_lookup.
  - by intros t ?%not_elem_of_nil.
Qed.

(** A pruning of what the sweep left. *)
Lemma trimmed_pruned sessions s1 s2 dead :
  Trimmed w sessions s1 (in_last_known_revision (w_inner w)) [] → Pruned s1 s2 dead →
  Trimmed w sessions s2 (in_last_known_revision (w_inner w)) dead.
Proof.
  intros [T1 T2 _] [P1 P2 P3]. split.
  - auto.
  - intros id en He. destruct (T2 _ _ He) as [?|[?%not_elem_of_nil|[He1 _]]]; [by left|done|].
    destruct (P2 _ _ He1) as [?|?]; [right; right; eauto|right; by left].
  - intros t Ht. destruct (P3 _ Ht) as (en & He & ->). eauto.
Qed.

Lemma live_indexed sessions by_machine :
  in_mode (w_inner w) = Live sessions by_machine → Indexed sessions by_machine.
Proof. intros Hm. by destruct (live_entries w HI _ _ Hm). Qed.

Lemma trimmed_refl sessions :
  Trimmed w sessions sessions (in_last_known_revision (w_inner w)) [].
Proof. split; [done|eauto|]. by intros t ?%not_elem_of_nil. Qed.

(** A body that changes nothing. *)
Lemma unchanged_ok k : after_ok w k → pc_ok w (Pc_Stores [] [] (w_inner w) (revoke_then k)).
Proof.
  intros Hk. split_and!; [|constructor..|split; [constructor|done]].
  apply so_other; try done.
  - intros Hl. destruct (iv_unavailable _ HI Hl); auto.
  - apply HI.
  - split; [apply HI|done].
Qed.

(** Sessions that are closed are forgotten. *)
Lemma forget_closed_trimmed sessions by_machine ids :
  in_mode (w_inner w) = Live sessions by_machine →
  (∀ id en, id ∈ ids → sessions !! id = Some en → cell_at w (se_sync en) is_closed) →
  Trimmed w sessions (forget_all ids (sessions, by_machine)).1
    (in_last_known_revision (w_inner w)) [].
Proof.
  intros Hm Hcl. split.
  - intros id en. rewrite forget_all_lookup. by case_decide.
  - intros id en He. rewrite forget_all_lookup. case_decide; [left; eauto|right; right; eauto].
  - by intros t ?%not_elem_of_nil.
Qed.

Lemma remove_pending_ok id s m_id inner' o :
  op_ok w (L_RemoveClosedPending id s m_id) →
  try_remove_closed_pending (w_inner w) id s m_id = (inner', o) →
  pc_ok w (Pc_Stores [] [] inner' (revoke_then (Af_Return (Ret_Cancel o)))).
Proof.
  intros (c & Hc & Hid & Hmid & Hcl). unfold try_remove_closed_pending.
  destruct (in_mode (w_inner w)) as [sessions by_machine|] eqn:Hm.
  2: { intros [= <- <-]. by apply unchanged_ok. }
  destruct (sessions !! id) as [en|] eqn:He; cbn.
  2: { intros [= <- <-]. by apply unchanged_ok. }
  case_bool_decide as Hs; cbn.
  2: { intros [= <- <-]. by apply unchanged_ok. }
  intros [= <- <-]. destruct (live_entries w HI _ _ Hm) as [Hix Hent].
  destruct (Hent _ _ He) as (c' & Hc' & _ & Hm' & _).
  assert (c' = c) as -> by congruence.
  assert (forget_all [id] (sessions, by_machine) =
          (delete id sessions, unbucket m_id id by_machine)) as Hf.
  { cbn. unfold forget. cbn. rewrite He. cbn. do 2 f_equal. congruence. }
  pose proof (forget_closed_trimmed sessions by_machine [id] Hm) as HT. rewrite Hf in HT. cbn in HT.
  eapply (trimmed_ok_nil w HI sessions by_machine Hm (delete id sessions) (unbucket m_id id by_machine));
    try done; [apply HT|].
  - intros x ex ->%list_elem_of_singleton Hex. assert (ex = en) as -> by congruence.
    exists c. by rewrite Hs.
  - pose proof (forget_all_indexed [id] (sessions, by_machine) Hix) as H. by rewrite Hf in H.
Qed.

Lemma reconcile_ok inner' o :
  reconcile_closed_pending phase (w_inner w) = (inner', o) →
  pc_ok w (Pc_Stores [] [] inner' (revoke_then (Af_Return (Ret_Reconcile o)))).
Proof.
  unfold reconcile_closed_pending. destruct (in_mode (w_inner w)) as [sessions by_machine|] eqn:Hm.
  2: { intros [= <- <-]. by apply unchanged_ok. }
  pose proof (prune_trimmed _ _ Hm) as HT.
  pose proof (prune_closed_indexed phase (sessions, by_machine) (live_indexed _ _ Hm)) as Hix.
  destruct (prune_closed_locked phase (sessions, by_machine)) as [[ss bm] n] eqn:Hpr.
  intros [= <- <-]. by eapply (trimmed_ok_nil w HI sessions by_machine Hm).
Qed.

Lemma remove_session_ok id inner' o k :
  after_ok w k → remove_session (w_inner w) id = Some (inner', o) →
  pc_ok w (Pc_Stores (Ef_Announce <$> option_list o) [] inner' (revoke_then k)).
Proof.
  intros Hk. unfold remove_session.
  destruct (in_mode (w_inner w)) as [sessions by_machine|] eqn:Hm; [|done].
  pose proof (forget_indexed id (sessions, by_machine) (live_indexed _ _ Hm)) as Hix.
  pose proof (forget_lookup id (sessions, by_machine)) as Hlk.
  destruct (forget id (sessions, by_machine)) as [ss bm] eqn:Hf. intros [= <- <-].
  eapply (trimmed_ok w HI sessions by_machine Hm ss bm); try done. split.
  - intros x en. specialize (Hlk x). cbn in Hlk. rewrite Hlk. by case_decide.
  - intros x en He. specialize (Hlk x). cbn in Hlk. rewrite Hlk. case_decide as Hx; subst.
    + right; left. rewrite He. cbn. by apply list_elem_of_singleton.
    + right; right. by split; [|left].
  - intros t Ht. destruct (sessions !! id) as [en|] eqn:He; cbn in Ht; [|by apply not_elem_of_nil in Ht].
    apply list_elem_of_singleton in Ht as ->. by exists en.
Qed.

Lemma count_ok m_id inner' dead n :
  registered_count_inner phase (e_alive e) (w_inner w) m_id = (inner', dead, n) →
  pc_ok w (Pc_Stores (Ef_Announce <$> dead) [] inner' (revoke_then (Af_Return (Ret_Count n)))).
Proof.
  unfold registered_count_inner. destruct (in_mode (w_inner w)) as [sessions by_machine|] eqn:Hm.
  2: { intros [= <- <- <-]. by apply unchanged_ok. }
  pose proof (prune_trimmed _ _ Hm) as HT.
  pose proof (prune_closed_indexed phase (sessions, by_machine) (live_indexed _ _ Hm)) as Hix.
  destruct (prune_closed_locked phase (sessions, by_machine)) as [[ss bm] r] eqn:Hpr. cbn in *.
  destruct (bm !! m_id) as [ids|] eqn:Hb.
  2: { intros [= <- <- <-]. by eapply (trimmed_ok_nil w HI sessions by_machine Hm ss bm). }
  destruct (retain_alive (e_alive e) (λ _, false) ids ss) as [[kept ss'] d] eqn:Hr.
  intros [= <- <- <-]. destruct (retain_alive_spec _ _ _ _ _ _ _ Hr) as (Hp & _).
  eapply (trimmed_ok w HI sessions by_machine Hm ss'); try done.
  - by eapply trimmed_pruned.
  - by eapply retain_alive_indexed.
Qed.

Lemma phase_c_ok to_revoke o :
  op_ok w (L_PhaseC to_revoke o) →
  pc_ok w (Pc_Stores [] [] (observe_phase_c (w_inner w) to_revoke)
             (revoke_then (Af_Finish o to_revoke))).
Proof.
  intros Hd. cbn in Hd. unfold observe_phase_c.
  destruct (in_mode (w_inner w)) as [sessions by_machine|] eqn:Hm; [|by apply unchanged_ok].
  pose proof (forget_closed_trimmed sessions by_machine (tg_id <$> to_revoke) Hm) as HT.
  pose proof (forget_all_indexed (tg_id <$> to_revoke) (sessions, by_machine) (live_indexed _ _ Hm))
    as Hix.
  destruct (forget_all (tg_id <$> to_revoke) (sessions, by_machine)) as [ss bm] eqn:Hf. cbn in *.
  eapply (trimmed_ok_nil w HI sessions by_machine Hm ss bm); try done. apply HT.
  intros id en (t & -> & Ht)%list_elem_of_fmap He.
  rewrite Forall_forall in Hd. destruct (Hd _ Ht) as (c & Hc & Hid & Hcl & _).
  destruct (live_entries w HI _ _ Hm) as [_ Hent]. destruct (Hent _ _ He) as (c' & Hc' & Hid' & _).
  assert (tg_sync t = se_sync en) as <- by (eapply (iv_ids _ HI); eauto; congruence).
  exists c. done.
Qed.

Lemma advance_ok sessions by_machine r' maps anns :
  in_mode (w_inner w) = Live sessions by_machine →
  advance phase (e_alive e) sessions by_machine r' = (maps, anns) →
  Trimmed w sessions maps.1 r' anns ∧ Indexed maps.1 maps.2.
Proof.
  intros Hm. unfold advance.
  set (to_revoke := filter _ (map_to_list sessions)).
  pose proof (prune_trimmed _ _ Hm) as [T1 T2 _].
  pose proof (prune_closed_indexed phase (sessions, by_machine) (live_indexed _ _ Hm)) as Hix.
  destruct (prune_closed_locked phase (sessions, by_machine)) as [m1 n1]. cbn in *.
  destruct (prune_dead _ _ _ m1) as [m2 dead] eqn:Hd. intros [= <- <-].
  destruct (prune_dead_spec _ _ _ _ _ _ Hd) as [[P1 P2 P3] Hix2].
  assert (∀ id en, (id, en) ∈ to_revoke ↔ sessions !! id = Some en ∧
    should_revoke (se_m_id en) (se_machine_cert_fingerprint en) r' = true) as Hto.
  { intros id en. unfold to_revoke. rewrite list_elem_of_filter, elem_of_map_to_list. naive_solver. }
  split; [split|auto].
  - auto.
  - intros id en He.
    destruct (should_revoke (se_m_id en) (se_machine_cert_fingerprint en) r') eqn:Hs.
    + right; left. apply elem_of_app. left. apply list_elem_of_fmap. exists (id, en).
      split; [done|]. by apply Hto.
    + destruct (T2 _ _ He) as [?|[?%not_elem_of_nil|[He1 _]]]; [by left|done|].
      destruct (P2 _ _ He1); [right; right; by eauto|right; left; apply elem_of_app; by right].
  - intros t [Ht|Ht]%elem_of_app.
    + apply list_elem_of_fmap in Ht as ([id en] & -> & [? _]%Hto). by exists en.
    + destruct (P3 _ Ht) as (en & He & ->). eauto.
Qed.

Lemma all_targets_sessions sessions t :
  t ∈ all_targets sessions → ∃ en, sessions !! tg_id t = Some en ∧ t = target_of (tg_id t, en).
Proof.
  intros ([id en] & -> & Hin%elem_of_map_to_list)%list_elem_of_fmap. by exists en.
Qed.

(** The registry closes down: every session is announced to, under the lock or
    after it. *)
Lemma shutdown_ok sessions by_machine anns later k :
  in_mode (w_inner w) = Live sessions by_machine → after_ok w k →
  (∀ t, t ∈ anns → t ∈ all_targets sessions) → (∀ t, t ∈ later → t ∈ all_targets sessions) →
  pc_ok w (Pc_Stores (Ef_StoreLive false :: (Ef_Announce <$> anns)) []
             (with_mode Unavailable (w_inner w)) (Nx_Revoke later k)).
Proof.
  intros Hm Hk Ha Hl. split_and!; [|constructor| | |done].
  - apply so_other; try done.
    + constructor; [by left|]. apply Forall_fmap, Forall_forall. intros t _. right. by exists t.
    + intros _. right; right. by left.
  - cbn. change (mjoin (announced_by <$> (Ef_Announce <$> anns)))
      with (announcements (Ef_Announce <$> anns)). rewrite announcements_fmap.
    eapply targets_of_sessions; [done..|]. intros t Ht. by apply all_targets_sessions, Ha.
  - eapply targets_of_sessions; [done..|]. intros t Ht. by apply all_targets_sessions, Hl.
Qed.

Lemma observe_ok snapshot inner' effects o :
  observe_phase_a phase (e_alive e) (w_generation w) (w_inner w) snapshot = (inner', effects, o) →
  pc_ok w (Pc_Stores effects [] inner' (revoke_then (Af_PhaseC o))).
Proof.
  unfold observe_phase_a. set (cmp := if bool_decide _ then _ else _).
  destruct (in_mode (w_inner w)) as [sessions by_machine|] eqn:Hm.
  - assert (∀ o', (with_mode Unavailable (w_inner w),
        Ef_StoreLive false :: (Ef_Announce <$> all_targets sessions), o') = (inner', effects, o) →
      pc_ok w (Pc_Stores effects [] inner' (revoke_then (Af_PhaseC o)))) as Hdown.
    { intros o' [= <- <- <-]. eapply shutdown_ok; try done. by intros t ?%not_elem_of_nil. }
    destruct cmp.
    + apply Hdown.
    + apply Hdown.
    + intros [= <- <- <-]. by apply unchanged_ok.
    + destruct (advance _ _ _ _ _) as [[ss bm] anns] eqn:Hadv. intros [= <- <- <-].
      destruct (advance_ok _ _ _ _ _ Hm Hadv) as [HT Hix].
      by eapply (trimmed_ok w HI sessions by_machine Hm ss bm).
  - assert (∀ o', (w_inner w, [], o') = (inner', effects, o) →
      pc_ok w (Pc_Stores effects [] inner' (revoke_then (Af_PhaseC o)))) as Hsame.
    { intros o' [= <- <- <-]. by apply unchanged_ok. }
    assert (match checked_add (w_generation w) 1 with
        | Some next_generation =>
            (MkInner (in_hh_id (w_inner w)) (from_snapshot snapshot)
               (in_next_session_id (w_inner w)) (Live ∅ ∅),
             [Ef_StoreGeneration next_generation; Ef_StoreLive true], OO_Recovered)
        | None => (w_inner w, [], OO_Rejected)
        end = (inner', effects, o) →
      pc_ok w (Pc_Stores effects [] inner' (revoke_then (Af_PhaseC o)))) as Hrec.
    { destruct (checked_add (w_generation w) 1) as [g|] eqn:Hg; [|apply Hsame].
      apply checked_add_Some in Hg as [-> _]. intros [= <- <- <-].
      split_and!; [|constructor..|split; [constructor|done]].
      apply so_recover; try done; [by apply is_live_Unavailable|by eexists|by left]. }
    destruct cmp; [apply Hsame|apply Hsame|apply Hrec|apply Hrec].
Qed.

Lemma mark_unavailable_ok inner' effects later :
  mark_unavailable_locked (w_inner w) = (inner', effects, later) →
  pc_ok w (Pc_Stores effects [] inner'
             (Nx_Revoke later (Af_Return (Ret_Observe OO_Rejected)))).
Proof.
  unfold mark_unavailable_locked. destruct (in_mode (w_inner w)) as [sessions by_machine|] eqn:Hm.
  - intros [= <- <- <-]. eapply (shutdown_ok sessions by_machine []); try done.
    by intros t ?%not_elem_of_nil.
  - intros [= <- <- <-]. by apply unchanged_ok.
Qed.

Lemma preauthorize_Ok guard binding handle n data id :
  preauthorize_locked phase (e_alive e) guard binding handle n = Ok (data, id) →
  ∃ sessions by_machine,
    let pruned := (prune_closed_locked phase (sessions, by_machine)).1 in
    in_mode guard = Live sessions by_machine ∧ id = in_next_session_id guard + 1 ∧
    should_revoke (sb_m_id binding) (sb_machine_cert_fingerprint binding)
      (in_last_known_revision guard) = false ∧
    data = MkInner (in_hh_id guard) (in_last_known_revision guard) id
      (Live (<[id := MkSessionEntry (sb_m_id binding) (sb_machine_cert_fingerprint binding) handle n]>
               pruned.1)
            (<[sb_m_id binding := default [] (pruned.2 !! sb_m_id binding) ++ [id]]> pruned.2)).
Proof.
  unfold preauthorize_locked. destruct (in_mode guard) as [ss bm|]; [|done]. intros H.
  exists ss, bm. destruct (prune_closed_locked phase (ss, bm)) as [[ss' bm'] k] eqn:Hpr.
  res_inv. injection H as <- <-.
  match goal with Hc : checked_add _ _ = Some _ |- _ => apply checked_add_Some in Hc as [-> _] end.
  split_and!; try done. unfold should_revoke. rewrite bool_decide_false by done.
  destruct (rev_active _ !! _) as [fp|]; [|done]. res_inv. by rewrite bool_decide_true.
Qed.

Lemma preauthorize_ok binding handle data id :
  preauthorize_locked phase (e_alive e) (w_inner w) binding handle (length (w_cells w)) =
    Ok (data, id) →
  pc_ok w (Pc_Stores [] [] data (Nx_Permit (MkCell new_pending id (sb_m_id binding)
             (sb_machine_cert_fingerprint binding) (w_generation w)))).
Proof.
  intros (sessions & by_machine & Hm & -> & Hsr & ->)%preauthorize_Ok.
  pose proof (prune_trimmed _ _ Hm) as HT.
  pose proof (prune_closed_indexed phase (sessions, by_machine) (live_indexed _ _ Hm)) as Hix.
  destruct (prune_closed_locked phase (sessions, by_machine)) as [[ss bm] k]. cbn in *.
  set (id := in_next_session_id (w_inner w) + 1). set (n := length (w_cells w)).
  set (en := MkSessionEntry _ _ handle n).
  destruct (live_entries w HI _ _ Hm) as [_ Hent].
  assert (∀ x ex, ss !! x = Some ex → x ≠ id ∧
    ∃ c, w_cells w !! se_sync ex = Some c ∧ entry_of ex x c) as Hss.
  { intros x ex Hx. destruct (Hent _ _ (tr_kept _ _ _ _ _ HT _ _ Hx)) as (c & Hc & Hce).
    split; [|by eauto]. pose proof (ci_id _ _ _ (iv_cells _ HI _ _ Hc)). destruct Hce as [<- _].
    unfold id. lia. }
  split_and!; [|constructor|constructor|done|done].
  apply so_other; cbn; try done.
  - intros Hl. apply is_live_Unavailable in Hl. congruence.
  - intros _ s c Hc Hg Hi Hncl. right.
    destruct (trimmed_enforced w HI _ _ Hm ss bm _ []
      (MkInner (in_hh_id (w_inner w)) (in_last_known_revision (w_inner w)) id (Live ss bm)) HT
      eq_refl eq_refl eq_refl s c Hc Hg Hi Hncl) as [(t & Ht & _)|[Htr Hal]].
    { by apply not_elem_of_nil in Ht. }
    split; [|done]. destruct Htr as (ss0 & bm0 & ec & [= <- <-] & He & Hs).
    eexists _, _, ec. split_and!; [done| |done]. rewrite lookup_insert_ne; [done|].
    apply not_eq_sym. by destruct (Hss _ _ He).
  - split_and!; try done.
    + change (sb_m_id binding) with (se_m_id en). apply indexed_insert; [done|].
      destruct (ss !! id) eqn:Hid; [|done]. by destruct (Hss _ _ Hid).
    + intros x ex [[<- <-]|[_ Hx]]%lookup_insert_Some.
      * eexists. split; [by apply list_lookup_middle|done].
      * destruct (Hss _ _ Hx) as (_ & c & Hc & Hce). exists c.
        split; [by apply lookup_app_l_Some|done].
    + unfold id. lia.
    + eexists _, _, en. split_and!; [done| |done]. cbn. by rewrite lookup_insert_eq.
Qed.

Lemma run_body_ok op data effects k :
  op_ok w op → run_body e w op = (data, effects, k) → pc_ok w (Pc_Stores effects [] data k).
Proof.
  intros Hop. unfold run_body. fold phase. destruct op as [b h d|id s m| |id|id|m| |sn|ts o|].
  - destruct (d <=? e_now e). { intros [= <- <- <-]. by apply unchanged_ok. }
    destruct (preauthorize_locked _ _ _ _ _ _) as [[inner' id]|r] eqn:Hpre.
    + intros [= <- <- <-]. by eapply preauthorize_ok.
    + intros [= <- <- <-]. by apply unchanged_ok.
  - destruct (try_remove_closed_pending _ _ _ _) as [inner' o] eqn:Hr. intros [= <- <- <-].
    by eapply remove_pending_ok.
  - destruct (reconcile_closed_pending _ _) as [inner' o] eqn:Hr. intros [= <- <- <-].
    by eapply reconcile_ok.
  - destruct (remove_session _ _) as [[inner' o]|] eqn:Hr.
    + pose proof (remove_session_ok _ _ _ (Af_Return Ret_Unregister) I Hr) as H.
      destruct o; intros [= <- <- <-]; exact H.
    + intros [= <- <- <-]. by apply unchanged_ok.
  - destruct (remove_session _ _) as [[inner' o]|] eqn:Hr.
    + pose proof (λ r, remove_session_ok _ _ _ (Af_Return (Ret_Retire r)) I Hr) as H.
      destruct o; intros [= <- <- <-]; apply H.
    + intros [= <- <- <-]. by apply unchanged_ok.
  - destruct (registered_count_inner _ _ _ _) as [[inner' dead] n] eqn:Hr. intros [= <- <- <-].
    by eapply count_ok.
  - intros [= <- <- <-]. by apply unchanged_ok.
  - destruct (observe_phase_a _ _ _ _ _) as [[inner' effs] o] eqn:Hr. intros [= <- <- <-].
    by eapply observe_ok.
  - intros [= <- <- <-]. by apply phase_c_ok.
  - destruct (mark_unavailable_locked _) as [[inner' effs] later] eqn:Hr. intros [= <- <- <-].
    by eapply mark_unavailable_ok.
Qed.
End body_steps.

(** ** Every step *)

Lemma inv_call w p :
  Inv w → outside p → (∀ x, owes x p = 0%nat) → (∀ x, permits x p = 0%nat) →
  holds_inner p = false → pc_ok w p →
  Inv (MkWorld (w_inner w) (w_holder w) (w_poisoned w) (w_live w) (w_generation w)
         (w_cells w) (w_pcs w ++ [p])).
Proof.
  intros HI [Ho1 Ho2] How Hpm Hh Hok. pose proof HI as [I1 I2 I3 I4 I5 I6 I7 I8].
  set (w' := MkWorld _ _ _ _ _ _ _).
  assert (∀ i (P : Pc → Prop), ¬ P p →
    (∃ q, w_pcs w' !! i = Some q ∧ P q) ↔ (∃ q, w_pcs w !! i = Some q ∧ P q)) as Hex.
  { intros i P HP. cbn. split.
    - intros (q & [?|[_ [_ <-]%list_lookup_singleton_Some]]%lookup_app_Some & Hq); [eauto|done].
    - intros (q & Hq & HPq). exists q. split; [by apply lookup_app_l_Some|done]. }
  assert (∀ j, Evolves j w w') as Hev by (intros; by apply evolves_reg).
  split; try done.
  - intros s c Hc. destruct (I1 _ _ Hc) as [C1 C1' C2 C3 C4 C5 C6 C7 C8]. destruct (Ho1 s) as [Hi Hw].
    split; try done; cbn [w' w_pcs]; rewrite ?sum_app; cbn; rewrite ?How, ?Hi, ?Hpm; try lia.
    + intros Hpo. specialize (C1' Hpo). lia.
    + intros i. rewrite C4. by rewrite <-(Hex i (λ q, holds_state q = Some s)) by congruence.
    + intros Hcl Hr. destruct (C6 Hcl Hr) as (i & q & Hq & Hwq). exists i, q.
      split; [by apply lookup_app_l_Some|done].
  - intros i q [Hq|[_ [_ <-]%list_lookup_singleton_Some]]%lookup_app_Some.
    + eapply (pc_ok_evolves i); [by apply Hev| | |by eapply I2].
      * intros Hhi. apply I3. eauto.
      * intros x cx Hhs Hx. apply (ci_holder _ _ _ (I1 _ _ Hx)). eauto.
    + eapply (pc_ok_evolves 0); [by apply Hev| | |done]; congruence.
  - intros i. change (w_holder w') with (w_holder w). rewrite I3.
    by rewrite <-(Hex i (λ q, holds_inner q = true)) by congruence.
Qed.

Lemma inv_poison_state w s c :
  Inv w → w_cells w !! s = Some c → Inv (upd_sync s set_poisoned w).
Proof.
  intros HI Hc. pose proof HI as [I1 I2 I3 I4 I5 I6 I7 I8].
  set (w' := upd_sync s set_poisoned w).
  assert (∀ x cx, w_cells w' !! x = Some cx → ∃ c0, w_cells w !! x = Some c0 ∧
    (cx = c0 ∨ cx = on_sync set_poisoned c0)) as Hlk.
  { intros x cx. unfold w'. rewrite lookup_upd_sync. case_decide; [subst|by eauto].
    rewrite Hc. cbn. intros [= <-]. eauto. }
  assert (length (w_cells w') = length (w_cells w)) as Hlen by apply length_alter.
  assert (∀ j, Evolves j w w') as Hev.
  { intros j. split; try done. intros x cx Hx. unfold w'. rewrite lookup_upd_sync. case_decide.
    - subst. rewrite Hx. cbn. eexists. split_and!; done.
    - exists cx. by split_and!. }
  split; try done.
  - intros x cx (c0 & Hx & [->| ->])%Hlk; destruct (I1 _ _ Hx); by split.
  - intros i q Hq. eapply (pc_ok_evolves i); [by apply Hev| | |by eapply I2].
    + intros Hhi. apply I3. eauto.
    + intros x cx Hhs Hx. apply (ci_holder _ _ _ (I1 _ _ Hx)). eauto.
  - intros s1 s2 c1 c2 (d1 & H1 & Hd1)%Hlk (d2 & H2 & Hd2)%Hlk Hid. eapply I4; [done..|].
    destruct Hd1 as [->| ->], Hd2 as [->| ->]; done.
  - rewrite <-(app_nil_r (w_cells w')). eapply (entries_ok_evolves 0 w); [done| |done].
    by rewrite app_nil_r.
  - by eapply (enforced_evolves 0 w).
  - intros Hm. destruct (I7 Hm) as [?|?]; [by left|right]. by eapply (bumped_evolves 0 w).
Qed.

Lemma inv_drained w i rest all k :
  Inv w → w_pcs w !! i = Some (Pc_Drained rest all k) →
  Inv (set_pc i (match rest with
                 | t :: rest => Pc_Drain D_Lock t rest all k
                 | [] => after_drain all k
                 end) w).
Proof.
  intros HI Hp. destruct (iv_pcs _ HI _ _ Hp) as (Hrest & Hall & Hk).
  destruct rest as [|t rest].
  - assert (Forall (target_drained w) all) as Hd.
    { eapply Forall_impl; [exact Hall|]. cbn. by intros t [?%not_elem_of_nil|?]. }
    destruct k as [r|o|o dr]; cbn in *; [|destruct all|]; by eapply inv_pc.
  - eapply inv_pc; try done.
Qed.

Lemma run_pc_inv i e p w w' :
  Inv w → w_pcs w !! i = Some p → run_pc i e p w = Some w' → Inv w'.
Proof.
  intros HI Hp H. pose proof (iv_pcs _ HI _ _ Hp) as Hok.
  destruct p as [op|op|[|f todo] ann data k|[|t todo] ann k|d t rest all k|[|t rest] all k|s id m|
    g s gen adm|r dr]; cbn in H; try done.
  - by eapply inv_lock_inner.
  - destruct (run_body e w op) as [[data effs] k] eqn:Hb. injection H as <-.
    eapply inv_pc; try done. by eapply run_body_ok.
  - injection H as <-. destruct k as [c|later k]; [|by apply inv_unlock_revoke].
    destruct Hok as (Hst & _ & _ & _ & ->). by apply inv_unlock_permit.
  - injection H as <-. destruct f; cbn.
    + by apply inv_store_announce.
    + by apply inv_store_generation.
    + by apply inv_store_live.
  - injection H as <-. destruct Hok as (_ & Ha & Hk). eapply inv_pc; try done.
    split_and!; try done. apply Forall_forall. by left.
  - injection H as <-. by apply inv_announce.
  - by eapply drain_step_inv.
  - injection H as <-. by apply (inv_drained w i [] all k).
  - injection H as <-. by apply (inv_drained w i (t :: rest) all k).
  - by eapply gate_step_inv.
Qed.

Lemma inv_drop_guard w i s gen adm :
  Inv w → w_pcs w !! i = Some (Pc_Gate G_Guard s gen adm) →
  Inv (set_pc i (Pc_Gate G_DropLock s gen adm) w).
Proof.
  intros HI Hp. destruct (iv_pcs _ HI _ _ Hp) as (c & Hc & _ & _).
  rewrite <-(upd_sync_id s w). eapply (inv_gate _ _ G_Guard _ _ _ adm); [done..| |done].
  pose proof (inv_not_held _ _ _ _ _ HI Hp Hc ltac:(done)).
  apply gate_local; try done; [cbn; lia|by left|]. apply (ci_pending _ _ _ (iv_cells _ HI _ _ Hc)).
Qed.

Lemma inv_spurious_wake w i t rest all k :
  Inv w → w_pcs w !! i = Some (Pc_Drain D_Sleep3 t rest all k) →
  Inv (set_pc i (Pc_Drain D_Relock3 t rest all k) w).
Proof.
  intros HI Hp. destruct (iv_pcs _ HI _ _ Hp) as (_ & _ & (c & Hc & Hcl) & _).
  rewrite <-(upd_sync_id (tg_sync t) w). eapply (inv_drain _ _ D_Sleep3); [done..| |done].
  pose proof (inv_not_held _ _ _ _ _ HI Hp Hc ltac:(done)).
  apply drain_local; try done.
  - apply (ci_pending _ _ _ (iv_cells _ HI _ _ Hc)).
  - intros _ _. left. by apply bool_decide_true.
Qed.

Lemma step_inv a w w' : Inv w → step a w = Some w' → Inv w'.
Proof.
  intros HI H. destruct a as [c|i e|i|i|i|i|i|i|s]; cbn in H.
  - apply fmap_Some in H as (p & Hp & ->). apply inv_call; try done;
      destruct c as [op|s]; cbn in Hp;
      try (destruct op; try discriminate Hp; injection Hp as <-; done);
      apply fmap_Some in Hp as (c & Hc & ->); try done. by exists c.
  - apply bind_Some in H as (p & Hp & H). by eapply run_pc_inv.
  - apply bind_Some in H as (p & Hp & H). destruct p; try done. injection H as <-.
    eapply inv_permit; eauto.
  - apply bind_Some in H as (p & Hp & H). destruct p; try done. injection H as <-.
    eapply inv_permit; eauto.
  - apply bind_Some in H as (p & Hp & H). destruct p; try done. injection H as <-.
    eapply inv_permit; eauto.
  - apply bind_Some in H as (p & Hp & H). destruct p as [| | | | | | |[] s gen adm|]; try done.
    injection H as <-. by apply inv_drop_guard.
  - apply bind_Some in H as (p & Hp & H). destruct p as [| | | |[] t rest all k| | | |]; try done.
    injection H as <-. by apply inv_spurious_wake.
  - apply bind_Some in H as (p & Hp & H).
    destruct p; try done; injection H as <-; by eapply inv_panic.
  - apply bind_Some in H as (c & Hc & H). destruct (state_holder (c_sync c)); [done|].
    injection H as <-. by eapply inv_poison_state.
Qed.

Lemma registry_new_inv initial : Inv (registry_new initial).
Proof.
  split; try done. intros i. split; [done|]. by intros (p & Hp & _).
Qed.

(** Every world a registry can reach satisfies the invariant. *)
Lemma reachable_inv initial w : rtc wstep (registry_new initial) w → Inv w.
Proof.
  intros H. assert (∀ w0, rtc wstep w0 w → Inv w0 → Inv w) as Hgen.
  { clear. induction 1 as [|x y z [] _ IH]; [done|]. eauto using step_inv. }
  eapply Hgen; [done|]. apply registry_new_inv.
Qed.
