(* ===== verification/RegistryHistory.v ===== *)
(** * The mesh session registry: what only moves forward

    Facts about whole runs of [RegistrySteps]: the revision in force never goes
    back, the counters stay within their width, a call that reports a drained
    session has drained one, and what a session has gone through it stays
    through. *)

From stdpp Require Import base gmap sets list strings.
From Stdlib Require Import ZArith Lia Ascii.
From S2P Require Import Prelude.
From S2P Require Import RosterView.
From S2P Require Import Registry.
From S2P Require Import RegistrySteps.
From S2P Require Import RegistryInv.
From S2P Require Import RegistryPreserve.
From S2P Require Import RegistryLock.
From S2P Require Import RegistryBodies.

Open Scope Z_scope.

(** ** The order of revisions *)

(** [r'] is [r] or later: a higher sequence, or the same checkpoint. *)
Definition rev_le (r r' : Revision) : Prop :=
  rev_checkpoint_sequence r < rev_checkpoint_sequence r' ∨
  rev_checkpoint_sequence r = rev_checkpoint_sequence r' ∧
  rev_checkpoint_hash r = rev_checkpoint_hash r'.

#[export] Instance rev_le_preorder : PreOrder rev_le.
Proof.
  split; [by right|]. intros a b c [?|[? ?]] [?|[? ?]]; unfold rev_le; [left; lia..|right].
  split; congruence.
Qed.

(** A call that will report [RetiredAndDrained] has one target. *)
Definition one_target (k : After) (n : nat) : Prop :=
  match k with Af_Return (Ret_Retire RT_RetiredAndDrained) => n = 1%nat | _ => True end.

Definition hist_ok (inner : Inner) (p : Pc) : Prop :=
  match p with
  | Pc_Stores todo announced data k =>
      rev_le (in_last_known_revision inner) (in_last_known_revision data) ∧
      in_u64 (in_next_session_id data) ∧
      (∀ g, Ef_StoreGeneration g ∈ todo → in_u64 g) ∧
      match k with
      | Nx_Permit _ => True
      | Nx_Revoke later k =>
          one_target k (length (announcements todo) + length announced + length later)
      end
  | Pc_Announce todo announced k => one_target k (length todo + length announced)
  | Pc_Drain _ _ _ all k | Pc_Drained _ all k => one_target k (length all)
  | Pc_Done r drained =>
      match r with Ret_Retire RT_RetiredAndDrained => length drained = 1%nat | _ => True end
  | _ => True
  end.

Record Hist (w : World) : Prop := {
  hi_generation : in_u64 (w_generation w);
  hi_next : in_u64 (in_next_session_id (w_inner w));
  hi_pcs : ∀ i p, w_pcs w !! i = Some p → hist_ok (w_inner w) p;
}.

(** A step that leaves the data alone and moves one call. *)
Lemma hist_pc w w' i p' :
  Hist w → w_inner w' = w_inner w → in_u64 (w_generation w') →
  w_pcs w' = <[i := p']> (w_pcs w) → hist_ok (w_inner w) p' → Hist w'.
Proof.
  intros [Hg Hn Hp] Hi Hg' Hpcs Hok. split; rewrite ?Hi; try done.
  intros j q. rewrite Hpcs. intros [(-> & <- & _)|[_ Hq]]%list_lookup_insert_Some; eauto.
Qed.

Lemma hist_wake inner s p : hist_ok inner p → hist_ok inner (wake s p).
Proof.
  destruct p as [| | | |d t rest all k| | | |]; cbn; try done.
  destruct d; cbn; try done; by case_bool_decide.
Qed.

Lemma hist_notify s w : Hist w → Hist (notify_all s w).
Proof.
  intros [Hg Hn Hp]. split; try done. intros i p. cbn. rewrite list_lookup_fmap.
  intros (q & Hq & ->)%fmap_Some. by eapply hist_wake, Hp.
Qed.

Lemma hist_after_drain inner all k :
  one_target k (length all) → hist_ok inner (after_drain all k).
Proof. destruct k as [r|o|o dr]; cbn; [done|by destruct all|done]. Qed.

Lemma observe_rev_le phase alive gen guard snapshot inner' effects o :
  observe_phase_a phase alive gen guard snapshot = (inner', effects, o) →
  rev_le (in_last_known_revision guard) (in_last_known_revision inner') ∧
  in_next_session_id inner' = in_next_session_id guard ∧
  ((∃ g, effects = [Ef_StoreGeneration g; Ef_StoreLive true] ∧ checked_add gen 1 = Some g) ∨
   ∀ g, Ef_StoreGeneration g ∉ effects).
Proof.
  unfold observe_phase_a. set (cmp := if bool_decide _ then _ else _).
  assert (∀ g (l : list Target), Ef_StoreGeneration g ∉ Ef_Announce <$> l) as Hno.
  { intros g l (t & [=] & _)%list_elem_of_fmap. }
  assert (cmp = RC_Idempotent ∨ cmp = RC_Advance →
    rev_le (in_last_known_revision guard) (from_snapshot snapshot)) as Hcmp.
  { unfold cmp. case_bool_decide; [|by intros [[=]|[=]]]. unfold compare, rev_le. cbn.
    destruct (Z.compare_spec (rv_checkpoint_sequence snapshot)
      (rev_checkpoint_sequence (in_last_known_revision guard))).
    - case_bool_decide; [intros _; right; done|by intros [[=]|[=]]].
    - by intros [[=]|[=]].
    - intros _. left. done. }
  destruct (in_mode guard) as [ss bm|], cmp eqn:Hc.
  1-2: intros [= <- <- <-]; split_and!; [done|done|right; intros g Hg];
    apply elem_of_cons in Hg as [[=]|Hg]; by eapply Hno.
  - intros [= <- <- <-]. split_and!; [done|done|right; intros g Hg]. by apply not_elem_of_nil in Hg.
  - destruct (advance _ _ _ _ _) as [[ss' bm'] anns]. intros [= <- <- <-]. cbn.
    split_and!; [by auto|done|right; intros g; apply Hno].
  - intros [= <- <- <-]. split_and!; [done|done|right; intros g Hg]. by apply not_elem_of_nil in Hg.
  - intros [= <- <- <-]. split_and!; [done|done|right; intros g Hg]. by apply not_elem_of_nil in Hg.
  - destruct (checked_add gen 1) as [g|].
    + intros [= <- <- <-]. cbn. split_and!; [by auto|done|left; by exists g].
    + intros [= <- <- <-]. split_and!; [done|done|right; intros g Hg]. by apply not_elem_of_nil in Hg.
  - destruct (checked_add gen 1) as [g|].
    + intros [= <- <- <-]. cbn. split_and!; [by auto|done|left; by exists g].
    + intros [= <- <- <-]. split_and!; [done|done|right; intros g Hg]. by apply not_elem_of_nil in Hg.
Qed.

Lemma announce_no_generation g (l : list Target) : Ef_StoreGeneration g ∉ Ef_Announce <$> l.
Proof. intros (t & [=] & _)%list_elem_of_fmap. Qed.

Lemma with_mode_revision m i : in_last_known_revision (with_mode m i) = in_last_known_revision i.
Proof. done. Qed.

Lemma hist_body w e op data effects k :
  Hist w → run_body e w op = (data, effects, k) →
  hist_ok (w_inner w) (Pc_Stores effects [] data k).
Proof.
  intros HH. pose proof (hi_next _ HH) as Hn. pose proof (hi_generation _ HH) as Hg.
  assert (∀ k', one_target k' 0 → hist_ok (w_inner w) (Pc_Stores [] [] (w_inner w) (revoke_then k')))
    as Hsame.
  { intros k' Hk. cbn. split_and!; [done|done| |done]. by intros g ?%not_elem_of_nil. }
  assert (∀ m anns k', one_target k' (length anns) →
    hist_ok (w_inner w) (Pc_Stores (Ef_Announce <$> anns) [] (with_mode m (w_inner w)) (revoke_then k')))
    as Hmode.
  { intros m anns k' Hk. cbn. split_and!; [done|done| |].
    - intros g Hin. by apply announce_no_generation in Hin.
    - rewrite announcements_fmap. by rewrite !Nat.add_0_r. }
  unfold run_body. destruct op as [b h d|id s m| |id|id|m| |sn|ts o|].
  - destruct (d <=? e_now e). { intros [= <- <- <-]. by apply Hsame. }
    destruct (preauthorize_locked _ _ _ _ _ _) as [[inner' id]|r] eqn:Hpre.
    2: { intros [= <- <- <-]. by apply Hsame. }
    intros [= <- <- <-]. cbn. split_and!; [| |by intros g ?%not_elem_of_nil|done].
    + apply (preauthorize_Ok w e) in Hpre as (ss & bm & _ & _ & _ & ->). done.
    + unfold preauthorize_locked in Hpre. destruct (in_mode _) as [ss bm|]; [|done].
      destruct (prune_closed_locked _ _) as [[ss' bm'] kk]. res_inv. injection Hpre as <- <-. cbn.
      match goal with H : checked_add _ _ = Some _ |- _ => apply checked_add_Some in H as [-> ?] end.
      by apply in_u64_succ.
  - unfold try_remove_closed_pending. destruct (in_mode _) as [ss bm|].
    2: { intros [= <- <- <-]. by apply Hsame. }
    destruct (negb _).
    + intros [= <- <- <-]. by apply Hsame.
    + intros [= <- <- <-]. by apply (Hmode _ []).
  - unfold reconcile_closed_pending. destruct (in_mode _) as [ss bm|].
    2: { intros [= <- <- <-]. by apply Hsame. }
    destruct (prune_closed_locked _ _) as [[ss' bm'] kk]. intros [= <- <- <-]. by apply (Hmode _ []).
  - unfold remove_session. destruct (in_mode _) as [ss bm|].
    2: { intros [= <- <- <-]. by apply Hsame. }
    destruct (forget _ _) as [ss' bm']. destruct (ss !! id); cbn [fmap option_fmap option_map].
    + intros [= <- <- <-]. by apply (Hmode _ [_]).
    + intros [= <- <- <-]. by apply (Hmode _ []).
  - unfold remove_session. destruct (in_mode _) as [ss bm|].
    2: { intros [= <- <- <-]. by apply Hsame. }
    destruct (forget _ _) as [ss' bm']. destruct (ss !! id); cbn [fmap option_fmap option_map].
    + intros [= <- <- <-]. by apply (Hmode _ [_]).
    + intros [= <- <- <-]. by apply (Hmode _ []).
  - unfold registered_count_inner. destruct (in_mode _) as [ss bm|].
    2: { intros [= <- <- <-]. by apply Hsame. }
    destruct (prune_closed_locked _ _) as [[ss' bm'] kk]. destruct (bm' !! m) as [ids|].
    2: { intros [= <- <- <-]. by apply (Hmode _ []). }
    destruct (retain_alive _ _ _ _) as [[kept ss2] dead]. intros [= <- <- <-]. by apply Hmode.
  - intros [= <- <- <-]. by apply Hsame.
  - destruct (observe_phase_a _ _ _ _ _) as [[inner' effs] o] eqn:Ho. intros [= <- <- <-].
    destruct (observe_rev_le _ _ _ _ _ _ _ _ Ho) as (Hr & Hnx & Heff). cbn.
    split_and!; [done|by rewrite Hnx| |done]. intros g Hin. destruct Heff as [(g' & -> & Hg')|Hno].
    + apply elem_of_cons in Hin as [[= ->]|Hin].
      * apply checked_add_Some in Hg' as [-> ?]. by apply in_u64_succ.
      * by apply list_elem_of_singleton in Hin.
    + by apply Hno in Hin.
  - unfold observe_phase_c. destruct (in_mode _) as [ss bm|].
    2: { intros [= <- <- <-]. by apply Hsame. }
    destruct (forget_all _ _) as [ss' bm']. intros [= <- <- <-]. by apply (Hmode _ []).
  - unfold mark_unavailable_locked. destruct (in_mode _) as [ss bm|].
    2: { intros [= <- <- <-]. by apply Hsame. }
    intros [= <- <- <-]. cbn. split_and!; [done|done| |done].
    intros g Hin. by apply list_elem_of_singleton in Hin.
Qed.

(** ** Sessions *)

Definition SyncFwd (c c' : SessionSync) : Prop :=
  (ss_phase c = PHASE_CLOSED → ss_phase c' = PHASE_CLOSED) ∧
  (ss_phase c = PHASE_CLOSED → active_readers c = 0%nat → active_readers c' = 0%nat).

Definition CellsFwd (l l' : list Cell) : Prop :=
  ∀ s c, l !! s = Some c → ∃ c', l' !! s = Some c' ∧ same_birth c c' ∧ SyncFwd (c_sync c) (c_sync c').

#[export] Instance CellsFwd_preorder : PreOrder CellsFwd.
Proof.
  split.
  - intros l s c Hc. by exists c.
  - intros l1 l2 l3 H12 H23 s c Hc. destruct (H12 _ _ Hc) as (c' & Hc' & B1 & F1).
    destruct (H23 _ _ Hc') as (c2 & Hc2 & B2 & F2). exists c2. unfold same_birth, SyncFwd in *.
    split_and!; try done; naive_solver congruence.
Qed.

Lemma fwd_alter l s f :
  (∀ c, l !! s = Some c → SyncFwd (c_sync c) (f (c_sync c))) →
  CellsFwd l (alter (on_sync f) s l).
Proof.
  intros Hf x c Hc. destruct (decide (x = s)) as [->|].
  - exists (on_sync f c). rewrite list_lookup_alter_eq, Hc. split_and!; try done. by apply Hf.
  - exists c. by rewrite list_lookup_alter_ne.
Qed.

Lemma fwd_app l c : CellsFwd l (l ++ [c]).
Proof. intros s x Hx. exists x. split; [by apply lookup_app_l_Some|done]. Qed.

Lemma fwd_lock_state i s w w1 : lock_state i s w = Some w1 → CellsFwd (w_cells w) (w_cells w1).
Proof. intros (c & Hc & _ & ->)%lock_state_Some. by apply fwd_alter. Qed.

Lemma drain_fwd i d t rest all k w w' :
  drain_step i d t rest all k w = Some w' → CellsFwd (w_cells w) (w_cells w').
Proof.
  unfold drain_step. intros (c & Hc & H)%bind_Some. destruct d; try discriminate H;
    try (apply fmap_Some in H as (w1 & Hl & ->); by eapply fwd_lock_state in Hl);
    injection H as <-; try case_match; try reflexivity; by apply fwd_alter.
Qed.

Lemma gate_fwd i g s gen adm w w' :
  Inv w → w_pcs w !! i = Some (Pc_Gate g s gen adm) →
  gate_step i g s gen adm w = Some w' → CellsFwd (w_cells w) (w_cells w').
Proof.
  intros HI Hp. unfold gate_step. intros (c & Hc & H)%bind_Some. destruct g; try discriminate H;
    try (injection H as <-; try case_match; try reflexivity; by apply fwd_alter).
  - apply bind_Some in H as (w1 & Hl & H). apply fwd_lock_state in Hl. injection H as <-. by case_match.
  - injection H as <-. destruct (iv_pcs _ HI _ _ Hp) as (c0 & Hc0 & _ & Hph & _).
    apply fwd_alter. intros c' Hc'. unfold phase_of in Hph.
    assert (c' = c0) as -> by congruence. split; cbn; congruence.
  - apply fmap_Some in H as (w1 & Hl & ->). by eapply fwd_lock_state in Hl.
  - injection H as <-.
    assert (CellsFwd (w_cells w) (alter (on_sync (set_readers (active_readers (c_sync c) - 1))) s (w_cells w))).
    { apply fwd_alter. intros c' Hc'. assert (c' = c) as -> by congruence. split; cbn; [done|lia]. }
    case_match; done.
Qed.

Lemma fwd_cas ph s w :
  CellsFwd (w_cells w) (alter (on_sync (cas_pending ph)) s (w_cells w)).
Proof.
  apply fwd_alter. intros c _. unfold cas_pending. case_bool_decide; [|done]. split; cbn; congruence.
Qed.

Lemma step_fwd a w w' : Inv w → step a w = Some w' → CellsFwd (w_cells w) (w_cells w').
Proof.
  intros HI H. destruct a as [c|i e|i|i|i|i|i|i|s]; cbn in H.
  - by apply fmap_Some in H as (p & Hp & ->).
  - apply bind_Some in H as (p & Hp & H).
    destruct p as [op|op|[|f todo] ann data k|[|t todo] ann k|d t rest all k|[|t rest] all k|s id m|
      g s gen adm|r dr]; cbn in H; try done.
    + unfold lock_inner in H. repeat case_match; try (by injection H as <-).
      by apply fmap_Some in H as (r & _ & ->).
    + destruct (run_body e w op) as [[data effs] k]. by injection H as <-.
    + injection H as <-. destruct k; [apply fwd_app|done].
    + injection H as <-. destruct f; [by apply fwd_alter|done|done].
    + by injection H as <-.
    + injection H as <-. by apply fwd_alter.
    + by eapply drain_fwd.
    + by injection H as <-.
    + by injection H as <-.
    + by eapply gate_fwd.
  - apply bind_Some in H as (p & Hp & H). destruct p; try done. injection H as <-. apply fwd_cas.
  - apply bind_Some in H as (p & Hp & H). destruct p; try done. injection H as <-. apply fwd_cas.
  - apply bind_Some in H as (p & Hp & H). destruct p; try done. injection H as <-. apply fwd_cas.
  - apply bind_Some in H as (p & Hp & H). destruct p as [| | | | | | |[] s gen adm|]; try done.
    by injection H as <-.
  - apply bind_Some in H as (p & Hp & H). destruct p as [| | | |[] t rest all k| | | |]; try done.
    by injection H as <-.
  - apply bind_Some in H as (p & Hp & H). destruct p; try done; by injection H as <-.
  - apply bind_Some in H as (c & Hc & H). destruct (state_holder (c_sync c)); [done|].
    injection H as <-. by apply fwd_alter.
Qed.

(** ** Every step *)

Lemma hist_unlock w i announced data k :
  Inv w → Hist w → w_pcs w !! i = Some (Pc_Stores [] announced data k) →
  Hist (unlock_inner i announced data k w).
Proof.
  intros HI [Hg Hn Hp] Hi. destruct (Hp _ _ Hi) as (Hr & Hnx & _ & Hk).
  assert (∀ j q inner', j ≠ i → w_pcs w !! j = Some q → hist_ok inner' q) as Hother.
  { intros j q inner' Hj Hq. pose proof (Hp _ _ Hq) as Hok. destruct q; try done.
    exfalso. apply Hj. assert (w_holder w = Some j) by (apply (iv_holder _ HI); eauto).
    by eapply holder_unique. }
  destruct k as [c|later k]; split; try done; cbn;
    intros j q [(-> & <- & _)|[Hj Hq]]%list_lookup_insert_Some; try done;
    try (by eapply (Hother j); [congruence|]).
  cbn in Hk. cbn. by rewrite Nat.add_comm.
Qed.

Lemma step_hist a w w' : Inv w → Hist w → step a w = Some w' → Hist w'.
Proof.
  intros HI HH H. pose proof HH as [Hg Hn Hp]. destruct a as [c|i e|i|i|i|i|i|i|s]; cbn in H.
  - apply fmap_Some in H as (p & Hc & ->). split; try done. cbn.
    intros j q [Hq|[_ [_ <-]%list_lookup_singleton_Some]]%lookup_app_Some; [by eapply Hp|].
    destruct c as [op|s]; cbn in Hc; [|by apply fmap_Some in Hc as (? & _ & ->)].
    destruct op; try discriminate Hc; by injection Hc as <-.
  - apply bind_Some in H as (p & Hi & H). pose proof (Hp _ _ Hi) as Hok.
    destruct p as [op|op|[|f todo] ann data k|[|t todo] ann k|d t rest all k|[|t rest] all k|s id m|
      g s gen adm|r dr]; cbn in H; try done.
    + unfold lock_inner in H. destruct (w_holder w); [|destruct (w_poisoned w)].
      * apply fmap_Some in H as (r & Hb & ->). eapply (hist_pc w _ i); try done.
        by destruct op; try discriminate Hb; injection Hb as <-.
      * injection H as <-. eapply (hist_pc w _ i); try done. by destruct op.
      * injection H as <-. by eapply (hist_pc w _ i).
    + destruct (run_body e w op) as [[data effs] k] eqn:Hb. injection H as <-.
      eapply (hist_pc w _ i); try done. by eapply hist_body.
    + injection H as <-. by apply hist_unlock.
    + injection H as <-. destruct Hok as (Hr & Hnx & Hge & Hk).
      assert (hist_ok (w_inner w) (Pc_Stores todo (ann ++ announced_by f) data k)) as Hok'.
      { split_and!; [done|done|intros g Hin; apply Hge; by right|]. destruct k; [done|].
        cbn in Hk. unfold announcements in *. cbn in Hk. rewrite length_app in *.
        eapply eq_ind; [exact Hk|]. lia. }
      destruct f; eapply (hist_pc w _ i); try done. apply Hge. by left.
    + injection H as <-. eapply (hist_pc w _ i); try done.
    + injection H as <-. eapply (hist_pc w _ i); try done. cbn in *. rewrite length_app. cbn.
      eapply eq_ind; [exact Hok|]. lia.
    + unfold drain_step in H. apply bind_Some in H as (c & Hc & H). destruct d; try discriminate H;
        try (apply fmap_Some in H as (w1 & (c' & _ & _ & ->)%lock_state_Some & ->));
        try (injection H as <-; try case_match); by eapply (hist_pc w _ i).
    + injection H as <-. eapply (hist_pc w _ i); try done. by apply hist_after_drain.
    + injection H as <-. by eapply (hist_pc w _ i).
    + unfold gate_step in H. apply bind_Some in H as (c & Hc & H). destruct g; try discriminate H;
        try (apply fmap_Some in H as (w1 & (c' & _ & _ & ->)%lock_state_Some & ->));
        try (apply bind_Some in H as (w1 & (c' & _ & _ & ->)%lock_state_Some & H));
        try (injection H as <-; try case_match); try destruct (state_poisoned _);
        try apply hist_notify; by eapply (hist_pc w _ i).
  - apply bind_Some in H as (p & Hi & H). destruct p; try done. injection H as <-.
    apply hist_notify. by eapply (hist_pc w _ i).
  - apply bind_Some in H as (p & Hi & H). destruct p; try done. injection H as <-.
    apply hist_notify. by eapply (hist_pc w _ i).
  - apply bind_Some in H as (p & Hi & H). destruct p; try done. injection H as <-.
    apply hist_notify. by eapply (hist_pc w _ i).
  - apply bind_Some in H as (p & Hi & H). destruct p as [| | | | | | |[] s gen adm|]; try done.
    injection H as <-. by eapply (hist_pc w _ i).
  - apply bind_Some in H as (p & Hi & H). pose proof (Hp _ _ Hi) as Hok.
    destruct p as [| | | |[] t rest all k| | | |]; try done.
    injection H as <-. by eapply (hist_pc w _ i).
  - apply bind_Some in H as (p & Hi & H). destruct p; try done; injection H as <-;
      by eapply (hist_pc w _ i).
  - apply bind_Some in H as (c & Hc & H). destruct (state_holder (c_sync c)); [done|].
    by injection H as <-.
Qed.

(** The revision changes only when a call publishes. *)
Lemma step_revision a w w' :
  Hist w → step a w = Some w' →
  rev_le (in_last_known_revision (w_inner w)) (in_last_known_revision (w_inner w')).
Proof.
  intros HH H.
  assert (w_inner w' = w_inner w ∨ ∃ i ann data k, w_pcs w !! i = Some (Pc_Stores [] ann data k) ∧
    w' = unlock_inner i ann data k w) as [->|(i & ann & data & k & Hi & ->)].
  2: reflexivity.
  2: { destruct (hi_pcs _ HH _ _ Hi) as [Hr _]. by destruct k. }
  destruct a as [c|i e|i|i|i|i|i|i|s]; cbn in H;
    try (apply bind_Some in H as (p & Hi & H));
    try (by apply fmap_Some in H as (p & Hc & ->); left);
    try (destruct p; try done; injection H as <-; by left);
    try (destruct p as [| | | |[] t rest all k| | |[] s gen adm|]; try done; injection H as <-; by left);
    try (destruct (state_holder _); [done|]; injection H as <-; by left).
  destruct p as [op|op|[|f todo] ann data k|[|t todo] ann k|d t rest all k|[|t rest] all k|s id m|
    g s gen adm|r dr]; cbn in H; try done.
  - left. unfold lock_inner in H. repeat case_match; try (by injection H as <-).
    by apply fmap_Some in H as (r & _ & ->).
  - left. destruct (run_body e w op) as [[data effs] k]. by injection H as <-.
  - injection H as <-. right. eauto 6.
  - left. injection H as <-. by destruct f.
  - left. by injection H as <-.
  - left. by injection H as <-.
  - left. unfold drain_step in H. apply bind_Some in H as (c & Hc & H). destruct d; try discriminate H;
      try (apply fmap_Some in H as (w1 & (c' & _ & _ & ->)%lock_state_Some & ->));
      try (injection H as <-; try case_match); try destruct (state_poisoned _); done.
  - left. by injection H as <-.
  - left. by injection H as <-.
  - left. unfold gate_step in H. apply bind_Some in H as (c & Hc & H). destruct g; try discriminate H;
      try (apply fmap_Some in H as (w1 & (c' & _ & _ & ->)%lock_state_Some & ->));
      try (apply bind_Some in H as (w1 & (c' & _ & _ & ->)%lock_state_Some & H));
      try (injection H as <-; try case_match); try destruct (state_poisoned _); done.
Qed.

Lemma registry_new_hist initial : Hist (registry_new initial).
Proof. split; [done|done|]. intros i p Hp. done. Qed.

Lemma reachable_hist initial w : rtc wstep (registry_new initial) w → Hist w.
Proof.
  intros H. assert (∀ w0, rtc wstep w0 w → Inv w0 → Hist w0 → Hist w) as Hgen.
  { clear. induction 1 as [|x y z [] _ IH]; [done|]. eauto using step_inv, step_hist. }
  eapply Hgen; [done|apply registry_new_inv|apply registry_new_hist].
Qed.

(** Along a run from a reachable world. *)
Lemma run_forward w w' :
  rtc wstep w w' → Inv w → Hist w →
  CellsFwd (w_cells w) (w_cells w') ∧
  rev_le (in_last_known_revision (w_inner w)) (in_last_known_revision (w_inner w')).
Proof.
  induction 1 as [|x y z [a] _ IH]; [done|]. intros HI HH.
  destruct IH as [IH1 IH2]; [by eapply step_inv|by eapply step_hist|].
  split; etrans; [by eapply step_fwd|done|by eapply step_revision|done].
Qed.
