(* ===== verification/RegistryLive.v ===== *)
(** * The mesh session registry: nobody waits for ever

    A drain sleeps only while a reader is inside, so no wake-up is lost; and in
    every reachable world in which a call is unfinished some call can run, or a
    caller holds a guard or a permit. *)

From stdpp Require Import base gmap sets list strings.
From Stdlib Require Import ZArith Lia Ascii.
From S2P Require Import Prelude.
From S2P Require Import RosterView.
From S2P Require Import Registry.
From S2P Require Import RegistrySteps.
From S2P Require Import RegistryInv.
From S2P Require Import RegistryPreserve.
From S2P Require Import RegistryLock.
From S2P Require Import RegistryBodies.

Open Scope Z_scope.

(** ** No wake-up is lost *)

Definition sleeps_on (p : Pc) : option nat :=
  match p with Pc_Drain D_Sleep3 t _ _ _ => Some (tg_sync t) | _ => None end.

Definition Sleep (w : World) : Prop :=
  ∀ i p s, w_pcs w !! i = Some p → sleeps_on p = Some s →
  cell_at w s (λ c, (0 < readers_of c)%nat).

(** Sessions with readers keep one. *)
Definition readers_stay (w w' : World) : Prop :=
  ∀ s, cell_at w s (λ c, (0 < readers_of c)%nat) → cell_at w' s (λ c, (0 < readers_of c)%nat).

Lemma readers_stay_upd w s f i p :
  (∀ c, w_cells w !! s = Some c → (0 < readers_of c → 0 < active_readers (f (c_sync c)))%nat) →
  readers_stay w (set_pc i p (upd_sync s f w)).
Proof.
  intros Hf x (c & Hc & Hr). destruct (decide (x = s)) as [->|Hx].
  - exists (on_sync f c). split; [by apply upd_sync_self|]. by apply Hf.
  - exists c. split; [|done]. change (w_cells (set_pc _ _ ?u)) with (w_cells u).
    by rewrite lookup_upd_sync, decide_False.
Qed.

Lemma sleep_pc w w' i p' :
  Sleep w → readers_stay w w' → w_pcs w' = <[i := p']> (w_pcs w) →
  (∀ s, sleeps_on p' = Some s → cell_at w' s (λ c, (0 < readers_of c)%nat)) → Sleep w'.
Proof.
  intros HS Hr Hpcs Hp' j q s. rewrite Hpcs.
  intros [(-> & <- & _)|[_ Hq]]%list_lookup_insert_Some Hs; [by apply Hp'|]. by eapply Hr, HS.
Qed.

Lemma wake_sleeps s p x : sleeps_on (wake s p) = Some x → sleeps_on p = Some x ∧ x ≠ s.
Proof.
  destruct p as [| | | |d t rest all k| | | |]; cbn; try done.
  destruct d; cbn; try done; case_bool_decide; cbn; try done. intros [= <-]. done.
Qed.

Lemma sleep_notify s w :
  (∀ i p x, w_pcs w !! i = Some p → sleeps_on p = Some x → x ≠ s →
     cell_at w x (λ c, (0 < readers_of c)%nat)) → Sleep (notify_all s w).
Proof.
  intros H i p x. cbn. rewrite list_lookup_fmap.
  intros (q & Hq & ->)%fmap_Some [Hs Hx]%wake_sleeps. by eapply H.
Qed.

Lemma sleep_cas w s ph i p' id m_id :
  Sleep w → sleeps_on p' = None → w_pcs w !! i = Some (Pc_Permit s id m_id) →
  Sleep (notify_all s (set_pc i p' (upd_sync s (cas_pending ph) w))).
Proof.
  intros HS Hp' Hi. apply sleep_notify. intros j q x Hq Hx _.
  eapply (sleep_pc w _ i p'); [done| |done|congruence|done|done].
  apply readers_stay_upd. intros c _. unfold cas_pending. by case_bool_decide.
Qed.

Lemma readers_stay_same w w' : w_cells w' = w_cells w → readers_stay w w'.
Proof. unfold readers_stay, cell_at. by intros ->. Qed.

Lemma sleep_set_pc w i p' : Sleep w → sleeps_on p' = None → Sleep (set_pc i p' w).
Proof.
  intros HS Hp'. eapply (sleep_pc w _ i p'); [done|by apply readers_stay_same|done|congruence].
Qed.

Lemma sleep_upd w i p' s f :
  Sleep w → sleeps_on p' = None →
  (∀ c, (0 < active_readers c → 0 < active_readers (f c))%nat) →
  Sleep (set_pc i p' (upd_sync s f w)).
Proof.
  intros HS Hp' Hf. eapply (sleep_pc w _ i p'); [done| |done|congruence].
  apply readers_stay_upd. intros x _. apply Hf.
Qed.

Lemma sleep_lock w i j p' s w1 :
  Sleep w → sleeps_on p' = None → lock_state j s w = Some w1 → Sleep (set_pc i p' w1).
Proof. intros HS Hp' (c' & _ & _ & ->)%lock_state_Some. by apply sleep_upd. Qed.

Lemma drain_sleep i d t rest all k w w' :
  Sleep w → drain_step i d t rest all k w = Some w' → Sleep w'.
Proof.
  intros HS H. unfold drain_step in H. apply bind_Some in H as (c & Hc & H).
  destruct d; try discriminate H;
    try (apply fmap_Some in H as (w1 & Hl & ->); by eapply sleep_lock);
    injection H as <-; try (by apply sleep_upd); try (by apply sleep_set_pc).
  - case_bool_decide; [by apply sleep_upd|by apply sleep_set_pc].
  - destruct (Nat.ltb_spec 0 (active_readers (c_sync c))); [|by apply sleep_set_pc].
    eapply (sleep_pc w _ i); [done|by apply readers_stay_upd|done|].
    cbn [sleeps_on]. intros s [= <-]. exists (on_sync (set_holder None) c).
    split; [by apply upd_sync_self|done].
Qed.

Lemma gate_sleep i g s gen adm w w' :
  Sleep w → gate_step i g s gen adm w = Some w' → Sleep w'.
Proof.
  intros HS H. unfold gate_step in H. apply bind_Some in H as (c & Hc & H).
  destruct g; try discriminate H;
    try (injection H as <-; try case_match; by apply sleep_set_pc);
    try (injection H as <-; by apply sleep_upd);
    try (apply fmap_Some in H as (w1 & Hl & ->); by eapply sleep_lock).
  - apply bind_Some in H as (w1 & Hl & H). injection H as <-.
    destruct (state_poisoned _); by eapply sleep_lock.
  - injection H as <-. apply sleep_upd; [done|done|]. intros. cbn. lia.
  - injection H as <-. destruct (Nat.eqb_spec (active_readers (c_sync c) - 1) 0) as [Hz|Hz].
    + apply sleep_notify. intros j q x [(-> & <- & _)|[_ Hq]]%list_lookup_insert_Some Hx Hne; [done|].
      destruct (HS _ _ _ Hq Hx) as (cx & Hcx & Hr). exists cx. split; [|done].
      change (w_cells (set_pc _ _ ?u)) with (w_cells u). by rewrite lookup_upd_sync, decide_False.
    + eapply (sleep_pc w _ i); [done| |done|done]. apply readers_stay_upd. intros c' _ _. cbn. lia.
Qed.

Lemma step_sleep a w w' : Sleep w → step a w = Some w' → Sleep w'.
Proof.
  intros HS H.
  assert (∀ u i p', w_cells u = w_cells w → w_pcs u = <[i := p']> (w_pcs w) →
    sleeps_on p' = None → Sleep u) as Hpc.
  { intros u i p' Hc Hp Hs. eapply (sleep_pc w _ i p'); [done|by apply readers_stay_same|done|congruence]. }
  destruct a as [c|i e|i|i|i|i|i|i|s]; cbn in H;
    try (apply bind_Some in H as (p & Hi & H)).
  - injection H as <-. rename Hi into Hc. intros j q s. cbn.
    intros [Hq|[_ [_ <-]%list_lookup_singleton_Some]]%lookup_app_Some Hs; [by eapply HS|].
    destruct c as [op|x]; cbn in Hc; [|by apply fmap_Some in Hc as (? & _ & ->)].
    destruct op; try discriminate Hc; by injection Hc as <-.
  - destruct p as [op|op|[|f todo] ann data k|[|t todo] ann k|d t rest all k|[|t rest] all k|s id m|
      g s gen adm|r dr]; cbn in H; try done.
    + unfold lock_inner in H.
      destruct (w_holder w); [|destruct (w_poisoned w); injection H as <-; by eapply (Hpc _ i)].
      apply fmap_Some in H as (r & _ & ->). by eapply (Hpc _ i).
    + destruct (run_body e w op) as [[data effs] k]. injection H as <-. by eapply (Hpc _ i).
    + injection H as <-. destruct k; [|by eapply (Hpc _ i)].
      eapply (sleep_pc w _ i); [done| |done|done]. intros x (c0 & Hc0 & Hr). exists c0.
      split; [by apply lookup_app_l_Some|done].
    + injection H as <-. destruct f; [by apply sleep_upd|by eapply (Hpc _ i)|by eapply (Hpc _ i)].
    + injection H as <-. by eapply (Hpc _ i).
    + injection H as <-. by apply sleep_upd.
    + by eapply drain_sleep.
    + injection H as <-. eapply (Hpc _ i); [done..|]. by destruct k; [|destruct all|].
    + injection H as <-. by eapply (Hpc _ i).
    + by eapply gate_sleep.
  - destruct p; try done. injection H as <-. by eapply sleep_cas.
  - destruct p; try done. injection H as <-. by eapply sleep_cas.
  - destruct p; try done. injection H as <-. by eapply sleep_cas.
  - destruct p as [| | | | | | |[] s gen adm|]; try done. injection H as <-. by eapply (Hpc _ i).
  - destruct p as [| | | |[] t rest all k| | | |]; try done. injection H as <-. by eapply (Hpc _ i).
  - destruct p; try done; injection H as <-; by eapply (Hpc _ i).
  - destruct (state_holder _); [done|]. injection H as <-. intros j q x Hq Hx.
    destruct (HS _ _ _ Hq Hx) as (cx & Hcx & Hr). unfold cell_at. rewrite lookup_upd_sync.
    case_decide; [subst|by eauto]. rewrite Hcx. cbn. by eexists.
Qed.

Lemma reachable_sleep initial w : rtc wstep (registry_new initial) w → Sleep w.
Proof.
  intros H. assert (∀ w0, rtc wstep w0 w → Sleep w0 → Sleep w) as Hgen.
  { clear. induction 1 as [|x y z [] _ IH]; [done|]. eauto using step_sleep. }
  eapply Hgen; [done|]. by intros i p s Hp.
Qed.

(** ** Somebody can run *)

Definition can_run (w : World) : Prop := ∃ j, ∀ e, is_Some (step (A_Run j e) w).

(** The caller of the call has to move: it holds a guard or a permit. *)
Definition with_caller (p : Pc) : bool :=
  match p with Pc_Permit _ _ _ | Pc_Gate G_Guard _ _ _ => true | _ => false end.

Definition caller_holds (w : World) : Prop :=
  ∃ j p, w_pcs w !! j = Some p ∧ with_caller p = true.

Definition is_done (p : Pc) : bool := match p with Pc_Done _ _ => true | _ => false end.

Section progress.
Context (w : World) (HI : Inv w) (HS : Sleep w).

Lemma run_now j p : w_pcs w !! j = Some p → (∀ e, is_Some (run_pc j e p w)) → can_run w.
Proof. intros Hj H. exists j. intros e. cbn. rewrite Hj. cbn. apply H. Qed.

Lemma gate_cell j g s gen adm :
  w_pcs w !! j = Some (Pc_Gate g s gen adm) → ∃ c, w_cells w !! s = Some c.
Proof. intros Hj. destruct (iv_pcs _ HI _ _ Hj) as (c & Hc & _). eauto. Qed.

Lemma drain_cell_ex j d t rest all k :
  w_pcs w !! j = Some (Pc_Drain d t rest all k) → ∃ c, w_cells w !! tg_sync t = Some c.
Proof.
  intros Hj. destruct (iv_pcs _ HI _ _ Hj) as (Ht & _). apply Forall_cons in Ht as [(c & Hc & _) _].
  eauto.
Qed.

(** Whoever holds a session's mutex can run. *)
Lemma holder_runs s c j : w_cells w !! s = Some c → state_holder (c_sync c) = Some j → can_run w.
Proof.
  intros Hc (p & Hj & Hh)%(ci_holder _ _ _ (iv_cells _ HI _ _ Hc)).
  apply (run_now j p Hj). intros e. destruct p as [| | | |d t rest all k| | |g s' gen adm|]; try done.
  - unfold run_pc, drain_step.
    destruct d; try done; injection Hh as Hh; rewrite Hh, Hc; cbn; by eexists.
  - unfold run_pc, gate_step. destruct g; try done; injection Hh as ->; rewrite Hc; cbn; by eexists.
Qed.

Lemma lock_or_run i s c : w_cells w !! s = Some c → is_Some (lock_state i s w) ∨ can_run w.
Proof.
  intros Hc. unfold lock_state. rewrite Hc. cbn.
  destruct (state_holder (c_sync c)) as [j|] eqn:Hh; [right; by eapply holder_runs|left; by eexists].
Qed.

(** Whoever holds the registry lock can run. *)
Lemma inner_holder_runs j : w_holder w = Some j → can_run w.
Proof.
  intros (p & Hj & Hh)%(iv_holder _ HI). apply (run_now j p Hj). intros e.
  destruct p as [|op|[|f todo] ann data k| | | | | |]; try done; cbn; [|by eexists..].
  destruct (run_body e w op) as [[data effs] k]. by eexists.
Qed.

Lemma reader_moves j p s :
  w_pcs w !! j = Some p → (0 < inside s p)%nat → can_run w ∨ caller_holds w.
Proof.
  intros Hj Hin. destruct p as [| | | | | | |g s' gen adm|]; cbn in Hin; try lia.
  destruct (gate_cell _ _ _ _ _ Hj) as [c Hc].
  destruct g; try lia;
    try (left; apply (run_now j _ Hj); intros e; unfold run_pc, drain_step, gate_step; rewrite Hc; cbn; by eexists).
  - right. exists j. eexists. by split.
  - destruct (lock_or_run j s' c Hc) as [[w1 Hl]|?]; [left|by left].
    apply (run_now j _ Hj). intros e. unfold run_pc, drain_step, gate_step. rewrite Hc. cbn. rewrite Hl. by eexists.
Qed.

Lemma progress i p :
  w_pcs w !! i = Some p → is_done p = false → can_run w ∨ caller_holds w.
Proof.
  intros Hi Hnd. destruct p as [op|op|[|f todo] ann data k|[|t todo] ann k|d t rest all k|[|t rest] all k|
    s id m|g s gen adm|r dr]; try done; try (left; apply (run_now i _ Hi); intros e; by eexists).
  - left. destruct (w_holder w) as [j|] eqn:Hh; [by eapply inner_holder_runs|].
    apply (run_now i _ Hi). intros e. cbn. unfold lock_inner. rewrite Hh. destruct (w_poisoned w); by eexists.
  - left. apply (run_now i _ Hi). intros e. cbn.
    destruct (run_body e w op) as [[data effs] k]. by eexists.
  - destruct (drain_cell_ex _ _ _ _ _ _ Hi) as [c Hc].
    assert (∀ j d', d = d' → (d' = D_Lock ∨ d' = D_Relock1 ∨ d' = D_Relock3) → j = i →
      can_run w ∨ caller_holds w) as Hlk.
    { intros j d' -> Hd ->. destruct (lock_or_run i (tg_sync t) c Hc) as [[w1 Hl]|?]; [left|by left].
      apply (run_now i _ Hi). intros e. unfold run_pc, drain_step, gate_step. rewrite Hc. cbn.
      destruct Hd as [->|[->| ->]]; rewrite Hl; by eexists. }
    destruct d; try (by eapply Hlk; [done|auto|done]);
      try (left; apply (run_now i _ Hi); intros e; unfold run_pc, drain_step, gate_step; rewrite Hc; cbn; by eexists).
    destruct (HS i _ (tg_sync t) Hi eq_refl) as (c' & Hc' & Hr).
    rewrite <-(ci_readers _ _ _ (iv_cells _ HI _ _ Hc')) in Hr.
    apply sum_pos in Hr as (j & q & Hj & Hq). by eapply reader_moves.
  - right. exists i. eexists. by split.
  - destruct (gate_cell _ _ _ _ _ Hi) as [c Hc].
    destruct g; try (left; apply (run_now i _ Hi); intros e; unfold run_pc, drain_step, gate_step; rewrite Hc; cbn; by eexists).
    + destruct (lock_or_run i s c Hc) as [[w1 Hl]|?]; [left|by left].
      apply (run_now i _ Hi). intros e. unfold run_pc, drain_step, gate_step. rewrite Hc. cbn. rewrite Hl. by eexists.
    + right. exists i. eexists. by split.
    + destruct (lock_or_run i s c Hc) as [[w1 Hl]|?]; [left|by left].
      apply (run_now i _ Hi). intros e. unfold run_pc, drain_step, gate_step. rewrite Hc. cbn. rewrite Hl. by eexists.
Qed.
End progress.
