(* ===== verification/RegistrySpec.v ===== *)
(** * The mesh session registry: what it promises

    The theorems of the registry about every interleaving of its methods, from
    the invariants of [RegistryInv], the history of [RegistryHistory] and the
    progress argument of [RegistryLive], with a scenario in which each applies:
    a session is admitted and forwarded for, the roster drops its machine, and
    the revoker waits the forwarder out. *)

From stdpp Require Import base gmap sets list strings.
From Stdlib Require Import ZArith Lia Ascii.
From S2P Require Import Prelude.
From S2P Require Import RosterView.
From S2P Require Import Registry.
From S2P Require Import RegistrySteps.
From S2P Require Import RegistryInv.
From S2P Require Import RegistryPreserve.
From S2P Require Import RegistryLock.
From S2P Require Import RegistryBodies.
From S2P Require Import RegistryHistory.
From S2P Require Import RegistryLive.

Open Scope Z_scope.

Abbreviation reachable initial := (rtc wstep (registry_new initial)) (only parsing).

(** The call holds a [ForwardingGuard] of session [s]. *)
Definition is_guard (s : nat) (p : Pc) : bool :=
  match p with Pc_Gate G_Guard s' _ _ => bool_decide (s' = s) | _ => false end.

Definition guarded (w : World) (s : nat) : bool := existsb (is_guard s) (w_pcs w).

(** ** A scenario *)

Definition sample_snapshot (h : string) (n : Z) (act : list (string * string)) (rev : list string)
    : RosterSnapshotView :=
  MkRosterSnapshotView "hh" (as_bytes h) n [] 0
    ((λ p, MkRosterMemberView p.1 [] (as_bytes p.2)) <$> act) rev.
Definition sample_env : Env := MkEnv (λ _, None) (λ _, true) 0.
Definition roster0 : RosterSnapshotView :=
  sample_snapshot "h0" 1 [("a", "fa"); ("b", "fb")]%string [].
Definition roster1 : RosterSnapshotView := sample_snapshot "h1" 2 [("b", "fb")]%string ["a"%string].
Definition sample_binding : SealedBinding :=
  MkSealedBinding "hh" "a" (as_bytes "fa") (as_bytes "h0") 1.
Definition runs (i n : nat) : list Act := repeat (A_Run i sample_env) n.

(** Call 0 is the ceremony of machine [a]; its permit is not yet decided. *)
Definition acts_permit : list Act :=
  [A_Call (Call_Op (L_Preauthorize sample_binding 0 10))] ++ runs 0 3.
(** It commits, and call 1 gets a guard. *)
Definition acts_guard : list Act :=
  acts_permit ++ [A_CommitAfterAck 0; A_Call (Call_Authorize 0)] ++ runs 1 12.
(** Call 2 observes a roster without [a] and waits for the guard. *)
Definition acts_revoke : list Act := acts_guard ++ [A_Call (Call_Op (L_Observe roster1))] ++ runs 2 10.
(** The guard is dropped and the revoker is done. *)
Definition acts_drained : list Act := acts_revoke ++ [A_DropGuard 1] ++ runs 1 3 ++ runs 2 12.

Definition after (l : list Act) : World := default (registry_new roster0) (run_acts l (registry_new roster0)).

Lemma after_reachable l : is_some (run_acts l (registry_new roster0)) = true → reachable roster0 (after l).
Proof.
  unfold after. destruct (run_acts l _) as [w|] eqn:Hr; [|done]. intros _. by eapply run_acts_rtc.
Qed.

(** ** Lemmas *)

Lemma guarded_spec w s :
  guarded w s = true ↔ ∃ i gen adm, w_pcs w !! i = Some (Pc_Gate G_Guard s gen adm).
Proof.
  unfold guarded. rewrite existsb_exists. split.
  - intros (p & Hin & Hg). apply list_elem_of_In, list_elem_of_lookup in Hin as [i Hi].
    destruct p as [| | | | | | |g s' gen adm|]; try done. destruct g; try done.
    apply bool_decide_eq_true in Hg as ->. eauto.
  - intros (i & gen & adm & Hi). eexists. split; [by eapply list_elem_of_In, list_elem_of_lookup_2|].
    by apply bool_decide_eq_true.
Qed.

(** Whoever holds a guard is one of the readers. *)
Lemma guard_reads w s c : Inv w → w_cells w !! s = Some c → guarded w s = true → (0 < readers_of c)%nat.
Proof.
  intros HI Hc (i & gen & adm & Hi)%guarded_spec.
  rewrite <- (ci_readers _ _ _ (iv_cells _ HI _ _ Hc)).
  pose proof (sum_elem (inside s) _ _ _ Hi) as H. cbn in H. rewrite decide_True in H by done. lia.
Qed.

Lemma drained_unguarded w s c : Inv w → w_cells w !! s = Some c → is_drained c → guarded w s = false.
Proof.
  intros HI Hc [_ Hr]. apply not_true_is_false. intros Hg. pose proof (guard_reads _ _ _ HI Hc Hg). lia.
Qed.

(** A closed session that still has readers has an announced revoker. *)
Lemma closed_reader_intent w s c :
  Inv w → w_cells w !! s = Some c → is_closed c → (0 < readers_of c)%nat → (0 < intent_of c)%nat.
Proof.
  intros HI Hc Hcl Hr. destruct (iv_cells _ HI _ _ Hc) as [Ho _ _ _ _ _ Hw _ _].
  destruct (Hw Hcl Hr) as (i & p & Hi & Hp). pose proof (sum_elem (owes s) _ _ _ Hi) as Hle.
  destruct p as [| | | |d t rest all k| | | |]; try done. cbn [owes] in Hle.
  rewrite count_sync_cons in Hle. destruct d; try done; apply bool_decide_eq_true in Hp;
    rewrite decide_True in Hle by done; lia.
Qed.

Lemma collect_active_lookup s l m :
  collect_active s l !! m =
  if bool_decide (m ∈ l) then rm_machine_cert_fingerprint <$> lookup_active s m else None.
Proof.
  unfold collect_active. induction l as [|x l IH] using rev_ind; [done|].
  rewrite foldl_app. cbn. destruct (decide (m = x)) as [->|Hne].
  - rewrite bool_decide_true by set_solver.
    destruct (lookup_active s x) as [v|] eqn:Hl; cbn; [by rewrite lookup_insert_eq|].
    rewrite IH. by case_bool_decide.
  - rewrite (bool_decide_ext _ (m ∈ l)), <- IH by set_solver.
    destruct (lookup_active s x); [by rewrite lookup_insert_ne|done].
Qed.

Lemma from_snapshot_active s m :
  rev_active (from_snapshot s) !! m = rm_machine_cert_fingerprint <$> lookup_active s m.
Proof.
  cbn. rewrite collect_active_lookup. case_bool_decide as Hm; [done|].
  destruct (lookup_active s m) as [v|] eqn:Hl; [|done].
  apply lookup_active_member in Hl as [Hin <-]. exfalso. apply Hm.
  by apply list_elem_of_fmap_2.
Qed.

(** A revision condemns what its snapshot does not list as active. *)
Lemma should_revoke_snapshot s m fp :
  should_revoke m fp (from_snapshot s) = false ↔
  is_revoked s m = false ∧ rm_machine_cert_fingerprint <$> lookup_active s m = Some fp.
Proof.
  unfold should_revoke. rewrite from_snapshot_active. cbn [from_snapshot rev_revoked].
  rewrite <- (not_true_iff_false (is_revoked s m)), is_revoked_spec. case_bool_decide; [naive_solver|].
  destruct (lookup_active s m) as [v|]; cbn; [|naive_solver].
  rewrite negb_false_iff, bool_decide_eq_true. naive_solver congruence.
Qed.

(** ** Forwarding *)

(** C4: A caller that holds a forwarding guard got it for a session that was
    admitted in the guard's generation, at a moment when the roster revision in
    force listed the session's machine as active under the session's
    certificate. If meanwhile a revision that condemns the session has come
    into force, then a revoker has already announced itself to the session
    (and will wait for this guard), or the registry has failed closed or been
    recovered since. Whatever the interleaving of ceremonies, roster updates,
    retirements, panics and other forwarders. *)
Theorem guard_authorized initial w i s gen adm :
  reachable initial w → w_pcs w !! i = Some (Pc_Gate G_Guard s gen adm) →
  ∃ c r, w_cells w !! s = Some c ∧ c_generation c = gen ∧ adm = Some r ∧ allowed c r ∧
    (allowed c (in_last_known_revision (w_inner w)) ∨ (0 < writer_intent (c_sync c))%nat ∨
     is_unavailable (w_inner w) = true ∨ gen < w_generation w).
Proof.
  intros HI%reachable_inv Hi. destruct (iv_pcs _ HI _ _ Hi) as (c & Hc & Hg & r & -> & Hr).
  exists c, r. split_and!; try done.
  assert (guarded w s = true) as Hgd by (apply guarded_spec; eauto).
  pose proof (guard_reads _ _ _ HI Hc Hgd) as Hrd.
  destruct (is_unavailable (w_inner w)) eqn:Hu; [by auto|].
  destruct (decide (0 < intent_of c)%nat) as [|Hn]; [by auto|].
  pose proof (ci_generation _ _ _ (iv_cells _ HI _ _ Hc)) as Hle. rewrite Hg in Hle.
  destruct (decide (gen < w_generation w)); [by auto|]. left.
  destruct (iv_enforced _ HI) with (s := s) (c := c) as [(t & Ht & _)|[_ Ha]]; try done.
  - unfold is_live. by rewrite Hu.
  - lia.
  - lia.
  - intros Hcl. pose proof (closed_reader_intent _ _ _ HI Hc Hcl Hrd). lia.
  - by apply not_elem_of_nil in Ht.
Qed.

Lemma guard_authorized_witness :
  ∃ c r, w_cells (after acts_guard) !! 0%nat = Some c ∧ c_generation c = 0 ∧
    Some (from_snapshot roster0) = Some r ∧ allowed c r ∧
    (allowed c (in_last_known_revision (w_inner (after acts_guard))) ∨
     (0 < writer_intent (c_sync c))%nat ∨
     is_unavailable (w_inner (after acts_guard)) = true ∨ 0 < w_generation (after acts_guard)).
Proof.
  apply (guard_authorized roster0 (after acts_guard) 1).
  - apply after_reachable. vm_compute. reflexivity.
  - vm_compute. reflexivity.
Defined.

(** ** Enforcement *)

(** C5: In an available registry whose lock is not poisoned, consider a session
    of the current generation (the registry has not become unavailable and been
    recovered since it was admitted). Once no call that announced itself to it
    is still at work on it, and the roster revision in force condemns it (its
    machine revoked, gone, or under another certificate), it is closed, has no
    forwarder inside and nobody holds a guard of it: no ceremony, however it was
    interleaved with the roster update, leaves one behind. Sessions of earlier
    generations are outside this statement: the call that made the registry
    unavailable may not have announced itself to them yet when another one has
    recovered it. *)
Theorem roster_enforced_at_rest initial w s c :
  reachable initial w → w_poisoned w = false → is_unavailable (w_inner w) = false →
  w_cells w !! s = Some c → c_generation c = w_generation w →
  should_revoke (c_m_id c) (c_fingerprint c) (in_last_known_revision (w_inner w)) = true →
  (∀ i p, w_pcs w !! i = Some p → owes s p = 0%nat) →
  is_drained c ∧ guarded w s = false.
Proof.
  intros HI%reachable_inv Hp Hu Hc Hg Hsr Hrest.
  pose proof (iv_cells _ HI _ _ Hc) as HC.
  assert (intent_of c = 0%nat) as Hint.
  { rewrite <- (ci_exact _ _ _ HC Hp). by apply sum_zero. }
  assert (is_closed c) as Hcl.
  { destruct (decide (phase_of c = PHASE_CLOSED)) as [|Hn]; [done|].
    destruct (iv_enforced _ HI) with (s := s) (c := c) as [(t & Ht & _)|[_ Ha]]; try done.
    - unfold is_live. by rewrite Hu.
    - by apply not_elem_of_nil in Ht.
    - unfold allowed in Ha. congruence. }
  assert (is_drained c) as Hd.
  { split; [done|]. destruct (readers_of c) eqn:Hr; [done|].
    pose proof (closed_reader_intent _ _ _ HI Hc Hcl). lia. }
  split; [done|]. by eapply drained_unguarded.
Qed.

Lemma roster_enforced_at_rest_witness :
  ∃ c, w_cells (after acts_drained) !! 0%nat = Some c ∧
       is_drained c ∧ guarded (after acts_drained) 0 = false.
Proof.
  eexists. split; [vm_compute; reflexivity|].
  apply (roster_enforced_at_rest roster0).
  - apply after_reachable. vm_compute. reflexivity.
  - vm_compute. reflexivity.
  - vm_compute. reflexivity.
  - vm_compute. reflexivity.
  - vm_compute. reflexivity.
  - vm_compute. reflexivity.
  - intros i p Hi. apply list_elem_of_lookup_2 in Hi. revert p Hi.
    apply Forall_forall. vm_compute. repeat constructor.
Defined.

(** C21: A call that has returned drained every session it names for good: in
    every later state of the registry each is closed, has no forwarder inside,
    and nobody holds or ever gets a guard of it again. In particular a
    [retire_locally] that reports [RetiredAndDrained] has drained the one
    session it removed. *)
Theorem revocation_final initial w w' i r drained t :
  reachable initial w → w_pcs w !! i = Some (Pc_Done r drained) → t ∈ drained →
  rtc wstep w w' →
  target_drained w' t ∧ guarded w' (tg_sync t) = false.
Proof.
  intros Hr Hi Ht Hrun. pose proof (reachable_inv _ _ Hr) as HI.
  pose proof (iv_pcs _ HI _ _ Hi) as Hok. eapply Forall_forall in Hok as (c & Hc & Hid & Hcl & Hrd); [|done].
  destruct (run_forward _ _ Hrun HI (reachable_hist _ _ Hr)) as [Hf _].
  destruct (Hf _ _ Hc) as (c' & Hc' & (Hb & _) & F1 & F2).
  assert (is_drained c') as Hd by (split; [by apply F1|by apply F2]).
  split; [exists c'; split; [done|]; split; [congruence|done]|].
  eapply drained_unguarded; [|done..]. apply (reachable_inv initial). by etrans.
Qed.

Lemma revocation_final_witness :
  target_drained (after (acts_drained ++ [A_Call (Call_Authorize 0)])) (MkTarget 1 0 0) ∧
  guarded (after (acts_drained ++ [A_Call (Call_Authorize 0)])) 0 = false.
Proof.
  apply (revocation_final roster0 (after acts_drained) _ 2 (Ret_Observe OO_Applied) [MkTarget 1 0 0]
           (MkTarget 1 0 0)).
  - apply after_reachable. vm_compute. reflexivity.
  - vm_compute. reflexivity.
  - by left.
  - apply (run_acts_rtc [A_Call (Call_Authorize 0)]). vm_compute. reflexivity.
Defined.

(** [retire_locally] reports [RetiredAndDrained] only with a session that
    it drained. *)
Theorem retired_means_drained initial w i drained :
  reachable initial w → w_pcs w !! i = Some (Pc_Done (Ret_Retire RT_RetiredAndDrained) drained) →
  ∃ t, drained = [t] ∧ target_drained w t.
Proof.
  intros Hr Hi. pose proof (hi_pcs _ (reachable_hist _ _ Hr) _ _ Hi) as Hl. cbn in Hl.
  pose proof (iv_pcs _ (reachable_inv _ _ Hr) _ _ Hi) as Hok. cbn in Hok.
  destruct drained as [|t [|]]; try done. exists t. split; [done|]. by inversion Hok.
Qed.

(** Call 2 retires the session instead, after the guard was dropped. *)
Definition acts_retired : list Act :=
  acts_guard ++ [A_DropGuard 1] ++ runs 1 3 ++ [A_Call (Call_Op (L_Retire 1))] ++ runs 2 15.

Lemma retired_means_drained_witness :
  ∃ t, [MkTarget 1 0 0] = [t] ∧ target_drained (after acts_retired) t.
Proof.
  apply (retired_means_drained roster0 _ 2).
  - apply after_reachable. vm_compute. reflexivity.
  - vm_compute. reflexivity.
Defined.

(** ** Ceremonies *)

(** C22: A permit decides its session alone: no other call holds a permit of
    the session, and whatever revokers have announced themselves meanwhile,
    committing the permit makes the session active and dropping it closes the
    session. The compare-and-exchange of either never loses: a revoker waits
    until the ceremony has decided. *)
Theorem permit_decides initial w i s id m_id :
  reachable initial w → w_pcs w !! i = Some (Pc_Permit s id m_id) →
  (∀ j id' m_id', w_pcs w !! j = Some (Pc_Permit s id' m_id') → j = i) ∧
  (∃ w', step (A_CommitAfterAck i) w = Some w' ∧
     cell_at w' s (λ c, c_id c = id ∧ c_m_id c = m_id ∧ phase_of c = PHASE_ACTIVE)) ∧
  (∃ w', step (A_DropPermit i) w = Some w' ∧
     cell_at w' s (λ c, c_id c = id ∧ c_m_id c = m_id ∧ phase_of c = PHASE_CLOSED)).
Proof.
  intros HI%reachable_inv Hi. destruct (iv_pcs _ HI _ _ Hi) as (c & Hc & Hid & Hm).
  pose proof (permit_pending _ _ _ _ _ _ HI Hi Hc) as Hp.
  assert (∀ ph w1, w_cells w1 = w_cells (upd_sync s (cas_pending ph) w) →
    cell_at w1 s (λ c, c_id c = id ∧ c_m_id c = m_id ∧ phase_of c = ph)) as Hcas.
  { intros ph w1 Hw1. exists (on_sync (cas_pending ph) c).
    rewrite Hw1. split; [by rewrite (lookup_upd_sync w), decide_True, Hc|].
    unfold phase_of, cas_pending in *. cbn. by rewrite bool_decide_true. }
  split_and!.
  - intros j id' m_id' Hj. destruct (decide (j = i)) as [|Hne]; [done|].
    pose proof (sum_two (permits s) _ _ _ _ _ Hne Hj Hi) as H2. cbn in H2.
    rewrite !decide_True in H2 by done.
    rewrite (ci_permits _ _ _ (iv_cells _ HI _ _ Hc)), decide_True in H2 by done. lia.
  - eexists. cbn. rewrite Hi. cbn. split; [done|by apply Hcas].
  - eexists. cbn. rewrite Hi. cbn. split; [done|by apply Hcas].
Qed.

Lemma permit_decides_witness :
  (∀ j id' m_id', w_pcs (after acts_permit) !! j = Some (Pc_Permit 0 id' m_id') → j = 0%nat) ∧
  (∃ w', step (A_CommitAfterAck 0) (after acts_permit) = Some w' ∧
     cell_at w' 0 (λ c, c_id c = 1 ∧ c_m_id c = "a"%string ∧ phase_of c = PHASE_ACTIVE)) ∧
  (∃ w', step (A_DropPermit 0) (after acts_permit) = Some w' ∧
     cell_at w' 0 (λ c, c_id c = 1 ∧ c_m_id c = "a"%string ∧ phase_of c = PHASE_CLOSED)).
Proof.
  apply (permit_decides roster0).
  - apply after_reachable. vm_compute. reflexivity.
  - vm_compute. reflexivity.
Defined.

(** Under the revision of a roster snapshot, a ceremony's reservation is
    accepted exactly for a binding of that snapshot (same household, same
    checkpoint, the machine an unrevoked member under the certificate the
    binding names), while the registry is available, the caller still owns the
    handle and an identifier is left. *)
Theorem preauthorize_exact phase alive guard b s handle new_sync :
  in_hh_id guard = rv_hh_id s → in_last_known_revision guard = from_snapshot s →
  (∃ r, preauthorize_locked phase alive guard b handle new_sync = Ok r) ↔
  is_unavailable guard = false ∧ Bound b s ∧ alive handle = true ∧
  is_Some (checked_add (in_next_session_id guard) 1).
Proof.
  intros Hh Hl. unfold preauthorize_locked, is_unavailable. rewrite Hh, Hl, from_snapshot_active.
  destruct (in_mode guard) as [ss bm|]; [|by split; [intros [? [=]]|intros [[=] _]]].
  destruct (prune_closed_locked phase (ss, bm)) as [[ss' bm'] n]. cbn [from_snapshot rev_checkpoint_hash
    rev_checkpoint_sequence rev_revoked].
  split.
  - intros [r H]. res_inv.
    match goal with H : checked_add _ _ = Some _ |- _ => rewrite H end.
    split_and!; [done| |done|by eexists].
    split; try done.
    + symmetry. by apply Z.eqb_eq.
    + apply not_true_is_false. by rewrite is_revoked_spec.
    + destruct (lookup_active s (sb_m_id b)); [|done]. cbn in *. res_inv. congruence.
  - intros (_ & [B1 B2 B3 B4 B5] & Ha & [id Hid]).
    rewrite B1, B2, B3, B5, Ha, Hid, Z.eqb_refl.
    rewrite (bool_decide_false (_ ∈ _)) by (rewrite <- is_revoked_spec, B4; done). cbn.
    rewrite !bool_decide_true by done. cbn. eauto.
Qed.

Lemma preauthorize_exact_witness :
  (∃ r, preauthorize_locked (λ _, PHASE_PENDING) (λ _, true) (inner_new roster0) sample_binding 0 0 = Ok r) ↔
  is_unavailable (inner_new roster0) = false ∧ Bound sample_binding roster0 ∧ true = true ∧
  is_Some (checked_add (in_next_session_id (inner_new roster0)) 1).
Proof. apply (preauthorize_exact (λ _, PHASE_PENDING) (λ _, true)); vm_compute; reflexivity. Defined.

(** ** State *)

(** The registry's data is consistent in every reachable state: while it
    is available, its index by machine lists each tracked session exactly once
    under the session's machine, and nothing else; each entry names the
    session it was reserved for, with that session's machine and certificate;
    no two sessions share an identifier, and identifiers and the generation
    stay within 64 bits. *)
Theorem registry_consistent initial w :
  reachable initial w →
  (∀ sessions by_machine, in_mode (w_inner w) = Live sessions by_machine →
     Indexed sessions by_machine ∧
     ∀ id e, sessions !! id = Some e → ∃ c, w_cells w !! se_sync e = Some c ∧ entry_of e id c) ∧
  (∀ s1 s2 c1 c2, w_cells w !! s1 = Some c1 → w_cells w !! s2 = Some c2 →
     c_id c1 = c_id c2 → s1 = s2) ∧
  in_u64 (in_next_session_id (w_inner w)) ∧ in_u64 (w_generation w).
Proof.
  intros Hr. pose proof (reachable_inv _ _ Hr) as HI. destruct (reachable_hist _ _ Hr) as [Hg Hn _].
  split_and!; [|apply (iv_ids _ HI)|done|done].
  intros ss bm Hm. pose proof (iv_entries _ HI) as He. unfold entries_ok in He. by rewrite Hm in He.
Qed.

Lemma registry_consistent_witness :
  (∀ sessions by_machine, in_mode (w_inner (after acts_guard)) = Live sessions by_machine →
     Indexed sessions by_machine ∧
     ∀ id e, sessions !! id = Some e →
       ∃ c, w_cells (after acts_guard) !! se_sync e = Some c ∧ entry_of e id c) ∧
  (∀ s1 s2 c1 c2, w_cells (after acts_guard) !! s1 = Some c1 →
     w_cells (after acts_guard) !! s2 = Some c2 → c_id c1 = c_id c2 → s1 = s2) ∧
  in_u64 (in_next_session_id (w_inner (after acts_guard))) ∧
  in_u64 (w_generation (after acts_guard)).
Proof.
  apply (registry_consistent roster0). apply after_reachable. vm_compute. reflexivity.
Defined.

(** Roster updates never take the registry back: along every run the
    revision in force moves to a higher checkpoint sequence or stays at the
    same checkpoint, and a session that was closed stays closed. *)
Theorem registry_forward initial w w' :
  reachable initial w → rtc wstep w w' →
  rev_le (in_last_known_revision (w_inner w)) (in_last_known_revision (w_inner w')) ∧
  ∀ s c, w_cells w !! s = Some c → is_closed c → cell_at w' s is_closed.
Proof.
  intros Hr Hrun.
  destruct (run_forward _ _ Hrun (reachable_inv _ _ Hr) (reachable_hist _ _ Hr)) as [Hf Hv].
  split; [done|]. intros s c Hc Hcl. destruct (Hf _ _ Hc) as (c' & Hc' & _ & F1 & _).
  exists c'. split; [done|]. by apply F1.
Qed.

Lemma registry_forward_witness :
  rev_le (in_last_known_revision (w_inner (registry_new roster0)))
         (in_last_known_revision (w_inner (after acts_drained))) ∧
  ∀ s c, w_cells (registry_new roster0) !! s = Some c → is_closed c →
         cell_at (after acts_drained) s is_closed.
Proof.
  apply (registry_forward roster0); [apply rtc_refl|].
  apply after_reachable. vm_compute. reflexivity.
Defined.

(** ** Progress *)

(** C23: The registry does not deadlock: while a call has not returned, some
    call can take its next step whatever it reads, or a caller still holds a
    guard or a permit that only it can give up. Revokers that sleep until a
    ceremony decides or a forwarder leaves do not miss the wake-up. *)
Theorem registry_progress initial w i p :
  reachable initial w → w_pcs w !! i = Some p → is_done p = false →
  can_run w ∨ caller_holds w.
Proof.
  intros Hr. apply progress; [by eapply reachable_inv|by eapply reachable_sleep].
Qed.

Lemma registry_progress_witness : can_run (after acts_revoke) ∨ caller_holds (after acts_revoke).
Proof.
  apply (registry_progress roster0 _ 2
    (Pc_Drain D_Sleep3 (MkTarget 1 0 0) [] [MkTarget 1 0 0] (Af_PhaseC OO_Applied))).
  - apply after_reachable. vm_compute. reflexivity.
  - vm_compute. reflexivity.
  - reflexivity.
Defined.
