(* ===== verification/Canonical.v ===== *)
(** * The household's canonical CBOR

    Models [tunnel-wire-rs/src/canonical.rs], which [household-rs/src/cbor.rs]
    re-exports: the recursive sorting of maps, the encoder, and the lenient and
    the strict decoder of data at rest. Every error is one variant with a text,
    so a failure is [None]. [ciborium] and serde are the parameters of [Cbor].

    The encoder's re-encoding check exists in debug builds only and is not
    part of the definition; [debug_check_passes] shows that it never fires. *)

From stdpp Require Import base gmap sets list strings sorting.
From Stdlib Require Import ZArith Lia Ascii Sorting.Sorted.
From S2P Require Import Prelude.
From S2P Require Import Cbor.
From S2P Require Import CborProofs.

Open Scope Z_scope.

Module Canonical.
Section canonical.
Context `{!CborCrate}.

Definition key_order (a b : bytes * CborValue * CborValue) : comparison := bytes_cmp a.1.1 b.1.1.

Fixpoint canonicalize_value (v : CborValue) : option CborValue :=
  match v with
  | CV_Array items => CV_Array <$> mapM canonicalize_value items
  | CV_Map entries =>
      sorted ← mapM (λ e, match e with (key, val) =>
                       key ← canonicalize_value key;
                       val ← canonicalize_value val;
                       key_bytes ← into_writer key;
                       Some (key_bytes, key, val) end) entries;
      Some (CV_Map ((λ e, (e.1.2, e.2)) <$> sort_by key_order sorted))
  | CV_Tag t inner => CV_Tag t <$> canonicalize_value inner
  | other => Some other
  end.

Definition to_canonical_vec `{!Serde T} (value : T) : option bytes :=
  initial ← into_writer (to_value value);
  '(value, _) ← from_reader initial;
  value ← canonicalize_value value;
  into_writer value.

Definition from_canonical_slice `{!Serde T} (b : bytes) : option T :=
  '(value, _) ← from_reader b;
  of_value value.

Definition from_canonical_slice_strict `{!Serde T} (b : bytes) : option T :=
  value ← from_canonical_slice b;
  re_encoded ← to_canonical_vec value;
  if bool_decide (re_encoded ≠ b) then None else Some value.

(** ** Sorting *)

Context `{!CborLaws}.

Lemma sort_insert_fmap {A B} (f : A → B) cmpA cmpB (Hf : ∀ x y, cmpB (f x) (f y) = cmpA x y) x l :
  f <$> sort_insert cmpA x l = sort_insert cmpB (f x) (f <$> l).
Proof. induction l as [|y l IH]; cbn; [done|]. rewrite Hf. destruct (cmpA x y); cbn; congruence. Qed.

Lemma sort_by_fmap {A B} (f : A → B) cmpA cmpB (Hf : ∀ x y, cmpB (f x) (f y) = cmpA x y) l :
  f <$> sort_by cmpA l = sort_by cmpB (f <$> l).
Proof.
  unfold sort_by. induction l as [|x l IH]; cbn; [done|].
  rewrite (sort_insert_fmap f cmpA cmpB Hf). by f_equal.
Qed.

(** An entry with the bytes it is sorted by. *)
Definition with_key (e : CborValue * CborValue) : bytes * CborValue * CborValue :=
  (encode_key e.1, e.1, e.2).

Lemma sort_with_key l :
  (λ e : bytes * CborValue * CborValue, (e.1.2, e.2)) <$> sort_by key_order (with_key <$> l) =
  sort_by entry_cmp l.
Proof.
  rewrite <- (sort_by_fmap with_key entry_cmp key_order) by done.
  rewrite <- list_fmap_compose. rewrite (list_fmap_ext _ id); [by rewrite list_fmap_id|].
  by intros i [k v] _.
Qed.

(** On the closed shapes both canonicalizers of the workspace agree. *)
Lemma canonicalize_value_Allowed v : Allowed v → canonicalize_value v = Some (canonicalize v).
Proof.
  induction v as [items IH|es IH|t v IH| | | | | | |] using CborValue_nested_ind; try done.
  - intros Hall. inversion Hall as [| | | |? HA|]; subst. clear Hall. cbn.
    assert (mapM canonicalize_value items = Some (map canonicalize items)) as ->; [|done].
    induction HA as [|x l Hx _ IHl]; [done|].
    apply Forall_cons in IH as [IHx IH]. cbn. rewrite (IHx Hx). cbn. by rewrite (IHl IH).
  - intros Hall. inversion Hall as [| | | | |? Ht HA _]; subst. clear Hall. rewrite canonicalize_map. cbn [canonicalize_value].
    assert (mapM (λ e, match e with (key, val) =>
              key ← canonicalize_value key; val ← canonicalize_value val;
              key_bytes ← into_writer key; Some (key_bytes, key, val) end) es =
            Some (with_key <$> (canon_entry <$> es))) as ->.
    { induction es as [|[k v] es IHl]; [done|].
      apply Forall_cons in IH as [[_ IHv] IH], Ht as [[s Hs] Ht], HA as [Hv HA]. cbn in Hs, Hv, IHv.
      cbn. destruct k; try done. cbn. rewrite (IHv Hv). cbn.
      unfold with_key, encode_key. cbn.
      destruct (text_writes s0) as (b & Hb & _). rewrite Hb. cbn. by rewrite (IHl IH Ht HA). }
    cbn. by rewrite sort_with_key.
  - inversion 1.
Qed.

(** ** Round trips *)

Lemma to_canonical_vec_valid `{!Serde T, !SerdeLaws T valid} (x : T) :
  valid x →
  ∃ b, to_canonical_vec x = Some b ∧ from_canonical_slice b = Some x ∧
       from_canonical_slice_strict b = Some x.
Proof.
  intros Hx. destruct (cbor_write_read (to_value x)) as (raw & Hraw & Hrd);
    [by apply serde_plain|by apply serde_depth|].
  destruct (serde_encodes x Hx) as (b & _ & Hw & Hrb & _ & _).
  assert (to_canonical_vec x = Some b) as He.
  { unfold to_canonical_vec. rewrite Hraw. cbn. rewrite Hrd. cbn.
    rewrite canonicalize_value_Allowed by (by apply serde_allowed). cbn. done. }
  assert (from_canonical_slice b = Some x) as Hd.
  { unfold from_canonical_slice. rewrite Hrb. cbn. by apply serde_decode. }
  exists b. split_and!; [done..|]. unfold from_canonical_slice_strict. rewrite Hd. cbn.
  rewrite He. cbn. by rewrite bool_decide_false by auto.
Qed.

Lemma to_canonical_vec_inj `{!Serde T, !SerdeLaws T valid} (x y : T) b :
  valid x → valid y → to_canonical_vec x = Some b → to_canonical_vec y = Some b → x = y.
Proof.
  intros (b1 & H1 & D1 & _)%to_canonical_vec_valid (b2 & H2 & D2 & _)%to_canonical_vec_valid ? ?.
  congruence.
Qed.

Lemma strict_encodes `{!Serde T} b (x : T) :
  from_canonical_slice_strict b = Some x →
  from_canonical_slice b = Some x ∧ to_canonical_vec x = Some b.
Proof.
  unfold from_canonical_slice_strict. intros (v & Hv & (r & Hr & Hx)%bind_Some)%bind_Some.
  case_bool_decide as Hb; [done|]. injection Hx as ->. split; [done|].
  destruct (decide (r = b)); [congruence|done].
Qed.

Lemma strict_valid `{!Serde T, !SerdeSound T valid} b (x : T) :
  from_canonical_slice_strict b = Some x → valid x.
Proof.
  intros [Hd _]%strict_encodes. unfold from_canonical_slice in Hd.
  apply bind_Some in Hd as ([v n] & _ & Hd). by eapply serde_sound.
Qed.

(** The debug build's check: decoding the result and encoding it again returns
    it. *)
Lemma debug_check_passes `{!Serde T, !SerdeLaws T valid} (x : T) b :
  valid x → to_canonical_vec x = Some b →
  ∃ v n, from_reader b = Some (v, n) ∧ canonicalize_value v ≫= into_writer = Some b.
Proof.
  intros Hx He. destruct (serde_encodes x Hx) as (b' & _ & Hw & Hrb & _ & _).
  destruct (cbor_write_read (to_value x)) as (raw & Hraw & Hrd);
    [by apply serde_plain|by apply serde_depth|].
  unfold to_canonical_vec in He. rewrite Hraw in He. cbn in He. rewrite Hrd in He. cbn in He.
  rewrite canonicalize_value_Allowed in He by (by apply serde_allowed). cbn in He.
  assert (b' = b) as -> by congruence. eexists _, _. split; [done|].
  rewrite canonicalize_value_Allowed by (by apply canonicalize_Allowed, serde_allowed). cbn.
  by rewrite canonicalize_idemp.
Qed.
End canonical.
End Canonical.
