(* ===== verification/Ledger.v ===== *)
(** * The nonce ledger: its record

    Models the data of [household-rs/src/mesh_intent_nonce_ledger.rs]: the
    replay key, the evidence kept beside it, the stored record and its
    serialization, the validation of a record read from disk, and the
    decision of [consume_in_worker] on it. The files, their durability and the
    operations on them are [LedgerDisk]. *)

From stdpp Require Import base gmap sets list strings.
From Stdlib Require Import ZArith Lia Ascii.
From S2P Require Import Prelude.
From S2P Require Import Cbor.
From S2P Require Import CborProofs.
From S2P Require Import Canonical.
From S2P Require Import Crypto.
From S2P Require Import RosterView.

Open Scope Z_scope.

Definition MESH_INTENT_NONCE_KEY_DOMAIN : string := "ledger-domain-v1".
Definition RECORD_DOMAIN : string := "soyeht/mesh-intent-nonce-ledger/v1".
Definition RECORD_VERSION : Z := 1.
Definition MAX_DELEGATED_KEY_ID_BYTES : nat := 256.
Definition MAX_RECORD_BYTES : Z := 8 * 1024 * 1024.
Definition MAX_CONFIGURED_ENTRIES : Z := 8192.

(** ** Identifiers *)

(** [is_well_formed_id] of [ids.rs]: the prefix, then 52 characters of the
    lower-case base32 alphabet. *)
Definition base32_lower (c : ascii) : bool :=
  let z := Z.of_N (N_of_ascii c) in (97 <=? z) && (z <=? 122) || (50 <=? z) && (z <=? 55).

Definition is_well_formed_id (s prefix : string) : bool :=
  match strip_prefix (as_bytes prefix) (as_bytes s) with
  | None => false
  | Some rest => (length rest =? 52)%nat && forallb base32_lower rest
  end.

Definition household_well_formed (s : string) : bool := is_well_formed_id s "hh_".
Definition machine_well_formed (s : string) : bool := is_well_formed_id s "m_".

(** [chars().any(char::is_control)] on the UTF-8 bytes of a string: U+0000 to
    U+001F, U+007F, and U+0080 to U+009F, which are encoded as C2 80 to C2 9F. *)
Fixpoint any_control (l : bytes) : bool :=
  match l with
  | [] => false
  | c :: l =>
      let z := Z.of_N (N_of_ascii c) in
      (z <? 32) || (z =? 127) ||
      (z =? 194) && match l with
                    | c' :: _ => let z' := Z.of_N (N_of_ascii c') in (128 <=? z') && (z' <=? 159)
                    | [] => false
                    end ||
      any_control l
  end.

(** The test [MeshIntentNonceKey::new] and [decode_and_validate] share. *)
Definition key_id_malformed (delegated_key_id : string) : bool :=
  let b := as_bytes delegated_key_id in
  bool_decide (b = []) || (MAX_DELEGATED_KEY_ID_BYTES <? length b)%nat || any_control b.

(** ** Keys and evidence *)

Inductive MeshIntentChannel := MIC_Dev | MIC_Release.

#[export] Instance MeshIntentChannel_eq_dec : EqDecision MeshIntentChannel.
Proof. solve_decision. Defined.

Record MeshIntentNonceKey := MkMeshIntentNonceKey {
  nk_hh_id : HouseholdId;
  nk_initiator_m_id : MachineId;
  nk_delegated_key_id : string;
  nk_nonce : bytes;                (* 32 bytes *)
}.

#[export] Instance MeshIntentNonceKey_eq_dec : EqDecision MeshIntentNonceKey.
Proof. solve_decision. Defined.

Inductive MeshIntentNonceKeyError :=
| NKE_InvalidHouseholdId
| NKE_InvalidInitiatorMachineId
| NKE_InvalidDelegatedKeyId.

Definition nonce_key_new (hh_id : HouseholdId) (initiator_m_id : MachineId)
    (delegated_key_id : string) (nonce : bytes) : Result MeshIntentNonceKeyError MeshIntentNonceKey :=
  reject_if (negb (household_well_formed hh_id)) NKE_InvalidHouseholdId;;
  reject_if (negb (machine_well_formed initiator_m_id)) NKE_InvalidInitiatorMachineId;;
  reject_if (key_id_malformed delegated_key_id) NKE_InvalidDelegatedKeyId;;
  Ok (MkMeshIntentNonceKey hh_id initiator_m_id delegated_key_id nonce).

Record MeshIntentNonceEvidence := MkMeshIntentNonceEvidence {
  ne_channel : MeshIntentChannel;
  ne_intent_digest : bytes;        (* 32 bytes *)
  ne_not_after : Z;
}.

(** [MeshIntentNonceEvidence::new]; its one error is [ZeroNotAfter]. *)
Definition evidence_new (channel : MeshIntentChannel) (intent_digest : bytes) (not_after : Z)
    : option MeshIntentNonceEvidence :=
  if not_after =? 0 then None
  else Some (MkMeshIntentNonceEvidence channel intent_digest not_after).

Record TrustedWallFloor := MkTrustedWallFloor {
  tf_hh_id : HouseholdId;
  tf_unix_seconds : Z;
}.

(** [MeshIntentNonceLedgerConfig]; the lock timeout is in nanoseconds. *)
Record LedgerConfig := MkLedgerConfig {
  lc_capacity : Z;
  lc_lock_timeout : Z;
}.

Inductive LedgerConfigError := LCE_CapacityTooLarge | LCE_ZeroLockTimeout.

(** [capacity] is a [NonZeroUsize]. *)
Definition ledger_config_new (capacity lock_timeout : Z) : Result LedgerConfigError LedgerConfig :=
  reject_if (MAX_CONFIGURED_ENTRIES <? capacity) LCE_CapacityTooLarge;;
  reject_if (lock_timeout =? 0) LCE_ZeroLockTimeout;;
  Ok (MkLedgerConfig capacity lock_timeout).

(** ** Outcomes *)

Inductive MeshIntentNonceCommitStage :=
| St_WorkerInFlight
| St_DirtyMarkerWrite | St_DirtyMarkerSync
| St_TempInspect | St_TempCleanup | St_TempOpen | St_TempWrite | St_TempFlush | St_TempSync
| St_Rename
| St_ParentSync | St_Readback | St_ReadbackMismatch
| St_CleanMarkerWrite | St_CleanMarkerSync
| St_PostCommitBinding.

#[export] Instance MeshIntentNonceCommitStage_eq_dec : EqDecision MeshIntentNonceCommitStage.
Proof. solve_decision. Defined.

Definition may_have_changed_record (s : MeshIntentNonceCommitStage) : bool :=
  match s with
  | St_DirtyMarkerWrite | St_DirtyMarkerSync | St_TempInspect | St_TempCleanup | St_TempOpen
  | St_TempWrite | St_TempFlush | St_TempSync | St_Rename => false
  | St_WorkerInFlight | St_ParentSync | St_Readback | St_ReadbackMismatch | St_CleanMarkerWrite
  | St_CleanMarkerSync | St_PostCommitBinding => true
  end.

Inductive MeshIntentNonceUnavailable :=
| NU_WrongHousehold
| NU_WrongTrustedFloorHousehold
| NU_EvidenceExpired
| NU_CapacityExhausted
| NU_GenerationExhausted
| NU_LockTimeout
| NU_DeadlineExceeded
| NU_Cancelled
| NU_LockPoisoned
| NU_UnsafePath
| NU_UnsupportedFilesystem
| NU_CorruptRecord
| NU_PolicyMismatch
| NU_RecordTooLarge
| NU_RecoveryRequired
| NU_Io
| NU_WriteFailed (s : MeshIntentNonceCommitStage).

#[export] Instance MeshIntentNonceUnavailable_eq_dec : EqDecision MeshIntentNonceUnavailable.
Proof. solve_decision. Defined.

Inductive MeshIntentNonceConsumeOutcome :=
| CO_Committed (generation : Z)
| CO_AlreadyConsumed (evidence : MeshIntentNonceEvidence)
| CO_MayHaveTakenEffect (stage : MeshIntentNonceCommitStage)
| CO_Unavailable (reason : MeshIntentNonceUnavailable).

(** ** The stored record *)

Record StoredKeyV1 := MkStoredKeyV1 {
  sk_domain : string;
  sk_hh_id : HouseholdId;
  sk_initiator_m_id : MachineId;
  sk_delegated_key_id : string;
  sk_nonce : bytes;
}.

#[export] Instance StoredKeyV1_eq_dec : EqDecision StoredKeyV1.
Proof. solve_decision. Defined.

Definition stored_key (key : MeshIntentNonceKey) : StoredKeyV1 :=
  MkStoredKeyV1 MESH_INTENT_NONCE_KEY_DOMAIN (nk_hh_id key) (nk_initiator_m_id key)
    (nk_delegated_key_id key) (nk_nonce key).

Record StoredEntryV1 := MkStoredEntryV1 {
  sn_key : StoredKeyV1;
  sn_channel : MeshIntentChannel;
  sn_intent_digest : bytes;
  sn_not_after : Z;
}.

Definition stored_evidence (e : StoredEntryV1) : MeshIntentNonceEvidence :=
  MkMeshIntentNonceEvidence (sn_channel e) (sn_intent_digest e) (sn_not_after e).

Record LedgerRecordV1 := MkLedgerRecordV1 {
  lr_version : Z;
  lr_domain : string;
  lr_hh_id : HouseholdId;
  lr_capacity : Z;
  lr_generation : Z;
  lr_entries : gmap string StoredEntryV1;
}.

Definition empty_record (hh_id : HouseholdId) (capacity : Z) : LedgerRecordV1 :=
  MkLedgerRecordV1 RECORD_VERSION RECORD_DOMAIN hh_id capacity 1 ∅.

Definition with_entries (generation : Z) (entries : gmap string StoredEntryV1) (r : LedgerRecordV1)
    : LedgerRecordV1 :=
  MkLedgerRecordV1 (lr_version r) (lr_domain r) (lr_hh_id r) (lr_capacity r) generation entries.

(** ** Serialization *)

Definition channel_text (c : MeshIntentChannel) : string :=
  match c with MIC_Dev => "dev" | MIC_Release => "release" end.

Section serde.
Context {CC : CborCrate}.

(** A unit variant is its name. *)
Definition de_channel (v : CborValue) : option MeshIntentChannel :=
  s ← de_string v;
  if bool_decide (s = "dev"%string) then Some MIC_Dev
  else if bool_decide (s = "release"%string) then Some MIC_Release else None.

(** [bstr32] *)
Definition de_bstr32 (v : CborValue) : option bytes :=
  b ← de_byte_buf v; if (length b =? 32)%nat then Some b else None.

(** An unsigned integer of a narrower type. *)
Definition de_uint (bound : Z) (v : CborValue) : option Z :=
  z ← de_u64 v; if z <? bound then Some z else None.

(** [Deserialize for HouseholdId], [Deserialize for MachineId] *)
Definition de_household (v : CborValue) : option HouseholdId :=
  s ← de_string v; if household_well_formed s then Some s else None.
Definition de_machine (v : CborValue) : option MachineId :=
  s ← de_string v; if machine_well_formed s then Some s else None.

Definition stored_key_fields (k : StoredKeyV1) : list (string * CborValue) :=
  [("domain", CV_Text (sk_domain k)); ("hh_id", CV_Text (sk_hh_id k));
   ("initiator_m_id", CV_Text (sk_initiator_m_id k));
   ("delegated_key_id", CV_Text (sk_delegated_key_id k)); ("nonce", CV_Bytes (sk_nonce k))]%string.

Definition stored_key_names : list string :=
  ["domain"; "hh_id"; "initiator_m_id"; "delegated_key_id"; "nonce"]%string.

Definition stored_key_build (get : string → option CborValue) : option StoredKeyV1 :=
  domain ← get "domain"%string ≫= de_string;
  hh_id ← get "hh_id"%string ≫= de_household;
  initiator_m_id ← get "initiator_m_id"%string ≫= de_machine;
  delegated_key_id ← get "delegated_key_id"%string ≫= de_string;
  nonce ← get "nonce"%string ≫= de_bstr32;
  Some (MkStoredKeyV1 domain hh_id initiator_m_id delegated_key_id nonce).

#[export] Instance StoredKeyV1_serde : Serde StoredKeyV1 := {
  to_value k := to_struct (stored_key_fields k);
  of_value := of_struct stored_key_names stored_key_build;
}.

Definition stored_entry_fields (e : StoredEntryV1) : list (string * CborValue) :=
  [("key", to_value (sn_key e)); ("channel", CV_Text (channel_text (sn_channel e)));
   ("intent_digest", CV_Bytes (sn_intent_digest e));
   ("not_after", CV_Integer (sn_not_after e))]%string.

Definition stored_entry_names : list string :=
  ["key"; "channel"; "intent_digest"; "not_after"]%string.

Definition stored_entry_build (get : string → option CborValue) : option StoredEntryV1 :=
  key ← get "key"%string ≫= of_value;
  channel ← get "channel"%string ≫= de_channel;
  intent_digest ← get "intent_digest"%string ≫= de_bstr32;
  not_after ← get "not_after"%string ≫= de_u64;
  Some (MkStoredEntryV1 key channel intent_digest not_after).

#[export] Instance StoredEntryV1_serde : Serde StoredEntryV1 := {
  to_value e := to_struct (stored_entry_fields e);
  of_value := of_struct stored_entry_names stored_entry_build;
}.

(** [BTreeMap<String, StoredEntryV1>]: the last of repeated keys stays. *)
Definition of_entries (m : gmap string StoredEntryV1) : CborValue :=
  CV_Map ((λ p, (CV_Text p.1, to_value p.2)) <$> map_to_list m).

Definition de_entries (v : CborValue) : option (gmap string StoredEntryV1) :=
  match v with
  | CV_Map es =>
      l ← mapM (λ e, match e with (k, val) =>
                  k ← de_string k; val ← of_value val; Some (k, val) end) es;
      Some (list_to_map (reverse l))
  | _ => None
  end.

Definition record_fields (r : LedgerRecordV1) : list (string * CborValue) :=
  [("v", CV_Integer (lr_version r)); ("domain", CV_Text (lr_domain r));
   ("hh_id", CV_Text (lr_hh_id r)); ("capacity", CV_Integer (lr_capacity r));
   ("generation", CV_Integer (lr_generation r)); ("entries", of_entries (lr_entries r))]%string.

Definition record_names : list string :=
  ["v"; "domain"; "hh_id"; "capacity"; "generation"; "entries"]%string.

Definition record_build (get : string → option CborValue) : option LedgerRecordV1 :=
  version ← get "v"%string ≫= de_uint 256;
  domain ← get "domain"%string ≫= de_string;
  hh_id ← get "hh_id"%string ≫= de_household;
  capacity ← get "capacity"%string ≫= de_uint 4294967296;
  generation ← get "generation"%string ≫= de_u64;
  entries ← get "entries"%string ≫= de_entries;
  Some (MkLedgerRecordV1 version domain hh_id capacity generation entries).

#[export] Instance LedgerRecordV1_serde : Serde LedgerRecordV1 := {
  to_value r := to_struct (record_fields r);
  of_value := of_struct record_names record_build;
}.
End serde.

(** ** Identifiers of entries, validation, the decision *)

Definition hex_digit (n : N) : ascii := ascii_of_N (if (n <? 10)%N then n + 48 else n - 10 + 97)%N.

(** [hex::encode] *)
Fixpoint hex_encode (l : bytes) : string :=
  match l with
  | [] => EmptyString
  | c :: l => let n := N_of_ascii c in
              String (hex_digit (n / 16)) (String (hex_digit (n mod 16)) (hex_encode l))
  end.

Section ledger.
Context {CC : CborCrate} {SC : SessionCrypto}.
(** The household the ledger is for, and its configuration. *)
Context (target_hh_id : HouseholdId) (config : LedgerConfig).

(** Fails when the key does not encode. *)
Definition entry_id (key : StoredKeyV1) : option string :=
  canonical ← Canonical.to_canonical_vec key;
  Some (hex_encode (sha256 canonical)).

(** One round of the loop of [decode_and_validate]. *)
Definition entry_malformed (hh_id : HouseholdId) (stored_id : string) (entry : StoredEntryV1) : bool :=
  negb (bool_decide (sk_domain (sn_key entry) = MESH_INTENT_NONCE_KEY_DOMAIN)) ||
  negb (bool_decide (sk_hh_id (sn_key entry) = hh_id)) ||
  key_id_malformed (sk_delegated_key_id (sn_key entry)) ||
  (sn_not_after entry =? 0) ||
  negb (bool_decide (entry_id (sn_key entry) = Some stored_id)).

Definition decode_and_validate (b : bytes) : Result MeshIntentNonceUnavailable LedgerRecordV1 :=
  record ← ok_or (Canonical.from_canonical_slice_strict b) NU_CorruptRecord;
  reject_if (negb (lr_version record =? RECORD_VERSION) ||
             negb (bool_decide (lr_domain record = RECORD_DOMAIN)) ||
             negb (bool_decide (lr_hh_id record = target_hh_id)) ||
             (lr_generation record =? 0)) NU_CorruptRecord;;
  reject_if (negb (lr_capacity record =? lc_capacity config)) NU_PolicyMismatch;;
  reject_if (lc_capacity config <? Z.of_nat (size (lr_entries record))) NU_CorruptRecord;;
  reject_if (existsb (λ p, entry_malformed (lr_hh_id record) p.1 p.2)
               (map_to_list (lr_entries record))) NU_CorruptRecord;;
  Ok record.

(** [record.entries.retain(..)]: strictly past entries go. *)
Definition retain_floor (floor : Z) (entries : gmap string StoredEntryV1) : gmap string StoredEntryV1 :=
  filter (λ p, floor <= sn_not_after p.2) entries.

(** What [consume_in_worker] decides on the record it loaded: an answer, or
    the bytes to commit with their generation. *)
Definition decide_consume (record : LedgerRecordV1) (key : MeshIntentNonceKey)
    (evidence : MeshIntentNonceEvidence) (trusted_floor : TrustedWallFloor)
    : Result MeshIntentNonceConsumeOutcome (bytes * Z) :=
  let entries := retain_floor (tf_unix_seconds trusted_floor) (lr_entries record) in
  let stored_key := stored_key key in
  entry_id ← ok_or (entry_id stored_key) (CO_Unavailable NU_CorruptRecord);
  match entries !! entry_id with
  | Some existing =>
      Err (if negb (bool_decide (sn_key existing = stored_key))
           then CO_Unavailable NU_CorruptRecord
           else CO_AlreadyConsumed (stored_evidence existing))
  | None =>
      reject_if (lc_capacity config <=? Z.of_nat (size entries)) (CO_Unavailable NU_CapacityExhausted);;
      next_generation ← ok_or (checked_add (lr_generation record) 1)
                          (CO_Unavailable NU_GenerationExhausted);
      let record := with_entries next_generation
        (<[entry_id := MkStoredEntryV1 stored_key (ne_channel evidence) (ne_intent_digest evidence)
                         (ne_not_after evidence)]> entries) record in
      match Canonical.to_canonical_vec record with
      | Some b => if Z.of_nat (length b) <=? MAX_RECORD_BYTES then Ok (b, next_generation)
                  else Err (CO_Unavailable NU_RecordTooLarge)
      | None => Err (CO_Unavailable NU_CorruptRecord)
      end
  end.
End ledger.

(** ** Records that exist *)

Definition stored_key_valid (k : StoredKeyV1) : Prop :=
  household_well_formed (sk_hh_id k) = true ∧ machine_well_formed (sk_initiator_m_id k) = true ∧
  length (sk_nonce k) = 32%nat.

Definition stored_entry_valid (e : StoredEntryV1) : Prop :=
  stored_key_valid (sn_key e) ∧ length (sn_intent_digest e) = 32%nat ∧ in_u64 (sn_not_after e).

Definition record_valid (r : LedgerRecordV1) : Prop :=
  0 <= lr_version r < 256 ∧ household_well_formed (lr_hh_id r) = true ∧
  0 <= lr_capacity r < 4294967296 ∧ in_u64 (lr_generation r) ∧
  map_Forall (λ _, stored_entry_valid) (lr_entries r).

Section laws.
Context {CC : CborCrate} {CL : CborLaws}.

#[export] Instance StoredKeyV1_laws : SerdeLaws StoredKeyV1 stored_key_valid.
Proof.
  split; intros k Hk; cbn [to_value of_value StoredKeyV1_serde].
  - struct_allowed.
  - struct_plain.
  - assert (depth (to_struct (stored_key_fields k)) ≤ 1)%nat by struct_depth.
    pose proof cbor_recursion_limit. lia.
  - unfold stored_key_fields. struct_lookup. destruct Hk as (H1 & H2 & H3).
    unfold stored_key_build, de_household, de_machine, de_bstr32. struct_leaves.
    rewrite H1, H2. cbn [mbind option_bind]. rewrite H3. cbn. by destruct k.
Qed.

#[export] Instance StoredKeyV1_sound : SerdeSound StoredKeyV1 stored_key_valid.
Proof.
  intros v k Hk. cbn [of_value StoredKeyV1_serde] in Hk.
  apply of_struct_Some in Hk as [get Hk]. unfold stored_key_build, de_household, de_machine, de_bstr32 in Hk.
  repeat (let x := fresh "x" in let Hx := fresh "Hx" in apply bind_Some in Hk as (x & Hx & Hk)).
  injection Hk as <-.
  repeat match goal with
  | H : mbind _ _ = Some _ |- _ => apply bind_Some in H as (? & _ & H)
  | H : (if ?b then _ else _) = Some _ |- _ => destruct b eqn:?; [|done]; injection H as <-
  end.
  split_and!; cbn; try done. by apply Nat.eqb_eq.
Qed.

Lemma de_channel_text c : de_channel (CV_Text (channel_text c)) = Some c.
Proof. unfold de_channel. rewrite de_string_text. by destruct c. Qed.

Lemma stored_entry_depth (e : StoredEntryV1) : (depth (to_value e) ≤ 2)%nat.
Proof.
  assert (depth (to_value (sn_key e)) ≤ 1)%nat by struct_depth.
  apply to_struct_depth. repeat (apply Forall_cons_2; [cbn [snd]; (done || (cbn; lia))|]).
  apply Forall_nil_2.
Qed.

#[export] Instance StoredEntryV1_laws : SerdeLaws StoredEntryV1 stored_entry_valid.
Proof.
  split; intros e (H1 & H2 & H3); cbn [to_value of_value StoredEntryV1_serde].
  - pose proof (serde_allowed (sn_key e) H1). struct_allowed.
  - pose proof (serde_plain (sn_key e) H1). struct_plain.
  - pose proof (stored_entry_depth e) as Hd. cbn [to_value StoredEntryV1_serde] in Hd.
    pose proof cbor_recursion_limit. lia.
  - unfold stored_entry_fields. struct_lookup. unfold stored_entry_build, de_bstr32.
    pose proof (serde_decode (sn_key e) H1) as Hk.
    struct_leaves. rewrite Hk, de_channel_text. cbn [mbind option_bind]. rewrite H2. cbn. by destruct e.
Qed.

#[export] Instance StoredEntryV1_sound : SerdeSound StoredEntryV1 stored_entry_valid.
Proof.
  intros v e He. cbn [of_value StoredEntryV1_serde] in He.
  apply of_struct_Some in He as [get He]. unfold stored_entry_build, de_bstr32 in He.
  apply bind_Some in He as (k & Hk & He). apply bind_Some in He as (c & _ & He).
  apply bind_Some in He as (d & Hd & He). apply bind_Some in He as (n & Hn & He). injection He as <-.
  apply bind_Some in Hk as (? & _ & Hk%serde_sound).
  apply bind_Some in Hd as (? & _ & Hd). apply bind_Some in Hd as (b & _ & Hd).
  apply bind_Some in Hn as (? & _ & Hn%de_u64_bound).
  destruct (length b =? 32)%nat eqn:Hb; [|done]. injection Hd as <-.
  split_and!; [done|by apply Nat.eqb_eq|done].
Qed.

Abbreviation entry_value := (λ p : string * StoredEntryV1, (CV_Text p.1, to_value p.2)) (only parsing).

Lemma entries_Forall (m : gmap string StoredEntryV1) (P : StoredEntryV1 → Prop) (Q : CborValue * CborValue → Prop) :
  (∀ k e, P e → Q (CV_Text k, to_value e)) → map_Forall (λ _, P) m →
  Forall Q (entry_value <$> map_to_list m).
Proof.
  intros HPQ Hm. apply Forall_fmap, Forall_forall. intros [k e] Hin%elem_of_map_to_list.
  apply HPQ. by eapply Hm.
Qed.

Lemma of_entries_Allowed m : map_Forall (λ _, stored_entry_valid) m → Allowed (of_entries m).
Proof.
  intros Hm. constructor.
  - eapply entries_Forall; [|exact Hm]. intros k e _. by eexists.
  - eapply entries_Forall; [|exact Hm]. intros k e He. by apply (serde_allowed e).
  - rewrite <-list_fmap_compose.
    apply (NoDup_fmap_2_strong (A := string * StoredEntryV1)); [|apply NoDup_map_to_list].
    intros [k e] [k' e'] H1%elem_of_map_to_list H2%elem_of_map_to_list. cbn. intros [= ->]. congruence.
Qed.

Lemma of_entries_plain m : map_Forall (λ _, stored_entry_valid) m → plain (of_entries m) = true.
Proof.
  intros Hm. cbn. apply forallb_forall. intros p Hp%list_elem_of_In. revert p Hp. apply Forall_forall.
  eapply entries_Forall; [|exact Hm]. intros k e He. by apply (serde_plain e).
Qed.

Lemma of_entries_depth m : (depth (of_entries m) ≤ 3)%nat.
Proof.
  unfold of_entries. rewrite depth_map. apply le_n_S. induction (map_to_list m) as [|[k e] l IH]; [cbn; lia|].
  rewrite fmap_cons. cbn [foldr]. pose proof (stored_entry_depth e). unfold entry_depth at 1. cbn [fst snd].
  cbn [depth]. lia.
Qed.

Lemma de_entries_canonical m :
  map_Forall (λ _, stored_entry_valid) m → de_entries (canonicalize (of_entries m)) = Some m.
Proof.
  intros Hm. unfold of_entries. rewrite canonicalize_map. cbn [de_entries].
  rewrite <-list_fmap_compose.
  set (f := canon_entry ∘ entry_value).
  assert (∃ l, sort_by entry_cmp (f <$> map_to_list m) = f <$> l ∧ map_to_list m ≡ₚ l) as (l & -> & Hl).
  { apply (Permutation_map_inv f (map_to_list m)). apply sort_by_perm. }
  assert (mapM (λ e, match e with (k, val) => k ← de_string k; val ← of_value val; Some (k, val) end)
            (f <$> l) = Some l) as ->.
  { assert (Forall (λ p, stored_entry_valid p.2) l) as Hv.
    { rewrite <- Hl. apply Forall_forall. intros [k e] Hin%elem_of_map_to_list. by eapply Hm. }
    clear Hl. induction Hv as [|[k e] l He _ IH]; [done|]. rewrite fmap_cons. cbn [mapM].
    change (f (k, e)) with (CV_Text k, canonicalize (to_value e)). cbv beta iota.
    rewrite de_string_text, (serde_decode e He). cbn [mbind option_bind]. by rewrite IH. }
  cbn. f_equal. rewrite (list_to_map_proper _ (map_to_list m)).
  - apply list_to_map_to_list.
  - rewrite reverse_Permutation, <- Hl. apply NoDup_fst_map_to_list.
  - by rewrite reverse_Permutation, <- Hl.
Qed.

Lemma de_uint_integer bound z :
  0 <= z < bound → bound <= u64_modulus → de_uint bound (CV_Integer z) = Some z.
Proof.
  intros [H1 H2] H3. unfold de_uint. rewrite de_u64_integer by (split; lia). cbn.
  by apply Z.ltb_lt in H2 as ->.
Qed.

#[export] Instance LedgerRecordV1_laws : SerdeLaws LedgerRecordV1 record_valid.
Proof.
  split; intros r (H1 & H2 & H3 & H4 & H5); cbn [to_value of_value LedgerRecordV1_serde].
  - pose proof (of_entries_Allowed _ H5). struct_allowed.
  - pose proof (of_entries_plain _ H5).
    assert (in_u64 (lr_version r)) by (split; unfold u64_modulus; lia).
    assert (in_u64 (lr_capacity r)) by (split; unfold u64_modulus; lia). struct_plain.
  - assert (depth (to_struct (record_fields r)) ≤ 4)%nat.
    { pose proof (of_entries_depth (lr_entries r)). apply to_struct_depth.
      repeat (apply Forall_cons_2; [cbn [snd]; (done || (cbn; lia))|]). apply Forall_nil_2. }
    pose proof cbor_recursion_limit. lia.
  - unfold record_fields. struct_lookup. unfold record_build, de_household.
    pose proof (de_entries_canonical _ H5) as He. struct_leaves.
    rewrite !de_uint_integer by (unfold u64_modulus; lia). cbn [mbind option_bind].
    rewrite H2, He. by destruct r.
Qed.

Lemma de_uint_bound bound v z : de_uint bound v = Some z → 0 <= z < bound.
Proof.
  unfold de_uint. intros (x & [Hx _]%de_u64_bound & Hz)%bind_Some.
  destruct (Z.ltb_spec x bound); [|done]. injection Hz as <-. lia.
Qed.

Lemma de_entries_valid v m : de_entries v = Some m → map_Forall (λ _, stored_entry_valid) m.
Proof.
  destruct v as [| | | | | | | |es|]; try done. cbn.
  intros (l & Hl%mapM_Some & Hm)%bind_Some. injection Hm as <-. intros k e He.
  apply elem_of_list_to_map_2 in He. rewrite elem_of_reverse in He. apply list_elem_of_lookup in He as [i Hi].
  destruct (Forall2_lookup_r _ _ _ _ _ Hl Hi) as ([kv ev] & _ & He).
  apply bind_Some in He as (? & _ & He). apply bind_Some in He as (e' & He' & He).
  injection He as _ ->. by eapply serde_sound.
Qed.

#[export] Instance LedgerRecordV1_sound : SerdeSound LedgerRecordV1 record_valid.
Proof.
  intros v r Hr. cbn [of_value LedgerRecordV1_serde] in Hr.
  apply of_struct_Some in Hr as [get Hr]. unfold record_build, de_household in Hr.
  apply bind_Some in Hr as (ver & Hver & Hr). apply bind_Some in Hr as (dom & _ & Hr).
  apply bind_Some in Hr as (hh & Hhh & Hr). apply bind_Some in Hr as (cap & Hcap & Hr).
  apply bind_Some in Hr as (gen & Hgen & Hr). apply bind_Some in Hr as (es & Hes & Hr).
  injection Hr as <-.
  apply bind_Some in Hver as (? & _ & Hver%de_uint_bound), Hcap as (? & _ & Hcap%de_uint_bound),
    Hgen as (? & _ & Hgen%de_u64_bound), Hes as (? & _ & Hes%de_entries_valid), Hhh as (? & _ & Hhh).
  apply bind_Some in Hhh as (s & _ & Hhh). destruct (household_well_formed s) eqn:Hs; [|done].
  injection Hhh as <-. unfold record_valid; cbn; tauto.
Qed.
End laws.

(** ** What the checks and the decision establish *)

Section decisions.
Context {CC : CborCrate} {CL : CborLaws} {SC : SessionCrypto}.
Context (target_hh_id : HouseholdId) (config : LedgerConfig).
Abbreviation decode := (decode_and_validate target_hh_id config).

(** A record of this ledger. *)
Record RecordOk (r : LedgerRecordV1) : Prop := {
  ro_valid : record_valid r;
  ro_version : lr_version r = RECORD_VERSION;
  ro_domain : lr_domain r = RECORD_DOMAIN;
  ro_hh_id : lr_hh_id r = target_hh_id;
  ro_generation : lr_generation r ≠ 0;
  ro_capacity : lr_capacity r = lc_capacity config;
  ro_size : Z.of_nat (size (lr_entries r)) <= lc_capacity config;
  ro_entries : map_Forall (λ id e, entry_malformed (lr_hh_id r) id e = false) (lr_entries r);
}.

Lemma existsb_entries (f : string → StoredEntryV1 → bool) m :
  existsb (λ p, f p.1 p.2) (map_to_list m) = false ↔ map_Forall (λ id e, f id e = false) m.
Proof.
  rewrite <- not_true_iff_false, existsb_exists. split.
  - intros H id e He. apply not_true_is_false. intros Hf. apply H. exists (id, e).
    split; [|done]. by apply list_elem_of_In, elem_of_map_to_list.
  - intros H ([id e] & Hin%list_elem_of_In & Hf). apply elem_of_map_to_list in Hin.
    apply H in Hin. cbn in *. congruence.
Qed.

(** Exactly the encodings of records of this ledger are accepted. *)
Lemma decode_Ok b r :
  decode b = Ok r ↔ RecordOk r ∧ Canonical.to_canonical_vec r = Some b.
Proof.
  unfold decode_and_validate. split.
  - intros H. apply bind_Ok in H as (r0 & Hd%ok_or_Ok & H). res_inv. subst.
    match goal with H : existsb _ _ = false |- _ => apply existsb_entries in H as He end.
    pose proof (Canonical.strict_valid _ _ Hd) as Hv. apply Canonical.strict_encodes in Hd as [_ Henc].
    split; [|done]. split; try done; lia.
  - intros [[Hv V D Hh G C Sz En] Henc].
    destruct (Canonical.to_canonical_vec_valid r Hv) as (b' & He & _ & Hs).
    assert (b' = b) as -> by congruence. rewrite Hs. cbn. rewrite V, D, Hh, C. cbn.
    rewrite !bool_decide_true by done. cbn. apply Z.eqb_neq in G as ->. cbn.
    rewrite Z.eqb_refl. cbn. apply Z.ltb_ge in Sz as ->. cbn. rewrite Hh in En.
    rewrite (proj2 (existsb_entries _ _) En). done.
Qed.

(** Values of the key and evidence types: what their constructors accept. *)
Definition KeyOk (key : MeshIntentNonceKey) : Prop :=
  nonce_key_new (nk_hh_id key) (nk_initiator_m_id key) (nk_delegated_key_id key) (nk_nonce key) = Ok key ∧
  length (nk_nonce key) = 32%nat.

Definition EvidenceOk (ev : MeshIntentNonceEvidence) : Prop :=
  ne_not_after ev ≠ 0 ∧ in_u64 (ne_not_after ev) ∧ length (ne_intent_digest ev) = 32%nat.

Definition new_entry (key : MeshIntentNonceKey) (ev : MeshIntentNonceEvidence) : StoredEntryV1 :=
  MkStoredEntryV1 (stored_key key) (ne_channel ev) (ne_intent_digest ev) (ne_not_after ev).

(** [r'] is [r] without the entries past [floor] and with a new one for [key]. *)
Record Extends (floor : Z) (key : MeshIntentNonceKey) (ev : MeshIntentNonceEvidence) (id : string)
    (r r' : LedgerRecordV1) : Prop := {
  ex_entry_id : entry_id (stored_key key) = Some id;
  ex_fresh : retain_floor floor (lr_entries r) !! id = None;
  ex_room : Z.of_nat (size (retain_floor floor (lr_entries r))) < lc_capacity config;
  ex_generation : checked_add (lr_generation r) 1 = Some (lr_generation r');
  ex_record : r' = with_entries (lr_generation r')
    (<[id := new_entry key ev]> (retain_floor floor (lr_entries r))) r;
}.

(** The record has the entry of [key] with this evidence. *)
Definition holds_entry (r : LedgerRecordV1) (key : MeshIntentNonceKey) (ev : MeshIntentNonceEvidence)
    : Prop :=
  ∃ id, entry_id (stored_key key) = Some id ∧ lr_entries r !! id = Some (new_entry key ev).

Lemma retain_floor_Some floor m id e :
  retain_floor floor m !! id = Some e ↔ m !! id = Some e ∧ floor <= sn_not_after e.
Proof. unfold retain_floor. by rewrite map_lookup_filter_Some. Qed.

Lemma decide_Ok r key ev floor b g :
  decide_consume config r key ev floor = Ok (b, g) →
  ∃ id r', Extends (tf_unix_seconds floor) key ev id r r' ∧ lr_generation r' = g ∧
    Canonical.to_canonical_vec r' = Some b ∧ Z.of_nat (length b) <= MAX_RECORD_BYTES.
Proof.
  unfold decide_consume. intros H. apply bind_Ok in H as (id & Hid%ok_or_Ok & H).
  destruct (retain_floor _ _ !! id) eqn:Hl; [done|].
  apply bind_Ok in H as ([] & Hroom%reject_if_Ok & H).
  apply bind_Ok in H as (ng & Hg%ok_or_Ok & H).
  destruct (Canonical.to_canonical_vec _) as [b'|] eqn:He; [|done].
  destruct (Z.leb_spec (Z.of_nat (length b')) MAX_RECORD_BYTES); [|done]. injection H as -> ->.
  exists id. eexists. split_and!; [|..|exact He|done]; [|done]. split; try done. cbn. lia.
Qed.

Lemma decide_Err r key ev floor o :
  decide_consume config r key ev floor = Err o →
  (∃ reason, o = CO_Unavailable reason) ∨
  ∃ id e, entry_id (stored_key key) = Some id ∧
    retain_floor (tf_unix_seconds floor) (lr_entries r) !! id = Some e ∧
    sn_key e = stored_key key ∧ o = CO_AlreadyConsumed (stored_evidence e).
Proof.
  unfold decide_consume. intros H.
  destruct (entry_id (stored_key key)) as [id|] eqn:Hid; cbn in H; [|injection H as <-; by eauto].
  destruct (retain_floor _ _ !! id) as [e|] eqn:Hl.
  - injection H as <-. case_bool_decide; cbn; [right; eauto 10|left; eauto].
  - left. destruct (_ <=? _); cbn in H; [injection H as <-; by eauto|].
    destruct (checked_add _ _); cbn in H; [|injection H as <-; by eauto].
    destruct (Canonical.to_canonical_vec _) as [b|]; [|injection H as <-; by eauto].
    destruct (_ <=? _); [done|injection H as <-; by eauto].
Qed.

(** A recorded nonce is answered from the record until its entry expires. *)
Lemma decide_holds r key ev ev0 floor :
  holds_entry r key ev0 → tf_unix_seconds floor <= ne_not_after ev0 →
  decide_consume config r key ev floor = Err (CO_AlreadyConsumed ev0).
Proof.
  intros (id & Hid & He) Hf. unfold decide_consume. rewrite Hid. cbn.
  rewrite (proj2 (retain_floor_Some _ _ id _)) by (split; [done|done]).
  rewrite bool_decide_true by done. cbn. by destruct ev0.
Qed.

Section extends.
Context (floor : Z) (key : MeshIntentNonceKey) (ev : MeshIntentNonceEvidence) (id : string).
Context (r r' : LedgerRecordV1) (HE : Extends floor key ev id r r').

Lemma extends_lookup id' e :
  lr_entries r' !! id' = Some e ↔
  id' = id ∧ e = new_entry key ev ∨
  id' ≠ id ∧ lr_entries r !! id' = Some e ∧ floor <= sn_not_after e.
Proof.
  rewrite (ex_record _ _ _ _ _ _ HE). cbn. rewrite lookup_insert_Some, retain_floor_Some.
  naive_solver.
Qed.

Lemma extends_new : holds_entry r' key ev.
Proof. exists id. split; [by apply HE|]. apply extends_lookup. by left. Qed.

Lemma extends_keeps key' ev' :
  holds_entry r key' ev' → floor <= ne_not_after ev' → holds_entry r' key' ev'.
Proof.
  intros (id' & Hid & He) Hf. exists id'. split; [done|].
  apply extends_lookup. right. split_and!; [|done|done]. intros ->.
  pose proof (ex_fresh _ _ _ _ _ _ HE) as Hfr.
  by rewrite (proj2 (retain_floor_Some floor _ id _)) in Hfr by (split; [done|done]).
Qed.

Lemma extends_ok :
  RecordOk r → KeyOk key → nk_hh_id key = target_hh_id → EvidenceOk ev → RecordOk r'.
Proof.
  intros [(Hv1 & Hv2 & Hv3 & Hv4 & Hv5) V D Hh G C Sz En] [Hk Hlen] Hkh (E1 & E2 & E3).
  pose proof (ex_generation _ _ _ _ _ _ HE) as Hg. apply checked_add_Some in Hg as [Hg Hgb].
  pose proof (ex_room _ _ _ _ _ _ HE) as Hroom.
  unfold nonce_key_new in Hk. res_inv.
  assert (stored_entry_valid (new_entry key ev)) as Hne by (by split_and!).
  assert (entry_malformed target_hh_id id (new_entry key ev) = false) as Hnm.
  { unfold entry_malformed. cbn. rewrite Hkh, Hok1, (ex_entry_id _ _ _ _ _ _ HE).
    rewrite !bool_decide_true by done. cbn. by apply Z.eqb_neq in E1 as ->. }
  assert (∀ P : string → StoredEntryV1 → Prop, map_Forall P (lr_entries r) → P id (new_entry key ev) →
    map_Forall P (lr_entries r')) as Hall.
  { intros P HP Hnew id' e [[-> ->]|(_ & He & _)]%extends_lookup; [done|by apply HP]. }
  assert (Z.of_nat (size (lr_entries r')) <= lc_capacity config) as Hsz.
  { rewrite (ex_record _ _ _ _ _ _ HE). cbn.
    rewrite map_size_insert_None by apply (ex_fresh _ _ _ _ _ _ HE). lia. }
  pose proof (ex_record _ _ _ _ _ _ HE) as Hrec.
  assert (lr_version r' = lr_version r ∧ lr_domain r' = lr_domain r ∧ lr_hh_id r' = lr_hh_id r ∧
          lr_capacity r' = lr_capacity r) as (F1 & F2 & F3 & F4).
  { by rewrite Hrec. }
  split; try congruence || done.
  - unfold record_valid. rewrite F1, F3, F4. destruct Hv4. split_and!; try tauto; try lia.
    + split; lia.
    + by apply (Hall (λ _, stored_entry_valid)).
  - destruct Hv4. lia.
  - rewrite F3. apply (Hall (λ id e, entry_malformed (lr_hh_id r) id e = false)); [done|by rewrite Hh].
Qed.
End extends.

Lemma empty_record_ok :
  household_well_formed target_hh_id = true → 0 <= lc_capacity config <= MAX_CONFIGURED_ENTRIES →
  RecordOk (empty_record target_hh_id (lc_capacity config)).
Proof.
  unfold MAX_CONFIGURED_ENTRIES. intros Hh Hc. split; try done; cbn; [|rewrite map_size_empty; lia].
  unfold record_valid. cbn. split_and!; try done; lia.
Qed.
End decisions.
