(* ===== verification/LedgerDisk.v ===== *)
(** * The nonce ledger: its files

    Models the operations of [household-rs/src/mesh_intent_nonce_ledger.rs] on
    disk: reading the record, the atomic replacement, the clean/dirty marker in
    the lock file, recovery, initialization, acquisition of the locks, the
    commit of a consumption, and the caller's side of the worker queue.

    The store directory holds the record and its temporary file. An unsynced
    directory or lock file is the list of states a power failure may expose,
    latest first: [ld_pending] for the directory since its last fsync,
    [ld_marker_pending] for the lock file's bytes. A file whose data was not
    synced may hold anything afterwards, and an unsynced write of the marker any
    prefix of it.

    Which system calls fail is an argument. No operation writes after a failed
    call, so what a killed process leaves behind is what a failure at that call
    leaves behind, and failing calls cover both. The exclusive lock serializes
    the operations of all processes, so a history of the ledger is a sequence
    of operations and power failures. *)

From stdpp Require Import base gmap sets list strings.
From Stdlib Require Import ZArith Lia Ascii.
From S2P Require Import Prelude.
From S2P Require Import Cbor.
From S2P Require Import Canonical.
From S2P Require Import Crypto.
From S2P Require Import RosterView.
From S2P Require Import Ledger.

Open Scope Z_scope.

Definition MARKER_INITIALIZING : bytes := as_bytes "MSNL1:I" ++ ["010"%char].
Definition MARKER_CLEAN : bytes := as_bytes "MSNL1:C" ++ ["010"%char].
Definition MARKER_DIRTY : bytes := as_bytes "MSNL1:D" ++ ["010"%char].

(** ** The disk *)

Record LFile := MkLFile { lf_data : bytes; lf_synced : bool }.

Record LDir := MkLDir { ld_record : option LFile; ld_temp : option LFile }.

Record LDisk := MkLDisk {
  ld_dir : LDir;
  ld_pending : list LDir;
  ld_marker : bytes;
  ld_marker_pending : list bytes;
}.

Definition set_ldir (dir : LDir) (d : LDisk) : LDisk :=
  MkLDisk dir (dir :: ld_pending d) (ld_marker d) (ld_marker_pending d).
Definition sync_ldir (d : LDisk) : LDisk :=
  MkLDisk (ld_dir d) [ld_dir d] (ld_marker d) (ld_marker_pending d).

Definition with_record (f : option LFile) (dir : LDir) : LDir := MkLDir f (ld_temp dir).
Definition with_temp (f : option LFile) (dir : LDir) : LDir := MkLDir (ld_record dir) f.

Definition prefixes (m : bytes) : list bytes := (λ n, take n m) <$> seq 0 (S (length m)).

(** An unsynced write of [m] of which [reached] is visible. *)
Definition set_marker (m reached : bytes) (d : LDisk) : LDisk :=
  MkLDisk (ld_dir d) (ld_pending d) reached (prefixes m ++ ld_marker_pending d).
Definition sync_marker (d : LDisk) : LDisk :=
  MkLDisk (ld_dir d) (ld_pending d) (ld_marker d) [ld_marker d].

(** A freshly created lock file in an empty directory. *)
Definition fresh_disk : LDisk := MkLDisk (MkLDir None None) [MkLDir None None] [] [[]].

(** What a power failure may leave of a file. *)
Definition file_survives (f f' : option LFile) : Prop :=
  match f, f' with
  | None, None => True
  | Some f, Some f' => lf_synced f' = true ∧ (lf_synced f = true → lf_data f' = lf_data f)
  | _, _ => False
  end.

Definition survives (d d' : LDisk) : Prop :=
  ∃ dir, dir ∈ ld_pending d ∧ file_survives (ld_record dir) (ld_record (ld_dir d')) ∧
    file_survives (ld_temp dir) (ld_temp (ld_dir d')) ∧ ld_pending d' = [ld_dir d'] ∧
    ld_marker d' ∈ ld_marker_pending d ∧ ld_marker_pending d' = [ld_marker d'].

(** ** Failing calls *)

(** How opening a file that exists fails. *)
Inductive OpenFault := OF_Loop | OF_Open | OF_Stat | OF_NotPrivate.

Record ReadIo := MkReadIo {
  ri_open : option OpenFault;
  ri_stat : bool;                (* the second [metadata] *)
  ri_read : bool;
}.

Record ReplaceIo := MkReplaceIo {
  rp_inspect : option OpenFault;
  rp_unlink : bool;
  rp_cleanup_sync : bool;
  rp_open : bool;
  rp_write : option nat;         (* how much reached the file when [write_all] fails *)
  rp_flush : bool;
  rp_sync : bool;
  rp_rename : bool;
  rp_parent_sync : bool;
  rp_readback : ReadIo;
}.

Record MarkerIo := MkMarkerIo {
  mk_seek : bool;
  mk_set_len : bool;
  mk_write : option nat;
  mk_flush : bool;
  mk_sync : bool;
}.

(** ** Reading *)

Definition open_fault (f : OpenFault) : MeshIntentNonceUnavailable :=
  match f with OF_Loop | OF_NotPrivate => NU_UnsafePath | OF_Open | OF_Stat => NU_Io end.

Definition open_record_for_read (fault : option OpenFault) (file : option LFile)
    : Result MeshIntentNonceUnavailable (option LFile) :=
  match fault, file with
  | Some (OF_Stat | OF_NotPrivate), None => Ok None      (* there is no file to inspect *)
  | Some f, _ => Err (open_fault f)
  | None, _ => Ok file
  end.

Definition read_record_file (io : ReadIo) (f : LFile) : Result MeshIntentNonceUnavailable bytes :=
  reject_if (ri_stat io) NU_Io;;
  reject_if (MAX_RECORD_BYTES <? Z.of_nat (length (lf_data f))) NU_RecordTooLarge;;
  reject_if (ri_read io) NU_Io;;
  Ok (lf_data f).

Definition read_optional_record (io : ReadIo) (d : LDisk)
    : Result MeshIntentNonceUnavailable (option bytes) :=
  f ← open_record_for_read (ri_open io) (ld_record (ld_dir d));
  match f with
  | None => Ok None
  | Some f => b ← read_record_file io f; Ok (Some b)
  end.

Definition read_record_bytes (io : ReadIo) (d : LDisk) : Result MeshIntentNonceUnavailable bytes :=
  f ← open_record_for_read (ri_open io) (ld_record (ld_dir d));
  f ← ok_or f NU_CorruptRecord;
  read_record_file io f.

(** [None] when the read fails; at most 32 bytes; [Some None] for an empty file. *)
Definition read_marker (fails : bool) (d : LDisk) : option (option bytes) :=
  if fails then None else
  match take 32 (ld_marker d) with [] => Some None | m => Some (Some m) end.

(** ** Writing *)

(** [write_marker_staged]; [write_marker_raw] is the same calls with one error. *)
Definition write_marker_staged (marker : bytes) (write_stage sync_stage : MeshIntentNonceCommitStage)
    (io : MarkerIo) (d : LDisk) : Result MeshIntentNonceCommitStage unit * LDisk :=
  if mk_seek io then (Err write_stage, d) else
  if mk_set_len io then (Err write_stage, d) else
  let d := set_marker [] [] d in
  match mk_write io with
  | Some n => (Err write_stage, set_marker marker (take n marker) d)
  | None =>
      let d := set_marker marker marker d in
      if mk_flush io then (Err write_stage, d) else
      if mk_sync io then (Err sync_stage, d) else (Ok tt, sync_marker d)
  end.

Definition write_marker_raw (marker : bytes) (io : MarkerIo) (d : LDisk) : bool * LDisk :=
  let '(r, d) := write_marker_staged marker St_CleanMarkerWrite St_CleanMarkerSync io d in
  (is_ok r, d).

Inductive DurableWrite :=
| DW_Committed
| DW_NotCommitted (stage : MeshIntentNonceCommitStage)
| DW_Uncertain (stage : MeshIntentNonceCommitStage).

(** The inspection and removal of a left-over temporary file. *)
Definition clean_temp (io : ReplaceIo) (d : LDisk) : option MeshIntentNonceCommitStage * LDisk :=
  match open_record_for_read (rp_inspect io) (ld_temp (ld_dir d)) with
  | Err _ => (Some St_TempInspect, d)
  | Ok None => (None, d)
  | Ok (Some _) =>
      if rp_unlink io then (Some St_TempCleanup, d) else
      let d := set_ldir (with_temp None (ld_dir d)) d in
      if rp_cleanup_sync io then (Some St_TempCleanup, d) else (None, sync_ldir d)
  end.

(** The temporary file's data; each call changes the file in place. *)
Definition put_temp (f : LFile) (d : LDisk) : LDisk := set_ldir (with_temp (Some f) (ld_dir d)) d.

Definition write_temp (io : ReplaceIo) (canonical : bytes) (d : LDisk)
    : option MeshIntentNonceCommitStage * LDisk :=
  if rp_open io then (Some St_TempOpen, d) else
  let d := put_temp (MkLFile [] false) d in
  match rp_write io with
  | Some n => (Some St_TempWrite, put_temp (MkLFile (take n canonical) false) d)
  | None =>
      let d := put_temp (MkLFile canonical false) d in
      if rp_flush io then (Some St_TempFlush, d) else
      if rp_sync io then (Some St_TempSync, d) else
      (None, put_temp (MkLFile canonical true) d)
  end.

(** A rename that fails changes nothing: [open] admits only file systems where
    that holds. *)
Definition rename_temp (d : LDisk) : LDisk :=
  set_ldir (MkLDir (ld_temp (ld_dir d)) None) d.

Definition atomic_replace (io : ReplaceIo) (canonical : bytes) (d : LDisk) : DurableWrite * LDisk :=
  match clean_temp io d with
  | (Some stage, d) => (DW_NotCommitted stage, d)
  | (None, d) =>
  match write_temp io canonical d with
  | (Some stage, d) => (DW_NotCommitted stage, d)
  | (None, d) =>
      if rp_rename io then (DW_NotCommitted St_Rename, d) else
      let d := rename_temp d in
      if rp_parent_sync io then (DW_Uncertain St_ParentSync, d) else
      let d := sync_ldir d in
      match read_record_bytes (rp_readback io) d with
      | Err _ => (DW_Uncertain St_Readback, d)
      | Ok readback =>
          if bool_decide (readback ≠ canonical) then (DW_Uncertain St_ReadbackMismatch, d)
          else (DW_Committed, d)
      end
  end
  end.

(** ** Locks *)

Inductive HouseholdLifecycleLockError :=
| HL_UnsafePath | HL_UnsupportedFilesystem | HL_LockTimeout | HL_RecoveryRequired | HL_Io.

Definition map_lifecycle_to_unavailable (e : HouseholdLifecycleLockError) : MeshIntentNonceUnavailable :=
  match e with
  | HL_UnsafePath => NU_UnsafePath
  | HL_UnsupportedFilesystem => NU_UnsupportedFilesystem
  | HL_LockTimeout => NU_LockTimeout
  | HL_RecoveryRequired => NU_RecoveryRequired
  | HL_Io => NU_Io
  end.

(** One round of polling the mutex or the file lock; [expired] is the clock
    read that follows [WouldBlock]. *)
Inductive MutexPoll := MP_Ok | MP_WouldBlock (expired : bool) | MP_Poisoned.
Inductive FlockPoll := FP_Ok | FP_WouldBlock (expired : bool) | FP_Err.

Fixpoint poll_mutex (l : list MutexPoll) : option (Result MeshIntentNonceUnavailable unit) :=
  match l with
  | [] => None                                      (* still polling *)
  | MP_Ok :: _ => Some (Ok tt)
  | MP_WouldBlock true :: _ => Some (Err NU_LockTimeout)
  | MP_WouldBlock false :: l => poll_mutex l
  | MP_Poisoned :: _ => Some (Err NU_LockPoisoned)
  end.

Fixpoint poll_flock (l : list FlockPoll) : option (Result MeshIntentNonceUnavailable unit) :=
  match l with
  | [] => None
  | FP_Ok :: _ => Some (Ok tt)
  | FP_WouldBlock true :: _ => Some (Err NU_LockTimeout)
  | FP_WouldBlock false :: l => poll_flock l
  | FP_Err :: _ => Some (Err NU_Io)
  end.

(** What [acquire] meets. A binding check compares the retained directory
    descriptors with what the paths name now. *)
Record AcquireIo := MkAcquireIo {
  aq_deadline_overflow : bool;
  aq_lifecycle : option HouseholdLifecycleLockError;
  aq_binding0 : bool;
  aq_mutex : list MutexPoll;
  aq_anchor0 : bool;
  aq_flock : list FlockPoll;
  aq_binding1 : bool;
  aq_anchor1 : bool;
}.

(** [acquire_after_lifecycle_with_deadline] without a ceremony's control, which
    is how both callers call it. *)
Definition acquire_after_lifecycle (io : AcquireIo) : option (Result MeshIntentNonceUnavailable unit) :=
  if aq_deadline_overflow io then Some (Err NU_LockTimeout) else
  if negb (aq_binding0 io) then Some (Err NU_UnsafePath) else
  m ← poll_mutex (aq_mutex io);
  match m with
  | Err e => Some (Err e)
  | Ok _ =>
      if negb (aq_anchor0 io) then Some (Err NU_UnsafePath) else
      f ← poll_flock (aq_flock io);
      match f with
      | Err e => Some (Err e)
      | Ok _ =>
          if negb (aq_binding1 io) then Some (Err NU_UnsafePath)
          else if negb (aq_anchor1 io) then Some (Err NU_UnsafePath) else Some (Ok tt)
      end
  end.

Definition acquire (io : AcquireIo) : option (Result MeshIntentNonceUnavailable unit) :=
  if aq_deadline_overflow io then Some (Err NU_LockTimeout) else
  match aq_lifecycle io with
  | Some e => Some (Err (map_lifecycle_to_unavailable e))
  | None => acquire_after_lifecycle io
  end.

(** ** Loading, recovering, committing *)

Record LoadIo := MkLoadIo {
  li_marker : bool;
  li_recover_read : ReadIo;
  li_recover_replace : ReplaceIo;
  li_recover_marker : MarkerIo;
  li_read : ReadIo;
}.

Record CommitIo := MkCommitIo {
  ci_dirty : MarkerIo;
  ci_replace : ReplaceIo;
  ci_clean : MarkerIo;
  ci_binding : bool;              (* the bindings are still current *)
}.

Inductive MeshIntentNonceLedgerOpenError :=
| LO_InvalidIdentity | LO_AuthorityConflict | LO_UnsafePath | LO_UnsupportedFilesystem
| LO_LockTimeout | LO_LockPoisoned | LO_Io | LO_Corrupt | LO_PolicyMismatch | LO_RecordTooLarge
| LO_RecoveryRequired.

Definition map_unavailable_to_open (reason : MeshIntentNonceUnavailable) : MeshIntentNonceLedgerOpenError :=
  match reason with
  | NU_LockTimeout => LO_LockTimeout
  | NU_LockPoisoned => LO_LockPoisoned
  | NU_UnsafePath => LO_UnsafePath
  | NU_UnsupportedFilesystem => LO_UnsupportedFilesystem
  | NU_CorruptRecord => LO_Corrupt
  | NU_PolicyMismatch => LO_PolicyMismatch
  | NU_RecordTooLarge => LO_RecordTooLarge
  | NU_RecoveryRequired => LO_RecoveryRequired
  | NU_WrongHousehold | NU_WrongTrustedFloorHousehold | NU_EvidenceExpired | NU_CapacityExhausted
  | NU_GenerationExhausted | NU_DeadlineExceeded | NU_Cancelled | NU_Io | NU_WriteFailed _ => LO_Io
  end.

Section operations.
Context {CC : CborCrate} {SC : SessionCrypto}.
Context (target_hh_id : HouseholdId) (config : LedgerConfig).
Abbreviation decode := (decode_and_validate target_hh_id config).

Definition read_and_validate_record (io : ReadIo) (d : LDisk)
    : Result MeshIntentNonceUnavailable LedgerRecordV1 :=
  b ← read_record_bytes io d; decode b.

Definition recover_visible_for_consume (io : LoadIo) (d : LDisk)
    : Result MeshIntentNonceUnavailable unit * LDisk :=
  match b ← read_record_bytes (li_recover_read io) d; _ ← decode b; Ok b with
  | Err e => (Err e, d)
  | Ok b =>
      match atomic_replace (li_recover_replace io) b d with
      | (DW_Committed, d) =>
          let '(ok, d) := write_marker_raw MARKER_CLEAN (li_recover_marker io) d in
          (reject_if (negb ok) NU_RecoveryRequired, d)
      | (_, d) => (Err NU_RecoveryRequired, d)
      end
  end.

Definition load_clean_record (io : LoadIo) (d : LDisk)
    : Result MeshIntentNonceUnavailable LedgerRecordV1 * LDisk :=
  match read_marker (li_marker io) d with
  | None => (Err NU_Io, d)
  | Some marker =>
      if bool_decide (marker = Some MARKER_CLEAN) then (read_and_validate_record (li_read io) d, d)
      else
      match recover_visible_for_consume io d with
      | (Err e, d) => (Err e, d)
      | (Ok _, d) => (read_and_validate_record (li_read io) d, d)
      end
  end.

Definition commit_semantic (io : CommitIo) (canonical : bytes) (generation : Z) (d : LDisk)
    : MeshIntentNonceConsumeOutcome * LDisk :=
  match write_marker_staged MARKER_DIRTY St_DirtyMarkerWrite St_DirtyMarkerSync (ci_dirty io) d with
  | (Err stage, d) => (CO_Unavailable (NU_WriteFailed stage), d)
  | (Ok _, d) =>
      match atomic_replace (ci_replace io) canonical d with
      | (DW_NotCommitted stage, d) => (CO_Unavailable (NU_WriteFailed stage), d)
      | (DW_Uncertain stage, d) => (CO_MayHaveTakenEffect stage, d)
      | (DW_Committed, d) =>
          match write_marker_staged MARKER_CLEAN St_CleanMarkerWrite St_CleanMarkerSync
                  (ci_clean io) d with
          | (Err stage, d) => (CO_MayHaveTakenEffect stage, d)
          | (Ok _, d) =>
              (if negb (ci_binding io) then CO_MayHaveTakenEffect St_PostCommitBinding
               else CO_Committed generation, d)
          end
      end
  end.

(** [None] while the locks are still polled for. *)
Definition consume_in_worker (aio : AcquireIo) (lio : LoadIo) (cio : CommitIo)
    (key : MeshIntentNonceKey) (evidence : MeshIntentNonceEvidence) (trusted_floor : TrustedWallFloor)
    (d : LDisk) : option (MeshIntentNonceConsumeOutcome * LDisk) :=
  guard ← acquire aio;
  Some match guard with
  | Err reason => (CO_Unavailable reason, d)
  | Ok _ =>
      match load_clean_record lio d with
      | (Err reason, d) => (CO_Unavailable reason, d)
      | (Ok record, d) =>
          match decide_consume config record key evidence trusted_floor with
          | Err o => (o, d)
          | Ok (canonical, next_generation) => commit_semantic cio canonical next_generation d
          end
      end
  end.

Definition stabilize_visible_under_lock (rio : ReplaceIo) (mio : MarkerIo) (b : bytes) (d : LDisk)
    : Result MeshIntentNonceLedgerOpenError unit * LDisk :=
  match decode b with
  | Err e => (Err (map_unavailable_to_open e), d)
  | Ok _ =>
      match atomic_replace rio b d with
      | (DW_Committed, d) =>
          let '(ok, d) := write_marker_raw MARKER_CLEAN mio d in (reject_if (negb ok) LO_Io, d)
      | (_, d) => (Err LO_RecoveryRequired, d)
      end
  end.

Record OpenIo := MkOpenIo {
  oi_acquire : AcquireIo;
  oi_marker : bool;
  oi_read : ReadIo;
  oi_init_marker : MarkerIo;
  oi_replace : ReplaceIo;
  oi_clean_marker : MarkerIo;
}.

Definition initialize_fresh_under_lock (io : OpenIo) (d : LDisk)
    : Result MeshIntentNonceLedgerOpenError unit * LDisk :=
  let '(ok, d) := write_marker_raw MARKER_INITIALIZING (oi_init_marker io) d in
  if negb ok then (Err LO_Io, d) else
  match Canonical.to_canonical_vec (empty_record target_hh_id (lc_capacity config)) with
  | None => (Err LO_Corrupt, d)
  | Some b =>
      match atomic_replace (oi_replace io) b d with
      | (DW_Committed, d) =>
          let '(ok, d) := write_marker_raw MARKER_CLEAN (oi_clean_marker io) d in
          (reject_if (negb ok) LO_Io, d)
      | (_, d) => (Err LO_RecoveryRequired, d)
      end
  end.

Definition initialize_or_recover (io : OpenIo) (d : LDisk)
    : option (Result MeshIntentNonceLedgerOpenError unit * LDisk) :=
  guard ← acquire_after_lifecycle (oi_acquire io);
  Some match guard with
  | Err e => (Err (map_unavailable_to_open e), d)
  | Ok _ =>
      match read_marker (oi_marker io) d with
      | None => (Err LO_Io, d)
      | Some marker =>
          match read_optional_record (oi_read io) d with
          | Err e => (Err (map_unavailable_to_open e), d)
          | Ok (Some b) =>
              if bool_decide (marker = Some MARKER_CLEAN)
              then (match decode b with
                    | Err e => Err (map_unavailable_to_open e)
                    | Ok _ => Ok tt
                    end, d)
              else stabilize_visible_under_lock (oi_replace io) (oi_clean_marker io) b d
          | Ok None =>
              match marker with
              | None => initialize_fresh_under_lock io d
              | Some m =>
                  if is_some (strip_prefix m MARKER_INITIALIZING)
                  then initialize_fresh_under_lock io d else (Err LO_Corrupt, d)
              end
          end
      end
  end.
End operations.

(** ** The caller's side *)

Definition abort_reason (cancelled : bool) (now deadline : Z) : option MeshIntentNonceUnavailable :=
  if cancelled then Some NU_Cancelled
  else if deadline <=? now then Some NU_DeadlineExceeded else None.

Inductive SendPoll := SP_Sent | SP_Full | SP_Disconnected.
Inductive RecvPoll := RP_Outcome | RP_Empty | RP_Disconnected.

(** A round of the first loop: the control is read, then [try_send]. *)
Record SendRound := MkSendRound { sr_cancelled : bool; sr_now : Z; sr_send : SendPoll }.

(** A round of the second: [try_recv], the control, [recv_timeout]. *)
Record RecvRound := MkRecvRound {
  rr_try : RecvPoll;
  rr_cancelled : bool;
  rr_now : Z;
  rr_wait : RecvPoll;
}.

Fixpoint send_loop (deadline : Z) (l : list SendRound) : option (Result MeshIntentNonceUnavailable unit) :=
  match l with
  | [] => None
  | r :: l =>
      match abort_reason (sr_cancelled r) (sr_now r) deadline with
      | Some reason => Some (Err reason)
      | None =>
          match sr_send r with
          | SP_Sent => Some (Ok tt)
          | SP_Full => send_loop deadline l
          | SP_Disconnected => Some (Err NU_Io)
          end
      end
  end.

(** [answer] is what the worker sends. *)
Fixpoint recv_loop (deadline : Z) (answer : MeshIntentNonceConsumeOutcome) (l : list RecvRound)
    : option MeshIntentNonceConsumeOutcome :=
  match l with
  | [] => None
  | r :: l =>
      match rr_try r with
      | RP_Outcome => Some answer
      | RP_Disconnected => Some (CO_MayHaveTakenEffect St_WorkerInFlight)
      | RP_Empty =>
          if is_some (abort_reason (rr_cancelled r) (rr_now r) deadline)
          then Some (CO_MayHaveTakenEffect St_WorkerInFlight)
          else
          match rr_wait r with
          | RP_Outcome => Some answer
          | RP_Disconnected => Some (CO_MayHaveTakenEffect St_WorkerInFlight)
          | RP_Empty => recv_loop deadline answer l
          end
      end
  end.

Record ConsumeRun := MkConsumeRun {
  cr_cancelled : bool;
  cr_now : Z;
  cr_sends : list SendRound;
  cr_recvs : list RecvRound;
}.

(** The answer and whether the request reached the worker; [None] while a loop
    goes on. *)
Definition consume (target_hh_id : HouseholdId) (key : MeshIntentNonceKey)
    (evidence : MeshIntentNonceEvidence) (trusted_floor : TrustedWallFloor) (deadline : Z)
    (run : ConsumeRun) (answer : MeshIntentNonceConsumeOutcome)
    : option (MeshIntentNonceConsumeOutcome * bool) :=
  let unavailable reason := Some (CO_Unavailable reason, false) in
  if negb (bool_decide (nk_hh_id key = target_hh_id)) then unavailable NU_WrongHousehold else
  if negb (bool_decide (tf_hh_id trusted_floor = target_hh_id))
  then unavailable NU_WrongTrustedFloorHousehold else
  if ne_not_after evidence <=? tf_unix_seconds trusted_floor then unavailable NU_EvidenceExpired else
  match abort_reason (cr_cancelled run) (cr_now run) deadline with
  | Some reason => unavailable reason
  | None =>
      sent ← send_loop deadline (cr_sends run);
      match sent with
      | Err reason => unavailable reason
      | Ok _ => o ← recv_loop deadline answer (cr_recvs run); Some (o, true)
      end
  end.
