(* ===== verification/LedgerProofs.v ===== *)
(** * The nonce ledger: histories and their invariant

    A history of a ledger's disk is any sequence of openings, consumptions and
    power failures, with any system calls failing. The invariant says what
    every state a power failure may expose records of the consumptions so far. *)

From stdpp Require Import base gmap sets list strings.
From Stdlib Require Import ZArith Lia Ascii.
From S2P Require Import Prelude.
From S2P Require Import Cbor.
From S2P Require Import CborProofs.
From S2P Require Import Canonical.
From S2P Require Import Crypto.
From S2P Require Import RosterView.
From S2P Require Import Ledger.
From S2P Require Import LedgerDisk.

Open Scope Z_scope.

(** ** What the calls do to the disk *)

(** The record files a power failure may expose. *)
Definition records (d : LDisk) : list (option LFile) := ld_record <$> ld_pending d.
Definition visible (d : LDisk) : option LFile := ld_record (ld_dir d).

(** The present state is one of those a power failure may expose. *)
Definition present (d : LDisk) : Prop :=
  ld_dir d ∈ ld_pending d ∧ ld_marker d ∈ ld_marker_pending d.

Lemma visible_record d : present d → visible d ∈ records d.
Proof. intros [H _]. by apply (list_elem_of_fmap_2 ld_record). Qed.

Lemma prefixes_take m n : take n m ∈ prefixes m.
Proof.
  unfold prefixes. apply list_elem_of_fmap. destruct (decide (n ≤ length m)%nat).
  - exists n. split; [done|]. apply elem_of_seq. lia.
  - exists (length m). rewrite !take_ge by lia. split; [done|]. apply elem_of_seq. lia.
Qed.

Lemma prefixes_full m : m ∈ prefixes m.
Proof. pose proof (prefixes_take m (length m)) as H. by rewrite take_ge in H by lia. Qed.

Lemma prefixes_elem m x : x ∈ prefixes m → ∃ n, x = take n m.
Proof. intros (n & -> & _)%list_elem_of_fmap. by exists n. Qed.

(** Writing the marker touches nothing else; what is visible of it afterwards
    is the old marker or a prefix of the new one. *)
Record MarkerWritten (m : bytes) (ok : bool) (d d' : LDisk) : Prop := {
  mw_dir : ld_dir d' = ld_dir d;
  mw_pending : ld_pending d' = ld_pending d;
  mw_ok : ok = true → ld_marker d' = m ∧ ld_marker_pending d' = [m];
  mw_visible : ld_marker d' = ld_marker d ∨ ld_marker d' ∈ prefixes m;
  mw_markers : ∀ x, x ∈ ld_marker_pending d' → x ∈ ld_marker_pending d ∨ x ∈ prefixes m;
  mw_present : present d → present d';
}.

Lemma write_marker_written m s1 s2 io d r d' :
  write_marker_staged m s1 s2 io d = (r, d') → MarkerWritten m (is_ok r) d d'.
Proof.
  unfold write_marker_staged.
  assert (∀ r0, is_ok r0 = false → MarkerWritten m (@is_ok MeshIntentNonceCommitStage unit r0) d d) as Hsame.
  { intros r0 Hr. split; try done; [by rewrite Hr|by left|by left]. }
  assert (∀ n b, MarkerWritten m b d (set_marker m (take n m) (set_marker [] [] d)) ∨ b = true) as Hw.
  { intros n [|]; [by right|left]. split; try done; cbn [set_marker ld_marker ld_marker_pending].
    - right. apply prefixes_take.
    - intros x. change (prefixes []) with [@nil ascii]. rewrite !elem_of_app, list_elem_of_singleton.
      intros [H|[->|H]]; [by right|right; apply (prefixes_take m 0)|by left].
    - intros [H1 H2]. split; [done|]. apply elem_of_app. left. apply prefixes_take. }
  destruct (mk_seek io); [intros [= <- <-]; by apply Hsame|].
  destruct (mk_set_len io); [intros [= <- <-]; by apply Hsame|].
  destruct (mk_write io) as [n|].
  { intros [= <- <-]. by destruct (Hw n false). }
  assert (set_marker m m (set_marker [] [] d) = set_marker m (take (length m) m) (set_marker [] [] d)) as ->
    by (by rewrite take_ge).
  destruct (mk_flush io); [intros [= <- <-]; by destruct (Hw (length m) false)|].
  destruct (mk_sync io); [intros [= <- <-]; by destruct (Hw (length m) false)|].
  intros [= <- <-]. destruct (Hw (length m) false) as [[H1 H2 _ H4 H5 H6]|]; [|done].
  rewrite take_ge in * by lia. split; try done.
  - intros x ->%list_elem_of_singleton. right. apply prefixes_full.
  - intros [HP _]%H6. split; [done|]. by left.
Qed.

Lemma write_marker_stage m s1 s2 io d s d' :
  write_marker_staged m s1 s2 io d = (Err s, d') → s = s1 ∨ s = s2.
Proof. unfold write_marker_staged. repeat case_match; intros [= <- _]; auto. Qed.

(** The steps of a replacement that do not touch the record: the records
    exposed before and after are the same. *)
Record RecordKept (d d' : LDisk) : Prop := {
  rk_visible : visible d' = visible d;
  rk_records : ∀ x, x ∈ records d' → x ∈ records d;
  rk_marker : ld_marker d' = ld_marker d;
  rk_markers : ld_marker_pending d' = ld_marker_pending d;
  rk_present : present d → present d';
}.

#[export] Instance RecordKept_preorder : PreOrder RecordKept.
Proof.
  split; [by split|]. intros a b c [] []. split; try congruence; eauto.
Qed.

Lemma kept_set_temp f d : present d → RecordKept d (set_ldir (with_temp f (ld_dir d)) d).
Proof.
  intros HP. split; try done.
  - intros x. unfold records. cbn. rewrite elem_of_cons. intros [->|H]; [|done]. by apply visible_record.
  - intros _. split; [by left|apply HP].
Qed.

Lemma kept_sync d : present d → RecordKept d (sync_ldir d).
Proof.
  intros HP. split; try done.
  - intros x. unfold records. cbn. intros ->%list_elem_of_singleton. by apply visible_record.
  - intros _. split; [by left|apply HP].
Qed.

Lemma clean_temp_kept io d o d' : present d → clean_temp io d = (o, d') → RecordKept d d'.
Proof.
  intros HP. unfold clean_temp. destruct (open_record_for_read _ _) as [[f|]|]; [|by intros [= <- <-]..].
  destruct (rp_unlink io); [by intros [= <- <-]|].
  pose proof (kept_set_temp None d HP) as H1.
  destruct (rp_cleanup_sync io); intros [= <- <-]; [done|]. etrans; [done|].
  apply kept_sync. by apply H1.
Qed.

Lemma write_temp_kept io b d o d' :
  present d → write_temp io b d = (o, d') →
  RecordKept d d' ∧ (o = None → ld_temp (ld_dir d') = Some (MkLFile b true)) ∧
  (∀ s, o = Some s → s = St_TempOpen ∨ s = St_TempWrite ∨ s = St_TempFlush ∨ s = St_TempSync).
Proof.
  intros HP. unfold write_temp.
  assert (∀ f d1, RecordKept d d1 → RecordKept d (put_temp f d1)) as Hput.
  { intros f d1 H1. etrans; [done|]. apply kept_set_temp. by apply H1. }
  destruct (rp_open io); [intros [= <- <-]; split_and!; naive_solver|].
  destruct (rp_write io) as [n|]; [intros [= <- <-]; split_and!; [by repeat apply Hput|naive_solver..]|].
  destruct (rp_flush io); [intros [= <- <-]; split_and!; [by repeat apply Hput|naive_solver..]|].
  destruct (rp_sync io); intros [= <- <-]; (split_and!; [by repeat apply Hput|naive_solver..]).
Qed.

(** A replacement leaves the record alone, or makes [b] visible; it is
    [Committed] when nothing else can be exposed any more. *)
Inductive Replaced (b : bytes) (d : LDisk) : DurableWrite → LDisk → Prop :=
| replaced_not s d' :
    RecordKept d d' → may_have_changed_record s = false → Replaced b d (DW_NotCommitted s) d'
| replaced_uncertain s d' :
    present d' → visible d' = Some (MkLFile b true) →
    (∀ x, x ∈ records d' → x ∈ records d ∨ x = visible d') →
    ld_marker d' = ld_marker d → ld_marker_pending d' = ld_marker_pending d →
    may_have_changed_record s = true → Replaced b d (DW_Uncertain s) d'
| replaced_committed d' :
    present d' → visible d' = Some (MkLFile b true) → records d' = [visible d'] →
    ld_marker d' = ld_marker d → ld_marker_pending d' = ld_marker_pending d →
    Replaced b d DW_Committed d'.

Lemma atomic_replace_replaced io b d dw d' :
  present d → atomic_replace io b d = (dw, d') → Replaced b d dw d'.
Proof.
  intros HP. unfold atomic_replace.
  destruct (clean_temp io d) as [o1 d1] eqn:Hc. pose proof (clean_temp_kept _ _ _ _ HP Hc) as K1.
  destruct o1 as [s|].
  { intros [= <- <-]. constructor; [done|]. unfold clean_temp in Hc. by repeat case_match; simplify_eq. }
  destruct (write_temp io b d1) as [o2 d2] eqn:Hw.
  destruct (write_temp_kept _ _ _ _ _ (rk_present _ _ K1 HP) Hw) as (K2 & Ht & Hs).
  assert (RecordKept d d2) as K by (by etrans). destruct o2 as [s|].
  { intros [= <- <-]. constructor; [done|]. by destruct (Hs s eq_refl) as [->|[->|[->| ->]]]. }
  destruct (rp_rename io); [intros [= <- <-]; by constructor|].
  specialize (Ht eq_refl). set (d3 := rename_temp d2).
  assert (visible d3 = Some (MkLFile b true)) as Hv by done || (unfold visible; cbn; done).
  assert (∀ x, x ∈ records d3 → x ∈ records d ∨ x = visible d3) as Hrec.
  { intros x [->|Hx]%elem_of_cons; [by right|left]. by apply K. }
  assert (present d3) as HP3. { split; [by left|]. cbn. by apply K. }
  destruct (rp_parent_sync io).
  { intros [= <- <-]. constructor; try done; apply K. }
  assert (present (sync_ldir d3)) as HP4. { split; [by left|apply HP3]. }
  destruct (read_record_bytes _ _) as [rb|].
  - case_bool_decide; intros [= <- <-]; constructor; try done; try apply K.
    intros x ->%list_elem_of_singleton. by right.
  - intros [= <- <-]. constructor; try done; try apply K. intros x ->%list_elem_of_singleton. by right.
Qed.

(** ** Histories *)

Section histories.
Context {CC : CborCrate} {CL : CborLaws} {SC : SessionCrypto}.
Context (target_hh_id : HouseholdId) (config : LedgerConfig).
Context (Hhh : household_well_formed target_hh_id = true).
Context (Hcap : 0 <= lc_capacity config <= MAX_CONFIGURED_ENTRIES).
Abbreviation decode := (decode_and_validate target_hh_id config).

(** A consumption the worker has carried out. *)
Record Consumption := MkConsumption {
  cn_key : MeshIntentNonceKey;
  cn_evidence : MeshIntentNonceEvidence;
  cn_floor : Z;
  cn_outcome : MeshIntentNonceConsumeOutcome;
}.

(** The requests [consume] passes on to the worker. *)
Definition Admissible (key : MeshIntentNonceKey) (ev : MeshIntentNonceEvidence)
    (floor : TrustedWallFloor) : Prop :=
  KeyOk key ∧ EvidenceOk ev ∧ nk_hh_id key = target_hh_id ∧ tf_hh_id floor = target_hh_id ∧
  tf_unix_seconds floor < ne_not_after ev.

(** The disk and the consumptions so far, latest first. *)
Inductive History : LDisk → list Consumption → Prop :=
| history_fresh : History fresh_disk []
| history_open io d h r d' :
    History d h → initialize_or_recover target_hh_id config io d = Some (r, d') → History d' h
| history_consume aio lio cio key ev floor d h o d' :
    History d h → Admissible key ev floor →
    consume_in_worker target_hh_id config aio lio cio key ev floor d = Some (o, d') →
    History d' (MkConsumption key ev (tf_unix_seconds floor) o :: h)
| history_power_failure d h d' : History d h → survives d d' → History d' h.

Definition is_committed (o : MeshIntentNonceConsumeOutcome) : bool :=
  match o with CO_Committed _ => true | _ => false end.
Definition is_ambiguous (o : MeshIntentNonceConsumeOutcome) : bool :=
  match o with CO_MayHaveTakenEffect _ => true | _ => false end.

Definition floors_upto (h : list Consumption) (n : Z) : Prop := ∀ c, c ∈ h → cn_floor c <= n.

(** What a record must say of the consumptions so far: it has the entries of
    those committed that have not expired, and every entry comes from one
    that was committed or ambiguous. *)
Record Reflects (h : list Consumption) (r : LedgerRecordV1) : Prop := {
  rf_committed : ∀ c, c ∈ h → is_committed (cn_outcome c) = true →
    floors_upto h (ne_not_after (cn_evidence c)) → holds_entry r (cn_key c) (cn_evidence c);
  rf_origin : ∀ id e, lr_entries r !! id = Some e →
    ∃ c, c ∈ h ∧ e = new_entry (cn_key c) (cn_evidence c) ∧
         (is_committed (cn_outcome c) = true ∨ is_ambiguous (cn_outcome c) = true);
  rf_generation : ∀ c g, c ∈ h → cn_outcome c = CO_Committed g → g <= lr_generation r;
}.

Definition none_committed (h : list Consumption) : Prop :=
  ∀ c, c ∈ h → is_committed (cn_outcome c) = false.

(** Small enough to be read back. The encoding of the empty record is not
    measured before it is written. *)
Definition fits (b : bytes) : Prop :=
  Z.of_nat (length b) <= MAX_RECORD_BYTES ∨
  Canonical.to_canonical_vec (empty_record target_hh_id (lc_capacity config)) = Some b.

(** A record file that reflects the history. *)
Definition file_good (h : list Consumption) (f : option LFile) : Prop :=
  match f with
  | None => none_committed h
  | Some f => lf_synced f = true ∧ fits (lf_data f) ∧ ∃ r, decode (lf_data f) = Ok r ∧ Reflects h r
  end.

Record LedgerInv (d : LDisk) (h : list Consumption) : Prop := {
  li_present : present d;
  li_good : ∀ f, f ∈ records d → file_good h f;
  li_clean : ld_marker d = MARKER_CLEAN → ∀ f, f ∈ records d → f = visible d;
  li_none : None ∈ records d → ∀ m, m ∈ ld_marker_pending d → m ∈ prefixes MARKER_INITIALIZING;
  li_markers : ∀ m, m ∈ ld_marker_pending d → (length m ≤ 8)%nat;
}.

(** ** Reflecting one more consumption *)

Lemma floors_cons c h n : floors_upto (c :: h) n → cn_floor c <= n ∧ floors_upto h n.
Proof. intros H. split; [apply H; by left|]. intros x Hx. apply H. by right. Qed.

Lemma reflects_skip c h r :
  is_committed (cn_outcome c) = false → Reflects h r → Reflects (c :: h) r.
Proof.
  intros Hc [R1 R2 R3]. split.
  - intros x [->|Hx]%elem_of_cons Hcx [_ Hf]%floors_cons; [congruence|by apply R1].
  - intros id e He. destruct (R2 _ _ He) as (x & Hx & ?). exists x. split; [by right|done].
  - intros x g [->|Hx]%elem_of_cons Hg; [by rewrite Hg in Hc|by eapply R3].
Qed.

Lemma reflects_extend h r r' floor key ev id o :
  Reflects h r → Extends config floor key ev id r r' →
  o = CO_Committed (lr_generation r') ∨ is_ambiguous o = true →
  Reflects (MkConsumption key ev floor o :: h) r'.
Proof.
  intros [R1 R2 R3] HE Ho. pose proof (ex_generation _ _ _ _ _ _ _ HE) as Hg.
  apply checked_add_Some in Hg as [Hg _]. split.
  - intros x [->|Hx]%elem_of_cons Hcx [Hf Hfs]%floors_cons; cbn in *; [by eapply extends_new|].
    eapply extends_keeps; [done| |done]. by apply R1.
  - intros id' e He. apply (extends_lookup _ _ _ _ _ _ _ HE) in He as [[-> ->]|(_ & He & _)].
    + eexists. split; [by left|]. split; [done|]. cbn. destruct Ho as [-> |]; [by left|by right].
    + destruct (R2 _ _ He) as (x & Hx & ?). exists x. split; [by right|done].
  - intros x g [->|Hx]%elem_of_cons; cbn; [destruct Ho as [->|]; [intros [= <-]; lia|by intros ->]|].
    intros ?%(R3 x); [lia|done].
Qed.

Lemma file_good_skip c h f : is_committed (cn_outcome c) = false → file_good h f → file_good (c :: h) f.
Proof.
  intros Hc. destruct f as [f|]; cbn.
  - intros (Hs & Hl & r & Hd & Hr). split_and!; [done..|]. exists r. split; [done|by apply reflects_skip].
  - intros H x [->|Hx]%elem_of_cons; [done|by apply H].
Qed.

Lemma inv_skip c d h :
  is_committed (cn_outcome c) = false → LedgerInv d h → LedgerInv d (c :: h).
Proof. intros Hc []. split; try done. intros f Hf. apply file_good_skip; auto. Qed.

(** ** The invariant across the calls *)

Lemma take_clean m n :
  m = MARKER_INITIALIZING ∨ m = MARKER_CLEAN ∨ m = MARKER_DIRTY → take n m = MARKER_CLEAN → m = MARKER_CLEAN.
Proof.
  intros Hm Hn. assert (n < 8 ∨ 8 ≤ n)%nat as [Hl|Hl] by lia.
  - apply (f_equal length) in Hn. rewrite length_take in Hn.
    destruct Hm as [->|[->| ->]]; cbn in Hn; lia.
  - rewrite take_ge in Hn; [done|]. destruct Hm as [->|[->| ->]]; cbn; lia.
Qed.

Lemma marker_length m : m = MARKER_INITIALIZING ∨ m = MARKER_CLEAN ∨ m = MARKER_DIRTY → length m = 8%nat.
Proof. by intros [->|[->| ->]]. Qed.

Lemma inv_marker m ok d d' h :
  LedgerInv d h → MarkerWritten m ok d d' →
  m = MARKER_INITIALIZING ∨ m = MARKER_CLEAN ∨ m = MARKER_DIRTY →
  (None ∈ records d → m = MARKER_INITIALIZING) →
  (m = MARKER_CLEAN → ∀ f, f ∈ records d → f = visible d) → LedgerInv d' h.
Proof.
  intros [HP HG HC HN HM] [W1 W2 _ W4 W5 W6] Hm Hnone Hclean.
  assert (records d' = records d ∧ visible d' = visible d) as [Er Ev].
  { unfold records, visible. by rewrite W1, W2. }
  split; rewrite ?Er, ?Ev; [auto|done| | |].
  - intros Hc. destruct W4 as [W4|[n Hn]%prefixes_elem]; [apply HC; congruence|].
    apply Hclean. apply (take_clean _ n); congruence.
  - intros Hin x [Hx|Hx]%W5; [by apply HN|]. by rewrite <- (Hnone Hin).
  - intros x [Hx|[n ->]%prefixes_elem]%W5; [by apply HM|].
    rewrite length_take, (marker_length m Hm). lia.
Qed.

Lemma inv_kept d d' h : RecordKept d d' → LedgerInv d h → LedgerInv d' h.
Proof.
  intros [K1 K2 K3 K4 K5] [HP HG HC HN HM]. split; rewrite ?K3, ?K4, ?K1; auto.
Qed.

Lemma inv_replaced b d dw d' h :
  LedgerInv d h → Replaced b d dw d' → ld_marker d ≠ MARKER_CLEAN →
  file_good h (Some (MkLFile b true)) → LedgerInv d' h.
Proof.
  intros HI HR Hm Hb. pose proof HI as [HP HG HC HN HM].
  destruct HR as [s d' K _|s d' P1 V1 R1 M1 M2 _|d' P1 V1 R1 M1 M2].
  - by eapply inv_kept.
  - split; rewrite ?M1, ?M2; try done.
    + intros f [Hf| ->]%R1; [auto|by rewrite V1].
    + intros [Hf|Hf]%R1; [auto|congruence].
  - split; rewrite ?M1, ?M2, ?R1; try done.
    + intros f ->%list_elem_of_singleton. by rewrite V1.
    + intros Hn%list_elem_of_singleton. congruence.
Qed.

Lemma inv_single d f h :
  present d → visible d = Some f → records d = [visible d] → file_good h (Some f) →
  (∀ m, m ∈ ld_marker_pending d → (length m ≤ 8)%nat) → LedgerInv d h.
Proof.
  intros HP Hv Hr Hg Hm. split; rewrite ?Hr; try done.
  - intros x ->%list_elem_of_singleton. by rewrite Hv.
  - by intros _ x ->%list_elem_of_singleton.
  - intros Hn%list_elem_of_singleton. congruence.
Qed.

(** ** Loading *)

Lemma read_record_bytes_Ok io d b :
  read_record_bytes io d = Ok b →
  ∃ f, visible d = Some f ∧ b = lf_data f ∧ Z.of_nat (length b) <= MAX_RECORD_BYTES.
Proof.
  unfold read_record_bytes, read_record_file, open_record_for_read. fold (visible d). intros H.
  assert (∃ f, visible d = Some f ∧ read_record_file io f = Ok b) as (f & Hf & Hr).
  { destruct (ri_open io) as [[]|], (visible d) as [f|]; try done; by exists f. }
  exists f. unfold read_record_file in Hr. res_inv. subst. split_and!; try done. lia.
Qed.

(** The record is the only one a power failure can expose. *)
Definition settled (d : LDisk) (h : list Consumption) (r : LedgerRecordV1) : Prop :=
  (∀ f, f ∈ records d → f = visible d) ∧
  ∃ f, visible d = Some f ∧ decode (lf_data f) = Ok r ∧ Reflects h r.

(** Neither what is visible nor what may be exposed is new. *)
Definition no_new_record (d d' : LDisk) : Prop :=
  visible d' = visible d ∧ ∀ f, f ∈ records d' → f ∈ records d.

#[export] Instance no_new_record_preorder : PreOrder no_new_record.
Proof.
  split; [by split|]. intros a b c [V1 R1] [V2 R2]. split; [congruence|auto].
Qed.

Lemma kept_no_new d d' : RecordKept d d' → no_new_record d d'.
Proof. by intros []. Qed.

Lemma marker_no_new m ok d d' : MarkerWritten m ok d d' → no_new_record d d'.
Proof. intros [W1 W2 _ _ _ _]. unfold no_new_record, visible, records. by rewrite W1, W2. Qed.

(** Rewriting the visible record, durably or not. *)
Lemma replaced_same_no_new f d dw d' :
  present d → visible d = Some f → lf_synced f = true → Replaced (lf_data f) d dw d' → no_new_record d d'.
Proof.
  intros HP Hv Hs HR. assert (Some f = Some (MkLFile (lf_data f) true)) as Hf by (destruct f; cbn in *; congruence).
  pose proof (visible_record _ HP) as Hvr.
  destruct HR as [s d' K _|s d' P1 V1 R1 M1 M2 _|d' P1 V1 R1 M1 M2].
  - by apply kept_no_new.
  - split; [congruence|]. intros x [Hx| ->]%R1; [done|]. congruence.
  - split; [congruence|]. rewrite R1. intros x ->%list_elem_of_singleton. congruence.
Qed.

Lemma write_marker_raw_written m io d ok d' :
  write_marker_raw m io d = (ok, d') → MarkerWritten m ok d d'.
Proof.
  unfold write_marker_raw. destruct (write_marker_staged _ _ _ _ _) as [r d1] eqn:Hw.
  intros [= <- <-]. by eapply write_marker_written.
Qed.

Lemma read_and_validate_settled io d h r :
  LedgerInv d h → (∀ f, f ∈ records d → f = visible d) →
  read_and_validate_record target_hh_id config io d = Ok r → settled d h r.
Proof.
  intros HI Hall H. apply bind_Ok in H as (b & (f & Hv & -> & _)%read_record_bytes_Ok & Hd).
  split; [done|]. exists f. split_and!; try done.
  destruct (li_good _ _ HI (Some f)) as (_ & _ & r' & Hd' & Hr).
  { rewrite <- Hv. apply visible_record, HI. }
  congruence.
Qed.

Lemma recover_inv io d h res d' :
  LedgerInv d h → ld_marker d ≠ MARKER_CLEAN →
  recover_visible_for_consume target_hh_id config io d = (res, d') →
  LedgerInv d' h ∧ no_new_record d d' ∧ (res = Ok tt → ∀ f, f ∈ records d' → f = visible d').
Proof.
  intros HI Hm. unfold recover_visible_for_consume.
  destruct (_ ≫= _) as [b|e] eqn:Hb; [|intros [= <- <-]; by split_and!].
  apply bind_Ok in Hb as (b' & (f & Hv & -> & _)%read_record_bytes_Ok & Hb).
  apply bind_Ok in Hb as (r & Hd & Hb). injection Hb as <-.
  pose proof (li_present _ _ HI) as HP.
  destruct (li_good _ _ HI (Some f)) as (Hs & Hgood).
  { rewrite <- Hv. by apply visible_record. }
  destruct (atomic_replace _ _ d) as [dw d1] eqn:Hr. apply atomic_replace_replaced in Hr; [|done].
  assert (LedgerInv d1 h) as HI1. { eapply inv_replaced; try done. }
  assert (no_new_record d d1) as HN1 by (by eapply replaced_same_no_new).
  destruct dw.
  2-3: intros [= <- <-]; by split_and!.
  inversion Hr as [| |? P1 V1 R1 M1 M2]; subst.
  assert (∀ f, f ∈ records d1 → f = visible d1) as Hall.
  { rewrite R1. by intros x ->%list_elem_of_singleton. }
  destruct (write_marker_raw _ _ d1) as [ok d2] eqn:Hw. apply write_marker_raw_written in Hw.
  intros [= <- <-]. split_and!.
  - eapply inv_marker; [done|done|by auto| |done]. intros Hn%Hall. congruence.
  - etrans; [done|]. by eapply marker_no_new.
  - intros _. destruct Hw as [W1 W2 _ _ _ _]. unfold records, visible. rewrite W1, W2. exact Hall.
Qed.

Lemma read_marker_visible fails d h marker :
  LedgerInv d h → read_marker fails d = Some marker →
  marker = match ld_marker d with [] => None | m => Some m end.
Proof.
  intros HI. pose proof (li_markers _ _ HI _ (proj2 (li_present _ _ HI))) as Hl.
  unfold read_marker. destruct fails; [done|]. rewrite take_ge by lia.
  destruct (ld_marker d); by intros [= <-].
Qed.

Lemma read_marker_clean fails d h marker :
  LedgerInv d h → read_marker fails d = Some marker →
  marker = Some MARKER_CLEAN ↔ ld_marker d = MARKER_CLEAN.
Proof.
  intros HI ->%(read_marker_visible _ _ h); [|done]. destruct (ld_marker d) as [|a l]; [by split|].
  split; [by intros ?%(inj Some)|by intros ->].
Qed.

Lemma load_inv io d h res d' :
  LedgerInv d h → load_clean_record target_hh_id config io d = (res, d') →
  LedgerInv d' h ∧ no_new_record d d' ∧ ∀ r, res = Ok r → settled d' h r.
Proof.
  intros HI. unfold load_clean_record.
  destruct (read_marker (li_marker io) d) as [marker|] eqn:Hmk; [|intros [= <- <-]; by split_and!].
  case_bool_decide as Hc.
  - intros [= <- <-]. split_and!; [done..|]. intros r Hr. eapply read_and_validate_settled; [done| |done].
    apply HI. by apply (read_marker_clean _ _ _ _ HI Hmk).
  - destruct (recover_visible_for_consume _ _ _ d) as [[[]|e] d1] eqn:Hrec.
    all: apply (recover_inv _ _ h) in Hrec as (HI1 & HN1 & Hall); [|done|by rewrite <- (read_marker_clean _ _ _ _ HI Hmk)].
    + intros [= <- <-]. split_and!; [done..|]. intros r Hr. by eapply read_and_validate_settled; eauto.
    + intros [= <- <-]. by split_and!.
Qed.

(** ** Consuming *)

(** The record on disk is [r]. *)
Definition shows (d : LDisk) (r : LedgerRecordV1) : Prop :=
  ∃ f, visible d = Some f ∧ decode (lf_data f) = Ok r.

(** What the answer of a consumption says of the disk. After [Committed] the
    record is the one it was, purged at the floor and with the entry of the
    nonce, under the generation answered, and no other one can be exposed;
    [AlreadyConsumed] answers the entry of the record. *)
Definition answer_honest (key : MeshIntentNonceKey) (ev : MeshIntentNonceEvidence) (floor : Z)
    (o : MeshIntentNonceConsumeOutcome) (d d' : LDisk) : Prop :=
  match o with
  | CO_Committed g =>
      (∃ id r r', shows d r ∧ Extends config floor key ev id r r' ∧ lr_generation r' = g ∧ shows d' r') ∧
      ∀ f, f ∈ records d' → f = visible d'
  | CO_AlreadyConsumed e => no_new_record d d' ∧
      ∃ r, shows d r ∧ holds_entry r key e ∧ floor <= ne_not_after e
  | CO_Unavailable reason => no_new_record d d' ∧
      (∀ stage, reason = NU_WriteFailed stage → may_have_changed_record stage = false)
  | CO_MayHaveTakenEffect stage => may_have_changed_record stage = true
  end.

Lemma no_new_good h d d' : no_new_record d d' → (∀ f, f ∈ records d → file_good h f) →
  ∀ f, f ∈ records d' → file_good h f.
Proof. intros [_ H] Hg f Hf. auto. Qed.

Lemma commit_inv io floor key ev id r r' b d h o d' :
  LedgerInv d h → settled d h r → Admissible key ev floor →
  Extends config (tf_unix_seconds floor) key ev id r r' →
  Canonical.to_canonical_vec r' = Some b → Z.of_nat (length b) <= MAX_RECORD_BYTES →
  commit_semantic io b (lr_generation r') d = (o, d') →
  LedgerInv d' (MkConsumption key ev (tf_unix_seconds floor) o :: h) ∧
  answer_honest key ev (tf_unix_seconds floor) o d d'.
Proof.
  intros HI (Hall & f & Hv & Hd & Hrf) (HK & HE & Hkh & _) HX Hb Hlen. unfold commit_semantic.
  assert (RecordOk target_hh_id config r') as Hr'.
  { eapply extends_ok; try done. by apply decode_Ok in Hd as [? _]. }
  assert (None ∉ records d) as Hnn. { intros Hn%Hall. congruence. }
  assert (∀ o, o = CO_Committed (lr_generation r') ∨ is_ambiguous o = true →
    file_good (MkConsumption key ev (tf_unix_seconds floor) o :: h) (Some (MkLFile b true))) as Hnew.
  { intros o0 Ho. cbn. split_and!; [done|by left|]. exists r'. split; [by apply decode_Ok|].
    by eapply reflects_extend. }
  destruct (write_marker_staged MARKER_DIRTY _ _ _ d) as [r1 d1] eqn:Hw1.
  assert (∀ s, r1 = Err s → may_have_changed_record s = false) as Hst1.
  { intros s ->. by apply write_marker_stage in Hw1 as [->| ->]. }
  apply write_marker_written in Hw1.
  assert (LedgerInv d1 h) as HI1. { eapply inv_marker; [done|done|by auto|by intros ?%Hnn|done]. }
  pose proof (marker_no_new _ _ _ _ Hw1) as HN1.
  destruct r1 as [[]|stage].
  2: { intros [= <- <-]. split; [by apply inv_skip|]. split; [done|]. intros ? [= <-]. by apply Hst1. }
  destruct (mw_ok _ _ _ _ Hw1 eq_refl) as [Hm1 Hm1p].
  destruct (atomic_replace _ b d1) as [dw d2] eqn:Hr. apply atomic_replace_replaced in Hr; [|apply HI1].
  destruct dw as [|stage|stage].
  3: { intros [= <- <-]. inversion Hr as [|? ? P1 V1 R1 M1 M2 Hs|]; subst. split; [|done].
       eapply inv_replaced; [by apply inv_skip|done|by rewrite Hm1|]. apply Hnew. by right. }
  2: { intros [= <- <-]. inversion Hr as [? ? K Hs| |]; subst. split.
       - eapply inv_kept; [done|]. by apply inv_skip.
       - split; [|by intros ? [= <-]]. etrans; [done|]. by apply kept_no_new. }
  inversion Hr as [| |? P1 V1 R1 M1 M2]; subst.
  assert (∀ f, f ∈ records d2 → f = visible d2) as Hall2.
  { rewrite R1. by intros x ->%list_elem_of_singleton. }
  destruct (write_marker_staged MARKER_CLEAN _ _ _ d2) as [r2 d3] eqn:Hw2.
  assert (∀ s, r2 = Err s → may_have_changed_record s = true) as Hst2.
  { intros s ->. by apply write_marker_stage in Hw2 as [->| ->]. }
  apply write_marker_written in Hw2.
  assert (∀ o, o = CO_Committed (lr_generation r') ∨ is_ambiguous o = true →
    LedgerInv d3 (MkConsumption key ev (tf_unix_seconds floor) o :: h)) as HI3.
  { intros o0 Ho. eapply inv_marker; [|done|by auto| |done].
    - eapply inv_single; try done; [by apply Hnew|]. rewrite M2, Hm1p.
      by intros m ->%list_elem_of_singleton.
    - intros Hn%Hall2. congruence. }
  destruct r2 as [[]|stage]; [destruct (ci_binding io)|]; intros [= <- <-].
  - split; [by apply HI3; left|]. cbn. destruct Hw2 as [W1 W2 _ _ _ _].
    unfold shows, records, visible in *. rewrite W1, W2. split; [|done].
    exists id, r, r'. split_and!; [by exists f|done..|]. eexists. split; [done|]. by apply decode_Ok.
  - split; [by apply HI3; right|done].
  - split; [by apply HI3; right|by apply Hst2].
Qed.

(** Failures before the commit are not write failures. *)
Definition not_write_failed (reason : MeshIntentNonceUnavailable) : Prop :=
  ∀ stage, reason ≠ NU_WriteFailed stage.

Lemma poll_mutex_reason l e : poll_mutex l = Some (Err e) → not_write_failed e.
Proof. induction l as [|[|[]|] l IH]; cbn; first [exact IH|done|by intros [= <-]]. Qed.

Lemma poll_flock_reason l e : poll_flock l = Some (Err e) → not_write_failed e.
Proof. induction l as [|[|[]|] l IH]; cbn; first [exact IH|done|by intros [= <-]]. Qed.

Lemma acquire_reason io e : acquire io = Some (Err e) → not_write_failed e.
Proof.
  unfold acquire, acquire_after_lifecycle. destruct (aq_deadline_overflow io); [by intros [= <-]|].
  destruct (aq_lifecycle io) as [[]|]; try by intros [= <-].
  destruct (negb _); [by intros [= <-]|]. intros ([[]|e1] & Hm & H)%bind_Some.
  2: { injection H as <-. by eapply poll_mutex_reason. }
  destruct (negb _); [by injection H as <-|]. apply bind_Some in H as ([[]|e1] & Hf & H).
  2: { injection H as <-. by eapply poll_flock_reason. }
  destruct (negb _); [by injection H as <-|]. destruct (negb _); [by injection H as <-|done].
Qed.

Lemma read_record_reason io d e : read_record_bytes io d = Err e → not_write_failed e.
Proof.
  unfold read_record_bytes, open_record_for_read, read_record_file. intros H stage ->.
  destruct (ri_open io) as [[]|], (ld_record (ld_dir d)); cbn in H; try done;
    destruct (ri_stat io), (_ <? _), (ri_read io); done.
Qed.

Lemma decode_reason b e : decode b = Err e → not_write_failed e.
Proof.
  unfold decode_and_validate. intros H.
  apply bind_Err in H as [[_ <-]%ok_or_Err|(r & _ & H)]; [done|].
  do 4 (apply bind_Err in H as [[_ <-]%reject_if_Err|(? & _ & H)]; [done|]). done.
Qed.

Lemma load_reason io d e d' :
  load_clean_record target_hh_id config io d = (Err e, d') → not_write_failed e.
Proof.
  assert (∀ b d0 e0, read_and_validate_record target_hh_id config b d0 = Err e0 → not_write_failed e0) as Hrv.
  { intros b d0 e0 [H|(x & _ & H)]%bind_Err; [by eapply read_record_reason|by eapply decode_reason]. }
  unfold load_clean_record. destruct (read_marker _ d); [|by intros [= <- <-]].
  case_bool_decide as Hc; [intros [= H1 <-]; by eapply Hrv|].
  destruct (recover_visible_for_consume _ _ io d) as [[[]|e1] d1] eqn:Hr; [intros [= H1 <-]; by eapply Hrv|].
  intros [= <- <-]. unfold recover_visible_for_consume in Hr.
  destruct (_ ≫= _) as [b|e2] eqn:Hb.
  - destruct (atomic_replace _ _ _) as [[|?|?] d2]; [|by injection Hr as <- _..].
    destruct (write_marker_raw _ _ _) as [[|] d3]; [done|]. by injection Hr as <- _.
  - injection Hr as <- _. apply bind_Err in Hb as [H1|(x & _ & [H1|(y & _ & H1)]%bind_Err)]; [|by eapply decode_reason|done].
    by eapply read_record_reason.
Qed.

Lemma decide_reason r key ev floor e :
  decide_consume config r key ev floor = Err (CO_Unavailable e) → not_write_failed e.
Proof.
  unfold decide_consume. intros H stage ->. destruct (entry_id _); [|done]. cbn in H.
  destruct (retain_floor _ _ !! _); [by destruct (negb _)|].
  destruct (_ <=? _); [done|]. cbn in H. destruct (checked_add _ _); [|done]. cbn in H.
  destruct (Canonical.to_canonical_vec _); [|done]. by destruct (_ <=? _).
Qed.

Lemma consume_inv aio lio cio key ev floor d h o d' :
  LedgerInv d h → Admissible key ev floor →
  consume_in_worker target_hh_id config aio lio cio key ev floor d = Some (o, d') →
  LedgerInv d' (MkConsumption key ev (tf_unix_seconds floor) o :: h) ∧
  answer_honest key ev (tf_unix_seconds floor) o d d'.
Proof.
  intros HI HA. unfold consume_in_worker. intros (g & Hg & H)%bind_Some. injection H as H.
  destruct g as [[]|reason].
  2: { injection H as <- <-. split; [by apply inv_skip|].
       split; [done|]. intros stage ->. by destruct (acquire_reason _ _ Hg stage). }
  destruct (load_clean_record _ _ lio d) as [res d1] eqn:Hl.
  assert (∀ e, res = Err e → not_write_failed e) as Hreason.
  { intros e ->. by eapply load_reason. }
  apply (load_inv _ _ h) in Hl as (HI1 & HN1 & Hset); [|done].
  destruct res as [r|reason].
  2: { injection H as <- <-. split; [by apply inv_skip|]. split; [done|].
       intros stage ->. by destruct (Hreason _ eq_refl stage). }
  destruct (decide_consume config r key ev floor) as [[b g]|o0] eqn:Hdec.
  - apply decide_Ok in Hdec as (id & r' & HX & <- & Hb & Hlen).
    eapply commit_inv in H as [H1 H2]; try done; [|by apply Hset].
    split; [done|]. destruct HN1 as [Hvis Hrec] eqn:HN. destruct o; cbn in *; try done.
    + unfold shows in *. by rewrite Hvis in H2.
    + destruct H2 as [? H2]. split; [by etrans|]. unfold shows in *. by rewrite Hvis in H2.
    + destruct H2. split; [by etrans|done].
  - injection H as <- <-. pose proof Hdec as Hdec'.
    apply decide_Err in Hdec as [[reason ->]|(id & e & Hid & [He Hfl]%retain_floor_Some & Hke & ->)].
    + split; [by apply inv_skip|]. split; [done|]. intros stage ->.
      by destruct (decide_reason _ _ _ _ _ Hdec' stage).
    + split; [by apply inv_skip|]. split; [done|]. destruct (Hset r eq_refl) as (_ & f & Hv & Hd & _).
      exists r. split_and!; [exists f; by rewrite <- (proj1 HN1)| |done].
      exists id. split; [done|]. destruct e. cbn in *. by subst.
Qed.

(** ** Opening, power failures *)

(** A durable rewrite followed by the CLEAN marker. *)
Lemma publish_clean_inv io mio b d h dw d1 ok d2 :
  LedgerInv d h → ld_marker d ≠ MARKER_CLEAN → file_good h (Some (MkLFile b true)) →
  atomic_replace io b d = (dw, d1) → write_marker_raw MARKER_CLEAN mio d1 = (ok, d2) →
  LedgerInv d1 h ∧ (dw = DW_Committed → LedgerInv d2 h).
Proof.
  intros HI Hm Hg Hr%atomic_replace_replaced Hw%write_marker_raw_written; [|apply HI].
  assert (LedgerInv d1 h) as HI1 by (by eapply inv_replaced).
  split; [done|]. intros ->. inversion Hr as [| |? P1 V1 R1 M1 M2]; subst.
  assert (∀ f, f ∈ records d1 → f = visible d1) as Hall.
  { rewrite R1. by intros x ->%list_elem_of_singleton. }
  eapply inv_marker; [done|done|by auto| |done]. intros Hn%Hall. congruence.
Qed.

Lemma reflects_empty h : none_committed h → Reflects h (empty_record target_hh_id (lc_capacity config)).
Proof.
  intros Hn. split.
  - intros c Hc Hcc. rewrite Hn in Hcc by done. done.
  - intros id e He. cbn in He. by rewrite lookup_empty in He.
  - intros c g Hc Ho. apply Hn in Hc. by rewrite Ho in Hc.
Qed.

Lemma initialize_fresh_inv io d h r d' :
  LedgerInv d h → visible d = None →
  initialize_fresh_under_lock target_hh_id config io d = (r, d') → LedgerInv d' h.
Proof.
  intros HI Hv. unfold initialize_fresh_under_lock.
  destruct (write_marker_raw _ _ d) as [ok d1] eqn:Hw. apply write_marker_raw_written in Hw.
  assert (LedgerInv d1 h) as HI1. { eapply inv_marker; [done|done|by auto|done|done]. }
  destruct ok; [|by intros [= <- <-]]. destruct (mw_ok _ _ _ _ Hw eq_refl) as [Hm1 _].
  destruct (Canonical.to_canonical_vec _) as [b|] eqn:Hb; [|by intros [= <- <-]]. cbn [negb].
  destruct (atomic_replace _ b d1) as [dw d2] eqn:Hr.
  destruct (write_marker_raw MARKER_CLEAN (oi_clean_marker io) d2) as [ok2 d3] eqn:Hw2.
  eapply publish_clean_inv in Hw2 as [HI2 HI3]; [|done|by rewrite Hm1| |done].
  { destruct dw; intros [= <- <-]; auto. }
  cbn. split_and!; [done|by right|]. eexists. split; [apply decode_Ok; split; [by apply empty_record_ok|done]|].
  apply reflects_empty. apply (li_good _ _ HI None). rewrite <- Hv. apply visible_record, HI.
Qed.

Lemma read_optional_record_Ok io d b :
  read_optional_record io d = Ok b → b = lf_data <$> visible d.
Proof.
  unfold read_optional_record, open_record_for_read. fold (visible d).
  destruct (ri_open io) as [[]|], (visible d) as [f|]; cbn; try done; try (by intros [= <-]).
  unfold read_record_file. intros H. res_inv. by subst.
Qed.

Lemma ledger_open_inv io d h r d' :
  LedgerInv d h → initialize_or_recover target_hh_id config io d = Some (r, d') → LedgerInv d' h.
Proof.
  intros HI. unfold initialize_or_recover. intros (g & _ & H)%bind_Some. injection H as H.
  destruct g as [[]|e]; [|by injection H as <- <-].
  destruct (read_marker _ d) as [marker|] eqn:Hmk; [|by injection H as <- <-].
  destruct (read_optional_record _ d) as [[b|]|e] eqn:Hro; [| |by injection H as <- <-].
  - apply read_optional_record_Ok in Hro. destruct (visible d) as [f|] eqn:Hv; [|done]. injection Hro as ->.
    case_bool_decide as Hc; [by injection H as <- <-|].
    rewrite (read_marker_clean _ _ _ _ HI Hmk) in Hc.
    unfold stabilize_visible_under_lock in H. destruct (decode (lf_data f)) as [rr|]; [|by injection H as <- <-].
    destruct (atomic_replace _ _ d) as [dw d1] eqn:Hr.
    destruct (write_marker_raw MARKER_CLEAN (oi_clean_marker io) d1) as [ok d2] eqn:Hw.
    eapply publish_clean_inv in Hw as [HI2 HI3]; [|done|done| |done].
    { destruct dw; injection H as <- <-; auto. }
    destruct (li_good _ _ HI (Some f)) as (Hs & Hg).
    { rewrite <- Hv. apply visible_record, HI. }
    by split.
  - apply read_optional_record_Ok in Hro. destruct (visible d) as [f|] eqn:Hv; [done|].
    destruct marker as [m|]; [destruct (is_some _)|]; try (by injection H as <- <-);
      by eapply initialize_fresh_inv.
Qed.

Lemma survives_records d d' : survives d d' → (∀ f, Some f ∈ records d → lf_synced f = true) →
  visible d' ∈ records d ∧ records d' = [visible d'].
Proof.
  intros (dir & Hdir & Hf & _ & Hp & _) Hs. unfold records at 2. rewrite Hp. split; [|done].
  assert (ld_record dir ∈ records d) as Hin by (by apply (list_elem_of_fmap_2 ld_record)).
  unfold visible. destruct (ld_record dir) as [f|], (ld_record (ld_dir d')) as [f'|]; try done.
  destruct Hf as [H1 H2]. pose proof (Hs _ Hin) as H3. destruct f, f'. cbn in *.
  by rewrite H1, (H2 H3), <- H3.
Qed.

Lemma power_failure_inv d d' h : LedgerInv d h → survives d d' → LedgerInv d' h.
Proof.
  intros HI HS. pose proof HI as [HP HG HC HN HM].
  destruct (survives_records _ _ HS) as [Hv Hr].
  { intros f Hf. by apply HG in Hf as [? _]. }
  destruct HS as (dir & _ & _ & _ & Hp & Hm & Hmp).
  assert (present d') as HP'. { split; [rewrite Hp|rewrite Hmp]; by left. }
  split; rewrite ?Hr, ?Hmp; try done.
  - intros f ->%list_elem_of_singleton. auto.
  - by intros _ f ->%list_elem_of_singleton.
  - intros Hn%list_elem_of_singleton m ->%list_elem_of_singleton. apply HN; [|done]. by rewrite Hn.
  - intros m ->%list_elem_of_singleton. auto.
Qed.

Lemma fresh_disk_inv : LedgerInv fresh_disk [].
Proof.
  split; cbn; try done.
  - by split; left.
  - intros f ->%list_elem_of_singleton. by intros c Hc%not_elem_of_nil.
  - intros _ m ->%list_elem_of_singleton. by left.
  - intros m ->%list_elem_of_singleton. cbn. lia.
Qed.

Lemma history_inv d h : History d h → LedgerInv d h.
Proof.
  induction 1; [apply fresh_disk_inv|by eapply ledger_open_inv| |by eapply power_failure_inv].
  by eapply consume_inv.
Qed.

(** The latest consumption, and the state it was carried out in. *)
Lemma history_last d c h :
  History d (c :: h) →
  ∃ aio lio cio floor d0 d1, History d0 h ∧ Admissible (cn_key c) (cn_evidence c) floor ∧
    cn_floor c = tf_unix_seconds floor ∧
    consume_in_worker target_hh_id config aio lio cio (cn_key c) (cn_evidence c) floor d0 =
      Some (cn_outcome c, d1).
Proof.
  remember (c :: h) as hs eqn:Hh. intros HH. revert c h Hh.
  induction HH as [|io d h0 r d' _ IH _|aio lio cio key ev floor d h0 o d' HH _ HA HC|d h0 d' _ IH _];
    intros c h Hh; [done|by apply IH| |by apply IH].
  injection Hh as <- <-. by exists aio, lio, cio, floor, d, d'.
Qed.

(** A consumption that could load the record answers from it. *)
Lemma consume_decided aio lio cio key ev floor d h o d' :
  LedgerInv d h → consume_in_worker target_hh_id config aio lio cio key ev floor d = Some (o, d') →
  (∃ reason, o = CO_Unavailable reason) ∨
  ∃ d1 r, settled d1 h r ∧
    match decide_consume config r key ev floor with
    | Err o' => o = o'
    | Ok (b, g) => commit_semantic cio b g d1 = (o, d')
    end.
Proof.
  intros HI. unfold consume_in_worker. intros (g & Hg & H)%bind_Some. injection H as H.
  destruct g as [[]|reason]; [|injection H as <- _; by eauto].
  destruct (load_clean_record _ _ lio d) as [res d1] eqn:Hl.
  apply (load_inv _ _ h) in Hl as (_ & _ & Hset); [|done].
  destruct res as [r|reason]; [|injection H as <- _; by eauto].
  right. exists d1, r. split; [by apply Hset|].
  destruct (decide_consume config r key ev floor) as [[b g]|o0]; [done|]. by injection H as <- _.
Qed.

Lemma commit_outcome io b g d o d' :
  commit_semantic io b g d = (o, d') →
  o = CO_Committed g ∨ (∃ s, o = CO_MayHaveTakenEffect s) ∨ ∃ s, o = CO_Unavailable (NU_WriteFailed s).
Proof.
  unfold commit_semantic. destruct (write_marker_staged _ _ _ _ d) as [[[]|s] d1]; [|intros [= <- _]; by eauto].
  destruct (atomic_replace _ _ d1) as [[|s|s] d2]; [|intros [= <- _]; by eauto..].
  destruct (write_marker_staged _ _ _ _ d2) as [[[]|s] d3]; [|intros [= <- _]; by eauto].
  destruct (negb _); intros [= <- _]; by eauto.
Qed.
(** The history up to one of its consumptions. *)
Lemma history_upto d h c h1 : History d (h ++ c :: h1) → ∃ d', History d' (c :: h1).
Proof.
  remember (h ++ c :: h1) as l eqn:El. intros H. revert h El.
  induction H as [|io d l r d' H IH _|aio lio cio key ev floor d l o d' H IH HA HC|d l d' H IH _]; intros h El.
  - by destruct h.
  - by eapply IH.
  - destruct h as [|c' h]; cbn in El; injection El as <- El; [|by eapply IH].
    subst l. exists d'. by eapply history_consume.
  - by eapply IH.
Qed.

(** A nonce committed twice had expired by a floor of one of the requests. *)
Lemma committed_again c1 c2 d h :
  History d (c2 :: h) → c1 ∈ h → cn_key c1 = cn_key c2 →
  is_committed (cn_outcome c1) = true → is_committed (cn_outcome c2) = true →
  ∃ c, c ∈ c2 :: h ∧ ne_not_after (cn_evidence c1) < cn_floor c.
Proof.
  intros (aio & lio & cio & floor & d0 & d1 & HH & HA & Hf & HC)%history_last H1 Hk Hc1 Hc2.
  destruct (decide (Exists (λ c, ne_not_after (cn_evidence c1) < cn_floor c) (c2 :: h))) as [He|Hne].
  { by apply Exists_exists in He. }
  rewrite <- Forall_Exists_neg, Forall_forall in Hne.
  assert (∀ c, c ∈ c2 :: h → cn_floor c <= ne_not_after (cn_evidence c1)) as Hle.
  { intros c Hc. specialize (Hne c Hc). cbn in Hne. lia. }
  apply history_inv in HH; [|done..].
  eapply consume_decided in HC as [[reason Ho]|(d2 & r & (_ & f & _ & _ & HR) & Hdec)];
    [by rewrite Ho in Hc2| |done].
  assert (holds_entry r (cn_key c1) (cn_evidence c1)) as Hh.
  { apply (rf_committed _ _ HR); [done|done|]. intros c Hc. apply Hle. by right. }
  assert (cn_floor c2 <= ne_not_after (cn_evidence c1)) as Hl2 by (apply Hle; by left).
  rewrite Hk in Hh. rewrite (decide_holds config _ _ (cn_evidence c2) _ floor Hh) in Hdec by lia.
  by rewrite Hdec in Hc2.
Qed.
End histories.
