(* ===== verification/LedgerSpec.v ===== *)
(** * The nonce ledger: what it promises

    The theorems of the ledger about every history of its disk ([LedgerProofs]),
    and a concrete ledger on which they apply. *)

From stdpp Require Import base gmap sets list strings.
From Stdlib Require Import ZArith Lia Ascii.
From S2P Require Import Prelude.
From S2P Require Import Cbor.
From S2P Require Import CborProofs.
From S2P Require Import CborSample.
From S2P Require Import Canonical.
From S2P Require Import Crypto.
From S2P Require Import RosterView.
From S2P Require Import Ledger.
From S2P Require Import LedgerDisk.
From S2P Require Import LedgerProofs.
From S2P Require Import SessionSamples.

Open Scope Z_scope.

(** ** Calls without failures *)

Definition read_ok : ReadIo := MkReadIo None false false.
Definition replace_ok : ReplaceIo :=
  MkReplaceIo None false false false None false false false false read_ok.
Definition marker_ok : MarkerIo := MkMarkerIo false false None false false.
Definition acquire_ok : AcquireIo := MkAcquireIo false None true [MP_Ok] true [FP_Ok] true true.
Definition load_ok : LoadIo := MkLoadIo false read_ok replace_ok marker_ok read_ok.
Definition commit_ok : CommitIo := MkCommitIo marker_ok replace_ok marker_ok true.
Definition open_ok : OpenIo := MkOpenIo acquire_ok false read_ok marker_ok replace_ok marker_ok.

(** A replacement in which only the last directory sync fails. *)
Definition replace_unsynced : ReplaceIo :=
  MkReplaceIo None false false false None false false false true read_ok.
Definition commit_unsynced : CommitIo := MkCommitIo marker_ok replace_unsynced marker_ok true.

Lemma write_marker_ok m s1 s2 d : ∃ d', write_marker_staged m s1 s2 marker_ok d = (Ok tt, d').
Proof. by eexists. Qed.

Lemma replace_ok_commits b d :
  Z.of_nat (length b) <= MAX_RECORD_BYTES → ∃ d', atomic_replace replace_ok b d = (DW_Committed, d').
Proof.
  intros Hb. unfold atomic_replace. destruct (clean_temp replace_ok d) as [o d1] eqn:Hc.
  assert (o = None) as ->. { unfold clean_temp in Hc. cbn in Hc. by destruct (ld_temp (ld_dir d)); injection Hc as <- _. }
  cbn. unfold read_record_bytes, open_record_for_read, read_record_file. cbn.
  apply Z.ltb_ge in Hb as ->. cbn. rewrite bool_decide_false by auto. by eexists.
Qed.

Section spec.
Context {CC : CborCrate} {CL : CborLaws} {SC : SessionCrypto}.
Context (target_hh_id : HouseholdId) (config : LedgerConfig).
Context (Hhh : household_well_formed target_hh_id = true).
Context (Hcap : 0 <= lc_capacity config <= MAX_CONFIGURED_ENTRIES).
Abbreviation decode := (decode_and_validate target_hh_id config).
Abbreviation History := (LedgerProofs.History target_hh_id config).

(** C6: No replay while the trusted floors do not go back: in every history of
    the ledger, across failing system calls, killed processes and power
    failures, when a nonce whose consumption was answered [Committed] is
    answered [Committed] again, some request up to and including the later one
    presented a floor past the end of the earlier evidence. If no request
    before the later consumption presented a later floor than it did, its own
    floor is past that end. *)
Theorem nonce_committed_once c1 c2 d h :
  History d (c2 :: h) → c1 ∈ h → cn_key c1 = cn_key c2 →
  is_committed (cn_outcome c1) = true → is_committed (cn_outcome c2) = true →
  (∃ c, c ∈ c2 :: h ∧ ne_not_after (cn_evidence c1) < cn_floor c) ∧
  (floors_upto h (cn_floor c2) → ne_not_after (cn_evidence c1) < cn_floor c2).
Proof.
  intros HH H1 Hk Hc1 Hc2. eapply committed_again in HH as (c & Hc & Hlt); try done.
  split; [by exists c|]. intros Hfl. apply elem_of_cons in Hc as [->|Hc]; [done|].
  specialize (Hfl c Hc). lia.
Qed.

(** C7: A consumption answered [Committed] is durable: as long as its evidence
    has not expired, the record on disk has the entry of its nonce with its
    evidence, and still has it after a power failure at any later time. *)
Theorem committed_nonce_survives c d h d' :
  History d h → c ∈ h → is_committed (cn_outcome c) = true →
  floors_upto h (ne_not_after (cn_evidence c)) → d' = d ∨ survives d d' →
  ∃ f r, visible d' = Some f ∧ decode (lf_data f) = Ok r ∧ holds_entry r (cn_key c) (cn_evidence c).
Proof.
  intros HH Hc Hcc Hfl Hd'. assert (LedgerInv target_hh_id config d' h) as HI.
  { apply history_inv in HH; [|done..]. destruct Hd' as [->|Hs]; [done|]. by eapply power_failure_inv. }
  pose proof (li_good _ _ _ _ HI _ (visible_record _ (li_present _ _ _ _ HI))) as Hg.
  destruct (visible d') as [f|]; cbn in Hg; [|by rewrite Hg in Hcc].
  destruct Hg as (_ & _ & r & Hd & HR). exists f, r. split_and!; [done..|]. by apply HR.
Qed.

(** [AlreadyConsumed] is truthful: it is only answered for a nonce that an
    earlier request consumed, or may have consumed as it was told, and the
    evidence it returns is that request's. *)
Theorem already_consumed_truthful c d h e :
  History d (c :: h) → cn_outcome c = CO_AlreadyConsumed e →
  ∃ c0, c0 ∈ h ∧ cn_key c0 = cn_key c ∧ cn_evidence c0 = e ∧
        (is_committed (cn_outcome c0) = true ∨ is_ambiguous (cn_outcome c0) = true).
Proof.
  intros (aio & lio & cio & floor & d0 & d1 & HH & HA & Hf & HC)%history_last Ho.
  apply history_inv in HH; [|done..].
  eapply consume_decided in HC as [[reason Hr]|(d2 & r & (_ & f & _ & _ & HR) & Hdec)]; [congruence| |done].
  rewrite Ho in Hdec.
  destruct (decide_consume config r (cn_key c) (cn_evidence c) floor) as [[b g]|o] eqn:Hdc.
  { by apply commit_outcome in Hdec as [?|[[? ?]|[? ?]]]. }
  subst o. apply decide_Err in Hdc as [[? ?]|(id & en & _ & [Hin _]%retain_floor_Some & Hk & He)]; [done|].
  destruct (rf_origin _ _ HR _ _ Hin) as (c0 & Hc0 & -> & Hout). exists c0.
  injection He as ->. split_and!; [done| |by destruct (cn_evidence c0)|done].
  cbn in Hk. unfold stored_key in Hk. destruct (cn_key c0), (cn_key c). cbn in *. congruence.
Qed.

(** C24: An answer says what happened to the record: after [Unavailable] and
    [AlreadyConsumed] neither the visible record nor any a power failure may
    expose is new, so the request had no effect; a write failure names a
    stage before the record could change, and [AlreadyConsumed] returns the
    unexpired entry the record on disk has for the nonce. [MayHaveTakenEffect]
    names a later stage. After [Committed] the record on disk is the one it was,
    less the entries past the floor and with the entry of the nonce, under the
    generation answered, and no other one can be exposed. *)
Theorem consume_answer_honest aio lio cio key ev floor d h o d' :
  History d h → Admissible target_hh_id key ev floor →
  consume_in_worker target_hh_id config aio lio cio key ev floor d = Some (o, d') →
  answer_honest target_hh_id config key ev (tf_unix_seconds floor) o d d'.
Proof.
  intros HH HA HC. apply history_inv in HH; [|done..]. by eapply consume_inv in HC as [_ ?].
Qed.

(** The generations of committed consumptions strictly increase over a
    ledger's history, and stay within 64 bits. *)
Theorem generations_increase c1 c2 d h g1 g2 :
  History d (c2 :: h) → c1 ∈ h → cn_outcome c1 = CO_Committed g1 → cn_outcome c2 = CO_Committed g2 →
  g1 < g2 ∧ in_u64 g2.
Proof.
  intros (aio & lio & cio & floor & d0 & d1 & HH & HA & Hf & HC)%history_last H1 Ho1 Ho2.
  apply history_inv in HH; [|done..].
  eapply consume_decided in HC as [[reason Hr]|(d2 & r & (_ & f & _ & Hdf & HR) & Hdec)]; [congruence| |done].
  rewrite Ho2 in Hdec.
  destruct (decide_consume config r (cn_key c2) (cn_evidence c2) floor) as [[b g]|o] eqn:Hdc.
  2: { subst o. by apply decide_Err in Hdc as [[? ?]|(? & ? & _ & _ & _ & ?)]. }
  apply commit_outcome in Hdec as [[= <-]|[[? ?]|[? ?]]]; try done.
  apply decide_Ok in Hdc as (id & r' & HX & <- & _ & _).
  pose proof (ex_generation _ _ _ _ _ _ _ HX) as [Hg Hb]%checked_add_Some.
  pose proof (rf_generation _ _ HR _ _ H1 Ho1).
  apply decode_Ok in Hdf as [[(_ & _ & _ & [Hlo _] & _) _ _ _ _ _ _ _] _]. split; [lia|]. split; lia.
Qed.

(** ** Without failures *)

(** The encoding of the empty record can be read back. *)
Definition empty_fits : Prop :=
  ∀ b, Canonical.to_canonical_vec (empty_record target_hh_id (lc_capacity config)) = Some b →
       Z.of_nat (length b) <= MAX_RECORD_BYTES.

Lemma fits_small b : empty_fits → fits target_hh_id config b → Z.of_nat (length b) <= MAX_RECORD_BYTES.
Proof. intros He [H|H]; [done|by apply He]. Qed.

Lemma visible_good d h f :
  LedgerInv target_hh_id config d h → visible d = Some f → empty_fits →
  lf_synced f = true ∧ Z.of_nat (length (lf_data f)) <= MAX_RECORD_BYTES ∧
  ∃ r, decode (lf_data f) = Ok r.
Proof.
  intros HI Hv He. pose proof (visible_record _ (li_present _ _ _ _ HI)) as Hin. rewrite Hv in Hin.
  apply (li_good _ _ _ _ HI) in Hin as (Hs & Hf & r & Hd & _). split_and!; [done|by apply fits_small|eauto].
Qed.

Lemma read_ok_bytes d f :
  visible d = Some f → Z.of_nat (length (lf_data f)) <= MAX_RECORD_BYTES →
  read_record_bytes read_ok d = Ok (lf_data f) ∧ read_optional_record read_ok d = Ok (Some (lf_data f)).
Proof.
  intros Hv Hl. unfold read_record_bytes, read_optional_record, open_record_for_read.
  fold (visible d). rewrite Hv. cbn. unfold read_record_file. cbn.
  apply Z.ltb_ge in Hl as ->. done.
Qed.

(** Rewriting bytes durably and publishing CLEAN. *)
Lemma publish_ok b d :
  present d → Z.of_nat (length b) <= MAX_RECORD_BYTES →
  ∃ d1 d2, atomic_replace replace_ok b d = (DW_Committed, d1) ∧
    write_marker_raw MARKER_CLEAN marker_ok d1 = (true, d2) ∧
    visible d2 = Some (MkLFile b true) ∧ ld_marker d2 = MARKER_CLEAN ∧
    (∀ f, f ∈ records d2 → f = visible d2).
Proof.
  intros HP Hb. destruct (replace_ok_commits b d Hb) as [d1 Hr]. exists d1. eexists.
  split; [done|]. split; [done|].
  apply atomic_replace_replaced in Hr; [|done]. inversion Hr as [| |? P1 V1 R1 M1 M2]; subst.
  split_and!; [done|done|]. unfold records, visible in *. cbn. rewrite R1.
  by intros f ->%list_elem_of_singleton.
Qed.

(** C27: Recovery: whatever calls failed before and whatever a power failure
    left, opening the ledger with no call failing succeeds; the record it finds
    visible is kept, becomes the only one a power failure can expose, and the
    marker is CLEAN. *)
Theorem ledger_recovers d h :
  History d h → empty_fits →
  ∃ d' f, initialize_or_recover target_hh_id config open_ok d = Some (Ok tt, d') ∧
    visible d' = Some f ∧ ld_marker d' = MARKER_CLEAN ∧ (∀ x, x ∈ records d' → x = visible d') ∧
    ∀ f0, visible d = Some f0 → f = f0.
Proof.
  intros HH He. apply history_inv in HH as HI; [|done..]. pose proof (li_present _ _ _ _ HI) as HP.
  destruct (read_marker false d) as [mk|] eqn:Hmk.
  2: { unfold read_marker in Hmk. by destruct (take 32 _). }
  unfold initialize_or_recover.
  change (acquire_after_lifecycle (oi_acquire open_ok)) with
    (Some (@Ok MeshIntentNonceUnavailable unit tt)). cbn [mbind option_bind].
  change (oi_marker open_ok) with false. rewrite Hmk. change (oi_read open_ok) with read_ok.
  destruct (visible d) as [f|] eqn:Hv.
  - destruct (visible_good _ _ _ HI Hv He) as (Hs & Hl & r & Hd).
    destruct (read_ok_bytes _ _ Hv Hl) as [_ ->].
    case_bool_decide as Hc.
    + rewrite Hd. apply (read_marker_clean _ _ _ _ _ _ HI Hmk) in Hc.
      exists d, f. split_and!; [done|done|done|by apply HI|by intros ? [= <-]].
    + unfold stabilize_visible_under_lock. rewrite Hd. change (oi_replace open_ok) with replace_ok.
      change (oi_clean_marker open_ok) with marker_ok.
      destruct (publish_ok _ _ HP Hl) as (d1 & d2 & -> & -> & Hv2 & Hm2 & Hr2).
      exists d2, f. split_and!; [done|destruct f; cbn in *; congruence|done|done|by intros ? [= <-]].
  - assert (read_optional_record read_ok d = Ok None) as ->.
    { unfold read_optional_record, open_record_for_read. fold (visible d). by rewrite Hv. }
    assert (∃ d2 f, initialize_fresh_under_lock target_hh_id config open_ok d = (Ok tt, d2) ∧
      visible d2 = Some f ∧ ld_marker d2 = MARKER_CLEAN ∧ ∀ x, x ∈ records d2 → x = visible d2)
      as (d2 & f & Hi & Hv2 & Hm2 & Hr2).
    { unfold initialize_fresh_under_lock. change (oi_init_marker open_ok) with marker_ok.
      destruct (write_marker_raw MARKER_INITIALIZING marker_ok d) as [ok d1] eqn:Hw.
      assert (ok = true) as -> by (by injection Hw as <- _). cbn [negb].
      apply write_marker_raw_written in Hw.
      destruct (Canonical.to_canonical_vec_valid (empty_record target_hh_id (lc_capacity config)))
        as (b & Hb & _ & _). { by eapply (ro_valid target_hh_id config), empty_record_ok. }
      rewrite Hb. destruct (publish_ok b d1) as (d2 & d3 & Hr & Hw3 & Hv3 & Hm3 & Hr3);
        [by apply Hw|by apply He|].
      change (oi_replace open_ok) with replace_ok. change (oi_clean_marker open_ok) with marker_ok.
      rewrite Hr, Hw3. by exists d3, (MkLFile b true). }
    exists d2, f. split_and!; try done.
    assert (None ∈ records d) as Hn. { rewrite <- Hv. by apply visible_record. }
    pose proof (li_none _ _ _ _ HI Hn _ (proj2 HP)) as [n Hp]%prefixes_elem.
    rewrite (read_marker_visible _ _ _ _ _ _ HI Hmk), Hp.
    assert (is_some (strip_prefix (take n MARKER_INITIALIZING) MARKER_INITIALIZING) = true) as Hpre.
    { do 9 (destruct n as [|n]; [done|]). done. }
    destruct (take n MARKER_INITIALIZING); [by rewrite Hi|]. by rewrite Hpre, Hi.
Qed.

(** With no call failing, the answer to a consumption is decided by the
    record on disk: a recorded nonce is answered from it, a fresh one is
    committed unless the ledger is full, its generations are used up or the
    record would be too large. *)
Theorem consume_decides d h f key ev floor :
  History d h → empty_fits → visible d = Some f → Admissible target_hh_id key ev floor →
  ∃ r d', decode (lf_data f) = Ok r ∧
    consume_in_worker target_hh_id config acquire_ok load_ok commit_ok key ev floor d =
      Some (match decide_consume config r key ev floor with
            | Err o => o
            | Ok (_, g) => CO_Committed g
            end, d').
Proof.
  intros HH He Hv HA. apply history_inv in HH as HI; [|done..]. pose proof (li_present _ _ _ _ HI) as HP.
  destruct (visible_good _ _ _ HI Hv He) as (Hs & Hl & r & Hd). exists r.
  assert (∃ d1, load_clean_record target_hh_id config load_ok d = (Ok r, d1)) as [d1 Hload].
  { unfold load_clean_record. change (li_marker load_ok) with false.
    destruct (read_marker false d) as [mk|] eqn:Hmk.
    2: { unfold read_marker in Hmk. by destruct (take 32 _). }
    change (li_read load_ok) with read_ok. destruct (read_ok_bytes _ _ Hv Hl) as [Hrb _].
    case_bool_decide as Hc.
    - unfold read_and_validate_record. rewrite Hrb. cbn. rewrite Hd. by eexists.
    - unfold recover_visible_for_consume. change (li_recover_read load_ok) with read_ok.
      change (li_recover_replace load_ok) with replace_ok.
      change (li_recover_marker load_ok) with marker_ok. rewrite Hrb. cbn [mbind Result_bind]. rewrite Hd.
      cbn [mbind Result_bind].
      destruct (publish_ok _ _ HP Hl) as (d1 & d2 & -> & -> & Hv2 & _). cbn [negb reject_if].
      destruct (read_ok_bytes d2 (MkLFile (lf_data f) true) Hv2 Hl) as [Hrb2 _].
      unfold read_and_validate_record. rewrite Hrb2. cbn. rewrite Hd. by eexists. }
  unfold consume_in_worker. change (acquire acquire_ok) with (Some (@Ok MeshIntentNonceUnavailable unit tt)).
  cbn [mbind option_bind]. rewrite Hload.
  destruct (decide_consume config r key ev floor) as [[b g]|o] eqn:Hdec; [|by exists d1].
  apply decide_Ok in Hdec as (id & r' & _ & _ & _ & Hlen).
  unfold commit_semantic. change (ci_dirty commit_ok) with marker_ok.
  change (ci_replace commit_ok) with replace_ok. change (ci_clean commit_ok) with marker_ok.
  destruct (write_marker_ok MARKER_DIRTY St_DirtyMarkerWrite St_DirtyMarkerSync d1) as [d2 ->].
  destruct (replace_ok_commits b d2 Hlen) as [d3 ->].
  destruct (write_marker_ok MARKER_CLEAN St_CleanMarkerWrite St_CleanMarkerSync d3) as [d4 ->].
  by exists d4.
Qed.

(** ** Floors that go back *)

(** What a nonce that is not in the record can be refused for. *)
Definition no_room (reason : MeshIntentNonceUnavailable) : Prop :=
  reason = NU_CapacityExhausted ∨ reason = NU_GenerationExhausted ∨ reason = NU_RecordTooLarge ∨
  reason = NU_CorruptRecord.

Lemma decide_unrecorded r key ev floor :
  (∀ id e, retain_floor (tf_unix_seconds floor) (lr_entries r) !! id = Some e → sn_key e ≠ stored_key key) →
  match decide_consume config r key ev floor with
  | Ok _ => True
  | Err o => ∃ reason, o = CO_Unavailable reason ∧ no_room reason
  end.
Proof.
  clear Hhh Hcap. intros Hn. unfold decide_consume, no_room. destruct (entry_id _) as [id|]; cbn; [|by eauto 10].
  destruct (retain_floor _ _ !! id) as [e|] eqn:He.
  { rewrite bool_decide_false by (by eapply Hn). cbn. by eauto 10. }
  destruct (_ <=? _); cbn; [by eauto 10|]. destruct (checked_add _ _); cbn; [|by eauto 10].
  destruct (Canonical.to_canonical_vec _); [|by eauto 10]. destruct (_ <=? _); [done|by eauto 10].
Qed.

Lemma stored_key_inj k1 k2 : stored_key k1 = stored_key k2 → k1 = k2.
Proof. destruct k1, k2. by intros [= -> -> -> ->]. Qed.

(** C38: The record keeps no floor, so a floor that goes back reopens a nonce:
    when a request is committed at a floor past the end of every evidence its
    history has for a nonce, the same nonce with the same evidence, presented
    next at an earlier floor at which that evidence is unexpired, is not
    recognised. With no call failing it is committed a second time, unless there
    is no room for its entry; it is never answered [AlreadyConsumed]. *)
Theorem stale_floor_replays aio lio cio c1 key2 ev2 floor2 d h g2 d2 floor :
  History d h → c1 ∈ h → Admissible target_hh_id key2 ev2 floor2 →
  consume_in_worker target_hh_id config aio lio cio key2 ev2 floor2 d = Some (CO_Committed g2, d2) →
  key2 ≠ cn_key c1 →
  (∀ c, c ∈ h → cn_key c = cn_key c1 → ne_not_after (cn_evidence c) < tf_unix_seconds floor2) →
  Admissible target_hh_id (cn_key c1) (cn_evidence c1) floor → empty_fits →
  ∃ o d', consume_in_worker target_hh_id config acquire_ok load_ok commit_ok (cn_key c1) (cn_evidence c1) floor d2 =
      Some (o, d') ∧
    tf_unix_seconds floor < ne_not_after (cn_evidence c1) < tf_unix_seconds floor2 ∧
    ((∃ g, o = CO_Committed g) ∨ ∃ reason, o = CO_Unavailable reason ∧ no_room reason).
Proof.
  intros HH H1 HA2 HC Hne Hexp HA He.
  pose proof (history_consume _ _ _ _ _ _ _ _ _ _ _ _ HH HA2 HC) as HH2.
  apply history_inv in HH as HI; [|done..]. pose proof HC as HC'.
  eapply consume_inv in HC' as [_ [(id & r & r' & (f & Hv & Hd) & HX & _ & (f' & Hv' & Hd')) _]]; try done.
  assert (Reflects h r) as HR.
  { pose proof (li_good _ _ _ _ HI _ (visible_record _ (li_present _ _ _ _ HI))) as Hg. rewrite Hv in Hg.
    destruct Hg as (_ & _ & r0 & Hd0 & HR). rewrite Hd in Hd0. by injection Hd0 as ->. }
  destruct (consume_decides _ _ f' (cn_key c1) (cn_evidence c1) floor HH2 He Hv' HA) as (r0 & d' & Hd0 & Hrun).
  rewrite Hd' in Hd0. injection Hd0 as <-. eexists _, d'. split; [exact Hrun|].
  split; [split; [by apply HA|by apply Hexp]|].
  assert (∀ id e, retain_floor (tf_unix_seconds floor) (lr_entries r') !! id = Some e →
    sn_key e ≠ stored_key (cn_key c1)) as Hno.
  { intros i e [Hi _]%retain_floor_Some Hk. apply (extends_lookup _ _ _ _ _ _ _ HX) in Hi as [[_ ->]|(_ & Hi & Hfl)].
    - by apply Hne, stored_key_inj.
    - destruct (rf_origin _ _ HR _ _ Hi) as (c & Hc & -> & _). apply stored_key_inj in Hk.
      specialize (Hexp c Hc Hk). cbn in Hfl. lia. }
  pose proof (decide_unrecorded r' (cn_key c1) (cn_evidence c1) floor Hno) as Hdec.
  destruct (decide_consume _ _ _ _ _) as [[b g]|o]; [left; by exists g|by right].
Qed.

(** ** The caller's side of the worker queue *)

Lemma abort_late cancelled now deadline : deadline <= now → is_Some (abort_reason cancelled now deadline).
Proof. intros H. unfold abort_reason. destruct cancelled; [done|]. by apply Z.leb_le in H as ->. Qed.

Lemma send_loop_outcome deadline l res :
  send_loop deadline l = Some res → res = Ok tt ∨ ∃ reason, res = Err reason ∧ ∀ st, reason ≠ NU_WriteFailed st.
Proof.
  induction l as [|r l IH]; [done|]. cbn [send_loop].
  destruct (abort_reason _ _ _) as [reason|] eqn:Ha.
  - intros [= <-]. right. exists reason. split; [done|]. unfold abort_reason in Ha.
    destruct (sr_cancelled r); [by injection Ha as <-|]. destruct (_ <=? _); [by injection Ha as <-|done].
  - destruct (sr_send r); [intros [= <-]; by left|done|]. intros [= <-]. right. by exists NU_Io.
Qed.

Lemma recv_loop_outcome deadline answer l o :
  recv_loop deadline answer l = Some o → o = answer ∨ o = CO_MayHaveTakenEffect St_WorkerInFlight.
Proof.
  induction l as [|r l IH]; [done|]. cbn [recv_loop].
  destruct (rr_try r); [intros [= <-]; by left| |intros [= <-]; by right].
  destruct (is_some _); [intros [= <-]; by right|].
  destruct (rr_wait r); [intros [= <-]; by left|done|intros [= <-]; by right].
Qed.

Lemma send_loop_returns deadline l r : r ∈ l → deadline <= sr_now r → is_Some (send_loop deadline l).
Proof.
  intros Hr Hd. induction l as [|r' l IH]; [by apply not_elem_of_nil in Hr|]. cbn [send_loop].
  apply elem_of_cons in Hr as [<-|Hr].
  - by destruct (abort_late (sr_cancelled r) _ _ Hd) as [? ->].
  - destruct (abort_reason _ _ _); [done|]. destruct (sr_send r'); [done|by apply IH|done].
Qed.

Lemma recv_loop_returns deadline answer l r :
  r ∈ l → deadline <= rr_now r → is_Some (recv_loop deadline answer l).
Proof.
  intros Hr Hd. induction l as [|r' l IH]; [by apply not_elem_of_nil in Hr|]. cbn [recv_loop].
  destruct (rr_try r'); [done| |done]. apply elem_of_cons in Hr as [<-|Hr].
  - by destruct (abort_late (rr_cancelled r) _ _ Hd) as [? ->].
  - destruct (is_some _); [done|]. destruct (rr_wait r'); [done|by apply IH|done].
Qed.

(** The caller's answer: a request that never reached the worker is
    answered [Unavailable] with a reason that is not a failed write; one that
    did is admissible, and is answered what the worker answers, or, when the
    deadline, a cancellation or a dead worker ends the wait, that it may have
    taken effect. The caller returns once the deadline has passed in each of
    its two loops. *)
Theorem consume_caller key ev floor deadline run answer :
  KeyOk key → EvidenceOk ev →
  (∀ o, consume target_hh_id key ev floor deadline run answer = Some (o, false) →
     ∃ reason, o = CO_Unavailable reason ∧ ∀ st, reason ≠ NU_WriteFailed st) ∧
  (∀ o, consume target_hh_id key ev floor deadline run answer = Some (o, true) →
     Admissible target_hh_id key ev floor ∧
     (o = answer ∨ o = CO_MayHaveTakenEffect St_WorkerInFlight)) ∧
  (∀ r1 r2, r1 ∈ cr_sends run → deadline <= sr_now r1 → r2 ∈ cr_recvs run → deadline <= rr_now r2 →
     is_Some (consume target_hh_id key ev floor deadline run answer)).
Proof.
  clear Hhh Hcap config. intros HK HE. unfold consume.
  case_bool_decide as H1; cbn [negb]; [|naive_solver].
  case_bool_decide as H2; cbn [negb]; [|naive_solver].
  destruct (Z.leb_spec (ne_not_after ev) (tf_unix_seconds floor)) as [H3|H3]; [naive_solver|].
  destruct (abort_reason _ _ _) as [reason|] eqn:Ha.
  { split_and!; [|done|done]. intros o [= <-]. exists reason. split; [done|]. unfold abort_reason in Ha.
    destruct (cr_cancelled run); [by injection Ha as <-|]. destruct (_ <=? _); [by injection Ha as <-|done]. }
  destruct (send_loop deadline (cr_sends run)) as [res|] eqn:Hs; cbn [mbind option_bind].
  2: { split_and!; [done|done|]. intros r1 r2 Hr1 Hd1. apply (send_loop_returns _ _ _ Hr1) in Hd1 as [? ?].
       congruence. }
  apply send_loop_outcome in Hs as [->|(reason & -> & Hne)].
  2: { split_and!; [|done|done]. intros o [= <-]. by exists reason. }
  destruct (recv_loop deadline answer (cr_recvs run)) as [o'|] eqn:Hr; cbn [mbind option_bind].
  - apply recv_loop_outcome in Hr. split_and!; [done| |done]. by intros o [= ->].
  - split_and!; [done|done|]. intros r1 r2 _ _ Hr2 Hd2.
    apply (recv_loop_returns _ answer _ _ Hr2) in Hd2 as [? ?]. congruence.
Qed.
End spec.

(** ** A concrete ledger *)

Definition sample_hh : string := "hh_aaaaaaaaaaaaaaaaaaaaaaaaaaaaaaaaaaaaaaaaaaaaaaaaaaaa".
Definition sample_config : LedgerConfig := MkLedgerConfig 4 1000.
Definition sample_key (c : ascii) : MeshIntentNonceKey :=
  MkMeshIntentNonceKey sample_hh "m_bbbbbbbbbbbbbbbbbbbbbbbbbbbbbbbbbbbbbbbbbbbbbbbbbbbb" "key-1"
    (replicate 32 c).
Definition sample_nonce_key : MeshIntentNonceKey := sample_key "n".
Definition sample_evidence (not_after : Z) : MeshIntentNonceEvidence :=
  MkMeshIntentNonceEvidence MIC_Dev (replicate 32 "d"%char) not_after.
Definition sample_floor (t : Z) : TrustedWallFloor := MkTrustedWallFloor sample_hh t.

#[local] Existing Instance sample_cbor.

Abbreviation sample_open d := (initialize_or_recover sample_hh sample_config open_ok d).
Abbreviation sample_consume_key c cio n t d :=
  (consume_in_worker sample_hh sample_config acquire_ok load_ok cio (sample_key c)
     (sample_evidence n) (sample_floor t) d).
Abbreviation sample_consume cio n t d := (sample_consume_key "n" cio n t d).
Definition disk_after {A} (r : option (A * LDisk)) : LDisk := match r with Some (_, d) => d | None => fresh_disk end.

(** The ledger is created; the nonce is consumed until 100 at floor 50, asked
    for again at floor 60, and consumed again until 200 at floor 101. *)
Definition sample_d1 : LDisk := disk_after (sample_open fresh_disk).
Definition sample_d2 : LDisk := disk_after (sample_consume commit_ok 100 50 sample_d1).
Definition sample_d3 : LDisk := disk_after (sample_consume commit_ok 100 60 sample_d2).
Definition sample_d4 : LDisk := disk_after (sample_consume commit_ok 200 101 sample_d3).

Definition sample_consumption_key (c : ascii) (n t : Z) (o : MeshIntentNonceConsumeOutcome) : Consumption :=
  MkConsumption (sample_key c) (sample_evidence n) t o.
Abbreviation sample_consumption n t o := (sample_consumption_key "n" n t o).

Lemma sample_admissible_key c n t : t < n → n < 1000 → 0 < n →
  Admissible sample_hh (sample_key c) (sample_evidence n) (sample_floor t).
Proof.
  intros H1 H2 H3. assert (in_u64 n) by (split; unfold u64_modulus; lia).
  split; [done|]. split; [split; [cbn; lia|done]|]. done.
Qed.

Lemma after_Some {A} (x : option (A * LDisk)) (o : A) : fst <$> x = Some o → x = Some (o, disk_after x).
Proof. destruct x as [[a d]|]; [|done]. cbn. by intros [= ->]. Qed.

Lemma sample_admissible n t : t < n → n < 1000 → 0 < n →
  Admissible sample_hh sample_nonce_key (sample_evidence n) (sample_floor t).
Proof. apply sample_admissible_key. Qed.

Lemma sample_history_consume c cio d h n t o :
  History sample_hh sample_config d h → t < n → n < 1000 → 0 < n →
  fst <$> sample_consume_key c cio n t d = Some o →
  History sample_hh sample_config (disk_after (sample_consume_key c cio n t d))
    (sample_consumption_key c n t o :: h).
Proof.
  intros HH H1 H2 H3 Ho%after_Some.
  exact (history_consume _ _ acquire_ok load_ok cio (sample_key c) (sample_evidence n)
           (sample_floor t) d h o _ HH (sample_admissible_key c n t H1 H2 H3) Ho).
Qed.

Lemma sample_history1 : History sample_hh sample_config sample_d1 [].
Proof.
  assert (fst <$> sample_open fresh_disk = Some (Ok tt)) as H by (vm_compute; reflexivity).
  apply after_Some in H. exact (history_open _ _ _ _ _ _ _ (history_fresh _ _) H).
Qed.

Lemma sample_history2 : History sample_hh sample_config sample_d2 [sample_consumption 100 50 (CO_Committed 2)].
Proof. apply sample_history_consume; [apply sample_history1|lia..|vm_compute; reflexivity]. Qed.

Lemma sample_history3 :
  History sample_hh sample_config sample_d3
    [sample_consumption 100 60 (CO_AlreadyConsumed (sample_evidence 100));
     sample_consumption 100 50 (CO_Committed 2)].
Proof. apply sample_history_consume; [apply sample_history2|lia..|vm_compute; reflexivity]. Qed.

Lemma sample_history4 :
  History sample_hh sample_config sample_d4
    [sample_consumption 200 101 (CO_Committed 3);
     sample_consumption 100 60 (CO_AlreadyConsumed (sample_evidence 100));
     sample_consumption 100 50 (CO_Committed 2)].
Proof. apply sample_history_consume; [apply sample_history3|lia..|vm_compute; reflexivity]. Qed.

Lemma sample_hh_ok : household_well_formed sample_hh = true.
Proof. vm_compute. reflexivity. Qed.

Lemma sample_cap_ok : 0 <= lc_capacity sample_config <= MAX_CONFIGURED_ENTRIES.
Proof. by vm_compute. Qed.

Lemma sample_empty_fits : empty_fits sample_hh sample_config.
Proof.
  intros b Hb.
  assert (length <$> Canonical.to_canonical_vec (empty_record sample_hh (lc_capacity sample_config)) = Some 141%nat) as H
    by (vm_compute; reflexivity).
  rewrite Hb in H. injection H as ->. by vm_compute.
Qed.

Lemma nonce_committed_once_witness :
  ne_not_after (cn_evidence (sample_consumption 100 50 (CO_Committed 2))) < 101.
Proof.
  apply (nonce_committed_once sample_hh sample_config sample_hh_ok sample_cap_ok
           (sample_consumption 100 50 (CO_Committed 2)) _ _ _ sample_history4); try reflexivity.
  - right; left.
  - intros c [->|[->|[]%not_elem_of_nil]%elem_of_cons]%elem_of_cons; cbn; lia.
Defined.

Lemma committed_nonce_survives_witness :
  ∃ f r, visible sample_d3 = Some f ∧ decode_and_validate sample_hh sample_config (lf_data f) = Ok r ∧
    holds_entry r sample_nonce_key (sample_evidence 100).
Proof.
  apply (committed_nonce_survives sample_hh sample_config sample_hh_ok sample_cap_ok
           (sample_consumption 100 50 (CO_Committed 2)) _ _ sample_d3 sample_history3); try reflexivity.
  - right; left.
  - intros c [->|[->|[]%not_elem_of_nil]%elem_of_cons]%elem_of_cons; cbn; lia.
  - by left.
Defined.

Lemma already_consumed_truthful_witness :
  ∃ c0, c0 ∈ [sample_consumption 100 50 (CO_Committed 2)] ∧ cn_key c0 = sample_nonce_key ∧
    cn_evidence c0 = sample_evidence 100 ∧
    (is_committed (cn_outcome c0) = true ∨ is_ambiguous (cn_outcome c0) = true).
Proof.
  exact (already_consumed_truthful sample_hh sample_config sample_hh_ok sample_cap_ok _ _ _ _ sample_history3 eq_refl).
Defined.

Definition sample_unsynced : option (MeshIntentNonceConsumeOutcome * LDisk) :=
  sample_consume commit_unsynced 100 50 sample_d1.

(** The parent directory could not be synced: the answer says so. *)
Lemma sample_unsynced_answer :
  fst <$> sample_unsynced = Some (CO_MayHaveTakenEffect St_ParentSync).
Proof. vm_compute. reflexivity. Qed.

Lemma consume_answer_honest_witness :
  answer_honest sample_hh sample_config sample_nonce_key (sample_evidence 100) 50 (CO_Committed 2)
    sample_d1 sample_d2.
Proof.
  apply (consume_answer_honest sample_hh sample_config sample_hh_ok sample_cap_ok acquire_ok load_ok commit_ok
           sample_nonce_key (sample_evidence 100) (sample_floor 50) sample_d1 [] (CO_Committed 2) sample_d2).
  - apply sample_history1.
  - by apply (sample_admissible 100 50).
  - apply after_Some. vm_compute. reflexivity.
Defined.

Lemma generations_increase_witness : 2 < 3 ∧ in_u64 3.
Proof.
  apply (generations_increase sample_hh sample_config sample_hh_ok sample_cap_ok
           (sample_consumption 100 50 (CO_Committed 2)) _ _ _ 2 3 sample_history4); try reflexivity.
  right; left.
Defined.

Lemma ledger_recovers_witness :
  ∃ d' f, sample_open (disk_after sample_unsynced) = Some (Ok tt, d') ∧ visible d' = Some f ∧
    ld_marker d' = MARKER_CLEAN ∧ (∀ x, x ∈ records d' → x = visible d') ∧
    ∀ f0, visible (disk_after sample_unsynced) = Some f0 → f = f0.
Proof.
  eapply (ledger_recovers sample_hh sample_config sample_hh_ok sample_cap_ok).
  - eapply (sample_history_consume _ commit_unsynced _ _ 100 50 _ sample_history1);
      [lia..|apply sample_unsynced_answer].
  - apply sample_empty_fits.
Defined.

Lemma consume_decides_witness :
  ∃ f r d', visible sample_d1 = Some f ∧ decode_and_validate sample_hh sample_config (lf_data f) = Ok r ∧
    sample_consume commit_ok 100 50 sample_d1 =
      Some (match decide_consume sample_config r sample_nonce_key (sample_evidence 100) (sample_floor 50) with
            | Err o => o
            | Ok (_, g) => CO_Committed g
            end, d').
Proof.
  assert (∃ f, visible sample_d1 = Some f) as [f Hf] by (by vm_compute; eexists). exists f.
  destruct (consume_decides sample_hh sample_config sample_hh_ok sample_cap_ok _ _ f sample_nonce_key
              (sample_evidence 100) (sample_floor 50) sample_history1 sample_empty_fits Hf)
    as (r & d' & H1 & H2); [by apply sample_admissible|].
  exists r, d'. split_and!; [exact Hf|exact H1|exact H2].
Defined.

(** The caller whose deadline passes while the worker is busy. *)
Definition sample_run : ConsumeRun :=
  MkConsumeRun false 0 [MkSendRound false 1 SP_Full; MkSendRound false 2 SP_Sent; MkSendRound false 9 SP_Full]
    [MkRecvRound RP_Empty false 3 RP_Empty; MkRecvRound RP_Empty false 9 RP_Empty].

Lemma consume_caller_witness :
  consume sample_hh sample_nonce_key (sample_evidence 100) (sample_floor 50) 9 sample_run (CO_Committed 2) =
    Some (CO_MayHaveTakenEffect St_WorkerInFlight, true) ∧
  Admissible sample_hh sample_nonce_key (sample_evidence 100) (sample_floor 50).
Proof.
  destruct (sample_admissible 100 50) as (HK & HE & _); [lia..|].
  assert (consume sample_hh sample_nonce_key (sample_evidence 100) (sample_floor 50) 9 sample_run (CO_Committed 2) =
    Some (CO_MayHaveTakenEffect St_WorkerInFlight, true)) as H by (vm_compute; reflexivity).
  split; [exact H|].
  exact (proj1 (proj1 (proj2 (consume_caller sample_hh sample_nonce_key (sample_evidence 100) (sample_floor 50)
                 9 sample_run (CO_Committed 2) HK HE)) _ H)).
Defined.

(** The nonce consumed until 100 at floor 50; another one at floor 101, which
    purges its entry; and again at floor 50. *)
Definition sample_purged : LDisk := disk_after (sample_consume_key "o" commit_ok 200 101 sample_d2).

Lemma sample_purged_run :
  sample_consume_key "o" commit_ok 200 101 sample_d2 = Some (CO_Committed 3, sample_purged).
Proof. apply after_Some. vm_compute. reflexivity. Qed.

Lemma stale_floor_replays_witness :
  ∃ d', sample_consume commit_ok 100 50 sample_purged = Some (CO_Committed 4, d').
Proof.
  destruct (stale_floor_replays sample_hh sample_config sample_hh_ok sample_cap_ok acquire_ok load_ok commit_ok
              (sample_consumption 100 50 (CO_Committed 2)) (sample_key "o") (sample_evidence 200) (sample_floor 101)
              sample_d2 _ 3 sample_purged (sample_floor 50) sample_history2)
    as (o & d' & H & _).
  - left.
  - by apply (sample_admissible_key "o" 200 101).
  - exact sample_purged_run.
  - done.
  - intros c [->|[]%not_elem_of_nil]%elem_of_cons _. cbn. lia.
  - by apply (sample_admissible 100 50).
  - apply sample_empty_fits.
  - assert (fst <$> sample_consume commit_ok 100 50 sample_purged = Some (CO_Committed 4)) as Ho
      by (vm_compute; reflexivity).
    change (sample_consume commit_ok 100 50 sample_purged = Some (o, d')) in H. rewrite H in Ho.
    injection Ho as ->. by exists d'.
Defined.
