(* ===== verification/Household.v ===== *)
(** * Household identities and certificates

    Models [household-rs]: identifiers derived from public keys ([ids.rs]), key
    and signature checks ([keys.rs]), capability caveats ([caveats.rs]), owner
    certificates ([person_cert.rs]) and machine certificates
    ([machine_cert.rs]), as far as they are verified; minting them is not
    modelled. BLAKE3, base32, the curve and the decoders serde derives for
    untagged enums are parameters. The errors of the verifiers carry a text no
    caller looks at, so a check is a boolean. *)

From stdpp Require Import base gmap sets list strings.
From Stdlib Require Import ZArith Lia Ascii.
From S2P Require Import Prelude.
From S2P Require Import Cbor.
From S2P Require Import Canonical.
From S2P Require Import Crypto.
From S2P Require Import RosterView.
From S2P Require Import Ledger.

Open Scope Z_scope.

Abbreviation PersonId := string (only parsing).
Abbreviation P256PublicKey := (list Ascii.ascii) (only parsing).
Abbreviation P256Signature := (list Ascii.ascii) (only parsing).

(** ** Caveats *)

Inductive Operation :=
| Op_ClawsList | Op_ClawsCreate | Op_ClawsDelete | Op_ClawsUse | Op_ClawsAssign
| Op_HouseholdInvite | Op_HouseholdRevoke | Op_HouseholdAddMachine | Op_HouseholdAddDevice
| Op_OwnerAuthEnrollInitial.

#[export] Instance Operation_eq_dec : EqDecision Operation.
Proof. solve_decision. Defined.

Definition operation_str (op : Operation) : string :=
  match op with
  | Op_ClawsList => "claws.list"
  | Op_ClawsCreate => "claws.create"
  | Op_ClawsDelete => "claws.delete"
  | Op_ClawsUse => "claws.use"
  | Op_ClawsAssign => "claws.assign"
  | Op_HouseholdInvite => "household.invite"
  | Op_HouseholdRevoke => "household.revoke"
  | Op_HouseholdAddMachine => "household.add_machine"
  | Op_HouseholdAddDevice => "household.add_device"
  | Op_OwnerAuthEnrollInitial => "owner_auth.enroll_initial"
  end.

Definition operations : list Operation :=
  [Op_ClawsList; Op_ClawsCreate; Op_ClawsDelete; Op_ClawsUse; Op_ClawsAssign; Op_HouseholdInvite;
   Op_HouseholdRevoke; Op_HouseholdAddMachine; Op_HouseholdAddDevice; Op_OwnerAuthEnrollInitial].

Inductive ConstraintValue := CN_Machines (l : list string) | CN_ExpiresAt (t : Z).

#[export] Instance ConstraintValue_eq_dec : EqDecision ConstraintValue.
Proof. solve_decision. Defined.

Abbreviation Constraints := (gmap string ConstraintValue) (only parsing).

Inductive Scope :=
| Sc_All (all : bool)
| Sc_OwnedBySelf (owned_by_self : bool)
| Sc_Specific (specific : list string).

#[export] Instance Scope_eq_dec : EqDecision Scope.
Proof. solve_decision. Defined.

Definition is_all (s : Scope) : bool := match s with Sc_All true => true | _ => false end.

Record Caveat := MkCaveat {
  cv_op : Operation;
  cv_scope : option Scope;
  cv_constraints : option Constraints;
}.

#[export] Instance Caveat_eq_dec : EqDecision Caveat.
Proof. solve_decision. Defined.

Definition caveat_new (op : Operation) (scope : option Scope) : Caveat := MkCaveat op scope None.

Definition owner_caveats : list Caveat :=
  [caveat_new Op_ClawsList (Some (Sc_All true)); caveat_new Op_ClawsCreate (Some (Sc_All true));
   caveat_new Op_ClawsDelete (Some (Sc_All true)); caveat_new Op_ClawsUse (Some (Sc_All true));
   caveat_new Op_ClawsAssign (Some (Sc_All true)); caveat_new Op_HouseholdInvite None;
   caveat_new Op_HouseholdRevoke None; caveat_new Op_HouseholdAddMachine None].

Definition caveat_grants (op : Operation) (c : Caveat) : bool :=
  if negb (bool_decide (cv_op c = op)) || is_some (cv_constraints c) then false else
  match op with
  | Op_ClawsList | Op_ClawsCreate | Op_ClawsDelete | Op_ClawsUse | Op_ClawsAssign =>
      match cv_scope c with Some s => is_all s | None => false end
  | Op_HouseholdInvite | Op_HouseholdRevoke | Op_HouseholdAddMachine
  | Op_OwnerAuthEnrollInitial => negb (is_some (cv_scope c))
  | Op_HouseholdAddDevice => false
  end.

Definition permits (caveats : list Caveat) (op : Operation) : bool := existsb (caveat_grants op) caveats.

Definition validate_closed_map (m : Constraints) : bool :=
  forallb (λ p, match p.2 with
                | CN_Machines _ => bool_decide (p.1 = "machines"%string)
                | CN_ExpiresAt _ => bool_decide (p.1 = "expires_at"%string)
                end) (map_to_list m).

(** ** Certificates *)

Inductive SubjectId :=
| Sj_Household (s : HouseholdId)
| Sj_Machine (s : MachineId)
| Sj_Person (s : PersonId)
| Sj_Device (s : string).

#[export] Instance SubjectId_eq_dec : EqDecision SubjectId.
Proof. solve_decision. Defined.

Definition subject_str (s : SubjectId) : string :=
  match s with Sj_Household s | Sj_Machine s | Sj_Person s | Sj_Device s => s end.

(** A map is the list of its entries in key order. *)
#[warnings="-register-all"]
Inductive OwnerAuthClaimValue :=
| OA_Null
| OA_Text (s : string)
| OA_Unsigned (z : Z)
| OA_Signed (z : Z)
| OA_Bool (b : bool)
| OA_Bytes (b : bytes)
| OA_Array (l : list OwnerAuthClaimValue)
| OA_Map (l : list (string * OwnerAuthClaimValue)).

(** [OwnerAuthClaimValue::as_text] *)
Definition claim_text (c : OwnerAuthClaimValue) : option string :=
  match c with OA_Text s => Some s | _ => None end.

Record PersonCert := MkPersonCert {
  pc_version : Z;
  pc_cert_type : string;
  pc_hh_id : HouseholdId;
  pc_p_id : PersonId;
  pc_p_pub : P256PublicKey;
  pc_display_name : string;
  pc_caveats : list Caveat;
  pc_not_before : Z;
  pc_not_after : option Z;
  pc_nonce : bytes;
  pc_issued_at : Z;
  pc_issued_by : SubjectId;
  pc_owner_auth_tier : option OwnerAuthClaimValue;
  pc_owner_provenance : option OwnerAuthClaimValue;
  pc_signature : P256Signature;
}.

Inductive CertType := CT_Machine | CT_Person | CT_Device.
Inductive Platform := Pl_Macos | Pl_LinuxNix | Pl_LinuxOther.

#[export] Instance CertType_eq_dec : EqDecision CertType.
Proof. solve_decision. Defined.

(** The caveat type of machine certificates has no value, so their list of
    caveats is empty. *)
Record MachineCert := MkMachineCert {
  mc_version : Z;
  mc_cert_type : CertType;
  mc_hh_id : HouseholdId;
  mc_m_id : MachineId;
  mc_m_pub : P256PublicKey;
  mc_hostname : string;
  mc_platform : Platform;
  mc_joined_at : Z;
  mc_issued_by : SubjectId;
  mc_caveats : list Empty_set;
  mc_signature : P256Signature;
}.

(** ** Parameters *)

Class HouseholdCrypto := {
  blake3 : bytes → bytes;
  base32_lower_nopad_encode : bytes → string;   (* [data_encoding] with the lower-case alphabet *)
  sec1_point : bytes → bool;                    (* the bytes decode to a point of the curve *)
}.

(** What serde's derived decoders accept where the model has no field by field
    account of them: untagged enums, and a visitor of borrowed bytes. *)
Class DerivedDecoders := {
  de_bytes : CborValue → option bytes;          (* [deserialize_bytes] into a bytes-only visitor *)
  de_claim : CborValue → option OwnerAuthClaimValue;
  de_constraint_value : CborValue → option ConstraintValue;
  de_scope : CborValue → option Scope;
}.

Section certs.
Context {CC : CborCrate} {SC : SessionCrypto} {HC : HouseholdCrypto} {DD : DerivedDecoders}.

(** ** Keys and identifiers *)

(** [P256PublicKey::from_bytes] *)
Definition public_key_ok (b : bytes) : bool :=
  (length b =? 33)%nat &&
  match b with
  | c :: _ => bool_decide (c = "002"%char) || bool_decide (c = "003"%char)
  | [] => false
  end && sec1_point b.

Definition verify_signature (pubkey message signature : bytes) : bool :=
  match from_sec1_bytes pubkey, signature_from_slice signature with
  | Some vk, Some sig => ecdsa_verify vk message sig
  | _, _ => false
  end.

Definition hash_public_key (b : bytes) : bytes := blake3 b.

Definition derive_machine_id (m_pub : P256PublicKey) : MachineId :=
  ("m_" ++ base32_lower_nopad_encode (hash_public_key m_pub))%string.
Definition derive_person_id (p_pub : P256PublicKey) : PersonId :=
  ("p_" ++ base32_lower_nopad_encode (hash_public_key p_pub))%string.

Definition person_well_formed (s : string) : bool :=
  match strip_prefix (as_bytes "p_") (as_bytes s) with Some (_ :: _) => true | _ => false end.
Definition device_well_formed (s : string) : bool :=
  match strip_prefix (as_bytes "d_") (as_bytes s) with Some (_ :: _) => true | _ => false end.

(** The test [validate_display_name] and [validate_hostname] share. *)
Definition name_ok (max : nat) (name : string) : bool :=
  let b := as_bytes name in
  negb (bool_decide (b = [])) && (length b <=? max)%nat && negb (any_control b).

Definition validate_display_name : string → bool := name_ok 64.
Definition validate_hostname : string → bool := name_ok 255.

(** ** Encodings *)

Definition of_option {A} (f : A → CborValue) (o : option A) : CborValue :=
  match o with Some a => f a | None => CV_Null end.

(** An [Option] field: [null] and a missing entry are [None]. *)
Definition de_option {A} (f : CborValue → option A) (o : option CborValue) : option (option A) :=
  match o with
  | None | Some CV_Null => Some None
  | Some v => Some <$> f v
  end.

Definition de_vec {A} (f : CborValue → option A) (v : CborValue) : option (list A) :=
  match v with CV_Array items => mapM f items | _ => None end.

Definition de_operation (v : CborValue) : option Operation :=
  s ← de_string v; iter_find (λ op, bool_decide (operation_str op = s)) operations.

Definition of_constraint_value (c : ConstraintValue) : CborValue :=
  match c with CN_Machines l => of_strings l | CN_ExpiresAt t => CV_Integer t end.

Definition of_constraints (m : Constraints) : CborValue :=
  CV_Map ((λ p, (CV_Text p.1, of_constraint_value p.2)) <$> map_to_list m).

(** The map visitor of [Constraints]. *)
Fixpoint visit_constraints (m : Constraints) (es : list (CborValue * CborValue)) : option Constraints :=
  match es with
  | [] => if validate_closed_map m then Some m else None
  | (k, v) :: es =>
      key ← de_string k;
      value ← de_constraint_value v;
      if is_some (m !! key) then None else visit_constraints (<[key := value]> m) es
  end.

Definition de_constraints (v : CborValue) : option Constraints :=
  match v with CV_Map es => visit_constraints ∅ es | _ => None end.

Definition of_scope (s : Scope) : CborValue :=
  match s with
  | Sc_All b => to_struct [("all"%string, CV_Bool b)]
  | Sc_OwnedBySelf b => to_struct [("owned_by_self"%string, CV_Bool b)]
  | Sc_Specific l => to_struct [("specific"%string, of_strings l)]
  end.

Definition caveat_names : list string := ["op"; "scope"; "constraints"]%string.

#[export] Instance Caveat_serde : Serde Caveat := {
  to_value c := to_struct [("op", CV_Text (operation_str (cv_op c)));
                           ("scope", of_option of_scope (cv_scope c));
                           ("constraints", of_option of_constraints (cv_constraints c))]%string;
  of_value := of_struct caveat_names (λ get,
    op ← get "op"%string ≫= de_operation;
    scope ← de_option de_scope (get "scope"%string);
    constraints ← de_option de_constraints (get "constraints"%string);
    Some (MkCaveat op scope constraints));
}.

(** [SubjectId] is untagged: the first identifier whose shape fits. *)
Definition de_subject (v : CborValue) : option SubjectId :=
  s ← de_string v;
  if household_well_formed s then Some (Sj_Household s)
  else if machine_well_formed s then Some (Sj_Machine s)
  else if person_well_formed s then Some (Sj_Person s)
  else if device_well_formed s then Some (Sj_Device s) else None.

Definition de_person (v : CborValue) : option PersonId :=
  s ← de_string v; if person_well_formed s then Some s else None.

(** [serde_bytes_33], [serde_bytes_64] *)
Definition de_sized (n : nat) (v : CborValue) : option bytes :=
  b ← de_byte_buf v; if (length b =? n)%nat then Some b else None.

Fixpoint of_claim (c : OwnerAuthClaimValue) : CborValue :=
  match c with
  | OA_Null => CV_Null
  | OA_Text s => CV_Text s
  | OA_Unsigned z | OA_Signed z => CV_Integer z
  | OA_Bool b => CV_Bool b
  | OA_Bytes b => CV_Bytes b
  | OA_Array l => CV_Array (map of_claim l)
  | OA_Map l => CV_Map (map (λ e, match e with (k, v) => (CV_Text k, of_claim v) end) l)
  end.

(** [skip_serializing_if = "Option::is_none"] *)
Definition claim_field (name : string) (c : option OwnerAuthClaimValue) : list (string * CborValue) :=
  match c with Some c => [(name, of_claim c)] | None => [] end.

(** [default] with [deserialize_optional_owner_auth_claim]: a present entry,
    [null] included, is a claim. *)
Definition de_optional_claim (o : option CborValue) : option (option OwnerAuthClaimValue) :=
  match o with None => Some None | Some v => Some <$> de_claim v end.

Definition person_unsigned_fields (c : PersonCert) : list (string * CborValue) :=
  ([("v", CV_Integer (pc_version c)); ("type", CV_Text (pc_cert_type c)); ("hh_id", CV_Text (pc_hh_id c));
    ("p_id", CV_Text (pc_p_id c)); ("p_pub", CV_Bytes (pc_p_pub c));
    ("display_name", CV_Text (pc_display_name c)); ("caveats", CV_Array (map to_value (pc_caveats c)));
    ("not_before", CV_Integer (pc_not_before c)); ("not_after", of_option CV_Integer (pc_not_after c));
    ("nonce", CV_Bytes (pc_nonce c)); ("issued_at", CV_Integer (pc_issued_at c));
    ("issued_by", CV_Text (subject_str (pc_issued_by c)))]%string ++
   claim_field "owner_auth_tier" (pc_owner_auth_tier c) ++
   claim_field "owner_provenance" (pc_owner_provenance c)).

Definition person_names : list string :=
  ["v"; "type"; "hh_id"; "p_id"; "p_pub"; "display_name"; "caveats"; "not_before"; "not_after"; "nonce";
   "issued_at"; "issued_by"; "owner_auth_tier"; "owner_provenance"; "signature"]%string.

Definition person_build (get : string → option CborValue) : option PersonCert :=
  version ← get "v"%string ≫= de_uint 256;
  cert_type ← get "type"%string ≫= de_string;
  hh_id ← get "hh_id"%string ≫= de_household;
  p_id ← get "p_id"%string ≫= de_person;
  p_pub ← get "p_pub"%string ≫= de_sized 33;
  display_name ← get "display_name"%string ≫= de_string;
  caveats ← get "caveats"%string ≫= de_vec of_value;
  not_before ← get "not_before"%string ≫= de_u64;
  not_after ← de_option de_u64 (get "not_after"%string);
  nonce ← get "nonce"%string ≫= de_byte_buf;
  issued_at ← get "issued_at"%string ≫= de_u64;
  issued_by ← get "issued_by"%string ≫= de_subject;
  tier ← de_optional_claim (get "owner_auth_tier"%string);
  provenance ← de_optional_claim (get "owner_provenance"%string);
  signature ← get "signature"%string ≫= de_sized 64;
  Some (MkPersonCert version cert_type hh_id p_id p_pub display_name caveats not_before not_after nonce
          issued_at issued_by tier provenance signature).

#[export] Instance PersonCert_serde : Serde PersonCert := {
  to_value c := to_struct (person_unsigned_fields c ++ [("signature"%string, CV_Bytes (pc_signature c))]);
  of_value := of_struct person_names person_build;
}.

(** [PersonCert::signing_bytes]: [PersonCertUnsigned] is the certificate
    without its signature. *)
Definition person_unsigned_serde : Serde PersonCert :=
  {| to_value c := to_struct (person_unsigned_fields c); of_value := λ _, None |}.

Definition person_signing_bytes (c : PersonCert) : option bytes :=
  @Canonical.to_canonical_vec CC PersonCert person_unsigned_serde c.

Definition cert_type_text (t : CertType) : string :=
  match t with CT_Machine => "machine" | CT_Person => "person" | CT_Device => "device" end.
Definition de_cert_type (v : CborValue) : option CertType :=
  s ← de_string v;
  iter_find (λ t, bool_decide (cert_type_text t = s)) [CT_Machine; CT_Person; CT_Device].

Definition platform_text (p : Platform) : string :=
  match p with Pl_Macos => "macos" | Pl_LinuxNix => "linux-nix" | Pl_LinuxOther => "linux-other" end.
Definition de_platform (v : CborValue) : option Platform :=
  s ← de_string v;
  iter_find (λ p, bool_decide (platform_text p = s)) [Pl_Macos; Pl_LinuxNix; Pl_LinuxOther].

Definition machine_unsigned_fields (c : MachineCert) : list (string * CborValue) :=
  [("v", CV_Integer (mc_version c)); ("type", CV_Text (cert_type_text (mc_cert_type c)));
   ("hh_id", CV_Text (mc_hh_id c)); ("m_id", CV_Text (mc_m_id c)); ("m_pub", CV_Bytes (mc_m_pub c));
   ("hostname", CV_Text (mc_hostname c)); ("platform", CV_Text (platform_text (mc_platform c)));
   ("joined_at", CV_Integer (mc_joined_at c)); ("issued_by", CV_Text (subject_str (mc_issued_by c)));
   ("caveats", CV_Array [])]%string.

Definition machine_names : list string :=
  ["v"; "type"; "hh_id"; "m_id"; "m_pub"; "hostname"; "platform"; "joined_at"; "issued_by"; "caveats";
   "signature"]%string.

Definition machine_build (get : string → option CborValue) : option MachineCert :=
  version ← get "v"%string ≫= de_uint 256;
  cert_type ← get "type"%string ≫= de_cert_type;
  hh_id ← get "hh_id"%string ≫= de_household;
  m_id ← get "m_id"%string ≫= de_machine;
  m_pub ← get "m_pub"%string ≫= de_sized 33;
  hostname ← get "hostname"%string ≫= de_string;
  platform ← get "platform"%string ≫= de_platform;
  joined_at ← get "joined_at"%string ≫= de_u64;
  issued_by ← get "issued_by"%string ≫= de_subject;
  caveats ← get "caveats"%string ≫= de_vec (λ _, None);
  signature ← get "signature"%string ≫= de_sized 64;
  Some (MkMachineCert version cert_type hh_id m_id m_pub hostname platform joined_at issued_by caveats
          signature).

#[export] Instance MachineCert_serde : Serde MachineCert := {
  to_value c := to_struct (machine_unsigned_fields c ++ [("signature"%string, CV_Bytes (mc_signature c))]);
  of_value := of_struct machine_names machine_build;
}.

Definition machine_unsigned_serde : Serde MachineCert :=
  {| to_value c := to_struct (machine_unsigned_fields c); of_value := λ _, None |}.

Definition machine_signing_bytes (c : MachineCert) : option bytes :=
  @Canonical.to_canonical_vec CC MachineCert machine_unsigned_serde c.

(** ** Verification *)

(** [MachineCert::verify] *)
Definition machine_cert_verify (c : MachineCert) (hh_pub : P256PublicKey) : bool :=
  (mc_version c =? 1) &&
  bool_decide (mc_cert_type c = CT_Machine) &&
  public_key_ok (mc_m_pub c) &&
  bool_decide (derive_machine_id (mc_m_pub c) = mc_m_id c) &&
  bool_decide (mc_issued_by c = Sj_Household (mc_hh_id c)) &&
  bool_decide (mc_caveats c = []) &&
  validate_hostname (mc_hostname c) &&
  match machine_signing_bytes c with
  | Some b => verify_signature hh_pub b (mc_signature c)
  | None => false
  end.

(** [machine_cert::fingerprint] *)
Definition machine_fingerprint (c : MachineCert) : option bytes :=
  b ← Canonical.to_canonical_vec c; Some (sha256 b).

(** Valid at [now]: not before [not_before], and before [not_after]. *)
Definition person_cert_window (c : PersonCert) (now : Z) : bool :=
  negb (now <? pc_not_before c) &&
  match pc_not_after c with Some expires => negb (expires <=? now) | None => true end.

Definition verify_rooted_identity (c : PersonCert) (expected_hh_id : HouseholdId)
    (hh_pub : P256PublicKey) (now : Z) : bool :=
  (pc_version c =? 1) &&
  bool_decide (pc_cert_type c = "person"%string) &&
  bool_decide (pc_hh_id c = expected_hh_id) &&
  public_key_ok (pc_p_pub c) &&
  bool_decide (derive_person_id (pc_p_pub c) = pc_p_id c) &&
  validate_display_name (pc_display_name c) &&
  bool_decide (pc_issued_by c = Sj_Household expected_hh_id) &&
  (length (pc_nonce c) =? 16)%nat &&
  (pc_not_before c <=? pc_issued_at c) &&
  person_cert_window c now &&
  match person_signing_bytes c with
  | Some b => verify_signature hh_pub b (pc_signature c)
  | None => false
  end.

Definition strong_provenances : list string :=
  ["ios-secure-enclave-owner"; "ipados-secure-enclave-owner"; "ios-app-attest-owner";
   "ipados-app-attest-owner"]%string.

Definition has_strong_owner_provenance (c : PersonCert) : bool :=
  bool_decide (pc_owner_auth_tier c ≫= claim_text = Some "strong"%string) &&
  match pc_owner_provenance c ≫= claim_text with
  | Some p => bool_decide (p ∈ strong_provenances)
  | None => false
  end.

(** [PersonCert::verify] *)
Definition person_cert_verify (c : PersonCert) (expected_hh_id : HouseholdId) (hh_pub : P256PublicKey)
    (now : Z) : bool :=
  verify_rooted_identity c expected_hh_id hh_pub now &&
  forallb (λ cv, permits (pc_caveats c) (cv_op cv)) owner_caveats.

(** ** The window is all that depends on the time *)

Lemma verify_rooted_identity_time c hh_id hh_pub now now' :
  verify_rooted_identity c hh_id hh_pub now = true →
  verify_rooted_identity c hh_id hh_pub now' = person_cert_window c now'.
Proof.
  unfold verify_rooted_identity. intros H.
  repeat (apply andb_true_iff in H as [H ?]).
  repeat match goal with E : _ = true |- _ => rewrite E end.
  by rewrite !andb_true_l, andb_true_r.
Qed.

Lemma verify_rooted_identity_window c hh_id hh_pub now :
  verify_rooted_identity c hh_id hh_pub now = true → person_cert_window c now = true.
Proof. intros Hv. by rewrite <- (verify_rooted_identity_time c hh_id hh_pub now). Qed.
End certs.
