(* ===== verification/Roster.v ===== *)
(** * The machine roster: checkpoints and their authority

    Models the first half of [household-rs/src/machine_roster_authority.rs]: the
    members, revocations and checkpoints of a household's machine roster, their
    canonical encodings, hashes and signed preimages, and the verification that
    the household's owner signed them and that its root certified the members.
    [RosterAdmit] has the state machine that admits checkpoints. *)

From stdpp Require Import base gmap sets list strings.
From Stdlib Require Import ZArith Lia Ascii.
From S2P Require Import Prelude.
From S2P Require Import Cbor.
From S2P Require Import Canonical.
From S2P Require Import Crypto.
From S2P Require Import RosterView.
From S2P Require Import Ledger.
From S2P Require Import Household.

Open Scope Z_scope.

Definition REVOCATION_KIND : string := "household-machine-roster-revocation/v1".
Definition CHECKPOINT_KIND : string := "household-machine-roster-checkpoint/v1".
Definition REVOCATION_VERSION : Z := 1.
Definition CHECKPOINT_VERSION : Z := 1.
Definition REVOCATION_DOMAIN : bytes :=
  as_bytes "soyeht/household-machine-roster-revocation/v1" ++ ["000"%char].
Definition CHECKPOINT_DOMAIN : bytes :=
  as_bytes "soyeht/household-machine-roster-checkpoint/v1" ++ ["000"%char].

Definition zero32 : bytes := replicate 32 "000"%char.

(** ** Data *)

Inductive RevocationReason := RR_Compromised | RR_Lost | RR_Retired | RR_Replaced | RR_OwnerAction.
Inductive RevocationCascade := RCa_MachineOnly | RCa_MachineAndDependents.

#[export] Instance RosterRevocationReason_eq_dec : EqDecision RevocationReason.
Proof. solve_decision. Defined.
#[export] Instance RevocationCascade_eq_dec : EqDecision RevocationCascade.
Proof. solve_decision. Defined.

Record MachineRosterMemberV1 := MkMember {
  mm_m_id : MachineId;
  mm_m_pub : P256PublicKey;
  mm_machine_cert : bytes;
  mm_machine_cert_fingerprint : bytes;
}.

#[export] Instance MachineRosterMemberV1_eq_dec : EqDecision MachineRosterMemberV1.
Proof. solve_decision. Defined.

Record MachineRosterRevocationV1 := MkRevocation {
  rr_v : Z;
  rr_kind : string;
  rr_hh_id : HouseholdId;
  rr_epoch : bytes;
  rr_sequence : Z;
  rr_prev_event_hash : bytes;
  rr_m_id : MachineId;
  rr_m_pub : P256PublicKey;
  rr_machine_cert_fingerprint : bytes;
  rr_revoked_at : Z;
  rr_reason : RevocationReason;
  rr_cascade : RevocationCascade;
  rr_owner_p_id : PersonId;
  rr_owner_cert_fingerprint : bytes;
  rr_owner_person_cert : bytes;
  rr_signature : P256Signature;
}.

#[export] Instance MachineRosterRevocationV1_eq_dec : EqDecision MachineRosterRevocationV1.
Proof. solve_decision. Defined.

Record MachineRosterCheckpointV1 := MkCheckpoint {
  cp_v : Z;
  cp_kind : string;
  cp_hh_id : HouseholdId;
  cp_epoch : bytes;
  cp_checkpoint_sequence : Z;
  cp_prev_checkpoint_hash : bytes;
  cp_event_sequence : Z;
  cp_event_head_hash : bytes;
  cp_mesh_log_digest : bytes;
  cp_issued_at : Z;
  cp_not_after : Z;
  cp_owner_p_id : PersonId;
  cp_owner_cert_fingerprint : bytes;
  cp_active : list MachineRosterMemberV1;
  cp_revocations : list MachineRosterRevocationV1;
  cp_owner_person_cert : bytes;
  cp_signature : P256Signature;
}.

Inductive RosterCryptoError :=
| RC_CborEncode
| RC_CborDecode
| RC_SignatureRejected
| RC_SchemaInvalid
| RC_CertDecode
| RC_CertNotCanonical
| RC_OwnerCertInvalid
| RC_WeakProvenance
| RC_HouseholdMismatch
| RC_OwnerIdMismatch
| RC_OwnerPubMismatch
| RC_MissingCaveatAddMachine
| RC_MissingCaveatRevoke
| RC_FingerprintMismatch
| RC_MachineCertInvalid
| RC_MachineCertNotCanonical
| RC_MachineIdMismatch
| RC_MachinePubMismatch
| RC_MachineFingerprintMismatch
| RC_MachineHouseholdMismatch.

Record RosterAuthorityContext := MkRosterAuthorityContext {
  ra_hh_pub : P256PublicKey;
  ra_expected_hh_id : HouseholdId;
  ra_expected_p_id : PersonId;
  ra_expected_p_pub : P256PublicKey;
  ra_effective_now : Z;
}.

Section roster.
Context {CC : CborCrate} {SC : SessionCrypto} {HC : HouseholdCrypto} {DD : DerivedDecoders}.

(** ** Encodings *)

(** [bstr32], [bstr64_sig], [bstr33_key]: byte strings only. *)
Definition de_b32 (v : CborValue) : option bytes :=
  b ← de_bytes v; if (length b =? 32)%nat then Some b else None.
Definition de_sig (v : CborValue) : option bytes :=
  b ← de_bytes v; if (length b =? 64)%nat then Some b else None.
Definition de_key (v : CborValue) : option bytes :=
  b ← de_bytes v; if public_key_ok b then Some b else None.

Definition reason_code (r : RevocationReason) : Z :=
  match r with
  | RR_Compromised => 0 | RR_Lost => 1 | RR_Retired => 2 | RR_Replaced => 3 | RR_OwnerAction => 4
  end.
Definition de_reason (v : CborValue) : option RevocationReason :=
  n ← de_uint 256 v;
  iter_find (λ r, reason_code r =? n)
    [RR_Compromised; RR_Lost; RR_Retired; RR_Replaced; RR_OwnerAction].

Definition cascade_code (c : RevocationCascade) : Z :=
  match c with RCa_MachineOnly => 0 | RCa_MachineAndDependents => 1 end.
Definition de_cascade (v : CborValue) : option RevocationCascade :=
  n ← de_uint 256 v; iter_find (λ c, cascade_code c =? n) [RCa_MachineOnly; RCa_MachineAndDependents].

Definition member_names : list string :=
  ["m_id"; "m_pub"; "machine_cert"; "machine_cert_fingerprint"]%string.

#[export] Instance Member_serde : Serde MachineRosterMemberV1 := {
  to_value m := to_struct
    [("m_id", CV_Text (mm_m_id m)); ("m_pub", CV_Bytes (mm_m_pub m));
     ("machine_cert", CV_Bytes (mm_machine_cert m));
     ("machine_cert_fingerprint", CV_Bytes (mm_machine_cert_fingerprint m))]%string;
  of_value := of_struct member_names (λ get,
    m_id ← get "m_id"%string ≫= de_machine;
    m_pub ← get "m_pub"%string ≫= de_key;
    machine_cert ← get "machine_cert"%string ≫= de_bytes;
    fingerprint ← get "machine_cert_fingerprint"%string ≫= de_b32;
    Some (MkMember m_id m_pub machine_cert fingerprint));
}.

(** [RevocationUnsigned]: neither the certificate nor the signature. *)
Definition revocation_unsigned_fields (r : MachineRosterRevocationV1) : list (string * CborValue) :=
  [("v", CV_Integer (rr_v r)); ("kind", CV_Text (rr_kind r)); ("hh_id", CV_Text (rr_hh_id r));
   ("epoch", CV_Bytes (rr_epoch r)); ("sequence", CV_Integer (rr_sequence r));
   ("prev_event_hash", CV_Bytes (rr_prev_event_hash r)); ("m_id", CV_Text (rr_m_id r));
   ("m_pub", CV_Bytes (rr_m_pub r));
   ("machine_cert_fingerprint", CV_Bytes (rr_machine_cert_fingerprint r));
   ("revoked_at", CV_Integer (rr_revoked_at r)); ("reason", CV_Integer (reason_code (rr_reason r)));
   ("cascade", CV_Integer (cascade_code (rr_cascade r))); ("owner_p_id", CV_Text (rr_owner_p_id r));
   ("owner_cert_fingerprint", CV_Bytes (rr_owner_cert_fingerprint r))]%string.

Definition revocation_names : list string :=
  ["v"; "kind"; "hh_id"; "epoch"; "sequence"; "prev_event_hash"; "m_id"; "m_pub";
   "machine_cert_fingerprint"; "revoked_at"; "reason"; "cascade"; "owner_p_id";
   "owner_cert_fingerprint"; "owner_person_cert"; "signature"]%string.

Definition revocation_build (get : string → option CborValue) : option MachineRosterRevocationV1 :=
  v ← get "v"%string ≫= de_uint 256;
  kind ← get "kind"%string ≫= de_string;
  hh_id ← get "hh_id"%string ≫= de_household;
  epoch ← get "epoch"%string ≫= de_b32;
  sequence ← get "sequence"%string ≫= de_u64;
  prev ← get "prev_event_hash"%string ≫= de_b32;
  m_id ← get "m_id"%string ≫= de_machine;
  m_pub ← get "m_pub"%string ≫= de_key;
  fingerprint ← get "machine_cert_fingerprint"%string ≫= de_b32;
  revoked_at ← get "revoked_at"%string ≫= de_u64;
  reason ← get "reason"%string ≫= de_reason;
  cascade ← get "cascade"%string ≫= de_cascade;
  owner_p_id ← get "owner_p_id"%string ≫= de_person;
  owner_fp ← get "owner_cert_fingerprint"%string ≫= de_b32;
  owner_cert ← get "owner_person_cert"%string ≫= de_bytes;
  signature ← get "signature"%string ≫= de_sig;
  Some (MkRevocation v kind hh_id epoch sequence prev m_id m_pub fingerprint revoked_at reason cascade
          owner_p_id owner_fp owner_cert signature).

#[export] Instance Revocation_serde : Serde MachineRosterRevocationV1 := {
  to_value r := to_struct (revocation_unsigned_fields r ++
    [("owner_person_cert", CV_Bytes (rr_owner_person_cert r));
     ("signature", CV_Bytes (rr_signature r))]%string);
  of_value := of_struct revocation_names revocation_build;
}.

Definition revocation_unsigned_serde : Serde MachineRosterRevocationV1 :=
  {| to_value r := to_struct (revocation_unsigned_fields r); of_value := λ _, None |}.

(** [CheckpointUnsigned] *)
Definition checkpoint_unsigned_fields (c : MachineRosterCheckpointV1) : list (string * CborValue) :=
  [("v", CV_Integer (cp_v c)); ("kind", CV_Text (cp_kind c)); ("hh_id", CV_Text (cp_hh_id c));
   ("epoch", CV_Bytes (cp_epoch c)); ("checkpoint_sequence", CV_Integer (cp_checkpoint_sequence c));
   ("prev_checkpoint_hash", CV_Bytes (cp_prev_checkpoint_hash c));
   ("event_sequence", CV_Integer (cp_event_sequence c));
   ("event_head_hash", CV_Bytes (cp_event_head_hash c));
   ("mesh_log_digest", CV_Bytes (cp_mesh_log_digest c)); ("issued_at", CV_Integer (cp_issued_at c));
   ("not_after", CV_Integer (cp_not_after c)); ("owner_p_id", CV_Text (cp_owner_p_id c));
   ("owner_cert_fingerprint", CV_Bytes (cp_owner_cert_fingerprint c));
   ("active", CV_Array (map to_value (cp_active c)));
   ("revocations", CV_Array (map to_value (cp_revocations c)))]%string.

Definition checkpoint_names : list string :=
  ["v"; "kind"; "hh_id"; "epoch"; "checkpoint_sequence"; "prev_checkpoint_hash"; "event_sequence";
   "event_head_hash"; "mesh_log_digest"; "issued_at"; "not_after"; "owner_p_id";
   "owner_cert_fingerprint"; "active"; "revocations"; "owner_person_cert"; "signature"]%string.

Definition checkpoint_build (get : string → option CborValue) : option MachineRosterCheckpointV1 :=
  v ← get "v"%string ≫= de_uint 256;
  kind ← get "kind"%string ≫= de_string;
  hh_id ← get "hh_id"%string ≫= de_household;
  epoch ← get "epoch"%string ≫= de_b32;
  sequence ← get "checkpoint_sequence"%string ≫= de_u64;
  prev ← get "prev_checkpoint_hash"%string ≫= de_b32;
  event_sequence ← get "event_sequence"%string ≫= de_u64;
  event_head ← get "event_head_hash"%string ≫= de_b32;
  mesh_log ← get "mesh_log_digest"%string ≫= de_b32;
  issued_at ← get "issued_at"%string ≫= de_u64;
  not_after ← get "not_after"%string ≫= de_u64;
  owner_p_id ← get "owner_p_id"%string ≫= de_person;
  owner_fp ← get "owner_cert_fingerprint"%string ≫= de_b32;
  active ← get "active"%string ≫= de_vec of_value;
  revocations ← get "revocations"%string ≫= de_vec of_value;
  owner_cert ← get "owner_person_cert"%string ≫= de_bytes;
  signature ← get "signature"%string ≫= de_sig;
  Some (MkCheckpoint v kind hh_id epoch sequence prev event_sequence event_head mesh_log issued_at
          not_after owner_p_id owner_fp active revocations owner_cert signature).

#[export] Instance Checkpoint_serde : Serde MachineRosterCheckpointV1 := {
  to_value c := to_struct (checkpoint_unsigned_fields c ++
    [("owner_person_cert", CV_Bytes (cp_owner_person_cert c));
     ("signature", CV_Bytes (cp_signature c))]%string);
  of_value := of_struct checkpoint_names checkpoint_build;
}.

Definition checkpoint_unsigned_serde : Serde MachineRosterCheckpointV1 :=
  {| to_value c := to_struct (checkpoint_unsigned_fields c); of_value := λ _, None |}.

(** ** Preimages and hashes *)

Definition check_revocation_schema (r : MachineRosterRevocationV1) : Result RosterCryptoError unit :=
  reject_if (negb (rr_v r =? REVOCATION_VERSION) || negb (bool_decide (rr_kind r = REVOCATION_KIND)))
    RC_SchemaInvalid.

Definition check_checkpoint_schema (c : MachineRosterCheckpointV1) : Result RosterCryptoError unit :=
  reject_if (negb (cp_v c =? CHECKPOINT_VERSION) || negb (bool_decide (cp_kind c = CHECKPOINT_KIND)))
    RC_SchemaInvalid.

Definition revocation_unsigned_cbor (r : MachineRosterRevocationV1) : Result RosterCryptoError bytes :=
  ok_or (@Canonical.to_canonical_vec CC _ revocation_unsigned_serde r) RC_CborEncode.

Definition revocation_preimage (r : MachineRosterRevocationV1) : Result RosterCryptoError bytes :=
  check_revocation_schema r;;
  cbor_bytes ← revocation_unsigned_cbor r;
  Ok (REVOCATION_DOMAIN ++ cbor_bytes).

Definition revocation_event_hash (r : MachineRosterRevocationV1) : Result RosterCryptoError bytes :=
  preimage ← revocation_preimage r; Ok (sha256 preimage).

Definition checkpoint_unsigned_cbor (c : MachineRosterCheckpointV1) : Result RosterCryptoError bytes :=
  ok_or (@Canonical.to_canonical_vec CC _ checkpoint_unsigned_serde c) RC_CborEncode.

Definition checkpoint_preimage (c : MachineRosterCheckpointV1) : Result RosterCryptoError bytes :=
  check_checkpoint_schema c;;
  cbor_bytes ← checkpoint_unsigned_cbor c;
  Ok (CHECKPOINT_DOMAIN ++ cbor_bytes).

Definition checkpoint_hash (c : MachineRosterCheckpointV1) : Result RosterCryptoError bytes :=
  preimage ← checkpoint_preimage c; Ok (sha256 preimage).

Definition owner_cert_fingerprint (cert : PersonCert) : Result RosterCryptoError bytes :=
  b ← ok_or (Canonical.to_canonical_vec cert) RC_CborEncode; Ok (sha256 b).

Definition machine_cert_fingerprint (cert : MachineCert) : Result RosterCryptoError bytes :=
  ok_or (machine_fingerprint cert) RC_CborEncode.

(** ** Authority *)

Definition decode_owner_cert (cert_bytes : bytes) : Result RosterCryptoError PersonCert :=
  cert ← ok_or (Canonical.from_canonical_slice cert_bytes) RC_CertDecode;
  reencoded ← ok_or (Canonical.to_canonical_vec cert) RC_CborEncode;
  reject_if (bool_decide (reencoded ≠ cert_bytes)) RC_CertNotCanonical;;
  Ok cert.

Definition owner_template_permitted (cert : PersonCert) : bool :=
  forallb (λ caveat, permits (pc_caveats cert) (cv_op caveat)) owner_caveats.

Definition validate_owner_cert_core (cert_bytes : bytes) (ctx : RosterAuthorityContext)
    : Result RosterCryptoError (PersonCert * bytes) :=
  cert ← decode_owner_cert cert_bytes;
  reject_if (negb (verify_rooted_identity cert (ra_expected_hh_id ctx) (ra_hh_pub ctx)
                     (ra_effective_now ctx))) RC_OwnerCertInvalid;;
  reject_if (negb (has_strong_owner_provenance cert)) RC_WeakProvenance;;
  reject_if (negb (bool_decide (pc_p_id cert = ra_expected_p_id ctx))) RC_OwnerIdMismatch;;
  reject_if (negb (bool_decide (pc_p_pub cert = ra_expected_p_pub ctx))) RC_OwnerPubMismatch;;
  reject_if (negb (permits (pc_caveats cert) Op_HouseholdAddMachine)) RC_MissingCaveatAddMachine;;
  reject_if (negb (permits (pc_caveats cert) Op_HouseholdRevoke)) RC_MissingCaveatRevoke;;
  reject_if (negb (owner_template_permitted cert)) RC_OwnerCertInvalid;;
  computed_fp ← owner_cert_fingerprint cert;
  Ok (cert, computed_fp).

Definition verify_revocation_authority (rev : MachineRosterRevocationV1) (ctx : RosterAuthorityContext)
    : Result RosterCryptoError unit :=
  check_revocation_schema rev;;
  reject_if (negb (bool_decide (rr_hh_id rev = ra_expected_hh_id ctx))) RC_HouseholdMismatch;;
  reject_if (negb (bool_decide (rr_owner_p_id rev = ra_expected_p_id ctx))) RC_OwnerIdMismatch;;
  '(_, computed_fp) ← validate_owner_cert_core (rr_owner_person_cert rev) ctx;
  reject_if (negb (bool_decide (computed_fp = rr_owner_cert_fingerprint rev))) RC_FingerprintMismatch;;
  preimage ← revocation_preimage rev;
  reject_if (negb (verify_signature (ra_expected_p_pub ctx) preimage (rr_signature rev)))
    RC_SignatureRejected.

Definition verify_checkpoint_authority (c : MachineRosterCheckpointV1) (ctx : RosterAuthorityContext)
    : Result RosterCryptoError unit :=
  check_checkpoint_schema c;;
  reject_if (negb (bool_decide (cp_hh_id c = ra_expected_hh_id ctx))) RC_HouseholdMismatch;;
  reject_if (negb (bool_decide (cp_owner_p_id c = ra_expected_p_id ctx))) RC_OwnerIdMismatch;;
  '(_, computed_fp) ← validate_owner_cert_core (cp_owner_person_cert c) ctx;
  reject_if (negb (bool_decide (computed_fp = cp_owner_cert_fingerprint c))) RC_FingerprintMismatch;;
  preimage ← checkpoint_preimage c;
  reject_if (negb (verify_signature (ra_expected_p_pub ctx) preimage (cp_signature c)))
    RC_SignatureRejected.

Definition validate_member_provenance (member : MachineRosterMemberV1) (hh_pub : P256PublicKey)
    (expected_hh_id : HouseholdId) : Result RosterCryptoError MachineCert :=
  cert ← ok_or (Canonical.from_canonical_slice (mm_machine_cert member)) RC_CborDecode;
  reencoded ← ok_or (Canonical.to_canonical_vec cert) RC_CborEncode;
  reject_if (bool_decide (reencoded ≠ mm_machine_cert member)) RC_MachineCertNotCanonical;;
  reject_if (negb (machine_cert_verify cert hh_pub)) RC_MachineCertInvalid;;
  reject_if (negb (bool_decide (mc_hh_id cert = expected_hh_id))) RC_MachineHouseholdMismatch;;
  reject_if (negb (bool_decide (mc_m_id cert = mm_m_id member))) RC_MachineIdMismatch;;
  reject_if (negb (bool_decide (mc_m_pub cert = mm_m_pub member))) RC_MachinePubMismatch;;
  computed_fp ← machine_cert_fingerprint cert;
  reject_if (negb (bool_decide (computed_fp = mm_machine_cert_fingerprint member)))
    RC_MachineFingerprintMismatch;;
  Ok cert.

(** The owner whose certificate is [cert_bytes], if it is valid at [at_time]. *)
Definition derive_owner_binding_from_cert (cert_bytes : bytes) (expected_hh_id : HouseholdId)
    (hh_pub : P256PublicKey) (at_time : Z)
    : Result RosterCryptoError (PersonId * P256PublicKey * bytes) :=
  cert ← decode_owner_cert cert_bytes;
  reject_if (negb (verify_rooted_identity cert expected_hh_id hh_pub at_time)) RC_OwnerCertInvalid;;
  reject_if (negb (has_strong_owner_provenance cert)) RC_WeakProvenance;;
  reject_if (negb (owner_template_permitted cert)) RC_OwnerCertInvalid;;
  fp ← owner_cert_fingerprint cert;
  Ok (pc_p_id cert, pc_p_pub cert, fp).

(** The loop of [verify_checkpoint_full_historical] over the revocations. *)
Fixpoint verify_revocations_historical (epoch : bytes) (l : list MachineRosterRevocationV1)
    (ctx : RosterAuthorityContext) : Result RosterCryptoError unit :=
  match l with
  | [] => Ok tt
  | rev :: l =>
      check_revocation_schema rev;;
      reject_if (negb (bool_decide (rr_epoch rev = epoch))) RC_SchemaInvalid;;
      reject_if (negb (bool_decide (rr_hh_id rev = ra_expected_hh_id ctx))) RC_HouseholdMismatch;;
      verify_revocation_authority rev ctx;;
      verify_revocations_historical epoch l ctx
  end.

Definition verify_checkpoint_full_historical (c : MachineRosterCheckpointV1)
    (ctx : RosterAuthorityContext) : Result RosterCryptoError unit :=
  verify_checkpoint_authority c ctx;;
  verify_revocations_historical (cp_epoch c) (cp_revocations c) ctx.
End roster.
