(* ===== verification/RosterAdmit.v ===== *)
(** * The machine roster: admission of checkpoints

    Models the second half of [household-rs/src/machine_roster_authority.rs]: the
    chain state of a roster, the projection of a checkpoint's revocations on the
    genesis members, the state machine [admit_checkpoint], the replay of stored
    checkpoints ([historical_reapply_next]), and the currency of a machine.
    [usize] has 64 bits, so [usize::try_from] of a [u64] succeeds. *)

From stdpp Require Import base gmap sets list strings.
From Stdlib Require Import ZArith Lia Ascii.
From S2P Require Import Prelude.
From S2P Require Import Cbor.
From S2P Require Import Canonical.
From S2P Require Import Crypto.
From S2P Require Import RosterView.
From S2P Require Import Ledger.
From S2P Require Import Household.
From S2P Require Import Roster.

Open Scope Z_scope.

Definition MAX_CHECKPOINT_LIFETIME_SECS : Z := 300.
Definition MAX_FUTURE_SKEW_SECS : Z := 60.

(** ** State *)

Record VerifiedGenesisRoster := MkGenesis {
  vg_epoch : bytes;
  vg_members : list MachineRosterMemberV1;
}.

#[export] Instance VerifiedGenesisRoster_eq_dec : EqDecision VerifiedGenesisRoster.
Proof. solve_decision. Defined.

Record AcceptedRosterData := MkAccepted {
  ad_epoch : bytes;
  ad_checkpoint_sequence : Z;
  ad_checkpoint_hash : bytes;
  ad_prev_checkpoint_hash : bytes;
  ad_event_sequence : Z;
  ad_event_head_hash : bytes;
  ad_predecessor_event_sequence : Z;
  ad_predecessor_event_head_hash : bytes;
  ad_issued_at : Z;
  ad_not_after : Z;
  ad_owner_cert_fingerprint : bytes;
  ad_genesis_basis : VerifiedGenesisRoster;
  ad_active : list MachineRosterMemberV1;
  ad_tombstones : list MachineRosterRevocationV1;
}.

#[export] Instance AcceptedRosterData_eq_dec : EqDecision AcceptedRosterData.
Proof. solve_decision. Defined.

Inductive AcceptedRosterChainState :=
| RS_NoGenesis
| RS_Accepted (data : AcceptedRosterData)
| RS_CheckpointForkConflict (epoch : bytes) (sequence : Z) (hashes : list bytes)
| RS_EventForkConflict (epoch : bytes) (sequence : Z) (hashes : list bytes).

#[export] Instance AcceptedRosterChainState_eq_dec : EqDecision AcceptedRosterChainState.
Proof. solve_decision. Defined.

Inductive CheckpointAdmissionResult :=
| CA_Accepted
| CA_IdempotentDuplicate
| CA_RejectedReplay
| CA_RejectedGap
| CA_RejectedRollback
| CA_RejectedMalformed
| CA_RejectedOwner
| CA_RejectedCaveat
| CA_RejectedSignature
| CA_RejectedTemporal
| CA_RejectedProjection
| CA_EpochMigrationRequired
| CA_CheckpointForkConflictRecorded
| CA_EventForkConflictRecorded.

#[export] Instance CheckpointAdmissionResult_eq_dec : EqDecision CheckpointAdmissionResult.
Proof. solve_decision. Defined.

Inductive UnavailableReason :=
| UR_NoGenesis
| UR_CheckpointStale
| UR_CheckpointForkConflict
| UR_EventForkConflict
| UR_ClockStateUnavailable
| UR_OwnerAuthorityUnavailable.

Inductive MachineCurrencyResult :=
| MC_Active (member : MachineRosterMemberV1)
| MC_Revoked (tombstone : MachineRosterRevocationV1)
| MC_NotListed
| MC_Unavailable (reason : UnavailableReason).

Inductive ProjectionError :=
| PE_EventHashChainBroken
| PE_EventHeadMismatch
| PE_EventSequenceMismatch
| PE_OwnerFpMismatch
| PE_RevokedNotPreviouslyActive
| PE_RevokedTargetMismatch
| PE_DuplicateRevocation
| PE_ActiveSortInvalid
| PE_ActiveDuplicateId
| PE_ActiveDuplicatePub
| PE_ActiveDuplicateFingerprint
| PE_MemberProvenanceInvalid
| PE_ProjectedMismatch
| PE_RevocationValidation (r : CheckpointAdmissionResult).

Record AdmissionContext := MkAdmissionContext {
  ac_authority : RosterAuthorityContext;
  ac_clock_available : bool;
  ac_bound_owner_cert_fingerprint : option bytes;
}.

Definition owner_authority_available (ctx : AdmissionContext) (candidate_fp : bytes)
    (has_prior_accepted : bool) : bool :=
  match ac_bound_owner_cert_fingerprint ctx with
  | Some fp => bool_decide (fp = candidate_fp)
  | None => negb has_prior_accepted
  end.

Definition owner_available_for_currency (ctx : AdmissionContext) (state_fp : bytes) : bool :=
  match ac_bound_owner_cert_fingerprint ctx with
  | Some fp => bool_decide (fp = state_fp)
  | None => false
  end.

Definition classify_crypto_error (e : RosterCryptoError) : CheckpointAdmissionResult :=
  match e with
  | RC_CborEncode | RC_CborDecode | RC_CertDecode | RC_CertNotCanonical | RC_SchemaInvalid =>
      CA_RejectedMalformed
  | RC_MissingCaveatAddMachine | RC_MissingCaveatRevoke => CA_RejectedCaveat
  | RC_SignatureRejected => CA_RejectedSignature
  | RC_OwnerCertInvalid | RC_WeakProvenance | RC_OwnerIdMismatch | RC_OwnerPubMismatch
  | RC_FingerprintMismatch | RC_HouseholdMismatch => CA_RejectedOwner
  | RC_MachineCertInvalid | RC_MachineCertNotCanonical | RC_MachineIdMismatch
  | RC_MachinePubMismatch | RC_MachineFingerprintMismatch | RC_MachineHouseholdMismatch =>
      CA_RejectedProjection
  end.

Inductive HistoricalBridgeError :=
| HB_Crypto (e : RosterCryptoError)
| HB_Projection (e : ProjectionError)
| HB_Admission (r : CheckpointAdmissionResult)
| HB_Temporal.

Record NextSeqInput := MkNextSeqInput {
  ns_epoch : bytes;
  ns_checkpoint_sequence : Z;
  ns_checkpoint_hash : bytes;
  ns_event_sequence : Z;
  ns_event_head_hash : bytes;
  ns_issued_at : Z;
  ns_genesis_basis : VerifiedGenesisRoster;
  ns_tombstones : list MachineRosterRevocationV1;
}.

Inductive NextSeqDecision :=
| ND_Mutating (state : AcceptedRosterChainState) (result : CheckpointAdmissionResult)
| ND_Rejected (r : CheckpointAdmissionResult).

Section authority.
Context {CC : CborCrate} {SC : SessionCrypto} {HC : HouseholdCrypto} {DD : DerivedDecoders}.

(** [CanonicalCheckpoint::from_raw]; the wrapper is the checkpoint. *)
Definition from_raw (raw : bytes) : Result CheckpointAdmissionResult MachineRosterCheckpointV1 :=
  decoded ← ok_or (Canonical.from_canonical_slice raw) CA_RejectedMalformed;
  reencoded ← ok_or (Canonical.to_canonical_vec decoded) CA_RejectedMalformed;
  reject_if (bool_decide (reencoded ≠ raw)) CA_RejectedMalformed;;
  reject_if (negb (cp_v decoded =? CHECKPOINT_VERSION) ||
             negb (bool_decide (cp_kind decoded = CHECKPOINT_KIND))) CA_RejectedMalformed;;
  Ok decoded.

Definition validate_embedded_revocation (rev : MachineRosterRevocationV1) (expected_epoch : bytes)
    (ctx : AdmissionContext) : Result CheckpointAdmissionResult unit :=
  reject_if (negb (rr_v rev =? REVOCATION_VERSION) ||
             negb (bool_decide (rr_kind rev = REVOCATION_KIND))) CA_RejectedMalformed;;
  reject_if (negb (bool_decide (rr_epoch rev = expected_epoch))) CA_RejectedMalformed;;
  map_err classify_crypto_error (verify_revocation_authority rev (ac_authority ctx)).

(** ** Projection *)

Fixpoint check_members (hh_pub : P256PublicKey) (hh_id : HouseholdId)
    (l : list MachineRosterMemberV1) : Result ProjectionError unit :=
  match l with
  | [] => Ok tt
  | m :: l =>
      map_err (λ _, PE_MemberProvenanceInvalid) (validate_member_provenance m hh_pub hh_id);;
      check_members hh_pub hh_id l
  end.

(** The sets of the duplicate check, as lists of what was inserted. *)
Fixpoint check_duplicates (ids : list string) (pubs fps : list bytes)
    (l : list MachineRosterMemberV1) : Result ProjectionError unit :=
  match l with
  | [] => Ok tt
  | m :: l =>
      reject_if (bool_decide (mm_m_id m ∈ ids)) PE_ActiveDuplicateId;;
      reject_if (bool_decide (mm_m_pub m ∈ pubs)) PE_ActiveDuplicatePub;;
      reject_if (bool_decide (mm_machine_cert_fingerprint m ∈ fps)) PE_ActiveDuplicateFingerprint;;
      check_duplicates (mm_m_id m :: ids) (mm_m_pub m :: pubs) (mm_machine_cert_fingerprint m :: fps) l
  end.

(** The order of [&str]. *)
Definition id_lt (a b : string) : bool :=
  match bytes_cmp (as_bytes a) (as_bytes b) with Lt => true | _ => false end.

Fixpoint check_sorted (l : list MachineRosterMemberV1) : Result ProjectionError unit :=
  match l with
  | m :: ((m' :: _) as l') =>
      reject_if (negb (id_lt (mm_m_id m) (mm_m_id m'))) PE_ActiveSortInvalid;;
      check_sorted l'
  | _ => Ok tt
  end.

Fixpoint check_revocations (epoch : bytes) (ctx : AdmissionContext)
    (l : list MachineRosterRevocationV1) : Result ProjectionError unit :=
  match l with
  | [] => Ok tt
  | rev :: l =>
      map_err PE_RevocationValidation (validate_embedded_revocation rev epoch ctx);;
      check_revocations epoch ctx l
  end.

(** The loop over the event hash chain; it ends with the head. *)
Fixpoint check_chain (owner_fp : bytes) (i : nat) (prev_hash : bytes)
    (l : list MachineRosterRevocationV1) : Result ProjectionError bytes :=
  match l with
  | [] => Ok prev_hash
  | rev :: l =>
      reject_if (negb (rr_sequence rev =? Z.of_nat (i + 1))) PE_EventHashChainBroken;;
      reject_if (negb (bool_decide (rr_prev_event_hash rev = prev_hash))) PE_EventHashChainBroken;;
      reject_if (negb (bool_decide (rr_owner_cert_fingerprint rev = owner_fp))) PE_OwnerFpMismatch;;
      event_hash ← map_err (λ _, PE_EventHashChainBroken) (revocation_event_hash rev);
      check_chain owner_fp (S i) event_hash l
  end.

(** Replays the revocations on the genesis members: the machines revoked. *)
Fixpoint replay (members : list MachineRosterMemberV1) (tombstoned : list string)
    (l : list MachineRosterRevocationV1) : Result ProjectionError (list string) :=
  match l with
  | [] => Ok tombstoned
  | rev :: l =>
      reject_if (bool_decide (rr_m_id rev ∈ tombstoned)) PE_DuplicateRevocation;;
      target ← ok_or (iter_find (λ m, bool_decide (mm_m_id m = rr_m_id rev)) members)
                 PE_RevokedNotPreviouslyActive;
      reject_if (negb (bool_decide (rr_m_pub rev = mm_m_pub target))) PE_RevokedTargetMismatch;;
      reject_if (negb (bool_decide (rr_machine_cert_fingerprint rev =
                                    mm_machine_cert_fingerprint target))) PE_RevokedTargetMismatch;;
      replay members (rr_m_id rev :: tombstoned) l
  end.

Definition surviving (members : list MachineRosterMemberV1) (tombstoned : list string)
    : list MachineRosterMemberV1 :=
  List.filter (λ m, negb (bool_decide (mm_m_id m ∈ tombstoned))) members.

(** Comparing lengths and then pairs is comparing the lists. *)
Definition project_from_state (candidate : MachineRosterCheckpointV1)
    (genesis_basis : VerifiedGenesisRoster) (ctx : AdmissionContext)
    : Result ProjectionError (list MachineRosterMemberV1 * list MachineRosterRevocationV1) :=
  check_members (ra_hh_pub (ac_authority ctx)) (ra_expected_hh_id (ac_authority ctx))
    (cp_active candidate);;
  check_duplicates [] [] [] (cp_active candidate);;
  check_sorted (cp_active candidate);;
  reject_if (negb (cp_event_sequence candidate =? Z.of_nat (length (cp_revocations candidate))))
    PE_EventSequenceMismatch;;
  if cp_checkpoint_sequence candidate =? 1 then
    reject_if (negb (bool_decide (cp_revocations candidate = [])) ||
               negb (cp_event_sequence candidate =? 0) ||
               negb (bool_decide (cp_event_head_hash candidate = zero32))) PE_EventHeadMismatch;;
    reject_if (negb (bool_decide (cp_active candidate = vg_members genesis_basis)))
      PE_ProjectedMismatch;;
    Ok (cp_active candidate, [])
  else
    check_revocations (cp_epoch candidate) ctx (cp_revocations candidate);;
    prev_hash ← check_chain (cp_owner_cert_fingerprint candidate) 0 zero32 (cp_revocations candidate);
    reject_if (if 0 <? cp_event_sequence candidate
               then negb (bool_decide (cp_event_head_hash candidate = prev_hash))
               else negb (bool_decide (cp_event_head_hash candidate = zero32))) PE_EventHeadMismatch;;
    tombstoned ← replay (vg_members genesis_basis) [] (cp_revocations candidate);
    reject_if (negb (bool_decide (cp_active candidate = surviving (vg_members genesis_basis) tombstoned)))
      PE_ProjectedMismatch;;
    Ok (cp_active candidate, cp_revocations candidate).

(** How a failed projection is reported. *)
Definition projection_rejected (e : ProjectionError) : CheckpointAdmissionResult :=
  match e with PE_RevocationValidation r => r | _ => CA_RejectedProjection end.

(** ** The next checkpoint *)

(** A candidate that projects but disagrees on event [ns_event_sequence]. *)
Definition event_fork (candidate : MachineRosterCheckpointV1) (input : NextSeqInput)
    (ctx : AdmissionContext) (other : bytes) : NextSeqDecision :=
  match project_from_state candidate (ns_genesis_basis input) ctx with
  | Ok _ =>
      ND_Mutating (RS_EventForkConflict (ns_epoch input) (ns_event_sequence input)
                     [ns_event_head_hash input; other]) CA_EventForkConflictRecorded
  | Err e => ND_Rejected (projection_rejected e)
  end.

(** The hash of the [n]-th revocation of the candidate, [n > 0]. *)
Definition event_hash_at (candidate : MachineRosterCheckpointV1) (n : nat)
    : Result RosterCryptoError bytes :=
  match cp_revocations candidate !! (n - 1)%nat with
  | Some rev => revocation_event_hash rev
  | None => Err RC_CborEncode               (* the callers check the length *)
  end.

Definition accept_next (candidate : MachineRosterCheckpointV1) (candidate_hash : bytes)
    (input : NextSeqInput) (ctx : AdmissionContext) : NextSeqDecision :=
  match project_from_state candidate (ns_genesis_basis input) ctx with
  | Ok (active, tombstones) =>
      ND_Mutating (RS_Accepted (MkAccepted (cp_epoch candidate) (cp_checkpoint_sequence candidate)
        candidate_hash (cp_prev_checkpoint_hash candidate) (cp_event_sequence candidate)
        (cp_event_head_hash candidate) (ns_event_sequence input) (ns_event_head_hash input)
        (cp_issued_at candidate) (cp_not_after candidate) (cp_owner_cert_fingerprint candidate)
        (ns_genesis_basis input) active tombstones)) CA_Accepted
  | Err e => ND_Rejected (projection_rejected e)
  end.

(** The part of [evaluate_next_seq] for a candidate with more events: does
    its prefix continue the accepted events? *)
Definition evaluate_more_events (candidate : MachineRosterCheckpointV1) (candidate_hash : bytes)
    (input : NextSeqInput) (ctx : AdmissionContext) : NextSeqDecision :=
  let n := Z.to_nat (ns_event_sequence input) in
  if negb (length (ns_tombstones input) =? n)%nat then ND_Rejected CA_RejectedProjection else
  if (length (cp_revocations candidate) <? n)%nat then ND_Rejected CA_RejectedProjection else
  let prefix_exact := bool_decide (take n (cp_revocations candidate) = ns_tombstones input) in
  if negb prefix_exact then
    match (if (n =? 0)%nat then Ok zero32 else event_hash_at candidate n) with
    | Err _ => ND_Rejected CA_RejectedProjection
    | Ok intermediate_head => event_fork candidate input ctx intermediate_head
    end
  else if (0 <? n)%nat then
    match event_hash_at candidate n with
    | Err _ => ND_Rejected CA_RejectedProjection
    | Ok h_n =>
        if negb (bool_decide (h_n = ns_event_head_hash input)) then event_fork candidate input ctx h_n
        else accept_next candidate candidate_hash input ctx
    end
  else accept_next candidate candidate_hash input ctx.

Definition evaluate_next_seq (candidate : MachineRosterCheckpointV1) (candidate_hash : bytes)
    (input : NextSeqInput) (ctx : AdmissionContext) : NextSeqDecision :=
  match checked_add (ns_checkpoint_sequence input) 1 with
  | None => ND_Rejected CA_RejectedGap
  | Some expected_next =>
      if negb (cp_checkpoint_sequence candidate =? expected_next) then ND_Rejected CA_RejectedGap else
      if negb (bool_decide (cp_prev_checkpoint_hash candidate = ns_checkpoint_hash input))
      then ND_Rejected CA_RejectedGap else
      if cp_issued_at candidate <? ns_issued_at input then ND_Rejected CA_RejectedTemporal else
      if cp_event_sequence candidate <? ns_event_sequence input then ND_Rejected CA_RejectedRollback else
      if (cp_event_sequence candidate =? ns_event_sequence input) &&
         negb (bool_decide (cp_event_head_hash candidate = ns_event_head_hash input))
      then event_fork candidate input ctx (cp_event_head_hash candidate)
      else if ns_event_sequence input <? cp_event_sequence candidate
      then evaluate_more_events candidate candidate_hash input ctx
      else accept_next candidate candidate_hash input ctx
  end.

(** ** Admission *)

(** The checks on the state before any signature is verified. *)
Definition preclassify (candidate : MachineRosterCheckpointV1) (current : AcceptedRosterChainState)
    (ctx : AdmissionContext) : Result CheckpointAdmissionResult unit :=
  match current with
  | RS_CheckpointForkConflict _ _ _ => Err CA_CheckpointForkConflictRecorded
  | RS_EventForkConflict _ _ _ => Err CA_EventForkConflictRecorded
  | RS_NoGenesis =>
      reject_if (negb (cp_checkpoint_sequence candidate =? 1)) CA_RejectedGap;;
      reject_if (negb (bool_decide (cp_prev_checkpoint_hash candidate = zero32))) CA_RejectedGap;;
      reject_if (negb (cp_event_sequence candidate =? 0) ||
                 negb (bool_decide (cp_event_head_hash candidate = zero32)) ||
                 negb (bool_decide (cp_revocations candidate = []))) CA_RejectedMalformed
  | RS_Accepted data =>
      reject_if (negb (bool_decide (cp_epoch candidate = ad_epoch data))) CA_EpochMigrationRequired;;
      reject_if (negb (bool_decide (vg_epoch (ad_genesis_basis data) = cp_epoch candidate)))
        CA_RejectedProjection;;
      reject_if (negb (owner_authority_available ctx (ad_owner_cert_fingerprint data) true))
        CA_RejectedOwner
  end.

(** The owner of the candidate is the one of the state, or the bound one. *)
Definition owner_continues (candidate : MachineRosterCheckpointV1) (current : AcceptedRosterChainState)
    (ctx : AdmissionContext) : bool :=
  match current with
  | RS_Accepted data =>
      bool_decide (cp_owner_cert_fingerprint candidate = ad_owner_cert_fingerprint data)
  | RS_NoGenesis =>
      match ac_bound_owner_cert_fingerprint ctx with
      | Some bound_fp => bool_decide (bound_fp = cp_owner_cert_fingerprint candidate)
      | None => true
      end
  | _ => true
  end.

Definition check_freshness (candidate : MachineRosterCheckpointV1) (now : Z)
    : Result CheckpointAdmissionResult unit :=
  future_limit ← ok_or (checked_add now MAX_FUTURE_SKEW_SECS) CA_RejectedTemporal;
  reject_if (future_limit <? cp_issued_at candidate) CA_RejectedTemporal;;
  reject_if (cp_not_after candidate <? now) CA_RejectedTemporal;;
  reject_if (MAX_CHECKPOINT_LIFETIME_SECS <? Z.max 0 (cp_not_after candidate - cp_issued_at candidate))
    CA_RejectedTemporal;;
  reject_if (cp_not_after candidate <? cp_issued_at candidate) CA_RejectedTemporal.

Definition admit_genesis (candidate : MachineRosterCheckpointV1) (candidate_hash : bytes)
    (ctx : AdmissionContext) : Result CheckpointAdmissionResult AcceptedRosterChainState :=
  let basis := MkGenesis (cp_epoch candidate) (cp_active candidate) in
  '(active, tombstones) ← map_err projection_rejected (project_from_state candidate basis ctx);
  Ok (RS_Accepted (MkAccepted (cp_epoch candidate) (cp_checkpoint_sequence candidate) candidate_hash
        (cp_prev_checkpoint_hash candidate) (cp_event_sequence candidate) (cp_event_head_hash candidate)
        0 zero32 (cp_issued_at candidate) (cp_not_after candidate)
        (cp_owner_cert_fingerprint candidate) basis active tombstones)).

(** A second checkpoint with the sequence of the accepted one: a rejection, or
    the fork state. *)
Definition admit_same_sequence (candidate : MachineRosterCheckpointV1) (candidate_hash : bytes)
    (data : AcceptedRosterData) (ctx : AdmissionContext)
    : Result CheckpointAdmissionResult AcceptedRosterChainState :=
  reject_if (bool_decide (candidate_hash = ad_checkpoint_hash data)) CA_IdempotentDuplicate;;
  reject_if (cp_issued_at candidate <? ad_issued_at data) CA_RejectedTemporal;;
  reject_if (negb (bool_decide (cp_prev_checkpoint_hash candidate = ad_prev_checkpoint_hash data)))
    CA_RejectedGap;;
  let fork_basis := if ad_checkpoint_sequence data =? 1
                    then MkGenesis (cp_epoch candidate) (cp_active candidate)
                    else ad_genesis_basis data in
  reject_if (cp_event_sequence candidate <? ad_predecessor_event_sequence data) CA_RejectedRollback;;
  map_err projection_rejected (project_from_state candidate fork_basis ctx);;
  let n_prev := Z.to_nat (ad_predecessor_event_sequence data) in
  intermediate_head ←
    (if (n_prev =? 0)%nat then Ok zero32
     else reject_if (length (cp_revocations candidate) <? n_prev)%nat CA_RejectedProjection;;
          map_err (λ _, CA_RejectedProjection) (event_hash_at candidate n_prev));
  reject_if (negb (bool_decide (intermediate_head = ad_predecessor_event_head_hash data)))
    CA_RejectedProjection;;
  Ok (RS_CheckpointForkConflict (ad_epoch data) (ad_checkpoint_sequence data)
        [ad_checkpoint_hash data; candidate_hash]).

Definition next_seq_input (data : AcceptedRosterData) : NextSeqInput :=
  MkNextSeqInput (ad_epoch data) (ad_checkpoint_sequence data) (ad_checkpoint_hash data)
    (ad_event_sequence data) (ad_event_head_hash data) (ad_issued_at data) (ad_genesis_basis data)
    (ad_tombstones data).

(** The checks every candidate passes before the chain logic; its hash. *)
Definition admission_checks (candidate : MachineRosterCheckpointV1) (current : AcceptedRosterChainState)
    (ctx : AdmissionContext) : Result CheckpointAdmissionResult bytes :=
  reject_if (negb (ac_clock_available ctx)) CA_RejectedTemporal;;
  preclassify candidate current ctx;;
  map_err classify_crypto_error (verify_checkpoint_authority candidate (ac_authority ctx));;
  reject_if (negb (owner_continues candidate current ctx)) CA_RejectedOwner;;
  candidate_hash ← map_err (λ _, CA_RejectedMalformed) (checkpoint_hash candidate);
  check_freshness candidate (ra_effective_now (ac_authority ctx));;
  Ok candidate_hash.

Definition admit_checkpoint (candidate : MachineRosterCheckpointV1) (current : AcceptedRosterChainState)
    (ctx : AdmissionContext) : AcceptedRosterChainState * CheckpointAdmissionResult :=
  match admission_checks candidate current ctx with
  | Err r => (current, r)
  | Ok candidate_hash =>
      match current with
      | RS_NoGenesis =>
          match admit_genesis candidate candidate_hash ctx with
          | Ok state => (state, CA_Accepted)
          | Err r => (current, r)
          end
      | RS_Accepted data =>
          if cp_checkpoint_sequence candidate <? ad_checkpoint_sequence data
          then (current, CA_RejectedReplay)
          else if cp_checkpoint_sequence candidate =? ad_checkpoint_sequence data then
            match admit_same_sequence candidate candidate_hash data ctx with
            | Ok state => (state, CA_CheckpointForkConflictRecorded)
            | Err r => (current, r)
            end
          else
            match evaluate_next_seq candidate candidate_hash (next_seq_input data) ctx with
            | ND_Mutating state result => (state, result)
            | ND_Rejected r => (current, r)
            end
      | _ => (current, CA_RejectedProjection)
      end
  end.

(** ** Replaying stored checkpoints *)

(** [issued_at] plus the skew fits, and the lifetime is within bounds. *)
Definition temporal_envelope (c : MachineRosterCheckpointV1) : Result HistoricalBridgeError unit :=
  reject_if (negb (is_some (checked_add (cp_issued_at c) MAX_FUTURE_SKEW_SECS))) HB_Temporal;;
  reject_if (cp_not_after c <? cp_issued_at c) HB_Temporal;;
  reject_if (MAX_CHECKPOINT_LIFETIME_SECS <? Z.max 0 (cp_not_after c - cp_issued_at c)) HB_Temporal.

(** The two contexts name one household and one owner, whose certificate both
    checkpoints carry. *)
Definition check_bridge_contexts (pred_ctx curr_ctx : AdmissionContext)
    (predecessor_cp current_cp : MachineRosterCheckpointV1) : Result HistoricalBridgeError unit :=
  reject_if (negb (ra_effective_now (ac_authority pred_ctx) =? cp_issued_at predecessor_cp)) HB_Temporal;;
  reject_if (negb (ra_effective_now (ac_authority curr_ctx) =? cp_issued_at current_cp)) HB_Temporal;;
  reject_if (negb (ac_clock_available pred_ctx) || negb (ac_clock_available curr_ctx)) HB_Temporal;;
  reject_if (negb (bool_decide (ra_expected_hh_id (ac_authority pred_ctx) =
                                ra_expected_hh_id (ac_authority curr_ctx))))
    (HB_Crypto RC_HouseholdMismatch);;
  reject_if (negb (bool_decide (ra_hh_pub (ac_authority pred_ctx) = ra_hh_pub (ac_authority curr_ctx))))
    (HB_Crypto RC_HouseholdMismatch);;
  reject_if (negb (bool_decide (ra_expected_p_id (ac_authority pred_ctx) =
                                ra_expected_p_id (ac_authority curr_ctx))))
    (HB_Crypto RC_OwnerIdMismatch);;
  reject_if (negb (bool_decide (ra_expected_p_pub (ac_authority pred_ctx) =
                                ra_expected_p_pub (ac_authority curr_ctx))))
    (HB_Crypto RC_OwnerPubMismatch);;
  match ac_bound_owner_cert_fingerprint pred_ctx, ac_bound_owner_cert_fingerprint curr_ctx with
  | Some pred_fp, Some curr_fp =>
      reject_if (negb (bool_decide (pred_fp = curr_fp))) (HB_Crypto RC_FingerprintMismatch);;
      reject_if (negb (bool_decide (cp_owner_cert_fingerprint predecessor_cp = pred_fp)))
        (HB_Crypto RC_FingerprintMismatch);;
      reject_if (negb (bool_decide (cp_owner_cert_fingerprint current_cp = curr_fp)))
        (HB_Crypto RC_FingerprintMismatch)
  | _, _ => Err (HB_Crypto RC_FingerprintMismatch)
  end.

Definition historical_reapply_next (current_cp predecessor_cp : MachineRosterCheckpointV1)
    (genesis_basis : VerifiedGenesisRoster) (pred_ctx curr_ctx : AdmissionContext)
    : Result HistoricalBridgeError AcceptedRosterChainState :=
  check_bridge_contexts pred_ctx curr_ctx predecessor_cp current_cp;;
  temporal_envelope predecessor_cp;;
  temporal_envelope current_cp;;
  reject_if (negb (bool_decide (cp_epoch predecessor_cp = vg_epoch genesis_basis)))
    (HB_Admission CA_EpochMigrationRequired);;
  reject_if (negb (bool_decide (cp_epoch current_cp = cp_epoch predecessor_cp)))
    (HB_Admission CA_EpochMigrationRequired);;
  map_err HB_Crypto (verify_checkpoint_full_historical predecessor_cp (ac_authority pred_ctx));;
  map_err HB_Crypto (verify_checkpoint_full_historical current_cp (ac_authority curr_ctx));;
  curr_hash ← map_err HB_Crypto (checkpoint_hash current_cp);
  '(_, pred_tombstones) ← map_err HB_Projection
     (project_from_state predecessor_cp genesis_basis pred_ctx);
  pred_hash ← map_err HB_Crypto (checkpoint_hash predecessor_cp);
  match evaluate_next_seq current_cp curr_hash
          (MkNextSeqInput (cp_epoch predecessor_cp) (cp_checkpoint_sequence predecessor_cp) pred_hash
             (cp_event_sequence predecessor_cp) (cp_event_head_hash predecessor_cp)
             (cp_issued_at predecessor_cp) genesis_basis pred_tombstones) curr_ctx with
  | ND_Mutating state CA_Accepted => Ok state
  | ND_Mutating _ result => Err (HB_Admission result)
  | ND_Rejected r => Err (HB_Admission r)
  end.

(** ** Currency *)

Definition admit_current_accepted_data (state : AcceptedRosterChainState) (ctx : AdmissionContext)
    : Result UnavailableReason AcceptedRosterData :=
  reject_if (negb (ac_clock_available ctx)) UR_ClockStateUnavailable;;
  match state with
  | RS_NoGenesis => Err UR_NoGenesis
  | RS_CheckpointForkConflict _ _ _ => Err UR_CheckpointForkConflict
  | RS_EventForkConflict _ _ _ => Err UR_EventForkConflict
  | RS_Accepted data =>
      reject_if (negb (owner_available_for_currency ctx (ad_owner_cert_fingerprint data)))
        UR_OwnerAuthorityUnavailable;;
      reject_if (ad_not_after data <? ra_effective_now (ac_authority ctx)) UR_CheckpointStale;;
      Ok data
  end.

Definition derive_machine_currency (state : AcceptedRosterChainState) (m_id : MachineId)
    (ctx : AdmissionContext) : MachineCurrencyResult :=
  match admit_current_accepted_data state ctx with
  | Err reason => MC_Unavailable reason
  | Ok data =>
      match iter_find (λ r, bool_decide (rr_m_id r = m_id)) (ad_tombstones data) with
      | Some rev => MC_Revoked rev
      | None =>
          match iter_find (λ m, bool_decide (mm_m_id m = m_id)) (ad_active data) with
          | Some member => MC_Active member
          | None => MC_NotListed
          end
      end
  end.

(** [RosterSnapshotView::project] *)
Definition project (hh_id : HouseholdId) (data : AcceptedRosterData) : RosterSnapshotView :=
  MkRosterSnapshotView hh_id (ad_checkpoint_hash data) (ad_checkpoint_sequence data)
    (ad_event_head_hash data) (ad_not_after data)
    ((λ m, MkRosterMemberView (mm_m_id m) (mm_m_pub m) (mm_machine_cert_fingerprint m)) <$> ad_active data)
    (rr_m_id <$> ad_tombstones data).
End authority.
