(* ===== verification/RosterProofs.v ===== *)
(** * The machine roster: what admission preserves

    The projection of a checkpoint in declarative form, the cases of
    [admit_checkpoint], and the invariant of the chain states it reaches. *)

From stdpp Require Import base gmap sets list strings.
From Stdlib Require Import ZArith Lia Ascii.
From S2P Require Import Prelude.
From S2P Require Import Cbor.
From S2P Require Import CborProofs.
From S2P Require Import Canonical.
From S2P Require Import Crypto.
From S2P Require Import RosterView.
From S2P Require Import Ledger.
From S2P Require Import Household.
From S2P Require Import Roster.
From S2P Require Import RosterAdmit.

Open Scope Z_scope.

Abbreviation revoked_ids l := (rr_m_id <$> l).
Abbreviation member_ids l := (mm_m_id <$> l).

Section proofs.
Context {CC : CborCrate} {SC : SessionCrypto} {HC : HouseholdCrypto} {DD : DerivedDecoders}.

(** ** The loops *)

(** A member the household root has certified. *)
Definition certified (hh_pub : P256PublicKey) (hh_id : HouseholdId) (m : MachineRosterMemberV1) : Prop :=
  ∃ cert, validate_member_provenance m hh_pub hh_id = Ok cert.

Lemma check_members_Ok hh_pub hh_id l u :
  check_members hh_pub hh_id l = Ok u → Forall (certified hh_pub hh_id) l.
Proof.
  revert u. induction l as [|m l IH]; intros u; [by constructor|]. cbn [check_members].
  intros (cert & Hm%map_err_Ok & Hl)%bind_Ok. constructor; [by exists cert|by eapply IH].
Qed.

Lemma check_duplicates_Ok ids pubs fps l u :
  check_duplicates ids pubs fps l = Ok u →
  NoDup (member_ids l) ∧ (∀ i, i ∈ member_ids l → i ∉ ids) ∧
  NoDup (mm_m_pub <$> l) ∧ (∀ p, p ∈ (mm_m_pub <$> l) → p ∉ pubs) ∧
  NoDup (mm_machine_cert_fingerprint <$> l) ∧ (∀ p, p ∈ (mm_machine_cert_fingerprint <$> l) → p ∉ fps).
Proof.
  revert ids pubs fps u. induction l as [|m l IH]; intros ids pubs fps u H.
  { split_and!; cbn; [constructor|..]; try (by constructor); by intros ? ?%not_elem_of_nil. }
  cbn [check_duplicates] in H. res_inv. apply IH in H as (H1 & H2 & H3 & H4 & H5 & H6).
  rewrite !fmap_cons, !NoDup_cons.
  split_and!; try done.
  - intros Hin. apply (H2 _ Hin). left.
  - intros i [->|Hi]%elem_of_cons; [done|]. intros Hx. apply (H2 _ Hi). by right.
  - intros Hin. apply (H4 _ Hin). left.
  - intros i [->|Hi]%elem_of_cons; [done|]. intros Hx. apply (H4 _ Hi). by right.
  - intros Hin. apply (H6 _ Hin). left.
  - intros i [->|Hi]%elem_of_cons; [done|]. intros Hx. apply (H6 _ Hi). by right.
Qed.

(** A revocation the owner of [ctx] signed for this epoch. *)
Definition authorized (epoch : bytes) (ctx : RosterAuthorityContext) (r : MachineRosterRevocationV1) : Prop :=
  rr_v r = REVOCATION_VERSION ∧ rr_kind r = REVOCATION_KIND ∧
  rr_epoch r = epoch ∧ verify_revocation_authority r ctx = Ok tt.

Lemma check_revocations_Ok epoch ctx l u :
  check_revocations epoch ctx l = Ok u → Forall (authorized epoch (ac_authority ctx)) l.
Proof.
  revert u. induction l as [|r l IH]; intros u; [by constructor|]. cbn [check_revocations].
  intros ([] & Hr%map_err_Ok & Hl)%bind_Ok. constructor; [|by eapply IH].
  unfold validate_embedded_revocation in Hr. res_inv. apply Z.eqb_eq in H.
  split_and!; try done.
Qed.

Lemma check_chain_app fp i p l1 l2 :
  check_chain fp i p (l1 ++ l2) = check_chain fp i p l1 ≫= λ h, check_chain fp (i + length l1) h l2.
Proof.
  revert i p. induction l1 as [|r l1 IH]; intros i p; cbn [List.app check_chain].
  { cbn [length mbind Result_bind]. by rewrite Nat.add_0_r. }
  destruct (negb (_ =? _)); cbn [reject_if mbind Result_bind]; [done|].
  destruct (negb (bool_decide (rr_prev_event_hash r = p))); cbn [reject_if mbind Result_bind]; [done|].
  destruct (negb (bool_decide _)); cbn [reject_if mbind Result_bind]; [done|].
  destruct (map_err _ _) as [h|]; cbn [mbind Result_bind]; [|done].
  rewrite IH. cbn [length]. by replace (S i + length l1)%nat with (i + S (length l1))%nat by lia.
Qed.

(** The head after a prefix of the chain. *)
Lemma check_chain_take fp l h n :
  check_chain fp 0 zero32 l = Ok h → ∃ hn, check_chain fp 0 zero32 (take n l) = Ok hn.
Proof.
  intros H. rewrite <- (take_drop n l), check_chain_app in H. apply bind_Ok in H as (hn & Hn & _). eauto.
Qed.

Lemma check_chain_last fp i p l r h :
  check_chain fp i p (l ++ [r]) = Ok h → revocation_event_hash r = Ok h ∧ check_chain fp i p l = Ok (rr_prev_event_hash r).
Proof.
  rewrite check_chain_app. intros (h1 & Hl & H)%bind_Ok. cbn [check_chain] in H.
  apply bind_Ok in H as (_ & _ & H). apply bind_Ok in H as (_ & Hp%reject_if_Ok & H).
  apply bind_Ok in H as (_ & _ & H). apply bind_Ok in H as (h2 & Hh%map_err_Ok & [= <-]).
  apply negb_false_iff, bool_decide_eq_true in Hp. by rewrite Hh, Hl, Hp.
Qed.

Lemma replay_Ok members ts l ts' :
  replay members ts l = Ok ts' →
  NoDup (revoked_ids l) ∧ (∀ i, i ∈ ts' ↔ i ∈ ts ∨ i ∈ revoked_ids l) ∧ (∀ i, i ∈ revoked_ids l → i ∉ ts) ∧
  Forall (λ r, ∃ m, m ∈ members ∧ mm_m_id m = rr_m_id r ∧ mm_m_pub m = rr_m_pub r ∧
                    mm_machine_cert_fingerprint m = rr_machine_cert_fingerprint r) l.
Proof.
  revert ts. induction l as [|r l IH]; intros ts H.
  { cbn in H. injection H as <-. split_and!; [constructor| |by intros ? ?%not_elem_of_nil|constructor].
    intros i. cbn. rewrite elem_of_nil. naive_solver. }
  cbn [replay] in H. apply bind_Ok in H as (_ & Hn%reject_if_Ok & H). apply bool_decide_eq_false in Hn.
  apply bind_Ok in H as (m & Hm%ok_or_Ok & H). res_inv. apply IH in H as (H1 & H2 & H3 & H4).
  apply iter_find_Some in Hm as [Hin Hid]. apply bool_decide_eq_true in Hid.
  rewrite fmap_cons, NoDup_cons. split_and!.
  - intros Hx. apply (H3 _ Hx). left.
  - done.
  - intros i. rewrite H2, !elem_of_cons. naive_solver.
  - intros i [->|Hi]%elem_of_cons; [done|]. intros Hx. apply (H3 _ Hi). by right.
  - constructor; [|done]. exists m. by split_and!.
Qed.

Lemma surviving_ext members ts ts' :
  (∀ i, i ∈ ts ↔ i ∈ ts') → surviving members ts = surviving members ts'.
Proof.
  intros H. unfold surviving. apply List.filter_ext. intros m. f_equal. apply bool_decide_ext, H.
Qed.

Lemma surviving_nil members : surviving members [] = members.
Proof.
  unfold surviving. rewrite filter_all_true; [done|]. apply Forall_forall. intros m _.
  rewrite bool_decide_false; [done|]. apply not_elem_of_nil.
Qed.

Lemma elem_of_surviving members ts m : m ∈ surviving members ts ↔ m ∈ members ∧ mm_m_id m ∉ ts.
Proof.
  unfold surviving. rewrite list_elem_of_In, List.filter_In, negb_true_iff, bool_decide_eq_false.
  by rewrite <- list_elem_of_In.
Qed.

(** ** Projection *)

(** What a successful projection says of a checkpoint: its members are
    certified and distinct, its revocations are signed, chained from zero to
    its event head and each of a different genesis member, and its members are
    the genesis members not revoked. *)
Record Projects (c : MachineRosterCheckpointV1) (basis : VerifiedGenesisRoster) (ctx : AdmissionContext) : Prop := {
  pj_certified : Forall (certified (ra_hh_pub (ac_authority ctx)) (ra_expected_hh_id (ac_authority ctx))) (cp_active c);
  pj_ids : NoDup (member_ids (cp_active c));
  pj_count : cp_event_sequence c = Z.of_nat (length (cp_revocations c));
  pj_authorized : Forall (authorized (cp_epoch c) (ac_authority ctx)) (cp_revocations c);
  pj_chain : check_chain (cp_owner_cert_fingerprint c) 0 zero32 (cp_revocations c) = Ok (cp_event_head_hash c);
  pj_distinct : NoDup (revoked_ids (cp_revocations c));
  pj_targets : Forall (λ r, ∃ m, m ∈ vg_members basis ∧ mm_m_id m = rr_m_id r ∧ mm_m_pub m = rr_m_pub r ∧
                    mm_machine_cert_fingerprint m = rr_machine_cert_fingerprint r) (cp_revocations c);
  pj_active : cp_active c = surviving (vg_members basis) (revoked_ids (cp_revocations c));
}.

Lemma project_Ok c basis ctx a t :
  project_from_state c basis ctx = Ok (a, t) →
  a = cp_active c ∧ t = cp_revocations c ∧ Projects c basis ctx ∧
  (cp_checkpoint_sequence c = 1 → cp_revocations c = []).
Proof.
  unfold project_from_state. intros H.
  apply bind_Ok in H as ([] & Hm%check_members_Ok & H).
  apply bind_Ok in H as ([] & Hd & H). apply check_duplicates_Ok in Hd as (Hids & _).
  apply bind_Ok in H as ([] & _ & H). apply bind_Ok in H as ([] & Hc & H).
  apply reject_if_Ok, negb_false_iff, Z.eqb_eq in Hc.
  destruct (Z.eqb_spec (cp_checkpoint_sequence c) 1) as [Hs|Hs].
  - apply bind_Ok in H as ([] & Hg%reject_if_Ok & H). apply bind_Ok in H as ([] & Ha%reject_if_Ok & [= <- <-]).
    apply orb_false_iff in Hg as [[Hr _]%orb_false_iff Hh].
    apply negb_false_iff, bool_decide_eq_true in Hr, Hh, Ha.
    rewrite Hr. split_and!; try done. split; rewrite ?Hr, ?Hh; try done; try constructor.
    + by rewrite <- Hr.
    + cbn. by rewrite surviving_nil.
  - apply bind_Ok in H as ([] & Hr%check_revocations_Ok & H).
    apply bind_Ok in H as (h & Hch & H). apply bind_Ok in H as ([] & Hh%reject_if_Ok & H).
    apply bind_Ok in H as (ts & Hre & H). apply bind_Ok in H as ([] & Ha & H).
    apply reject_if_Ok, negb_false_iff, bool_decide_eq_true in Ha. injection H as <- <-.
    apply replay_Ok in Hre as (Hn & Hts & _ & Htg).
    split_and!; try done. split; try done.
    + destruct (Z.ltb_spec 0 (cp_event_sequence c)).
      * apply negb_false_iff, bool_decide_eq_true in Hh. congruence.
      * apply negb_false_iff, bool_decide_eq_true in Hh.
        destruct (cp_revocations c); [|cbn in Hc; lia]. cbn. by rewrite Hh.
    + rewrite Ha. apply surviving_ext. intros i. rewrite Hts, elem_of_nil. naive_solver.
Qed.

(** ** The cases of admission *)

(** The state a checkpoint leaves when it is accepted after [input]. *)
Definition next_data (c : MachineRosterCheckpointV1) (h : bytes) (input : NextSeqInput) : AcceptedRosterData :=
  MkAccepted (cp_epoch c) (cp_checkpoint_sequence c) h (cp_prev_checkpoint_hash c) (cp_event_sequence c)
    (cp_event_head_hash c) (ns_event_sequence input) (ns_event_head_hash input) (cp_issued_at c)
    (cp_not_after c) (cp_owner_cert_fingerprint c) (ns_genesis_basis input) (cp_active c) (cp_revocations c).

Definition genesis_data (c : MachineRosterCheckpointV1) (h : bytes) : AcceptedRosterData :=
  MkAccepted (cp_epoch c) (cp_checkpoint_sequence c) h (cp_prev_checkpoint_hash c) (cp_event_sequence c)
    (cp_event_head_hash c) 0 zero32 (cp_issued_at c) (cp_not_after c) (cp_owner_cert_fingerprint c)
    (MkGenesis (cp_epoch c) (cp_active c)) (cp_active c) (cp_revocations c).

(** The checkpoint is the next one and its events include the accepted ones. *)
Record Follows (c : MachineRosterCheckpointV1) (input : NextSeqInput) (ctx : AdmissionContext) : Prop := {
  fo_sequence : cp_checkpoint_sequence c = ns_checkpoint_sequence input + 1;
  fo_fits : cp_checkpoint_sequence c < u64_modulus;
  fo_prev : cp_prev_checkpoint_hash c = ns_checkpoint_hash input;
  fo_issued : ns_issued_at input <= cp_issued_at c;
  fo_events : ns_event_sequence input <= cp_event_sequence c;
  fo_same : cp_event_sequence c = ns_event_sequence input → cp_event_head_hash c = ns_event_head_hash input;
  fo_more : ns_event_sequence input < cp_event_sequence c →
    length (ns_tombstones input) = Z.to_nat (ns_event_sequence input) ∧
    take (length (ns_tombstones input)) (cp_revocations c) = ns_tombstones input ∧
    (0 < length (ns_tombstones input) →
      event_hash_at c (length (ns_tombstones input)) = Ok (ns_event_head_hash input))%nat;
  fo_projects : Projects c (ns_genesis_basis input) ctx;
}.

(** The checkpoint is the next one, but its events are not those accepted. *)
Record Diverges (c : MachineRosterCheckpointV1) (input : NextSeqInput) (ctx : AdmissionContext) : Prop := {
  dv_sequence : cp_checkpoint_sequence c = ns_checkpoint_sequence input + 1;
  dv_prev : cp_prev_checkpoint_hash c = ns_checkpoint_hash input;
  dv_projects : Projects c (ns_genesis_basis input) ctx;
  dv_events :
    (cp_event_sequence c = ns_event_sequence input ∧ cp_event_head_hash c ≠ ns_event_head_hash input) ∨
    take (Z.to_nat (ns_event_sequence input)) (cp_revocations c) ≠ ns_tombstones input ∨
    (∃ h, event_hash_at c (Z.to_nat (ns_event_sequence input)) = Ok h ∧ h ≠ ns_event_head_hash input);
}.

Lemma accept_next_cases c h input ctx s r :
  accept_next c h input ctx = ND_Mutating s r →
  r = CA_Accepted ∧ s = RS_Accepted (next_data c h input) ∧ Projects c (ns_genesis_basis input) ctx.
Proof.
  unfold accept_next. destruct (project_from_state c _ ctx) as [[a t]|e] eqn:Hp; [|done].
  apply project_Ok in Hp as (-> & -> & HP & _). by intros [= <- <-].
Qed.

Lemma event_fork_cases c input ctx other s r :
  event_fork c input ctx other = ND_Mutating s r →
  r = CA_EventForkConflictRecorded ∧ Projects c (ns_genesis_basis input) ctx ∧
  s = RS_EventForkConflict (ns_epoch input) (ns_event_sequence input) [ns_event_head_hash input; other].
Proof.
  unfold event_fork. destruct (project_from_state c _ ctx) as [[a t]|e] eqn:Hp; [|done].
  apply project_Ok in Hp as (_ & _ & HP & _). by intros [= <- <-].
Qed.

Lemma evaluate_cases c h input ctx s r :
  evaluate_next_seq c h input ctx = ND_Mutating s r →
  (r = CA_Accepted ∧ s = RS_Accepted (next_data c h input) ∧ Follows c input ctx) ∨
  (r = CA_EventForkConflictRecorded ∧ Diverges c input ctx ∧
   ∃ hashes, s = RS_EventForkConflict (ns_epoch input) (ns_event_sequence input) hashes).
Proof.
  unfold evaluate_next_seq.
  destruct (checked_add _ 1) as [n|] eqn:Hn; [|done]. apply checked_add_Some in Hn as [-> Hfit].
  destruct (Z.eqb_spec (cp_checkpoint_sequence c) (ns_checkpoint_sequence input + 1)) as [Hs|]; [|done].
  case_bool_decide as Hprev; [|done]. cbn [negb].
  destruct (Z.ltb_spec (cp_issued_at c) (ns_issued_at input)) as [|Hi]; [done|].
  destruct (Z.ltb_spec (cp_event_sequence c) (ns_event_sequence input)) as [|He]; [done|].
  destruct (Z.eqb_spec (cp_event_sequence c) (ns_event_sequence input)) as [Heq|Hne]; cbn [andb].
  { case_bool_decide as Hh; cbn [negb].
    - destruct (Z.ltb_spec (ns_event_sequence input) (cp_event_sequence c)); [lia|].
      intros (-> & -> & HP)%accept_next_cases. left. split_and!; [done..|]. split; try done; lia.
    - intros (-> & HP & ->)%event_fork_cases. right. split_and!; [done| |eauto]. split; auto. }
  destruct (Z.ltb_spec (ns_event_sequence input) (cp_event_sequence c)) as [Hlt|]; [|lia].
  unfold evaluate_more_events. set (k := Z.to_nat (ns_event_sequence input)).
  destruct (Nat.eqb_spec (length (ns_tombstones input)) k) as [Hk|]; cbn [negb]; [|done].
  destruct (Nat.ltb_spec (length (cp_revocations c)) k) as [|Hlen]; [done|].
  case_bool_decide as Hpre; cbn [negb].
  - assert (∀ s r, (0 < k → event_hash_at c k = Ok (ns_event_head_hash input))%nat →
      accept_next c h input ctx = ND_Mutating s r →
      r = CA_Accepted ∧ s = RS_Accepted (next_data c h input) ∧ Follows c input ctx) as Hacc.
    { intros s' r' Hh (-> & -> & HP)%accept_next_cases. split_and!; [done..|].
      split; try done; [lia..|]. intros _. rewrite Hk. by split_and!. }
    destruct (Nat.ltb_spec 0 k) as [Hk0|Hk0]; [|intros ?; left; apply Hacc; [lia|done]].
    destruct (event_hash_at c k) as [hn|] eqn:Hhn; [|done]. case_bool_decide as Hhd; cbn [negb].
    + subst hn. intros ?. left. by apply Hacc.
    + intros (-> & HP & ->)%event_fork_cases. right. split_and!; [done| |eauto]. split; eauto.
  - destruct (if (k =? 0)%nat then Ok zero32 else event_hash_at c k) as [hn|]; [|done].
    intros (-> & HP & ->)%event_fork_cases. right. split_and!; [done| |eauto]. split; auto.
Qed.

(** A second, different checkpoint for the accepted sequence number. *)
Record Conflicts (c : MachineRosterCheckpointV1) (h : bytes) (d : AcceptedRosterData) : Prop := {
  cf_sequence : cp_checkpoint_sequence c = ad_checkpoint_sequence d;
  cf_prev : cp_prev_checkpoint_hash c = ad_prev_checkpoint_hash d;
  cf_hash : h ≠ ad_checkpoint_hash d;
}.

Inductive Admission (c : MachineRosterCheckpointV1) (h : bytes) (ctx : AdmissionContext)
    : AcceptedRosterChainState → AcceptedRosterChainState → CheckpointAdmissionResult → Prop :=
| ad_genesis :
    Projects c (MkGenesis (cp_epoch c) (cp_active c)) ctx →
    Admission c h ctx RS_NoGenesis (RS_Accepted (genesis_data c h)) CA_Accepted
| ad_next d :
    Follows c (next_seq_input d) ctx →
    Admission c h ctx (RS_Accepted d) (RS_Accepted (next_data c h (next_seq_input d))) CA_Accepted
| ad_checkpoint_fork d :
    Conflicts c h d →
    Admission c h ctx (RS_Accepted d)
      (RS_CheckpointForkConflict (ad_epoch d) (ad_checkpoint_sequence d) [ad_checkpoint_hash d; h])
      CA_CheckpointForkConflictRecorded
| ad_event_fork d hashes :
    Diverges c (next_seq_input d) ctx →
    Admission c h ctx (RS_Accepted d) (RS_EventForkConflict (ad_epoch d) (ad_event_sequence d) hashes)
      CA_EventForkConflictRecorded.

Lemma same_sequence_cases c h d ctx s :
  admit_same_sequence c h d ctx = Ok s →
  cp_checkpoint_sequence c = ad_checkpoint_sequence d →
  Conflicts c h d ∧
  s = RS_CheckpointForkConflict (ad_epoch d) (ad_checkpoint_sequence d) [ad_checkpoint_hash d; h].
Proof.
  unfold admit_same_sequence. intros H Hs.
  apply bind_Ok in H as (? & Hh%reject_if_Ok & H). apply bind_Ok in H as (? & _ & H).
  apply bind_Ok in H as (? & Hp%reject_if_Ok & H). apply bind_Ok in H as (? & _ & H).
  apply bind_Ok in H as (? & _ & H). apply bind_Ok in H as (? & _ & H).
  apply bind_Ok in H as (? & _ & [= <-]).
  apply bool_decide_eq_false in Hh. apply negb_false_iff, bool_decide_eq_true in Hp. done.
Qed.

(** The results that leave the state as it was. *)
Definition rejects (r : CheckpointAdmissionResult) : bool :=
  match r with CA_Accepted => false | _ => true end.

Lemma preclassify_rejects c s ctx r : preclassify c s ctx = Err r → rejects r = true.
Proof.
  destruct s; cbn [preclassify]; intros H; try (by injection H as <-);
    repeat (apply bind_Err in H as [H|(? & _ & H)]); apply reject_if_Err in H as [_ <-]; done.
Qed.

Lemma freshness_rejects c now r : check_freshness c now = Err r → r = CA_RejectedTemporal.
Proof.
  unfold check_freshness. intros [H|(? & _ & H)]%bind_Err; [by apply ok_or_Err in H as [_ <-]|].
  repeat (apply bind_Err in H as [H|(? & _ & H)]); apply reject_if_Err in H as [_ <-]; done.
Qed.

Lemma map_err_Err {E F A} (g : E → F) (m : Result E A) e : map_err g m = Err e → ∃ e', m = Err e' ∧ e = g e'.
Proof. destruct m; [done|]. cbn. intros [= <-]. eauto. Qed.

Lemma classify_rejects e : rejects (classify_crypto_error e) = true.
Proof. by destruct e. Qed.

Lemma admission_checks_rejects c s ctx r : admission_checks c s ctx = Err r → rejects r = true.
Proof.
  unfold admission_checks.
  intros [[_ <-]%reject_if_Err|(? & _ & H)]%bind_Err; [done|].
  apply bind_Err in H as [H|(? & _ & H)]; [by eapply preclassify_rejects|].
  apply bind_Err in H as [(e & _ & ->)%map_err_Err|(? & _ & H)]; [apply classify_rejects|].
  apply bind_Err in H as [[_ <-]%reject_if_Err|(? & _ & H)]; [done|].
  apply bind_Err in H as [(e & _ & ->)%map_err_Err|(? & _ & H)]; [done|].
  by apply bind_Err in H as [->%freshness_rejects|(? & _ & ?)].
Qed.

Lemma check_revocations_rejects epoch ctx l e :
  check_revocations epoch ctx l = Err e → rejects (projection_rejected e) = true.
Proof.
  induction l as [|r l IH]; [done|]. cbn [check_revocations].
  intros [(e' & He & ->)%map_err_Err|(? & _ & H)]%bind_Err; [|by apply IH]. cbn.
  unfold validate_embedded_revocation in He.
  apply bind_Err in He as [[_ <-]%reject_if_Err|(? & _ & He)]; [done|].
  apply bind_Err in He as [[_ <-]%reject_if_Err|(? & _ & He)]; [done|].
  apply map_err_Err in He as (e & _ & ->). apply classify_rejects.
Qed.

Lemma check_chain_Err fp i p l e : check_chain fp i p l = Err e → projection_rejected e = CA_RejectedProjection.
Proof.
  revert i p. induction l as [|r l IH]; intros i p; [done|]. cbn [check_chain].
  do 3 (intros [[_ <-]%reject_if_Err|(? & _ & H)]%bind_Err; [done|]; revert H).
  intros [(? & _ & ->)%map_err_Err|(? & _ & H)]%bind_Err; [done|]. by eapply IH.
Qed.

Lemma replay_Err members ts l e : replay members ts l = Err e → projection_rejected e = CA_RejectedProjection.
Proof.
  revert ts. induction l as [|r l IH]; intros ts; [done|]. cbn [replay].
  intros [[_ <-]%reject_if_Err|(? & _ & H)]%bind_Err; [done|].
  apply bind_Err in H as [[_ <-]%ok_or_Err|(? & _ & H)]; [done|].
  apply bind_Err in H as [[_ <-]%reject_if_Err|(? & _ & H)]; [done|].
  apply bind_Err in H as [[_ <-]%reject_if_Err|(? & _ & H)]; [done|]. by eapply IH.
Qed.

Lemma check_members_Err hh_pub hh_id l e :
  check_members hh_pub hh_id l = Err e → projection_rejected e = CA_RejectedProjection.
Proof.
  induction l as [|m l IH]; [done|]. cbn [check_members].
  intros [(? & _ & ->)%map_err_Err|(? & _ & H)]%bind_Err; [done|by apply IH].
Qed.

Lemma check_duplicates_Err ids pubs fps l e :
  check_duplicates ids pubs fps l = Err e → projection_rejected e = CA_RejectedProjection.
Proof.
  revert ids pubs fps. induction l as [|m l IH]; intros ids pubs fps; [done|]. cbn [check_duplicates].
  do 3 (intros [[_ <-]%reject_if_Err|(? & _ & H)]%bind_Err; [done|]; revert H). apply IH.
Qed.

Lemma check_sorted_Err l e : check_sorted l = Err e → projection_rejected e = CA_RejectedProjection.
Proof.
  induction l as [|m [|m' l] IH]; [done..|]. cbn [check_sorted].
  intros [[_ <-]%reject_if_Err|(? & _ & H)]%bind_Err; [done|]. by apply IH.
Qed.

Lemma project_rejects c basis ctx e :
  project_from_state c basis ctx = Err e → rejects (projection_rejected e) = true.
Proof.
  unfold project_from_state.
  intros [->%check_members_Err|(? & _ & H)]%bind_Err; [done|].
  apply bind_Err in H as [->%check_duplicates_Err|(? & _ & H)]; [done|].
  apply bind_Err in H as [->%check_sorted_Err|(? & _ & H)]; [done|].
  apply bind_Err in H as [[_ <-]%reject_if_Err|(? & _ & H)]; [done|].
  destruct (_ =? 1).
  - do 2 (apply bind_Err in H as [[_ <-]%reject_if_Err|(? & _ & H)]; [done|]). done.
  - apply bind_Err in H as [H|(? & _ & H)]; [by eapply check_revocations_rejects|].
    apply bind_Err in H as [->%check_chain_Err|(? & _ & H)]; [done|].
    apply bind_Err in H as [[_ <-]%reject_if_Err|(? & _ & H)]; [done|].
    apply bind_Err in H as [->%replay_Err|(? & _ & H)]; [done|].
    apply bind_Err in H as [[_ <-]%reject_if_Err|(? & _ & H)]; done.
Qed.

Lemma accept_next_rejects c h input ctx r : accept_next c h input ctx = ND_Rejected r → rejects r = true.
Proof.
  unfold accept_next. destruct (project_from_state c _ ctx) as [[a t]|e] eqn:Hp; [done|].
  intros [= <-]. by eapply project_rejects.
Qed.

Lemma event_fork_rejects c input ctx other r : event_fork c input ctx other = ND_Rejected r → rejects r = true.
Proof.
  unfold event_fork. destruct (project_from_state c _ ctx) as [[a t]|e] eqn:Hp; [done|].
  intros [= <-]. by eapply project_rejects.
Qed.

Lemma evaluate_rejects c h input ctx r : evaluate_next_seq c h input ctx = ND_Rejected r → rejects r = true.
Proof.
  unfold evaluate_next_seq, evaluate_more_events.
  repeat case_match; try (by intros [= <-]); by eauto using accept_next_rejects, event_fork_rejects.
Qed.

Lemma same_sequence_rejects c h d ctx r : admit_same_sequence c h d ctx = Err r → rejects r = true.
Proof.
  unfold admit_same_sequence.
  do 3 (intros [[_ <-]%reject_if_Err|(? & _ & H)]%bind_Err; [done|]; revert H).
  intros [[_ <-]%reject_if_Err|(? & _ & H)]%bind_Err; [done|].
  apply bind_Err in H as [(e & He & ->)%map_err_Err|(? & _ & H)]; [by eapply project_rejects|].
  apply bind_Err in H as [H|(? & _ & H)].
  - destruct (_ =? 0)%nat; [done|].
    apply bind_Err in H as [[_ <-]%reject_if_Err|(? & _ & H)]; [done|].
    by apply map_err_Err in H as (e & _ & ->).
  - by apply bind_Err in H as [[_ <-]%reject_if_Err|(? & _ & ?)].
Qed.

(** Either the candidate is answered without an effect, or it passed every
    check and takes one of the steps of [Admission]. *)
Lemma admit_cases c s ctx s' r :
  admit_checkpoint c s ctx = (s', r) →
  (s' = s ∧ r ≠ CA_Accepted) ∨ ∃ h, admission_checks c s ctx = Ok h ∧ Admission c h ctx s s' r.
Proof.
  unfold admit_checkpoint.
  assert (∀ r, rejects r = true → r ≠ CA_Accepted) as Hr by (by intros []).
  destruct (admission_checks c s ctx) as [h|e] eqn:Hc.
  2: { intros [= <- <-]. left. split; [done|]. by eapply Hr, admission_checks_rejects. }
  destruct s as [|d| |].
  - destruct (admit_genesis c h ctx) as [st|e] eqn:Hg; intros [= <- <-].
    + right. exists h. split; [done|]. unfold admit_genesis in Hg.
      apply bind_Ok in Hg as ([a t] & (-> & -> & HP & _)%map_err_Ok%project_Ok & [= <-]). by constructor.
    + left. split; [done|]. unfold admit_genesis in Hg.
      apply bind_Err in Hg as [(e' & He & ->)%map_err_Err|([a t] & _ & ?)]; [|done].
      by eapply Hr, project_rejects.
  - destruct (_ <? _); [intros [= <- <-]; by left|].
    destruct (Z.eqb_spec (cp_checkpoint_sequence c) (ad_checkpoint_sequence d)) as [Hs|Hs].
    + destruct (admit_same_sequence c h d ctx) as [st|e] eqn:Hg; intros [= <- <-].
      * right. exists h. split; [done|]. apply same_sequence_cases in Hg as [? ->]; [by constructor|done].
      * left. split; [done|]. by eapply Hr, same_sequence_rejects.
    + destruct (evaluate_next_seq c h _ ctx) as [st res|e] eqn:Hg; intros [= <- <-].
      * right. exists h. split; [done|].
        apply evaluate_cases in Hg as [(-> & -> & ?)|(-> & ? & hashes & ->)]; by constructor.
      * left. split; [done|]. by eapply Hr, evaluate_rejects.
  - intros [= <- <-]. by left.
  - intros [= <- <-]. by left.
Qed.
End proofs.
