(* ===== verification/RosterInv.v ===== *)
(** * The machine roster: invariant and history

    The invariant of accepted rosters, its preservation by admission, and what
    a sequence of admissions can and cannot change. Equal event heads mean
    equal events unless SHA-256 collides on two revocations presented; the
    encoding that is hashed is injective. *)

From stdpp Require Import base gmap sets list strings.
From Stdlib Require Import ZArith Lia Ascii.
From S2P Require Import Prelude.
From S2P Require Import Cbor.
From S2P Require Import CborProofs.
From S2P Require Import Canonical.
From S2P Require Import Crypto.
From S2P Require Import RosterView.
From S2P Require Import Ledger.
From S2P Require Import Household.
From S2P Require Import Roster.
From S2P Require Import RosterAdmit.
From S2P Require Import RosterProofs.

Open Scope Z_scope.

Section inv.
Context {CC : CborCrate} {SC : SessionCrypto} {HC : HouseholdCrypto} {DD : DerivedDecoders}.

Section household.
(** The household the roster is for. *)
Context (hh_id : HouseholdId) (hh_pub : P256PublicKey).

Definition ctx_for (ctx : AdmissionContext) : Prop :=
  ra_expected_hh_id (ac_authority ctx) = hh_id ∧ ra_hh_pub (ac_authority ctx) = hh_pub.

Record RosterOk (d : AcceptedRosterData) : Prop := {
  ro_sequence : 1 <= ad_checkpoint_sequence d < u64_modulus;
  ro_epoch : vg_epoch (ad_genesis_basis d) = ad_epoch d;
  ro_count : ad_event_sequence d = Z.of_nat (length (ad_tombstones d));
  ro_chain : check_chain (ad_owner_cert_fingerprint d) 0 zero32 (ad_tombstones d) = Ok (ad_event_head_hash d);
  ro_pred_count : 0 <= ad_predecessor_event_sequence d <= ad_event_sequence d;
  ro_pred_chain : check_chain (ad_owner_cert_fingerprint d) 0 zero32
    (take (Z.to_nat (ad_predecessor_event_sequence d)) (ad_tombstones d)) =
    Ok (ad_predecessor_event_head_hash d);
  ro_first : ad_checkpoint_sequence d = 1 → ad_tombstones d = [];
  ro_members : NoDup (member_ids (vg_members (ad_genesis_basis d)));
  ro_certified : Forall (certified hh_pub hh_id) (vg_members (ad_genesis_basis d));
  ro_distinct : NoDup (revoked_ids (ad_tombstones d));
  ro_targets : ∀ i, i ∈ revoked_ids (ad_tombstones d) → i ∈ member_ids (vg_members (ad_genesis_basis d));
  ro_active : ad_active d = surviving (vg_members (ad_genesis_basis d)) (revoked_ids (ad_tombstones d));
  ro_epochs : Forall (λ r, rr_epoch r = ad_epoch d) (ad_tombstones d);
}.

Definition RosterInv (s : AcceptedRosterChainState) : Prop :=
  match s with RS_Accepted d => RosterOk d | _ => True end.

(** What the checks before the chain logic establish. *)
Record Checked (c : MachineRosterCheckpointV1) (h : bytes) (s : AcceptedRosterChainState)
    (ctx : AdmissionContext) : Prop := {
  ck_clock : ac_clock_available ctx = true;
  ck_signed : verify_checkpoint_authority c (ac_authority ctx) = Ok tt;
  ck_hash : checkpoint_hash c = Ok h;
  ck_fresh : ra_effective_now (ac_authority ctx) <= cp_not_after c;
  ck_not_future : cp_issued_at c <= ra_effective_now (ac_authority ctx) + MAX_FUTURE_SKEW_SECS;
  ck_lifetime : 0 <= cp_not_after c - cp_issued_at c <= MAX_CHECKPOINT_LIFETIME_SECS;
  ck_genesis : s = RS_NoGenesis → cp_checkpoint_sequence c = 1 ∧ cp_revocations c = [] ∧
    cp_event_sequence c = 0 ∧ cp_event_head_hash c = zero32 ∧ cp_prev_checkpoint_hash c = zero32;
  ck_accepted : ∀ d, s = RS_Accepted d → cp_epoch c = ad_epoch d ∧
    cp_owner_cert_fingerprint c = ad_owner_cert_fingerprint d ∧
    ac_bound_owner_cert_fingerprint ctx = Some (ad_owner_cert_fingerprint d);
}.

Lemma freshness_Ok c now u :
  check_freshness c now = Ok u →
  now <= cp_not_after c ∧ cp_issued_at c <= now + MAX_FUTURE_SKEW_SECS ∧
  0 <= cp_not_after c - cp_issued_at c <= MAX_CHECKPOINT_LIFETIME_SECS.
Proof.
  unfold check_freshness. intros H. apply bind_Ok in H as (l & Hl%ok_or_Ok & H).
  apply checked_add_Some in Hl as [-> _]. res_inv.
  repeat match goal with E : (_ <? _) = false |- _ => apply Z.ltb_ge in E end.
  split_and!; lia.
Qed.

Lemma admission_checks_Ok c s ctx h : admission_checks c s ctx = Ok h → Checked c h s ctx.
Proof.
  unfold admission_checks. intros H.
  apply bind_Ok in H as (? & Hcl%reject_if_Ok%negb_false_iff & H).
  apply bind_Ok in H as (? & Hpre & H). apply bind_Ok in H as ([] & Hv%map_err_Ok & H).
  apply bind_Ok in H as (? & Ho%reject_if_Ok%negb_false_iff & H).
  apply bind_Ok in H as (h' & Hh%map_err_Ok & H).
  apply bind_Ok in H as (? & (Hf & Hi & Hl)%freshness_Ok & [= ->]).
  split; try done.
  - intros ->. cbn [preclassify] in Hpre. res_inv. by apply Z.eqb_eq in Hok, H.
  - intros d ->. cbn [preclassify owner_continues] in Hpre, Ho. apply bool_decide_eq_true in Ho.
    apply bind_Ok in Hpre as (? & He%reject_if_Ok%negb_false_iff%bool_decide_eq_true & Hpre).
    apply bind_Ok in Hpre as (? & _ & Ha%reject_if_Ok%negb_false_iff).
    split_and!; [done..|]. unfold owner_authority_available in Ha.
    destruct (ac_bound_owner_cert_fingerprint ctx); [|done]. apply bool_decide_eq_true in Ha. congruence.
Qed.

Lemma targets_ids basis l :
  Forall (λ r, ∃ m, m ∈ vg_members basis ∧ mm_m_id m = rr_m_id r ∧ mm_m_pub m = rr_m_pub r ∧
                    mm_machine_cert_fingerprint m = rr_machine_cert_fingerprint r) l →
  ∀ i, i ∈ revoked_ids l → i ∈ member_ids (vg_members basis).
Proof.
  intros H i (r & -> & Hr)%list_elem_of_fmap. rewrite Forall_forall in H.
  destruct (H r Hr) as (m & Hm & <- & _). by apply list_elem_of_fmap_2.
Qed.

Lemma authorized_epochs epoch ctx l : Forall (authorized epoch ctx) l → Forall (λ r, rr_epoch r = epoch) l.
Proof. intros H. eapply Forall_impl; [exact H|]. by intros r (_ & _ & ? & _). Qed.

(** What the next checkpoint is compared with: a sequence of events that is
    chained to its head, on certified members. *)
Record InputOk (fp : bytes) (input : NextSeqInput) : Prop := {
  io_sequence : 1 <= ns_checkpoint_sequence input;
  io_epoch : vg_epoch (ns_genesis_basis input) = ns_epoch input;
  io_count : ns_event_sequence input = Z.of_nat (length (ns_tombstones input));
  io_chain : check_chain fp 0 zero32 (ns_tombstones input) = Ok (ns_event_head_hash input);
  io_members : NoDup (member_ids (vg_members (ns_genesis_basis input)));
  io_certified : Forall (certified hh_pub hh_id) (vg_members (ns_genesis_basis input));
}.

Lemma input_ok d : RosterOk d → InputOk (ad_owner_cert_fingerprint d) (next_seq_input d).
Proof. intros []. by split; cbn; try lia. Qed.

Lemma genesis_ok c h ctx :
  ctx_for ctx → Checked c h RS_NoGenesis ctx → Projects c (MkGenesis (cp_epoch c) (cp_active c)) ctx →
  RosterOk (genesis_data c h).
Proof.
  intros [Hid Hpub] Hck HP. destruct (ck_genesis _ _ _ _ Hck eq_refl) as (Hs & Hr & He & Hh & _). destruct HP.
  rewrite Hid, Hpub in pj_certified. split; cbn; rewrite ?Hr; cbn; try done; try (by constructor).
  - rewrite Hs. by vm_compute.
  - by rewrite Hh.
  - lia.
  - by intros i ?%not_elem_of_nil.
  - symmetry. apply surviving_nil.
Qed.

Lemma next_ok c h input ctx :
  InputOk (cp_owner_cert_fingerprint c) input → cp_epoch c = ns_epoch input → Follows c input ctx →
  RosterOk (next_data c h input).
Proof.
  intros HI He HF. pose proof (fo_projects _ _ _ HF) as HP. destruct HF, HP, HI. cbn -[zero32] in *.
  split; cbn -[zero32]; rewrite ?He; try done.
  - lia.
  - lia.
  - rewrite io_count0, Nat2Z.id.
    destruct (decide (cp_event_sequence c = ns_event_sequence input)) as [Heq|Hne].
    + rewrite take_ge by lia. by rewrite pj_chain, (fo_same Heq).
    + by destruct fo_more as (_ & -> & _); [lia|].
  - lia.
  - by apply targets_ids.
  - rewrite <- He. by eapply authorized_epochs.
Qed.

Lemma admission_inv c h ctx s s' r :
  ctx_for ctx → RosterInv s → Checked c h s ctx → Admission c h ctx s s' r → RosterInv s'.
Proof.
  intros Hx HI Hck HA. destruct HA as [HP|d HF|d _|d hs _]; try done.
  - by eapply genesis_ok.
  - destruct (ck_accepted _ _ _ _ Hck d eq_refl) as (He & Hfp & _).
    eapply next_ok; [|done..]. rewrite Hfp. by apply input_ok.
Qed.

Lemma admit_inv c s ctx s' r :
  ctx_for ctx → RosterInv s → admit_checkpoint c s ctx = (s', r) → RosterInv s'.
Proof.
  intros Hx HI [[-> _]|(h & Hc & HA)]%admit_cases; [done|].
  eapply admission_inv; [done..| |done]. by apply admission_checks_Ok.
Qed.
End household.

(** ** The event hash covers the revocation *)

(** A revocation without the fields its hash leaves out. *)
Definition stripped (r : MachineRosterRevocationV1) : MachineRosterRevocationV1 :=
  MkRevocation (rr_v r) (rr_kind r) (rr_hh_id r) (rr_epoch r) (rr_sequence r) (rr_prev_event_hash r)
    (rr_m_id r) (rr_m_pub r) (rr_machine_cert_fingerprint r) (rr_revoked_at r) (rr_reason r) (rr_cascade r)
    (rr_owner_p_id r) (rr_owner_cert_fingerprint r) [] [].

Definition revocation_valid (r : MachineRosterRevocationV1) : Prop :=
  0 <= rr_v r < 256 ∧ in_u64 (rr_sequence r) ∧ in_u64 (rr_revoked_at r).

Definition unsigned_build (get : string → option CborValue) : option MachineRosterRevocationV1 :=
  v ← get "v"%string ≫= de_u64; kind ← get "kind"%string ≫= de_string;
  hh_id ← get "hh_id"%string ≫= de_string; epoch ← get "epoch"%string ≫= de_byte_buf;
  sequence ← get "sequence"%string ≫= de_u64; prev ← get "prev_event_hash"%string ≫= de_byte_buf;
  m_id ← get "m_id"%string ≫= de_string; m_pub ← get "m_pub"%string ≫= de_byte_buf;
  fingerprint ← get "machine_cert_fingerprint"%string ≫= de_byte_buf;
  revoked_at ← get "revoked_at"%string ≫= de_u64; reason ← get "reason"%string ≫= de_reason;
  cascade ← get "cascade"%string ≫= de_cascade; owner_p_id ← get "owner_p_id"%string ≫= de_string;
  owner_fp ← get "owner_cert_fingerprint"%string ≫= de_byte_buf;
  Some (MkRevocation v kind hh_id epoch sequence prev m_id m_pub fingerprint revoked_at reason cascade
          owner_p_id owner_fp [] []).

Definition unsigned_serde : Serde MachineRosterRevocationV1 :=
  {| to_value r := to_struct (revocation_unsigned_fields r);
     of_value := of_struct revocation_names unsigned_build |}.

Context {CL : CborLaws}.

Lemma unsigned_laws :
  @SerdeLaws CC MachineRosterRevocationV1 unsigned_serde (λ r, revocation_valid r ∧ r = stripped r).
Proof.
  assert (∀ r, in_u64 (reason_code r)) as Hrc by (intros []; by vm_compute).
  assert (∀ c, in_u64 (cascade_code c)) as Hcc by (intros []; by vm_compute).
  split; intros r [(Hv & Hs & Ht) Hr]; cbn [to_value of_value unsigned_serde];
    assert (in_u64 (rr_v r)) by (split; unfold u64_modulus; lia).
  - struct_allowed.
  - pose proof (Hrc (rr_reason r)). pose proof (Hcc (rr_cascade r)). struct_plain.
  - assert (depth (to_struct (revocation_unsigned_fields r)) ≤ 1)%nat by struct_depth.
    pose proof cbor_recursion_limit. lia.
  - unfold revocation_unsigned_fields. struct_lookup. unfold unsigned_build, de_reason, de_cascade.
    struct_leaves. rewrite !de_uint_integer by (unfold u64_modulus; destruct (rr_reason r), (rr_cascade r); cbn; lia).
    rewrite Hr. destruct r as [? ? ? ? ? ? ? ? ? ? reason cascade ? ? ? ?]. by destruct reason, cascade.
Qed.

Lemma preimage_inj r1 r2 p :
  revocation_valid r1 → revocation_valid r2 →
  revocation_preimage r1 = Ok p → revocation_preimage r2 = Ok p → stripped r1 = stripped r2.
Proof.
  unfold revocation_preimage. intros V1 V2 H1 H2.
  apply bind_Ok in H1 as (? & _ & H1). apply bind_Ok in H1 as (b & E1%ok_or_Ok & [= <-]).
  apply bind_Ok in H2 as (? & _ & H2). apply bind_Ok in H2 as (b2 & E2%ok_or_Ok & [= ->]).
  by apply (@Canonical.to_canonical_vec_inj CC CL _ unsigned_serde _ unsigned_laws (stripped r1) (stripped r2) b).
Qed.

(** ** What was decoded *)

Definition checkpoint_valid (c : MachineRosterCheckpointV1) : Prop :=
  in_u64 (cp_checkpoint_sequence c) ∧ in_u64 (cp_event_sequence c) ∧ in_u64 (cp_issued_at c) ∧
  in_u64 (cp_not_after c) ∧ Forall revocation_valid (cp_revocations c).

#[export] Instance Revocation_sound : SerdeSound MachineRosterRevocationV1 revocation_valid.
Proof.
  intros v r Hr. cbn [of_value Revocation_serde] in Hr. apply of_struct_Some in Hr as [get Hr].
  unfold revocation_build in Hr.
  repeat (let x := fresh "x" in let Hx := fresh "Hx" in apply bind_Some in Hr as (x & Hx & Hr)).
  injection Hr as <-.
  repeat match goal with
  | H : mbind (de_uint _) _ = Some _ |- _ => apply bind_Some in H as (? & _ & H%de_uint_bound)
  | H : mbind de_u64 _ = Some _ |- _ => apply bind_Some in H as (? & _ & H%de_u64_bound)
  end.
  unfold revocation_valid. cbn. tauto.
Qed.

Lemma de_vec_Forall {T} (f : CborValue → option T) (P : T → Prop) v l :
  (∀ v x, f v = Some x → P x) → de_vec f v = Some l → Forall P l.
Proof.
  intros Hf. unfold de_vec. destruct v; try done. intros Hl%mapM_Some.
  apply Forall_forall. intros x (i & Hi)%list_elem_of_lookup.
  destruct (Forall2_lookup_r _ _ _ _ _ Hl Hi) as (w & _ & Hw). eauto.
Qed.

#[export] Instance Checkpoint_sound : SerdeSound MachineRosterCheckpointV1 checkpoint_valid.
Proof.
  intros v c Hc. cbn [of_value Checkpoint_serde] in Hc. apply of_struct_Some in Hc as [get Hc].
  unfold checkpoint_build in Hc.
  repeat (let x := fresh "x" in let Hx := fresh "Hx" in apply bind_Some in Hc as (x & Hx & Hc)).
  injection Hc as <-.
  repeat match goal with
  | H : mbind de_u64 _ = Some _ |- _ => apply bind_Some in H as (? & _ & H%de_u64_bound)
  | H : mbind (de_vec _) _ = Some _ |- _ => apply bind_Some in H as (? & _ & H)
  end.
  unfold checkpoint_valid. split_and!; try done. by eapply de_vec_Forall; [|done]; eapply serde_sound.
Qed.

Lemma from_raw_inv raw c :
  from_raw raw = Ok c →
  Canonical.from_canonical_slice raw = Some c ∧ Canonical.to_canonical_vec c = Some raw ∧ checkpoint_valid c.
Proof.
  unfold from_raw. intros H. apply bind_Ok in H as (c' & Hd%ok_or_Ok & H).
  apply bind_Ok in H as (raw' & He%ok_or_Ok & H). apply bind_Ok in H as (? & Hr%reject_if_Ok & H).
  apply bind_Ok in H as (? & _ & [= ->]). apply bool_decide_eq_false in Hr.
  split_and!; [done|destruct (decide (raw' = raw)); by subst|].
  unfold Canonical.from_canonical_slice in Hd. apply bind_Some in Hd as ([v n] & _ & Hd).
  by eapply serde_sound.
Qed.

(** ** Equal heads, equal events *)

(** No two of the revocations have different preimages with one digest. *)
Definition no_collision (P : MachineRosterRevocationV1 → Prop) : Prop :=
  ∀ r1 r2 p1 p2, P r1 → P r2 → revocation_preimage r1 = Ok p1 → revocation_preimage r2 = Ok p2 →
    sha256 p1 = sha256 p2 → p1 = p2.

Lemma event_hash_inj P r1 r2 h :
  no_collision P → P r1 → P r2 → revocation_valid r1 → revocation_valid r2 →
  revocation_event_hash r1 = Ok h → revocation_event_hash r2 = Ok h → stripped r1 = stripped r2.
Proof.
  unfold revocation_event_hash. intros HN P1 P2 V1 V2 (p1 & H1 & E1)%bind_Ok (p2 & H2 & E2)%bind_Ok.
  injection E1 as E1. injection E2 as E2. rewrite <- E2 in E1.
  pose proof (HN _ _ _ _ P1 P2 H1 H2 E1) as ->. by eapply preimage_inj.
Qed.

Lemma chain_same P fp l1 l2 h :
  no_collision P → Forall P l1 → Forall P l2 → Forall revocation_valid l1 → Forall revocation_valid l2 →
  length l1 = length l2 → check_chain fp 0 zero32 l1 = Ok h → check_chain fp 0 zero32 l2 = Ok h →
  stripped <$> l1 = stripped <$> l2.
Proof.
  intros HN. revert l2 h. induction l1 as [|r1 l1 IH] using rev_ind; intros l2 h P1 P2 V1 V2 Hl H1 H2.
  { by destruct l2. }
  destruct l2 as [|r2 l2 _] using rev_ind; [rewrite length_app in Hl; cbn in Hl; lia|].
  rewrite !length_app in Hl. cbn in Hl. rewrite !fmap_app.
  apply Forall_app in P1 as [P1 Q1], P2 as [P2 Q2], V1 as [V1 W1], V2 as [V2 W2].
  rewrite Forall_singleton in Q1, Q2, W1, W2.
  apply check_chain_last in H1 as [E1 H1], H2 as [E2 H2].
  pose proof (event_hash_inj P r1 r2 h HN Q1 Q2 W1 W2 E1 E2) as E.
  rewrite (IH l2 (rr_prev_event_hash r1)); [by cbn; rewrite E|try done; lia..|].
  by change (rr_prev_event_hash r1) with (rr_prev_event_hash (stripped r1)); rewrite E.
Qed.

Lemma stripped_ids (l1 l2 : list MachineRosterRevocationV1) : stripped <$> l1 = stripped <$> l2 → revoked_ids l1 = revoked_ids l2.
Proof.
  intros H. assert (∀ l : list MachineRosterRevocationV1, revoked_ids l = rr_m_id <$> (stripped <$> l)) as E
    by (intros l; by rewrite <- list_fmap_compose).
  by rewrite (E l1), (E l2), H.
Qed.

(** The events of a checkpoint that follows include the earlier ones. *)
Lemma follows_extends hh_id hh_pub P c input ctx :
  no_collision P → InputOk hh_id hh_pub (cp_owner_cert_fingerprint c) input → Follows c input ctx →
  Forall P (ns_tombstones input) → Forall revocation_valid (ns_tombstones input) →
  Forall P (cp_revocations c) → Forall revocation_valid (cp_revocations c) →
  revoked_ids (ns_tombstones input) `prefix_of` revoked_ids (cp_revocations c).
Proof.
  intros HN HI HF P1 V1 P2 V2. pose proof (fo_projects _ _ _ HF) as HP. destruct HI, HP.
  destruct (decide (cp_event_sequence c = ns_event_sequence input)) as [Heq|Hne].
  - rewrite (stripped_ids (ns_tombstones input) (cp_revocations c)); [done|].
    eapply chain_same; try done; [lia|]. by rewrite <- (fo_same _ _ _ HF Heq).
  - destruct (fo_more _ _ _ HF) as (_ & Ht & _); [pose proof (fo_events _ _ _ HF); lia|].
    rewrite <- Ht. rewrite <- (take_drop (length (ns_tombstones input)) (cp_revocations c)) at 2.
    rewrite fmap_app. by apply prefix_app_r.
Qed.
End inv.
