(* ===== verification/RosterRecord.v ===== *)
(** * The machine roster: stored records

    Models the codecs and the re-derivation of
    [household-rs/src/machine_roster_store.rs]: the clock floor and the accepted
    chain as stored, their strict decoders, and the reconstruction of the chain
    state from the signed checkpoints a record holds. The state itself is never
    stored. *)

From stdpp Require Import base gmap sets list strings.
From Stdlib Require Import ZArith Lia Ascii.
From S2P Require Import Prelude.
From S2P Require Import Cbor.
From S2P Require Import Canonical.
From S2P Require Import Crypto.
From S2P Require Import RosterView.
From S2P Require Import Ledger.
From S2P Require Import Household.
From S2P Require Import Roster.
From S2P Require Import RosterAdmit.

Open Scope Z_scope.

Definition RECORD_VERSION : Z := 1.

Inductive ChainIntegrityError :=
| CI_NonCanonicalRecord
| CI_DuplicateKey
| CI_UnknownField
| CI_NullField
| CI_VersionMismatch
| CI_HouseholdMismatch
| CI_InvalidStateKeySet
| CI_CheckpointDecode
| CI_CheckpointSignature
| CI_OwnerCertificate
| CI_OwnerContinuity
| CI_SequenceRelation
| CI_HashRelation
| CI_Projection
| CI_ForkReapplyMismatch
| CI_Temporal
| CI_EpochRelation.

Inductive ChainStateKind := CK_NoGenesis | CK_Accepted | CK_CheckpointForkConflict | CK_EventForkConflict.

#[export] Instance ChainStateKind_eq_dec : EqDecision ChainStateKind.
Proof. solve_decision. Defined.

Definition kind_code (k : ChainStateKind) : Z :=
  match k with
  | CK_NoGenesis => 0 | CK_Accepted => 1 | CK_CheckpointForkConflict => 2 | CK_EventForkConflict => 3
  end.

Definition kind_of_code (n : Z) : option ChainStateKind :=
  iter_find (λ k, kind_code k =? n)
    [CK_NoGenesis; CK_Accepted; CK_CheckpointForkConflict; CK_EventForkConflict].

Record ClockFloorRecordV1 := MkClockFloor {
  cl_v : Z;
  cl_hh_id : HouseholdId;
  cl_floor_secs : Z;
}.

#[export] Instance ClockFloorRecordV1_eq_dec : EqDecision ClockFloorRecordV1.
Proof. solve_decision. Defined.

Record AcceptedChainRecordV1 := MkChainRecord {
  ch_v : Z;
  ch_hh_id : HouseholdId;
  ch_state_kind : ChainStateKind;
  ch_genesis_checkpoint : option bytes;
  ch_accepted_checkpoint : option bytes;
  ch_predecessor_checkpoint : option bytes;
  ch_conflicting_checkpoint : option bytes;
}.

#[export] Instance AcceptedChainRecordV1_eq_dec : EqDecision AcceptedChainRecordV1.
Proof. solve_decision. Defined.

(** An error of the visitor when [b] does not hold. *)
Definition ensure (b : bool) : option unit := if b then Some tt else None.

(** The variables of the map visitor. *)
Record ChainFields := MkChainFields {
  vf_v : option Z;
  vf_hh_id : option HouseholdId;
  vf_state_kind : option ChainStateKind;
  vf_genesis : option bytes;
  vf_accepted : option bytes;
  vf_predecessor : option bytes;
  vf_conflicting : option bytes;
}.

Definition no_fields : ChainFields := MkChainFields None None None None None None None.

Record HistoricalHouseholdContext := MkHistoricalContext { hx_hh_id : HouseholdId; hx_hh_pub : P256PublicKey }.

Record HistoricalOwnerBinding := MkOwnerBinding {
  ob_p_id : PersonId;
  ob_p_pub : P256PublicKey;
  ob_cert_fingerprint : bytes;
}.

Section records.
Context {CC : CborCrate} {SC : SessionCrypto} {HC : HouseholdCrypto} {DD : DerivedDecoders}.

(** ** Encodings *)

Definition clock_floor_fields (r : ClockFloorRecordV1) : list (string * CborValue) :=
  [("v", CV_Integer (cl_v r)); ("hh_id", CV_Text (cl_hh_id r));
   ("floor_secs", CV_Integer (cl_floor_secs r))]%string.

Definition clock_floor_names : list string := ["v"; "hh_id"; "floor_secs"]%string.

#[export] Instance ClockFloorRecordV1_serde : Serde ClockFloorRecordV1 := {
  to_value r := to_struct (clock_floor_fields r);
  of_value := of_struct clock_floor_names (λ get,
    v ← get "v"%string ≫= de_uint 256;
    hh_id ← get "hh_id"%string ≫= de_household;
    floor_secs ← get "floor_secs"%string ≫= de_u64;
    Some (MkClockFloor v hh_id floor_secs));
}.

Definition blob_field (name : string) (b : option bytes) : list (string * CborValue) :=
  match b with Some b => [(name, CV_Bytes b)] | None => [] end.

Definition chain_fields (r : AcceptedChainRecordV1) : list (string * CborValue) :=
  [("v", CV_Integer (ch_v r)); ("hh_id", CV_Text (ch_hh_id r));
   ("state_kind", CV_Integer (kind_code (ch_state_kind r)))]%string ++
  blob_field "genesis_checkpoint" (ch_genesis_checkpoint r) ++
  blob_field "accepted_checkpoint" (ch_accepted_checkpoint r) ++
  blob_field "predecessor_checkpoint" (ch_predecessor_checkpoint r) ++
  blob_field "conflicting_checkpoint" (ch_conflicting_checkpoint r).

Definition de_kind (v : CborValue) : option ChainStateKind := n ← de_u64 v; kind_of_code n.

(** One entry of the map. *)
Definition visit_entry (key : string) (v : CborValue) (f : ChainFields) : option ChainFields :=
  let '(MkChainFields ver hh kind g a p c) := f in
  if String.eqb key "v" then x ← de_uint 256 v; Some (MkChainFields (Some x) hh kind g a p c) else
  if String.eqb key "hh_id" then x ← de_household v; Some (MkChainFields ver (Some x) kind g a p c) else
  if String.eqb key "state_kind" then x ← de_kind v; Some (MkChainFields ver hh (Some x) g a p c) else
  if String.eqb key "genesis_checkpoint" then
    x ← de_byte_buf v; Some (MkChainFields ver hh kind (Some x) a p c) else
  if String.eqb key "accepted_checkpoint" then
    x ← de_byte_buf v; Some (MkChainFields ver hh kind g (Some x) p c) else
  if String.eqb key "predecessor_checkpoint" then
    x ← de_byte_buf v; Some (MkChainFields ver hh kind g a (Some x) c) else
  if String.eqb key "conflicting_checkpoint" then
    x ← de_byte_buf v; Some (MkChainFields ver hh kind g a p (Some x)) else
  None.

Fixpoint visit_entries (seen : list string) (f : ChainFields) (es : list (CborValue * CborValue))
    : option ChainFields :=
  match es with
  | [] => Some f
  | (k, v) :: es =>
      key ← de_string k;
      if bool_decide (key ∈ seen) then None else
      f ← visit_entry key v f;
      visit_entries (key :: seen) f es
  end.

(** [checkpoint_sequence > 1] goes with a predecessor, [1] without one. *)
Definition predecessor_rule (seq : Z) (has_predecessor : bool) : bool :=
  negb ((1 <? seq) && negb has_predecessor) && negb ((seq =? 1) && has_predecessor).

Definition stored_sequence (b : bytes) : option Z :=
  cp_checkpoint_sequence <$> (Canonical.from_canonical_slice b : option MachineRosterCheckpointV1).

(** The key set each state has. *)
Definition key_set_ok (kind : ChainStateKind) (g a p c : option bytes) : option unit :=
  match kind with
  | CK_NoGenesis => ensure (negb (is_some g || is_some a || is_some p || is_some c))
  | CK_Accepted =>
      accepted ← a;
      ensure (is_some g && negb (is_some c));;
      seq ← stored_sequence accepted;
      ensure (predecessor_rule seq (is_some p))
  | CK_CheckpointForkConflict =>
      accepted ← a; conflicting ← c;
      ensure (is_some g);;
      seq ← stored_sequence accepted;
      conflicting_seq ← stored_sequence conflicting;
      ensure (seq =? conflicting_seq);;
      ensure (predecessor_rule seq (is_some p))
  | CK_EventForkConflict =>
      accepted ← a;
      ensure (is_some g && is_some c);;
      seq ← stored_sequence accepted;
      ensure (predecessor_rule seq (is_some p))
  end.

Definition visit_map (es : list (CborValue * CborValue)) : option AcceptedChainRecordV1 :=
  f ← visit_entries [] no_fields es;
  v ← vf_v f;
  hh_id ← vf_hh_id f;
  kind ← vf_state_kind f;
  ensure (v =? RECORD_VERSION);;
  key_set_ok kind (vf_genesis f) (vf_accepted f) (vf_predecessor f) (vf_conflicting f);;
  Some (MkChainRecord v hh_id kind (vf_genesis f) (vf_accepted f) (vf_predecessor f) (vf_conflicting f)).

#[export] Instance AcceptedChainRecordV1_serde : Serde AcceptedChainRecordV1 := {
  to_value r := to_struct (chain_fields r);
  of_value v := match v with CV_Map es => visit_map es | _ => None end;
}.

(** ** Strict decoders *)

Fixpoint validate_entries (allowed seen : list string) (es : list (CborValue * CborValue))
    : Result ChainIntegrityError (list string) :=
  match es with
  | [] => Ok seen
  | (key, val) :: es =>
      key_str ← ok_or (as_text key) CI_UnknownField;
      reject_if (bool_decide (key_str ∈ seen)) CI_DuplicateKey;;
      reject_if (negb (bool_decide (key_str ∈ allowed))) CI_UnknownField;;
      reject_if (match val with CV_Null => true | _ => false end) CI_NullField;;
      validate_entries allowed (key_str :: seen) es
  end.

Definition pre_validate_map (b : bytes) (allowed required : list string)
    : Result ChainIntegrityError (list (CborValue * CborValue)) :=
  '(value, _) ← ok_or (from_reader b) CI_NonCanonicalRecord;
  match value with
  | CV_Map entries =>
      seen ← validate_entries allowed [] entries;
      reject_if (negb (forallb (λ req, bool_decide (req ∈ seen)) required)) CI_InvalidStateKeySet;;
      Ok entries
  | _ => Err CI_NonCanonicalRecord
  end.

Fixpoint extract_uint (entries : list (CborValue * CborValue)) (key : string) : option Z :=
  match entries with
  | [] => None
  | (k, v) :: entries =>
      match bool_decide (as_text k = Some key), v with
      | true, CV_Integer i => if (0 <=? i) && (i <? u64_modulus) then Some i else None
      | _, _ => extract_uint entries key
      end
  end.

Definition has_key (entries : list (CborValue * CborValue)) (key : string) : bool :=
  iter_any (λ e, bool_decide (as_text e.1 = Some key)) entries.

Fixpoint get_bstr (entries : list (CborValue * CborValue)) (key : string) : option bytes :=
  match entries with
  | [] => None
  | (k, v) :: entries =>
      match bool_decide (as_text k = Some key), v with
      | true, CV_Bytes b => Some b
      | _, _ => get_bstr entries key
      end
  end.

Definition decode_clock_floor (b : bytes) (expected_hh_id : HouseholdId)
    : Result ChainIntegrityError ClockFloorRecordV1 :=
  pre_validate_map b clock_floor_names clock_floor_names;;
  rec ← ok_or (Canonical.from_canonical_slice b) CI_NonCanonicalRecord;
  re_encoded ← ok_or (Canonical.to_canonical_vec rec) CI_NonCanonicalRecord;
  reject_if (bool_decide (re_encoded ≠ b)) CI_NonCanonicalRecord;;
  reject_if (negb (cl_v rec =? RECORD_VERSION)) CI_VersionMismatch;;
  reject_if (negb (bool_decide (cl_hh_id rec = expected_hh_id))) CI_HouseholdMismatch;;
  Ok rec.

Definition chain_names : list string :=
  ["v"; "hh_id"; "state_kind"; "genesis_checkpoint"; "accepted_checkpoint"; "predecessor_checkpoint";
   "conflicting_checkpoint"]%string.
Definition chain_required : list string := ["v"; "hh_id"; "state_kind"]%string.

(** The sequence of the accepted checkpoint against the predecessor's key. *)
Definition check_predecessor (entries : list (CborValue * CborValue)) (seq : Z)
    : Result ChainIntegrityError unit :=
  reject_if ((1 <? seq) && negb (has_key entries "predecessor_checkpoint")) CI_InvalidStateKeySet;;
  reject_if ((seq =? 1) && has_key entries "predecessor_checkpoint") CI_InvalidStateKeySet.

Definition blob_sequence (entries : list (CborValue * CborValue)) (key : string)
    : Result ChainIntegrityError Z :=
  b ← ok_or (get_bstr entries key) CI_CheckpointDecode;
  ok_or (stored_sequence b) CI_CheckpointDecode.

Definition check_key_set (kind : ChainStateKind) (entries : list (CborValue * CborValue))
    : Result ChainIntegrityError unit :=
  let has := has_key entries in
  match kind with
  | CK_NoGenesis =>
      reject_if (has "genesis_checkpoint" || has "accepted_checkpoint" ||
                 has "predecessor_checkpoint" || has "conflicting_checkpoint")%string CI_InvalidStateKeySet
  | CK_Accepted =>
      reject_if (negb (has "genesis_checkpoint") || negb (has "accepted_checkpoint"))%string
        CI_InvalidStateKeySet;;
      reject_if (has "conflicting_checkpoint"%string) CI_InvalidStateKeySet;;
      seq ← blob_sequence entries "accepted_checkpoint";
      check_predecessor entries seq
  | CK_CheckpointForkConflict =>
      reject_if (negb (has "genesis_checkpoint") || negb (has "accepted_checkpoint") ||
                 negb (has "conflicting_checkpoint"))%string CI_InvalidStateKeySet;;
      accepted_bytes ← ok_or (get_bstr entries "accepted_checkpoint") CI_CheckpointDecode;
      conflicting_bytes ← ok_or (get_bstr entries "conflicting_checkpoint") CI_CheckpointDecode;
      seq ← ok_or (stored_sequence accepted_bytes) CI_CheckpointDecode;
      conflicting_seq ← ok_or (stored_sequence conflicting_bytes) CI_CheckpointDecode;
      reject_if (negb (seq =? conflicting_seq)) CI_SequenceRelation;;
      check_predecessor entries seq
  | CK_EventForkConflict =>
      reject_if (negb (has "genesis_checkpoint") || negb (has "accepted_checkpoint") ||
                 negb (has "conflicting_checkpoint"))%string CI_InvalidStateKeySet;;
      seq ← blob_sequence entries "accepted_checkpoint";
      check_predecessor entries seq
  end.

Definition decode_accepted_chain (b : bytes) (expected_hh_id : HouseholdId)
    : Result ChainIntegrityError AcceptedChainRecordV1 :=
  entries ← pre_validate_map b chain_names chain_required;
  reject_if (negb (bool_decide (extract_uint entries "v" = Some RECORD_VERSION))) CI_VersionMismatch;;
  kind ← ok_or (extract_uint entries "state_kind" ≫= kind_of_code) CI_InvalidStateKeySet;
  check_key_set kind entries;;
  rec ← ok_or (Canonical.from_canonical_slice b) CI_CheckpointDecode;
  re_encoded ← ok_or (Canonical.to_canonical_vec rec) CI_NonCanonicalRecord;
  reject_if (bool_decide (re_encoded ≠ b)) CI_NonCanonicalRecord;;
  reject_if (negb (bool_decide (ch_hh_id rec = expected_hh_id))) CI_HouseholdMismatch;;
  Ok rec.

(** ** Errors of the re-derivation *)

Definition map_crypto (e : RosterCryptoError) : ChainIntegrityError :=
  match e with
  | RC_CborEncode | RC_CborDecode | RC_SchemaInvalid => CI_CheckpointDecode
  | RC_CertDecode | RC_CertNotCanonical | RC_OwnerCertInvalid | RC_WeakProvenance
  | RC_MissingCaveatAddMachine | RC_MissingCaveatRevoke => CI_OwnerCertificate
  | RC_SignatureRejected => CI_CheckpointSignature
  | RC_HouseholdMismatch => CI_HouseholdMismatch
  | RC_OwnerIdMismatch | RC_OwnerPubMismatch | RC_FingerprintMismatch => CI_OwnerContinuity
  | RC_MachineCertInvalid | RC_MachineCertNotCanonical | RC_MachineIdMismatch
  | RC_MachinePubMismatch | RC_MachineFingerprintMismatch | RC_MachineHouseholdMismatch => CI_Projection
  end.

Definition admit_result_to_integrity (r : CheckpointAdmissionResult) : ChainIntegrityError :=
  match r with
  | CA_RejectedMalformed => CI_CheckpointDecode
  | CA_RejectedSignature => CI_CheckpointSignature
  | CA_RejectedOwner => CI_OwnerContinuity
  | CA_RejectedCaveat => CI_OwnerCertificate
  | CA_RejectedProjection => CI_Projection
  | CA_RejectedGap | CA_RejectedReplay | CA_RejectedRollback => CI_SequenceRelation
  | CA_RejectedTemporal => CI_Temporal
  | CA_EpochMigrationRequired => CI_EpochRelation
  | CA_Accepted | CA_IdempotentDuplicate | CA_CheckpointForkConflictRecorded
  | CA_EventForkConflictRecorded => CI_ForkReapplyMismatch
  end.

Definition map_projection (e : ProjectionError) : ChainIntegrityError :=
  match e with PE_RevocationValidation r => admit_result_to_integrity r | _ => CI_Projection end.

Definition map_bridge (e : HistoricalBridgeError) : ChainIntegrityError :=
  match e with
  | HB_Crypto e => map_crypto e
  | HB_Projection e => map_projection e
  | HB_Admission r => admit_result_to_integrity r
  | HB_Temporal => CI_Temporal
  end.

(** ** Re-derivation *)

Definition hist_admission (hh_ctx : HistoricalHouseholdContext) (binding : HistoricalOwnerBinding)
    (effective_now : Z) : AdmissionContext :=
  MkAdmissionContext
    (MkRosterAuthorityContext (hx_hh_pub hh_ctx) (hx_hh_id hh_ctx) (ob_p_id binding) (ob_p_pub binding)
       effective_now)
    true (Some (ob_cert_fingerprint binding)).

Definition canonical_checkpoint (b : bytes) : Result ChainIntegrityError MachineRosterCheckpointV1 :=
  map_err admit_result_to_integrity (from_raw b).

(** The accepting transition, at the time the checkpoint was issued. *)
Definition readmit (c : MachineRosterCheckpointV1) (s : AcceptedRosterChainState) (ctx : AdmissionContext)
    : Result ChainIntegrityError AcceptedRosterChainState :=
  let '(state, result) := admit_checkpoint c s ctx in
  if bool_decide (result = CA_Accepted) then Ok state else Err (admit_result_to_integrity result).

(** The owner named by the genesis checkpoint, and the state after it. *)
Definition rederive_genesis (genesis_cp : MachineRosterCheckpointV1) (hh_ctx : HistoricalHouseholdContext)
    : Result ChainIntegrityError (AcceptedRosterChainState * HistoricalOwnerBinding) :=
  '(p_id, p_pub, fp) ← map_err map_crypto
     (derive_owner_binding_from_cert (cp_owner_person_cert genesis_cp) (hx_hh_id hh_ctx) (hx_hh_pub hh_ctx)
        (cp_issued_at genesis_cp));
  reject_if (negb (bool_decide (cp_owner_p_id genesis_cp = p_id))) CI_OwnerContinuity;;
  reject_if (negb (bool_decide (cp_owner_cert_fingerprint genesis_cp = fp))) CI_OwnerContinuity;;
  let binding := MkOwnerBinding p_id p_pub fp in
  genesis_state ← readmit genesis_cp RS_NoGenesis (hist_admission hh_ctx binding (cp_issued_at genesis_cp));
  Ok (genesis_state, binding).

Definition rederive_accepted (genesis_bytes accepted_bytes : bytes) (predecessor_bytes : option bytes)
    (hh_ctx : HistoricalHouseholdContext)
    : Result ChainIntegrityError (AcceptedRosterChainState * HistoricalOwnerBinding) :=
  genesis_cp ← canonical_checkpoint genesis_bytes;
  '(genesis_state, binding) ← rederive_genesis genesis_cp hh_ctx;
  accepted_cp ← canonical_checkpoint accepted_bytes;
  if cp_checkpoint_sequence accepted_cp =? 1 then
    reject_if (is_some predecessor_bytes) CI_InvalidStateKeySet;;
    reject_if (negb (bool_decide (accepted_bytes = genesis_bytes))) CI_HashRelation;;
    Ok (genesis_state, binding)
  else
    pred_bytes ← ok_or predecessor_bytes CI_InvalidStateKeySet;
    pred_cp ← canonical_checkpoint pred_bytes;
    reject_if (cp_checkpoint_sequence accepted_cp <? 1) CI_SequenceRelation;;
    reject_if (negb (cp_checkpoint_sequence pred_cp =? cp_checkpoint_sequence accepted_cp - 1))
      CI_SequenceRelation;;
    match genesis_state with
    | RS_Accepted genesis_data =>
        let curr_ctx := hist_admission hh_ctx binding (cp_issued_at accepted_cp) in
        if cp_checkpoint_sequence pred_cp =? 1 then
          reject_if (negb (bool_decide (pred_bytes = genesis_bytes))) CI_HashRelation;;
          map_err map_crypto (verify_checkpoint_full_historical accepted_cp (ac_authority curr_ctx));;
          final_state ← readmit accepted_cp genesis_state curr_ctx;
          Ok (final_state, binding)
        else
          final_state ← map_err map_bridge
            (historical_reapply_next accepted_cp pred_cp (ad_genesis_basis genesis_data)
               (hist_admission hh_ctx binding (cp_issued_at pred_cp)) curr_ctx);
          Ok (final_state, binding)
    | _ => Err CI_CheckpointDecode
    end.

Definition rederive_fork (genesis_bytes accepted_bytes : bytes) (predecessor_bytes : option bytes)
    (conflicting_bytes : bytes) (expected_kind : ChainStateKind) (hh_ctx : HistoricalHouseholdContext)
    : Result ChainIntegrityError (AcceptedRosterChainState * HistoricalOwnerBinding) :=
  reject_if (negb (bool_decide (expected_kind = CK_CheckpointForkConflict)) &&
             negb (bool_decide (expected_kind = CK_EventForkConflict))) CI_InvalidStateKeySet;;
  '(accepted_state, binding) ← rederive_accepted genesis_bytes accepted_bytes predecessor_bytes hh_ctx;
  conflicting_cp ← canonical_checkpoint conflicting_bytes;
  let curr_ctx := hist_admission hh_ctx binding (cp_issued_at conflicting_cp) in
  map_err map_crypto (verify_checkpoint_full_historical conflicting_cp (ac_authority curr_ctx));;
  match expected_kind, admit_checkpoint conflicting_cp accepted_state curr_ctx with
  | CK_CheckpointForkConflict,
    (RS_CheckpointForkConflict _ _ _ as state, CA_CheckpointForkConflictRecorded) => Ok (state, binding)
  | CK_EventForkConflict,
    (RS_EventForkConflict _ _ _ as state, CA_EventForkConflictRecorded) => Ok (state, binding)
  | _, _ => Err CI_ForkReapplyMismatch
  end.

Definition rederive_current_state (r : AcceptedChainRecordV1) (hh_ctx : HistoricalHouseholdContext)
    : Result ChainIntegrityError (AcceptedRosterChainState * option bytes) :=
  match ch_state_kind r with
  | CK_NoGenesis => Ok (RS_NoGenesis, None)
  | CK_Accepted =>
      genesis ← ok_or (ch_genesis_checkpoint r) CI_CheckpointDecode;
      accepted ← ok_or (ch_accepted_checkpoint r) CI_CheckpointDecode;
      '(state, binding) ← rederive_accepted genesis accepted (ch_predecessor_checkpoint r) hh_ctx;
      Ok (state, Some (ob_cert_fingerprint binding))
  | kind =>
      genesis ← ok_or (ch_genesis_checkpoint r) CI_CheckpointDecode;
      accepted ← ok_or (ch_accepted_checkpoint r) CI_CheckpointDecode;
      conflicting ← ok_or (ch_conflicting_checkpoint r) CI_CheckpointDecode;
      '(state, binding) ← rederive_fork genesis accepted (ch_predecessor_checkpoint r) conflicting kind hh_ctx;
      Ok (state, Some (ob_cert_fingerprint binding))
  end.

(** The record for the state a candidate led to. *)
Definition build_chain_record (hh_id : HouseholdId) (old : AcceptedChainRecordV1)
    (new_state : AcceptedRosterChainState) (candidate_bytes : bytes) : AcceptedChainRecordV1 :=
  match new_state with
  | RS_Accepted _ =>
      MkChainRecord RECORD_VERSION hh_id CK_Accepted
        (match ch_genesis_checkpoint old with
         | Some g => Some g
         | None => if bool_decide (ch_state_kind old = CK_NoGenesis) then Some candidate_bytes else None
         end)
        (Some candidate_bytes) (ch_accepted_checkpoint old) None
  | RS_CheckpointForkConflict _ _ _ =>
      MkChainRecord RECORD_VERSION hh_id CK_CheckpointForkConflict (ch_genesis_checkpoint old)
        (ch_accepted_checkpoint old) (ch_predecessor_checkpoint old) (Some candidate_bytes)
  | RS_EventForkConflict _ _ _ =>
      MkChainRecord RECORD_VERSION hh_id CK_EventForkConflict (ch_genesis_checkpoint old)
        (ch_accepted_checkpoint old) (ch_predecessor_checkpoint old) (Some candidate_bytes)
  | RS_NoGenesis => MkChainRecord RECORD_VERSION hh_id CK_NoGenesis None None None None
  end.
End records.
