(* ===== verification/RosterRederive.v ===== *)
(** * The machine roster: what a stored record re-derives to

    A record that decodes and re-derives stands for an accepted roster with the
    invariant of [RosterInv], signed by the owner its genesis checkpoint names,
    whose members and tombstones are those of the accepted checkpoint. *)

From stdpp Require Import base gmap sets list strings.
From Stdlib Require Import ZArith Lia Ascii.
From S2P Require Import Prelude.
From S2P Require Import Cbor.
From S2P Require Import CborProofs.
From S2P Require Import Canonical.
From S2P Require Import Crypto.
From S2P Require Import RosterView.
From S2P Require Import Ledger.
From S2P Require Import Household.
From S2P Require Import Roster.
From S2P Require Import RosterAdmit.
From S2P Require Import RosterProofs.
From S2P Require Import RosterInv.
From S2P Require Import RosterRecord.

Open Scope Z_scope.

Section rederive.
Context {CC : CborCrate} {SC : SessionCrypto} {HC : HouseholdCrypto} {DD : DerivedDecoders} {CL : CborLaws}.
Context (hx : HistoricalHouseholdContext).

(** The roster [d] is the one checkpoint [c] describes, signed by [b]. *)
Record Rederived (b : HistoricalOwnerBinding) (c : MachineRosterCheckpointV1) (d : AcceptedRosterData) : Prop := {
  re_ok : RosterOk (hx_hh_id hx) (hx_hh_pub hx) d;
  re_signed : verify_checkpoint_authority c (ac_authority (hist_admission hx b (cp_issued_at c))) = Ok tt;
  re_hash : checkpoint_hash c = Ok (ad_checkpoint_hash d);
  re_sequence : ad_checkpoint_sequence d = cp_checkpoint_sequence c;
  re_issued : ad_issued_at d = cp_issued_at c;
  re_not_after : ad_not_after d = cp_not_after c;
  re_active : ad_active d = cp_active c;
  re_tombstones : ad_tombstones d = cp_revocations c;
  re_fp : ad_owner_cert_fingerprint d = ob_cert_fingerprint b;
  re_cp_fp : cp_owner_cert_fingerprint c = ob_cert_fingerprint b;
}.

Lemma readmit_Ok c s ctx s' :
  readmit c s ctx = Ok s' → ∃ h, Checked c h s ctx ∧ Admission c h ctx s s' CA_Accepted.
Proof.
  unfold readmit. destruct (admit_checkpoint c s ctx) as [st r] eqn:Ha. case_bool_decide as Hr; [|done].
  intros [= <-]. subst r. apply admit_cases in Ha as [[_ ?]|(h & Hc & HA)]; [done|].
  exists h. split; [by apply admission_checks_Ok|done].
Qed.

Lemma ctx_for_hist b now : ctx_for (hx_hh_id hx) (hx_hh_pub hx) (hist_admission hx b now).
Proof. done. Qed.

Lemma rederive_genesis_Ok c s b :
  rederive_genesis c hx = Ok (s, b) → ∃ d, s = RS_Accepted d ∧ Rederived b c d.
Proof.
  unfold rederive_genesis. intros H. apply bind_Ok in H as ([[p_id p_pub] fp] & _ & H).
  apply bind_Ok in H as (? & _ & H).
  apply bind_Ok in H as (? & Hfp%reject_if_Ok%negb_false_iff%bool_decide_eq_true & H).
  apply bind_Ok in H as (st & (h & Hck & HA)%readmit_Ok & [= <- <-]).
  pose proof (admission_inv _ _ _ _ _ RS_NoGenesis _ _ (ctx_for_hist _ _) I Hck HA) as Hok.
  inversion HA; subst. eexists. split; [done|]. destruct Hck. by split.
Qed.

Lemma rederive_accepted_Ok g a p s b :
  rederive_accepted g a p hx = Ok (s, b) →
  ∃ c d, from_raw a = Ok c ∧ s = RS_Accepted d ∧ Rederived b c d.
Proof.
  unfold rederive_accepted, canonical_checkpoint. intros H.
  apply bind_Ok in H as (cg & Hg%map_err_Ok & H).
  apply bind_Ok in H as ([sg bg] & (dg & -> & Hdg)%rederive_genesis_Ok & H).
  apply bind_Ok in H as (c & Ha%map_err_Ok & H). exists c.
  destruct (Z.eqb_spec (cp_checkpoint_sequence c) 1) as [H1|H1].
  { apply bind_Ok in H as (? & _ & H).
    apply bind_Ok in H as (? & Hb%reject_if_Ok%negb_false_iff%bool_decide_eq_true & [= <- <-]).
    subst a. assert (cg = c) as -> by congruence. eauto. }
  apply bind_Ok in H as (pb & Hpb%ok_or_Ok & H). apply bind_Ok in H as (cp & Hp%map_err_Ok & H).
  apply bind_Ok in H as (? & Hge%reject_if_Ok%Z.ltb_ge & H).
  apply bind_Ok in H as (? & Hsq%reject_if_Ok%negb_false_iff%Z.eqb_eq & H).
  destruct (Z.eqb_spec (cp_checkpoint_sequence cp) 1) as [Hp1|Hp1].
  - apply bind_Ok in H as (? & _ & H). apply bind_Ok in H as (? & _ & H).
    apply bind_Ok in H as (st & (h & Hck & HA)%readmit_Ok & [= <- <-]).
    pose proof (admission_inv _ _ _ _ _ (RS_Accepted dg) _ _ (ctx_for_hist _ _) (re_ok _ _ _ Hdg) Hck HA) as Hok.
    inversion HA; subst. eexists. split_and!; [done..|].
    destruct (ck_accepted _ _ _ _ Hck _ eq_refl) as (_ & Hfp & _).
    pose proof (re_fp _ _ _ Hdg) as Hg2. destruct Hck. by split; cbn; try congruence.
  - apply bind_Ok in H as (st & Hb%map_err_Ok & [= <- <-]). unfold historical_reapply_next in Hb.
    apply bind_Ok in Hb as (? & Hx & Hb). apply bind_Ok in Hb as (? & _ & Hb).
    apply bind_Ok in Hb as (? & _ & Hb).
    apply bind_Ok in Hb as (? & Hpe%reject_if_Ok%negb_false_iff%bool_decide_eq_true & Hb).
    apply bind_Ok in Hb as (? & Hce%reject_if_Ok%negb_false_iff%bool_decide_eq_true & Hb).
    apply bind_Ok in Hb as (? & _ & Hb). apply bind_Ok in Hb as (? & Hv%map_err_Ok & Hb).
    apply bind_Ok in Hb as (h & Hh%map_err_Ok & Hb).
    apply bind_Ok in Hb as ([act tomb] & Hproj%map_err_Ok & Hb).
    apply project_Ok in Hproj as (_ & -> & HP & _).
    apply bind_Ok in Hb as (ph & _ & Hb).
    destruct (evaluate_next_seq c h _ _) as [st' r|r] eqn:He; [|done].
    apply evaluate_cases in He as [(-> & -> & HF)|(-> & _)]; [|done]. injection Hb as <-.
    unfold check_bridge_contexts in Hx. do 7 (apply bind_Ok in Hx as (? & _ & Hx)).
    cbn [hist_admission ac_bound_owner_cert_fingerprint] in Hx.
    apply bind_Ok in Hx as (? & _ & Hx).
    apply bind_Ok in Hx as (? & Hpf%reject_if_Ok%negb_false_iff%bool_decide_eq_true & Hx).
    apply reject_if_Ok, negb_false_iff, bool_decide_eq_true in Hx.
    unfold verify_checkpoint_full_historical in Hv. apply bind_Ok in Hv as ([] & Hv & _).
    destruct Hdg as [Hok _ _ _ _ _ _ _ Hfp _]. destruct Hok.
    eexists. split_and!; [done..|]. split; try done. eapply next_ok; [|done..].
    destruct HP. split; cbn; try done; [lia|]. by rewrite Hx, <- Hpf.
Qed.

(** A fork re-derives to a fork. *)
Definition is_fork (s : AcceptedRosterChainState) : bool :=
  match s with RS_CheckpointForkConflict _ _ _ | RS_EventForkConflict _ _ _ => true | _ => false end.

Lemma rederive_fork_Ok g a p cb k s b :
  rederive_fork g a p cb k hx = Ok (s, b) → is_fork s = true.
Proof.
  unfold rederive_fork. intros H. apply bind_Ok in H as (? & _ & H).
  apply bind_Ok in H as ([sa ba] & _ & H). apply bind_Ok in H as (c & _ & H).
  apply bind_Ok in H as (? & _ & H). repeat case_match; simplify_eq; done.
Qed.

(** The states a record can stand for. *)
Lemma rederive_current_Ok r s fp :
  rederive_current_state r hx = Ok (s, fp) →
  match ch_state_kind r with
  | CK_NoGenesis => s = RS_NoGenesis
  | CK_Accepted => ∃ a c d b, ch_accepted_checkpoint r = Some a ∧ from_raw a = Ok c ∧ s = RS_Accepted d ∧
      Rederived b c d ∧ fp = Some (ob_cert_fingerprint b)
  | _ => is_fork s = true
  end.
Proof.
  unfold rederive_current_state. destruct (ch_state_kind r).
  - by intros [= <- <-].
  - intros H. apply bind_Ok in H as (g & _ & H). apply bind_Ok in H as (a & Ha%ok_or_Ok & H).
    apply bind_Ok in H as ([st b] & (c & d & Hc & -> & Hd)%rederive_accepted_Ok & [= <- <-]).
    by exists a, c, d, b.
  - intros H. do 3 (apply bind_Ok in H as (? & _ & H)).
    by apply bind_Ok in H as ([st b] & ?%rederive_fork_Ok & [= <- <-]).
  - intros H. do 3 (apply bind_Ok in H as (? & _ & H)).
    by apply bind_Ok in H as ([st b] & ?%rederive_fork_Ok & [= <- <-]).
Qed.
End rederive.
