(* ===== verification/RosterStore.v ===== *)
(** * The machine roster: the durable store

    Models the operations of [household-rs/src/machine_roster_store.rs] on disk:
    the lock, the strict atomic replacement, the clock floor with its latch, and
    the coordinator's operations.

    One directory holds the clock floor, the accepted chain and a temporary
    file for each. As for the nonce ledger ([LedgerDisk]), an unsynced directory
    is the list of states a power failure may expose, and which system calls
    fail is an argument; no operation writes after a failed call, except that
    an unavailable floor ends the operation with an answer. The exclusive lock
    serializes the operations of all processes; each process has its own latch.
    Paths and the operating system's errors are left out of the error values. *)

From stdpp Require Import base gmap sets list strings.
From Stdlib Require Import ZArith Lia Ascii.
From S2P Require Import Prelude.
From S2P Require Import Cbor.
From S2P Require Import Canonical.
From S2P Require Import Crypto.
From S2P Require Import RosterView.
From S2P Require Import Ledger.
From S2P Require Import LedgerDisk.
From S2P Require Import Household.
From S2P Require Import Roster.
From S2P Require Import RosterAdmit.
From S2P Require Import RosterRecord.

Open Scope Z_scope.

Definition DURABLE_CLOCK_FUTURE_SKEW_SECS : Z := 60.

(** ** Errors and answers *)

Inductive StoreIoStage :=
| IS_CreateDir | IS_StatDir | IS_SetDirMode | IS_ReadClock | IS_ReadChain | IS_WriteClock | IS_WriteChain
| IS_StatTmp | IS_RemoveTmp | IS_OpenTmp | IS_StatTmpMode | IS_WritePayload | IS_Flush | IS_SyncTmp
| IS_Rename | IS_OpenParent | IS_SyncParent | IS_Readback | IS_LockCreate | IS_LockStat | IS_LockAcquire.

Inductive StoreTarget := TG_ClockFloor | TG_AcceptedChain | TG_LockFile | TG_Tmp.

Inductive RosterStoreError :=
| SE_Io (stage : StoreIoStage)
| SE_UnsafeFileType (target : StoreTarget)
| SE_TempAlreadyExists
| SE_ModeMismatch
| SE_InvalidPath
| SE_LockTimeout
| SE_NotInitialized
| SE_AlreadyInitialized
| SE_InconsistentProvisioningState
| SE_ReadbackMismatch
| SE_LatchPoisoned
| SE_Integrity (e : ChainIntegrityError)
| SE_Storage
| SE_Household
| SE_OwnerAuth
| SE_InvalidCurrentOwnerAuthority.

Inductive PublicAdmissionOutcome :=
| PA_Accepted
| PA_IdempotentDuplicate
| PA_RejectedReplay
| PA_RejectedGap
| PA_RejectedRollback
| PA_RejectedMalformed
| PA_RejectedOwner
| PA_RejectedCaveat
| PA_RejectedSignature
| PA_RejectedTemporal
| PA_RejectedProjection
| PA_EpochMigrationRequired
| PA_CheckpointForkConflictRecorded
| PA_EventForkConflictRecorded.

Inductive PublicCurrencyOutcome :=
| PO_Active (member : MachineRosterMemberV1)
| PO_Revoked (tombstone : MachineRosterRevocationV1)
| PO_NotListed
| PO_UnavailableNoGenesis
| PO_UnavailableCheckpointStale
| PO_UnavailableCheckpointForkConflict
| PO_UnavailableEventForkConflict
| PO_UnavailableClockState
| PO_UnavailableOwnerAuthority.

Inductive RosterEvidenceOutcome :=
| EO_Available | EO_UnavailableClockState | EO_UnavailableOwnerAuthority | EO_UnavailableCheckpointStale.

Record RosterEvidenceSnapshot := MkEvidenceSnapshot {
  es_hh_id : HouseholdId;
  es_state_kind : Z;
  es_floor_secs : Z;
  es_genesis_checkpoint : option bytes;
  es_accepted_checkpoint : option bytes;
  es_predecessor_checkpoint : option bytes;
  es_conflicting_checkpoint : option bytes;
}.

Inductive RosterSnapshotError :=
| RE_NotInitialized
| RE_LatchPoisoned
| RE_Io (e : RosterStoreError)
| RE_ClockStateUnavailable
| RE_NoGenesis
| RE_CheckpointForkConflict
| RE_EventForkConflict
| RE_OwnerAuthorityUnavailable
| RE_CheckpointStale.

(** [From<UnavailableReason>] *)
Definition snapshot_unavailable (reason : UnavailableReason) : RosterSnapshotError :=
  match reason with
  | UR_ClockStateUnavailable => RE_ClockStateUnavailable
  | UR_NoGenesis => RE_NoGenesis
  | UR_CheckpointForkConflict => RE_CheckpointForkConflict
  | UR_EventForkConflict => RE_EventForkConflict
  | UR_OwnerAuthorityUnavailable => RE_OwnerAuthorityUnavailable
  | UR_CheckpointStale => RE_CheckpointStale
  end.

Definition map_admission_result (r : CheckpointAdmissionResult) : PublicAdmissionOutcome :=
  match r with
  | CA_Accepted => PA_Accepted
  | CA_IdempotentDuplicate => PA_IdempotentDuplicate
  | CA_RejectedReplay => PA_RejectedReplay
  | CA_RejectedGap => PA_RejectedGap
  | CA_RejectedRollback => PA_RejectedRollback
  | CA_RejectedMalformed => PA_RejectedMalformed
  | CA_RejectedOwner => PA_RejectedOwner
  | CA_RejectedCaveat => PA_RejectedCaveat
  | CA_RejectedSignature => PA_RejectedSignature
  | CA_RejectedTemporal => PA_RejectedTemporal
  | CA_RejectedProjection => PA_RejectedProjection
  | CA_EpochMigrationRequired => PA_EpochMigrationRequired
  | CA_CheckpointForkConflictRecorded => PA_CheckpointForkConflictRecorded
  | CA_EventForkConflictRecorded => PA_EventForkConflictRecorded
  end.

Definition map_currency_result (r : MachineCurrencyResult) : PublicCurrencyOutcome :=
  match r with
  | MC_Active member => PO_Active member
  | MC_Revoked tombstone => PO_Revoked tombstone
  | MC_NotListed => PO_NotListed
  | MC_Unavailable reason =>
      match reason with
      | UR_NoGenesis => PO_UnavailableNoGenesis
      | UR_CheckpointStale => PO_UnavailableCheckpointStale
      | UR_CheckpointForkConflict => PO_UnavailableCheckpointForkConflict
      | UR_EventForkConflict => PO_UnavailableEventForkConflict
      | UR_ClockStateUnavailable => PO_UnavailableClockState
      | UR_OwnerAuthorityUnavailable => PO_UnavailableOwnerAuthority
      end
  end.

Definition evidence_outcome (r : MachineCurrencyResult) : RosterEvidenceOutcome :=
  match r with
  | MC_Unavailable UR_ClockStateUnavailable => EO_UnavailableClockState
  | MC_Unavailable UR_OwnerAuthorityUnavailable => EO_UnavailableOwnerAuthority
  | MC_Unavailable UR_CheckpointStale => EO_UnavailableCheckpointStale
  | _ => EO_Available
  end.

(** ** The disk *)

(** A file and its temporary sibling. *)
Record Slot := MkSlot { sl_file : option LFile; sl_tmp : option LFile }.

Record RDir := MkRDir { rd_clock : Slot; rd_chain : Slot }.

Record RDisk := MkRDisk { rk_dir : RDir; rk_pending : list RDir }.

Inductive Target := T_Clock | T_Chain.

Definition slot (t : Target) (d : RDir) : Slot :=
  match t with T_Clock => rd_clock d | T_Chain => rd_chain d end.

Definition set_slot (t : Target) (s : Slot) (d : RDir) : RDir :=
  match t with
  | T_Clock => MkRDir s (rd_chain d)
  | T_Chain => MkRDir (rd_clock d) s
  end.

(** A change of the directory, or of a file in it, that is not yet synced. *)
Definition put (t : Target) (s : Slot) (d : RDisk) : RDisk :=
  let dir := set_slot t s (rk_dir d) in MkRDisk dir (dir :: rk_pending d).
Definition put_tmp (t : Target) (f : option LFile) (d : RDisk) : RDisk :=
  put t (MkSlot (sl_file (slot t (rk_dir d))) f) d.
Definition rsync (d : RDisk) : RDisk := MkRDisk (rk_dir d) [rk_dir d].

Definition empty_disk : RDisk :=
  let dir := MkRDir (MkSlot None None) (MkSlot None None) in MkRDisk dir [dir].

Definition slot_survives (s s' : Slot) : Prop :=
  file_survives (sl_file s) (sl_file s') ∧ file_survives (sl_tmp s) (sl_tmp s').

(** What a power failure may leave; the two files may be from different times. *)
Definition power_failure (d d' : RDisk) : Prop :=
  rk_pending d' = [rk_dir d'] ∧
  ∀ t, ∃ dir, dir ∈ rk_pending d ∧ slot_survives (slot t dir) (slot t (rk_dir d')).

(** ** Failing calls *)

(** [symlink_metadata] of a path fails, or finds something but a regular file. *)
Inductive StatFault := SF_Unsafe | SF_Err.

Record FileIo := MkFileIo { fi_stat : option StatFault; fi_read : bool }.

Inductive TmpOpenFault := TO_AlreadyExists | TO_Err.
Inductive TmpModeFault := TM_Err | TM_Mismatch.

Record StrictIo := MkStrictIo {
  sx_stat : option StatFault;
  sx_remove : bool;
  sx_open : option TmpOpenFault;
  sx_mode : option TmpModeFault;
  sx_write : option nat;          (* how much reached the file when [write_all] fails *)
  sx_flush : bool;
  sx_sync : bool;
  sx_rename : bool;
  sx_open_parent : bool;
  sx_sync_parent : bool;
  sx_readback : bool;
}.

(** ** The lock *)

Inductive DirFault := DF_Create | DF_Stat | DF_Unsafe | DF_SetMode.
Inductive LockCheck := LC_Stat | LC_Unsafe.

Record LockIo := MkLockIo {
  lk_dir : option DirFault;
  lk_stat : option StatFault;
  lk_open : bool;
  lk_poll : list FlockPoll;
  lk_check : option LockCheck;     (* the open file is not the one at the path *)
}.

Fixpoint poll_lock (l : list FlockPoll) : option (Result RosterStoreError unit) :=
  match l with
  | [] => None                                      (* still polling *)
  | FP_Ok :: _ => Some (Ok tt)
  | FP_WouldBlock true :: _ => Some (Err SE_LockTimeout)
  | FP_WouldBlock false :: l => poll_lock l
  | FP_Err :: _ => Some (Err (SE_Io IS_LockAcquire))
  end.

(** [RosterLock::acquire] *)
Definition lock_acquire (io : LockIo) : option (Result RosterStoreError unit) :=
  match lk_dir io with
  | Some DF_Create => Some (Err (SE_Io IS_CreateDir))
  | Some DF_Stat => Some (Err (SE_Io IS_StatDir))
  | Some DF_Unsafe => Some (Err (SE_UnsafeFileType TG_LockFile))
  | Some DF_SetMode => Some (Err (SE_Io IS_SetDirMode))
  | None =>
  match lk_stat io with
  | Some SF_Unsafe => Some (Err (SE_UnsafeFileType TG_LockFile))
  | Some SF_Err => Some (Err (SE_Io IS_LockStat))
  | None =>
      if lk_open io then Some (Err (SE_Io IS_LockCreate)) else
      r ← poll_lock (lk_poll io);
      Some (r;; match lk_check io with
                | Some LC_Stat => Err (SE_Io IS_LockStat)
                | Some LC_Unsafe => Err (SE_UnsafeFileType TG_LockFile)
                | None => Ok tt
                end)
  end
  end.

(** ** The strict atomic writer *)

(** A left-over temporary file is removed. *)
Definition remove_tmp (io : StrictIo) (t : Target) (d : RDisk) : Result RosterStoreError unit * RDisk :=
  match sx_stat io, sl_tmp (slot t (rk_dir d)) with
  | Some SF_Err, _ => (Err (SE_Io IS_StatTmp), d)
  | Some SF_Unsafe, Some _ => (Err (SE_UnsafeFileType TG_Tmp), d)
  | None, Some _ => if sx_remove io then (Err (SE_Io IS_RemoveTmp), d) else (Ok tt, put_tmp t None d)
  | _, None => (Ok tt, d)
  end.

Definition write_tmp (io : StrictIo) (t : Target) (canonical : bytes) (d : RDisk)
    : Result RosterStoreError unit * RDisk :=
  match sx_open io with
  | Some TO_AlreadyExists => (Err SE_TempAlreadyExists, d)
  | Some TO_Err => (Err (SE_Io IS_OpenTmp), d)
  | None =>
      let d := put_tmp t (Some (MkLFile [] false)) d in
      match sx_mode io with
      | Some TM_Err => (Err (SE_Io IS_StatTmpMode), d)
      | Some TM_Mismatch => (Err SE_ModeMismatch, d)
      | None =>
      match sx_write io with
      | Some n => (Err (SE_Io IS_WritePayload), put_tmp t (Some (MkLFile (take n canonical) false)) d)
      | None =>
          let d := put_tmp t (Some (MkLFile canonical false)) d in
          if sx_flush io then (Err (SE_Io IS_Flush), d) else
          if sx_sync io then (Err (SE_Io IS_SyncTmp), d) else
          (Ok tt, put_tmp t (Some (MkLFile canonical true)) d)
      end
      end
  end.

Definition rename_tmp (t : Target) (d : RDisk) : RDisk := put t (MkSlot (sl_tmp (slot t (rk_dir d))) None) d.

Definition strict_atomic_replace (io : StrictIo) (t : Target) (canonical : bytes)
    (validate : bytes → Result RosterStoreError unit) (d : RDisk) : Result RosterStoreError unit * RDisk :=
  match remove_tmp io t d with
  | (Err e, d) => (Err e, d)
  | (Ok _, d) =>
  match write_tmp io t canonical d with
  | (Err e, d) => (Err e, d)
  | (Ok _, d) =>
      if sx_rename io then (Err (SE_Io IS_Rename), d) else
      let d := rename_tmp t d in
      if sx_open_parent io then (Err (SE_Io IS_OpenParent), d) else
      if sx_sync_parent io then (Err (SE_Io IS_SyncParent), d) else
      let d := rsync d in
      match sx_readback io, sl_file (slot t (rk_dir d)) with
      | false, Some f =>
          (reject_if (bool_decide (lf_data f ≠ canonical)) SE_ReadbackMismatch;; validate (lf_data f), d)
      | _, _ => (Err (SE_Io IS_Readback), d)
      end
  end
  end.

(** ** The floor latch *)

Record FloorLatch := MkFloorLatch {
  fl_last_verified : option Z;
  fl_failed_target : option Z;
  fl_failure_latched : bool;
}.

Definition latch_new : FloorLatch := MkFloorLatch None None false.

(** [max] of the values that are there. *)
Definition max_of (l : list (option Z)) : option Z :=
  foldr (λ o acc, match o, acc with
                  | Some x, Some y => Some (Z.max x y)
                  | Some x, None => Some x
                  | None, _ => acc
                  end) None l.

Definition record_failure (target : option Z) (l : FloorLatch) : FloorLatch :=
  MkFloorLatch (fl_last_verified l)
    (match target with
     | Some t => max_of [Some t; fl_last_verified l; fl_failed_target l]
     | None => fl_failed_target l
     end) true.

Definition record_success (value : Z) (l : FloorLatch) : FloorLatch := MkFloorLatch (Some value) None false.

Inductive MissingFloorPolicy := MF_InitializeNoGenesis | MF_RejectUnavailable.

(** ** The coordinator *)

Record MachineRosterCoordinator := MkCoordinator {
  co_hh_id : HouseholdId;
  co_hh_pub : P256PublicKey;
  co_owner_p_id : PersonId;
  co_owner_p_pub : P256PublicKey;
  co_owner_cert_bytes : bytes;
  co_owner_cert_fp : bytes;
}.

(** The faults of one observation of the clock; [ob_clock] is what the clock
    reads, [None] before the epoch. *)
Record ObserveIo := MkObserveIo { ob_clock : option Z; ob_read : FileIo; ob_replace : StrictIo }.
Record AdvanceIo := MkAdvanceIo { av_read : FileIo; av_replace : StrictIo }.

Record OpIo := MkOpIo {
  oi_lock : LockIo;
  oi_poisoned : bool;
  oi_chain : FileIo;
  oi_observe : ObserveIo;
  oi_advance : AdvanceIo;
  oi_commit : StrictIo;
}.

Section store.
Context {CC : CborCrate} {SC : SessionCrypto} {HC : HouseholdCrypto} {DD : DerivedDecoders}.

(** The part of [from_validated_household] after the household record and the
    owner's authentication state have been validated. *)
Definition coordinator_from_owner (hh_id : HouseholdId) (hh_pub : P256PublicKey) (owner_cert : PersonCert)
    : Result RosterStoreError MachineRosterCoordinator :=
  owner_cert_bytes ← ok_or (Canonical.to_canonical_vec owner_cert) SE_Household;
  '(p_id, p_pub, fp) ← map_err (λ _, SE_InvalidCurrentOwnerAuthority)
     (derive_owner_binding_from_cert owner_cert_bytes hh_id hh_pub (pc_issued_at owner_cert));
  Ok (MkCoordinator hh_id hh_pub p_id p_pub owner_cert_bytes fp).

Section coordinator.
Context (co : MachineRosterCoordinator).

Definition current_owner_binding (expected_historical_fp : option bytes) (effective_now : Z) : option bytes :=
  match derive_owner_binding_from_cert (co_owner_cert_bytes co) (co_hh_id co) (co_hh_pub co) effective_now with
  | Err _ => None
  | Ok (derived_p_id, derived_p_pub, derived_fp) =>
      if negb (bool_decide (derived_p_id = co_owner_p_id co)) then None else
      if negb (bool_decide (derived_p_pub = co_owner_p_pub co)) then None else
      if negb (bool_decide (derived_fp = co_owner_cert_fp co)) then None else
      match expected_historical_fp with
      | Some hist_fp => if negb (bool_decide (derived_fp = hist_fp)) then None else Some derived_fp
      | None => Some derived_fp
      end
  end.

Definition read_slot (io : FileIo) (stage : StoreIoStage) (target : StoreTarget) (file : option LFile)
    : Result RosterStoreError (option bytes) :=
  match fi_stat io, file with
  | Some SF_Err, _ => Err (SE_Io stage)
  | _, None => Ok None
  | Some SF_Unsafe, Some _ => Err (SE_UnsafeFileType target)
  | None, Some f => if fi_read io then Err (SE_Io stage) else Ok (Some (lf_data f))
  end.

Definition read_clock_floor_inner (io : FileIo) (d : RDisk)
    : Result RosterStoreError (option ClockFloorRecordV1) :=
  b ← read_slot io IS_ReadClock TG_ClockFloor (sl_file (rd_clock (rk_dir d)));
  match b with
  | None => Ok None
  | Some b =>
      rec ← map_err SE_Integrity (decode_clock_floor b (co_hh_id co));
      reject_if (cl_floor_secs rec =? 0) (SE_Integrity CI_NonCanonicalRecord);;
      Ok (Some rec)
  end.

Definition read_chain_record_inner (io : FileIo) (d : RDisk)
    : Result RosterStoreError (option AcceptedChainRecordV1) :=
  b ← read_slot io IS_ReadChain TG_AcceptedChain (sl_file (rd_chain (rk_dir d)));
  match b with
  | None => Ok None
  | Some b => rec ← map_err SE_Integrity (decode_accepted_chain b (co_hh_id co)); Ok (Some rec)
  end.

(** Writes a floor; [None] is [FloorUnavailable]. *)
Definition write_floor (io : StrictIo) (new_floor : Z) (l : FloorLatch) (d : RDisk)
    : option Z * FloorLatch * RDisk :=
  let rec := MkClockFloor RECORD_VERSION (co_hh_id co) new_floor in
  match Canonical.to_canonical_vec rec with
  | None => (None, record_failure (Some new_floor) l, d)
  | Some canonical =>
      match strict_atomic_replace io T_Clock canonical
              (λ readback,
                 decoded ← map_err SE_Integrity (decode_clock_floor readback (co_hh_id co));
                 reject_if (bool_decide (decoded ≠ rec)) SE_ReadbackMismatch) d with
      | (Err _, d) => (None, record_failure (Some new_floor) l, d)
      | (Ok _, d) => (Some new_floor, record_success new_floor l, d)
      end
  end.

(** The floor on disk; [None] when there is none to go by. *)
Definition durable_floor (io : FileIo) (policy : MissingFloorPolicy) (d : RDisk) : option Z :=
  match read_clock_floor_inner io d, policy with
  | Ok (Some rec), _ => Some (cl_floor_secs rec)
  | Ok None, MF_InitializeNoGenesis => Some 0
  | _, _ => None
  end.

Definition observe_wall_floor (io : ObserveIo) (policy : MissingFloorPolicy) (l : FloorLatch) (d : RDisk)
    : option Z * FloorLatch * RDisk :=
  match ob_clock io with
  | None => (None, record_failure None l, d)
  | Some raw =>
      if raw =? 0 then (None, record_failure None l, d) else
      if negb (is_some (checked_add raw DURABLE_CLOCK_FUTURE_SKEW_SECS))
      then (None, record_failure (Some raw) l, d) else
      match durable_floor (ob_read io) policy d with
      | None => (None, record_failure (Some raw) l, d)
      | Some floor =>
          if (0 <? floor) && (raw <? floor) then
            (None, record_failure
               (max_of [Some floor; fl_last_verified l; fl_failed_target l; Some raw]) l, d)
          else if match fl_last_verified l with Some lv => raw <? lv | None => false end then
            (None, record_failure (max_of [fl_last_verified l; fl_failed_target l; Some raw]) l, d)
          else
            let new_floor := default raw
              (max_of [Some floor; Some raw; fl_last_verified l; fl_failed_target l]) in
            write_floor (ob_replace io) new_floor l d
      end
  end.

Definition advance_floor_to (io : AdvanceIo) (target : Z) (l : FloorLatch) (d : RDisk)
    : option Z * FloorLatch * RDisk :=
  if target =? 0 then (None, record_failure None l, d) else
  match read_clock_floor_inner (av_read io) d with
  | Ok (Some rec) =>
      let new_floor := default target
        (max_of [Some (cl_floor_secs rec); Some target; fl_last_verified l; fl_failed_target l]) in
      write_floor (av_replace io) new_floor l d
  | _ => (None, record_failure (Some target) l, d)
  end.

Definition hh_ctx : HistoricalHouseholdContext := MkHistoricalContext (co_hh_id co) (co_hh_pub co).

(** What a committed record is checked for when it is read back. *)
Definition validate_chain (record : AcceptedChainRecordV1) (expected : AcceptedRosterChainState)
    (readback : bytes) : Result RosterStoreError unit :=
  decoded ← map_err SE_Integrity (decode_accepted_chain readback (co_hh_id co));
  reject_if (bool_decide (decoded ≠ record)) SE_ReadbackMismatch;;
  if bool_decide (ch_state_kind decoded = CK_NoGenesis) then
    reject_if (bool_decide (expected ≠ RS_NoGenesis)) SE_ReadbackMismatch
  else
    genesis_bytes ← ok_or (ch_genesis_checkpoint decoded) SE_ReadbackMismatch;
    accepted_bytes ← ok_or (ch_accepted_checkpoint decoded) SE_ReadbackMismatch;
    '(rederived, _) ←
      match ch_state_kind decoded with
      | CK_Accepted =>
          map_err SE_Integrity
            (rederive_accepted genesis_bytes accepted_bytes (ch_predecessor_checkpoint decoded) hh_ctx)
      | kind =>
          conflicting_bytes ← ok_or (ch_conflicting_checkpoint decoded) SE_ReadbackMismatch;
          map_err SE_Integrity
            (rederive_fork genesis_bytes accepted_bytes (ch_predecessor_checkpoint decoded)
               conflicting_bytes kind hh_ctx)
      end;
    reject_if (bool_decide (rederived ≠ expected)) SE_ReadbackMismatch.

Definition commit_chain_record (io : StrictIo) (record : AcceptedChainRecordV1)
    (expected_state : AcceptedRosterChainState) (d : RDisk) : Result RosterStoreError unit * RDisk :=
  match Canonical.to_canonical_vec record with
  | None => (Err SE_Household, d)
  | Some canonical => strict_atomic_replace io T_Chain canonical (validate_chain record expected_state) d
  end.

(** ** Operations *)

(** [None] while the lock is still polled for. *)
Definition provision_no_genesis (io : OpIo) (d : RDisk) : option (Result RosterStoreError unit * RDisk) :=
  locked ← lock_acquire (oi_lock io);
  Some match (locked;; reject_if (oi_poisoned io) SE_LatchPoisoned;;
              chain ← read_chain_record_inner (oi_chain io) d;
              reject_if (is_some chain) SE_AlreadyInitialized;;
              match fi_stat (ob_read (oi_observe io)), sl_file (rd_clock (rk_dir d)) with
              | Some SF_Err, _ => Err (SE_Io IS_ReadClock)
              | _, None => Ok tt
              | _, Some _ => Err SE_InconsistentProvisioningState
              end) with
  | Err e => (Err e, d)
  | Ok _ =>
      commit_chain_record (oi_commit io)
        (MkChainRecord RECORD_VERSION (co_hh_id co) CK_NoGenesis None None None None) RS_NoGenesis d
  end.

(** A missing floor is initialized only when there is no genesis and no floor
    has failed in this process. *)
Definition floor_policy (chain_rec : AcceptedChainRecordV1) (l : FloorLatch) : MissingFloorPolicy :=
  if bool_decide (ch_state_kind chain_rec = CK_NoGenesis) && negb (fl_failure_latched l) &&
     negb (is_some (fl_failed_target l))
  then MF_InitializeNoGenesis else MF_RejectUnavailable.

(** The first part of every operation on a provisioned roster: the lock, the
    chain record, the clock floor, and the state the record stands for. *)
Inductive Opened :=
| OD_Error (e : RosterStoreError)
| OD_NoFloor
| OD_Ready (chain_rec : AcceptedChainRecordV1) (floor : Z) (state : AcceptedRosterChainState)
    (historical_fp : option bytes).

Definition open_roster (io : OpIo) (l : FloorLatch) (d : RDisk) : option (Opened * FloorLatch * RDisk) :=
  locked ← lock_acquire (oi_lock io);
  Some match (locked;; reject_if (oi_poisoned io) SE_LatchPoisoned;;
              chain ← read_chain_record_inner (oi_chain io) d;
              ok_or chain SE_NotInitialized) with
  | Err e => (OD_Error e, l, d)
  | Ok chain_rec =>
      match observe_wall_floor (oi_observe io) (floor_policy chain_rec l) l d with
      | (None, l, d) => (OD_NoFloor, l, d)
      | (Some floor, l, d) =>
          (match rederive_current_state chain_rec hh_ctx with
           | Err e => OD_Error (SE_Integrity e)
           | Ok (state, historical_fp) => OD_Ready chain_rec floor state historical_fp
           end, l, d)
      end
  end.

Definition live_ctx (floor : Z) (bound : option bytes) : AdmissionContext :=
  MkAdmissionContext
    (MkRosterAuthorityContext (co_hh_pub co) (co_hh_id co) (co_owner_p_id co) (co_owner_p_pub co) floor)
    true bound.

Definition records_change (r : CheckpointAdmissionResult) : bool :=
  match r with
  | CA_Accepted | CA_CheckpointForkConflictRecorded | CA_EventForkConflictRecorded => true
  | _ => false
  end.

(** [MachineRosterCoordinator::admit_checkpoint] *)
Definition store_admit_checkpoint (io : OpIo) (checkpoint_bytes : bytes) (l : FloorLatch) (d : RDisk)
    : option (Result RosterStoreError PublicAdmissionOutcome * FloorLatch * RDisk) :=
  opened ← open_roster io l d;
  Some match opened with
  | (OD_Error e, l, d) => (Err e, l, d)
  | (OD_NoFloor, l, d) => (Ok PA_RejectedTemporal, l, d)
  | (OD_Ready chain_rec floor current_state historical_fp, l, d) =>
      let bound := current_owner_binding historical_fp floor in
      if bool_decide (current_state = RS_NoGenesis) && negb (is_some bound)
      then (Ok PA_RejectedOwner, l, d) else
      match from_raw checkpoint_bytes with
      | Err _ => (Ok PA_RejectedMalformed, l, d)
      | Ok candidate =>
          let '(returned_state, result) := admit_checkpoint candidate current_state (live_ctx floor bound) in
          if bool_decide (returned_state ≠ current_state) && records_change result then
            match advance_floor_to (oi_advance io) (Z.max floor (cp_issued_at candidate)) l d with
            | (None, l, d) => (Ok PA_RejectedTemporal, l, d)
            | (Some _, l, d) =>
                let new_record := build_chain_record (co_hh_id co) chain_rec returned_state checkpoint_bytes in
                match commit_chain_record (oi_commit io) new_record returned_state d with
                | (Err e, d) => (Err e, l, d)
                | (Ok _, d) => (Ok (map_admission_result result), l, d)
                end
            end
          else (Ok (map_admission_result result), l, d)
      end
  end.

Definition query_machine_currency (io : OpIo) (m_id : MachineId) (l : FloorLatch) (d : RDisk)
    : option (Result RosterStoreError PublicCurrencyOutcome * FloorLatch * RDisk) :=
  opened ← open_roster io l d;
  Some match opened with
  | (OD_Error e, l, d) => (Err e, l, d)
  | (OD_NoFloor, l, d) => (Ok PO_UnavailableClockState, l, d)
  | (OD_Ready _ floor current_state historical_fp, l, d) =>
      let ctx := live_ctx floor (current_owner_binding historical_fp floor) in
      (Ok (map_currency_result (derive_machine_currency current_state m_id ctx)), l, d)
  end.

Definition query_roster_evidence (io : OpIo) (signer_m_id : MachineId) (l : FloorLatch) (d : RDisk)
    : option (Result RosterStoreError (RosterEvidenceOutcome * option RosterEvidenceSnapshot) *
              FloorLatch * RDisk) :=
  opened ← open_roster io l d;
  Some match opened with
  | (OD_Error e, l, d) => (Err e, l, d)
  | (OD_NoFloor, l, d) => (Ok (EO_UnavailableClockState, None), l, d)
  | (OD_Ready chain_rec floor current_state historical_fp, l, d) =>
      let ctx := live_ctx floor (current_owner_binding historical_fp floor) in
      let snapshot := MkEvidenceSnapshot (ch_hh_id chain_rec) (kind_code (ch_state_kind chain_rec)) floor
        (ch_genesis_checkpoint chain_rec) (ch_accepted_checkpoint chain_rec)
        (ch_predecessor_checkpoint chain_rec) (ch_conflicting_checkpoint chain_rec) in
      let outcome := evidence_outcome (derive_machine_currency current_state signer_m_id ctx) in
      (Ok (outcome, match outcome with EO_Available => Some snapshot | _ => None end), l, d)
  end.

(** How [open_roster]'s errors reach a snapshot's caller. *)
Definition snapshot_store_error (e : RosterStoreError) : RosterSnapshotError :=
  match e with
  | SE_LatchPoisoned => RE_LatchPoisoned
  | SE_NotInitialized => RE_NotInitialized
  | e => RE_Io e
  end.

Definition current_snapshot_with_trusted_wall_floor (io : OpIo) (l : FloorLatch) (d : RDisk)
    : option (Result RosterSnapshotError (RosterSnapshotView * TrustedWallFloor) * FloorLatch * RDisk) :=
  opened ← open_roster io l d;
  Some match opened with
  | (OD_Error e, l, d) => (Err (snapshot_store_error e), l, d)
  | (OD_NoFloor, l, d) => (Err RE_ClockStateUnavailable, l, d)
  | (OD_Ready _ floor current_state historical_fp, l, d) =>
      let ctx := live_ctx floor (current_owner_binding historical_fp floor) in
      (data ← map_err snapshot_unavailable (admit_current_accepted_data current_state ctx);
       Ok (project (co_hh_id co) data, MkTrustedWallFloor (co_hh_id co) floor), l, d)
  end.

Definition current_snapshot (io : OpIo) (l : FloorLatch) (d : RDisk)
    : option (Result RosterSnapshotError RosterSnapshotView * FloorLatch * RDisk) :=
  '(r, l, d) ← current_snapshot_with_trusted_wall_floor io l d;
  Some (p ← r; Ok p.1, l, d).
End coordinator.
End store.
