(* ===== verification/RosterDisk.v ===== *)
(** * The machine roster: what the store's writes leave behind

    The files an operation may leave, whatever calls fail and wherever a power
    failure strikes, and the encodings of the two records. *)

From stdpp Require Import base gmap sets list strings.
From Stdlib Require Import ZArith Lia Ascii.
From S2P Require Import Prelude.
From S2P Require Import Cbor.
From S2P Require Import CborProofs.
From S2P Require Import Canonical.
From S2P Require Import Crypto.
From S2P Require Import RosterView.
From S2P Require Import Ledger.
From S2P Require Import LedgerDisk.
From S2P Require Import Household.
From S2P Require Import Roster.
From S2P Require Import RosterAdmit.
From S2P Require Import RosterRecord.
From S2P Require Import RosterStore.

Open Scope Z_scope.

#[export] Instance Target_eq_dec : EqDecision Target.
Proof. solve_decision. Defined.

(** ** Files *)

(** The contents a target has now or may have after a power failure. *)
Definition files (t : Target) (d : RDisk) : list (option LFile) :=
  (λ dir, sl_file (slot t dir)) <$> (rk_dir d :: rk_pending d).

(** The content it has now. *)
Definition visible (t : Target) (d : RDisk) : option LFile := sl_file (slot t (rk_dir d)).

Lemma visible_files t d : visible t d ∈ files t d.
Proof. left. Qed.

Lemma slot_set_slot t t' s dir :
  slot t' (set_slot t s dir) = if decide (t' = t) then s else slot t' dir.
Proof. by destruct t, t'. Qed.

(** A change of [t] to a slot with file [f]. *)
Lemma put_files t s d t' o :
  o ∈ files t' (put t s d) → o ∈ files t' d ∨ (t' = t ∧ o = sl_file s).
Proof.
  unfold files, put. cbn [rk_dir rk_pending]. rewrite !fmap_cons, !elem_of_cons, slot_set_slot.
  destruct (decide (t' = t)); naive_solver.
Qed.

Lemma put_visible t s d t' :
  visible t' (put t s d) = if decide (t' = t) then sl_file s else visible t' d.
Proof. unfold visible, put. cbn [rk_dir]. rewrite slot_set_slot. by destruct (decide (t' = t)). Qed.

Lemma put_tmp_files t f d t' o : o ∈ files t' (put_tmp t f d) → o ∈ files t' d.
Proof.
  intros [?|[-> ->]]%put_files; [done|]. apply visible_files.
Qed.

Lemma put_tmp_visible t f d t' : visible t' (put_tmp t f d) = visible t' d.
Proof. unfold put_tmp. rewrite put_visible. by destruct (decide (t' = t)) as [->|]. Qed.

Lemma put_tmp_tmp t f d : sl_tmp (slot t (rk_dir (put_tmp t f d))) = f.
Proof. unfold put_tmp, put. cbn [rk_dir]. rewrite slot_set_slot. by rewrite decide_True. Qed.

Lemma rsync_files t d o : o ∈ files t (rsync d) ↔ o = visible t d.
Proof.
  unfold files, rsync, visible. cbn [rk_dir rk_pending]. rewrite !fmap_cons, fmap_nil, !elem_of_cons, elem_of_nil.
  naive_solver.
Qed.

Lemma remove_tmp_files io t d r d' t' o :
  remove_tmp io t d = (r, d') →
  (o ∈ files t' d' → o ∈ files t' d) ∧ visible t' d' = visible t' d.
Proof.
  unfold remove_tmp. repeat case_match; intros [= <- <-]; split; try done;
    first [apply put_tmp_files|apply put_tmp_visible].
Qed.

Lemma write_tmp_files io t c d r d' :
  write_tmp io t c d = (r, d') →
  (∀ t' o, o ∈ files t' d' → o ∈ files t' d) ∧ (∀ t', visible t' d' = visible t' d) ∧
  (r = Ok tt → sl_tmp (slot t (rk_dir d')) = Some (MkLFile c true)).
Proof.
  unfold write_tmp. intros H.
  repeat match type of H with
  | context [match ?x with _ => _ end] => destruct x
  end; injection H as <- <-; split_and!; try done; intros;
    rewrite ?put_tmp_visible; try done; try (by apply put_tmp_tmp);
    repeat match goal with E : _ ∈ files _ (put_tmp _ _ _) |- _ => apply put_tmp_files in E end; done.
Qed.

(** A strict replacement leaves every file as it was or complete; when it
    succeeds, the directory is synced and the new content validated. *)
Lemma replace_spec io t c v d r d' :
  strict_atomic_replace io t c v d = (r, d') →
  (∀ t' o, o ∈ files t' d' → o ∈ files t' d ∨ (t' = t ∧ o = Some (MkLFile c true))) ∧
  (∀ t', t' ≠ t → visible t' d' = visible t' d) ∧
  (r = Ok tt → v c = Ok tt ∧ (∀ t' o, o ∈ files t' d' → o = visible t' d') ∧
               visible t d' = Some (MkLFile c true)).
Proof.
  unfold strict_atomic_replace.
  destruct (remove_tmp io t d) as [[[]|e1] d1] eqn:H1.
  2: { intros [= <- <-]. split_and!; [intros t' o Ho; left; by eapply (remove_tmp_files _ _ _ _ _ t')|
       intros t' _; by eapply (remove_tmp_files _ _ _ _ _ t' None)|done]. }
  assert (∀ t' o, o ∈ files t' d1 → o ∈ files t' d) as F1
    by (intros t' o; by apply (remove_tmp_files _ _ _ _ _ t' o H1)).
  assert (∀ t', visible t' d1 = visible t' d) as V1
    by (intros t'; by apply (remove_tmp_files _ _ _ _ _ t' None H1)).
  destruct (write_tmp io t c d1) as [[[]|e2] d2] eqn:H2.
  2: { apply write_tmp_files in H2 as (F2 & V2 & _). intros [= <- <-]. split_and!; [|intros; by rewrite V2|done].
       intros t' o Ho. left. auto. }
  apply write_tmp_files in H2 as (F2 & V2 & HT). specialize (HT eq_refl).
  destruct (sx_rename io).
  { intros [= <- <-]. split_and!; [|intros; by rewrite V2|done]. intros t' o Ho. left. auto. }
  set (d3 := rename_tmp t d2).
  assert (∀ t' o, o ∈ files t' d3 → o ∈ files t' d ∨ t' = t ∧ o = Some (MkLFile c true)) as F3.
  { intros t' o [Ho|[-> ->]]%put_files; [left; auto|]. right. by rewrite HT. }
  assert (∀ t', t' ≠ t → visible t' d3 = visible t' d) as V3.
  { intros t' Ht. unfold d3, rename_tmp. rewrite put_visible, decide_False by done. by rewrite V2. }
  assert (visible t d3 = Some (MkLFile c true)) as E3.
  { unfold d3, rename_tmp. rewrite put_visible, decide_True by done. by rewrite HT. }
  destruct (sx_open_parent io); [by intros [= <- <-]|].
  destruct (sx_sync_parent io); [by intros [= <- <-]|].
  change (sl_file (slot t (rk_dir (rsync d3)))) with (visible t d3). rewrite E3.
  assert (∀ t' o, o ∈ files t' (rsync d3) → o ∈ files t' d ∨ t' = t ∧ o = Some (MkLFile c true)) as F4.
  { intros t' o ->%rsync_files. apply F3, visible_files. }
  destruct (sx_readback io); [by intros [= <- <-]|].
  cbn [lf_data]. intros [= <- <-]. split_and!; [done..|]. rewrite bool_decide_false by auto. cbn [reject_if mbind Result_bind].
  intros Hv. split_and!; [done| |done]. by intros t' o ->%rsync_files.
Qed.

Lemma power_failure_files t d d' o :
  power_failure d d' → o ∈ files t d' → ∃ o0, o0 ∈ files t d ∧ file_survives o0 o.
Proof.
  intros [Hp H] Ho. destruct (H t) as (dir & Hdir & [Hs _]). exists (sl_file (slot t dir)). split.
  - unfold files. rewrite fmap_cons. right.
    apply (list_elem_of_fmap_2 (λ dir, sl_file (slot t dir))). done.
  - unfold files in Ho. rewrite Hp, !fmap_cons, fmap_nil, !elem_of_cons, elem_of_nil in Ho.
    by destruct Ho as [->|[->|[]]].
Qed.

(** ** Encodings *)

Definition clock_valid (r : ClockFloorRecordV1) : Prop :=
  0 <= cl_v r < 256 ∧ household_well_formed (cl_hh_id r) = true ∧ in_u64 (cl_floor_secs r).

Section codecs.
Context {CC : CborCrate} {SC : SessionCrypto} {HC : HouseholdCrypto} {DD : DerivedDecoders} {CL : CborLaws}.

#[export] Instance ClockFloorRecordV1_laws : SerdeLaws ClockFloorRecordV1 clock_valid.
Proof.
  split; intros r (Hv & Hh & Hf); cbn [to_value of_value ClockFloorRecordV1_serde];
    assert (in_u64 (cl_v r)) by (split; unfold u64_modulus; lia).
  - struct_allowed.
  - struct_plain.
  - assert (depth (to_struct (clock_floor_fields r)) ≤ 1)%nat by struct_depth.
    pose proof cbor_recursion_limit. lia.
  - unfold clock_floor_fields. struct_lookup. unfold de_household. struct_leaves.
    rewrite de_uint_integer by (unfold u64_modulus; lia). cbn [mbind option_bind]. rewrite Hh. by destruct r.
Qed.

#[export] Instance ClockFloorRecordV1_sound : SerdeSound ClockFloorRecordV1 clock_valid.
Proof.
  intros v r Hr. cbn [of_value ClockFloorRecordV1_serde] in Hr. apply of_struct_Some in Hr as [get Hr].
  apply bind_Some in Hr as (ver & Hver & Hr). apply bind_Some in Hr as (hh & Hhh & Hr).
  apply bind_Some in Hr as (fl & Hfl & Hr). injection Hr as <-.
  apply bind_Some in Hver as (? & _ & Hver%de_uint_bound), Hfl as (? & _ & Hfl%de_u64_bound), Hhh as (? & _ & Hhh).
  unfold de_household in Hhh. apply bind_Some in Hhh as (s & _ & Hhh).
  destruct (household_well_formed s) eqn:Hs; [|done]. injection Hhh as <-. unfold clock_valid. cbn. tauto.
Qed.

(** What a decoded floor record is. *)
Lemma decode_clock_floor_Ok b hh r :
  decode_clock_floor b hh = Ok r →
  Canonical.to_canonical_vec r = Some b ∧ clock_valid r ∧ cl_v r = RECORD_VERSION ∧ cl_hh_id r = hh.
Proof.
  unfold decode_clock_floor. intros H. apply bind_Ok in H as (? & _ & H).
  apply bind_Ok in H as (rec & Hd%ok_or_Ok & H). apply bind_Ok in H as (re & He%ok_or_Ok & H).
  apply bind_Ok in H as (? & Hr%reject_if_Ok%bool_decide_eq_false & H).
  apply bind_Ok in H as (? & Hv%reject_if_Ok%negb_false_iff%Z.eqb_eq & H).
  apply bind_Ok in H as (? & Hh%reject_if_Ok%negb_false_iff%bool_decide_eq_true & [= <-]).
  split_and!; [destruct (decide (re = b)); by subst| |done..].
  unfold Canonical.from_canonical_slice in Hd. apply bind_Some in Hd as ([v n] & _ & Hd).
  by eapply serde_sound.
Qed.

(** The bytes of a floor record decode to it only. *)
Lemma floor_bytes_inj b hh r r' :
  clock_valid r → Canonical.to_canonical_vec r = Some b → decode_clock_floor b hh = Ok r' → r' = r.
Proof.
  intros Hr He (He' & Hv & _)%decode_clock_floor_Ok. by eapply (Canonical.to_canonical_vec_inj r' r b).
Qed.

(** The chain record's encoding is injective: a decoder that looks the fields
    up rebuilds the record. *)
Definition lookup_build (get : string → option CborValue) : option AcceptedChainRecordV1 :=
  let blob name := match get name with Some v => Some <$> de_byte_buf v | None => Some None end in
  v ← get "v"%string ≫= de_u64; hh_id ← get "hh_id"%string ≫= de_string;
  kind ← get "state_kind"%string ≫= de_kind;
  g ← blob "genesis_checkpoint"%string; a ← blob "accepted_checkpoint"%string;
  p ← blob "predecessor_checkpoint"%string; c ← blob "conflicting_checkpoint"%string;
  Some (MkChainRecord v hh_id kind g a p c).

Definition lookup_serde : Serde AcceptedChainRecordV1 :=
  {| to_value r := to_struct (chain_fields r); of_value := of_struct chain_names lookup_build |}.

Lemma kind_code_u64 k : in_u64 (kind_code k).
Proof. by destruct k; vm_compute. Qed.

Lemma kind_roundtrip k : kind_of_code (kind_code k) = Some k.
Proof. by destruct k. Qed.

Lemma lookup_laws : @SerdeLaws CC AcceptedChainRecordV1 lookup_serde (λ r, in_u64 (ch_v r)).
Proof.
  split; intros r Hv; cbn [to_value of_value lookup_serde];
    pose proof (kind_code_u64 (ch_state_kind r)) as Hk;
    destruct r as [v hh kind [g|] [a|] [p|] [c|]]; cbn [ch_v ch_state_kind] in Hv, Hk;
    unfold chain_fields; cbn [blob_field app ch_v ch_hh_id ch_state_kind ch_genesis_checkpoint
      ch_accepted_checkpoint ch_predecessor_checkpoint ch_conflicting_checkpoint];
    first [struct_allowed|struct_plain
          |apply (Nat.le_trans _ 1); [struct_depth|pose proof cbor_recursion_limit; lia]|idtac].
  all: struct_lookup; unfold lookup_build, de_kind; struct_leaves; by rewrite ?kind_roundtrip.
Qed.

Lemma visit_map_Some es r :
  visit_map es = Some r →
  ch_v r = RECORD_VERSION ∧
  key_set_ok (ch_state_kind r) (ch_genesis_checkpoint r) (ch_accepted_checkpoint r)
    (ch_predecessor_checkpoint r) (ch_conflicting_checkpoint r) = Some tt.
Proof.
  unfold visit_map. intros (f & _ & H)%bind_Some. apply bind_Some in H as (v & _ & H).
  apply bind_Some in H as (hh & _ & H). apply bind_Some in H as (k & _ & H).
  apply bind_Some in H as (? & Hv & H). apply bind_Some in H as ([] & Hk & H). injection H as <-.
  unfold ensure in Hv. destruct (Z.eqb_spec v RECORD_VERSION); [|done]. done.
Qed.

Lemma decode_accepted_chain_Ok b hh r :
  decode_accepted_chain b hh = Ok r →
  Canonical.to_canonical_vec r = Some b ∧ ch_hh_id r = hh ∧ ch_v r = RECORD_VERSION.
Proof.
  unfold decode_accepted_chain. intros H. do 4 (apply bind_Ok in H as (? & _ & H)).
  apply bind_Ok in H as (rec & Hd%ok_or_Ok & H). apply bind_Ok in H as (re & He%ok_or_Ok & H).
  apply bind_Ok in H as (? & Hr%reject_if_Ok%bool_decide_eq_false & H).
  apply bind_Ok in H as (? & Hh%reject_if_Ok%negb_false_iff%bool_decide_eq_true & [= <-]).
  split_and!; [destruct (decide (re = b)); by subst|done|].
  unfold Canonical.from_canonical_slice in Hd. apply bind_Some in Hd as ([v n] & _ & Hd).
  cbn [of_value AcceptedChainRecordV1_serde] in Hd. destruct v; try done. by apply visit_map_Some in Hd as [? _].
Qed.

(** The bytes of a chain record decode to it only. *)
Lemma chain_bytes_inj b hh r r' :
  Canonical.to_canonical_vec r = Some b → decode_accepted_chain b hh = Ok r' → ch_v r = RECORD_VERSION → r' = r.
Proof.
  intros He (He' & _ & Hv')%decode_accepted_chain_Ok Hv.
  apply (@Canonical.to_canonical_vec_inj CC CL _ lookup_serde _ lookup_laws r' r b); try done;
    rewrite ?Hv, ?Hv'; by vm_compute.
Qed.
End codecs.
