(* ===== verification/RosterHistory.v ===== *)
(** * The machine roster: histories of the store

    The operations of the store as steps on its disk, and the histories they
    and power failures make. The latch of an operation is any latch of 64-bit
    values, so a history covers any number of processes and restarts. *)

From stdpp Require Import base gmap sets list strings.
From Stdlib Require Import ZArith Lia Ascii.
From S2P Require Import Prelude.
From S2P Require Import Cbor.
From S2P Require Import CborProofs.
From S2P Require Import Canonical.
From S2P Require Import Crypto.
From S2P Require Import RosterView.
From S2P Require Import Ledger.
From S2P Require Import LedgerDisk.
From S2P Require Import Household.
From S2P Require Import Roster.
From S2P Require Import RosterAdmit.
From S2P Require Import RosterProofs.
From S2P Require Import RosterInv.
From S2P Require Import RosterRecord.
From S2P Require Import RosterRederive.
From S2P Require Import RosterStore.
From S2P Require Import RosterDisk.

Open Scope Z_scope.

(** ** The latch *)

Definition latch_ok (l : FloorLatch) : Prop :=
  ∀ v, fl_last_verified l = Some v ∨ fl_failed_target l = Some v → in_u64 v.

Lemma max_of_cons o l :
  max_of (o :: l) = match o, max_of l with
                    | Some x, Some y => Some (Z.max x y)
                    | Some x, None => Some x
                    | None, m => m
                    end.
Proof. done. Qed.

Lemma max_of_in l m : max_of l = Some m → Some m ∈ l.
Proof.
  revert m. induction l as [|[x|] l IH]; intros m; rewrite ?max_of_cons; [done| |intros H; right; by apply IH].
  destruct (max_of l) as [y|]; intros [= <-]; [|left].
  destruct (Z.max_spec x y) as [[_ ->]|[_ ->]]; [right; by apply IH|left].
Qed.

Lemma max_of_le l x : Some x ∈ l → ∃ m, max_of l = Some m ∧ x <= m.
Proof.
  induction l as [|o l IH]; [by intros ?%not_elem_of_nil|].
  intros [<-|Hx]%elem_of_cons; rewrite max_of_cons.
  - destruct (max_of l) as [y|]; eexists; (split; [done|lia]).
  - destruct (IH Hx) as (m & -> & Hm). destruct o as [y|]; eexists; (split; [done|lia]).
Qed.

Section history.
Context {CC : CborCrate} {SC : SessionCrypto} {HC : HouseholdCrypto} {DD : DerivedDecoders} {CL : CborLaws}.
Context (hh_id : HouseholdId) (hh_pub : P256PublicKey) (Hwf : household_well_formed hh_id = true).

Definition for_household (co : MachineRosterCoordinator) : Prop := co_hh_id co = hh_id ∧ co_hh_pub co = hh_pub.

Definition floor_record (f : Z) : ClockFloorRecordV1 := MkClockFloor RECORD_VERSION hh_id f.

(** ** Writing a floor *)

(** [f] is no earlier than the floor on disk, which there is if there is a
    file. *)
Definition floor_above (d : RDisk) (f : Z) : Prop :=
  in_u64 f ∧ ∀ lf, visible T_Clock d = Some lf →
    ∃ r, decode_clock_floor (lf_data lf) hh_id = Ok r ∧ cl_floor_secs r <= f.

(** An attempt to write a floor: the chain is untouched, the clock has its old
    contents or the new floor, and on success everything is synced. *)
Record FloorStep (d : RDisk) (r : option Z) (d' : RDisk) : Prop := {
  fs_chain : visible T_Chain d' = visible T_Chain d;
  fs_chain_files : ∀ o, o ∈ files T_Chain d' → o ∈ files T_Chain d;
  fs_clock_files : ∀ o, o ∈ files T_Clock d' → o ∈ files T_Clock d ∨
    ∃ f b, floor_above d f ∧ Canonical.to_canonical_vec (floor_record f) = Some b ∧ o = Some (MkLFile b true);
  fs_success : ∀ f, r = Some f → floor_above d f ∧ (∀ t o, o ∈ files t d' → o = visible t d') ∧
    ∃ b, Canonical.to_canonical_vec (floor_record f) = Some b ∧ visible T_Clock d' = Some (MkLFile b true);
}.

Lemma floor_step_refl d : FloorStep d None d.
Proof. by split; [done|auto..|]. Qed.

Lemma write_floor_step co io f l d r l' d' :
  for_household co → floor_above d f → write_floor co io f l d = (r, l', d') → FloorStep d r d'.
Proof.
  intros [Hh _] Hf. unfold write_floor. rewrite Hh. fold (floor_record f).
  destruct (Canonical.to_canonical_vec (floor_record f)) as [b|] eqn:Hb.
  2: { intros [= <- <- <-]. apply floor_step_refl. }
  destruct (strict_atomic_replace io T_Clock b _ d) as [res d1] eqn:Hr.
  apply replace_spec in Hr as (Hfi & Hvi & Hok). intros H.
  assert (d1 = d') as <- by (by destruct res; injection H).
  split.
  - by apply Hvi.
  - intros o Ho. by destruct (Hfi _ _ Ho) as [?|[? _]].
  - intros o Ho. destruct (Hfi _ _ Ho) as [?|[_ ->]]; [by left|]. right. by exists f, b.
  - intros f' ->. destruct res as [[]|]; [|done]. injection H as <- _.
    destruct (Hok eq_refl) as (_ & Hs & Hv). split_and!; [done..|]. by exists b.
Qed.

Lemma read_clock_Ok co io d o :
  for_household co → read_clock_floor_inner co io d = Ok o →
  match o with
  | Some r => ∃ lf, visible T_Clock d = Some lf ∧ decode_clock_floor (lf_data lf) hh_id = Ok r
  | None => visible T_Clock d = None
  end.
Proof.
  intros [Hh _] H. unfold read_clock_floor_inner in H. rewrite Hh in H.
  apply bind_Ok in H as (b & Hb & H). unfold read_slot in Hb.
  change (sl_file (rd_clock (rk_dir d))) with (visible T_Clock d) in Hb.
  destruct b as [b|].
  - apply bind_Ok in H as (r & Hr%map_err_Ok & H). apply bind_Ok in H as (? & _ & [= <-]).
    destruct (fi_stat io) as [[]|], (visible T_Clock d) as [lf|]; try done.
    destruct (fi_read io); [done|]. injection Hb as <-. eauto.
  - injection H as <-. destruct (fi_stat io) as [[]|], (visible T_Clock d) as [lf|]; try done.
    by destruct (fi_read io).
Qed.

(** The floor on disk, the reading, and the latch are all at most the maximum. *)
Lemma new_floor_above co io d l policy raw durable :
  for_household co → latch_ok l → in_u64 raw →
  durable_floor co io policy d = Some durable →
  floor_above d (default raw (max_of [Some durable; Some raw; fl_last_verified l; fl_failed_target l])).
Proof.
  intros Hco Hl Hraw Hd. unfold durable_floor in Hd.
  destruct (max_of_le [Some durable; Some raw; fl_last_verified l; fl_failed_target l] durable)
    as (m & Hm & Hle); [left|]. rewrite Hm. cbn [default].
  destruct (read_clock_floor_inner co io d) as [[r|]|e] eqn:Hr; [..|done].
  - injection Hd as <-. apply (read_clock_Ok co io d (Some r) Hco) in Hr as (lf & Hv & Hdec). split.
    + apply decode_clock_floor_Ok in Hdec as (_ & (_ & _ & Hu) & _).
      apply max_of_in in Hm. rewrite !elem_of_cons, elem_of_nil in Hm.
      destruct Hm as [[= ->]|[[= ->]|[Hx|[Hx|[]]]]]; [done..|apply Hl; by left|apply Hl; by right].
    + intros lf' Hv'. rewrite Hv in Hv'. injection Hv' as <-. eauto.
  - apply (read_clock_Ok co io d None Hco) in Hr. destruct policy; [|done]. injection Hd as <-. split.
    + apply max_of_in in Hm. rewrite !elem_of_cons, elem_of_nil in Hm.
      destruct Hm as [[= ->]|[[= ->]|[Hx|[Hx|[]]]]]; [by vm_compute|done|apply Hl; by left|apply Hl; by right].
    + intros lf Hv. congruence.
Qed.

Lemma observe_step co io policy l d r l' d' :
  for_household co → latch_ok l → (∀ raw, ob_clock io = Some raw → in_u64 raw) →
  observe_wall_floor co io policy l d = (r, l', d') → FloorStep d r d'.
Proof.
  intros Hco Hl Hclock. unfold observe_wall_floor.
  destruct (ob_clock io) as [raw|]; [|intros [= <- <- <-]; apply floor_step_refl].
  specialize (Hclock raw eq_refl).
  destruct (raw =? 0); [intros [= <- <- <-]; apply floor_step_refl|].
  destruct (negb _); [intros [= <- <- <-]; apply floor_step_refl|].
  destruct (durable_floor co (ob_read io) policy d) as [durable|] eqn:Hd;
    [|intros [= <- <- <-]; apply floor_step_refl].
  destruct (_ && _); [intros [= <- <- <-]; apply floor_step_refl|].
  destruct (if fl_last_verified l is Some lv then _ else false); [intros [= <- <- <-]; apply floor_step_refl|].
  apply write_floor_step; [done|]. by eapply new_floor_above.
Qed.

Lemma observe_latch co io policy l d f l' d' :
  observe_wall_floor co io policy l d = (Some f, l', d') → l' = record_success f l.
Proof.
  unfold observe_wall_floor, write_floor. intros H. repeat case_match; simplify_eq; done.
Qed.

(** The floor is at least what the clock read. *)
Lemma observe_clock co io policy l d f l' d' :
  observe_wall_floor co io policy l d = (Some f, l', d') → ∃ raw, ob_clock io = Some raw ∧ raw <= f.
Proof.
  unfold observe_wall_floor. destruct (ob_clock io) as [raw|]; [|done]. intros H. exists raw. split; [done|].
  destruct (raw =? 0); [done|]. destruct (negb _); [done|].
  destruct (durable_floor _ _ _ _) as [fl|]; [|done].
  destruct (_ && _); [done|]. destruct (if fl_last_verified l is Some lv then _ else false); [done|].
  destruct (max_of_le [Some fl; Some raw; fl_last_verified l; fl_failed_target l] raw) as (m & Hm & Hle);
    [right; left|]. rewrite Hm in H. cbn [default] in H. unfold write_floor in H.
  repeat case_match; simplify_eq; done.
Qed.

Lemma open_clock co io l d rec f s fp l' d' :
  open_roster co io l d = Some (OD_Ready rec f s fp, l', d') →
  ∃ raw, ob_clock (oi_observe io) = Some raw ∧ raw <= f.
Proof.
  unfold open_roster. intros (locked & _ & H)%bind_Some. destruct (locked;; _) as [r|e]; [|done].
  destruct (observe_wall_floor _ _ _ _ _) as [[[fl|] l1] d1] eqn:Ho; [|done].
  destruct (rederive_current_state _ _) as [[? ?]|]; [|done]. injection H as -> -> _ _ _ _.
  by eapply observe_clock.
Qed.

Lemma success_ok f l : in_u64 f → latch_ok (record_success f l).
Proof. intros Hf v [[= <-]|?]; done. Qed.

Lemma advance_step co io target l d r l' d' :
  for_household co → latch_ok l → in_u64 target →
  advance_floor_to co io target l d = (r, l', d') → FloorStep d r d'.
Proof.
  intros Hco Hl Ht. unfold advance_floor_to.
  destruct (target =? 0); [intros [= <- <- <-]; apply floor_step_refl|].
  destruct (read_clock_floor_inner co (av_read io) d) as [[rec|]|] eqn:Hr;
    [|intros [= <- <- <-]; apply floor_step_refl..].
  apply write_floor_step; [done|].
  eapply (new_floor_above co (av_read io) d l MF_RejectUnavailable target); try done.
  unfold durable_floor. by rewrite Hr.
Qed.

(** ** Opening *)

Abbreviation hx := (MkHistoricalContext hh_id hh_pub).

(** The visible chain record and the state it stands for. *)
Definition shows (d : RDisk) (rec : AcceptedChainRecordV1) (s : AcceptedRosterChainState) (fp : option bytes) : Prop :=
  ∃ lf, visible T_Chain d = Some lf ∧ decode_accepted_chain (lf_data lf) hh_id = Ok rec ∧
    rederive_current_state rec hx = Ok (s, fp).

Definition io_ok (io : OpIo) : Prop := ∀ raw, ob_clock (oi_observe io) = Some raw → in_u64 raw.

Lemma read_chain_Ok co io d o :
  for_household co → read_chain_record_inner co io d = Ok o →
  match o with
  | Some r => ∃ lf, visible T_Chain d = Some lf ∧ decode_accepted_chain (lf_data lf) hh_id = Ok r
  | None => visible T_Chain d = None
  end.
Proof.
  intros [Hh _] H. unfold read_chain_record_inner in H. rewrite Hh in H.
  apply bind_Ok in H as (b & Hb & H). unfold read_slot in Hb.
  change (sl_file (rd_chain (rk_dir d))) with (visible T_Chain d) in Hb.
  destruct b as [b|].
  - apply bind_Ok in H as (r & Hr%map_err_Ok & [= <-]).
    destruct (fi_stat io) as [[]|], (visible T_Chain d) as [lf|]; try done.
    destruct (fi_read io); [done|]. injection Hb as <-. eauto.
  - injection H as <-. destruct (fi_stat io) as [[]|], (visible T_Chain d) as [lf|]; try done.
    by destruct (fi_read io).
Qed.

Lemma open_cases co io l d od l' d' :
  for_household co → latch_ok l → io_ok io → open_roster co io l d = Some (od, l', d') →
  ∃ r, FloorStep d r d' ∧
    ∀ rec floor s fp, od = OD_Ready rec floor s fp → r = Some floor ∧ shows d rec s fp ∧ latch_ok l'.
Proof.
  intros Hco Hl Hio. unfold open_roster. intros (locked & _ & H)%bind_Some.
  destruct (locked;; _) as [rec|e] eqn:Hc.
  2: { injection H as <- <- <-. exists None. split; [apply floor_step_refl|done]. }
  apply bind_Ok in Hc as (? & _ & Hc). apply bind_Ok in Hc as (? & _ & Hc).
  apply bind_Ok in Hc as (chain & Hch & ->%ok_or_Ok).
  apply (read_chain_Ok _ _ _ (Some rec) Hco) in Hch as (lf & Hv & Hdec).
  destruct (observe_wall_floor co (oi_observe io) _ l d) as [[r l1] d1] eqn:Ho.
  pose proof (observe_step _ _ _ _ _ _ _ _ Hco Hl Hio Ho) as Hstep. exists r.
  destruct r as [floor|].
  2: { injection H as <- <- <-. by split. }
  assert (d1 = d') as <- by (by injection H). split; [done|].
  intros rec' floor' s fp ->. unfold hh_ctx in H. destruct Hco as [Hi Hp].
  rewrite Hi, Hp in H.
  destruct (rederive_current_state rec hx) as [[s' fp']|] eqn:Hr; [|done].
  injection H as -> -> -> -> <-. split_and!; [done|by exists lf|].
  apply observe_latch in Ho as ->. apply success_ok. by apply (fs_success _ _ _ Hstep).
Qed.

(** ** The cases of an admission *)

(** A transition that changes the state is one the store records. *)
Lemma admit_changes c s ctx s' res :
  admit_checkpoint c s ctx = (s', res) →
  if bool_decide (s' ≠ s) && records_change res then s' ≠ s ∧ s' ≠ RS_NoGenesis else s' = s.
Proof.
  intros [[-> Hr]|(h & _ & HA)]%admit_cases.
  - rewrite bool_decide_false by auto. done.
  - case_bool_decide as Hne; destruct HA; cbn; try done; destruct (decide (RS_Accepted _ = RS_Accepted d)); try done.
Qed.

(** The roster was not asked; or the state machine answered and changed
    nothing; or it changed the state, the floor was advanced and synced, and
    the commit was attempted. *)
Lemma store_admit_cases co io raw l d r l' d' :
  for_household co → latch_ok l → io_ok io → store_admit_checkpoint co io raw l d = Some (r, l', d') →
  (∃ d1 r1 r2, FloorStep d r1 d1 ∧ FloorStep d1 r2 d' ∧
     ∀ out, r = Ok out → out ∈ [PA_RejectedTemporal; PA_RejectedOwner; PA_RejectedMalformed]) ∨
  ∃ rec floor s fp c ctx s' res d1, shows d rec s fp ∧ from_raw raw = Ok c ∧ ctx_for hh_id hh_pub ctx ∧
    admit_checkpoint c s ctx = (s', res) ∧ FloorStep d (Some floor) d1 ∧
    ((s' = s ∧ d' = d1 ∧ r = Ok (map_admission_result res)) ∨
     ∃ f2 d2 rc, s' ≠ s ∧ s' ≠ RS_NoGenesis ∧ FloorStep d1 (Some f2) d2 ∧
       commit_chain_record co (oi_commit io) (build_chain_record hh_id rec s' raw) s' d2 = (rc, d') ∧
       r = match rc with Ok _ => Ok (map_admission_result res) | Err e => Err e end).
Proof.
  intros Hco Hl Hio H. unfold store_admit_checkpoint in H.
  apply bind_Some in H as ([[od l1] d1] & Hop & H).
  apply (open_cases co io l d od l1 d1 Hco Hl Hio) in Hop as (rf & Hfs & Hready).
  destruct od as [e| |rec floor s fp].
  1,2: injection H as <- <- <-; left; exists d1, rf, None; split_and!; [done|apply floor_step_refl|];
    intros out [= <-]; left.
  destruct (Hready _ _ _ _ eq_refl) as (-> & Hsh & Hl1).
  destruct (_ && _).
  { injection H as <- <- <-. left. exists d1, (Some floor), None. split_and!; [done|apply floor_step_refl|].
    intros out [= <-]. right. left. }
  destruct (from_raw raw) as [c|] eqn:Hc.
  2: { injection H as <- <- <-. left. exists d1, (Some floor), None. split_and!; [done|apply floor_step_refl|].
       intros out [= <-]. right. right. left. }
  set (ctx := live_ctx _ _ _) in H. assert (ctx_for hh_id hh_pub ctx) as Hx by (by destruct Hco).
  destruct (admit_checkpoint c s ctx) as [s' res] eqn:Ha. pose proof (admit_changes _ _ _ _ _ Ha) as Hm.
  destruct (_ && _).
  2: { injection H as <- <- <-. right. exists rec, floor, s, fp, c, ctx, s', res, d1. split_and!; auto. }
  destruct (advance_floor_to co (oi_advance io) _ l1 d1) as [[rv l2] d2] eqn:Hav.
  apply advance_step in Hav; [|done..|].
  2: { destruct (fs_success _ _ _ Hfs _ eq_refl) as ([Hf _] & _).
       apply from_raw_inv in Hc as (_ & _ & (_ & _ & Hi & _)). unfold in_u64 in *. lia. }
  destruct rv as [f2|].
  2: { injection H as <- <- <-. left. exists d1, (Some floor), None. split_and!; [done..|]. intros out [= <-]. left. }
  rewrite (proj1 Hco) in H. destruct (commit_chain_record co (oi_commit io) _ s' d2) as [rc d3] eqn:Hcm.
  right. exists rec, floor, s, fp, c, ctx, s', res, d1. split_and!; try done. right.
  exists f2, d2, rc. destruct Hm. split_and!; try done; destruct rc; by injection H as <- <- <-.
Qed.

(** ** Operations as steps on the disk *)

Context (P : MachineRosterRevocationV1 → Prop).

(** The revocations of a checkpoint that was presented satisfy [P]. *)
Definition presented (raw : bytes) : Prop := ∀ c, from_raw raw = Ok c → Forall P (cp_revocations c).

Inductive DiskStep : RDisk → RDisk → Prop :=
| ds_floor d r d' : FloorStep d r d' → DiskStep d d'
| ds_provision co io d r d' :
    for_household co → visible T_Chain d = None →
    commit_chain_record co io (MkChainRecord RECORD_VERSION hh_id CK_NoGenesis None None None None)
      RS_NoGenesis d = (r, d') → DiskStep d d'
| ds_admit co io raw c ctx rec s fp s' res d r d' :
    for_household co → presented raw → from_raw raw = Ok c → shows d rec s fp →
    ctx_for hh_id hh_pub ctx → admit_checkpoint c s ctx = (s', res) → s' ≠ s →
    commit_chain_record co io (build_chain_record hh_id rec s' raw) s' d = (r, d') → DiskStep d d'
| ds_crash d d' : power_failure d d' → DiskStep d d'.

Lemma shows_floor d r d' rec s fp : FloorStep d r d' → shows d rec s fp → shows d' rec s fp.
Proof. intros Hf (lf & Hv & ?). exists lf. by rewrite (fs_chain _ _ _ Hf). Qed.

Inductive RosterOp :=
| RO_Provision
| RO_Admit (checkpoint_bytes : bytes)
| RO_Query (m_id : MachineId)
| RO_Evidence (signer_m_id : MachineId)
| RO_Snapshot.

Inductive RosterAnswer :=
| RA_Provision (r : Result RosterStoreError unit)
| RA_Admit (r : Result RosterStoreError PublicAdmissionOutcome)
| RA_Query (r : Result RosterStoreError PublicCurrencyOutcome)
| RA_Evidence (r : Result RosterStoreError (RosterEvidenceOutcome * option RosterEvidenceSnapshot))
| RA_Snapshot (r : Result RosterSnapshotError (RosterSnapshotView * TrustedWallFloor)).

Definition run_op (co : MachineRosterCoordinator) (io : OpIo) (op : RosterOp) (l : FloorLatch) (d : RDisk)
    : option (RosterAnswer * RDisk) :=
  match op with
  | RO_Provision => '(r, d) ← provision_no_genesis co io d; Some (RA_Provision r, d)
  | RO_Admit raw => '(r, _, d) ← store_admit_checkpoint co io raw l d; Some (RA_Admit r, d)
  | RO_Query m => '(r, _, d) ← query_machine_currency co io m l d; Some (RA_Query r, d)
  | RO_Evidence m => '(r, _, d) ← query_roster_evidence co io m l d; Some (RA_Evidence r, d)
  | RO_Snapshot => '(r, _, d) ← current_snapshot_with_trusted_wall_floor co io l d; Some (RA_Snapshot r, d)
  end.

Definition op_ok (op : RosterOp) : Prop :=
  match op with RO_Admit raw => presented raw | _ => True end.

Lemma provision_steps co io d r d' :
  for_household co → provision_no_genesis co io d = Some (r, d') → rtc DiskStep d d'.
Proof.
  intros Hco. unfold provision_no_genesis. intros (locked & _ & H)%bind_Some.
  destruct (locked;; _) as [[]|e] eqn:Hc; [|injection H as <- <-; apply rtc_refl]. injection H as H.
  apply bind_Ok in Hc as (? & _ & Hc). apply bind_Ok in Hc as (? & _ & Hc).
  apply bind_Ok in Hc as (chain & Hch & Hc). apply bind_Ok in Hc as (? & Hn%reject_if_Ok & _).
  destruct chain; [done|]. apply (read_chain_Ok _ _ _ None Hco) in Hch.
  apply rtc_once. eapply ds_provision; [done..|]. destruct Hco as [<- _]. done.
Qed.

Lemma admit_steps co io raw l d r l' d' :
  for_household co → latch_ok l → io_ok io → presented raw →
  store_admit_checkpoint co io raw l d = Some (r, l', d') → rtc DiskStep d d'.
Proof.
  intros Hco Hl Hio Hraw H. apply store_admit_cases in H; [|done..].
  destruct H as [(d1 & r1 & r2 & H1 & H2 & _)|H].
  { eapply rtc_l, rtc_once; by eapply ds_floor. }
  destruct H as (rec & floor & s & fp & c & ctx & s' & res & d1 & Hsh & Hc & Hx & Ha & H1 & H).
  destruct H as [(-> & -> & _)|(f2 & d2 & rc & Hne & _ & H2 & Hcm & _)]; [by eapply rtc_once, ds_floor|].
  eapply rtc_l; [by eapply ds_floor|]. eapply rtc_l; [by eapply ds_floor|]. apply rtc_once.
  eapply ds_admit; try done. eapply shows_floor; [done|]. by eapply shows_floor.
Qed.

Lemma run_op_steps co io op l d ans d' :
  for_household co → latch_ok l → io_ok io → op_ok op → run_op co io op l d = Some (ans, d') →
  rtc DiskStep d d'.
Proof.
  intros Hco Hl Hio Hop. destruct op as [|raw|m|m|]; cbn [run_op].
  - intros ([r d1] & H & [= _ <-])%bind_Some. by eapply provision_steps.
  - intros ([[r l1] d1] & H & [= _ <-])%bind_Some. by eapply admit_steps.
  - intros ([[r l1] d1] & H & [= _ <-])%bind_Some. unfold query_machine_currency in H.
    apply bind_Some in H as ([[od l2] d2] & Ho & H). apply open_cases in Ho as (rf & Hfs & _); [|done..].
    apply rtc_once. destruct od; injection H as _ _ <-; by eapply ds_floor.
  - intros ([[r l1] d1] & H & [= _ <-])%bind_Some. unfold query_roster_evidence in H.
    apply bind_Some in H as ([[od l2] d2] & Ho & H). apply open_cases in Ho as (rf & Hfs & _); [|done..].
    apply rtc_once. destruct od; injection H as _ _ <-; by eapply ds_floor.
  - intros ([[r l1] d1] & H & [= _ <-])%bind_Some. unfold current_snapshot_with_trusted_wall_floor in H.
    apply bind_Some in H as ([[od l2] d2] & Ho & H). apply open_cases in Ho as (rf & Hfs & _); [|done..].
    apply rtc_once. destruct od; injection H as _ _ <-; by eapply ds_floor.
Qed.

(** ** Invariants of the files *)

(** The target exists and its synced content satisfies [Q], now and after any
    power failure. *)
Definition everywhere (t : Target) (Q : bytes → Prop) (d : RDisk) : Prop :=
  ∀ o, o ∈ files t d → ∃ lf, o = Some lf ∧ lf_synced lf = true ∧ Q (lf_data lf).

(** The same for a target that need not exist. *)
Definition whenever (t : Target) (Q : bytes → Prop) (d : RDisk) : Prop :=
  ∀ lf, Some lf ∈ files t d → lf_synced lf = true ∧ Q (lf_data lf).

Lemma everywhere_crash t Q d d' : power_failure d d' → everywhere t Q d → everywhere t Q d'.
Proof.
  intros Hp HQ o Ho. destruct (power_failure_files _ _ _ _ Hp Ho) as (o0 & Ho0 & Hs).
  destruct (HQ o0 Ho0) as (lf & -> & Hsy & HQlf). destruct o as [lf'|]; [|done]. cbn in Hs.
  destruct Hs as [Hs1 Hs2]. exists lf'. split_and!; [done..|]. by rewrite (Hs2 Hsy).
Qed.

Lemma whenever_crash t Q d d' : power_failure d d' → whenever t Q d → whenever t Q d'.
Proof.
  intros Hp HQ lf' Ho. destruct (power_failure_files _ _ _ _ Hp Ho) as ([lf|] & Ho0 & Hs); [|done].
  destruct (HQ lf Ho0) as (Hsy & HQlf). destruct Hs as [Hs1 Hs2]. by rewrite (Hs2 Hsy).
Qed.

Lemma commit_files co io rec st d r d' :
  commit_chain_record co io rec st d = (r, d') →
  (∀ o, o ∈ files T_Clock d' → o ∈ files T_Clock d) ∧
  (∀ o, o ∈ files T_Chain d' → o ∈ files T_Chain d ∨
     ∃ b, Canonical.to_canonical_vec rec = Some b ∧ o = Some (MkLFile b true)) ∧
  (r = Ok tt → ∃ b, Canonical.to_canonical_vec rec = Some b ∧ validate_chain co rec st b = Ok tt ∧
     (∀ t o, o ∈ files t d' → o = visible t d') ∧ visible T_Chain d' = Some (MkLFile b true)).
Proof.
  unfold commit_chain_record. destruct (Canonical.to_canonical_vec rec) as [b|] eqn:Hb.
  2: { intros [= <- <-]. split_and!; [done|by left|done]. }
  intros (Hf & _ & Hok)%replace_spec. split_and!.
  - intros o Ho. by destruct (Hf _ _ Ho) as [?|[? _]].
  - intros o Ho. destruct (Hf _ _ Ho) as [?|[_ ->]]; [by left|]. right. eauto.
  - intros Hr. destruct (Hok Hr) as (? & ? & ?). eauto.
Qed.

(** *** What is stored was presented *)

Definition stored_bytes (b : bytes) : Prop :=
  ∀ rec a, decode_accepted_chain b hh_id = Ok rec → ch_accepted_checkpoint rec = Some a → presented a.

Definition Stored (d : RDisk) : Prop := whenever T_Chain stored_bytes d ∧ whenever T_Clock (λ _, True) d.

Lemma build_chain_record_v old s raw : ch_v (build_chain_record hh_id old s raw) = RECORD_VERSION.
Proof. by destruct s. Qed.

Lemma stored_empty : Stored empty_disk.
Proof.
  split; intros lf; unfold files; rewrite fmap_cons; intros [?|[?|?%not_elem_of_nil]%elem_of_cons]%elem_of_cons; done.
Qed.

Lemma stored_step d d' : DiskStep d d' → Stored d → Stored d'.
Proof.
  intros Hst [H1 H2]. destruct Hst as [d r d' Hf|co io d r d' Hco Hv Hc|
    co io raw c ctx rec s fp s' res d r d' Hco Hp Hraw (lf0 & Hv & Hdec & _) Hx Ha Hne Hc|d d' Hp].
  - split; intros lf Ho.
    + by apply H1, (fs_chain_files _ _ _ Hf).
    + apply (fs_clock_files _ _ _ Hf) in Ho as [?|(f & b & _ & _ & [= ->])]; [by apply H2|done].
  - apply commit_files in Hc as (Hcl & Hch & _). split; intros lf Ho; [|by apply H2, Hcl].
    apply Hch in Ho as [?|(b & Hb & [= ->])]; [by apply H1|]. split; [done|]. intros rec a Hd.
    by rewrite (chain_bytes_inj _ _ _ _ Hb Hd eq_refl).
  - apply commit_files in Hc as (Hcl & Hch & _). split; intros lf Ho; [|by apply H2, Hcl].
    apply Hch in Ho as [?|(b & Hb & [= ->])]; [by apply H1|]. split; [done|]. intros rec' a Hd.
    rewrite (chain_bytes_inj _ _ _ _ Hb Hd (build_chain_record_v _ _ _)).
    assert (∀ a, ch_accepted_checkpoint rec = Some a → presented a) as Hold.
    { intros a' Ha'. destruct (H1 lf0) as [_ Hs]; [rewrite <- Hv; apply visible_files|]. by eapply Hs. }
    destruct s'; cbn; auto; by intros [= <-].
  - split; by eapply whenever_crash.
Qed.

(** *** Floors never go back *)

Definition floor_bytes_from (F : Z) (b : bytes) : Prop :=
  ∀ r, decode_clock_floor b hh_id = Ok r → F <= cl_floor_secs r.

Lemma floor_bytes_of f b F :
  in_u64 f → F <= f → Canonical.to_canonical_vec (floor_record f) = Some b → floor_bytes_from F b.
Proof.
  intros Hu HF Hb r Hd. assert (clock_valid (floor_record f)) as Hv by (unfold clock_valid; cbn; by split_and!).
  by rewrite (floor_bytes_inj _ _ _ _ Hv Hb Hd).
Qed.

Lemma floor_above_le F d f : everywhere T_Clock (floor_bytes_from F) d → floor_above d f → F <= f.
Proof.
  intros HF [_ Hab]. destruct (HF _ (visible_files T_Clock d)) as (lf & Hv & _ & Hfb).
  destruct (Hab lf Hv) as (r & Hr & Hle). specialize (Hfb r Hr). lia.
Qed.

Lemma floor_step F d d' :
  DiskStep d d' → everywhere T_Clock (floor_bytes_from F) d → everywhere T_Clock (floor_bytes_from F) d'.
Proof.
  intros Hst HF. destruct Hst as [d r d' Hf|co io d r d' Hco Hv Hc|
    co io raw c ctx rec s fp s' res d r d' Hco Hp Hraw _ Hx Ha Hne Hc|d d' Hp].
  - intros o [?|(f & b & Hab & Hb & ->)]%(fs_clock_files _ _ _ Hf); [by apply HF|].
    eexists. split_and!; [done..|]. eapply floor_bytes_of; [apply Hab| |exact Hb]. by eapply floor_above_le.
  - apply commit_files in Hc as (Hcl & _). intros o Ho. by apply HF, Hcl.
  - apply commit_files in Hc as (Hcl & _). intros o Ho. by apply HF, Hcl.
  - by eapply everywhere_crash.
Qed.

(** *** Revocations stay *)

(** The record is of a fork, or its accepted checkpoint revokes the machine. *)
Definition revokes (m : MachineId) (rec : AcceptedChainRecordV1) : Prop :=
  match ch_state_kind rec with
  | CK_NoGenesis => False
  | CK_Accepted => ∃ a c, ch_accepted_checkpoint rec = Some a ∧ from_raw a = Ok c ∧
      m ∈ revoked_ids (cp_revocations c)
  | _ => True
  end.

Definition revoked_bytes (m : MachineId) (b : bytes) : Prop :=
  ∀ rec, decode_accepted_chain b hh_id = Ok rec → revokes m rec.

Context (HN : no_collision P).

(** A mutating admission on a record that revokes [m] builds one that does. *)
Lemma admit_revokes m rec s fp raw c ctx s' res :
  revokes m rec → (∀ a, ch_accepted_checkpoint rec = Some a → presented a) → presented raw →
  rederive_current_state rec hx = Ok (s, fp) → from_raw raw = Ok c → ctx_for hh_id hh_pub ctx →
  admit_checkpoint c s ctx = (s', res) → s' ≠ s → revokes m (build_chain_record hh_id rec s' raw).
Proof.
  intros Hm Hold Hp Hr%rederive_current_Ok Hc Hx Ha Hne. unfold revokes in Hm.
  apply admit_cases in Ha as [[? _]|(h & Hck%admission_checks_Ok & HA)]; [done|].
  destruct (ch_state_kind rec) eqn:Hk; [done| |by destruct s; inversion HA..].
  destruct Hr as (a & c0 & d & b & Hacc & Hc0 & -> & Hd & ->).
  destruct Hm as (a' & c' & Ha' & Hc' & Hin). rewrite Hacc in Ha'. injection Ha' as <-.
  rewrite Hc0 in Hc'. injection Hc' as <-.
  inversion HA as [|d' HF|d' HF|d' hs HF]; subst; [|done..].
  unfold revokes. cbn. exists raw, c. split_and!; [done..|].
  destruct (ck_accepted _ _ _ _ Hck d eq_refl) as (_ & Hfp & _).
  apply from_raw_inv in Hc as Hv. apply from_raw_inv in Hc0 as Hv0.
  destruct Hv as (_ & _ & (_ & _ & _ & _ & Hv)), Hv0 as (_ & _ & (_ & _ & _ & _ & Hv0)).
  assert (revoked_ids (cp_revocations c0) `prefix_of` revoked_ids (cp_revocations c)) as [k Hk'].
  { rewrite <- (re_tombstones _ _ _ _ Hd) in Hv0 |- *.
    eapply (follows_extends hh_id hh_pub P c (next_seq_input d) ctx HN); try done.
    - rewrite Hfp. apply input_ok, (re_ok _ _ _ _ Hd).
    - cbn [next_seq_input ns_tombstones]. rewrite (re_tombstones _ _ _ _ Hd). by eapply Hold.
    - by apply Hp. }
  rewrite Hk'. apply elem_of_app. by left.
Qed.

Lemma revoked_step m d d' :
  DiskStep d d' → Stored d → everywhere T_Chain (revoked_bytes m) d → everywhere T_Chain (revoked_bytes m) d'.
Proof.
  intros Hst [HS _] HR. destruct Hst as [d r d' Hf|co io d r d' Hco Hv Hc|
    co io raw c ctx rec s fp s' res d r d' Hco Hp Hraw (lf0 & Hv & Hdec & Hre) Hx Ha Hne Hc|d d' Hp].
  - intros o Ho. by apply HR, (fs_chain_files _ _ _ Hf).
  - destruct (HR _ (visible_files T_Chain d)) as (lf & Hlf & _). congruence.
  - apply commit_files in Hc as (_ & Hch & _). intros o [?|(b & Hb & ->)]%Hch; [by apply HR|].
    eexists. split_and!; [done..|]. intros rec' Hd.
    rewrite (chain_bytes_inj _ _ _ _ Hb Hd (build_chain_record_v _ _ _)).
    pose proof (visible_files T_Chain d) as Hvis. rewrite Hv in Hvis.
    eapply admit_revokes; try done.
    + destruct (HR _ Hvis) as (lf & [= <-] & _ & Hrb). by apply Hrb.
    + intros a Hacc. destruct (HS lf0 Hvis) as [_ Hs]. by eapply Hs.
  - by eapply everywhere_crash.
Qed.
End history.
