(* ===== verification/RosterSamples.v ===== *)
(** * The machine roster: a concrete household

    Toy instances of the household's parameters, and a household small enough
    to evaluate: a root, an owner and two machines, a genesis checkpoint, one
    that revokes a machine, and one issued before the owner's certificate. *)

From stdpp Require Import base gmap sets list strings.
From Stdlib Require Import ZArith Lia Ascii.
From S2P Require Import Prelude.
From S2P Require Import Cbor.
From S2P Require Import CborSample.
From S2P Require Import Canonical.
From S2P Require Import Crypto.
From S2P Require Import SessionSamples.
From S2P Require Import RosterView.
From S2P Require Import Ledger.
From S2P Require Import LedgerDisk.
From S2P Require Import Household.
From S2P Require Import Roster.
From S2P Require Import RosterAdmit.
From S2P Require Import RosterRecord.
From S2P Require Import RosterStore.
From S2P Require Import RosterHistory.

Open Scope Z_scope.

#[local] Existing Instance sample_cbor.

(** Identifiers repeat the letter of the key. *)
#[export] Instance toy_household : HouseholdCrypto := {|
  blake3 := λ b, take 1 (drop 1 b);
  base32_lower_nopad_encode := λ b,
    String.string_of_list_ascii (replicate 52 (match b with c :: _ => c | [] => "a"%char end));
  sec1_point := λ _, true;
|}.

#[export] Instance toy_decoders : DerivedDecoders := {|
  de_bytes := λ v, match v with CV_Bytes b => Some b | _ => None end;
  de_claim := λ v, match v with CV_Text s => Some (OA_Text s) | _ => None end;
  de_constraint_value := λ _, None;
  de_scope := λ v, match v with
    | CV_Map [(CV_Text k, CV_Bool b)] => if String.eqb k "all" then Some (Sc_All b) else None
    | _ => None
    end;
|}.

Definition root_key : ascii := "h".
Definition owner_key : ascii := "o".

Definition sample_id (prefix : string) (c : ascii) : string :=
  (prefix ++ String.string_of_list_ascii (replicate 52 c))%string.
Definition roster_hh : HouseholdId := sample_id "hh_" root_key.
Definition roster_pub : P256PublicKey := toy_point root_key.
Definition roster_owner : PersonId := sample_id "p_" owner_key.

Definition signed_by (k : ascii) (b : option bytes) : bytes := toy_sign k (default [] b).

(** Valid from 100 on. *)
Definition owner_cert_with (signature : bytes) : PersonCert :=
  MkPersonCert 1 "person" roster_hh roster_owner (toy_point owner_key) "Owner" owner_caveats 100 None
    (replicate 16 "n"%char) 100 (Sj_Household roster_hh) (Some (OA_Text "strong"))
    (Some (OA_Text "ios-secure-enclave-owner")) signature.
Definition owner_cert : PersonCert := owner_cert_with (signed_by root_key (person_signing_bytes (owner_cert_with []))).
Definition owner_cert_bytes : bytes := Eval vm_compute in default [] (Canonical.to_canonical_vec owner_cert).
Definition owner_fp : bytes := Eval vm_compute in toy_hash owner_cert_bytes.

Definition machine_cert_with (k : ascii) (signature : bytes) : MachineCert :=
  MkMachineCert 1 CT_Machine roster_hh (sample_id "m_" k) (toy_point k) "host" Pl_Macos 100
    (Sj_Household roster_hh) [] signature.
Definition sample_member (k : ascii) : MachineRosterMemberV1 :=
  let cert := machine_cert_with k (signed_by root_key (machine_signing_bytes (machine_cert_with k []))) in
  let b := default [] (Canonical.to_canonical_vec cert) in
  MkMember (sample_id "m_" k) (toy_point k) b (toy_hash b).
Definition member_a : MachineRosterMemberV1 := Eval vm_compute in sample_member "a".
Definition member_b : MachineRosterMemberV1 := Eval vm_compute in sample_member "b".

Definition roster_epoch : bytes := replicate 32 "e"%char.

Definition checkpoint_with (seq : Z) (prev : bytes) (head : bytes) (issued : Z) (active : list MachineRosterMemberV1)
    (revs : list MachineRosterRevocationV1) : MachineRosterCheckpointV1 :=
  let c := MkCheckpoint 1 CHECKPOINT_KIND roster_hh roster_epoch seq prev (Z.of_nat (length revs)) head zero32 issued
    (issued + 300) roster_owner owner_fp active revs owner_cert_bytes in
  let preimage := checkpoint_preimage (c (replicate 64 "000"%char)) in
  c (toy_sign owner_key (match preimage with Ok p => p | Err _ => [] end)).

Definition raw_of (c : MachineRosterCheckpointV1) : bytes := default [] (Canonical.to_canonical_vec c).
Definition hash_of (c : MachineRosterCheckpointV1) : bytes :=
  match checkpoint_hash c with Ok h => h | Err _ => [] end.

Definition genesis_cp : MachineRosterCheckpointV1 := Eval vm_compute in checkpoint_with 1 zero32 zero32 110 [member_a; member_b] [].
Definition genesis_raw : bytes := Eval vm_compute in raw_of genesis_cp.

Definition revocation_b : MachineRosterRevocationV1 := Eval vm_compute in
  let r := MkRevocation 1 REVOCATION_KIND roster_hh roster_epoch 1 zero32 (mm_m_id member_b) (mm_m_pub member_b)
    (mm_machine_cert_fingerprint member_b) 120 RR_Lost RCa_MachineOnly roster_owner owner_fp owner_cert_bytes in
  r (toy_sign owner_key (match revocation_preimage (r []) with Ok p => p | Err _ => [] end)).

Definition second_cp : MachineRosterCheckpointV1 := Eval vm_compute in
  checkpoint_with 2 (hash_of genesis_cp)
    (match revocation_event_hash revocation_b with Ok h => h | Err _ => [] end) 120 [member_a] [revocation_b].
Definition second_raw : bytes := Eval vm_compute in raw_of second_cp.

(** Issued at 90, before the certificate's [not_before]. *)
Definition early_cp : MachineRosterCheckpointV1 := Eval vm_compute in checkpoint_with 1 zero32 zero32 90 [member_a] [].
Definition early_raw : bytes := Eval vm_compute in raw_of early_cp.

Definition roster_co : MachineRosterCoordinator :=
  MkCoordinator roster_hh roster_pub roster_owner (toy_point owner_key) owner_cert_bytes owner_fp.

(** ** Calls that succeed *)

Definition file_ok : FileIo := MkFileIo None false.
Definition strict_ok : StrictIo := MkStrictIo None false None None None false false false false false false.
Definition io_at (now : Z) : OpIo :=
  MkOpIo (MkLockIo None None false [FP_Ok] None) false file_ok (MkObserveIo (Some now) file_ok strict_ok)
    (MkAdvanceIo file_ok strict_ok) strict_ok.

Definition roster_after {A} (r : option (A * RDisk)) : RDisk := match r with Some (_, d) => d | None => empty_disk end.

(** ** A history *)

Abbreviation sample_op now op d := (run_op roster_co (io_at now) op latch_new d).

(** Provisioned; the genesis checkpoint admitted; machine [b] revoked. *)
Definition roster_d0 : RDisk := Eval vm_compute in roster_after (sample_op 110 RO_Provision empty_disk).
Definition roster_d1 : RDisk := Eval vm_compute in roster_after (sample_op 110 (RO_Admit genesis_raw) roster_d0).
Definition roster_d2 : RDisk := Eval vm_compute in roster_after (sample_op 120 (RO_Admit second_raw) roster_d1).

(** Instead, the early checkpoint is presented. *)
Definition wedged_disk : RDisk := Eval vm_compute in roster_after (sample_op 110 (RO_Admit early_raw) roster_d0).

Lemma run_provision : sample_op 110 RO_Provision empty_disk = Some (RA_Provision (Ok tt), roster_d0).
Proof. vm_compute. reflexivity. Qed.

Lemma run_genesis : sample_op 110 (RO_Admit genesis_raw) roster_d0 = Some (RA_Admit (Ok PA_Accepted), roster_d1).
Proof. vm_compute. reflexivity. Qed.

Lemma run_second : sample_op 120 (RO_Admit second_raw) roster_d1 = Some (RA_Admit (Ok PA_Accepted), roster_d2).
Proof. vm_compute. reflexivity. Qed.

Lemma run_revoked :
  sample_op 120 (RO_Query (mm_m_id member_b)) roster_d2 = Some (RA_Query (Ok (PO_Revoked revocation_b)), roster_d2).
Proof. vm_compute. reflexivity. Qed.

Lemma run_active :
  sample_op 110 (RO_Query (mm_m_id member_a)) roster_d1 = Some (RA_Query (Ok (PO_Active member_a)), roster_d1).
Proof. vm_compute. reflexivity. Qed.

Lemma run_snapshot :
  ∃ view, sample_op 110 RO_Snapshot roster_d1 =
    Some (RA_Snapshot (Ok (view, MkTrustedWallFloor roster_hh 110)), roster_d1).
Proof. eexists. vm_compute. reflexivity. Qed.

Lemma run_early :
  sample_op 110 (RO_Admit early_raw) roster_d0 = Some (RA_Admit (Err (SE_Integrity CI_OwnerCertificate)), wedged_disk).
Proof. vm_compute. reflexivity. Qed.

Lemma from_raw_genesis : from_raw genesis_raw = Ok genesis_cp.
Proof. vm_compute. reflexivity. Qed.

Lemma from_raw_second : from_raw second_raw = Ok second_cp.
Proof. vm_compute. reflexivity. Qed.

Lemma from_raw_early : from_raw early_raw = Ok early_cp.
Proof. vm_compute. reflexivity. Qed.

Lemma decode_owner : decode_owner_cert owner_cert_bytes = Ok owner_cert.
Proof. vm_compute. reflexivity. Qed.
