(* ===== verification/RosterSpec.v ===== *)
(** * The machine roster: theorems

    What the roster's owner-signed checkpoints, its admission and its durable
    store guarantee together: revocations are permanent, floors never go back,
    an active answer is vouched for, an accepted checkpoint is durable, and the
    two ways of asking for a machine agree. *)

From stdpp Require Import base gmap sets list strings.
From Stdlib Require Import ZArith Lia Ascii.
From S2P Require Import Prelude.
From S2P Require Import Cbor.
From S2P Require Import CborProofs.
From S2P Require Import Canonical.
From S2P Require Import Crypto.
From S2P Require Import RosterView.
From S2P Require Import Ledger.
From S2P Require Import LedgerDisk.
From S2P Require Import Household.
From S2P Require Import Roster.
From S2P Require Import RosterAdmit.
From S2P Require Import RosterProofs.
From S2P Require Import RosterInv.
From S2P Require Import RosterRecord.
From S2P Require Import RosterRederive.
From S2P Require Import RosterStore.
From S2P Require Import RosterDisk.
From S2P Require Import RosterHistory.
From S2P Require Import CborSample.
From S2P Require Import SessionSamples.
From S2P Require Import RosterSamples.

Open Scope Z_scope.

(** ** Histories *)

Inductive RosterEvent :=
| EV_Op (io : OpIo) (op : RosterOp) (answer : RosterAnswer)
| EV_PowerFailure.

(** The machine is reported revoked, or active. *)
Definition tells_revoked (m : MachineId) (ev : RosterEvent) : Prop :=
  match ev with
  | EV_Op _ (RO_Query m') (RA_Query (Ok (PO_Revoked _))) => m' = m
  | EV_Op _ _ (RA_Snapshot (Ok (view, _))) => is_revoked view m = true
  | _ => False
  end.

Definition tells_active (m : MachineId) (ev : RosterEvent) : Prop :=
  match ev with
  | EV_Op _ (RO_Query m') (RA_Query (Ok (PO_Active _))) => m' = m
  | EV_Op _ _ (RA_Snapshot (Ok (view, _))) => is_active view m = true
  | _ => False
  end.

(** The wall floor an answer carries. *)
Definition told_floor (ev : RosterEvent) : option Z :=
  match ev with
  | EV_Op _ _ (RA_Snapshot (Ok (_, floor))) => Some (tf_unix_seconds floor)
  | EV_Op _ _ (RA_Evidence (Ok (_, Some snapshot))) => Some (es_floor_secs snapshot)
  | _ => None
  end.

Section spec.
Context {CC : CborCrate} {SC : SessionCrypto} {HC : HouseholdCrypto} {DD : DerivedDecoders}.

Inductive event_step (hh_id : HouseholdId) (hh_pub : P256PublicKey) : RDisk → RosterEvent → RDisk → Prop :=
| ev_op co io op l d answer d' :
    for_household hh_id hh_pub co → latch_ok l → io_ok io → run_op co io op l d = Some (answer, d') →
    event_step hh_id hh_pub d (EV_Op io op answer) d'
| ev_power d d' : power_failure d d' → event_step hh_id hh_pub d EV_PowerFailure d'.

Inductive RosterTrace (hh_id : HouseholdId) (hh_pub : P256PublicKey) : RDisk → list RosterEvent → RDisk → Prop :=
| rt_nil d : RosterTrace hh_id hh_pub d [] d
| rt_cons d ev d1 evs d2 :
    event_step hh_id hh_pub d ev d1 → RosterTrace hh_id hh_pub d1 evs d2 →
    RosterTrace hh_id hh_pub d (ev :: evs) d2.

(** The revocations in the checkpoints that were presented. *)
Definition presented_in (evs : list RosterEvent) (r : MachineRosterRevocationV1) : Prop :=
  ∃ io raw answer c, EV_Op io (RO_Admit raw) answer ∈ evs ∧ from_raw raw = Ok c ∧ r ∈ cp_revocations c.

Context {CL : CborLaws} (hh_id : HouseholdId) (hh_pub : P256PublicKey).
Context (Hwf : household_well_formed hh_id = true).

Section traces.
Context (P : MachineRosterRevocationV1 → Prop).

Definition event_presented (ev : RosterEvent) : Prop :=
  match ev with EV_Op _ op _ => op_ok P op | EV_PowerFailure => True end.

Lemma event_steps d ev d' :
  event_step hh_id hh_pub d ev d' → event_presented ev → rtc (DiskStep hh_id hh_pub P) d d'.
Proof.
  intros [co io op l d0 answer d0' Hco Hl Hio Hr|d0 d0' Hp]; cbn; intros Hop.
  - by eapply run_op_steps.
  - by apply rtc_once, ds_crash.
Qed.

Lemma trace_steps d evs d' :
  RosterTrace hh_id hh_pub d evs d' → Forall event_presented evs → rtc (DiskStep hh_id hh_pub P) d d'.
Proof.
  induction 1 as [|d ev d1 evs d2 Hev _ IH]; intros HF; [apply rtc_refl|].
  apply Forall_cons in HF as [Hp HF]. etrans; [by eapply event_steps|auto].
Qed.

Lemma steps_preserve (I : RDisk → Prop) d d' :
  (∀ d d', DiskStep hh_id hh_pub P d d' → I d → I d') → rtc (DiskStep hh_id hh_pub P) d d' → I d → I d'.
Proof. intros HI. induction 1; eauto. Qed.

Lemma stored_steps d d' : rtc (DiskStep hh_id hh_pub P) d d' → Stored hh_id P d → Stored hh_id P d'.
Proof. apply steps_preserve. intros ??. by eapply stored_step. Qed.

Lemma floor_steps F d d' :
  rtc (DiskStep hh_id hh_pub P) d d' →
  everywhere T_Clock (floor_bytes_from hh_id F) d → everywhere T_Clock (floor_bytes_from hh_id F) d'.
Proof. apply steps_preserve. intros ??. by eapply floor_step. Qed.

Lemma revoked_steps m d d' :
  no_collision P → rtc (DiskStep hh_id hh_pub P) d d' → Stored hh_id P d →
  everywhere T_Chain (revoked_bytes hh_id m) d → everywhere T_Chain (revoked_bytes hh_id m) d'.
Proof.
  intros HN Hr HS HR.
  apply (steps_preserve (λ d, Stored hh_id P d ∧ everywhere T_Chain (revoked_bytes hh_id m) d) d d'); [|done..].
  intros d1 d2 Hst [H1 H2]. split; [by eapply stored_step|by eapply revoked_step].
Qed.
End traces.

Lemma trace_app d evs1 evs2 d' :
  RosterTrace hh_id hh_pub d (evs1 ++ evs2) d' →
  ∃ d1, RosterTrace hh_id hh_pub d evs1 d1 ∧ RosterTrace hh_id hh_pub d1 evs2 d'.
Proof.
  revert d. induction evs1 as [|ev evs1 IH]; intros d H; [eexists; split; [constructor|done]|].
  inversion H as [|? ? d1 ? ? Hev Ht]; subst. destruct (IH _ Ht) as (d2 & H1 & H2).
  exists d2. split; [by econstructor|done].
Qed.

Lemma trace_one d ev d' : RosterTrace hh_id hh_pub d [ev] d' → event_step hh_id hh_pub d ev d'.
Proof. inversion 1 as [|? ? d1 ? ? Hev Ht]; subst. by inversion Ht; subst. Qed.

Lemma presented_events evs : Forall (event_presented (presented_in evs)) evs.
Proof.
  apply Forall_forall. intros [io op answer|] Hin; [|done]. destruct op; try done. cbn. intros c Hc.
  apply Forall_forall. intros r Hr. by exists io, checkpoint_bytes, answer, c.
Qed.

(** The disks around two events of a trace. *)
Lemma trace_split evs1 e1 evs2 e2 d :
  let P := presented_in (evs1 ++ e1 :: evs2 ++ [e2]) in
  RosterTrace hh_id hh_pub empty_disk (evs1 ++ e1 :: evs2 ++ [e2]) d →
  ∃ d1 d2 d3, Stored hh_id P d1 ∧ event_step hh_id hh_pub d1 e1 d2 ∧ Stored hh_id P d2 ∧
    rtc (DiskStep hh_id hh_pub P) d2 d3 ∧ event_step hh_id hh_pub d3 e2 d.
Proof.
  intros P Ht. pose proof (presented_events (evs1 ++ e1 :: evs2 ++ [e2])) as HP. fold P in HP.
  apply Forall_app in HP as [HP1 HP]. apply Forall_cons in HP as [HPe HP]. apply Forall_app in HP as [HP2 _].
  apply trace_app in Ht as (d1 & Ht1 & Ht). apply (trace_app _ [e1]) in Ht as (d2 & Ht2%trace_one & Ht).
  apply trace_app in Ht as (d3 & Ht3 & Ht4%trace_one).
  assert (Stored hh_id P d1) as HS1 by (eapply stored_steps; [by eapply trace_steps|apply stored_empty]).
  exists d1, d2, d3. split_and!; [done..| | |done].
  - eapply stored_steps; [by eapply event_steps|done].
  - by eapply trace_steps.
Qed.

(** ** What an answer says of the disk *)

Abbreviation hx := (MkHistoricalContext hh_id hh_pub).

(** An operation that opened the roster answers for a record that is durable. *)
Lemma ready_durable P co io l d rec floor s fp l' d' :
  for_household hh_id hh_pub co → latch_ok l → io_ok io → Stored hh_id P d →
  open_roster co io l d = Some (OD_Ready rec floor s fp, l', d') →
  rederive_current_state rec hx = Ok (s, fp) ∧
  (∀ Q : bytes → Prop, (∀ b, decode_accepted_chain b hh_id = Ok rec → Q b) → everywhere T_Chain Q d') ∧
  everywhere T_Clock (floor_bytes_from hh_id floor) d' ∧ floor_above hh_id d floor.
Proof.
  intros Hco Hl Hio [HS _] Ho. apply open_cases with (hh_id := hh_id) (hh_pub := hh_pub) in Ho as (r & Hfs & Hr); [|done..].
  destruct (Hr _ _ _ _ eq_refl) as (-> & (lf & Hv & Hdec & Hre) & _).
  destruct (fs_success _ _ _ _ Hfs _ eq_refl) as ([Hu Hab] & Hsync & b & Hb & Hvc).
  split_and!; [done| | |done].
  - intros Q HQ o ->%Hsync. exists lf. rewrite (fs_chain _ _ _ _ Hfs). split_and!; [done| |by apply HQ].
    apply HS. rewrite <- Hv. apply visible_files.
  - intros o ->%Hsync. eexists. split_and!; [exact Hvc|done|]. by eapply floor_bytes_of.
Qed.

(** The state of a record that revokes the machine has it in its tombstones,
    and the other way round. *)
Lemma revokes_tombstones m rec data fp :
  rederive_current_state rec hx = Ok (RS_Accepted data, fp) →
  revokes m rec ↔ (m ∈ revoked_ids (ad_tombstones data)).
Proof.
  intros H%rederive_current_Ok. unfold revokes. destruct (ch_state_kind rec); [done| |done..].
  destruct H as (a & c & d & b & Ha & Hc & [= <-] & Hd & _). rewrite (re_tombstones _ _ _ _ Hd). split.
  - intros (a' & c' & Ha' & Hc' & ?). rewrite Ha in Ha'. injection Ha' as <-. by assert (c' = c) as -> by congruence.
  - intros ?. by exists a, c.
Qed.

Lemma current_data_Ok s ctx data :
  admit_current_accepted_data s ctx = Ok data →
  s = RS_Accepted data ∧ ac_bound_owner_cert_fingerprint ctx = Some (ad_owner_cert_fingerprint data) ∧
  ra_effective_now (ac_authority ctx) <= ad_not_after data.
Proof.
  unfold admit_current_accepted_data. intros (? & _ & H)%bind_Ok. destruct s as [|d| |]; try done.
  apply bind_Ok in H as (? & Ho%reject_if_Ok%negb_false_iff & H).
  apply bind_Ok in H as (? & Hn%reject_if_Ok%Z.ltb_ge & [= ->]). unfold owner_available_for_currency in Ho.
  destruct (ac_bound_owner_cert_fingerprint ctx); [|done]. apply bool_decide_eq_true in Ho as ->. done.
Qed.

Lemma find_tombstone_None (l : list MachineRosterRevocationV1) m :
  iter_find (λ r, bool_decide (rr_m_id r = m)) l = None ↔ (m ∉ revoked_ids l).
Proof.
  rewrite iter_find_None. split.
  - intros H (r & -> & Hr)%list_elem_of_fmap. specialize (H r Hr). by rewrite bool_decide_true in H.
  - intros H r Hr. apply bool_decide_eq_false. intros <-. apply H. by apply list_elem_of_fmap_2.
Qed.

Lemma currency_revoked s m ctx t :
  derive_machine_currency s m ctx = MC_Revoked t →
  ∃ data, s = RS_Accepted data ∧ m ∈ revoked_ids (ad_tombstones data).
Proof.
  unfold derive_machine_currency. destruct (admit_current_accepted_data s ctx) as [data|] eqn:Hd; [|done].
  apply current_data_Ok in Hd as (-> & _). exists data. split; [done|].
  destruct (iter_find _ (ad_tombstones data)) as [r|] eqn:Hf; [|by destruct (iter_find _ (ad_active data))].
  apply iter_find_Some in Hf as [Hin <-%bool_decide_eq_true]. by apply list_elem_of_fmap_2.
Qed.

Lemma currency_active s m ctx member :
  derive_machine_currency s m ctx = MC_Active member →
  ∃ data, admit_current_accepted_data s ctx = Ok data ∧ (m ∉ revoked_ids (ad_tombstones data)) ∧
    member ∈ ad_active data ∧ mm_m_id member = m.
Proof.
  unfold derive_machine_currency. destruct (admit_current_accepted_data s ctx) as [data|] eqn:Hd; [|done].
  destruct (iter_find _ (ad_tombstones data)) as [r|] eqn:Hf; [done|]. apply find_tombstone_None in Hf.
  destruct (iter_find _ (ad_active data)) as [mm|] eqn:Ha; [|done]. intros [= <-].
  apply iter_find_Some in Ha as [Hin Hid%bool_decide_eq_true]. eauto.
Qed.

Lemma view_revoked hh data m : is_revoked (project hh data) m = true ↔ (m ∈ revoked_ids (ad_tombstones data)).
Proof.
  unfold is_revoked, project. cbn [rv_revoked_m_ids]. rewrite existsb_exists. split.
  - intros (x & Hx & <-%bool_decide_eq_true). by apply list_elem_of_In.
  - intros Hx%list_elem_of_In. exists m. by rewrite bool_decide_true.
Qed.

(** ** Answers *)

(** A machine is reported only by an operation that opened an accepted roster,
    and as its tombstones say. *)
Lemma tells_open m ev d d' :
  event_step hh_id hh_pub d ev d' → tells_revoked m ev ∨ tells_active m ev →
  ∃ co io l rec floor data fp l', for_household hh_id hh_pub co ∧ latch_ok l ∧ io_ok io ∧
    open_roster co io l d = Some (OD_Ready rec floor (RS_Accepted data) fp, l', d') ∧
    (tells_revoked m ev ↔ (m ∈ revoked_ids (ad_tombstones data))).
Proof.
  intros [co io op l d0 answer d0' Hco Hl Hio Hr|d0 d0' Hp] Ht; [|by destruct Ht].
  exists co, io, l. destruct op as [|raw|m'|m'|]; cbn in Hr; apply bind_Some in Hr as (x & Hx & Hr).
  - destruct x as [r d1]. injection Hr as <- <-. by destruct Ht.
  - destruct x as [[r l1] d1]. injection Hr as <- <-. by destruct Ht.
  - destruct x as [[r l1] d1]. injection Hr as <- <-. unfold query_machine_currency in Hx.
    apply bind_Some in Hx as ([[od l2] d2] & Ho & Hx). destruct od as [e| |rec floor s fp];
      injection Hx as <- <- <-; [by destruct Ht..|].
    set (ctx := live_ctx _ _ _) in *.
    destruct (derive_machine_currency s m' ctx) as [mm|t| |reason] eqn:Hd; cbn in Ht |- *;
      [| |by destruct Ht|by destruct reason, Ht].
    + apply currency_active in Hd as (data & (-> & _)%current_data_Ok & Hin & _).
      destruct Ht as [[]| ->]. by eexists _, _, data, _, _.
    + apply currency_revoked in Hd as (data & -> & Hin). destruct Ht as [->|[]].
      by eexists _, _, data, _, _.
  - destruct x as [[r l1] d1]. injection Hr as <- <-. by destruct Ht.
  - destruct x as [[r l1] d1]. injection Hr as <- <-. unfold current_snapshot_with_trusted_wall_floor in Hx.
    apply bind_Some in Hx as ([[od l2] d2] & Ho & Hx). destruct od as [e| |rec floor s fp];
      injection Hx as <- <- <-; [by destruct Ht..|].
    set (ctx := live_ctx _ _ _) in *.
    destruct (admit_current_accepted_data s ctx) as [data|] eqn:Hd; [|by destruct Ht].
    apply current_data_Ok in Hd as (-> & _). eexists _, _, data, _, _. split_and!; [done..|]. apply view_revoked.
Qed.

Lemma active_not_revoked m ev : tells_active m ev → ¬ tells_revoked m ev.
Proof.
  destruct ev as [io [] []|]; cbn; try done; repeat (case_match; try done); intros Ha Hr; try done;
    unfold is_active in Ha; by rewrite Hr, andb_false_r in Ha.
Qed.

Lemma told_revoked P m ev d d' :
  event_step hh_id hh_pub d ev d' → Stored hh_id P d → tells_revoked m ev →
  everywhere T_Chain (revoked_bytes hh_id m) d'.
Proof.
  intros Hev HS Ht. destruct (tells_open m ev d d' Hev) as (co & io & l & rec & floor & data & fp & l' & Hco & Hl & Hio & Ho & Hm);
    [by left|]. apply Hm in Ht.
  destruct (ready_durable P co io l d rec floor _ fp l' d' Hco Hl Hio HS Ho) as (Hre & HQ & _).
  apply HQ. intros b Hb rec' Hrec. assert (rec' = rec) as -> by congruence. by eapply revokes_tombstones.
Qed.

Lemma told_active m ev d d' :
  event_step hh_id hh_pub d ev d' → everywhere T_Chain (revoked_bytes hh_id m) d → ¬ tells_active m ev.
Proof.
  intros Hev HR Ht. destruct (tells_open m ev d d' Hev) as (co & io & l & rec & floor & data & fp & l' & Hco & Hl & Hio & Ho & Hm);
    [by right|]. apply (active_not_revoked m ev Ht), Hm.
  apply open_cases with (hh_id := hh_id) (hh_pub := hh_pub) in Ho as (r & _ & Hrd); [|done..].
  destruct (Hrd _ _ _ _ eq_refl) as (_ & (lf & Hv & Hdec & Hre) & _).
  destruct (HR _ (visible_files T_Chain d)) as (lf' & Hv' & _ & Hrb). rewrite Hv in Hv'. injection Hv' as <-.
  eapply revokes_tombstones; [done|]. by apply Hrb.
Qed.

(** C8: Revocation is permanent. Once a query or a snapshot has reported a
    machine revoked, no later query or snapshot reports it active, whatever
    checkpoints are presented, calls fail, processes restart and power failures
    occur in between, unless two presented revocations collide under SHA-256. *)
Theorem revocation_permanent evs1 e1 evs2 e2 d m :
  RosterTrace hh_id hh_pub empty_disk (evs1 ++ e1 :: evs2 ++ [e2]) d →
  no_collision (presented_in (evs1 ++ e1 :: evs2 ++ [e2])) →
  tells_revoked m e1 → ¬ tells_active m e2.
Proof.
  intros (d1 & d2 & d3 & HS1 & He1 & HS2 & Hst & He2)%trace_split HN Hr.
  eapply told_active; [exact He2|]. eapply revoked_steps; [done..|]. by eapply told_revoked.
Qed.

(** ** Floors *)

Lemma told_floor_open ev d d' f :
  event_step hh_id hh_pub d ev d' → told_floor ev = Some f →
  ∃ co io l rec s fp l', for_household hh_id hh_pub co ∧ latch_ok l ∧ io_ok io ∧
    open_roster co io l d = Some (OD_Ready rec f s fp, l', d').
Proof.
  intros [co io op l d0 answer d0' Hco Hl Hio Hr|d0 d0' Hp] Ht; [|done].
  exists co, io, l. destruct op as [|raw|m'|m'|]; cbn in Hr; apply bind_Some in Hr as (x & Hx & Hr).
  - destruct x as [r d1]. by injection Hr as <- <-.
  - destruct x as [[r l1] d1]. by injection Hr as <- <-.
  - destruct x as [[r l1] d1]. by injection Hr as <- <-.
  - destruct x as [[r l1] d1]. injection Hr as <- <-. unfold query_roster_evidence in Hx.
    apply bind_Some in Hx as ([[od l2] d2] & Ho & Hx). destruct od as [e| |rec floor s fp];
      injection Hx as <- <- <-; [done..|]. cbn in Ht.
    destruct (evidence_outcome _); try done. injection Ht as <-. by eexists _, _, _, _.
  - destruct x as [[r l1] d1]. injection Hr as <- <-. unfold current_snapshot_with_trusted_wall_floor in Hx.
    apply bind_Some in Hx as ([[od l2] d2] & Ho & Hx). destruct od as [e| |rec floor s fp];
      injection Hx as <- <- <-; [done..|].
    destruct (admit_current_accepted_data s _) as [data|]; [|done]. injection Ht as <-. by eexists _, _, _, _.
Qed.

(** A floor that was given out is in the file, whatever survives. *)
Lemma told_floor_durable P ev d d' f :
  event_step hh_id hh_pub d ev d' → Stored hh_id P d → told_floor ev = Some f →
  everywhere T_Clock (floor_bytes_from hh_id f) d'.
Proof.
  intros He HS Hf.
  destruct (told_floor_open ev d d' f He Hf) as (co & io & l & rec & s & fp & l' & Hco & Hl & Hio & Ho).
  by destruct (ready_durable _ co io l d rec f s fp l' d' Hco Hl Hio HS Ho) as (_ & _ & HF & _).
Qed.

Lemma floor_above_told F ev d d' f :
  event_step hh_id hh_pub d ev d' → told_floor ev = Some f →
  everywhere T_Clock (floor_bytes_from hh_id F) d → F <= f.
Proof.
  intros He Hf HF.
  destruct (told_floor_open ev d d' f He Hf) as (co & io & l & rec & s & fp & l' & Hco & Hl & Hio & Ho).
  apply open_cases with (hh_id := hh_id) (hh_pub := hh_pub) in Ho as (r & Hfs & Hr); [|done..].
  destruct (Hr _ _ _ _ eq_refl) as (-> & _). destruct (fs_success _ _ _ _ Hfs _ eq_refl) as (Hab & _).
  by eapply floor_above_le.
Qed.

(** C25: The wall floor never goes back. The floors that snapshots and evidence
    carry are in the order they were given out, across failing calls, restarts,
    processes and power failures. *)
Theorem trusted_floor_monotone evs1 e1 evs2 e2 d f1 f2 :
  RosterTrace hh_id hh_pub empty_disk (evs1 ++ e1 :: evs2 ++ [e2]) d →
  told_floor e1 = Some f1 → told_floor e2 = Some f2 → f1 <= f2.
Proof.
  intros (d1 & d2 & d3 & HS1 & He1 & _ & Hst & He2)%trace_split H1 H2.
  eapply floor_above_told; [exact He2|exact H2|]. eapply floor_steps; [exact Hst|]. by eapply told_floor_durable.
Qed.

(** ** Active answers *)

Lemma owner_binding_fp co hist now fp :
  current_owner_binding co hist now = Some fp → fp = co_owner_cert_fp co.
Proof.
  unfold current_owner_binding. repeat case_match; try done; intros [= <-];
    repeat match goal with E : negb _ = false |- _ => apply negb_false_iff, bool_decide_eq_true in E end; congruence.
Qed.

(** C10: An active answer is vouched for. The machine is in the accepted
    checkpoint on disk, which decodes strictly, was signed by the household's
    owner under a certificate valid when it was issued and still the
    coordinator's, has not expired by the machine's own clock, does not revoke
    the machine, and whose entry carries a machine certificate the household
    root signed. *)
Theorem active_answer_vouched co io l d m member l' d' :
  for_household hh_id hh_pub co → latch_ok l → io_ok io →
  query_machine_currency co io m l d = Some (Ok (PO_Active member), l', d') →
  ∃ lf rec a c owner now,
    visible T_Chain d = Some lf ∧ decode_accepted_chain (lf_data lf) hh_id = Ok rec ∧
    ch_accepted_checkpoint rec = Some a ∧ from_raw a = Ok c ∧
    verify_checkpoint_authority c (ac_authority (hist_admission hx owner (cp_issued_at c))) = Ok tt ∧
    cp_owner_cert_fingerprint c = co_owner_cert_fp co ∧
    ob_clock (oi_observe io) = Some now ∧ now <= cp_not_after c ∧
    (m ∉ revoked_ids (cp_revocations c)) ∧ member ∈ cp_active c ∧ mm_m_id member = m ∧
    certified hh_pub hh_id member.
Proof.
  intros Hco Hl Hio H. unfold query_machine_currency in H. apply bind_Some in H as ([[od l2] d2] & Ho & H).
  destruct od as [e| |rec floor s fp]; [done..|]. injection H as H _ _.
  destruct (derive_machine_currency s m _) as [mm|t| |reason] eqn:Hd; [|done|done|by destruct reason].
  injection H as <-. apply open_clock in Ho as Hclk. destruct Hclk as (now & Hclk & Hnow).
  apply open_cases with (hh_id := hh_id) (hh_pub := hh_pub) in Ho as (r & _ & Hr); [|done..].
  destruct (Hr _ _ _ _ eq_refl) as (_ & (lf & Hv & Hdec & Hre) & _).
  apply currency_active in Hd as (data & (-> & Hbound & Hna)%current_data_Ok & Hnr & Hin & Hid).
  cbn [live_ctx ac_authority ra_effective_now ac_bound_owner_cert_fingerprint] in Hbound, Hna.
  apply owner_binding_fp in Hbound.
  apply rederive_current_Ok in Hre. destruct (ch_state_kind rec); [done| |done..].
  destruct Hre as (a & c & d0 & b & Ha & Hc & [= <-] & Hd0 & _). destruct Hd0.
  exists lf, rec, a, c, b, now. rewrite <- re_tombstones, <- re_active, <- re_not_after.
  split_and!; try done; [congruence|lia|].
  destruct re_ok. rewrite ro_active in Hin. apply elem_of_surviving in Hin as [Hin _].
  rewrite Forall_forall in ro_certified. by apply ro_certified.
Qed.

(** ** Snapshots and queries *)

Lemma view_lookup hh data m :
  is_some (lookup_active (project hh data) m) = true ↔ (m ∈ member_ids (ad_active data)).
Proof.
  unfold lookup_active, project. cbn [rv_active]. split.
  - destruct (list_find _ _) as [[i x]|] eqn:Hf; [|done]. intros _. apply list_find_Some in Hf as (Hi & <- & _).
    apply list_elem_of_lookup_2 in Hi. apply list_elem_of_fmap in Hi as (mm & -> & Hmm). cbn.
    by apply list_elem_of_fmap_2.
  - intros (mm & -> & Hmm)%list_elem_of_fmap.
    destruct (list_find _ _) as [[i x]|] eqn:Hf; [done|]. exfalso. apply list_find_None in Hf.
    rewrite Forall_fmap, Forall_forall in Hf. by apply (Hf mm Hmm).
Qed.

(** A snapshot and a query agree. On one disk, at one clock reading, a
    snapshot that is given out has a machine active or revoked exactly when the
    query for that machine answers so; when there is no snapshot, the query
    gives neither of these answers. *)
Theorem snapshot_agrees_with_query co io l d m r l' d' :
  current_snapshot_with_trusted_wall_floor co io l d = Some (r, l', d') →
  ∃ q, query_machine_currency co io m l d = Some (q, l', d') ∧
    match r with
    | Ok (view, _) =>
        (is_active view m = true ↔ ∃ member, q = Ok (PO_Active member)) ∧
        (is_revoked view m = true ↔ ∃ tombstone, q = Ok (PO_Revoked tombstone))
    | Err _ => (∀ member, q ≠ Ok (PO_Active member)) ∧ (∀ tombstone, q ≠ Ok (PO_Revoked tombstone))
    end.
Proof.
  unfold current_snapshot_with_trusted_wall_floor, query_machine_currency.
  destruct (open_roster co io l d) as [[[od l2] d2]|]; [|done]. cbn [mbind option_bind].
  destruct od as [e| |rec floor s fp]; intros [= <- <- <-]; (eexists; split; [done|]); [done..|].
  set (ctx := live_ctx _ _ _). unfold derive_machine_currency.
  destruct (admit_current_accepted_data s ctx) as [data|reason];
    cbn [mbind Result_bind map_err]; [|by destruct reason].
  unfold is_active. rewrite andb_true_iff, negb_true_iff, view_lookup, view_revoked.
  rewrite <- not_true_iff_false, view_revoked.
  destruct (iter_find _ (ad_tombstones data)) as [t|] eqn:Ht.
  - apply iter_find_Some in Ht as [Hin Hid%bool_decide_eq_true].
    assert (m ∈ revoked_ids (ad_tombstones data)) by (subst m; by apply list_elem_of_fmap_2).
    split; split; [tauto|by intros [? ?]|eauto|done].
  - apply find_tombstone_None in Ht. destruct (iter_find _ (ad_active data)) as [mm|] eqn:Ha.
    + apply iter_find_Some in Ha as [Hin Hid%bool_decide_eq_true].
      assert (m ∈ member_ids (ad_active data)) by (subst m; by apply list_elem_of_fmap_2).
      split; split; [eauto|done|tauto|by intros [? ?]].
    + assert (m ∉ member_ids (ad_active data)).
      { intros (mm & -> & Hmm)%list_elem_of_fmap. rewrite iter_find_None in Ha. specialize (Ha mm Hmm).
        by rewrite bool_decide_true in Ha. }
      split; split; [tauto|by intros [? ?]|tauto|by intros [? ?]].
Qed.

(** ** Admissions *)

Lemma validate_chain_Ok co rec st b :
  for_household hh_id hh_pub co → validate_chain co rec st b = Ok tt → st ≠ RS_NoGenesis →
  ∃ fp, decode_accepted_chain b hh_id = Ok rec ∧ rederive_current_state rec hx = Ok (st, fp).
Proof.
  intros [Hi Hp] H Hst. unfold validate_chain, hh_ctx in H. rewrite Hi, Hp in H.
  apply bind_Ok in H as (rec' & Hd%map_err_Ok & H). apply bind_Ok in H as (? & He%reject_if_Ok & H).
  apply bool_decide_eq_false in He. assert (rec' = rec) as -> by (destruct (decide (rec' = rec)); done).
  unfold rederive_current_state. destruct (ch_state_kind rec) eqn:Hk.
  - rewrite bool_decide_true in H by done. apply reject_if_Ok, bool_decide_eq_false in H. exfalso. auto.
  - rewrite bool_decide_false in H by done. apply bind_Ok in H as (g & ->%ok_or_Ok & H).
    apply bind_Ok in H as (ac & ->%ok_or_Ok & H).
    apply bind_Ok in H as ([st' bi] & Hr%map_err_Ok & H). apply reject_if_Ok, bool_decide_eq_false in H.
    assert (st' = st) as -> by (destruct (decide (st' = st)); done). cbn. rewrite Hr. cbn. eauto.
  - rewrite bool_decide_false in H by done. apply bind_Ok in H as (g & ->%ok_or_Ok & H).
    apply bind_Ok in H as (ac & ->%ok_or_Ok & H).
    apply bind_Ok in H as ([st' bi] & Hr & H). apply reject_if_Ok, bool_decide_eq_false in H.
    assert (st' = st) as -> by (destruct (decide (st' = st)); done).
    apply bind_Ok in Hr as (cb & ->%ok_or_Ok & Hr%map_err_Ok). cbn. rewrite Hr. cbn. eauto.
  - rewrite bool_decide_false in H by done. apply bind_Ok in H as (g & ->%ok_or_Ok & H).
    apply bind_Ok in H as (ac & ->%ok_or_Ok & H).
    apply bind_Ok in H as ([st' bi] & Hr & H). apply reject_if_Ok, bool_decide_eq_false in H.
    assert (st' = st) as -> by (destruct (decide (st' = st)); done).
    apply bind_Ok in Hr as (cb & ->%ok_or_Ok & Hr%map_err_Ok). cbn. rewrite Hr. cbn. eauto.
Qed.

(** C9: The durable store refines the state machine of admission. When a
    checkpoint is answered, either the roster was not asked (no floor, no
    owner, bytes that are no checkpoint) and the chain is as it was, or the
    answer is that of the state machine on the state the disk showed, the disk
    shows the state machine's next state, and no power failure can undo it. *)
Theorem store_refines_admission co io raw l d out l' d' :
  for_household hh_id hh_pub co → latch_ok l → io_ok io →
  store_admit_checkpoint co io raw l d = Some (Ok out, l', d') →
  (visible T_Chain d' = visible T_Chain d ∧ out ∈ [PA_RejectedTemporal; PA_RejectedOwner; PA_RejectedMalformed]) ∨
  ∃ rec s fp rec' s' fp' c ctx res,
    shows hh_id hh_pub d rec s fp ∧ from_raw raw = Ok c ∧ ctx_for hh_id hh_pub ctx ∧
    admit_checkpoint c s ctx = (s', res) ∧ out = map_admission_result res ∧
    shows hh_id hh_pub d' rec' s' fp' ∧ ∀ t o, o ∈ files t d' → o = visible t d'.
Proof.
  intros Hco Hl Hio H. apply store_admit_cases with (hh_id := hh_id) (hh_pub := hh_pub) in H; [|done..].
  destruct H as [(d1 & r1 & r2 & H1 & H2 & Hout)|H].
  { left. split; [|by apply Hout]. by rewrite (fs_chain _ _ _ _ H2), (fs_chain _ _ _ _ H1). }
  destruct H as (rec & floor & s & fp & c & ctx & s' & res & d1 & Hsh & Hc & Hx & Ha & H1 & H). right.
  destruct H as [(-> & -> & [= ->])|(f2 & d2 & rc & _ & Hng & H2 & Hcm & Hr)].
  - exists rec, s, fp, rec, s, fp, c, ctx, res. split_and!; try done; [by eapply shows_floor|].
    by destruct (fs_success _ _ _ _ H1 _ eq_refl) as (_ & Hsync & _).
  - destruct rc as [[]|e]; [|done]. injection Hr as ->. apply commit_files in Hcm as (_ & _ & Hok).
    destruct (Hok eq_refl) as (b & Hb & Hv & Hs3 & Hv3).
    apply validate_chain_Ok in Hv as (fp' & Hd & Hre); [|done..].
    eexists rec, s, fp, _, s', fp', c, ctx, res. split_and!; try done.
    eexists. split_and!; [exact Hv3|exact Hd|exact Hre].
Qed.

(** ** Checkpoints outside the owner certificate's validity *)

Lemma signed_window c owner cert :
  decode_owner_cert (cp_owner_person_cert c) = Ok cert →
  verify_checkpoint_authority c (ac_authority (hist_admission hx owner (cp_issued_at c))) = Ok tt →
  person_cert_window cert (cp_issued_at c) = true.
Proof.
  intros Hc H. unfold verify_checkpoint_authority in H. do 3 (apply bind_Ok in H as (? & _ & H)).
  apply bind_Ok in H as ([cert' fp] & Hv & _). unfold validate_owner_cert_core in Hv. rewrite Hc in Hv.
  cbn [mbind Result_bind] in Hv. apply bind_Ok in Hv as (? & Hr%reject_if_Ok%negb_false_iff & _).
  by eapply verify_rooted_identity_window.
Qed.

Lemma build_wedged c cert raw rec s' st fp :
  from_raw raw = Ok c → decode_owner_cert (cp_owner_person_cert c) = Ok cert →
  person_cert_window cert (cp_issued_at c) = false → s' ≠ RS_NoGenesis →
  rederive_current_state (build_chain_record hh_id rec s' raw) hx ≠ Ok (st, fp).
Proof.
  intros Hraw Hc Hw Hs H.
  assert (∀ owner, verify_checkpoint_authority c (ac_authority (hist_admission hx owner (cp_issued_at c))) ≠ Ok tt)
    as Hno by (intros owner Hv; rewrite (signed_window c owner cert Hc Hv) in Hw; done).
  assert (∀ g a p k st' b, rederive_fork g a p raw k hx ≠ Ok (st', b)) as Hfork.
  { intros g a p k st' b Hf. unfold rederive_fork, canonical_checkpoint in Hf. apply bind_Ok in Hf as (? & _ & Hf).
    apply bind_Ok in Hf as ([sa ba] & _ & Hf). rewrite Hraw in Hf. cbn [mbind Result_bind map_err] in Hf.
    apply bind_Ok in Hf as (? & Hv%map_err_Ok & _). unfold verify_checkpoint_full_historical in Hv.
    apply bind_Ok in Hv as ([] & Hv & _). by eapply Hno. }
  destruct s' as [|dt| |]; [done|..].
  - apply rederive_current_Ok in H. cbn in H. destruct H as (a & c' & d & b & [= <-] & Hc' & _ & Hd & _).
    assert (c' = c) as -> by congruence. by eapply Hno, re_signed.
  - unfold rederive_current_state in H. cbn [ch_state_kind build_chain_record] in H.
    apply bind_Ok in H as (? & _ & H). apply bind_Ok in H as (? & _ & H).
    cbn in H. apply bind_Ok in H as ([st' b] & Hf & _). by eapply Hfork.
  - unfold rederive_current_state in H. cbn [ch_state_kind build_chain_record] in H.
    apply bind_Ok in H as (? & _ & H). apply bind_Ok in H as (? & _ & H).
    cbn in H. apply bind_Ok in H as ([st' b] & Hf & _). by eapply Hfork.
Qed.

(** C39: A checkpoint that was issued outside the validity of its owner
    certificate, but is admitted while the certificate is valid, disables the
    roster: if its record becomes the visible one, the admission fails, and an
    operation of any coordinator of the household after it fails to open the
    roster and leaves that record in place, so that the next one fails as well. *)
Theorem unissuable_checkpoint_wedges_roster co io raw l d r l' d' c cert lf :
  for_household hh_id hh_pub co → latch_ok l → io_ok io →
  store_admit_checkpoint co io raw l d = Some (r, l', d') →
  from_raw raw = Ok c → decode_owner_cert (cp_owner_person_cert c) = Ok cert →
  person_cert_window cert (cp_issued_at c) = false →
  visible T_Chain d' = Some lf → visible T_Chain d ≠ Some lf →
  (∃ e, r = Err e) ∧
  ∀ co2 io2 l2 od l3 d3, for_household hh_id hh_pub co2 → latch_ok l2 → io_ok io2 →
    open_roster co2 io2 l2 d' = Some (od, l3, d3) →
    (od = OD_NoFloor ∨ ∃ e, od = OD_Error e) ∧ visible T_Chain d3 = Some lf.
Proof.
  intros Hco Hl Hio H Hraw Hc Hw Hv' Hv.
  apply store_admit_cases with (hh_id := hh_id) (hh_pub := hh_pub) in H; [|done..].
  destruct H as [(d1 & r1 & r2 & H1 & H2 & _)|H].
  { rewrite (fs_chain _ _ _ _ H2), (fs_chain _ _ _ _ H1) in Hv'. done. }
  destruct H as (rec & floor & s & fp & c' & ctx & s' & res & d1 & _ & Hc' & _ & _ & H1 & H).
  assert (c' = c) as -> by congruence.
  destruct H as [(-> & -> & _)|(f2 & d2 & rc & _ & Hng & H2 & Hcm & H)]; [by rewrite (fs_chain _ _ _ _ H1) in Hv'|].
  destruct (fs_success _ _ _ _ H2 _ eq_refl) as (_ & Hsync & _).
  assert (visible T_Chain d2 ≠ Some lf) by (by rewrite (fs_chain _ _ _ _ H2), (fs_chain _ _ _ _ H1)).
  apply commit_files in Hcm as (_ & Hfi & Hok).
  pose proof (visible_files T_Chain d') as Hin. rewrite Hv' in Hin.
  apply Hfi in Hin as [Hold%Hsync|(b & Hb & [= ->])]; [congruence|].
  assert (∀ rec' st fp', decode_accepted_chain b hh_id = Ok rec' → rederive_current_state rec' hx ≠ Ok (st, fp')) as Hno.
  { intros rec' st fp' Hd. rewrite (chain_bytes_inj _ _ _ _ Hb Hd (build_chain_record_v _ _ _ _)).
    by eapply build_wedged. }
  split.
  - destruct rc as [[]|e]; [|by subst; eauto]. destruct (Hok eq_refl) as (b' & Hb' & Hval & _).
    rewrite Hb in Hb'. injection Hb' as <-.
    apply validate_chain_Ok in Hval as (fp' & Hd & Hre); [by destruct (Hno _ _ _ Hd Hre)|done..].
  - intros co2 io2 l3 od l4 d4 Hco2 Hl3 Hio2 Ho2.
    apply open_cases with (hh_id := hh_id) (hh_pub := hh_pub) in Ho2 as (r2 & Hfs2 & Hr2); [|done..].
    split; [|by rewrite (fs_chain _ _ _ _ Hfs2)].
    destruct od as [e| |rec2 fl2 s2 fp2]; [eauto|by left|]. exfalso.
    destruct (Hr2 _ _ _ _ eq_refl) as (_ & (lf2 & Hv2 & Hd2 & Hre2) & _).
    rewrite Hv' in Hv2. injection Hv2 as <-. by destruct (Hno _ _ _ Hd2 Hre2).
Qed.
End spec.

(** ** Witnesses *)

#[local] Existing Instance sample_cbor.

Lemma roster_hh_ok : household_well_formed roster_hh = true.
Proof. vm_compute. reflexivity. Qed.

Lemma roster_co_ok : for_household roster_hh roster_pub roster_co.
Proof. done. Qed.

Lemma latch_new_ok : latch_ok latch_new.
Proof. by intros v [?|?]. Qed.

Lemma io_at_ok now : 0 <= now < 1000 → io_ok (io_at now).
Proof. intros Hn raw [= <-]. split; unfold u64_modulus; lia. Qed.

Lemma sample_step now op d answer d' :
  0 <= now < 1000 → sample_op now op d = Some (answer, d') →
  event_step roster_hh roster_pub d (EV_Op (io_at now) op answer) d'.
Proof. intros Hn H. eapply ev_op; [apply roster_co_ok|apply latch_new_ok|by apply io_at_ok|exact H]. Qed.

Lemma query_op now m d r d' :
  sample_op now (RO_Query m) d = Some (RA_Query r, d') →
  ∃ l, query_machine_currency roster_co (io_at now) m latch_new d = Some (r, l, d').
Proof. cbn [run_op]. intros ([[r0 l] d0] & H & Hr)%bind_Some. injection Hr as -> ->. eauto. Qed.

Lemma admit_op now raw d r d' :
  sample_op now (RO_Admit raw) d = Some (RA_Admit r, d') →
  ∃ l, store_admit_checkpoint roster_co (io_at now) raw latch_new d = Some (r, l, d').
Proof. cbn [run_op]. intros ([[r0 l] d0] & H & Hr)%bind_Some. injection Hr as -> ->. eauto. Qed.

Lemma snapshot_op now d r d' :
  sample_op now RO_Snapshot d = Some (RA_Snapshot r, d') →
  ∃ l, current_snapshot_with_trusted_wall_floor roster_co (io_at now) latch_new d = Some (r, l, d').
Proof. cbn [run_op]. intros ([[r0 l] d0] & H & Hr)%bind_Some. injection Hr as -> ->. eauto. Qed.

Definition revoked_event : RosterEvent :=
  EV_Op (io_at 120) (RO_Query (mm_m_id member_b)) (RA_Query (Ok (PO_Revoked revocation_b))).

Definition sample_prefix : list RosterEvent :=
  [EV_Op (io_at 110) RO_Provision (RA_Provision (Ok tt));
   EV_Op (io_at 110) (RO_Admit genesis_raw) (RA_Admit (Ok PA_Accepted));
   EV_Op (io_at 120) (RO_Admit second_raw) (RA_Admit (Ok PA_Accepted))].

Lemma sample_prefix_trace : RosterTrace roster_hh roster_pub empty_disk sample_prefix roster_d2.
Proof.
  eapply rt_cons; [apply sample_step; [lia|exact run_provision]|].
  eapply rt_cons; [apply sample_step; [lia|exact run_genesis]|].
  eapply rt_cons; [apply sample_step; [lia|exact run_second]|]. apply rt_nil.
Qed.

Lemma trace_snoc hh_id hh_pub d evs1 d1 evs2 d2 :
  RosterTrace hh_id hh_pub d evs1 d1 → RosterTrace hh_id hh_pub d1 evs2 d2 →
  RosterTrace hh_id hh_pub d (evs1 ++ evs2) d2.
Proof. induction 1; [done|]. intros ?. eapply rt_cons; [done|auto]. Qed.

(** Machine [b] is revoked, reported so, and asked for again. *)
Definition sample_events : list RosterEvent := sample_prefix ++ revoked_event :: [] ++ [revoked_event].

Lemma sample_trace : RosterTrace roster_hh roster_pub empty_disk sample_events roster_d2.
Proof.
  assert (event_step roster_hh roster_pub roster_d2 revoked_event roster_d2) as Hs
    by (apply sample_step; [lia|exact run_revoked]).
  eapply trace_snoc; [apply sample_prefix_trace|]. eapply rt_cons; [exact Hs|]. eapply rt_cons; [exact Hs|apply rt_nil].
Qed.

Lemma sample_presented r : presented_in sample_events r → r = revocation_b.
Proof.
  intros (io & raw & answer & c & Hin & Hc & Hr).
  assert (raw = genesis_raw ∨ raw = second_raw) as [-> | ->].
  { unfold sample_events, sample_prefix, revoked_event in Hin. cbn [app] in Hin.
    repeat first [apply elem_of_cons in Hin as [[= ]|Hin]|apply not_elem_of_nil in Hin as []]; subst; auto. }
  - rewrite from_raw_genesis in Hc. injection Hc as <-. by apply not_elem_of_nil in Hr.
  - rewrite from_raw_second in Hc. injection Hc as <-. by apply list_elem_of_singleton in Hr.
Qed.

Lemma revocation_permanent_witness : ¬ tells_active (mm_m_id member_b) revoked_event.
Proof.
  apply (@revocation_permanent _ _ _ _ sample_cbor_laws roster_hh roster_pub roster_hh_ok sample_prefix revoked_event []
    revoked_event roster_d2 (mm_m_id member_b) sample_trace).
  - intros r1 r2 p1 p2 ->%sample_presented ->%sample_presented H1 H2 _. congruence.
  - reflexivity.
Defined.

Lemma trusted_floor_monotone_witness :
  ∃ view, let e := EV_Op (io_at 110) RO_Snapshot (RA_Snapshot (Ok (view, MkTrustedWallFloor roster_hh 110))) in
    ∃ d, RosterTrace roster_hh roster_pub empty_disk (take 2 sample_prefix ++ e :: [EV_PowerFailure] ++ [e]) d ∧ 110 <= 110.
Proof.
  destruct run_snapshot as [view Hv]. exists view. intros e. exists roster_d1.
  assert (event_step roster_hh roster_pub roster_d1 e roster_d1) as Hs by (apply sample_step; [lia|exact Hv]).
  assert (power_failure roster_d1 roster_d1) as Hp.
  { split; [reflexivity|]. intros t. exists (rk_dir roster_d1). split; [left|].
    destruct t; split; cbn; auto. }
  assert (RosterTrace roster_hh roster_pub empty_disk (take 2 sample_prefix ++ e :: [EV_PowerFailure] ++ [e]) roster_d1) as Ht.
  { eapply rt_cons; [apply sample_step; [lia|exact run_provision]|].
    eapply rt_cons; [apply sample_step; [lia|exact run_genesis]|].
    eapply rt_cons; [exact Hs|]. eapply rt_cons; [by apply ev_power|]. eapply rt_cons; [exact Hs|apply rt_nil]. }
  split; [exact Ht|].
  exact (@trusted_floor_monotone _ _ _ _ sample_cbor_laws roster_hh roster_pub roster_hh_ok _ e _ e roster_d1 110 110 Ht
           eq_refl eq_refl).
Defined.

Lemma active_answer_vouched_witness :
  ∃ lf rec a c owner now,
    visible T_Chain roster_d1 = Some lf ∧ decode_accepted_chain (lf_data lf) roster_hh = Ok rec ∧
    ch_accepted_checkpoint rec = Some a ∧ from_raw a = Ok c ∧
    verify_checkpoint_authority c
      (ac_authority (hist_admission (MkHistoricalContext roster_hh roster_pub) owner (cp_issued_at c))) = Ok tt ∧
    cp_owner_cert_fingerprint c = co_owner_cert_fp roster_co ∧
    ob_clock (oi_observe (io_at 110)) = Some now ∧ now <= cp_not_after c ∧
    (mm_m_id member_a ∉ revoked_ids (cp_revocations c)) ∧ member_a ∈ cp_active c ∧
    mm_m_id member_a = mm_m_id member_a ∧ certified roster_pub roster_hh member_a.
Proof.
  destruct (query_op _ _ _ _ _ run_active) as [l H].
  exact (@active_answer_vouched _ _ _ _ sample_cbor_laws roster_hh roster_pub roster_co (io_at 110) latch_new roster_d1
           (mm_m_id member_a) member_a l roster_d1 roster_co_ok latch_new_ok (io_at_ok 110 ltac:(lia)) H).
Defined.

Lemma snapshot_agrees_with_query_witness :
  ∃ view, is_active view (mm_m_id member_a) = true.
Proof.
  destruct run_snapshot as [view Hv]. exists view.
  destruct (snapshot_op _ _ _ _ Hv) as [l H]. destruct (query_op _ _ _ _ _ run_active) as [l' Hx].
  destruct (snapshot_agrees_with_query roster_co (io_at 110) latch_new roster_d1 (mm_m_id member_a) _ _ _ H)
    as (q & Hq & Ha & _).
  apply Ha. exists member_a. rewrite Hx in Hq. by injection Hq as <-.
Defined.

Lemma store_refines_admission_witness :
  (visible T_Chain roster_d1 = visible T_Chain roster_d0 ∧
   PA_Accepted ∈ [PA_RejectedTemporal; PA_RejectedOwner; PA_RejectedMalformed]) ∨
  ∃ rec s fp rec' s' fp' c ctx res,
    shows roster_hh roster_pub roster_d0 rec s fp ∧ from_raw genesis_raw = Ok c ∧ ctx_for roster_hh roster_pub ctx ∧
    admit_checkpoint c s ctx = (s', res) ∧ PA_Accepted = map_admission_result res ∧
    shows roster_hh roster_pub roster_d1 rec' s' fp' ∧ ∀ t o, o ∈ files t roster_d1 → o = visible t roster_d1.
Proof.
  destruct (admit_op _ _ _ _ _ run_genesis) as [l H].
  exact (@store_refines_admission _ _ _ _ sample_cbor_laws roster_hh roster_pub roster_co (io_at 110) genesis_raw
           latch_new roster_d0 PA_Accepted l roster_d1 roster_co_ok latch_new_ok (io_at_ok 110 ltac:(lia)) H).
Defined.

Lemma unissuable_checkpoint_wedges_roster_witness :
  ∃ lf, visible T_Chain wedged_disk = Some lf ∧
  ∀ co2 io2 l2 od l3 d3, for_household roster_hh roster_pub co2 → latch_ok l2 → io_ok io2 →
    open_roster co2 io2 l2 wedged_disk = Some (od, l3, d3) →
    (od = OD_NoFloor ∨ ∃ e, od = OD_Error e) ∧ visible T_Chain d3 = Some lf.
Proof.
  destruct (admit_op _ _ _ _ _ run_early) as [l H]. eexists. split; [reflexivity|].
  refine (proj2 (@unissuable_checkpoint_wedges_roster _ _ _ _ sample_cbor_laws roster_hh roster_pub roster_co (io_at 110)
           early_raw latch_new roster_d0 _ l wedged_disk early_cp owner_cert _ roster_co_ok latch_new_ok
           (io_at_ok 110 ltac:(lia)) H from_raw_early _ _ _ _)).
  - exact decode_owner.
  - reflexivity.
  - reflexivity.
  - discriminate.
Defined.
