(* ===== verification/Runtime.v ===== *)
(** * The mesh-session runtime

    Models [mesh-session-runtime-rs]: the adapters that put the machine roster,
    the nonce ledger and the session registry of [household-rs] behind the
    traits the ceremony of [mesh-session-core-rs] calls. Each adapter calls the
    operations modelled in [RosterStore], [LedgerDisk] and [RegistrySteps] on
    the state of one machine; what other threads do meanwhile is an argument
    ([env], or the other calls in a schedule of the registry). *)

From stdpp Require Import base gmap sets list strings.
From Stdlib Require Import ZArith Lia Ascii.
From S2P Require Import Prelude.
From S2P Require Import Cbor.
From S2P Require Import Ingress.
From S2P Require Import Crypto.
From S2P Require Import SessionErrors.
From S2P Require Import Intent.
From S2P Require Import RosterView.
From S2P Require Import Registry.
From S2P Require Import RegistrySteps.
From S2P Require Import Ledger.
From S2P Require Import LedgerDisk.
From S2P Require Import LedgerProofs.
From S2P Require Import Household.
From S2P Require Import RosterStore.

Open Scope Z_scope.

(** ** Clocks *)

(** [SystemClock::now]; [since_epoch] is [None] for a clock before 1970. *)
Definition system_clock_now (since_epoch : option Z) : Result IntentError Z :=
  ok_or since_epoch IE_ClockUnavailable.

(** ** The machine *)

(** What the theorems are about: a view or a floor the roster gave out, a
    request the ledger's worker has carried out, a permit of the registry. *)
Inductive MachineEvent :=
| ME_Snapshot (view : RosterSnapshotView)
| ME_Floor (floor : Z)
| ME_Consume (c : Consumption)
| ME_Permit (i : nat) (binding : SealedBinding).

(** What the adapters borrow: the roster's files and its coordinator's floor
    latch, the ledger's files, the registry. The log is read by no definition. *)
Record Machine := MkMachine {
  ma_roster : RDisk;
  ma_latch : FloorLatch;
  ma_ledger : LDisk;
  ma_registry : World;
  ma_log : list MachineEvent;
}.

Definition with_roster (d : RDisk) (l : FloorLatch) (told : list MachineEvent) (m : Machine) : Machine :=
  MkMachine d l (ma_ledger m) (ma_registry m) (ma_log m ++ told).
Definition with_ledger (d : LDisk) (done : list MachineEvent) (m : Machine) : Machine :=
  MkMachine (ma_roster m) (ma_latch m) d (ma_registry m) (ma_log m ++ done).
Definition with_registry (w : World) (done : list MachineEvent) (m : Machine) : Machine :=
  MkMachine (ma_roster m) (ma_latch m) (ma_ledger m) w (ma_log m ++ done).

(** [Instant::now() + deadline.remaining()], which reads the clock twice. *)
Definition absolute_deadline (deadline : CeremonyDeadline) (now now' : Z) : Z :=
  now + remaining deadline now'.

(** ** The nonce ledger *)

Definition map_channel (channel : ExpectedChannel) : MeshIntentChannel :=
  match channel with EC_Dev => MIC_Dev | EC_Release => MIC_Release end.

Definition map_consume_outcome (outcome : MeshIntentNonceConsumeOutcome) : NonceConsumeOutcome :=
  match outcome with
  | CO_Committed _ => NC_Committed
  | CO_AlreadyConsumed _ => NC_AlreadyConsumed
  | CO_MayHaveTakenEffect _ => NC_MayHaveTakenEffect
  | CO_Unavailable _ => NC_Unavailable
  end.

(** The key and the evidence as the household crate has them. *)
Definition project_request (key : IntentNonceKey) (not_after : Z) (digest : bytes)
    (channel : ExpectedChannel) : Result IntentError (MeshIntentNonceKey * MeshIntentNonceEvidence) :=
  household_key ← map_err (λ _, IE_NonceEvidenceRejected)
    (nonce_key_new (Intent.nk_hh_id key) (Intent.nk_initiator_m_id key) (Intent.nk_delegated_key_id key)
       (Intent.nk_nonce key));
  evidence ← ok_or (evidence_new (map_channel channel) digest not_after) IE_NonceEvidenceRejected;
  Ok (household_key, evidence).

(** How the calls of one consumption go. [ni_worker] is [None] when the worker has
    not carried the request out by the time the caller is answered. *)
Record NonceIo := MkNonceIo {
  ni_roster : OpIo;
  ni_now : Z;
  ni_now_remaining : Z;
  ni_worker : option (AcquireIo * LoadIo * CommitIo);
  ni_run : ConsumeRun;
}.

Section runtime.
Context {CC : CborCrate} {SC : SessionCrypto} {HC : HouseholdCrypto} {DD : DerivedDecoders}.
Context (co : MachineRosterCoordinator).

Section ledger.
Context (ledger_hh : HouseholdId) (config : LedgerConfig).

(** What the worker does with the request, if it gets to it; a worker that has
    not answered has no outcome to give. *)
Definition run_worker (io : NonceIo) (key : MeshIntentNonceKey) (evidence : MeshIntentNonceEvidence)
    (floor : TrustedWallFloor) (m : Machine) : option (MeshIntentNonceConsumeOutcome * Machine) :=
  match ni_worker io with
  | Some (aio, lio, cio) =>
      '(answer, d) ← consume_in_worker ledger_hh config aio lio cio key evidence floor (ma_ledger m);
      Some (answer, with_ledger d [ME_Consume (MkConsumption key evidence (tf_unix_seconds floor) answer)] m)
  | None => Some (CO_MayHaveTakenEffect St_WorkerInFlight, m)
  end.

(** [HouseholdIntentNonceLedger::consume]; [None] while a call is still
    waiting. [env] is what happens between the floor and the ledger. *)
Definition ledger_consume (io : NonceIo) (env : Machine → Machine) (deadline : CeremonyDeadline)
    (key : IntentNonceKey) (not_after : Z) (digest : bytes) (channel : ExpectedChannel) (m : Machine)
    : option (Result IntentError NonceConsumeOutcome * Machine) :=
  match project_request key not_after digest channel with
  | Err e => Some (Err e, m)
  | Ok (household_key, evidence) =>
      '(snapshot, l, d) ← current_snapshot_with_trusted_wall_floor co (ni_roster io) (ma_latch m) (ma_roster m);
      match snapshot with
      | Err _ => Some (Err IE_RosterSnapshotUnavailable, with_roster d l [] m)
      | Ok (_, trusted_floor) =>
          let m := env (with_roster d l [ME_Floor (tf_unix_seconds trusted_floor)] m) in
          '(answer, m') ← run_worker io household_key evidence trusted_floor m;
          '(outcome, sent) ← LedgerDisk.consume ledger_hh household_key evidence trusted_floor
             (absolute_deadline deadline (ni_now io) (ni_now_remaining io)) (ni_run io) answer;
          Some (Ok (map_consume_outcome outcome), if sent : bool then m' else m)
      end
  end.
End ledger.

(** ** Admission *)

(** [SealedBinding::from_membership_key] *)
Definition from_membership_key (key : D1MembershipKey) (snapshot : RosterSnapshotView)
    : Result MembershipKeyRejected SealedBinding :=
  validate_membership_fields (mk_hh_id key) (mk_peer_m_id key) (mk_peer_cert_fingerprint key)
    (mk_checkpoint_hash key) (mk_checkpoint_sequence key) snapshot.

Inductive PreauthorizeAction := Retry | Fail (e : IntentError).

Definition map_preauthorize_error (err : TryPreauthorizeError) (deadline_expired : bool) : PreauthorizeAction :=
  match err with
  | TP_Busy => if deadline_expired then Fail IE_DeadlineExceeded else Retry
  | TP_Expired => Fail IE_DeadlineExceeded
  | TP_Poisoned => Fail IE_D1RegistryUnavailable
  | TP_Refused _ => Fail IE_D1MembershipRejected
  end.

(** The loop over its two closures, a list of what they do in each round;
    [None] while it goes on. *)
Fixpoint retry_until_admitted {S T R} (attempt : R → S → option (Result TryPreauthorizeError T * S))
    (is_deadline_expired : R → bool) (rounds : list R) (s : S) : option (Result IntentError T * S) :=
  match rounds with
  | [] => None
  | r :: rounds =>
      '(a, s) ← attempt r s;
      match a with
      | Ok v => Some (Ok v, s)
      | Err err =>
          match map_preauthorize_error err (is_deadline_expired r) with
          | Retry => retry_until_admitted attempt is_deadline_expired rounds s
          | Fail e => Some (Err e, s)
          end
      end
  end.

(** A round: the readings of the clock, and how the registry is scheduled from
    the call to its return, other calls included. *)
Record Round := MkRound {
  ro_now : Z;
  ro_now_remaining : Z;
  ro_acts : list Act;
  ro_now_expired : Z;
}.

(** [try_preauthorize_before]: the call that holds the permit, or why none
    was given. *)
Definition try_preauthorize_before (acts : list Act) (binding : SealedBinding) (handle : nat)
    (deadline_at : Z) (w : World) : option (Result TryPreauthorizeError nat * World) :=
  let i := length (w_pcs w) in
  w ← run_acts (A_Call (Call_Op (L_Preauthorize binding handle deadline_at)) :: acts) w;
  p ← w_pcs w !! i;
  match p with
  | Pc_Permit _ _ _ => Some (Ok i, w)
  | Pc_Done (Ret_Preauthorize e) _ => Some (Err e, w)
  | _ => None
  end.

(** [RegistryD1Admission::reserve_pending] *)
Definition d1_reserve_pending (io : OpIo) (env : Machine → Machine) (handle : nat) (rounds : list Round)
    (deadline : CeremonyDeadline) (key : D1MembershipKey) (m : Machine)
    : option (Result IntentError nat * Machine) :=
  '(snapshot, l, d) ← current_snapshot co io (ma_latch m) (ma_roster m);
  match snapshot with
  | Err _ => Some (Err IE_RosterSnapshotUnavailable, with_roster d l [] m)
  | Ok snapshot =>
  let m := with_roster d l [ME_Snapshot snapshot] m in
  match from_membership_key key snapshot with
  | Err _ => Some (Err IE_D1MembershipRejected, m)
  | Ok binding =>
      let m := env m in
      '(r, w) ← retry_until_admitted
         (λ r, try_preauthorize_before (ro_acts r) binding handle
                 (absolute_deadline deadline (ro_now r) (ro_now_remaining r)))
         (λ r, is_expired deadline (ro_now_expired r)) rounds (ma_registry m);
      Some (r, with_registry w (match r with Ok i => [ME_Permit i binding] | Err _ => [] end) m)
  end
  end.
End runtime.

Definition map_cancel_outcome (outcome : PendingCancelOutcome) : D1CancelOutcome :=
  match outcome with
  | PC_ClosedAndRemoved => CancelledAndRemoved
  | PC_ClosedCleanupDeferred => BarrierReleasedBookkeepingDeferred
  | PC_RegistryUnavailable => RegistryUnavailable
  end.

(** [RegistryD1Pending::commit_after_ack]: the session the permit was for. *)
Definition d1_commit_after_ack (i : nat) (w : World) : option (nat * World) :=
  p ← w_pcs w !! i;
  match p with
  | Pc_Permit s _ _ => w ← step (A_CommitAfterAck i) w; Some (s, w)
  | _ => None
  end.

(** [RegistryD1Pending::cancel_before_ack] *)
Definition d1_cancel_before_ack (acts : list Act) (i : nat) (w : World) : option (D1CancelOutcome * World) :=
  w ← run_acts (A_CancelBeforeAck i :: acts) w;
  p ← w_pcs w !! i;
  match p with
  | Pc_Done (Ret_Cancel o) _ => Some (map_cancel_outcome o, w)
  | _ => None
  end.

(** [RegistryActiveGate::try_authorize]: the call that holds the guard. *)
Definition d1_try_authorize (acts : list Act) (s : nat) (w : World) : option (option nat * World) :=
  let i := length (w_pcs w) in
  w ← run_acts (A_Call (Call_Authorize s) :: acts) w;
  p ← w_pcs w !! i;
  match p with
  | Pc_Gate G_Guard _ _ _ => Some (Some i, w)
  | Pc_Done Ret_NoGuard _ => Some (None, w)
  | _ => None
  end.
