(* ===== verification/RuntimeHistory.v ===== *)
(** * Histories of a machine

    What can happen to the roster, the ledger and the registry of one machine
    while its process runs (operations of the roster, requests carried out by
    the ledger's worker, steps of the registry, in any order), and when it is
    restarted or loses power; and what is true in every state reached: floors
    were given out in order and are durable, the ledger has the history of its
    requests, each made with a floor the roster gave out before, and the views
    given out are vouched for. *)

From stdpp Require Import base gmap sets list strings sorting.
From Stdlib Require Import ZArith Lia Ascii.
From S2P Require Import Prelude.
From S2P Require Import Cbor.
From S2P Require Import CborProofs.
From S2P Require Import Ingress.
From S2P Require Import Crypto.
From S2P Require Import SessionErrors.
From S2P Require Import Intent.
From S2P Require Import RosterView.
From S2P Require Import Registry.
From S2P Require Import RegistrySteps.
From S2P Require Import RegistryInv.
From S2P Require Import RegistryBodies.
From S2P Require Import RegistrySpec.
From S2P Require Import Ledger.
From S2P Require Import LedgerDisk.
From S2P Require Import LedgerProofs.
From S2P Require Import Household.
From S2P Require Import Roster.
From S2P Require Import RosterAdmit.
From S2P Require Import RosterProofs.
From S2P Require Import RosterInv.
From S2P Require Import RosterRecord.
From S2P Require Import RosterRederive.
From S2P Require Import RosterStore.
From S2P Require Import RosterDisk.
From S2P Require Import RosterHistory.
From S2P Require Import RosterSpec.
From S2P Require Import Runtime.

Open Scope Z_scope.

(** What an operation of the roster gives out. *)
Definition told_events (ev : RosterEvent) : list MachineEvent :=
  match ev with
  | EV_Op _ _ (RA_Snapshot (Ok (view, floor))) => [ME_Snapshot view; ME_Floor (tf_unix_seconds floor)]
  | _ => []
  end.

Definition floors_of (l : list MachineEvent) : list Z :=
  omap (λ e, match e with ME_Floor f => Some f | _ => None end) l.
Definition consumptions_of (l : list MachineEvent) : list Consumption :=
  omap (λ e, match e with ME_Consume c => Some c | _ => None end) l.

(** The registry's session of a permit is the one of the binding. *)
Definition permit_for (w : World) (i : nat) (b : SealedBinding) : Prop :=
  ∃ s id c, w_pcs w !! i = Some (Pc_Permit s id (sb_m_id b)) ∧ w_cells w !! s = Some c ∧
    c_m_id c = sb_m_id b ∧ c_fingerprint c = sb_machine_cert_fingerprint b.

Section machine.
Context {CC : CborCrate} {SC : SessionCrypto} {HC : HouseholdCrypto} {DD : DerivedDecoders}.
Context (hh_id : HouseholdId) (hh_pub : P256PublicKey) (config : LedgerConfig).

(** What may happen while the process runs. *)
Inductive run_step : Machine → Machine → Prop :=
| rs_roster m ev d l told :
    event_step hh_id hh_pub (ma_roster m) ev d → ev ≠ EV_PowerFailure → latch_ok l →
    told `sublist_of` told_events ev → run_step m (with_roster d l told m)
| rs_open m io r d :
    initialize_or_recover hh_id config io (ma_ledger m) = Some (r, d) → run_step m (with_ledger d [] m)
| rs_consume m aio lio cio key ev floor o d :
    Admissible hh_id key ev floor → ME_Floor (tf_unix_seconds floor) ∈ ma_log m →
    consume_in_worker hh_id config aio lio cio key ev floor (ma_ledger m) = Some (o, d) →
    run_step m (with_ledger d [ME_Consume (MkConsumption key ev (tf_unix_seconds floor) o)] m)
| rs_registry m w : wstep (ma_registry m) w → run_step m (with_registry w [] m)
| rs_permit m i b :
    permit_for (ma_registry m) i b → run_step m (with_registry (ma_registry m) [ME_Permit i b] m).

(** The process starts again, after a power failure or without one. *)
Inductive restart : Machine → Machine → Prop :=
| restart_power m d ld initial :
    power_failure (ma_roster m) d → survives (ma_ledger m) ld →
    restart m (MkMachine d latch_new ld (registry_new initial) (ma_log m))
| restart_process m initial :
    restart m (MkMachine (ma_roster m) latch_new (ma_ledger m) (registry_new initial) (ma_log m)).

Inductive Reached : Machine → Prop :=
| reached_boot initial : Reached (MkMachine empty_disk latch_new fresh_disk (registry_new initial) [])
| reached_run m m' : Reached m → run_step m m' → Reached m'
| reached_restart m m' : Reached m → restart m m' → Reached m'.

(** A view is vouched for: it is of a checkpoint the owner signed, under that
    checkpoint's hash and sequence, and its members are machines of it that the
    household root certified. *)
Definition vouched (view : RosterSnapshotView) : Prop :=
  rv_hh_id view = hh_id ∧
  ∃ c owner, verify_checkpoint_authority c
      (ac_authority (hist_admission (MkHistoricalContext hh_id hh_pub) owner (cp_issued_at c))) = Ok tt ∧
    checkpoint_hash c = Ok (rv_checkpoint_hash view) ∧ rv_checkpoint_sequence view = cp_checkpoint_sequence c ∧
    rv_not_after view = cp_not_after c ∧ rv_revoked_m_ids view = revoked_ids (cp_revocations c) ∧
    ∀ mv, mv ∈ rv_active view → ∃ member, member ∈ cp_active c ∧ certified hh_pub hh_id member ∧
      mv = MkRosterMemberView (mm_m_id member) (mm_m_pub member) (mm_machine_cert_fingerprint member).

Record MachineInv (m : Machine) : Prop := {
  mi_stored : Stored hh_id (λ _, True) (ma_roster m);
  mi_latch : latch_ok (ma_latch m);
  mi_floors : ∀ f, f ∈ floors_of (ma_log m) → everywhere T_Clock (floor_bytes_from hh_id f) (ma_roster m);
  mi_sorted : StronglySorted Z.le (floors_of (ma_log m));
  mi_history : History hh_id config (ma_ledger m) (reverse (consumptions_of (ma_log m)));
  mi_grounded : ∀ l1 c l2, ma_log m = l1 ++ ME_Consume c :: l2 → cn_floor c ∈ floors_of l1;
  mi_views : ∀ view, ME_Snapshot view ∈ ma_log m → vouched view;
  mi_registry : ∃ initial, rtc wstep (registry_new initial) (ma_registry m);
}.

(** ** Lemmas *)

Lemma floors_app l1 l2 : floors_of (l1 ++ l2) = floors_of l1 ++ floors_of l2.
Proof. apply omap_app. Qed.

Lemma consumptions_app l1 l2 : consumptions_of (l1 ++ l2) = consumptions_of l1 ++ consumptions_of l2.
Proof. apply omap_app. Qed.

Lemma elem_of_floors f l : f ∈ floors_of l ↔ (ME_Floor f ∈ l).
Proof.
  unfold floors_of. rewrite list_elem_of_omap. split.
  - intros (e & He & Hf). destruct e; try done. by injection Hf as ->.
  - intros Hf. by exists (ME_Floor f).
Qed.

(** What is told is a view and its floor, the floor alone, the view alone, or
    nothing. *)
Lemma told_cases ev told :
  told `sublist_of` told_events ev →
  consumptions_of told = [] ∧ (∀ c, ME_Consume c ∉ told) ∧
  (∀ view, ME_Snapshot view ∈ told → ∃ io op floor, ev = EV_Op io op (RA_Snapshot (Ok (view, floor)))) ∧
  (floors_of told = [] ∨ ∃ f, floors_of told = [f] ∧ told_floor ev = Some f).
Proof.
  unfold told_events. destruct ev as [io op [r|r|r|r|[[view floor]|e]]|];
    try (intros ->%sublist_nil_r; split_and!; [done|by intros ? ?%not_elem_of_nil|by intros ? ?%not_elem_of_nil|by left]).
  intros Hs. assert (told = [] ∨ told = [ME_Snapshot view] ∨ told = [ME_Floor (tf_unix_seconds floor)] ∨
    told = [ME_Snapshot view; ME_Floor (tf_unix_seconds floor)]) as Ht.
  { apply sublist_cons_r in Hs as [Hs|(t1 & -> & Hs)]; apply sublist_cons_r in Hs as [Hs|(t2 & -> & Hs)];
      apply sublist_nil_r in Hs as ->; auto. }
  destruct Ht as [->|[->|[->| ->]]]; (split_and!;
    [done|intros c Hc; set_solver|intros v Hv|cbn; (by left) || (right; by eexists)]);
    try (exfalso; set_solver); assert (v = view) as -> by set_solver; by eexists _, _, _.
Qed.

Lemma sorted_snoc {A} (R : A → A → Prop) l y :
  StronglySorted R l → (∀ x, x ∈ l → R x y) → StronglySorted R (l ++ [y]).
Proof.
  induction 1 as [|x l Hl IH Hx]; intros Hy; cbn; [by repeat constructor|]. constructor.
  - apply IH. intros z Hz. apply Hy. by right.
  - apply Forall_app. split; [done|]. constructor; [|done]. apply Hy. by left.
Qed.

Context {CL : CborLaws} (Hwf : household_well_formed hh_id = true).

Lemma event_any ev : event_presented (λ _, True) ev.
Proof. destruct ev as [io op answer|]; [|done]. destruct op; try done. cbn. intros c Hc. by apply Forall_true. Qed.

Lemma event_stored d ev d' :
  event_step hh_id hh_pub d ev d' → Stored hh_id (λ _, True) d → Stored hh_id (λ _, True) d'.
Proof. intros He. eapply stored_steps, event_steps; [done|done|apply event_any]. Qed.

Lemma event_floor F d ev d' :
  event_step hh_id hh_pub d ev d' → everywhere T_Clock (floor_bytes_from hh_id F) d →
  everywhere T_Clock (floor_bytes_from hh_id F) d'.
Proof. intros He. eapply floor_steps; [done|]. eapply event_steps; [done|exact He|apply event_any]. Qed.

(** A view the roster gives out is vouched for, and current at its floor. *)
Lemma snapshot_vouched co io l d view floor l' d' :
  for_household hh_id hh_pub co → latch_ok l → io_ok io →
  current_snapshot_with_trusted_wall_floor co io l d = Some (Ok (view, floor), l', d') →
  vouched view ∧ tf_unix_seconds floor <= rv_not_after view ∧ tf_hh_id floor = hh_id.
Proof.
  intros Hco Hl Hio H. unfold current_snapshot_with_trusted_wall_floor in H.
  apply bind_Some in H as ([[od l2] d2] & Ho & H). destruct od as [e| |rec f s fp]; [done..|]. injection H as H _ _.
  apply bind_Ok in H as (data & (-> & _ & Hna)%map_err_Ok%current_data_Ok & [= <- <-]).
  cbn [live_ctx ac_authority ra_effective_now] in Hna.
  apply open_cases with (hh_id := hh_id) (hh_pub := hh_pub) in Ho as (r & _ & Hr); [|done..].
  destruct (Hr _ _ _ _ eq_refl) as (_ & (lf & Hv & Hdec & Hre) & _).
  apply rederive_current_Ok in Hre. destruct (ch_state_kind rec); [done| |done..].
  destruct Hre as (a & c & d0 & b & Ha & Hc & [= <-] & Hd0 & _). destruct Hd0. destruct Hco as [Hid _].
  split; [|cbn; by rewrite Hid]. split; [by cbn|]. exists c, b. cbn.
  rewrite <- re_tombstones, <- re_active, <- re_not_after, <- re_sequence. split_and!; [done..|].
  intros mv (member & -> & Hm)%list_elem_of_fmap. exists member. split_and!; [done| |done].
  destruct re_ok. rewrite ro_active in Hm. apply elem_of_surviving in Hm as [Hm _].
  rewrite Forall_forall in ro_certified. by apply ro_certified.
Qed.

Lemma told_vouched d ev d' view io op floor :
  event_step hh_id hh_pub d ev d' → ev = EV_Op io op (RA_Snapshot (Ok (view, floor))) → vouched view.
Proof.
  intros [co io' op' l d0 answer d0' Hco Hl Hio Hr|]; [|done]. intros [= -> -> ->].
  destruct op; cbn in Hr; apply bind_Some in Hr as (x & Hx & Hr); [by destruct x|by destruct x as [[? ?] ?]..|].
  destruct x as [[r l1] d1]. injection Hr as -> <-. by apply snapshot_vouched in Hx as [? _].
Qed.

(** ** The invariant *)

Context (Hcap : 0 <= lc_capacity config <= MAX_CONFIGURED_ENTRIES).

Lemma inv_roster m ev d l told :
  MachineInv m → event_step hh_id hh_pub (ma_roster m) ev d → latch_ok l →
  told `sublist_of` told_events ev → MachineInv (with_roster d l told m).
Proof.
  intros [HS HL HF HO HH HG HV HR] He Hl (Hc & Hnc & Hsn & Hfl)%told_cases.
  assert (∀ f, f ∈ floors_of told → told_floor ev = Some f) as Htold.
  { intros f Hf. destruct Hfl as [E|(g & E & Hg)]; rewrite E in Hf; [by apply not_elem_of_nil in Hf|].
    by apply list_elem_of_singleton in Hf as ->. }
  split; cbn [ma_roster ma_latch ma_ledger ma_registry ma_log with_roster]; try done.
  - by eapply event_stored.
  - intros f. rewrite floors_app, elem_of_app. intros [Hf|Hf]; [by eapply event_floor; [|apply HF]|].
    eapply told_floor_durable; [done..|]. by apply Htold.
  - rewrite floors_app. destruct Hfl as [E|(g & E & Hg)]; rewrite E; [by rewrite app_nil_r|].
    apply sorted_snoc; [done|]. intros f Hf. eapply floor_above_told; [done..|]. by apply HF.
  - by rewrite consumptions_app, Hc, app_nil_r.
  - intros l1 c l2 E. apply app_eq_inv in E as [(k & E1 & E2)|(k & E1 & E2)].
    + destruct k as [|e k]; cbn in E2; [|injection E2 as <- ->; by eapply HG].
      exfalso. apply (Hnc c). rewrite <- E2. by left.
    + exfalso. apply (Hnc c). rewrite E2. apply elem_of_app. right. by left.
  - intros view [Hv|Hv]%elem_of_app; [by apply HV|]. destruct (Hsn _ Hv) as (io & op & floor & ->).
    by eapply told_vouched.
Qed.

(** Nothing was told; the registry or the ledger's files changed. *)
Lemma machine_inv_frame m m' :
  MachineInv m → ma_roster m' = ma_roster m → latch_ok (ma_latch m') → ma_log m' = ma_log m →
  History hh_id config (ma_ledger m') (reverse (consumptions_of (ma_log m))) →
  (∃ initial, rtc wstep (registry_new initial) (ma_registry m')) → MachineInv m'.
Proof. intros [] E1 El E2 HH HR. split; rewrite ?E1, ?E2; done. Qed.

Lemma machine_inv_permit m i b : MachineInv m → MachineInv (with_registry (ma_registry m) [ME_Permit i b] m).
Proof.
  intros [HS HL HF HO HH HG HV HR]. split; cbn [ma_roster ma_latch ma_ledger ma_registry ma_log with_registry]; try done.
  - rewrite floors_app. cbn. by rewrite app_nil_r.
  - rewrite floors_app. cbn. by rewrite app_nil_r.
  - rewrite consumptions_app. cbn. by rewrite app_nil_r.
  - intros l1 c l2 E. destruct l2 as [|e l2 _] using rev_ind; [by apply app_inj_2 in E as [_ [= ?]]|].
    rewrite app_comm_cons, (assoc_L (++)) in E. apply app_inj_2 in E as [E _]; [|done]. by eapply HG.
  - intros view [Hv|Hv]%elem_of_app; [by apply HV|]. set_solver.
Qed.

Lemma inv_consume m aio lio cio key ev floor o d :
  MachineInv m → Admissible hh_id key ev floor → ME_Floor (tf_unix_seconds floor) ∈ ma_log m →
  consume_in_worker hh_id config aio lio cio key ev floor (ma_ledger m) = Some (o, d) →
  MachineInv (with_ledger d [ME_Consume (MkConsumption key ev (tf_unix_seconds floor) o)] m).
Proof.
  intros [HS HL HF HO HH HG HV HR] HA Hf Hcw.
  split; cbn [ma_roster ma_latch ma_ledger ma_registry ma_log with_ledger]; try done.
  - rewrite floors_app. cbn. by rewrite app_nil_r.
  - rewrite floors_app. cbn. by rewrite app_nil_r.
  - rewrite consumptions_app. cbn. rewrite reverse_app. cbn. by eapply history_consume.
  - intros l1 c l2 E. destruct l2 as [|e l2 _] using rev_ind.
    + apply app_inj_2 in E as [<- [= <-]]; [|done]. by apply elem_of_floors.
    + rewrite app_comm_cons, (assoc_L (++)) in E. apply app_inj_2 in E as [E _]; [|done]. by eapply HG.
  - intros view [Hv|Hv]%elem_of_app; [by apply HV|]. set_solver.
Qed.

Lemma inv_run m m' : MachineInv m → run_step m m' → MachineInv m'.
Proof.
  intros HI Hr. revert HI. destruct Hr as [m0 ev d l told He _ Hl Ht|m0 io r d Ho|m0 aio lio cio key ev floor o d HA Hf Hcw|m0 w Hw|m0 i b _]; intros HI.
  - by eapply inv_roster.
  - eapply machine_inv_frame; [done|done|apply HI|cbn; by rewrite app_nil_r| |apply HI]. eapply history_open; [apply HI|done].
  - by eapply inv_consume.
  - eapply machine_inv_frame; [done|done|apply HI|cbn; by rewrite app_nil_r|apply HI|].
    destruct (mi_registry _ HI) as [initial Hr]. exists initial. by eapply rtc_r.
  - by apply machine_inv_permit.
Qed.

Lemma latch_new_fine : latch_ok latch_new.
Proof. by intros v [?|?]. Qed.

Lemma inv_restart m m' : MachineInv m → restart m m' → MachineInv m'.
Proof.
  intros HI Hr. revert HI. destruct Hr as [m0 d ld initial Hp Hs|m0 initial]; intros HI.
  - pose proof (inv_roster m0 EV_PowerFailure d latch_new [] HI (ev_power _ _ _ _ Hp) latch_new_fine (sublist_nil_l _)) as HI'.
    eapply machine_inv_frame; [exact HI'|done|apply latch_new_fine|cbn; by rewrite app_nil_r| |by exists initial].
    cbn. rewrite app_nil_r. by eapply history_power_failure; [apply HI|].
  - eapply machine_inv_frame; [done|done|apply latch_new_fine|done|apply HI|by exists initial].
Qed.

Lemma reached_inv m : Reached m → MachineInv m.
Proof.
  induction 1 as [initial|m m' _ IH Hr|m m' _ IH Hr]; [|by eapply inv_run|by eapply inv_restart].
  split; cbn; try by intros ? ?%not_elem_of_nil.
  - apply stored_empty.
  - apply latch_new_fine.
  - constructor.
  - constructor.
  - by intros [] c l2.
  - by exists initial.
Qed.
End machine.
