(* ===== verification/RuntimeRegistry.v ===== *)
(** * Permits and bindings

    A call of [try_preauthorize_before] that ends with a permit holds it for
    the machine and the certificate of the binding it was made with, whatever
    other calls do in the meantime. *)

From stdpp Require Import base gmap sets list strings.
From Stdlib Require Import ZArith Lia Ascii.
From S2P Require Import Prelude.
From S2P Require Import RosterView.
From S2P Require Import Registry.
From S2P Require Import RegistrySteps.
From S2P Require Import RegistryInv.
From S2P Require Import RegistryLock.
From S2P Require Import RegistryPreserve.
From S2P Require Import RegistryBodies.
From S2P Require Import RegistryHistory.
From S2P Require Import RegistrySpec.
From S2P Require Import Ingress.
From S2P Require Import SessionErrors.
From S2P Require Import Runtime.
From S2P Require Import RuntimeHistory.

Open Scope Z_scope.

Definition cell_for (b : SealedBinding) (c : Cell) : Prop :=
  c_m_id c = sb_m_id b ∧ c_fingerprint c = sb_machine_cert_fingerprint b.

(** Where a preauthorization with the binding can be. *)
Definition bound (b : SealedBinding) (cells : list Cell) (p : Pc) : Prop :=
  match p with
  | Pc_Lock (L_Preauthorize b' _ _) | Pc_Body (L_Preauthorize b' _ _) => b' = b
  | Pc_Stores _ _ _ (Nx_Permit c) => cell_for b c
  | Pc_Permit s _ m_id => m_id = sb_m_id b ∧ ∃ c, cells !! s = Some c ∧ cell_for b c
  | _ => True
  end.

Lemma bound_fwd b cells cells' p : CellsFwd cells cells' → bound b cells p → bound b cells' p.
Proof.
  intros HF. destruct p as [| | | | | |s id m| |]; try done. intros (-> & c & Hc & Hm & Hf). split; [done|].
  destruct (HF _ _ Hc) as (c' & Hc' & (_ & Hm' & Hf' & _) & _). exists c'. split; [done|]. unfold cell_for. split; congruence.
Qed.

Lemma bound_wake b cells s p : bound b cells p → bound b cells (wake s p).
Proof. by destruct p as [| | | |[] t rest all k| | | |]; cbn; repeat case_bool_decide. Qed.

(** Call [i] is bound to [b]. *)
Definition Bound (i : nat) (b : SealedBinding) (w : World) : Prop :=
  ∃ p, w_pcs w !! i = Some p ∧ bound b (w_cells w) p.

(** A step of call [j], which may wake others. *)
Lemma bound_step i b w w' j p q (f : Pc → Pc) :
  Bound i b w → CellsFwd (w_cells w) (w_cells w') → w_pcs w !! j = Some p →
  w_pcs w' = f <$> <[j := q]> (w_pcs w) → (∀ x, bound b (w_cells w') x → bound b (w_cells w') (f x)) →
  (bound b (w_cells w) p → bound b (w_cells w') q) → Bound i b w'.
Proof.
  intros (x & Hx & Hb) HF Hj Hpcs Hf Hq. unfold Bound. rewrite Hpcs, list_lookup_fmap.
  destruct (decide (i = j)) as [->|].
  - rewrite list_lookup_insert_eq by (by eapply lookup_lt_Some). eexists. split; [done|]. apply Hf, Hq. congruence.
  - rewrite list_lookup_insert_ne, Hx by done. eexists. split; [done|]. apply Hf. by eapply bound_fwd.
Qed.

Lemma bound_step_id i b w w' j p q :
  Bound i b w → CellsFwd (w_cells w) (w_cells w') → w_pcs w !! j = Some p →
  w_pcs w' = <[j := q]> (w_pcs w) →
  (bound b (w_cells w) p → bound b (w_cells w') q) → Bound i b w'.
Proof. intros HB HF Hj Hpcs. apply (bound_step i b w w' j p q id); auto. by rewrite list_fmap_id. Qed.

Lemma bound_step_wake i b w w' s j p q :
  Bound i b w → CellsFwd (w_cells w) (w_cells w') → w_pcs w !! j = Some p →
  w_pcs w' = wake s <$> <[j := q]> (w_pcs w) →
  (bound b (w_cells w) p → bound b (w_cells w') q) → Bound i b w'.
Proof. intros HB HF Hj Hpcs. eapply (bound_step i b w w' j p q (wake s)); auto using bound_wake. Qed.

(** ** The steps *)

Lemma body_bound e w op b data effs k :
  run_body e w op = (data, effs, k) → bound b (w_cells w) (Pc_Body op) → bound b (w_cells w) (Pc_Stores effs [] data k).
Proof.
  intros H Hb. destruct k as [c|]; [|done]. destruct op; cbn in H; repeat case_match; simplify_eq; try done. cbn in Hb. by subst.
Qed.

Lemma drain_pcs i d t rest all k w w' :
  drain_step i d t rest all k w = Some w' →
  ∃ q, w_pcs w' = <[i := q]> (w_pcs w) ∧ ∀ b cells, bound b cells q.
Proof.
  unfold drain_step. intros (c & Hc & H)%bind_Some. destruct d; try discriminate H;
    try (apply fmap_Some in H as (w1 & (? & _ & _ & ->)%lock_state_Some & ->); by eexists);
    injection H as <-; try case_match; by eexists.
Qed.

Lemma gate_pcs i g s gen adm w w' :
  gate_step i g s gen adm w = Some w' →
  ∃ q, (∀ b cells, bound b cells q) ∧
    (w_pcs w' = <[i := q]> (w_pcs w) ∨ ∃ s', w_pcs w' = wake s' <$> <[i := q]> (w_pcs w)).
Proof.
  unfold gate_step. intros (c & Hc & H)%bind_Some. destruct g; try discriminate H;
    try (injection H as <-; try case_match; eexists; (split; [|by left]); done).
  - apply bind_Some in H as (w1 & (? & _ & _ & ->)%lock_state_Some & H). injection H as <-.
    case_match; eexists; (split; [|by left]); done.
  - apply fmap_Some in H as (w1 & (? & _ & _ & ->)%lock_state_Some & ->). eexists; (split; [|by left]); done.
  - injection H as <-. case_match; eexists; (split; [|by eauto]); done.
Qed.

Lemma step_bound a i b w w' : Inv w → Bound i b w → step a w = Some w' → Bound i b w'.
Proof.
  intros HI HB H. pose proof (step_fwd _ _ _ HI H) as HF.
  destruct a as [c|j e|j|j|j|j|j|j|s]; cbn in H.
  - apply fmap_Some in H as (p & Hp & ->). destruct HB as (x & Hx & Hb). exists x. cbn.
    by rewrite (lookup_app_l_Some _ _ _ _ Hx).
  - apply bind_Some in H as (p & Hp & H).
    destruct p as [op|op|[|f todo] ann data k|[|t todo] ann k|d t rest all k|[|t rest] all k|s id m|
      g s gen adm|r dr]; cbn in H; try done.
    + unfold lock_inner in H. repeat case_match; try (injection H as <-; by eapply bound_step_id).
      apply fmap_Some in H as (r & _ & ->). by eapply bound_step_id.
    + destruct (run_body e w op) as [[data effs] k] eqn:Hr. injection H as <-.
      eapply bound_step_id; [done..|]. by eapply body_bound.
    + injection H as <-. destruct k as [c|later k]; [|by eapply bound_step_id].
      eapply bound_step_id; [done..|]. cbn. intros [Hm Hf]. split; [done|]. exists c.
      by rewrite lookup_app_r, Nat.sub_diag.
    + injection H as <-. eapply bound_step_id; [done|done|done|by destruct f|]. done.
    + injection H as <-. by eapply bound_step_id.
    + injection H as <-. by eapply bound_step_id.
    + destruct (drain_pcs _ _ _ _ _ _ _ _ H) as (q & Hpcs & Hq). eapply bound_step_id; eauto.
    + injection H as <-. eapply bound_step_id; [done..|]. intros _. destruct k, all; done.
    + injection H as <-. by eapply bound_step_id.
    + destruct (gate_pcs _ _ _ _ _ _ _ H) as (q & Hq & [Hpcs|[s' Hpcs]]);
        [eapply bound_step_id|eapply bound_step_wake]; eauto.
  - apply bind_Some in H as (p & Hp & H). destruct p; try done. injection H as <-. by eapply bound_step_wake.
  - apply bind_Some in H as (p & Hp & H). destruct p; try done. injection H as <-. by eapply bound_step_wake.
  - apply bind_Some in H as (p & Hp & H). destruct p; try done. injection H as <-. by eapply bound_step_wake.
  - apply bind_Some in H as (p & Hp & H). destruct p as [| | | | | | |[] s gen adm|]; try done.
    injection H as <-. by eapply bound_step_id.
  - apply bind_Some in H as (p & Hp & H). destruct p as [| | | |[] t rest all k| | | |]; try done.
    injection H as <-. by eapply bound_step_id.
  - apply bind_Some in H as (p & Hp & H). destruct p; try done; injection H as <-; by eapply bound_step_id.
  - apply bind_Some in H as (c & Hc & H). destruct (state_holder (c_sync c)); [done|].
    injection H as <-. destruct HB as (x & Hx & Hb). exists x. split; [done|]. by eapply bound_fwd.
Qed.

Lemma run_bound acts i b w w' : Inv w → Bound i b w → run_acts acts w = Some w' → Bound i b w'.
Proof.
  revert w. induction acts as [|a acts IH]; intros w HI HB H; cbn in H; [by injection H as <-|].
  apply bind_Some in H as (w1 & Hs & H). eapply IH; [by eapply step_inv|by eapply step_bound|done].
Qed.

(** ** The admission *)

Lemma try_preauthorize_steps acts b handle dl w r w' :
  Inv w → try_preauthorize_before acts b handle dl w = Some (r, w') →
  rtc wstep w w' ∧ ∀ i, r = Ok i → permit_for w' i b.
Proof.
  intros HI H. unfold try_preauthorize_before in H. apply bind_Some in H as (w1 & Hr & H).
  apply bind_Some in H as (p & Hp & H).
  assert (w1 = w') as <- by (by destruct p as [| | | | | | | |[] ?]; simplify_eq).
  split; [by eapply run_acts_rtc|]. intros i ->.
  assert (i = length (w_pcs w)) as -> by (by destruct p as [| | | | | | | |[] ?]; simplify_eq).
  set (call := A_Call (Call_Op (L_Preauthorize b handle dl))) in Hr. cbn [run_acts] in Hr.
  apply bind_Some in Hr as (w2 & Hs & Hr). assert (Inv w2) as HI2 by by eapply step_inv.
  assert (Bound (length (w_pcs w)) b w2) as HB.
  { injection Hs as <-. exists (Pc_Lock (L_Preauthorize b handle dl)). cbn. by rewrite lookup_app_r, Nat.sub_diag. }
  destruct (run_bound _ _ _ _ _ HI2 HB Hr) as (q & Hq & Hb). rewrite Hp in Hq. injection Hq as <-.
  destruct p as [| | | | | |s id m| |[] ?]; try done. destruct Hb as (-> & c & Hc & Hm & Hf). by exists s, id, c.
Qed.

Lemma retry_steps b handle dl expired (rounds : list Round) w r w' :
  Inv w →
  retry_until_admitted (λ r, try_preauthorize_before (ro_acts r) b handle (dl r)) expired rounds w = Some (r, w') →
  rtc wstep w w' ∧ ∀ i, r = Ok i → permit_for w' i b.
Proof.
  revert w. induction rounds as [|ro rounds IH]; intros w HI H; [done|]. cbn in H.
  apply bind_Some in H as ([a w1] & Ha & H). apply try_preauthorize_steps in Ha as [Hw Hp]; [|done].
  destruct a as [i|err].
  - injection H as <- <-. split; [done|]. intros i' [= <-]. by apply Hp.
  - destruct (map_preauthorize_error err (expired ro)) as [|e]; [|by injection H as <- <-].
    apply IH in H as [Hr Hi]; [|]. 2: { clear -HI Hw. induction Hw as [|x y z [] _ IH]; eauto using step_inv. }
    split; [by etrans|done].
Qed.

(** ** The deadline *)

Abbreviation own i e n := (repeat (A_Run i e) n).

(** The call has returned. *)
Definition preauthorized (p : Pc) : bool :=
  match p with Pc_Permit _ _ _ | Pc_Done (Ret_Preauthorize _) _ => true | _ => false end.

(** The call returns after at most [n] steps of its own. *)
Definition returns (i : nat) (e : Env) (n : nat) (w : World) : Prop :=
  ∃ k w' p, (k ≤ n)%nat ∧ run_acts (own i e k) w = Some w' ∧ w_pcs w' !! i = Some p ∧ preauthorized p = true.

Lemma returns_now i e n p w : w_pcs w !! i = Some p → preauthorized p = true → returns i e n w.
Proof. intros Hp Hd. exists 0%nat, w, p. split_and!; [lia|done..]. Qed.

Lemma returns_step i e n p q w w1 :
  w_pcs w !! i = Some p → length (w_pcs w1) = length (w_pcs w) → run_pc i e p w = Some (set_pc i q w1) →
  (w_pcs (set_pc i q w1) !! i = Some q → length (w_pcs (set_pc i q w1)) = length (w_pcs w) →
   returns i e n (set_pc i q w1)) → returns i e (S n) w.
Proof.
  intros Hp Hl Hs Hk. assert (i < length (w_pcs w))%nat as Hi by by eapply lookup_lt_Some.
  destruct Hk as (k & w' & p' & Hle & Hr & Hp' & Hd).
  - cbn. rewrite list_lookup_insert_eq; [done|by rewrite Hl].
  - cbn. by rewrite length_insert.
  - exists (S k), w', p'. split_and!; [lia| |done..]. cbn [repeat run_acts step]. by rewrite Hp; cbn; rewrite Hs.
Qed.

(** The body under the lock ends in a permit or a refusal, with no stores. *)
Lemma preauthorize_body e w b handle dl data effs k :
  run_body e w (L_Preauthorize b handle dl) = (data, effs, k) →
  effs = [] ∧ ((∃ c, k = Nx_Permit c) ∨ ∃ r, k = Nx_Revoke [] (Af_Return (Ret_Preauthorize r))).
Proof.
  cbn. destruct (dl <=? e_now e); [intros [= <- <- <-]; eauto|].
  destruct (preauthorize_locked _ _ _ _ _ _) as [[inner' id]|r]; intros [= <- <- <-]; eauto.
Qed.

(** A call of [try_preauthorize_before] returns after at most five steps of its
    own, whatever other calls hold: it never waits. *)
Lemma preauthorize_returns e i b handle dl w :
  w_pcs w !! i = Some (Pc_Lock (L_Preauthorize b handle dl)) → returns i e 5 w.
Proof.
  intros H0. destruct (w_holder w) eqn:Hho; [|destruct (w_poisoned w) eqn:Hpo].
  1,2: eapply returns_step;
    [exact H0| |cbn [run_pc]; unfold lock_inner; by rewrite Hho, ?Hpo|]; [done|]; intros H1 _; by eapply returns_now.
  eapply returns_step; [exact H0| |cbn [run_pc]; unfold lock_inner; by rewrite Hho, Hpo|]; [done|].
  set (w1 := set_pc _ _ _). intros H1 _. destruct (run_body e w1 (L_Preauthorize b handle dl)) as [[data effs] k] eqn:Hb.
  destruct (preauthorize_body _ _ _ _ _ _ _ _ Hb) as [-> Hk].
  eapply returns_step; [exact H1| |cbn [run_pc]; by rewrite Hb|]; [done|]. intros H2 _.
  destruct Hk as [[c ->]|[r ->]].
  - eapply returns_step; [exact H2| |reflexivity|]; [done|]. intros H3 _. by eapply returns_now.
  - eapply returns_step; [exact H2| |reflexivity|]; [done|]. intros H3 _.
    eapply returns_step; [exact H3| |reflexivity|]; [done|]. intros H4 _.
    eapply returns_step; [exact H4| |reflexivity|]; [done|]. intros H5 _. by eapply returns_now.
Qed.

Lemma attempt_returns e b handle dl w :
  ∃ n a w1, (n ≤ 5)%nat ∧ try_preauthorize_before (own (length (w_pcs w)) e n) b handle dl w = Some (a, w1).
Proof.
  set (i := length (w_pcs w)). set (call := A_Call (Call_Op (L_Preauthorize b handle dl))).
  destruct (step call w) as [w0|] eqn:Hc; [|done].
  assert (w_pcs w0 !! i = Some (Pc_Lock (L_Preauthorize b handle dl))) as H0.
  { injection Hc as <-. cbn. by rewrite lookup_app_r, Nat.sub_diag. }
  destruct (preauthorize_returns e _ _ _ _ _ H0) as (n & w1 & p & Hn & Hr & Hp & Hd). exists n.
  unfold try_preauthorize_before. fold call i. cbn [run_acts].
  rewrite Hc. cbn [mbind option_bind]. rewrite Hr. cbn [mbind option_bind]. rewrite Hp. cbn [mbind option_bind].
  destruct p as [| | | | | | | |[] ?]; try done; eauto.
Qed.

(** C36: an admission ends by its deadline. From any state of the registry, with
    any other calls in any stage, and whatever the clock reads in each round,
    the loop that asks for a permit returns no later than in the first round
    whose reading is past the deadline, without any step of another call: each
    round takes at most five steps of its own. *)
Theorem admission_ends_by_deadline deadline b handle e (clocks : list (Z * Z * Z)) w :
  Exists (λ c, is_expired deadline c.2 = true) clocks →
  ∃ rounds res w',
    (λ r, (ro_now r, ro_now_remaining r, ro_now_expired r)) <$> rounds `prefix_of` clocks ∧
    (∀ r, r ∈ rounds → ∃ i n, (n ≤ 5)%nat ∧ ro_acts r = own i e n) ∧
    retry_until_admitted
      (λ r, try_preauthorize_before (ro_acts r) b handle (absolute_deadline deadline (ro_now r) (ro_now_remaining r)))
      (λ r, is_expired deadline (ro_now_expired r)) rounds w = Some (res, w').
Proof.
  revert w. induction clocks as [|[[now now'] now_expired] clocks IH]; intros w Hex; [by apply Exists_nil in Hex|].
  destruct (attempt_returns e b handle (absolute_deadline deadline now now') w) as (n & a & w1 & Hn & Ha).
  set (r0 := MkRound now now' (own (length (w_pcs w)) e n) now_expired).
  assert (∃ i0 n0, (n0 ≤ 5)%nat ∧ ro_acts r0 = own i0 e n0) as Hacts by by eexists _, n.
  destruct (match a with Ok _ => Fail IE_DeadlineExceeded
            | Err err => map_preauthorize_error err (is_expired deadline now_expired) end) as [|e'] eqn:Hm.
  - destruct a as [v|err]; [done|].
    apply Exists_cons in Hex as [Hex|Hex]; [cbn in Hex; rewrite Hex in Hm; by destruct err|].
    destruct (IH w1 Hex) as (rounds & res & w' & Hp & Hall & Hret). exists (r0 :: rounds), res, w'. split_and!.
    + by apply prefix_cons.
    + intros r [->|Hin]%elem_of_cons; [done|by apply Hall].
    + cbn [retry_until_admitted ro_acts ro_now ro_now_remaining ro_now_expired r0]. rewrite Ha.
      cbn [mbind option_bind]. by rewrite Hm.
  - exists [r0]. eexists _, w1. split_and!.
    + apply prefix_cons, prefix_nil.
    + by intros r ->%list_elem_of_singleton.
    + cbn [retry_until_admitted ro_acts ro_now ro_now_remaining ro_now_expired r0]. rewrite Ha.
      cbn [mbind option_bind]. instantiate (1 := match a with Ok v => Ok v | Err _ => Err e' end).
      destruct a; [done|by rewrite Hm].
Qed.

(** ** At work *)

(** Call 0 holds the registry's lock and does not move. *)
Lemma admission_ends_by_deadline_witness :
  w_holder (after [A_Call (Call_Op (L_Observe roster1)); A_Run 0 sample_env]) = Some 0%nat ∧
  ∃ rounds res w', (λ r, (ro_now r, ro_now_remaining r, ro_now_expired r)) <$> rounds `prefix_of` [(1, 1, 2); (3, 3, 9)] ∧
    retry_until_admitted
      (λ r, try_preauthorize_before (ro_acts r) sample_binding 0
              (absolute_deadline (MkCeremonyDeadline 0 9) (ro_now r) (ro_now_remaining r)))
      (λ r, is_expired (MkCeremonyDeadline 0 9) (ro_now_expired r)) rounds
      (after [A_Call (Call_Op (L_Observe roster1)); A_Run 0 sample_env]) = Some (res, w').
Proof.
  split; [vm_compute; reflexivity|].
  destruct (admission_ends_by_deadline (MkCeremonyDeadline 0 9) sample_binding 0 sample_env [(1, 1, 2); (3, 3, 9)]
    (after [A_Call (Call_Op (L_Observe roster1)); A_Run 0 sample_env])) as (rounds & res & w' & Hp & _ & Hr).
  - right. left. vm_compute. reflexivity.
  - exists rounds, res, w'. split; [exact Hp|exact Hr].
Defined.
