(* ===== verification/RuntimeAdapters.v ===== *)
(** * The ceremony on a machine

    [RuntimeSeams] says that the traits the ceremony calls are those of the
    runtime: the nonce ledger and the admission are the adapters of [Runtime]
    over one machine, and whatever else a call does to that machine is what the
    machine may do by itself ([run_step]). Then every run of a ceremony keeps
    the machine in a state it can reach, and what the ceremony logs of the
    ledger and the admission is in the log of the machine. *)

From stdpp Require Import base gmap sets list strings.
From Stdlib Require Import ZArith Lia Ascii.
From S2P Require Import Prelude.
From S2P Require Import Rekey.
From S2P Require Import Cbor.
From S2P Require Import CborProofs.
From S2P Require Import Wire.
From S2P Require Import Ingress.
From S2P Require Import Crypto.
From S2P Require Import SessionErrors.
From S2P Require Import Delegation.
From S2P Require Import AuthFrames.
From S2P Require Import Intent.
From S2P Require Import Seams.
From S2P Require Import Refine.
From S2P Require Import Noise.
From S2P Require Import Handshake.
From S2P Require Import Protocol.
From S2P Require Import HandshakeProofs.
From S2P Require Import Agreement.
From S2P Require Import RosterView.
From S2P Require Import Registry.
From S2P Require Import RegistrySteps.
From S2P Require Import RegistryInv.
From S2P Require Import RegistryBodies.
From S2P Require Import Ledger.
From S2P Require Import LedgerDisk.
From S2P Require Import LedgerProofs.
From S2P Require Import LedgerSpec.
From S2P Require Import Household.
From S2P Require Import RosterRecord.
From S2P Require Import RosterInv.
From S2P Require Import RosterStore.
From S2P Require Import RosterDisk.
From S2P Require Import RosterHistory.
From S2P Require Import RosterSpec.
From S2P Require Import Runtime.
From S2P Require Import RuntimeHistory.
From S2P Require Import RuntimeRegistry.

Open Scope Z_scope.

(** ** The latch *)

Lemma max_of_u64 l m : (∀ v, Some v ∈ l → in_u64 v) → max_of l = Some m → in_u64 m.
Proof. intros Hl Hm%max_of_in. by apply Hl. Qed.

Lemma latch_values l : latch_ok l → ∀ v, Some v ∈ [fl_last_verified l; fl_failed_target l] → in_u64 v.
Proof. intros Hl v. rewrite !elem_of_cons, elem_of_nil. intros [Hv|[Hv|[]]]; apply Hl; auto. Qed.

Lemma failure_ok target l :
  latch_ok l → (∀ t, target = Some t → in_u64 t) → latch_ok (record_failure target l).
Proof.
  intros Hl Ht v [Hv|Hv]; cbn in Hv; [apply Hl; by left|]. destruct target as [t|]; [|apply Hl; by right].
  revert Hv. apply (max_of_u64 [Some t; fl_last_verified l; fl_failed_target l]).
  intros x [[= ->]|Hx]%elem_of_cons; [by apply Ht|]. by eapply latch_values.
Qed.

Section latch.
Context {CC : CborCrate} {SC : SessionCrypto} {HC : HouseholdCrypto} {DD : DerivedDecoders} {CL : CborLaws}.
Context (hh_id : HouseholdId) (hh_pub : P256PublicKey) (Hwf : household_well_formed hh_id = true).

Lemma durable_u64 co io policy d f :
  for_household hh_id hh_pub co → durable_floor co io policy d = Some f → in_u64 f.
Proof.
  intros Hco H. unfold durable_floor in H. destruct (read_clock_floor_inner co io d) as [[r|]|e] eqn:Hr; [..|done].
  - injection H as <-. eapply (read_clock_Ok hh_id hh_pub co io d (Some r) Hco) in Hr as (lf & _ & Hdec).
    by apply decode_clock_floor_Ok in Hdec as (_ & (_ & _ & Hu) & _).
  - destruct policy; [|done]. injection H as <-. by vm_compute.
Qed.

Lemma write_floor_latch co io f l d r l' d' :
  latch_ok l → in_u64 f → write_floor co io f l d = (r, l', d') → latch_ok l'.
Proof.
  intros Hl Hf H. unfold write_floor in H.
  repeat case_match; simplify_eq; (by apply success_ok) || (apply failure_ok; [done|by intros ? [= <-]]).
Qed.

Lemma observe_latch_ok co io policy l d r l' d' :
  for_household hh_id hh_pub co → latch_ok l → (∀ raw, ob_clock io = Some raw → in_u64 raw) →
  observe_wall_floor co io policy l d = (r, l', d') → latch_ok l'.
Proof.
  intros Hco Hl Hclock. unfold observe_wall_floor.
  destruct (ob_clock io) as [raw|]; [|intros [= _ <- _]; by apply failure_ok].
  specialize (Hclock raw eq_refl).
  assert (latch_ok (record_failure (Some raw) l)) as Hraw by (apply failure_ok; [done|by intros ? [= <-]]).
  destruct (raw =? 0); [intros [= _ <- _]; by apply failure_ok|].
  destruct (negb _); [by intros [= _ <- _]|].
  destruct (durable_floor co (ob_read io) policy d) as [f|] eqn:Hd; [|by intros [= _ <- _]].
  pose proof (latch_values l Hl) as Hv. pose proof (durable_u64 _ _ _ _ _ Hco Hd) as Hf.
  destruct (_ && _); [|destruct (if fl_last_verified l is Some lv then _ else false)].
  - intros [= _ <- _]. apply failure_ok; [done|]. intros t.
    apply (max_of_u64 [Some f; fl_last_verified l; fl_failed_target l; Some raw]). set_solver.
  - intros [= _ <- _]. apply failure_ok; [done|]. intros t.
    apply (max_of_u64 [fl_last_verified l; fl_failed_target l; Some raw]). set_solver.
  - apply write_floor_latch; [done|]. eapply new_floor_above with (hh_id := hh_id) (hh_pub := hh_pub); done.
Qed.

Lemma snapshot_latch co io l d r l' d' :
  for_household hh_id hh_pub co → latch_ok l → io_ok io →
  current_snapshot_with_trusted_wall_floor co io l d = Some (r, l', d') → latch_ok l'.
Proof.
  intros Hco Hl Hio H. unfold current_snapshot_with_trusted_wall_floor in H.
  apply bind_Some in H as ([[od l2] d2] & Ho & H). assert (l2 = l') as <- by (by destruct od; injection H as _ <- _).
  unfold open_roster in Ho. apply bind_Some in Ho as (locked & _ & Ho). destruct (locked;; _) as [rec|e].
  2: { by injection Ho as _ <- _. }
  destruct (observe_wall_floor _ _ _ _ _) as [[[f|] l1] d1] eqn:He; injection Ho as _ <- _;
    by eapply observe_latch_ok.
Qed.
End latch.

(** ** The adapters *)

(** A nonce and a digest are arrays of 32 bytes, a time is a [u64]. *)
Definition typed_request (key : IntentNonceKey) (not_after : Z) (digest : bytes) : Prop :=
  length (Intent.nk_nonce key) = 32%nat ∧ in_u64 not_after ∧ length digest = 32%nat.

Section adapters.
Context {CC : CborCrate} {SC : SessionCrypto} {HC : HouseholdCrypto} {DD : DerivedDecoders}.
Context (hh_id : HouseholdId) (hh_pub : P256PublicKey) (config : LedgerConfig).
Abbreviation Reached := (RuntimeHistory.Reached hh_id hh_pub config).
Abbreviation runs := (rtc (run_step hh_id hh_pub config)).

(** What others do to the machine while a call is between two of its steps. *)
Definition quiet (env : Machine → Machine) : Prop := ∀ m, Reached m → runs m (env m).

Lemma reached_runs m m' : Reached m → runs m m' → Reached m'.
Proof. intros Hm Hr. induction Hr as [|m m1 m2 Hs _ IH]; [done|]. apply IH. by eapply reached_run. Qed.

Lemma run_log m m' : runs m m' → ∃ l, ma_log m' = ma_log m ++ l.
Proof.
  induction 1 as [m|m m1 m2 Hs _ [l Hl]]; [exists []; by rewrite app_nil_r|].
  assert (∃ l1, ma_log m1 = ma_log m ++ l1) as [l1 Hl1] by (destruct Hs; by eexists).
  exists (l1 ++ l). by rewrite Hl, Hl1, (assoc_L (++)).
Qed.

Lemma project_request_Ok key na dg ch hk ev :
  typed_request key na dg → project_request key na dg ch = Ok (hk, ev) →
  KeyOk hk ∧ EvidenceOk ev ∧ Ledger.nk_hh_id hk = Intent.nk_hh_id key ∧ ne_not_after ev = na ∧
  hk = MkMeshIntentNonceKey (Intent.nk_hh_id key) (Intent.nk_initiator_m_id key)
         (Intent.nk_delegated_key_id key) (Intent.nk_nonce key).
Proof.
  intros (Hn & Hna & Hd) H. unfold project_request in H.
  apply bind_Ok in H as (k & Hk%map_err_Ok & H). apply bind_Ok in H as (e & He%ok_or_Ok & [= <- <-]).
  assert (k = MkMeshIntentNonceKey (Intent.nk_hh_id key) (Intent.nk_initiator_m_id key)
    (Intent.nk_delegated_key_id key) (Intent.nk_nonce key)) as ->.
  { unfold nonce_key_new in Hk. apply bind_Ok in Hk as (? & _ & Hk). apply bind_Ok in Hk as (? & _ & Hk).
    by apply bind_Ok in Hk as (? & _ & [= <-]). }
  unfold evidence_new in He. destruct (Z.eqb_spec na 0); [done|]. injection He as <-.
  split_and!; [by split|by split_and!|done..].
Qed.

Context {CL : CborLaws} (Hwf : household_well_formed hh_id = true).
Context (Hcap : 0 <= lc_capacity config <= MAX_CONFIGURED_ENTRIES).

(** A view and a floor are asked for. *)
Lemma snapshot_runs co io m r l d told :
  Reached m → for_household hh_id hh_pub co → io_ok io →
  current_snapshot_with_trusted_wall_floor co io (ma_latch m) (ma_roster m) = Some (r, l, d) →
  told `sublist_of` match r with
                    | Ok (view, floor) => [ME_Snapshot view; ME_Floor (tf_unix_seconds floor)]
                    | Err _ => []
                    end →
  runs m (with_roster d l told m).
Proof.
  intros Hm Hco Hio Hs Ht. pose proof (mi_latch _ _ _ _ (reached_inv _ _ _ Hwf Hcap _ Hm)) as Hl.
  apply rtc_once. eapply (rs_roster _ _ _ m (EV_Op io RO_Snapshot (RA_Snapshot r))); [| |by eapply snapshot_latch|].
  - eapply ev_op; [done..|]. cbn. by rewrite Hs.
  - done.
  - by destruct r as [[view floor]|].
Qed.

(** A nonce is consumed: the machine runs, and a nonce reported as committed is
    a request the worker committed, made with a floor given out in the call. *)
Lemma ledger_consume_runs co io env dl key na dg ch m r m' :
  Reached m → for_household hh_id hh_pub co → io_ok (ni_roster io) → quiet env → typed_request key na dg →
  ledger_consume co hh_id config io env dl key na dg ch m = Some (r, m') →
  runs m m' ∧
  (r = Ok NC_Committed → ∃ c l1 l2, ma_log m' = ma_log m ++ l1 ++ ME_Consume c :: l2 ∧
     cn_key c = MkMeshIntentNonceKey (Intent.nk_hh_id key) (Intent.nk_initiator_m_id key)
                  (Intent.nk_delegated_key_id key) (Intent.nk_nonce key) ∧
     ne_not_after (cn_evidence c) = na ∧ is_committed (cn_outcome c) = true).
Proof.
  intros Hm Hco Hio Henv Hty H. unfold ledger_consume in H.
  destruct (project_request key na dg ch) as [[hk ev]|e] eqn:Hp; [|by injection H as <- <-].
  apply (project_request_Ok _ _ _ _ _ _ Hty) in Hp as (HK & HE & _ & Hna & Hhk).
  apply bind_Some in H as ([[snap l] d] & Hs & H).
  destruct snap as [[view floor]|e].
  2: { injection H as <- <-. split; [|done]. by eapply snapshot_runs. }
  set (m1 := with_roster d l [ME_Floor (tf_unix_seconds floor)] m) in H.
  assert (runs m m1) as Hr1 by (eapply snapshot_runs; [done..|by apply sublist_cons]).
  assert (Reached m1) as Hm1 by by eapply reached_runs.
  pose proof (Henv m1 Hm1) as Hr2. assert (Reached (env m1)) as Hm2 by by eapply reached_runs.
  assert (∃ k, ma_log (env m1) = ma_log m ++ ME_Floor (tf_unix_seconds floor) :: k) as [k Hk].
  { destruct (run_log _ _ Hr2) as [k ->]. exists k. cbn. by rewrite <- (assoc_L (++)). }
  apply bind_Some in H as ([answer m3] & Hw & H). apply bind_Some in H as ([o sent] & Hc & H).
  injection H as <- <-. destruct (consume_caller hh_id hk ev floor
    (absolute_deadline dl (ni_now io) (ni_now_remaining io)) (ni_run io) answer HK HE) as (Hno & Hyes & _).
  destruct sent.
  2: { split; [by etrans|]. destruct (Hno _ Hc) as (reason & -> & _). done. }
  destruct (Hyes _ Hc) as [HA Ho]. unfold run_worker in Hw. destruct (ni_worker io) as [[[aio lio] cio]|].
  - apply bind_Some in Hw as ([a ld] & Hcw & [= <- <-]). split.
    + etrans; [done|]. etrans; [done|]. apply rtc_once. eapply rs_consume; [done| |done]. rewrite Hk. set_solver.
    + intros Hcm. exists (MkConsumption hk ev (tf_unix_seconds floor) a), (ME_Floor (tf_unix_seconds floor) :: k), []. cbn. rewrite Hk. split_and!; try done.
      * by rewrite <- (assoc_L (++)).
      * destruct Ho as [->| ->]; [|done]. by destruct a.
  - injection Hw as <- <-. split; [by etrans|]. by destruct Ho as [->| ->].
Qed.
Lemma registry_runs m w : rtc wstep (ma_registry m) w → runs m (with_registry w [] m).
Proof.
  intros Hw. remember (ma_registry m) as w0 eqn:E. revert m E.
  induction Hw as [w|w w1 w2 Hs _ IH]; intros m ->.
  - destruct m. cbn. unfold with_registry. cbn. rewrite app_nil_r. done.
  - eapply rtc_l; [by eapply rs_registry|].
    replace (with_registry w2 [] m) with (with_registry w2 [] (with_registry w1 [] m)); [by apply IH|].
    destruct m. unfold with_registry. cbn. by rewrite !app_nil_r.
Qed.

(** A permit is asked for: the machine runs, and a permit that is given is for
    a member of a view the roster gave out in the call. *)
Lemma reserve_runs co io env handle rounds dl key m r m' :
  Reached m → for_household hh_id hh_pub co → io_ok io → quiet env →
  d1_reserve_pending co io env handle rounds dl key m = Some (r, m') →
  runs m m' ∧
  ∀ i, r = Ok i → ∃ view b l1 l2, ma_log m' = ma_log m ++ l1 ++ ME_Permit i b :: l2 ∧
    ME_Snapshot view ∈ l1 ∧ from_membership_key key view = Ok b ∧ permit_for (ma_registry m') i b.
Proof.
  intros Hm Hco Hio Henv H. unfold d1_reserve_pending in H. apply bind_Some in H as ([[snap l] d] & Hs & H).
  unfold current_snapshot in Hs. apply bind_Some in Hs as ([[s0 l0] d0] & Hs & [= <- <- <-]).
  destruct s0 as [[view floor]|e]; cbn in H.
  2: { injection H as <- <-. split; [|done]. by eapply snapshot_runs. }
  set (m1 := with_roster d0 l0 [ME_Snapshot view] m) in H.
  assert (runs m m1) as Hr1.
  { eapply snapshot_runs; [done..|]. apply sublist_skip, sublist_nil_l. }
  assert (Reached m1) as Hm1 by by eapply reached_runs.
  destruct (from_membership_key key view) as [b|] eqn:Hb; [|injection H as <- <-; by split].
  pose proof (Henv m1 Hm1) as Hr2. assert (Reached (env m1)) as Hm2 by by eapply reached_runs.
  apply bind_Some in H as ([r0 w] & Hre & [= <- <-]).
  assert (Inv (ma_registry (env m1))) as HI.
  { destruct (mi_registry _ _ _ _ (reached_inv _ _ _ Hwf Hcap _ Hm2)) as [initial Hi]. by eapply reachable_inv. }
  apply retry_steps in Hre as [Hw Hp]; [|done].
  pose proof (registry_runs _ _ Hw) as Hr3.
  destruct (run_log _ _ Hr2) as [k Hk].
  destruct r0 as [i|e].
  2: { split; [|done]. etrans; [done|]. by etrans. }
  specialize (Hp i eq_refl). split.
  - etrans; [done|]. etrans; [done|]. etrans; [done|]. apply rtc_once.
    replace (with_registry w [ME_Permit i b] (env m1)) with
      (with_registry (ma_registry (with_registry w [] (env m1))) [ME_Permit i b] (with_registry w [] (env m1))).
    + by apply rs_permit.
    + unfold with_registry. cbn. by rewrite app_nil_r.
  - intros i' [= <-]. exists view, b, (ME_Snapshot view :: k), []. cbn. rewrite Hk. cbn.
    split_and!; [by rewrite <- !(assoc_L (++))|by left|done|done].
Qed.
End adapters.
