(* ===== verification/RuntimeCeremony.v ===== *)
(** * The ceremony on a machine

    [RuntimeSeams] says that the traits the ceremony calls are those of the
    runtime: the nonce ledger and the admission are the adapters of [Runtime]
    over one machine, and whatever else a call does to that machine is what the
    machine may do by itself ([run_step]). A small logic ([Keeps]) then shows
    that every run of a ceremony keeps the machine in a state it can reach, and
    that what the ceremony logs of the ledger and the admission is in the log
    of the machine. *)

From stdpp Require Import base gmap sets list strings sorting.
From Stdlib Require Import ZArith Lia Ascii.
From S2P Require Import Prelude.
From S2P Require Import Rekey.
From S2P Require Import Cbor.
From S2P Require Import CborProofs.
From S2P Require Import Wire.
From S2P Require Import Ingress.
From S2P Require Import Crypto.
From S2P Require Import SessionErrors.
From S2P Require Import Delegation.
From S2P Require Import AuthFrames.
From S2P Require Import Intent.
From S2P Require Import Seams.
From S2P Require Import Refine.
From S2P Require Import Noise.
From S2P Require Import Handshake.
From S2P Require Import Protocol.
From S2P Require Import HandshakeProofs.
From S2P Require Import Agreement.
From S2P Require Import RosterView.
From S2P Require Import Registry.
From S2P Require Import RegistrySteps.
From S2P Require Import Ledger.
From S2P Require Import LedgerDisk.
From S2P Require Import LedgerProofs.
From S2P Require Import Household.
From S2P Require Import RosterStore.
From S2P Require Import RosterHistory.
From S2P Require Import RosterSpec.
From S2P Require Import Runtime.
From S2P Require Import RuntimeHistory.
From S2P Require Import RuntimeAdapters.

Open Scope Z_scope.

Section seams.
Context {CC : CborCrate} {SC : SessionCrypto} {HC : HouseholdCrypto} {DD : DerivedDecoders}.
Context (hh_id : HouseholdId) (hh_pub : P256PublicKey) (config : LedgerConfig).
Context {SE : Seams}.

Abbreviation Reached := (RuntimeHistory.Reached hh_id hh_pub config).
Abbreviation runs := (rtc (run_step hh_id hh_pub config)).

(** A call that does to the machine what the machine may do by itself. *)
Definition harmless (machine : X → Machine) {A} (f : X → A * X) : Prop :=
  ∀ x, Reached (machine x) → runs (machine x) (machine (f x).2).

(** The seams of the runtime, over the machine in the external state. *)
Class RuntimeSeams := {
  machine : X → Machine;
  permit_of : Pending → nat;
  rt_instant : harmless machine instant_now;
  rt_clock : harmless machine clock_now;
  rt_rng : harmless machine os_rng;
  rt_keypair : harmless machine generate_keypair;
  rt_sign p : harmless machine (sign_mesh_session_frame p);
  rt_verify d : harmless machine (verify_delegation d);
  rt_resolve hh m ch kid : harmless machine (resolve hh m ch kid);
  rt_commit p : harmless machine (commit_after_ack p);
  rt_cancel p : harmless machine (cancel_before_ack p);
  rt_consume key na dg ch x r x' :
    Reached (machine x) → Seams.consume key na dg ch x = (r, x') →
    ∃ co io env dl, for_household hh_id hh_pub co ∧ io_ok (ni_roster io) ∧ quiet hh_id hh_pub config env ∧
      ledger_consume co hh_id config io env dl key na dg ch (machine x) = Some (r, machine x');
  rt_reserve key x r x' :
    Reached (machine x) → reserve_pending key x = (r, x') →
    ∃ co io env handle rounds dl, for_household hh_id hh_pub co ∧ io_ok io ∧ quiet hh_id hh_pub config env ∧
      d1_reserve_pending co io env handle rounds dl key (machine x) = Some (p ← r; Ok (permit_of p), machine x');
}.

(** ** What a log says of the machine *)

Definition Typed (l : list Event) : Prop :=
  ∀ key na dg ch r, Ev_Consume key na dg ch r ∈ l → typed_request key na dg.

Definition ledger_key (key : IntentNonceKey) : MeshIntentNonceKey :=
  MkMeshIntentNonceKey (Intent.nk_hh_id key) (Intent.nk_initiator_m_id key) (Intent.nk_delegated_key_id key)
    (Intent.nk_nonce key).

Definition consumed_in (k : list MachineEvent) (key : IntentNonceKey) (na : Z) : Prop :=
  ∃ c, ME_Consume c ∈ k ∧ cn_key c = ledger_key key ∧ ne_not_after (cn_evidence c) = na ∧
    is_committed (cn_outcome c) = true.

Definition reserved_in (k : list MachineEvent) (key : D1MembershipKey) : Prop :=
  ∃ view b i, ME_Snapshot view ∈ k ∧ ME_Permit i b ∈ k ∧ from_membership_key key view = Ok b.

(** The machine ran from [m0] to [m], and its log accounts for [l]. *)
Record Explains (m0 : Machine) (l : list Event) (m : Machine) : Prop := {
  ex_runs : runs m0 m;
  ex_log : ∃ k, ma_log m = ma_log m0 ++ k ∧
    (∀ key na dg ch, Ev_Consume key na dg ch (Ok NC_Committed) ∈ l → consumed_in k key na) ∧
    (∀ key, Ev_Reserve key (Ok tt) ∈ l → reserved_in k key);
}.

Lemma consumed_in_app k k' key na : consumed_in k key na → consumed_in (k ++ k') key na.
Proof. intros (c & ? & ?). exists c. set_solver. Qed.

Lemma reserved_in_app k k' key : reserved_in k key → reserved_in (k ++ k') key.
Proof. intros (v & b & i & ? & ? & ?). exists v, b, i. set_solver. Qed.

(** An event that is no answer of the ledger or the admission. *)
Definition plain (e : Event) : bool :=
  match e with Ev_Consume _ _ _ _ _ | Ev_Reserve _ _ => false | _ => true end.

(** The machine runs on, and [l2] is accounted for by what it adds. *)
Lemma explains_more m0 l m m' l2 :
  Explains m0 l m → runs m m' →
  (∀ k', ma_log m' = ma_log m ++ k' →
     (∀ key na dg ch, Ev_Consume key na dg ch (Ok NC_Committed) ∈ l2 → consumed_in k' key na) ∧
     (∀ key, Ev_Reserve key (Ok tt) ∈ l2 → reserved_in k' key)) →
  Explains m0 (l ++ l2) m'.
Proof.
  intros [Hr (k & Hk & H1 & H2)] Hrun Hnew. destruct (run_log _ _ _ _ _ Hrun) as [k' Hk'].
  destruct (Hnew k' Hk') as [H1' H2']. split; [by etrans|]. exists (k ++ k').
  rewrite Hk', Hk, (assoc_L (++)). split_and!; [done|..].
  - intros key na dg ch [Hin|Hin]%elem_of_app; [by eapply consumed_in_app, H1|].
    destruct (H1' _ _ _ _ Hin) as (c & Hc & ?). exists c. set_solver.
  - intros key [Hin|Hin]%elem_of_app; [by eapply reserved_in_app, H2|].
    destruct (H2' _ Hin) as (v & b & i & ? & ? & ?). exists v, b, i. set_solver.
Qed.

Lemma explains_plain m0 l m m' l2 :
  Explains m0 l m → runs m m' → forallb plain l2 = true → Explains m0 (l ++ l2) m'.
Proof.
  intros HE Hr Hp. eapply explains_more; [done..|]. intros k' _.
  rewrite forallb_forall in Hp. split.
  - intros key na dg ch Hin%list_elem_of_In%Hp. done.
  - intros key Hin%list_elem_of_In%Hp. done.
Qed.

(** ** Steps of a ceremony *)

Context {RS : RuntimeSeams} {CL : CborLaws} (Hwf : household_well_formed hh_id = true).
Context (Hcap : 0 <= lc_capacity config <= MAX_CONFIGURED_ENTRIES).
Context (m0 : Machine) (log0 : list Event) (Hm0 : Reached m0).

(** What was logged since the start is accounted for, if the arguments of the
    ledger have their types. *)
Definition Good (c : Conn) : Prop :=
  ∃ l, c_log c = log0 ++ l ∧ (Typed l → Explains m0 l (machine (c_ext c))).

Definition Keeps {E A} (p : ST Conn E A) : Prop := ∀ c r c', Good c → p c = (r, c') → Good c'.

Lemma typed_app l1 l2 : Typed (l1 ++ l2) → Typed l1 ∧ Typed l2.
Proof. intros H. split; intros key na dg ch r Hin; apply (H key na dg ch r); set_solver. Qed.

Lemma explains_reached l m : Explains m0 l m → Reached m.
Proof. intros [Hr _]. by eapply reached_runs. Qed.

(** A step that logs [l2] and runs the machine. *)
Lemma good_step c c' l2 :
  Good c → c_log c' = c_log c ++ l2 →
  (Reached (machine (c_ext c)) → Typed l2 → runs (machine (c_ext c)) (machine (c_ext c')) ∧
     ∀ k', ma_log (machine (c_ext c')) = ma_log (machine (c_ext c)) ++ k' →
       (∀ key na dg ch, Ev_Consume key na dg ch (Ok NC_Committed) ∈ l2 → consumed_in k' key na) ∧
       (∀ key, Ev_Reserve key (Ok tt) ∈ l2 → reserved_in k' key)) → Good c'.
Proof.
  intros (l & Hl & HE) Hlog Hstep. exists (l ++ l2). rewrite Hlog, Hl, (assoc_L (++)). split; [done|].
  intros [Ht1 Ht2]%typed_app. specialize (HE Ht1).
  destruct (Hstep (explains_reached _ _ HE) Ht2) as [Hr Hk]. by eapply explains_more.
Qed.

Lemma good_plain c c' l2 :
  Good c → c_log c' = c_log c ++ l2 → forallb plain l2 = true →
  (Reached (machine (c_ext c)) → runs (machine (c_ext c)) (machine (c_ext c'))) → Good c'.
Proof.
  intros HG Hlog Hp Hr. eapply good_step; [done..|]. intros HR _. split; [by apply Hr|]. intros k' _.
  rewrite forallb_forall in Hp. split; [intros key na dg ch Hin%list_elem_of_In%Hp|intros key Hin%list_elem_of_In%Hp]; done.
Qed.

Lemma good_same c c' : Good c → c_log c' = c_log c → c_ext c' = c_ext c → Good c'.
Proof. intros HG Hl He. eapply (good_plain c c' []); [done|by rewrite app_nil_r|done|]. by rewrite He. Qed.

Lemma keeps_bind {E A B} (p : ST Conn E A) (f : A → ST Conn E B) :
  Keeps p → (∀ a, Keeps (f a)) → Keeps (p ≫= f).
Proof.
  intros Hp Hf c r c' HG H. unfold mbind, ST_bind in H. destruct (p c) as [[a|e] c1] eqn:Ep.
  - eapply Hf; [|exact H]. by eapply Hp.
  - injection H as <- <-. by eapply Hp.
Qed.

Lemma keeps_ret {E A} (a : A) : Keeps (E:=E) (mret a).
Proof. by intros c r c' HG [= <- <-]. Qed.

Lemma keeps_lift {E A} (r : Result E A) : Keeps (lift r).
Proof. by intros c r' c' HG [= <- <-]. Qed.

Lemma keeps_map_err {E F A} (g : E → F) (p : ST Conn E A) : Keeps p → Keeps (st_map_err g p).
Proof.
  intros Hp c r c' HG H. unfold st_map_err in H. destruct (p c) eqn:Ep. injection H as <- <-. by eapply Hp.
Qed.

Lemma keeps_read read : Keeps (read_step read).
Proof.
  intros c r c' HG H. unfold read_step in H. destruct (read _ _) as [[[? ?] ?]|]; injection H as <- <-; [|done].
  by eapply good_same.
Qed.

Lemma keeps_write write : Keeps (write_step write).
Proof.
  intros c r c' HG H. unfold write_step in H. destruct (write _) as [[[? ?] ?]|]; injection H as <- <-; [|done].
  by eapply good_same.
Qed.

Lemma keeps_log {E} e : plain e = true → Keeps (log_event (E:=E) e).
Proof.
  intros He c r c' HG [= <- <-]. eapply (good_plain c _ [e]); [done|done|cbn; by rewrite He|done].
Qed.

Lemma keeps_ask {E A} (f : X → A * X) : harmless machine f → Keeps (ask (E:=E) f).
Proof.
  intros Hf c r c' HG H. unfold ask in H. destruct (f (c_ext c)) as [a x] eqn:Ef. injection H as <- <-.
  eapply (good_plain c _ []); [done|by cbn; rewrite app_nil_r|done|]. intros HR. cbn.
  specialize (Hf _ HR). by rewrite Ef in Hf.
Qed.

Lemma keeps_call {E A} (f : ST X E A) : harmless machine f → Keeps (call f).
Proof.
  intros Hf c r c' HG H. unfold call in H. destruct (f (c_ext c)) as [a x] eqn:Ef. injection H as <- <-.
  eapply (good_plain c _ []); [done|by cbn; rewrite app_nil_r|done|]. intros HR. cbn.
  specialize (Hf _ HR). by rewrite Ef in Hf.
Qed.

Lemma keeps_logged {E A} (ev : Result E A → Event) (f : ST X E A) :
  (∀ r, plain (ev r) = true) → harmless machine f → Keeps (logged ev f).
Proof.
  intros Hev Hf c r c' HG H. unfold logged in H. destruct (f (c_ext c)) as [a x] eqn:Ef. injection H as <- <-.
  eapply (good_plain c _ [ev a]); [done|done|cbn; by rewrite Hev|]. intros HR. cbn.
  specialize (Hf _ HR). by rewrite Ef in Hf.
Qed.

Lemma keeps_consume key na dg ch : Keeps (logged (Ev_Consume key na dg ch) (Seams.consume key na dg ch)).
Proof.
  intros c r c' HG H. unfold logged in H. destruct (Seams.consume key na dg ch (c_ext c)) as [a x] eqn:Ec.
  injection H as <- <-. eapply (good_step c _ [Ev_Consume key na dg ch a]); [done|done|]. cbn [c_ext]. intros HR HT.
  destruct (rt_consume _ _ _ _ _ _ _ HR Ec) as (co & io & env & dl & Hco & Hio & Henv & Hl).
  assert (typed_request key na dg) as Hty by (eapply HT; by left).
  eapply (ledger_consume_runs hh_id hh_pub config Hwf Hcap) in Hl as [Hr Hcm]; [|done..]. split; [done|].
  intros k' Hk'. split; [|set_solver]. intros key' na' dg' ch' Hin.
  apply list_elem_of_singleton in Hin as [= -> -> -> -> <-].
  destruct (Hcm eq_refl) as (cn & l1 & l2 & Hlog & Hkey & Hna & Hco'). rewrite Hk' in Hlog. simplify_list_eq.
  exists cn. set_solver.
Qed.

Lemma keeps_reserve key : Keeps (reserve key).
Proof.
  apply keeps_map_err. intros c r c' HG H. unfold logged in H.
  destruct (reserve_pending key (c_ext c)) as [a x] eqn:Ec. injection H as <- <-.
  eapply (good_step c _ [Ev_Reserve key (_ ← a; Ok tt)]); [done|done|]. cbn [c_ext]. intros HR HT.
  destruct (rt_reserve _ _ _ _ HR Ec) as (co & io & env & handle & rounds & dl & Hco & Hio & Henv & Hl).
  eapply (reserve_runs hh_id hh_pub config Hwf Hcap) in Hl as [Hr Hcm]; [|done..]. split; [done|].
  intros k' Hk'. split; [set_solver|]. intros key' Hin. apply list_elem_of_singleton in Hin as [= -> Ha].
  destruct a as [p|e]; [|done].
  destruct (Hcm _ eq_refl) as (view & b & l1 & l2 & Hlog & Hsn & Hb & _). rewrite Hk' in Hlog. simplify_list_eq.
  exists view, b, (permit_of p). set_solver.
Qed.

Lemma keeps_cancel {A} pending e : Keeps (cancel (A:=A) pending e).
Proof.
  unfold cancel. apply keeps_bind; [apply keeps_ask, rt_cancel|]. intros o.
  apply keeps_bind; [by apply keeps_log|]. intros _. apply keeps_lift.
Qed.

Lemma keeps_or_cancel {A} pending (p : ST Conn AuthFrameError A) : Keeps p → Keeps (or_cancel pending p).
Proof.
  intros Hp c r c' HG H. unfold or_cancel in H. destruct (p c) as [[a|e] c1] eqn:Ep.
  - injection H as <- <-. by eapply Hp.
  - eapply keeps_cancel; [|exact H]. by eapply Hp.
Qed.

Lemma keeps_commit pending : Keeps (commit pending).
Proof.
  unfold commit. apply keeps_bind; [apply keeps_ask, rt_commit|]. intros g.
  apply keeps_bind; [by apply keeps_log|]. intros _. apply keeps_ret.
Qed.

Ltac keeps := repeat (intros; first
  [ apply keeps_consume | apply keeps_reserve | apply keeps_commit | apply keeps_or_cancel
  | apply keeps_bind | apply keeps_ret | apply keeps_lift | apply keeps_map_err
  | apply keeps_read | apply keeps_write | apply keeps_log; done
  | apply keeps_ask, rt_instant | apply keeps_ask, rt_rng | apply keeps_ask, rt_keypair
  | apply keeps_call, rt_clock
  | apply keeps_logged; [done|first [apply rt_sign|apply rt_verify|apply rt_resolve]]
  | match goal with |- Keeps (match ?x with _ => _ end) => destruct x end ]).

Context {SN : Snow}.

Lemma keeps_begin role deadline threshold : Keeps (begin_ceremony role deadline threshold).
Proof.
  unfold begin_ceremony, check_ceremony_deadline, mint_rekey, run_xx_handshake, build_handshake_state, send_flight,
    recv_flight. keeps.
Qed.

Lemma keeps_send transport frame : Keeps (send_frame transport frame).
Proof. unfold send_frame, send_record_of. keeps. Qed.

Lemma keeps_recv transport : Keeps (recv_frame transport).
Proof. unfold recv_frame, recv_plaintext. keeps. Qed.

Lemma keeps_sign `{!Serde F, !AuthFrameBody F} (f : F) : Keeps (sign_with_k_mesh f).
Proof. unfold sign_with_k_mesh, sign_frame. keeps. Qed.

Lemma keeps_gate d policy ctx ch : Keeps (pass_delegation_gate d policy ctx ch).
Proof. unfold pass_delegation_gate. keeps. Qed.

Lemma keeps_deadline deadline : Keeps (check_ceremony_deadline deadline).
Proof. unfold check_ceremony_deadline. keeps. Qed.

Lemma keeps_responder ingress local checkpoint ch policy lease threshold :
  Keeps (run_responder_handshake ingress local checkpoint ch policy lease threshold).
Proof.
  unfold run_responder_handshake, responder_send_proof_r, responder_recv_intent, recv_intent_record, recv_plaintext,
    responder_recv_proof_i, responder_consume_nonce, responder_send_final_confirm, responder_recv_activate,
    responder_prepare_ack, read_clock. cbn [consume_ingress].
  repeat (intros; first [apply keeps_begin|apply keeps_send|apply keeps_recv|apply keeps_sign|apply keeps_gate
    |apply keeps_deadline|progress keeps]).
Qed.

Lemma keeps_initiator ingress pending local checkpoint ch policy lease threshold :
  Keeps (run_initiator_handshake ingress pending local checkpoint ch policy lease threshold).
Proof.
  unfold run_initiator_handshake, initiator_recv_proof_r, initiator_send_intent, send_intent_record, send_record_of,
    initiator_send_proof_i, initiator_recv_final_confirm, initiator_prepare_activate, initiator_exchange_ack,
    read_clock. cbn [consume_ingress].
  repeat (intros; first [apply keeps_begin|apply keeps_send|apply keeps_recv|apply keeps_sign|apply keeps_gate
    |apply keeps_deadline|progress keeps]).
Qed.
End seams.
