(* ===== verification/RuntimeSpec.v ===== *)
(** * What a ceremony on a machine guarantees

    The end-to-end theorems of the mesh session: who the peer of a session is,
    by the machine roster, and when the nonce of a connection intent can be
    accepted twice, by the nonce ledger and the floors of the roster. *)

From stdpp Require Import base gmap sets list strings sorting.
From Stdlib Require Import ZArith Lia Ascii.
From S2P Require Import Prelude.
From S2P Require Import Rekey.
From S2P Require Import Cbor.
From S2P Require Import CborProofs.
From S2P Require Import Wire.
From S2P Require Import Ingress.
From S2P Require Import Crypto.
From S2P Require Import SessionErrors.
From S2P Require Import Delegation.
From S2P Require Import AuthFrames.
From S2P Require Import Intent.
From S2P Require Import Seams.
From S2P Require Import Refine.
From S2P Require Import Noise.
From S2P Require Import Handshake.
From S2P Require Import Protocol.
From S2P Require Import HandshakeProofs.
From S2P Require Import Agreement.
From S2P Require Import RosterView.
From S2P Require Import Registry.
From S2P Require Import RegistrySteps.
From S2P Require Import Ledger.
From S2P Require Import LedgerDisk.
From S2P Require Import LedgerProofs.
From S2P Require Import Household.
From S2P Require Import Roster.
From S2P Require Import RosterAdmit.
From S2P Require Import RosterProofs.
From S2P Require Import RosterInv.
From S2P Require Import RosterRederive.
From S2P Require Import RosterStore.
From S2P Require Import RosterHistory.
From S2P Require Import RosterSpec.
From S2P Require Import Runtime.
From S2P Require Import RuntimeHistory.
From S2P Require Import RuntimeAdapters.
From S2P Require Import RuntimeCeremony.

Open Scope Z_scope.

(** ** What the protocols log *)

Section protocols.
Context {CC : CborCrate} {CL : CborLaws} {SC : SessionCrypto} {SL : SessionCryptoLaws} {SN : Snow} {SE : Seams}.
Context (local : LocalIdentity) (checkpoint : LocalCheckpoint) (channel : ExpectedChannel)
        (policy : DelegationPolicy) (lease ingress_expiry : Z).

Abbreviation R := (rstep local checkpoint channel policy lease ingress_expiry).

(** The arguments of the ledger have their types. *)
Lemma responder_typed l ph : path R R_Idle l ph → Typed l.
Proof.
  intros Hp key na dg ch r (l1 & l2 & ->)%list_elem_of_split.
  apply path_mid in Hp as (m & m' & Hm & Hs & _). inversion Hs; subst.
  apply resolved_history in Hm as (p & f & sig & u & _ & _ & _ & _ & [_ Hna Hsh] & _).
  match goal with Ha : intent_admitted _ _ _ _ _ _ _ _ |- _ => pose proof (ia_digest _ _ _ _ _ _ _ _ Ha) as Hd end.
  unfold intent_try_from in Hsh. split_and!; [|done|].
  - cbn. do 8 apply bind_Ok in Hsh as (? & _ & Hsh). apply bind_Ok in Hsh as (? & Hlen & _).
    unfold check_intent_len in Hlen. res_inv. by apply Nat.eqb_eq.
  - unfold intent_digest in Hd. apply bind_Ok in Hd as (b & _ & [= <-]). apply sha256_length.
Qed.

(** After the consumption no further intent is read. *)
Lemma no_second_intent l : ∀ ph ph', path R ph l ph' → (is_Some (r_session ph) ∨ ph = R_Closed) → ∀ i, Ev_RecvIntent i ∉ l.
Proof.
  intros ph ph' Hp. induction Hp as [ph|ph e ph1 l ph2 Hs _ IH]; intros Hph i Hin; [by apply not_elem_of_nil in Hin|].
  destruct Hph as [[t Ht]| ->]; [|inversion Hs].
  apply elem_of_cons in Hin as [<-|Hin].
  - inversion Hs; subst. done.
  - eapply IH; [|done]. destruct Hs; try done; try (left; by eexists); try (right; reflexivity);
      match goal with |- context [match ?r with Ok _ => _ | Err _ => _ end] => destruct r end;
      (left; by eexists) || by right.
Qed.

(** A session is for the one intent that was read, whose nonce was consumed. *)
Lemma session_intent l t fc a ack i :
  path R R_Idle l (R_Active t fc a ack) → Ev_RecvIntent i ∈ l →
  i = rs_intent t ∧
  Ev_Consume (nonce_key_of i) (in_not_after i) (pi_connection_intent_digest (rs_proof_i t)) channel (Ok NC_Committed) ∈ l.
Proof.
  intros Hp Hi. destruct (session_consumed _ _ _ _ _ _ _ _ t Hp eq_refl) as (l1 & l2 & rs & -> & Hr & _).
  assert (i = rs_intent t) as ->; [|split; [done|set_solver]].
  apply elem_of_app in Hi as [Hi|[?|Hi]%elem_of_cons]; [|done|].
  - apply resolved_history in Hr as (p & f & sig & u & -> & _). set_solver.
  - exfalso. apply path_mid in Hp as (m & m' & _ & Hs & Hp). revert Hi. eapply no_second_intent; [done|].
    left. inversion Hs; subst. by eexists.
Qed.

(** The permit a responder's session was given. *)
Lemma session_reserved l t fc a ack :
  path R R_Idle l (R_Active t fc a ack) →
  Ev_Reserve (MkD1MembershipKey (rs_h t) (pi_hh_id (rs_proof_i t)) (pi_self_m_id (rs_proof_i t))
    (pi_self_cert_fingerprint (rs_proof_i t)) (lc_hash checkpoint) (lc_sequence checkpoint)) (Ok tt) ∈ l.
Proof.
  intros Hp. do 3 path_back Hp. match goal with u : unit |- _ => destruct u end. set_solver.
Qed.

(** The initiator's. *)
Lemma initiator_reserved intent expected l t fc a ack :
  path (istep local checkpoint channel policy lease ingress_expiry intent expected) I_Idle l (I_Active t fc a ack) →
  Ev_Reserve (MkD1MembershipKey (is_h t) (li_hh_id local) (AuthFrames.er_m_id expected) (AuthFrames.er_cert_fingerprint expected)
    (lc_hash checkpoint) (lc_sequence checkpoint)) (Ok tt) ∈ l.
Proof.
  intros Hp. do 4 path_back Hp. match goal with u : unit |- _ => destruct u end. set_solver.
Qed.

Lemma initiator_typed intent expected l ph ph' :
  path (istep local checkpoint channel policy lease ingress_expiry intent expected) ph l ph' → Typed l.
Proof.
  intros Hp key na dg ch r (l1 & l2 & ->)%list_elem_of_split.
  apply path_mid in Hp as (m & m' & _ & Hs & _). inversion Hs.
Qed.
End protocols.

(** ** The machine *)

Section machine.
Context {CC : CborCrate} {CL : CborLaws} {SC : SessionCrypto} {SL : SessionCryptoLaws} {HC : HouseholdCrypto}
        {DD : DerivedDecoders} {SN : Snow} {SE : Seams}.
Context (hh_id : HouseholdId) (hh_pub : P256PublicKey) (config : LedgerConfig).
Context {RS : RuntimeSeams hh_id hh_pub config} (Hwf : household_well_formed hh_id = true)
        (Hcap : 0 <= lc_capacity config <= MAX_CONFIGURED_ENTRIES).

Abbreviation Reached := (RuntimeHistory.Reached hh_id hh_pub config).
Abbreviation machine_of c := (machine hh_id hh_pub config (c_ext c)).

(** The machine runs on and is restarted, any number of times. *)
Definition later : Machine → Machine → Prop :=
  rtc (λ m m', run_step hh_id hh_pub config m m' ∨ restart m m').

Lemma later_reached m m' : later m m' → Reached m → Reached m'.
Proof.
  induction 1 as [|m m1 m2 [Hs|Hs] _ IH]; intros Hm; [done|..]; apply IH; [by eapply reached_run|by eapply reached_restart].
Qed.

Lemma later_log m m' : later m m' → ∃ l, ma_log m' = ma_log m ++ l.
Proof.
  induction 1 as [m|m m1 m2 Hs _ [l Hl]]; [exists []; by rewrite app_nil_r|].
  assert (∃ l1, ma_log m1 = ma_log m ++ l1) as [l1 Hl1].
  { destruct Hs as [[]|[]]; cbn; (by eexists) || (exists []; by rewrite app_nil_r). }
  exists (l1 ++ l). by rewrite Hl, Hl1, (assoc_L (++)).
Qed.

Lemma good_start c : Reached (machine_of c) → Good hh_id hh_pub config (machine_of c) (c_log c) c.
Proof.
  intros HR. exists []. rewrite app_nil_r. split; [done|]. intros _. split; [done|]. exists [].
  rewrite app_nil_r. split_and!; [done|by intros ? ? ? ? ?%not_elem_of_nil|by intros ? ?%not_elem_of_nil].
Qed.

Section runs.
Context (local : LocalIdentity) (checkpoint : LocalCheckpoint) (channel : ExpectedChannel)
        (policy : DelegationPolicy) (lease : Z) (threshold : RekeyThreshold) (ingress : PrevalidatedIngress unit).

Abbreviation R := (rstep local checkpoint channel policy lease (ingress_expiry (pi_evidence ingress))).

(** A responder's session: its path, and what the machine did. *)
Lemma responder_explained c s c' :
  Reached (machine_of c) →
  run_responder_handshake ingress local checkpoint channel policy lease threshold c = (Ok s, c') →
  ∃ l t fc a ack, c_log c' = c_log c ++ l ∧ path R R_Idle l (R_Active t fc a ack) ∧
    responder_session t (pi_evidence ingress) s ∧ Explains hh_id hh_pub config (machine_of c) l (machine_of c').
Proof.
  intros HR H. destruct (ref_conn (responder_run _ _ _ _ _ _ _) H) as (l & ph & Hl & Hp & t & fc & a & ack & -> & Hs).
  exists l, t, fc, a, ack. split_and!; [done..|].
  destruct (keeps_responder hh_id hh_pub config Hwf Hcap (machine_of c) (c_log c) HR _ _ _ _ _ _ _ _ _ _ (good_start c HR) H)
    as (l' & Hl' & HE).
  rewrite Hl in Hl'. apply app_inv_head in Hl' as <-. apply HE. by eapply responder_typed.
Qed.

Lemma initiator_explained pending c s c' :
  Reached (machine_of c) →
  run_initiator_handshake ingress pending local checkpoint channel policy lease threshold c = (Ok s, c') →
  ∃ l t fc a ack, c_log c' = c_log c ++ l ∧
    path (istep local checkpoint channel policy lease (ingress_expiry (pi_evidence ingress)) (pg_intent pending)
      (expected_responder pending)) I_Idle l (I_Active t fc a ack) ∧
    initiator_session pending t (pi_evidence ingress) s ∧
    Explains hh_id hh_pub config (machine_of c) l (machine_of c').
Proof.
  intros HR H. destruct (ref_conn (initiator_run _ _ _ _ _ _ _ _) H) as (l & ph & Hl & Hp & t & fc & a & ack & -> & Hs).
  exists l, t, fc, a, ack. split_and!; [done..|].
  destruct (keeps_initiator hh_id hh_pub config Hwf Hcap (machine_of c) (c_log c) HR _ _ _ _ _ _ _ _ _ _ _ (good_start c HR) H)
    as (l' & Hl' & HE).
  rewrite Hl in Hl'. apply app_inv_head in Hl' as <-. apply HE. by eapply initiator_typed.
Qed.
End runs.

(** ** The peer of a session *)

(** A view that vouches for a machine under a certificate. *)
Definition vouches_for (view : RosterSnapshotView) (m_id : MachineId) (fingerprint : bytes) : Prop :=
  vouched hh_id hh_pub view ∧ is_revoked view m_id = false ∧
  ∃ member, certified hh_pub hh_id member ∧ mm_m_id member = m_id ∧
    mm_machine_cert_fingerprint member = fingerprint ∧
    MkRosterMemberView m_id (mm_m_pub member) fingerprint ∈ rv_active view.

Lemma reserved_vouched m m' k key :
  Reached m' → ma_log m' = ma_log m ++ k → reserved_in k key →
  mk_hh_id key = hh_id ∧ ∃ view i b, ME_Snapshot view ∈ k ∧ ME_Permit i b ∈ k ∧
    vouches_for view (mk_peer_m_id key) (mk_peer_cert_fingerprint key) ∧
    rv_checkpoint_hash view = mk_checkpoint_hash key ∧ rv_checkpoint_sequence view = mk_checkpoint_sequence key ∧
    sb_m_id b = mk_peer_m_id key ∧ sb_machine_cert_fingerprint b = mk_peer_cert_fingerprint key.
Proof.
  intros HR Hlog (view & b & i & Hv & Hp & Hb).
  apply validate_membership_fields_Ok in Hb as [[Hh Hc Hq Hr Hm] ->]. cbn in Hh, Hc, Hq, Hr, Hm.
  assert (vouched hh_id hh_pub view) as HV.
  { apply (mi_views _ _ _ _ (reached_inv _ _ _ Hwf Hcap _ HR)). rewrite Hlog. set_solver. }
  split; [by rewrite Hh; apply HV|]. exists view, i. eexists. split_and!; [done|exact Hp|..]; cbn; try done.
  split_and!; [done..|]. destruct HV as (_ & c & owner & _ & _ & _ & _ & _ & Hact).
  apply fmap_Some in Hm as (mv & Hl & Hfp). unfold lookup_active in Hl. apply fmap_Some in Hl as ([n mv'] & Hl & ->).
  apply list_find_Some in Hl as (Hn & Hid & _). cbn in Hfp, Hid. apply list_elem_of_lookup_2 in Hn.
  destruct (Hact _ Hn) as (member & _ & Hcert & ->). cbn in *. exists member. split_and!; try done; congruence.
Qed.

(** C2: the peer of a session is a machine of the household. When a ceremony
    ends in a session, on either side, the machine's roster gave out, during
    the ceremony, a view of a checkpoint the owner signed, of the local
    household, whose hash and sequence are those the ceremony was run at, and in it the peer is
    an active machine that the household's root certified, under the
    certificate the session is bound to, and not a revoked one; the registry
    gave its permit for that machine and certificate. *)
Theorem session_peer_vouched ingress local checkpoint channel policy lease threshold c s c' :
  Reached (machine_of c) →
  run_responder_handshake ingress local checkpoint channel policy lease threshold c = (Ok s, c') ∨
  (∃ pending, run_initiator_handshake ingress pending local checkpoint channel policy lease threshold c = (Ok s, c')) →
  Reached (machine_of c') ∧ li_hh_id local = hh_id ∧
  ∃ k view i b, ma_log (machine_of c') = ma_log (machine_of c) ++ k ∧ ME_Snapshot view ∈ k ∧ ME_Permit i b ∈ k ∧
    vouches_for view (s_peer_m_id s) (s_peer_cert_fingerprint s) ∧
    rv_checkpoint_hash view = lc_hash checkpoint ∧ rv_checkpoint_sequence view = lc_sequence checkpoint ∧
    sb_m_id b = s_peer_m_id s ∧ sb_machine_cert_fingerprint b = s_peer_cert_fingerprint s.
Proof.
  intros HR [H|[pending H]].
  - destruct (responder_explained _ _ _ _ _ _ _ _ _ _ HR H) as (l & t & fc & a & ack & _ & Hp & Hs & Hr & k & Hk & _ & Hres).
    assert (Reached (machine_of c')) as HR' by by eapply reached_runs.
    destruct (reserved_vouched _ _ _ _ HR' Hk (Hres _ (session_reserved _ _ _ _ _ _ _ _ _ _ _ Hp)))
      as (Hh & view & i & b & Hv). cbn in Hh, Hv. destruct Hs as (_ & _ & -> & -> & _). split_and!; [done| |by exists k, view, i, b].
    destruct (session_history _ _ _ _ _ _ _ _ t Hp eq_refl) as (_ & _ & _ & _ & _ & Had & _).
    destruct (session_consumed _ _ _ _ _ _ _ _ t Hp eq_refl) as (l1 & l2 & rs & _ & Hre & _).
    apply resolved_history in Hre as (? & ? & ? & ? & _ & _ & _ & Hsc & _). rewrite <- Hh. symmetry. apply Hsc.
  - destruct (initiator_explained _ _ _ _ _ _ _ _ _ _ _ HR H) as (l & t & fc & a & ack & _ & Hp & Hs & Hr & k & Hk & _ & Hres).
    assert (Reached (machine_of c')) as HR' by by eapply reached_runs.
    destruct (reserved_vouched _ _ _ _ HR' Hk (Hres _ (initiator_reserved _ _ _ _ _ _ _ _ _ _ _ _ _ Hp)))
      as (Hh & view & i & b & Hv). cbn in Hh, Hv. destruct Hs as (_ & _ & -> & -> & _). split_and!; [done|done|by exists k, view, i, b].
Qed.

(** ** Replays *)

(** A nonce committed twice had expired by a floor the roster gave out, and by
    every floor it gave out after that. *)
Lemma recommitted_expired m l0 l1 l2 c1 c2 :
  Reached m → ma_log m = l0 ++ l1 ++ l2 → ME_Consume c1 ∈ l1 → ME_Consume c2 ∈ l2 → cn_key c1 = cn_key c2 →
  is_committed (cn_outcome c1) = true → is_committed (cn_outcome c2) = true →
  ∃ k1 f k2, ma_log m = k1 ++ ME_Floor f :: k2 ∧ ne_not_after (cn_evidence c1) < f ∧
    ∀ f', ME_Floor f' ∈ k2 → f <= f'.
Proof.
  intros HR Hl H1 (a & b & ->)%list_elem_of_split Hk Hc1 Hc2.
  pose proof (reached_inv _ _ _ Hwf Hcap _ HR) as HI. pose proof (mi_history _ _ _ _ HI) as HH.
  rewrite Hl, !consumptions_app, !reverse_app in HH. change (consumptions_of (ME_Consume c2 :: b)) with (c2 :: consumptions_of b) in HH. rewrite reverse_cons in HH.
  rewrite <- !(assoc_L (++)) in HH. cbn in HH. apply history_upto in HH as [d HH].
  eapply (committed_again hh_id config) with (c1 := c1) in HH as (c & Hc & Hlt); [|try done..].
  2: { rewrite !elem_of_app, !elem_of_reverse. right. left. apply list_elem_of_omap. by exists (ME_Consume c1). }
  assert (ME_Consume c ∈ ma_log m) as Hin.
  { rewrite Hl. apply elem_of_cons in Hc as [->|Hc]; [set_solver|].
    rewrite !elem_of_app, !elem_of_reverse in Hc.
    assert (∀ l, c ∈ consumptions_of l → ME_Consume c ∈ l) as Hof.
    { intros l (e & He & Hec)%list_elem_of_omap. destruct e; try done. by injection Hec as ->. }
    rewrite !elem_of_app. destruct Hc as [Hc|[Hc|Hc]]; apply Hof in Hc; auto. }
  apply list_elem_of_split in Hin as (x & y & Hxy).
  apply (mi_grounded _ _ _ _ HI) in Hxy as Hf. apply elem_of_floors in Hf.
  assert (ME_Floor (cn_floor c) ∈ ma_log m) as (k1 & k2 & Hm)%list_elem_of_split by (rewrite Hxy; set_solver).
  exists k1, (cn_floor c), k2. split_and!; [done..|]. intros f' Hf'%elem_of_floors.
  pose proof (mi_sorted _ _ _ _ HI) as Hso. rewrite Hm, floors_app in Hso.
  apply StronglySorted_app in Hso as (_ & _ & Hso). cbn in Hso. apply StronglySorted_inv in Hso as [_ Hso].
  rewrite Forall_forall in Hso. by apply Hso.
Qed.

(** C3: an intent is not accepted twice in its lifetime. When two responder
    ceremonies on a machine both end in a session, the second begun after the
    first, with anything the machine may do and any number of restarts and power
    failures in between, and the nonce keys of their intents (household,
    initiator, delegated key and nonce) are the same, then the first
    intent had expired by a floor the roster gave out before the second
    ceremony's end, and by every floor given out after that. *)
Theorem replay_needs_expiry ingress1 local1 checkpoint1 channel1 policy1 lease1 threshold1 c1 s1 c1' l1 i1
    ingress2 local2 checkpoint2 channel2 policy2 lease2 threshold2 c2 s2 c2' l2 i2 :
  Reached (machine_of c1) →
  run_responder_handshake ingress1 local1 checkpoint1 channel1 policy1 lease1 threshold1 c1 = (Ok s1, c1') →
  later (machine_of c1') (machine_of c2) →
  run_responder_handshake ingress2 local2 checkpoint2 channel2 policy2 lease2 threshold2 c2 = (Ok s2, c2') →
  c_log c1' = c_log c1 ++ l1 → Ev_RecvIntent i1 ∈ l1 → c_log c2' = c_log c2 ++ l2 → Ev_RecvIntent i2 ∈ l2 →
  nonce_key_of i1 = nonce_key_of i2 →
  ∃ k1 f k2, ma_log (machine_of c2') = k1 ++ ME_Floor f :: k2 ∧ in_not_after i1 < f ∧
    ∀ f', ME_Floor f' ∈ k2 → f <= f'.
Proof.
  intros HR H1 Hlater H2 Hl1 Hi1 Hl2 Hi2 Hkey.
  destruct (responder_explained _ _ _ _ _ _ _ _ _ _ HR H1) as (l & t & fc & a & ack & Hl & Hp & _ & Hr & k & Hk & Hcon & _).
  rewrite Hl1 in Hl. apply app_inv_head in Hl as <-.
  assert (Reached (machine_of c2)) as HR2 by (eapply later_reached; [done|]; by eapply reached_runs).
  destruct (responder_explained _ _ _ _ _ _ _ _ _ _ HR2 H2)
    as (l & t2 & fc2 & a2 & ack2 & Hl & Hp2 & _ & Hr2 & k2 & Hk2 & Hcon2 & _).
  rewrite Hl2 in Hl. apply app_inv_head in Hl as <-.
  destruct (session_intent _ _ _ _ _ _ _ _ _ _ _ _ Hp Hi1) as [_ Hc1%Hcon].
  destruct (session_intent _ _ _ _ _ _ _ _ _ _ _ _ Hp2 Hi2) as [_ Hc2%Hcon2].
  destruct (later_log _ _ Hlater) as [kl Hkl].
  destruct Hc1 as (e1 & Hin1 & Hk1 & Hna1 & Hcm1), Hc2 as (e2 & Hin2 & Hke2 & _ & Hcm2).
  rewrite <- Hna1. eapply (recommitted_expired _ (ma_log (machine_of c1)) k (kl ++ k2) e1 e2); try done.
  - by eapply reached_runs.
  - by rewrite Hk2, Hkl, Hk, !(assoc_L (++)).
  - set_solver.
  - congruence.
Qed.
End machine.
