(* ===== verification/RuntimeSamples.v ===== *)
(** * A concrete machine

    Machine [b] of the household of [RosterSamples] with its roster, its ledger
    and its registry, behind the adapters of [Runtime]; machine [a] connects to
    it. Two ceremonies run, at times 110 and 130, with intents that carry the
    same nonce, the first until 120. *)

From stdpp Require Import base gmap sets list strings.
From Stdlib Require Import ZArith Lia Ascii.
From S2P Require Import Prelude.
From S2P Require Import Rekey.
From S2P Require Import Cbor.
From S2P Require Import CborProofs.
From S2P Require Import CborSample.
From S2P Require Import Wire.
From S2P Require Import Ingress.
From S2P Require Import Crypto.
From S2P Require Import SessionErrors.
From S2P Require Import Delegation.
From S2P Require Import AuthFrames.
From S2P Require Import Intent.
From S2P Require Import Seams.
From S2P Require Import Noise.
From S2P Require Import Handshake.
From S2P Require Import Protocol.
From S2P Require Import SessionSamples.
From S2P Require Import RosterView.
From S2P Require Import Registry.
From S2P Require Import RegistrySteps.
From S2P Require Import RegistrySpec.
From S2P Require Import Ledger.
From S2P Require Import LedgerDisk.
From S2P Require Import LedgerProofs.
From S2P Require Import LedgerSpec.
From S2P Require Import Household.
From S2P Require Import Roster.
From S2P Require Import RosterAdmit.
From S2P Require Import RosterStore.
From S2P Require Import RosterHistory.
From S2P Require Import RosterSamples.
From S2P Require Import RosterSpec.
From S2P Require Import Runtime.
From S2P Require Import RuntimeHistory.
From S2P Require Import RuntimeAdapters.
From S2P Require Import RuntimeCeremony.
From S2P Require Import RuntimeSpec.

Open Scope Z_scope.

#[local] Existing Instance sample_cbor.

(** ** The adapters with calls that succeed *)

Definition box_deadline : CeremonyDeadline := MkCeremonyDeadline 0 1000.

(** The request is sent, carried out and answered at once. *)
Definition prompt_run : ConsumeRun := MkConsumeRun false 0 [MkSendRound false 0 SP_Sent] [MkRecvRound RP_Outcome false 0 RP_Empty].
Definition prompt_io (now : Z) : NonceIo :=
  MkNonceIo (io_at now) 0 0 (Some (acquire_ok, load_ok, commit_ok)) prompt_run.

(** The roster's lock cannot be opened. *)
Definition locked_out : OpIo :=
  MkOpIo (MkLockIo (Some DF_Stat) None false [] None) false file_ok (MkObserveIo None file_ok strict_ok)
    (MkAdvanceIo file_ok strict_ok) strict_ok.

Definition box_consume (key : IntentNonceKey) (na : Z) (dg : bytes) (ch : ExpectedChannel) (now : Z) (m : Machine)
    : Result IntentError NonceConsumeOutcome * Machine :=
  let go io := ledger_consume roster_co roster_hh sample_config io id box_deadline key na dg ch m in
  match go (prompt_io now) with
  | Some x => x
  | None => default (Err IE_RosterSnapshotUnavailable, m) (go (MkNonceIo locked_out 0 0 None prompt_run))
  end.

(** The call runs three steps: the lock, the body, the unlock. *)
Definition box_rounds (m : Machine) : list Round :=
  [MkRound 0 0 (RegistrySpec.runs (length (w_pcs (ma_registry m))) 3) 0].

Definition box_reserve (key : D1MembershipKey) (now : Z) (m : Machine) : Result IntentError nat * Machine :=
  let go io := d1_reserve_pending roster_co io id 0 (box_rounds m) box_deadline key m in
  match go (io_at now) with
  | Some x => x
  | None => default (Err IE_RosterSnapshotUnavailable, m) (go locked_out)
  end.

Definition box_commit (i : nat) (m : Machine) : nat * Machine :=
  match d1_commit_after_ack i (ma_registry m) with
  | Some (s, w) => (s, with_registry w [] m)
  | None => (O, m)
  end.

Definition box_cancel (i : nat) (m : Machine) : D1CancelOutcome * Machine :=
  match d1_cancel_before_ack (RegistrySpec.runs i 8) i (ma_registry m) with
  | Some (o, w) => (o, with_registry w [] m)
  | None => (RegistryUnavailable, m)
  end.

(** The external state is the machine and the time, below 1000. *)
Definition timed {A} (f : Z → Machine → A * Machine) (x : Machine * Z) : A * (Machine * Z) :=
  let '(a, m) := f (x.2 mod 1000) x.1 in (a, (m, x.2)).

Definition box_seams (key peer_key : ascii) : Seams := {|
  X := Machine * Z;
  Pending := nat;
  Active := nat;
  instant_now := λ x, (0, x);
  clock_now := λ x, (system_clock_now (Some x.2), x);
  os_rng := λ x, (Some (replicate 32 key), x);
  generate_keypair := λ x, (Some (replicate 32 key), x);
  public_key := (key : @VerifyingKey toy_crypto);
  sign_mesh_session_frame := λ p x, (Ok (toy_sign key p), x);
  sign_64 := λ p x sig x' H, ltac:(injection H as <- <-; unfold toy_sign, toy_hash;
    rewrite length_app, length_to_be_bytes; reflexivity);
  verify_delegation := λ _ x, (Ok tt, x);
  resolve := λ _ _ _ _ x, (Ok (MkResolvedSignerAuthority (toy_point peer_key) 1 1000), x);
  Seams.consume := λ key na dg ch, timed (box_consume key na dg ch);
  reserve_pending := λ key, timed (box_reserve key);
  commit_after_ack := λ p, timed (λ _, box_commit p);
  cancel_before_ack := λ p, timed (λ _, box_cancel p);
  try_authorize := λ _ x, (false, x);
  drop_guard := λ _ x, x;
|}.

(** ** The two machines *)

Definition view_at (now : Z) (d : RDisk) : RosterSnapshotView :=
  match current_snapshot roster_co (io_at now) latch_new d with
  | Some (Ok v, _, _) => v
  | _ => MkRosterSnapshotView "" [] 0 [] 0 [] []
  end.
Definition box_view : RosterSnapshotView := Eval vm_compute in view_at 110 roster_d1.

Definition box_delegation (member : MachineRosterMemberV1) (key : ascii) (kid : string) : MeshSessionDelegation :=
  MkDelegation 1 DELEGATION_KIND DELEGATION_DOMAIN roster_hh (mm_m_id member) (mm_machine_cert_fingerprint member)
    (toy_point key) kid DELEGATION_PROFILE ["activate"; "final-confirm"; "activate-ack"] ["responder"; "initiator"]
    "dev" 1 10 1000 (replicate 64 (byte_of 1)).
Definition box_local (member : MachineRosterMemberV1) (key : ascii) (kid : string) : LocalIdentity :=
  MkLocalIdentity roster_hh (mm_m_id member) (mm_machine_cert_fingerprint member) (box_delegation member key kid).
Definition local_a : LocalIdentity := box_local member_a init_key "key-a".
Definition local_b : LocalIdentity := box_local member_b resp_key "key-b".
Definition box_checkpoint : LocalCheckpoint :=
  MkLocalCheckpoint (rv_checkpoint_hash box_view) (rv_checkpoint_sequence box_view)
    (rv_checkpoint_event_head box_view) (rv_not_after box_view).

(** The intents of machine [a] carry one nonce. *)
Definition box_pending (not_after : Z) : PendingIntent :=
  match build_and_sign (MkIntentDetails (mm_m_id member_b) (mm_machine_cert_fingerprint member_b)
          (replicate 32 "n"%char) not_after) EC_Dev local_a box_checkpoint
          (λ p x, (Ok (toy_sign init_key p), x)) (init_key : @VerifyingKey toy_crypto) tt with
  | (Ok p, _) => p
  | _ => no_intent
  end.

Definition a_run (not_after : Z) (input : bytes) :=
  @run_initiator_handshake sample_cbor toy_crypto toy_snow init_seams sample_ingress (box_pending not_after)
    local_a box_checkpoint EC_Dev sample_policy 750 threshold_3 (init_conn input).

Definition b_seams : Seams := box_seams resp_key init_key.
Definition b_conn (m : Machine) (now : Z) (input : bytes) : @Conn _ b_seams := @MkConn _ b_seams (m, now) input [] calm [].
Abbreviation b_run m now input :=
  (@run_responder_handshake sample_cbor toy_crypto toy_snow b_seams sample_ingress local_b box_checkpoint EC_Dev
    sample_policy 750 threshold_3 (b_conn m now input)).

(** The ledger is open, the registry has the roster's view. *)
Definition box_ledger : LDisk := Eval vm_compute in
  disk_after (initialize_or_recover roster_hh sample_config open_ok fresh_disk).
Definition box : Machine := MkMachine roster_d1 latch_new box_ledger (registry_new box_view) [].

Fixpoint box_exchange (not_after : Z) (n : nat) : bytes * bytes :=
  match n with
  | O => ([], [])
  | S n => let '(from_a, from_b) := box_exchange not_after n in
      (c_out (a_run not_after from_b).2, c_out (b_run box 110 from_a).2)
  end.

(** What machine [a] sends with either intent. *)
Definition from_a (not_after : Z) : bytes := (box_exchange not_after 8).1.
Definition input1 : bytes := Eval vm_compute in from_a 120.
Definition input2 : bytes := Eval vm_compute in from_a 300.

(** What the first ceremony leaves of the machine. *)
Definition box1 : Machine := Eval vm_compute in (c_ext (b_run box 110 input1).2).1.

Definition intents_of (l : list Event) : list SignedMeshConnectionIntent :=
  omap (λ e, match e with Ev_RecvIntent i => Some i | _ => None end) l.

(** Both ceremonies end in a session, each for the intent that was sent. *)
Lemma b_run1 :
  let '(r, c) := b_run box 110 input1 in
  is_ok r = true ∧ c_ext c = (box1, 110) ∧ intents_of (c_log c) = [pg_intent (box_pending 120)].
Proof. vm_compute. done. Qed.

Lemma b_run2 :
  let '(r, c) := b_run box1 130 input2 in
  is_ok r = true ∧ intents_of (c_log c) = [pg_intent (box_pending 300)].
Proof. vm_compute. done. Qed.

(** ** The laws *)

Abbreviation box_reached := (Reached roster_hh roster_pub sample_config).

Lemma locked_out_ok : io_ok locked_out.
Proof. by intros raw [=]. Qed.

Lemma quiet_id : quiet roster_hh roster_pub sample_config id.
Proof. intros m _. apply rtc_refl. Qed.

Lemma box_consume_law key na dg ch now m r m' :
  0 <= now < 1000 → box_consume key na dg ch now m = (r, m') →
  ∃ io, io_ok (ni_roster io) ∧
    ledger_consume roster_co roster_hh sample_config io id box_deadline key na dg ch m = Some (r, m').
Proof.
  intros Hn H. unfold box_consume in H. destruct (ledger_consume _ _ _ (prompt_io now) _ _ _ _ _ _ _) as [x|] eqn:E.
  - exists (prompt_io now). subst x. split; [by apply io_at_ok|done].
  - exists (MkNonceIo locked_out 0 0 None prompt_run). split; [apply locked_out_ok|].
    unfold ledger_consume in *. destruct (project_request key na dg ch) as [[hk ev]|e]; [|done].
    cbn in H |- *. by injection H as <- <-.
Qed.

Lemma box_reserve_law key now m r m' :
  0 <= now < 1000 → box_reserve key now m = (r, m') →
  ∃ io, io_ok io ∧ d1_reserve_pending roster_co io id 0 (box_rounds m) box_deadline key m = Some (r, m').
Proof.
  intros Hn H. unfold box_reserve in H. destruct (d1_reserve_pending _ (io_at now) _ _ _ _ _ _) as [x|] eqn:E.
  - exists (io_at now). subst x. split; [by apply io_at_ok|done].
  - exists locked_out. split; [apply locked_out_ok|]. cbn in H |- *. by injection H as <- <-.
Qed.

Lemma timed_law {A} (f : Z → Machine → A * Machine) x a x' :
  timed f x = (a, x') → f (x.2 mod 1000) x.1 = (a, x'.1) ∧ 0 <= x.2 mod 1000 < 1000.
Proof.
  unfold timed. destruct (f _ _) as [a0 m]. intros [= <- <-]. split; [done|]. apply Z.mod_pos_bound. lia.
Qed.

#[export] Instance box_runtime : @RuntimeSeams _ _ _ _ roster_hh roster_pub sample_config b_seams.
Proof.
  refine (@Build_RuntimeSeams _ _ _ _ roster_hh roster_pub sample_config b_seams fst id _ _ _ _ _ _ _ _ _ _ _);
    try (intros; intros x _; apply rtc_refl); try (intros x _; apply rtc_refl).
  - intros p x _. cbn. unfold timed, box_commit. destruct (d1_commit_after_ack p _) as [[s w]|] eqn:E; [|apply rtc_refl].
    cbn. apply registry_runs. unfold d1_commit_after_ack in E. apply bind_Some in E as (pc & _ & E).
    destruct pc; try done. apply bind_Some in E as (w' & Hs & [= <- <-]). apply rtc_once. by eexists.
  - intros p x _. cbn. unfold timed, box_cancel. destruct (d1_cancel_before_ack _ p _) as [[s w]|] eqn:E; [|apply rtc_refl].
    cbn. apply registry_runs. unfold d1_cancel_before_ack in E. apply bind_Some in E as (w' & Hs & E).
    apply bind_Some in E as (pc & _ & E). assert (w' = w) as <- by (by destruct pc as [| | | | | | | |[] ?]; simplify_eq).
    by eapply run_acts_rtc.
  - intros key na dg ch x r x' _ (H & Hn)%timed_law. apply box_consume_law in H as (io & Hio & H); [|done].
    exists roster_co, io, id, box_deadline. split_and!; [apply roster_co_ok|done|apply quiet_id|done].
  - intros key x r x' _ (H & Hn)%timed_law. apply box_reserve_law in H as (io & Hio & H); [|done].
    exists roster_co, io, id, O, (box_rounds x.1), box_deadline.
    split_and!; [apply roster_co_ok|done|apply quiet_id|]. by destruct r.
Defined.

(** The machine is one that can be reached. *)
Lemma box_ok : box_reached box.
Proof.
  set (step := reached_run roster_hh roster_pub sample_config).
  pose proof (reached_boot roster_hh roster_pub sample_config box_view) as H0.
  assert (event_step roster_hh roster_pub empty_disk (EV_Op (io_at 110) RO_Provision (RA_Provision (Ok tt))) roster_d0) as E0
    by (apply sample_step; [lia|exact run_provision]).
  assert (event_step roster_hh roster_pub roster_d0 (EV_Op (io_at 110) (RO_Admit genesis_raw) (RA_Admit (Ok PA_Accepted))) roster_d1)
    as E1 by (apply sample_step; [lia|exact run_genesis]).
  pose proof (step _ _ H0 (rs_roster _ _ _ (MkMachine empty_disk latch_new fresh_disk (registry_new box_view) [])
    _ _ latch_new [] E0 ltac:(done) latch_new_ok (sublist_nil_l _))) as H1.
  pose proof (step _ _ H1 (rs_roster _ _ _ (MkMachine roster_d0 latch_new fresh_disk (registry_new box_view) [])
    _ _ latch_new [] E1 ltac:(done) latch_new_ok (sublist_nil_l _))) as H2.
  assert (initialize_or_recover roster_hh sample_config open_ok fresh_disk = Some (Ok tt, box_ledger)) as Ho
    by (vm_compute; reflexivity).
  exact (step _ _ H2 (rs_open _ _ _ (MkMachine roster_d1 latch_new fresh_disk (registry_new box_view) []) _ _ _ Ho)).
Qed.

(** ** At work *)

Definition box_after (c : @Conn _ b_seams) : Machine := (c_ext c : Machine * Z).1.

Lemma intents_of_in i l : intents_of l = [i] → Ev_RecvIntent i ∈ l.
Proof.
  intros H. assert (i ∈ intents_of l) as Hi by (rewrite H; left).
  apply list_elem_of_omap in Hi as (e & He & Hei). destruct e; try done. by injection Hei as ->.
Qed.

(** The first ceremony's session is with machine [a], which the roster vouches
    for. *)
Lemma session_peer_vouched_witness :
  ∃ s c' k view i b, b_run box 110 input1 = (Ok s, c') ∧ ma_log (box_after c') = ma_log box ++ k ∧
    ME_Snapshot view ∈ k ∧ ME_Permit i b ∈ k ∧
    vouches_for roster_hh roster_pub view (s_peer_m_id s) (s_peer_cert_fingerprint s).
Proof.
  pose proof b_run1 as Hr. destruct (b_run box 110 input1) as [r c'] eqn:H. destruct Hr as (Hok & _ & _).
  destruct r as [s|e]; [|discriminate Hok].
  destruct (@session_peer_vouched sample_cbor sample_cbor_laws _ toy_crypto_laws _ _ _ b_seams roster_hh roster_pub sample_config
    box_runtime roster_hh_ok sample_cap_ok sample_ingress local_b box_checkpoint EC_Dev sample_policy 750 threshold_3
    (b_conn box 110 input1) s c' box_ok (or_introl H)) as (_ & _ & k & view & i & b & Hk & Hv & Hp & Hvo & _).
  exists s, c', k, view, i, b. split_and!; [reflexivity|exact Hk|exact Hv|exact Hp|exact Hvo].
Defined.

(** The second ceremony accepts the nonce of the first again: 120 has passed. *)
Lemma replay_needs_expiry_witness :
  ∃ c2' k1 f k2, ma_log (box_after c2') = k1 ++ ME_Floor f :: k2 ∧ in_not_after (pg_intent (box_pending 120)) < f.
Proof.
  pose proof b_run1 as Hr1. destruct (b_run box 110 input1) as [r1 c1'] eqn:H1. destruct Hr1 as (Hok1 & Hx1 & Hi1).
  destruct r1 as [s1|e]; [|discriminate Hok1].
  pose proof b_run2 as Hr2. destruct (b_run box1 130 input2) as [r2 c2'] eqn:H2. destruct Hr2 as (Hok2 & Hi2).
  destruct r2 as [s2|e]; [|discriminate Hok2]. exists c2'.
  destruct (@replay_needs_expiry sample_cbor sample_cbor_laws _ toy_crypto_laws _ _ _ b_seams roster_hh roster_pub sample_config
    box_runtime roster_hh_ok sample_cap_ok
    sample_ingress local_b box_checkpoint EC_Dev sample_policy 750 threshold_3 (b_conn box 110 input1) s1 c1' (c_log c1')
    (pg_intent (box_pending 120))
    sample_ingress local_b box_checkpoint EC_Dev sample_policy 750 threshold_3 (b_conn box1 130 input2) s2 c2' (c_log c2')
    (pg_intent (box_pending 300))) as (k1 & f & k2 & Hk & Hf & _).
  - exact box_ok.
  - exact H1.
  - change (machine _ _ _ (c_ext c1')) with (box_after c1'). unfold box_after. rewrite Hx1. apply rtc_refl.
  - exact H2.
  - reflexivity.
  - apply intents_of_in. exact Hi1.
  - reflexivity.
  - apply intents_of_in. exact Hi2.
  - vm_compute. reflexivity.
  - exists k1, f, k2. split; [exact Hk|exact Hf].
Defined.
