(* ===== verification/RosterBridge.v ===== *)
(** * The control record behind the ceremony

    Models the other half of the runtime: [roster_bridge.rs] of
    [mesh-session-runtime-rs], which answers the validator's questions about a
    machine from the machine roster, and of [mesh_session_bridge.rs] of
    [keystore-rs] the adapter that lifts those answers to the validator's
    [RosterLookup] and the resolver of retained generations, which reads the
    machine's control record and validates its binding. *)

From stdpp Require Import base gmap sets list strings.
From Stdlib Require Import ZArith Lia Ascii.
From S2P Require Import Prelude.
From S2P Require Import ControlRecord.
From S2P Require Import Transition.
From S2P Require Import Samples.
From S2P Require Import StoreSpec.
From S2P Require Import Validator.
From S2P Require Import Cbor.
From S2P Require Import CborProofs.
From S2P Require Import CborSample.
From S2P Require Import Crypto.
From S2P Require Import SessionErrors.
From S2P Require Import Intent.
From S2P Require Import SessionSamples.
From S2P Require Import RosterView.
From S2P Require Import Household.
From S2P Require Import Roster.
From S2P Require Import RosterAdmit.
From S2P Require Import RosterProofs.
From S2P Require Import RosterInv.
From S2P Require Import RosterRecord.
From S2P Require Import RosterRederive.
From S2P Require Import RosterStore.
From S2P Require Import RosterHistory.
From S2P Require Import RosterSamples.
From S2P Require Import RosterSpec.

Open Scope Z_scope.

Inductive RosterCurrencyView :=
| RCV_Active (member_pub member_cert_fingerprint : bytes)
| RCV_Revoked
| RCV_NotListed
| RCV_Unavailable.

Definition view_of (member : MachineRosterMemberV1) : RosterCurrencyView :=
  RCV_Active (mm_m_pub member) (mm_machine_cert_fingerprint member).

Definition map_currency_outcome (outcome : Result RosterStoreError PublicCurrencyOutcome) : RosterCurrencyView :=
  match outcome with
  | Ok (PO_Active member) => view_of member
  | Ok (PO_Revoked _) => RCV_Revoked
  | Ok PO_NotListed => RCV_NotListed
  | Ok (PO_UnavailableNoGenesis | PO_UnavailableCheckpointStale | PO_UnavailableCheckpointForkConflict
       | PO_UnavailableEventForkConflict | PO_UnavailableClockState | PO_UnavailableOwnerAuthority) => RCV_Unavailable
  | Err _ => RCV_Unavailable
  end.

(** [RosterLookupBridge]: what a source answers at one moment, as the
    validator asks for it. Its [acquire_currency_lease], which always refuses,
    is not asked for here. *)
Definition lift_currency (v : RosterCurrencyView) : RosterCurrency :=
  match v with
  | RCV_Active member_pub member_cert_fingerprint => Roster_Active member_pub member_cert_fingerprint
  | RCV_Revoked => Roster_Revoked
  | RCV_NotListed => Roster_NotListed
  | RCV_Unavailable => Roster_Unavailable
  end.

Definition roster_lookup_bridge (query : string → RosterCurrencyView) (revision : string → Z) : RosterLookup :=
  MkRosterLookup (λ m_id, lift_currency (query m_id)) revision.

Section bridge.
Context {CC : CborCrate} {SC : SessionCrypto} {HC : HouseholdCrypto} {DD : DerivedDecoders}.

(** [HouseholdRosterSource::query_machine_currency]; [None] while the lock is
    polled for. *)
Definition source_query (co : MachineRosterCoordinator) (io : OpIo) (m_id : string) (l : FloorLatch) (d : RDisk)
    : option (RosterCurrencyView * FloorLatch * RDisk) :=
  '(outcome, l, d) ← RosterStore.query_machine_currency co io m_id l d;
  Some (map_currency_outcome outcome, l, d).

(** [HouseholdRosterSource::currency_revision]: [u64::MAX] without a snapshot. *)
Definition source_revision (co : MachineRosterCoordinator) (io : OpIo) (l : FloorLatch) (d : RDisk)
    : option (Z * FloorLatch * RDisk) :=
  '(snapshot, l, d) ← current_snapshot co io l d;
  Some (match snapshot with Ok v => rv_checkpoint_sequence v | Err _ => u64_modulus - 1 end, l, d).
End bridge.

Section resolver.
Context `{!Hashes} {S Io : Type} `{!AtomicControlRecordStore S Io}.

(** [BridgeGenerationResolver::resolve]; the four arguments are the source's,
    which names each of them with an underscore. *)
Definition generation_resolve (policy : DelegationPolicy) (roster : RosterLookup) (sig : SignatureVerifier)
    (now generation : Z) (io : Io) (s : S) (_hh_id _initiator_m_id : string) (_channel : ExpectedChannel)
    (_delegated_key_id : string) : Result IntentError ResolvedSignerAuthority :=
  match store_load io s with
  | Load_Exact record =>
      g ← ok_or (iter_find (λ g, gr_generation g =? generation) (rec_live_generations record))
            IE_NoRetainedGenerationResolverConfigured;
      map_err (λ _, IE_NoRetainedGenerationResolverConfigured)
        (validate_full_binding MeshSessionPurpose g (from_identity (rec_identity record)) policy roster sig now);;
      Ok (MkResolvedSignerAuthority (eb_public_key (gr_binding g)) (gr_generation g) (gr_not_after g))
  | _ => Err IE_NoRetainedGenerationResolverConfigured
  end.
End resolver.

(** ** What is resolved *)

Section vouched.
Context {CC : CborCrate} {CL : CborLaws} {SC : SessionCrypto} {HC : HouseholdCrypto} {DD : DerivedDecoders}.
Context (hh_id : HouseholdId) (hh_pub : P256PublicKey).

(** A machine the source reports active is one the household root certified. *)
Lemma source_active co io m l d pub fp l' d' :
  for_household hh_id hh_pub co → latch_ok l → io_ok io →
  source_query co io m l d = Some (RCV_Active pub fp, l', d') →
  ∃ member, certified hh_pub hh_id member ∧ mm_m_id member = m ∧ mm_m_pub member = pub ∧
    mm_machine_cert_fingerprint member = fp.
Proof.
  intros Hco Hl Hio H. apply bind_Some in H as ([[o l1] d1] & H & Ho). injection Ho as Ho _ _.
  unfold RosterStore.query_machine_currency in H. apply bind_Some in H as ([[od l2] d2] & Hop & H).
  destruct od as [e| |rec floor s hfp]; [by injection H as <- _ _..|]. injection H as <- _ _.
  destruct (derive_machine_currency s m _) as [mm|t| |reason] eqn:Hd; [|done|done|by destruct reason].
  injection Ho as <- <-. apply open_cases with (hh_id := hh_id) (hh_pub := hh_pub) in Hop as (r & _ & Hr); [|done..].
  destruct (Hr _ _ _ _ eq_refl) as (_ & (lf & Hv & Hdec & Hre) & _).
  apply currency_active in Hd as (data & (-> & _)%current_data_Ok & _ & Hin & Hid).
  apply rederive_current_Ok in Hre. destruct (ch_state_kind rec); [done| |done..].
  destruct Hre as (a & c & d0 & b & _ & _ & [= <-] & Hd0 & _). destruct Hd0. destruct re_ok.
  rewrite ro_active in Hin. apply elem_of_surviving in Hin as [Hin _].
  rewrite Forall_forall in ro_certified. exists mm. by split_and!; [apply ro_certified|..].
Qed.

Context {HA : Hashes} {S Io : Type} {ST : AtomicControlRecordStore S Io}.

(** C26: the resolver answers for itself. Whatever household, initiator, channel
    and key the ceremony asks for, the answer is the same: the key of a live
    generation of the machine's own control record, whose binding is valid now.
    Its delegator is the machine of that record and not the initiator asked
    for; when the roster that was consulted is the household's, that machine is
    one the household root certified, under the certificate the delegation
    names, and the delegation is signed by its key. *)
Theorem resolver_answers_for_itself co rio l d l' d' query revision policy sig now n (io : Io) (s : S) hh m ch kid r :
  for_household hh_id hh_pub co → latch_ok l → io_ok rio →
  generation_resolve policy (roster_lookup_bridge query revision) sig now n io s hh m ch kid = Ok r →
  (∀ record, store_load io s = Load_Exact record →
     source_query co rio (ci_machine_id (rec_identity record)) l d =
       Some (query (ci_machine_id (rec_identity record)), l', d')) →
  (∀ hh2 m2 ch2 kid2,
     generation_resolve policy (roster_lookup_bridge query revision) sig now n io s hh2 m2 ch2 kid2 = Ok r) ∧
  ∃ record g member, store_load io s = Load_Exact record ∧ g ∈ rec_live_generations record ∧
    r = MkResolvedSignerAuthority (dg_delegated_pub (gr_delegation g)) n (dg_not_after (gr_delegation g)) ∧
    dg_not_before (gr_delegation g) <= now < rs_not_after r ∧
    dg_hh_id (gr_delegation g) = ci_hh_id (rec_identity record) ∧
    dg_delegator_m_id (gr_delegation g) = ci_machine_id (rec_identity record) ∧
    certified hh_pub hh_id member ∧ mm_m_id member = ci_machine_id (rec_identity record) ∧
    mm_machine_cert_fingerprint member = dg_delegator_cert_fingerprint (gr_delegation g) ∧
    sig (mm_m_pub member) (gr_delegation g) (dg_sig (gr_delegation g)) = true.
Proof.
  intros Hco Hl Hio H Hq. split; [done|]. unfold generation_resolve in H.
  destruct (store_load io s) as [|record|]; [done| |done].
  apply bind_Ok in H as (g & (Hg & Hn%Z.eqb_eq)%ok_or_Ok%iter_find_Some & H).
  apply bind_Ok in H as ([] & Hv%map_err_Ok%validate_full_binding_Ok & [= <-]). destruct Hv.
  cbn [from_identity ctx_machine_id ctx_hh_id] in vb_machine, vb_hh. destruct vb_roster as (pub & Hr & Hs). cbn in Hr.
  assert (query (dg_delegator_m_id (gr_delegation g)) = RCV_Active pub (dg_delegator_cert_fingerprint (gr_delegation g))) as Ha
    by (destruct (query _); try done; by injection Hr as -> ->).
  specialize (Hq record eq_refl). rewrite <- vb_machine, Ha in Hq.
  apply source_active in Hq as (member & Hc & Hm & <- & Hf); [|done..]. 
  exists record, g, member. cbn [rs_not_after]. split_and!; try done; try congruence; lia.
Qed.
End vouched.

(** ** At work *)

Section witnesses.
#[local] Existing Instance sample_hashes.
#[local] Existing Instance sample_cbor.

(** Machine [a] of the sample household with a control record of its own. *)
Definition bridge_identity : ControlIdentity := MkControlIdentity roster_hh (mm_m_id member_a) Channel_Dev.
Definition bridge_slot : SlotId :=
  MkSlotId (identity_digest bridge_identity) PurposeId_MeshSession 1 (sample_txn 1) BackendKind_File.
Definition bridge_delegation : Delegation :=
  MkDelegation 1 "soyeht/mesh-session/delegation/v1" "soyeht/mesh-session/v1" roster_hh (mm_m_id member_a)
    (mm_machine_cert_fingerprint member_a) sample_key (canonical_id bridge_slot) "mesh-session"
    ["activate"; "final-confirm"; "activate-ack"] ["responder"; "initiator"] Channel_Dev 1 0 1000 [].
Definition bridge_token (revision : Z) : WorkerToken :=
  MkWorkerToken (sample_txn 1) PendingOpKind_Create 1 1 PurposeId_MeshSession (canonical_id bridge_slot) revision.
Definition bridge_record : MeshSignerControlRecordV1 := Eval vm_compute in
  foldl after (bootstrap bridge_identity PurposeId_MeshSession)
    [IntentRecorded (sample_txn 1) PendingOpKind_Create BackendKind_File;
     KeyObserved (bridge_token 1) (MkExactBinding bridge_slot sample_key []);
     ActivateFromKeyObserved (bridge_token 2) bridge_delegation].

(** A store that holds one record. *)
Definition one_record : AtomicControlRecordStore MeshSignerControlRecordV1 unit := {|
  store_load := λ _ r, Load_Exact r;
  store_replace := λ _ _ _ _ r, Some (KnownNoEffect, r);
  store_sweep := λ _ _ r, Some r;
|}.

Definition bridge_query (m_id : string) : RosterCurrencyView :=
  match source_query roster_co (io_at 110) m_id latch_new roster_d1 with Some (v, _, _) => v | None => RCV_Unavailable end.

(** The responder [a] asks for the key of the initiator [b]. *)
Definition bridge_resolve : Result IntentError ResolvedSignerAuthority :=
  @generation_resolve sample_hashes _ _ one_record (policy_test 5000) (roster_lookup_bridge bridge_query (λ _, 1))
    (λ _ _ _, true) 110 1 tt bridge_record roster_hh (mm_m_id member_b) EC_Dev "key-b".

Lemma bridge_resolves : bridge_resolve = Ok (MkResolvedSignerAuthority sample_key 1 1000).
Proof. vm_compute. reflexivity. Qed.

Lemma bridge_queried :
  ∃ l, source_query roster_co (io_at 110) (mm_m_id member_a) latch_new roster_d1 =
    Some (bridge_query (mm_m_id member_a), l, roster_d1).
Proof.
  unfold bridge_query, source_query. destruct (query_op _ _ _ _ _ run_active) as [l Hl]. rewrite Hl. by exists l.
Qed.

Lemma resolver_answers_for_itself_witness :
  ∃ member, certified roster_pub roster_hh member ∧ mm_m_id member = mm_m_id member_a ∧
    bridge_resolve = Ok (MkResolvedSignerAuthority sample_key 1 1000).
Proof.
  destruct bridge_queried as [l Hl].
  destruct (@resolver_answers_for_itself _ sample_cbor_laws _ _ _ roster_hh roster_pub sample_hashes _ _ one_record
    roster_co (io_at 110) latch_new roster_d1 l roster_d1 bridge_query (λ _, 1) (policy_test 5000) (λ _ _ _, true) 110 1 tt
    bridge_record roster_hh (mm_m_id member_b) EC_Dev "key-b" _ roster_co_ok latch_new_ok (io_at_ok 110 ltac:(lia)) bridge_resolves)
    as (_ & record & g & member & Hr & _ & _ & _ & _ & _ & Hc & Hm & _).
  - intros record [= <-]. exact Hl.
  - injection Hr as <-. exists member. split; [exact Hc|]. split; [exact Hm|exact bridge_resolves].
Defined.
End witnesses.
